(* ===== verification/_CoqProject ===== *)
-Q . S2P
Prelude.v
GoStd.v
Float.v
GoText.v
Sql.v
Effects.v
Behaviour.v
Keyspace.v
Locality.v
Protocol.v
Calls.v
Integrity.v
Sample.v
Pool.v
Store.v
StoreKeys.v
StoreStrings.v
StoreLists.v
StoreHashes.v
StoreSets.v
StoreZsets.v
Glob.v
Resp.v
Commands.v
CmdData.v
Soundness.v
Dispatch.v
Session.v
Confined.v
Lawful.v
Clients.v
Races.v
Broker.v
Server.v
Serving.v
Writer.v
Postgres.v
Config.v
Host.v
Drivers.v
Process.v
