(* ===== verification/Prelude.v ===== *)
(** * sql-resp: a Redis-protocol server over a relational database

    The program accepts RESP2 connections ([src/internal/server]), decodes
    commands ([src/internal/resp]), looks them up in a registry and carries
    them out ([src/internal/commands]) on a store ([src/internal/store]) that
    keeps every key in six SQL tables reached through the [DB] and [Tx]
    interfaces ([src/internal/db]). PUBLISH and SUBSCRIBE go through an
    in-memory broker ([src/internal/pubsub]); [src/internal/config] and
    [src/cmd/sql-resp] configure the process. This library models all of these
    from the bytes a client sends to the rows of the tables, and verifies each
    layer and their composition.

    ** Files, from the bottom up

    - Prelude.v: notation scope, hint databases, tactics, and the lemmas on
      lists and finite maps the components share.
    - GoStd.v: what the program uses of Go: [int64] with its wrap-around,
      index and slice expressions with their bounds checks, [strconv].
    - Float.v: binary64 scores, their order and addition, [ParseFloat] and the
      [%g] verb, and case mapping and quoting, of which only the ASCII part is
      fixed (class [Unicode]).
    - GoText.v: bytes of a string, [TrimSpace], [Split], [SplitN] and the lines
      of a [bufio.Scanner].
    - Sql.v: the tables of [sqliteSchema] ([db/db.go]); one constructor per
      SQL statement and query of the store, with its meaning on the tables
      (primary keys, [ON CONFLICT], foreign keys, [ON DELETE CASCADE]).
    - Effects.v: an operation is a [prog], a tree of the calls it makes
      on the database, the clock and Go's map iteration. [step] is what each
      call may answer and do, [Engine] any machine that respects [step], [run]
      the execution of a program on an engine, [wp] the weakest precondition
      calculus, and [wp_run] its soundness.
    - Behaviour.v: equivalence of programs on every engine, with the [Proper]
      instances to rewrite by it, and [returns], what a program ends in
      whatever it is answered.
    - Keyspace.v: the abstract specification. A [keyspace] maps a key to a
      typed value and a deadline; [abs now T] is the keyspace the tables [T]
      stand for at time [now], [wf] the invariant on tables. The contracts
      [on_entry], [atomically], [reads], [reads_any] and [reads_one_of] say
      what an operation promises of the keyspace; [slice_exec] restricts each
      statement to the rows of one key and [sql_exec_slice] is the simulation
      between the two.
    - Locality.v: which keys a statement or query reads and writes, and that
      it depends on no others. Protocol.v: which calls a program may make in
      which order ([conforms]): none on a finished transaction, none on the
      database while one is open, none left open; and on which keys.
    - Calls.v: policies, which calls a program may make while it is answered
      as expected ([obeys]). Integrity.v: [intact], what the tables keep
      whatever the clock does and whoever else is at work, and the policies
      [lawful], under which they do, and [pruning], under which nothing but
      expired keys goes.
    - Sample.v: a concrete database, a reliable engine and a faulty one, on
      which the theorems are instantiated.
    - Pool.v: clients at work at the same time, one call a step, on a clock of
      which any call may be shown any reading; a transaction works on a
      snapshot, and its commit merges the keys it changed. Clients
      whose keys are apart are shown to run as if one after the other
      ([pool_in_turn]), by a simulation of each by a run of its own; a client
      whom nobody disturbs runs as [run] says ([solo_steps]).
    - Store.v and StoreKeys.v: [store/store.go]. StoreStrings.v, StoreLists.v,
      StoreHashes.v, StoreSets.v and StoreZsets.v: [strings.go], [lists.go],
      [hashes.go], [sets.go] and [zsets.go] of the same package. A Go method
      [s.Op(ctx, key, db, ...)] is the definition [Op] on the key [(key, db)],
      with the same statements in the same order, the same early returns, and
      the same transactions. [Set_], [Exists_] and [Type_] are [Set], [Exists]
      and [Type], whose names Rocq reserves.
    - Glob.v: [globMatch], [matchGlob] and [Keys] of [store.go].
    - Resp.v: [resp/resp.go]: the encoder, the decoder, inline commands.
    - Commands.v: [commands/clientconn.go] and [strings.go]: a connection's
      state, the adapter [withStore], and the handlers of the string, key and
      database commands. CmdData.v: the handlers of [lists.go], [hashes.go],
      [sets.go] and [zsets.go]. A handler [cmdX] keeps its name.
    - Soundness.v: what every handler does to the keyspace at most, and that
      none panics but KEYS ([runs], [handles]).
    - Dispatch.v: [registry.go], [multi.go], [server.go] and [info.go] of the
      package: the registry, [Dispatch], [QueueOrDispatch], MULTI, EXEC,
      DISCARD and the commands without a key.
    - Session.v: one client's commands: the invariant of a connection, the
      effect of a command by its name, MULTI/EXEC against running the
      commands one by one.
    - Confined.v: every command conforms to the protocol of Protocol.v and
      stays in the database of its connection. Lawful.v: every command is
      lawful, and the reading ones only prune; hence what one command does on
      any engine with any clock. Clients.v: connections in different databases
      do not interfere. Races.v: schedules of commands on one key that no order
      of the commands explains, and one command that the clock overtakes.
    - Broker.v: [pubsub/broker.go].
    - Server.v: [server/server.go]: the connection handler from the bytes it
      reads to the values it writes, undisturbed; and a transition system in
      which a message is one event, for the theorem on authentication.
    - Serving.v: the same handler as a goroutine ([turn]), call by call, and
      the process as a transition system of the goroutines of all connections
      and of the sweep ([sys_step]). [solo_turn] says that a turn without
      others is that of Server.v; [sys_play] runs schedules.
    - Writer.v: [connWriter] of [server.go] and the calls of [writeValue] on
      its [bufio.Writer], with several goroutines under its mutex.
    - Postgres.v: what [db/postgres.go] computes itself (placeholders,
      statements, migration) and the schema text of [db/db.go].
    - Config.v: [config/config.go], the flags of [main.go], and the DSN that
      [db/sqlite.go] opens.
    - Host.v: a goroutine as a program [act] of calls on the operating system
      and [database/sql], what the host may answer, and a rely-guarantee rule
      for goroutines ([must]). Drivers.v: both drivers of [db] as records of
      such programs. Process.v: [ListenAndServe], [serve] and [Close] of
      [server.go] and [main], as a transition system of the goroutines of
      [main], of the sweep and of the signals.

    ** State and effects

    A [State] is what an engine exposes: the committed tables, the tables of
    the open transaction if there is one, and the readings of the clock to
    come. An operation reads the clock several times. The contracts of the
    store's operations are about a state that is [ready]: the tables are well
    formed, no transaction is open and the clock shows the same instant for the
    duration of the operation. Without the last they do not hold: when the
    deadline of a key falls between two readings, one SET may leave a key with
    rows of two types ([Races.set_past_deadline]). What holds with any readings
    is stated with [intact] for [wf] and [between] for [ready]: a command, a
    connection and the whole process keep the tables intact (every row belongs
    to a key of one of the five types, no score is a NaN), leave no transaction
    open, and fail only as said.

    An engine is either reliable ([Reliable]) or may fail at any call
    ([faulty]); a failing statement may or may not have taken effect, as when
    the connection to the database is lost, and a failing commit likewise. The
    store's theorems state both cases: on a reliable engine the exact result
    and keyspace, and on a faulty one what an error can leave behind (nothing,
    or all when a failed commit took effect, for an operation in one
    transaction; a prefix of its work, for the loops that run outside one). The
    theorems of Lawful.v, Clients.v, Server.v and Serving.v hold on every
    engine. Every operation is a finite tree of calls, so it returns on every
    engine.

    Go's map iteration is a call [RangeMap] that answers the keys in any
    order, and a query without [ORDER BY] answers its rows in any order: the
    theorems hold for every order. Strings are sequences of bytes. Integers
    are [Z] with the wrap-around of [int64] written where Go computes one.
    Index and slice expressions that may be out of range yield a panic.

    Up to Session.v an operation has the database to itself. In Pool.v its
    calls interleave with those of others: a statement outside a transaction
    takes effect at once, a transaction reads its snapshot and its own writes,
    and a commit succeeds when nobody else has changed the keys it changed and
    may be refused otherwise. With [refreshing] a transaction may renew its
    snapshot between two statements, which is PostgreSQL's default isolation;
    SQLite, where one writer excludes the others, has fewer schedules.

    ** Theorems

    - Session.v, Lawful.v, Server.v and Serving.v, the whole program: a client's
      command keeps the tables, the connection and what other keys hold, by the
      effect of its name; MULTI ... EXEC is the commands in turn; what SET
      stores GET answers; over every interleaving of the calls of connections
      and sweep, with any clock, the tables and the open transactions stay
      intact, the broker and the connections well formed, and the process dies
      on [hostile] input only; without the password nobody changes a table,
      gains a subscription or is sent data; a message is answered by as many
      values as are due; a connection is served to its end unless its input is
      [hostile]; a published message goes to each subscription.
    - Confined.v, Clients.v and Races.v, clients at the same time: every
      command uses the connection to the database in order and stays in its
      database; commands in different databases are serializable and keep the
      tables intact. On one key they are not: two LPUSH lose an element,
      two INCRBY an increment where the engine's isolation is read committed,
      SET and LPUSH leave a key of two types, and a command of another client
      runs inside EXEC.
    - Writer.v: the bytes on a connection are the encodings of whole values,
      in the order of the lock, or a beginning of them after an error.
    - Process.v: connections are accepted on a migrated database only; a signal
      stops the server and closes the database, but there is a run in which one
      that is handled before the listener is stored is lost.
    - Store.v, StoreKeys.v, StoreStrings.v, StoreLists.v, StoreHashes.v,
      StoreSets.v, StoreZsets.v: each operation refines its specification on
      the keyspace, for every branch (missing, expired, right type, wrong type,
      engine failure), preserves [wf], and touches no other key. The [_spec]
      definitions are the specifications; the [_crash] definitions say what a
      failing engine may leave. [Store.Expire_overflow] and
      [StoreSets.SDiff_stale] characterise two misbehaviours.
    - Glob.v: the matcher agrees with the pattern language ([parse_pattern],
      [matches]) on patterns whose classes are closed, always ends with the
      fuel it is given, and panics on an unterminated class.
    - Resp.v: what is written is read back, but a line with a newline in it is
      not ([newline_cuts]); decoding ends on every input, the inline splitter
      yields the maximal runs of non-blank characters, and a bulk length that
      no machine can allocate panics.
    - Broker.v: subscription, unsubscription and delivery, for every order of
      the map, and the condition under which a disconnected subscriber is
      still delivered to.
    - Postgres.v: the k-th placeholder outside a literal becomes [$k] and
      literals stay; a schema splits into its statements, which the migration
      runs in order up to the first that fails.
    - Config.v: which source decides each setting, what a file written
      from a list of settings loads as, and that an [hz] of zero panics.

    ** Fuel

    [glob_fuel] spends one unit per pattern element and per iteration of the
    star's loop body, and is given [S (length pat)], since every recursive
    call is on a shorter pattern. [readValue] is given [S (length s)], since
    every value consumes its type byte. [swap_loop] is given the length of the
    list, and [format_digits] the number of bits, which bounds its digits.
    [Dispatch] is given 2: EXEC dispatches what is queued, and what is queued
    is never an EXEC. [serve] is given [S (length input)], since a message
    consumes a byte. That none of these runs out is part of the theorems
    ([globMatch_correct], [ReadValue_terminates], [command_safe],
    [handleConn_safe]). The loop of [bufio.Writer.Write] has two rounds more
    than bytes ([bw_loop_ends]): a round takes a byte off the text or empties
    the buffer.

    ** Parameters

    The engine behind [db.DB]; the case mapping and quoting of text beyond
    ASCII (class [Unicode]); the memory and the stack that the Go runtime has
    for [ReadValue] (class [Runtime]: by size, and by depth of nesting), for
    want of which it ends the process; the network of a connection, by the
    contract of
    [io.Writer] (class [NetConn]); the types of [database/sql] that the drivers
    hand through (class [SqlTypes]); for the configuration, the contents of
    the file, the environment, the parsed
    flags and the order of Go's map; for the migration, what the driver makes
    of a statement; the process's start time, which INFO reports.

    ** Not modelled

    - Shortage of memory or stack anywhere but in the allocations by a length
      the client sends and the nesting of its arrays.
    - PostgreSQL where it differs from SQLite in what a statement means: it
      stores a NaN score, which in Sql.v violates NOT NULL as in SQLite; it
      refuses text that is not UTF-8 or holds a NUL byte, and once a statement
      of a transaction has failed, the rest of it (both are failures of the
      engine here).
    - In the transition system of Server.v, which only the theorem on
      authentication uses, a message is a single event and the clock moves
      between events only; a message it speaks of, of a connection that has not
      authenticated, does not reach the database. Serving.v has the calls.
    - Conflicts of transactions are by key (Pool.v).
    - In Server.v and Serving.v a write is a value addressed to a connection,
      which never blocks; in Writer.v the network takes or refuses bytes but
      does not block either.
    - Errors of the connection while reading, other than its end; what TLS
      does to a connection, which [main] never configures.
    - [Server.Addr], which only the tests call.
    - [commands.Errorf], which nothing calls. *)
From stdpp Require Export base tactics option list strings gmap fin_maps sorting.
From stdpp Require Export numbers.
From Stdlib Require Ascii.
Export Stdlib.Strings.Ascii (ascii(..)).
Export (notations) Stdlib.Strings.Ascii.

(** ** Notation scope and automation of the development *)

Declare Scope go_scope.
Delimit Scope go_scope with go.

Create HintDb sqlresp discriminated.
Create Rewrite HintDb rows.
Create Rewrite HintDb go.

(** Case analysis on every [match] and [if] of the goal or a hypothesis. *)
Ltac split_matches :=
  repeat (case_match || case_decide || case_bool_decide); simplify_eq/=.

(** Unpack existentials, conjunctions and equalities of the context. *)
Ltac unpack :=
  repeat match goal with
  | H : _ ∧ _ |- _ => destruct H
  | H : ∃ _, _ |- _ => destruct H
  | H : _ * _ |- _ => destruct H
  | H : Some _ = Some _ |- _ => injection H as H
  end; simplify_eq/=.

(** ** Lists *)

Section lists.
Context {A : Type}.
Implicit Types l : list A.

Lemma foldl_snoc {B} (f : B → A → B) b l x :
  foldl f b (l ++ [x]) = f (foldl f b l) x.
Proof. by rewrite foldl_app. Qed.

(** A Go loop that appends. *)
Lemma foldl_append l acc : foldl (λ l x, l ++ [x]) acc l = acc ++ l.
Proof.
  revert acc. induction l as [|x l IH]; intros acc; simpl; [by rewrite app_nil_r|].
  by rewrite IH, <- app_assoc.
Qed.

(** Two lists sorted by a strict order that are permutations of each other
    are the same list. *)
Lemma sorted_perm_unique (R : relation A) `{!Irreflexive R, !Transitive R} l1 l2 :
  StronglySorted R l1 → StronglySorted R l2 → l1 ≡ₚ l2 → l1 = l2.
Proof.
  intros H1 H2 Hp. apply (StronglySorted_unique_strong R); [|done..].
  intros x y _ _ Hxy Hyx. by destruct (irreflexivity R x); etrans.
Qed.
End lists.

(** ** Tables: finite maps keyed by a pair, grouped by the first component *)

Section rows.
Context {K S : Type} `{Countable K, Countable S} {V : Type}.
Implicit Types (m : gmap (K * S) V) (k : K) (s : S).

(** The rows of table [m] whose first key column is [k]. *)
Definition rows k m : gmap S V :=
  default ∅ (map_curry (M1 := gmap K) (M2 := gmap S) m !! k).

Lemma lookup_rows k m s : rows k m !! s = m !! (k, s).
Proof.
  unfold rows.
  rewrite <- (lookup_map_curry (M1:=gmap K) (M2:=gmap S) m k s).
  by destruct (map_curry m !! k).
Qed.

Lemma rows_ext k m1 m2 :
  (∀ s, m1 !! (k, s) = m2 !! (k, s)) → rows k m1 = rows k m2.
Proof. intros Heq. apply map_eq. intros s. by rewrite !lookup_rows. Qed.

Lemma rows_insert_eq k s v m : rows k (<[(k, s) := v]> m) = <[s := v]> (rows k m).
Proof.
  apply map_eq. intros s'. rewrite lookup_rows.
  destruct (decide (s = s')) as [->|Hne]; [by rewrite !lookup_insert_eq|].
  rewrite !lookup_insert_ne by congruence. by rewrite lookup_rows.
Qed.

Lemma rows_insert_ne k k' s v m : k ≠ k' → rows k (<[(k', s) := v]> m) = rows k m.
Proof. intros Hne. apply rows_ext. intros s'. by rewrite lookup_insert_ne by congruence. Qed.

Lemma rows_delete_eq k s m : rows k (delete (k, s) m) = delete s (rows k m).
Proof.
  apply map_eq. intros s'. rewrite lookup_rows.
  destruct (decide (s = s')) as [->|Hne]; [by rewrite !lookup_delete_eq|].
  rewrite !lookup_delete_ne by congruence. by rewrite lookup_rows.
Qed.

Lemma rows_delete_ne k k' s m : k ≠ k' → rows k (delete (k', s) m) = rows k m.
Proof. intros Hne. apply rows_ext. intros s'. by rewrite lookup_delete_ne by congruence. Qed.

Lemma rows_empty_None k m s : rows k m = ∅ → m !! (k, s) = None.
Proof. intros Hr. by rewrite <- lookup_rows, Hr, lookup_empty. Qed.
End rows.

#[export] Hint Rewrite @lookup_rows @rows_insert_eq @rows_delete_eq : rows.
#[export] Hint Rewrite @rows_insert_ne @rows_delete_ne using congruence : rows.

(** A map without some of its keys. *)
Definition without {A} (ks : list string) (m : gmap string A) : gmap string A :=
  filter (λ p, p.1 ∉ ks) m.

Lemma without_nil {A} (m : gmap string A) : without [] m = m.
Proof. apply map_filter_id. intros f v _; simpl. apply not_elem_of_nil. Qed.

Lemma without_empty {A} ks : without ks (∅ : gmap string A) = ∅.
Proof. apply map_filter_empty. Qed.

Lemma without_snoc {A} ks k (m : gmap string A) : without (ks ++ [k]) m = delete k (without ks m).
Proof.
  unfold without. apply map_eq. intros g. apply option_eq. intros v.
  rewrite lookup_delete_Some, !map_lookup_filter_Some. simpl.
  rewrite elem_of_app, list_elem_of_singleton. intuition congruence.
Qed.

Lemma size_deleted {A} k (m : gmap string A) :
  (Z.of_nat (size m) - Z.of_nat (size (delete k m)))%Z = match m !! k with Some _ => 1%Z | None => 0%Z end.
Proof.
  destruct (m !! k) as [v|] eqn:Hk.
  - assert (size m = S (size (delete k m))) as ->; [|lia].
    rewrite map_size_delete_Some by eauto.
    assert (size m ≠ 0%nat) by (apply map_size_non_empty_iff; by intros ->). lia.
  - rewrite delete_id by done. lia.
Qed.
