(* ===== verification/GoStd.v ===== *)
(** The pieces of the Go language and standard library the program uses:
    64-bit integers, slices and [strconv]. Nothing here is code of the repository; it is the vocabulary
    the components are written in. *)
From S2P Require Import Prelude.
Local Open Scope Z_scope.

(** ** int64 *)

Definition min_int64 : Z := - 2 ^ 63.
Definition max_int64 : Z := 2 ^ 63 - 1.

Definition int64_ok (z : Z) : Prop := min_int64 ≤ z ≤ max_int64.

#[export] Instance int64_ok_dec z : Decision (int64_ok z).
Proof. unfold int64_ok. apply _. Defined.

(** Two's complement wrap-around: the value of any int64 [+], [-], [*]. *)
Definition wrap64 (z : Z) : Z := (z + 2 ^ 63) mod 2 ^ 64 - 2 ^ 63.

Lemma wrap64_ok z : int64_ok (wrap64 z).
Proof.
  unfold int64_ok, wrap64, min_int64, max_int64.
  pose proof (Z.mod_pos_bound (z + 2 ^ 63) (2 ^ 64)). lia.
Qed.

Lemma wrap64_id z : int64_ok z → wrap64 z = z.
Proof.
  unfold int64_ok, wrap64, min_int64, max_int64. intros.
  rewrite Z.mod_small; lia.
Qed.

(** One step beyond the range wraps around by [2^64]. *)
Lemma wrap64_over z : max_int64 < z ≤ max_int64 + 2 ^ 64 → wrap64 z = z - 2 ^ 64.
Proof.
  unfold wrap64, max_int64. intros.
  rewrite <- (Z.mod_unique (z + 2 ^ 63) (2 ^ 64) 1 (z - 2 ^ 63)); lia.
Qed.

#[export] Hint Resolve wrap64_ok : sqlresp.
#[export] Hint Rewrite wrap64_id using (assumption || lia) : go.

(** ** Slices *)

(** [s[i]]: out of range is a panic. *)
Definition go_index {A} (l : list A) (i : Z) : option A :=
  if decide (0 ≤ i) then l !! Z.to_nat i else None.

(** [s[i:j]] of a slice without spare capacity: [None] is a panic. *)
Definition go_slice {A} (l : list A) (i j : Z) : option (list A) :=
  if decide (0 ≤ i ≤ j ∧ j ≤ Z.of_nat (length l))
  then Some (take (Z.to_nat (j - i)) (drop (Z.to_nat i) l)) else None.

(** [s[i] = v]: out of range is a panic. *)
Definition go_update {A} (l : list A) (i : Z) (v : A) : option (list A) :=
  if decide (0 ≤ i < Z.of_nat (length l)) then Some (<[Z.to_nat i := v]> l) else None.

Lemma go_slice_some {A} (l : list A) i j :
  0 ≤ i ≤ j → j ≤ Z.of_nat (length l) →
  go_slice l i j = Some (take (Z.to_nat (j - i)) (drop (Z.to_nat i) l)).
Proof. intros. unfold go_slice. by rewrite decide_True. Qed.

(** ** strconv *)

Definition digit_char (d : Z) : ascii := Stdlib.Strings.Ascii.ascii_of_nat (Z.to_nat (d + 48)).

Definition char_digit (c : ascii) : option Z :=
  let n := Z.of_nat (Stdlib.Strings.Ascii.nat_of_ascii c) in
  if decide (48 ≤ n ≤ 57) then Some (n - 48) else None.

(** The loop of [ParseUint(s, 10, _)] after its empty-string check. *)
Fixpoint parse_digits (s : string) (acc : Z) : option Z :=
  match s with
  | EmptyString => Some acc
  | String c s' => d ← char_digit c; parse_digits s' (acc * 10 + d)
  end.

Definition parse_uint (s : string) : option Z :=
  match s with EmptyString => None | _ => parse_digits s 0 end.

(** [strconv.ParseInt(s, 10, 64)] and, on a 64-bit platform, [strconv.Atoi(s)]:
    [None] is a non-nil error (syntax or range). *)
Definition parse_int (s : string) : option Z :=
  match s with
  | String "-"%char s' => n ← parse_uint s'; if decide (n ≤ 2 ^ 63) then Some (- n) else None
  | String "+"%char s' => n ← parse_uint s'; if decide (n < 2 ^ 63) then Some n else None
  | _ => n ← parse_uint s; if decide (n < 2 ^ 63) then Some n else None
  end.

(** Decimal digits of a natural number, most significant first. The fuel is
    the number of bits of the argument, at least its number of digits. *)
Fixpoint format_digits (fuel : nat) (n : Z) (acc : string) : string :=
  match fuel with
  | O => acc
  | S fuel' =>
      let acc' := String (digit_char (n mod 10)) acc in
      if decide (n < 10) then acc' else format_digits fuel' (n / 10) acc'
  end.

Definition format_uint (n : Z) : string :=
  format_digits (S (Z.to_nat (Z.log2 n))) n EmptyString.

(** [strconv.FormatInt(n, 10)], also [fmt]'s [%d]. *)
Definition format_int (n : Z) : string :=
  if decide (n < 0) then String "-"%char (format_uint (- n)) else format_uint n.

Lemma char_digit_char d : 0 ≤ d < 10 → char_digit (digit_char d) = Some d.
Proof.
  intros Hd. unfold char_digit, digit_char.
  rewrite Stdlib.Strings.Ascii.nat_ascii_embedding by lia.
  rewrite Z2Nat.id by lia. rewrite decide_True by lia. f_equal. lia.
Qed.

(** Parsing the printed digits consumes them as [acc * 10^k + n]. *)
Lemma parse_format_digits fuel n s a :
  0 ≤ n < 2 ^ Z.of_nat fuel →
  ∃ k : Z, 0 ≤ k ∧ parse_digits (format_digits fuel n s) a = parse_digits s (a * 10 ^ k + n).
Proof.
  revert n s. induction fuel as [|fuel IH]; intros n s Hn.
  { exists 0. simpl. replace (a * 10 ^ 0 + n) with a by lia. done. }
  cbn [format_digits]. case_decide as Hlt.
  - exists 1. split; [lia|]. cbn [parse_digits].
    rewrite Z.mod_small, char_digit_char by lia. simpl. f_equal; lia.
  - destruct (IH (n / 10) (String (digit_char (n mod 10)) s)) as (k & Hk & ->).
    { split; [apply Z.div_pos; lia|].
      apply Z.div_lt_upper_bound; [lia|].
      rewrite Nat2Z.inj_succ, Z.pow_succ_r in Hn by lia. lia. }
    exists (k + 1). split; [lia|]. cbn [parse_digits].
    rewrite char_digit_char by (apply Z.mod_pos_bound; lia). simpl. f_equal.
    rewrite Z.pow_add_r by lia. pose proof (Z.div_mod n 10). lia.
Qed.

(** Printing in front of a digit leaves a digit in front. *)
Lemma format_digits_head fuel n d s : 0 ≤ d < 10 →
  ∃ d' s', 0 ≤ d' < 10 ∧
    format_digits fuel n (String (digit_char d) s) = String (digit_char d') s'.
Proof.
  revert n d s. induction fuel as [|fuel IH]; intros n d s Hd; cbn [format_digits].
  { by exists d, s. }
  pose proof (Z.mod_pos_bound n 10).
  case_decide; [by exists (n mod 10); eauto with lia|]. apply IH. lia.
Qed.

Lemma format_uint_head n : ∃ d s, 0 ≤ d < 10 ∧ format_uint n = String (digit_char d) s.
Proof.
  unfold format_uint. cbn [format_digits]. pose proof (Z.mod_pos_bound n 10).
  case_decide; [by exists (n mod 10); eauto with lia|]. apply format_digits_head. lia.
Qed.

Lemma parse_format_uint n : 0 ≤ n → parse_uint (format_uint n) = Some n.
Proof.
  intros Hn. destruct (format_uint_head n) as (d & s & _ & Hs).
  unfold parse_uint. rewrite Hs, <- Hs. unfold format_uint.
  destruct (parse_format_digits (S (Z.to_nat (Z.log2 n))) n EmptyString 0) as (k & _ & ->).
  - split; [done|]. rewrite Nat2Z.inj_succ, Z2Nat.id by apply Z.log2_nonneg.
    destruct (decide (n = 0)) as [->|]; [done|]. apply Z.log2_spec. lia.
  - done.
Qed.

(** A digit is neither sign, so an unsigned number is parsed by the last case. *)
Lemma parse_int_digit d s : 0 ≤ d < 10 →
  parse_int (String (digit_char d) s) =
    (n ← parse_uint (String (digit_char d) s); if decide (n < 2 ^ 63) then Some n else None).
Proof.
  intros Hd.
  assert (d ∈ seqZ 0 10) as Hin by (apply elem_of_seqZ; lia).
  repeat (apply elem_of_cons in Hin as [->|Hin]; [done|]). by apply elem_of_nil in Hin.
Qed.

(** [ParseInt] inverts [FormatInt] on every int64. *)
Lemma parse_format_int n : int64_ok n → parse_int (format_int n) = Some n.
Proof.
  unfold int64_ok, min_int64, max_int64, format_int. intros Hn. case_decide.
  - simpl. rewrite parse_format_uint by lia. simpl.
    rewrite decide_True by lia. f_equal. lia.
  - destruct (format_uint_head n) as (d & s & Hd & Hs).
    rewrite Hs, parse_int_digit, <- Hs, parse_format_uint by lia. simpl.
    by rewrite decide_True by lia.
Qed.

Lemma parse_uint_nonneg s n : parse_uint s = Some n → 0 ≤ n.
Proof.
  assert (∀ s a n, 0 ≤ a → parse_digits s a = Some n → 0 ≤ n) as Hgen.
  { clear. intros s. induction s as [|c s IH]; simpl; intros a n Ha; [by intros [= <-]|].
    unfold char_digit. case_decide; simpl; [|done]. apply IH. lia. }
  destruct s; simpl; [done|]. intros Hp. by eapply (Hgen (String _ _) 0).
Qed.

(** Whatever [ParseInt] accepts is an int64. *)
Lemma parse_int_ok s n : parse_int s = Some n → int64_ok n.
Proof.
  unfold int64_ok, min_int64, max_int64. intros Hp.
  assert (∃ s' m, parse_uint s' = Some m ∧
    (n = - m ∧ m ≤ 2 ^ 63 ∨ n = m ∧ m < 2 ^ 63)) as (s' & m & Hm & Hn).
  { unfold parse_int in Hp. repeat case_match;
      apply bind_Some in Hp as (m & Hm & Hd); case_decide; simplify_eq; eauto 10. }
  apply parse_uint_nonneg in Hm. lia.
Qed.
