(* ===== verification/Float.v ===== *)
(** Go's [float64] and the parts of [strconv] and [fmt] the program uses on
    it: binary64 numbers as the Standard Library's [spec_float], their order,
    addition, [ParseFloat] and the [%g] verb; and Go's [strings.ToUpper] and
    [ToLower]. *)
From S2P Require Import Prelude GoStd.
From Stdlib Require Export SpecFloat.
Local Open Scope Z_scope.

(** SQL [REAL]/[DOUBLE PRECISION] and Go [float64]: radix 2, 53 bits. *)
Abbreviation float64 := spec_float.
Abbreviation f64_prec := 53 (only parsing).
Abbreviation f64_emax := 1024 (only parsing).

#[export] Instance float64_eq_dec : EqDecision float64.
Proof. solve_decision. Defined.

Definition f64_add (x y : float64) : float64 := SFadd f64_prec f64_emax x y.
Definition f64_zero : float64 := S754_zero false.
Definition f64_inf (neg : bool) : float64 := S754_infinity neg.
Definition is_nan (x : float64) : bool := match x with S754_nan => true | _ => false end.
Definition is_inf (x : float64) : bool := match x with S754_infinity _ => true | _ => false end.

(** The nearest float, ties to even, of [m * 2^e] and of [m * 10^e]. *)
Definition f64_of_bin (neg : bool) (m e : Z) : float64 :=
  match m with
  | Zpos p => binary_round f64_prec f64_emax neg p e
  | _ => S754_zero neg
  end.

Definition f64_of_dec (neg : bool) (m e : Z) : float64 :=
  match m with
  | Zpos p =>
      if decide (0 ≤ e) then binary_round f64_prec f64_emax neg (Z.to_pos (m * 10 ^ e)) 0
      else SFdiv f64_prec f64_emax (S754_finite neg p 0)
             (S754_finite false (Z.to_pos (10 ^ (- e))) 0)
  | _ => S754_zero neg
  end.

(** ** Order *)

(** The comparison of floats reads sign, exponent and mantissa in turn. *)
Definition f64_rank (x : float64) : Z * Z * Z :=
  match x with
  | S754_infinity true => (-2, 0, 0)
  | S754_finite true m e => (-1, - e, Zneg m)
  | S754_zero _ | S754_nan => (0, 0, 0)
  | S754_finite false m e => (1, e, Zpos m)
  | S754_infinity false => (2, 0, 0)
  end.

Definition lex3 (a b : Z * Z * Z) : Prop :=
  a.1.1 < b.1.1 ∨ a.1.1 = b.1.1 ∧ (a.1.2 < b.1.2 ∨ a.1.2 = b.1.2 ∧ a.2 < b.2).

(** Unfold a comparison into comparisons of integers. *)
Ltac compare_floats :=
  repeat match goal with
  | |- context [PosDef.Pos.compare_cont Eq ?a ?b] =>
      change (PosDef.Pos.compare_cont Eq a b) with (Pos.compare a b)
  | |- context [Z.compare ?a ?b] => destruct (Z.compare_spec a b); simpl
  | |- context [Pos.compare ?a ?b] => destruct (Pos.compare_spec a b); simpl
  end.

Lemma SFltb_rank x y : is_nan x = false → is_nan y = false →
  SFltb x y = true ↔ lex3 (f64_rank x) (f64_rank y).
Proof.
  unfold SFltb, lex3. destruct x as [[]|[]| |[] mx ex], y as [[]|[]| |[] my ey]; simpl; intros; try done;
    compare_floats; (split; [intros; done || lia|intros; done || lia]).
Qed.

Lemma SFeqb_rank x y : is_nan x = false → is_nan y = false →
  SFeqb x y = true ↔ f64_rank x = f64_rank y.
Proof.
  unfold SFeqb. destruct x as [[]|[]| |[] mx ex], y as [[]|[]| |[] my ey]; simpl; intros; try done;
    compare_floats; split; intros; simplify_eq; try done; try lia.
Qed.

(** ** Letter case *)

(** The Unicode tables behind [strings.ToUpper], [strings.ToLower] and
    [strconv.Quote], which decide only on a string with a byte outside ASCII. *)
Class Unicode := {
  unicode_upper : string → string;
  unicode_lower : string → string;
  unicode_quote : string → string;
}.

(** Tables for strings that are ASCII, on which they do not matter. *)
Definition ascii_only : Unicode := {|
  unicode_upper s := s; unicode_lower s := s; unicode_quote s := s;
|}.

Definition byte_of (c : ascii) : Z := Z.of_nat (Stdlib.Strings.Ascii.nat_of_ascii c).
Definition of_byte (n : Z) : ascii := Stdlib.Strings.Ascii.ascii_of_nat (Z.to_nat n).

Definition upper_ascii (c : ascii) : ascii :=
  if decide (97 ≤ byte_of c ≤ 122) then of_byte (byte_of c - 32) else c.
Definition lower_ascii (c : ascii) : ascii :=
  if decide (65 ≤ byte_of c ≤ 90) then of_byte (byte_of c + 32) else c.

Fixpoint map_string (f : ascii → ascii) (s : string) : string :=
  match s with EmptyString => EmptyString | String c s' => String (f c) (map_string f s') end.

Fixpoint is_ascii (s : string) : bool :=
  match s with EmptyString => true | String c s' => bool_decide (byte_of c < 128) && is_ascii s' end.

(** [strings.ToUpper], [strings.ToLower]. *)
Definition ToUpper `{Unicode} (s : string) : string :=
  if is_ascii s then map_string upper_ascii s else unicode_upper s.
Definition ToLower `{Unicode} (s : string) : string :=
  if is_ascii s then map_string lower_ascii s else unicode_lower s.

(** ** strconv.ParseFloat *)

(** [lower] of [strconv]: [c | ('x' - 'X')]. *)
Definition lower_bit (c : ascii) : Z := Z.lor (byte_of c) 32.

Definition digit_of (base : Z) (c : ascii) : option Z :=
  let n := byte_of c in
  if decide (48 ≤ n ≤ 57) then Some (n - 48)
  else if decide (base = 16 ∧ 97 ≤ lower_bit c ≤ 102) then Some (lower_bit c - 87)
  else None.

(** The mantissa loop of [readFloat]: the digits read as one number, how many
    of them follow the point, whether there was a digit, and what is left. *)
Fixpoint scan_mantissa (base : Z) (s : string) (m frac : Z) (dot digits : bool)
    : Z * Z * bool * string :=
  match s with
  | EmptyString => (m, frac, digits, s)
  | String c s' =>
      if decide (c = "_"%char) then scan_mantissa base s' m frac dot digits
      else if decide (c = "."%char) then
        if dot then (m, frac, digits, s) else scan_mantissa base s' m frac true digits
      else
        match digit_of base c with
        | Some d => scan_mantissa base s' (m * base + d) (if dot then frac + 1 else frac) dot true
        | None => (m, frac, digits, s)
        end
  end.

(** The exponent's digits. *)
Fixpoint scan_exponent (s : string) (e : Z) : Z * string :=
  match s with
  | EmptyString => (e, s)
  | String c s' =>
      if decide (c = "_"%char) then scan_exponent s' e
      else match char_digit c with Some d => scan_exponent s' (e * 10 + d) | None => (e, s) end
  end.

Definition split_sign (s : string) : bool * string :=
  match s with
  | String "+"%char s' => (false, s')
  | String "-"%char s' => (true, s')
  | _ => (false, s)
  end.

(** The optional exponent, marked by [mark]: [None] is a syntax error. *)
Definition read_exponent (base : Z) (s : string) : option (Z * string) :=
  match s with
  | String c s' =>
      if decide (lower_bit c = if decide (base = 16) then 112 else 101) then
        let '(neg, s'') := split_sign s' in
        match s'' with
        | String d _ =>
            match char_digit d with
            | Some _ => let '(e, rest) := scan_exponent s'' 0 in Some (if neg then - e else e, rest)
            | None => None
            end
        | EmptyString => None
        end
      else if decide (base = 16) then None else Some (0, s)
  | EmptyString => if decide (base = 16) then None else Some (0, s)
  end.

(** The loop of [underscoreOK]; [saw] is the class of the last character. *)
Inductive saw_class := SawStart | SawDigit | SawUnderscore | SawOther.

Fixpoint underscore_scan (hex : bool) (saw : saw_class) (s : string) : bool :=
  match s with
  | EmptyString => match saw with SawUnderscore => false | _ => true end
  | String c s' =>
      match digit_of (if hex then 16 else 10) c with
      | Some _ => underscore_scan hex SawDigit s'
      | None =>
          match saw with
          | SawDigit =>
              underscore_scan hex (if decide (c = "_"%char) then SawUnderscore else SawOther) s'
          | SawUnderscore => false
          | _ => if decide (c = "_"%char) then false else underscore_scan hex SawOther s'
          end
      end
  end.

Definition hex_prefix (s : string) : option string :=
  match s with
  | String "0"%char (String c s') => if decide (lower_bit c = 120) then Some s' else None
  | _ => None
  end.

(** [underscoreOK] after the sign; a base prefix counts as a digit. *)
Definition underscoreOK (s : string) : bool :=
  match s with
  | String "0"%char (String c s') =>
      if decide (lower_bit c = 120) then underscore_scan true SawDigit s'
      else if decide (lower_bit c = 98 ∨ lower_bit c = 111) then underscore_scan false SawDigit s'
      else underscore_scan false SawStart s
  | _ => underscore_scan false SawStart s
  end.

Fixpoint has_underscore (s : string) : bool :=
  match s with
  | EmptyString => false
  | String c s' => bool_decide (c = "_"%char) || has_underscore s'
  end.

(** A number's text after its sign. [readFloat] enters hexadecimal mode only
    when something follows the prefix. *)
Definition read_float (neg : bool) (s : string) : option float64 :=
  let '(base, body) :=
    match hex_prefix s with
    | Some (String c s') => (16, String c s')
    | _ => (10, s)
    end in
  let '(m, frac, digits, rest) := scan_mantissa base body 0 0 false false in
  if digits then
    match read_exponent base rest with
    | Some (e, EmptyString) =>
        if has_underscore s && negb (underscoreOK s) then None
        else Some (if decide (base = 16) then f64_of_bin neg m (e - 4 * frac)
                   else f64_of_dec neg m (e - frac))
    | _ => None
    end
  else None.

(** [strconv.ErrSyntax] and [strconv.ErrRange]. *)
Inductive num_error := ErrSyntax | ErrRange.

(** [strconv.ParseFloat(s, 64)]: a number too large is out of range. *)
Definition ParseFloat (s : string) : num_error + float64 :=
  let '(neg, body) := split_sign s in
  let folded := map_string lower_ascii body in
  if decide (folded = "inf" ∨ folded = "infinity") then inr (f64_inf neg)
  else if decide (map_string lower_ascii s = "nan") then inr S754_nan
  else
    match read_float neg body with
    | Some x => if is_inf x then inl ErrRange else inr x
    | None => inl ErrSyntax
    end.

(** The hexadecimal digit [d] in lower case. *)
Definition hex_digit (d : Z) : ascii := of_byte (if decide (d < 10) then 48 + d else 87 + d).

(** [strconv.Quote] on one ASCII character, without the enclosing quotes. *)
Definition quote_char (c : ascii) : string :=
  let n := byte_of c in
  let esc (x : ascii) := String "\"%char (String x EmptyString) in
  if decide (n = 34 ∨ n = 92) then esc c
  else if decide (n = 7) then esc "a"%char else if decide (n = 8) then esc "b"%char
  else if decide (n = 9) then esc "t"%char else if decide (n = 10) then esc "n"%char
  else if decide (n = 11) then esc "v"%char else if decide (n = 12) then esc "f"%char
  else if decide (n = 13) then esc "r"%char
  else if decide (32 ≤ n < 127) then String c EmptyString
  else "\x" +:+ String (hex_digit (n / 16)) (String (hex_digit (n mod 16)) EmptyString).

Fixpoint quote_string (s : string) : string :=
  match s with EmptyString => EmptyString | String c s' => quote_char c +:+ quote_string s' end.

Definition quote_mark : string := String (of_byte 34) EmptyString.

(** [strconv.Quote]. *)
Definition Quote `{Unicode} (s : string) : string :=
  if is_ascii s then quote_mark +:+ quote_string s +:+ quote_mark else unicode_quote s.

(** [(&strconv.NumError{fn, s, e}).Error()]. *)
Definition NumError `{Unicode} (fn s : string) (e : num_error) : string :=
  "strconv." +:+ fn +:+ ": parsing " +:+ Quote s +:+ ": " +:+
  match e with ErrSyntax => "invalid syntax" | ErrRange => "value out of range" end.

(** ** The %g verb *)

(** [m * 2^e] between the decimals [d * 10^k] and [(d + 1) * 10^k]. *)
Definition floor_dec (m e k : Z) : Z :=
  (m * 2 ^ Z.max e 0 * 10 ^ Z.max (- k) 0) / (2 ^ Z.max (- e) 0 * 10 ^ Z.max k 0).

(** Whether [d * 10^k] is at least as near to [m * 2^e] as [(d + 1) * 10^k],
    the even one of two equally near decimals being preferred. *)
Definition nearer_below (m e k d : Z) : bool :=
  let x := 2 * (m * 2 ^ Z.max e 0 * 10 ^ Z.max (- k) 0) in
  let mid := (2 * d + 1) * (2 ^ Z.max (- e) 0 * 10 ^ Z.max k 0) in
  bool_decide (x < mid) || bool_decide (x = mid) && Z.even d.

(** The shortest decimal [d * 10^k] that reads back as [x = m * 2^e], the
    nearest of the shortest ones, trying the scales from [k] downwards. *)
Fixpoint shortest (fuel : nat) (x : float64) (m e k : Z) : Z * Z :=
  match fuel with
  | O => (m, e)
  | S fuel' =>
      let d := floor_dec m e k in
      let lo := bool_decide (f64_of_dec false d k = x) in
      let hi := bool_decide (f64_of_dec false (d + 1) k = x) in
      if lo && (negb hi || nearer_below m e k d) then (d, k)
      else if hi then (d + 1, k)
      else shortest fuel' x m e (k - 1)
  end.

(** [digs.d] without trailing zeros. *)
Fixpoint trim_zeros (fuel : nat) (d k : Z) : Z * Z :=
  match fuel with
  | O => (d, k)
  | S fuel' => if decide (0 < d ∧ d mod 10 = 0) then trim_zeros fuel' (d / 10) (k + 1) else (d, k)
  end.

Definition zeros (n : Z) : string := Stdlib.Strings.String.string_of_list_ascii (replicate (Z.to_nat n) "0"%char).

Definition take_string (n : Z) (s : string) : string := Stdlib.Strings.String.substring 0 (Z.to_nat n) s.
Definition drop_string (n : Z) (s : string) : string :=
  Stdlib.Strings.String.substring (Z.to_nat n) (String.length s - Z.to_nat n) s.

(** [%e]: one digit, the others after a point, a two-digit exponent. *)
Definition layout_e (ds : string) (exp : Z) : string :=
  take_string 1 ds +:+
  (if decide (String.length ds = 1%nat) then "" else "." +:+ drop_string 1 ds) +:+
  (if decide (exp < 0) then "e-" else "e+") +:+
  (if decide (Z.abs exp < 10) then "0" else "") +:+ format_uint (Z.abs exp).

(** [%f] with the digits there are; [dp] of them precede the point. *)
Definition layout_f (ds : string) (dp : Z) : string :=
  let nd := Z.of_nat (String.length ds) in
  if decide (nd ≤ dp) then ds +:+ zeros (dp - nd)
  else if decide (0 < dp) then take_string dp ds +:+ "." +:+ drop_string dp ds
  else "0." +:+ zeros (- dp) +:+ ds.

(** [%e] is used for an exponent below -4 or, for the shortest precision, of
    6 and more. *)
Definition layout_g (d k : Z) : string :=
  let ds := format_uint d in
  let dp := Z.of_nat (String.length ds) + k in
  if decide (dp - 1 < -4 ∨ 6 ≤ dp - 1) then layout_e ds (dp - 1) else layout_f ds dp.

(** A scale above [m * 2^e]. *)
Definition top_scale (m e : Z) : Z := (Z.log2 m + 1 + e) * 30103 / 100000 + 1.

(** [fmt.Sprintf("%g", x)]. Seventeen digits are always enough, and the first
    scale tried is less than eight above the last digit's. *)
Definition Sprintf_g (x : float64) : string :=
  match x with
  | S754_nan => "NaN"
  | S754_infinity neg => if neg then "-Inf" else "+Inf"
  | S754_zero neg => if neg then "-0" else "0"
  | S754_finite neg m e =>
      let '(d, k) := shortest 25 (S754_finite false m e) (Zpos m) e (top_scale (Zpos m) e) in
      let '(d, k) := trim_zeros 25 d k in
      (if neg then "-" else "") +:+ layout_g d k
  end.

Example format_samples :
  Sprintf_g <$> omap (λ s, match ParseFloat s with inr x => Some x | inl _ => None end) ["1.5"; "1000000"; "123456"; "1e23"; "-0.00001"; "0.1"; "3"; "0x1p-2"; "5e-324"; "1.7976931348623157e308"; "1_0.25"; "-0"; "INF"]
  = ["1.5"; "1e+06"; "123456"; "1e+23"; "-1e-05"; "0.1"; "3"; "0.25"; "5e-324"; "1.7976931348623157e+308"; "10.25"; "-0"; "+Inf"].
Proof. vm_compute. reflexivity. Qed.

Example parse_errors :
  omap (λ s, match ParseFloat s with inr x => Some x | inl _ => None end) [""; "1e400"; "abc"; "1e"; "_1"; "1__0"; "+nan"; "0x1"; "."; "1.2.3"; "infin"] = [].
Proof. vm_compute. reflexivity. Qed.
