(* ===== verification/GoText.v ===== *)
(** Strings as Go's [strings] and [bufio] packages treat them: bytes, trimming,
    splitting and the lines of a file. *)
From S2P Require Import Prelude GoStd Float.
Local Open Scope Z_scope.

(** ** Bytes *)

Definition bytes (s : string) : list ascii := Stdlib.Strings.String.list_ascii_of_string s.
Definition text (l : list ascii) : string := Stdlib.Strings.String.string_of_list_ascii l.

Definition CR : ascii := "013".
Definition LF : ascii := "010".
Definition crlf : list ascii := [CR; LF].

Lemma text_bytes s : text (bytes s) = s.
Proof. apply Stdlib.Strings.String.string_of_list_ascii_of_string. Qed.

Lemma bytes_text l : bytes (text l) = l.
Proof. apply Stdlib.Strings.String.list_ascii_of_string_of_list_ascii. Qed.

Lemma length_bytes s : length (bytes s) = String.length s.
Proof. induction s; simpl; auto. Qed.

(** ** Prefixes *)

(** [strings.CutPrefix]. *)
Fixpoint cut_prefix (p s : list ascii) : option (list ascii) :=
  match p, s with
  | [], _ => Some s
  | c :: p', d :: s' => if decide (c = d) then cut_prefix p' s' else None
  | _ :: _, [] => None
  end.

Lemma cut_prefix_Some p s rest : cut_prefix p s = Some rest ↔ s = p ++ rest.
Proof.
  revert s. induction p as [|c p IH]; intros s; simpl.
  { split; congruence. }
  destruct s as [|d s]; [by split|]. case_decide; subst; rewrite ?IH; split; congruence.
Qed.

(** ** strings.TrimSpace *)

(** The UTF-8 encodings of the code points for which [unicode.IsSpace] holds. *)
Definition byte (n : nat) : ascii := Stdlib.Strings.Ascii.ascii_of_nat n.
Definition spaces : list (list ascii) :=
  ((λ n, [byte n]) <$> [9; 10; 11; 12; 13; 32]%nat) ++
  [[byte 194; byte 133]; [byte 194; byte 160]; [byte 225; byte 154; byte 128]] ++
  ((λ n, [byte 226; byte 128; byte n]) <$> (seq 128 11 ++ [168; 169; 175]%nat)) ++
  [[byte 226; byte 129; byte 159]; [byte 227; byte 128; byte 128]].

(** A space at the front of [s], among [sps]. *)
Fixpoint cut_space (sps : list (list ascii)) (s : list ascii) : option (list ascii) :=
  match sps with
  | [] => None
  | sp :: sps' => match cut_prefix sp s with Some rest => Some rest | None => cut_space sps' s end
  end.

Fixpoint trim_front (sps : list (list ascii)) (fuel : nat) (s : list ascii) : list ascii :=
  match fuel with
  | O => s
  | S fuel' => match cut_space sps s with Some rest => trim_front sps fuel' rest | None => s end
  end.

(** Every space is at least one byte long, so the length is enough fuel. *)
Definition TrimLeftSpace (s : list ascii) : list ascii := trim_front spaces (length s) s.
Definition TrimRightSpace (s : list ascii) : list ascii :=
  reverse (trim_front (reverse <$> spaces) (length s) (reverse s)).
Definition TrimSpace (s : string) : string := text (TrimRightSpace (TrimLeftSpace (bytes s))).

Lemma cut_space_None sps s : cut_space sps s = None ↔ Forall (λ sp, cut_prefix sp s = None) sps.
Proof.
  induction sps as [|sp sps IH]; simpl; [by split|]. rewrite list.Forall_cons.
  destruct (cut_prefix sp s); [naive_solver|]. rewrite IH. naive_solver.
Qed.

Lemma cut_space_shrinks sps s rest :
  Forall (λ sp, sp ≠ []) sps → cut_space sps s = Some rest → (length rest < length s)%nat.
Proof.
  induction 1 as [|sp sps Hsp Hsps IH]; simpl; [done|]. destruct (cut_prefix sp s) as [r|] eqn:Hc; [|done].
  intros [= ->]. apply cut_prefix_Some in Hc as ->. rewrite length_app. destruct sp; [done|simpl; lia].
Qed.

(** With that fuel nothing is left to trim. *)
Lemma trim_front_done sps fuel s :
  Forall (λ sp, sp ≠ []) sps → (length s ≤ fuel)%nat → cut_space sps (trim_front sps fuel s) = None.
Proof.
  intros Hne. revert s. induction fuel as [|fuel IH]; intros s Hs; simpl.
  { destruct s; [|simpl in Hs; lia]. apply cut_space_None. eapply list.Forall_impl; [exact Hne|].
    by intros [|c sp]. }
  destruct (cut_space sps s) as [rest|] eqn:Hc; [|done]. apply IH.
  apply cut_space_shrinks in Hc; [lia|done].
Qed.

(** Neither end of [s] is a space. *)
Definition trimmed (s : list ascii) : Prop :=
  cut_space spaces s = None ∧ cut_space (reverse <$> spaces) (reverse s) = None.

#[export] Instance trimmed_dec s : Decision (trimmed s).
Proof. unfold trimmed. apply _. Defined.

Lemma trim_front_stop sps fuel s : cut_space sps s = None → trim_front sps fuel s = s.
Proof. intros Hc. destruct fuel; simpl; [done|]. by rewrite Hc. Qed.

(** Trimming leaves a trimmed string alone. *)
Lemma TrimSpace_trimmed s : trimmed (bytes s) → TrimSpace s = s.
Proof.
  intros [Hl Hr]. unfold TrimSpace, TrimLeftSpace, TrimRightSpace.
  rewrite (trim_front_stop spaces) by done. rewrite trim_front_stop by done.
  by rewrite reverse_involutive, text_bytes.
Qed.

(** ** strings.Split, strings.SplitN *)

(** What precedes the first [sep], and what follows it. *)
Fixpoint cut (sep : ascii) (s : list ascii) : list ascii * option (list ascii) :=
  match s with
  | [] => ([], None)
  | c :: s' =>
      if decide (c = sep) then ([], Some s')
      else let '(before, after) := cut sep s' in (c :: before, after)
  end.

(** [strings.Split] on a separator of one byte. *)
Fixpoint split_bytes (sep : ascii) (s : list ascii) : list (list ascii) :=
  match s with
  | [] => [[]]
  | c :: s' =>
      match split_bytes sep s' with
      | part :: parts => if decide (c = sep) then [] :: part :: parts else (c :: part) :: parts
      | [] => [[]]
      end
  end.

Lemma cut_absent sep s : sep ∉ s → cut sep s = (s, None).
Proof.
  induction s as [|c s IH]; intros Hn; simpl; [done|]. apply not_elem_of_cons in Hn as [Hc Hn].
  by rewrite decide_False, IH.
Qed.

Lemma cut_first sep s rest : sep ∉ s → cut sep (s ++ sep :: rest) = (s, Some rest).
Proof.
  induction s as [|c s IH]; intros Hn; simpl; [by rewrite decide_True|].
  apply not_elem_of_cons in Hn as [Hc Hn]. by rewrite decide_False, IH.
Qed.

Lemma split_bytes_absent sep s : sep ∉ s → split_bytes sep s = [s].
Proof.
  induction s as [|c s IH]; intros Hn; simpl; [done|]. apply not_elem_of_cons in Hn as [Hc Hn].
  by rewrite IH, decide_False.
Qed.

Lemma split_bytes_cons sep s rest :
  sep ∉ s → split_bytes sep (s ++ sep :: rest) = s :: split_bytes sep rest.
Proof.
  assert (∀ s, split_bytes sep s ≠ []) as Hne.
  { intros [|c s']; simpl; [done|]. destruct (split_bytes sep s'); [done|]. by case_decide. }
  induction s as [|c s IH]; intros Hn; simpl.
  - specialize (Hne rest). destruct (split_bytes sep rest); [done|]. by rewrite decide_True.
  - apply not_elem_of_cons in Hn as [Hc Hn]. by rewrite IH, decide_False.
Qed.

(** ** bufio.Scanner *)

(** [bufio.MaxScanTokenSize]: a line and its newline fill the buffer at most. *)
Definition MaxScanTokenSize : Z := 65536.

Definition drop_cr (line : list ascii) : list ascii :=
  match reverse line with
  | c :: rev => if decide (c = CR) then reverse rev else line
  | [] => line
  end.

(** [for sc.Scan() { ... sc.Text() ... }]: the lines it yields and whether
    [sc.Err()] is [bufio.ErrTooLong] after. *)
Fixpoint scan_parts (parts : list (list ascii)) : list string * bool :=
  match parts with
  | [] | [[]] => ([], false)
  | line :: parts' =>
      if decide (MaxScanTokenSize ≤ Z.of_nat (length line)) then ([], true)
      else let '(lines, too_long) := scan_parts parts' in (text (drop_cr line) :: lines, too_long)
  end.

Definition ScanLines (content : string) : list string * bool := scan_parts (split_bytes LF (bytes content)).
