(* ===== verification/Sql.v ===== *)
(** The relational store under the program: the tables of the schema in
    [src/internal/db/db.go], the SQL statements the store package issues, and
    what each one means on the tables. The meaning given here is SQL's own
    (primary keys, [ON CONFLICT], foreign keys with [ON DELETE CASCADE]); the
    engine that executes the statements is a parameter of the development
    (see Effects.v) assumed to implement it. *)
From S2P Require Import Prelude GoStd Float.
Local Open Scope Z_scope.

(** A key of the store: its name and its database index. *)
Abbreviation kid := (string * Z)%type.

(** ** Schema *)

(** A row of table [keys] without its primary key [(key, db)]. *)
Record KeyRow := mkKeyRow { kr_type : string; kr_expires_at : option Z }.

(** The six tables, each a finite map from its primary key to its other
    columns. *)
Record Tables := mkTables {
  t_keys : gmap kid KeyRow;
  t_strings : gmap kid string;
  t_lists : gmap (kid * Z) string;
  t_hashes : gmap (kid * string) string;
  t_sets : gmap (kid * string) unit;
  t_zsets : gmap (kid * string) float64;
}.

Definition empty_tables : Tables := mkTables ∅ ∅ ∅ ∅ ∅ ∅.

(** [aliveWhere]: [(expires_at IS NULL OR expires_at > ?)]. *)
Definition aliveWhere (now : Z) (r : KeyRow) : bool :=
  match kr_expires_at r with None => true | Some e => bool_decide (now < e) end.

(** [expires_at IS NOT NULL AND expires_at <= ?]. *)
Definition expiredWhere (now : Z) (r : KeyRow) : bool :=
  match kr_expires_at r with None => false | Some e => bool_decide (e ≤ now) end.

(** ** Cascading deletion *)

(** [k] has a row of [keys] selected by [P]. *)
Definition doomed (P : kid → KeyRow → bool) (T : Tables) (k : kid) : bool :=
  match t_keys T !! k with Some r => P k r | None => false end.

(** [DELETE FROM keys WHERE P]: the selected rows of [keys] and, by
    [ON DELETE CASCADE], every row of the other tables referencing them. *)
Definition delete_where (P : kid → KeyRow → bool) (T : Tables) : Tables :=
  mkTables
    (filter (λ p, P p.1 p.2 = false) (t_keys T))
    (filter (λ p, doomed P T p.1 = false) (t_strings T))
    (filter (λ p, doomed P T p.1.1 = false) (t_lists T))
    (filter (λ p, doomed P T p.1.1 = false) (t_hashes T))
    (filter (λ p, doomed P T p.1.1 = false) (t_sets T))
    (filter (λ p, doomed P T p.1.1 = false) (t_zsets T)).

Definition count_where (P : kid → KeyRow → bool) (T : Tables) : Z :=
  Z.of_nat (size (filter (λ p, P p.1 p.2 = true) (t_keys T))).

(** ** Updating one table *)

Definition set_keys f T := mkTables (f (t_keys T)) (t_strings T) (t_lists T) (t_hashes T) (t_sets T) (t_zsets T).
Definition set_strings f T := mkTables (t_keys T) (f (t_strings T)) (t_lists T) (t_hashes T) (t_sets T) (t_zsets T).
Definition set_lists f T := mkTables (t_keys T) (t_strings T) (f (t_lists T)) (t_hashes T) (t_sets T) (t_zsets T).
Definition set_hashes f T := mkTables (t_keys T) (t_strings T) (t_lists T) (f (t_hashes T)) (t_sets T) (t_zsets T).
Definition set_sets f T := mkTables (t_keys T) (t_strings T) (t_lists T) (t_hashes T) (f (t_sets T)) (t_zsets T).
Definition set_zsets f T := mkTables (t_keys T) (t_strings T) (t_lists T) (t_hashes T) (t_sets T) (f (t_zsets T)).

(** A row may reference [k] only if [keys] has it (foreign key). *)
Definition fk {A} (k : kid) (T : Tables) (r : A) : option A :=
  match t_keys T !! k with Some _ => Some r | None => None end.

Section copy.
Context {S V : Type} `{Countable S}.

(** The rows [r] as rows of [k]. *)
Definition rows_of (k : kid) (r : gmap S V) : gmap (kid * S) V := kmap (pair k) r.

Definition clear_rows (k : kid) (m : gmap (kid * S) V) : gmap (kid * S) V :=
  filter (λ p, p.1.1 ≠ k) m.

(** [INSERT INTO t SELECT dst, ... FROM t WHERE key = src]: fails on a
    primary-key collision or, when a row is inserted, a missing parent. *)
Definition copy_rows (T : Tables) (dst src : kid) (m : gmap (kid * S) V)
    : option (Z * gmap (kid * S) V) :=
  let r := rows src m in
  if decide (r = ∅) then Some (0, m)
  else if decide (rows_of dst r ##ₘ m)
  then fk dst T (Z.of_nat (size r), rows_of dst r ∪ m)
  else None.
End copy.

(** ** Statements *)

Inductive stmt :=
  (** DELETE FROM keys WHERE key=? AND db=? AND expires_at IS NOT NULL AND expires_at <= ? *)
  | DeleteKeyExpired (k : kid) (now : Z)
  (** DELETE FROM keys WHERE expires_at IS NOT NULL AND expires_at <= ? *)
  | DeleteAllExpired (now : Z)
  (** DELETE FROM keys WHERE key=? AND db=? *)
  | DeleteKey (k : kid)
  (** DELETE FROM keys WHERE db=? *)
  | DeleteDb (db : Z)
  (** DELETE FROM keys *)
  | DeleteAll
  (** INSERT INTO keys(key,db,type,expires_at) VALUES(...) ON CONFLICT(key,db)
      DO UPDATE SET type=excluded.type, expires_at=excluded.expires_at *)
  | UpsertKey (k : kid) (typ : string) (exp : option Z)
  (** INSERT INTO keys(key,db,type) VALUES(...) ON CONFLICT(key,db) DO UPDATE SET type=... *)
  | UpsertKeyType (k : kid) (typ : string)
  (** INSERT INTO keys(key,db,type) VALUES(...) ON CONFLICT(key,db) DO NOTHING *)
  | InsertKeyIgnore (k : kid) (typ : string)
  (** INSERT INTO keys(key,db,type,expires_at) VALUES(...) *)
  | InsertKey (k : kid) (typ : string) (exp : option Z)
  (** UPDATE keys SET expires_at=? WHERE key=? AND db=? *)
  | UpdateExpiry (k : kid) (exp : option Z)
  (** INSERT INTO strings(...) VALUES(...) ON CONFLICT(key,db) DO UPDATE SET value=excluded.value *)
  | UpsertString (k : kid) (v : string)
  (** INSERT INTO strings(key,db,value) VALUES(...) *)
  | InsertString (k : kid) (v : string)
  (** UPDATE strings SET value=? WHERE key=? AND db=? *)
  | UpdateString (k : kid) (v : string)
  (** DELETE FROM lists WHERE key=? AND db=? *)
  | DeleteList (k : kid)
  (** INSERT INTO lists(key,db,idx,value) VALUES(...) *)
  | InsertListRow (k : kid) (idx : Z) (v : string)
  (** INSERT INTO hashes(...) VALUES(...) ON CONFLICT(key,db,field) DO UPDATE SET value=excluded.value *)
  | UpsertHash (k : kid) (f v : string)
  (** DELETE FROM hashes WHERE key=? AND db=? AND field=? *)
  | DeleteHashField (k : kid) (f : string)
  (** INSERT INTO sets(key,db,member) VALUES(...) ON CONFLICT(key,db,member) DO NOTHING *)
  | InsertSetIgnore (k : kid) (m : string)
  (** DELETE FROM sets WHERE key=? AND db=? AND member=? *)
  | DeleteSetMember (k : kid) (m : string)
  (** INSERT INTO zsets(key,db,member,score) VALUES(...) *)
  | InsertZset (k : kid) (m : string) (score : float64)
  (** UPDATE zsets SET score=? WHERE key=? AND db=? AND member=? *)
  | UpdateZset (k : kid) (m : string) (score : float64)
  (** DELETE FROM zsets WHERE key=? AND db=? AND member=? *)
  | DeleteZsetMember (k : kid) (m : string)
  (** INSERT INTO t(key,db,...) SELECT ?, db, ... FROM t WHERE key=? AND db=?, for the five data tables *)
  | CopyStrings (dst src : kid)
  | CopyLists (dst src : kid)
  | CopyHashes (dst src : kid)
  | CopySets (dst src : kid)
  | CopyZsets (dst src : kid).

(** Rows inserted by an upsert-free INSERT into a child table. *)
Definition copy_into {S V} `{Countable S} (T : Tables) (dst src : kid) (m : gmap (kid * S) V)
    (set : gmap (kid * S) V → Tables) : option (Z * Tables) :=
  match copy_rows T dst src m with
  | Some (n, m') => Some (n, set m')
  | None => None
  end.

Definition is_key (k : kid) : kid → KeyRow → bool := λ k' _, bool_decide (k' = k).

(** The effect of a statement: the number of affected rows and the new
    tables, or [None] for a constraint violation, which changes nothing. A NaN
    is stored as NULL, which the NOT NULL column [score] refuses. *)
Definition sql_exec (s : stmt) (T : Tables) : option (Z * Tables) :=
  let del P := Some (count_where P T, delete_where P T) in
  match s with
  | DeleteKeyExpired k now => del (λ k' r, bool_decide (k' = k) && expiredWhere now r)
  | DeleteAllExpired now => del (λ _ r, expiredWhere now r)
  | DeleteKey k => del (is_key k)
  | DeleteDb db => del (λ k' _, bool_decide (k'.2 = db))
  | DeleteAll => del (λ _ _, true)
  | UpsertKey k typ exp => Some (1, set_keys <[k := mkKeyRow typ exp]> T)
  | UpsertKeyType k typ =>
      let exp := t_keys T !! k ≫= kr_expires_at in
      Some (1, set_keys <[k := mkKeyRow typ exp]> T)
  | InsertKeyIgnore k typ =>
      match t_keys T !! k with
      | Some _ => Some (0, T)
      | None => Some (1, set_keys <[k := mkKeyRow typ None]> T)
      end
  | InsertKey k typ exp =>
      match t_keys T !! k with
      | Some _ => None
      | None => Some (1, set_keys <[k := mkKeyRow typ exp]> T)
      end
  | UpdateExpiry k exp =>
      match t_keys T !! k with
      | Some r => Some (1, set_keys <[k := mkKeyRow (kr_type r) exp]> T)
      | None => Some (0, T)
      end
  | UpsertString k v => fk k T (1, set_strings <[k := v]> T)
  | InsertString k v =>
      match t_strings T !! k with
      | Some _ => None
      | None => fk k T (1, set_strings <[k := v]> T)
      end
  | UpdateString k v =>
      match t_strings T !! k with
      | Some _ => Some (1, set_strings <[k := v]> T)
      | None => Some (0, T)
      end
  | DeleteList k =>
      Some (Z.of_nat (size (rows k (t_lists T))), set_lists (clear_rows k) T)
  | InsertListRow k idx v =>
      match t_lists T !! (k, idx) with
      | Some _ => None
      | None => fk k T (1, set_lists <[(k, idx) := v]> T)
      end
  | UpsertHash k f v => fk k T (1, set_hashes <[(k, f) := v]> T)
  | DeleteHashField k f =>
      match t_hashes T !! (k, f) with
      | Some _ => Some (1, set_hashes (delete (k, f)) T)
      | None => Some (0, T)
      end
  | InsertSetIgnore k m =>
      match t_sets T !! (k, m) with
      | Some _ => Some (0, T)
      | None => fk k T (1, set_sets <[(k, m) := tt]> T)
      end
  | DeleteSetMember k m =>
      match t_sets T !! (k, m) with
      | Some _ => Some (1, set_sets (delete (k, m)) T)
      | None => Some (0, T)
      end
  | InsertZset k m score =>
      match t_zsets T !! (k, m) with
      | Some _ => None
      | None => if is_nan score then None else fk k T (1, set_zsets <[(k, m) := score]> T)
      end
  | UpdateZset k m score =>
      match t_zsets T !! (k, m) with
      | Some _ => if is_nan score then None else Some (1, set_zsets <[(k, m) := score]> T)
      | None => Some (0, T)
      end
  | DeleteZsetMember k m =>
      match t_zsets T !! (k, m) with
      | Some _ => Some (1, set_zsets (delete (k, m)) T)
      | None => Some (0, T)
      end
  | CopyStrings dst src =>
      match t_strings T !! src with
      | None => Some (0, T)
      | Some v =>
          match t_strings T !! dst with
          | Some _ => None
          | None => fk dst T (1, set_strings <[dst := v]> T)
          end
      end
  | CopyLists dst src => copy_into T dst src (t_lists T) (λ m, set_lists (λ _, m) T)
  | CopyHashes dst src => copy_into T dst src (t_hashes T) (λ m, set_hashes (λ _, m) T)
  | CopySets dst src => copy_into T dst src (t_sets T) (λ m, set_sets (λ _, m) T)
  | CopyZsets dst src => copy_into T dst src (t_zsets T) (λ m, set_zsets (λ _, m) T)
  end.

(** ** Queries, indexed by the type of their rows *)

Inductive query : Type → Type :=
  (** SELECT type FROM keys WHERE key=? AND db=? AND aliveWhere *)
  | SelKeyTypeAlive (k : kid) (now : Z) : query string
  (** SELECT COUNT( * ) FROM keys WHERE key=? AND db=? AND aliveWhere *)
  | CountKeyAlive (k : kid) (now : Z) : query Z
  (** SELECT COUNT( * ) FROM keys WHERE key=? AND db=? *)
  | CountKey (k : kid) : query Z
  (** SELECT expires_at FROM keys WHERE key=? AND db=? *)
  | SelExpiresAt (k : kid) : query (option Z)
  (** SELECT type, expires_at FROM keys WHERE key=? AND db=? *)
  | SelTypeExpires (k : kid) : query (string * option Z)
  (** SELECT COUNT( * ) FROM keys WHERE db=? AND aliveWhere *)
  | CountDbAlive (db : Z) (now : Z) : query Z
  (** SELECT key FROM keys WHERE db=? AND aliveWhere *)
  | SelKeysAlive (db : Z) (now : Z) : query string
  (** SELECT key FROM keys WHERE db=? AND aliveWhere ORDER BY RANDOM() LIMIT 1 *)
  | SelRandomKey (db : Z) (now : Z) : query string
  (** SELECT value FROM strings WHERE key=? AND db=? *)
  | SelString (k : kid) : query string
  (** SELECT value FROM lists WHERE key=? AND db=? ORDER BY idx ASC *)
  | SelList (k : kid) : query string
  (** SELECT COUNT( * ) FROM lists WHERE key=? AND db=? *)
  | CountList (k : kid) : query Z
  (** SELECT value FROM hashes WHERE key=? AND db=? AND field=? *)
  | SelHashValue (k : kid) (f : string) : query string
  (** SELECT COUNT( * ) FROM hashes WHERE key=? AND db=? AND field=? *)
  | CountHashField (k : kid) (f : string) : query Z
  (** SELECT field, value FROM hashes WHERE key=? AND db=? *)
  | SelHashRows (k : kid) : query (string * string)
  (** SELECT field FROM hashes WHERE key=? AND db=? *)
  | SelHashFields (k : kid) : query string
  (** SELECT value FROM hashes WHERE key=? AND db=? *)
  | SelHashValues (k : kid) : query string
  (** SELECT COUNT( * ) FROM hashes WHERE key=? AND db=? *)
  | CountHash (k : kid) : query Z
  (** SELECT member FROM sets WHERE key=? AND db=? *)
  | SelSetMembers (k : kid) : query string
  (** SELECT COUNT( * ) FROM sets WHERE key=? AND db=? AND member=? *)
  | CountSetMember (k : kid) (m : string) : query Z
  (** SELECT COUNT( * ) FROM sets WHERE key=? AND db=? *)
  | CountSet (k : kid) : query Z
  (** SELECT COUNT( * ) FROM zsets WHERE key=? AND db=? AND member=? *)
  | CountZsetMember (k : kid) (m : string) : query Z
  (** SELECT score FROM zsets WHERE key=? AND db=? AND member=? *)
  | SelZsetScore (k : kid) (m : string) : query float64
  (** SELECT COUNT( * ) FROM zsets WHERE key=? AND db=? AND score <
      (SELECT score FROM zsets WHERE key=? AND db=? AND member=?) *)
  | CountZsetBelow (k : kid) (m : string) : query Z
  (** SELECT COUNT( * ) FROM zsets WHERE key=? AND db=? *)
  | CountZset (k : kid) : query Z
  (** SELECT member FROM zsets WHERE key=? AND db=? ORDER BY score ASC, member ASC LIMIT ? OFFSET ? *)
  | SelZsetPage (k : kid) (limit offset : Z) : query string
  (** SELECT member FROM zsets WHERE key=? AND db=? AND score >= ? AND score <= ?
      ORDER BY score ASC, member ASC, with > and < for an exclusive bound *)
  | SelZsetScores (k : kid) (minExcl maxExcl : bool) (min max : float64) : query string.

Definition idx_le : relation (Z * string) := λ x y, x.1 ≤ y.1.

#[export] Instance idx_le_dec : RelDecision idx_le.
Proof. intros x y. unfold idx_le. apply _. Defined.

(** [ORDER BY idx ASC] over the rows of one key. *)
Definition order_by_idx (r : gmap Z string) : list string :=
  (merge_sort idx_le (map_to_list r)).*2.

(** [ORDER BY score ASC, member ASC]: [x] does not come after [y]. Text
    compares by its bytes. *)
Definition zset_le : relation (string * float64) := λ x y,
  SFltb y.2 x.2 = false ∧ (SFeqb x.2 y.2 = true → String.le x.1 y.1).

#[export] Instance zset_le_dec : RelDecision zset_le.
Proof. intros x y. unfold zset_le. apply _. Defined.

Definition order_by_score (r : gmap string float64) : list string :=
  (merge_sort zset_le (map_to_list r)).*1.

(** [LIMIT ? OFFSET ?]; a negative limit is none. *)
Definition limit_offset {A} (limit offset : Z) (l : list A) : list A :=
  let l := drop (Z.to_nat offset) l in
  if decide (limit < 0) then l else take (Z.to_nat limit) l.

(** [score < x] in a row; a comparison with NULL selects nothing. *)
Definition scores_below (x : option float64) (r : gmap string float64) : gmap string float64 :=
  match x with Some x => filter (λ p, SFltb p.2 x = true) r | None => ∅ end.

(** [score >= min AND score <= max], or [>], [<] for an exclusive bound. *)
Definition in_scores (minExcl maxExcl : bool) (min max x : float64) : bool :=
  (if minExcl then SFltb min x else SFleb min x) &&
  (if maxExcl then SFltb x max else SFleb x max).

Definition scores_between (minExcl maxExcl : bool) (min max : float64)
    (r : gmap string float64) : gmap string float64 :=
  filter (λ p, in_scores minExcl maxExcl min max p.2 = true) r.

Definition keys_alive (db now : Z) (T : Tables) : list string :=
  (filter (λ p, p.1.2 = db ∧ aliveWhere now p.2 = true) (map_to_list (t_keys T))).*1.*1.

Definition count {A} (o : option A) : Z := match o with Some _ => 1 | None => 0 end.

(** The rows a query selects, in one possible order. *)
Definition sql_select {R} (q : query R) (T : Tables) : list R :=
  match q with
  | SelKeyTypeAlive k now =>
      match t_keys T !! k with
      | Some r => if aliveWhere now r then [kr_type r] else []
      | None => []
      end
  | CountKeyAlive k now =>
      [match t_keys T !! k with Some r => if aliveWhere now r then 1 else 0 | None => 0 end]
  | CountKey k => [count (t_keys T !! k)]
  | SelExpiresAt k => match t_keys T !! k with Some r => [kr_expires_at r] | None => [] end
  | SelTypeExpires k =>
      match t_keys T !! k with Some r => [(kr_type r, kr_expires_at r)] | None => [] end
  | CountDbAlive db now => [Z.of_nat (length (keys_alive db now T))]
  | SelKeysAlive db now => keys_alive db now T
  | SelRandomKey db now => keys_alive db now T
  | SelString k => option_list (t_strings T !! k)
  | SelList k => order_by_idx (rows k (t_lists T))
  | CountList k => [Z.of_nat (size (rows k (t_lists T)))]
  | SelHashValue k f => option_list (t_hashes T !! (k, f))
  | CountHashField k f => [count (t_hashes T !! (k, f))]
  | SelHashRows k => map_to_list (rows k (t_hashes T))
  | SelHashFields k => (map_to_list (rows k (t_hashes T))).*1
  | SelHashValues k => (map_to_list (rows k (t_hashes T))).*2
  | CountHash k => [Z.of_nat (size (rows k (t_hashes T)))]
  | SelSetMembers k => (map_to_list (rows k (t_sets T))).*1
  | CountSetMember k m => [count (t_sets T !! (k, m))]
  | CountSet k => [Z.of_nat (size (rows k (t_sets T)))]
  | CountZsetMember k m => [count (t_zsets T !! (k, m))]
  | SelZsetScore k m => option_list (t_zsets T !! (k, m))
  | CountZsetBelow k m =>
      [Z.of_nat (size (scores_below (t_zsets T !! (k, m)) (rows k (t_zsets T))))]
  | CountZset k => [Z.of_nat (size (rows k (t_zsets T)))]
  | SelZsetPage k limit offset =>
      limit_offset limit offset (order_by_score (rows k (t_zsets T)))
  | SelZsetScores k minExcl maxExcl min max =>
      order_by_score (scores_between minExcl maxExcl min max (rows k (t_zsets T)))
  end.

(** What SQL says about the order of the answer. A query by primary key and a
    [COUNT] have one row at most. *)
Inductive row_order := Ordered | Unordered | RandomOne.

Definition sql_order {R} (q : query R) : row_order :=
  match q with
  | SelKeysAlive _ _ | SelHashRows _ | SelHashFields _ | SelHashValues _
  | SelSetMembers _ => Unordered
  | SelRandomKey _ _ => RandomOne
  | _ => Ordered
  end.

(** [rows] is an answer to [q] on the tables [T]. *)
Definition sql_answer {R} (q : query R) (T : Tables) (rows : list R) : Prop :=
  match sql_order q with
  | Ordered => rows = sql_select q T
  | Unordered => rows ≡ₚ sql_select q T
  | RandomOne => ∃ full, full ≡ₚ sql_select q T ∧ rows = take 1 full
  end.
