(* ===== verification/Effects.v ===== *)
(** Effects of the store layer and their meaning. A store operation is a
    [prog]: a tree of the calls it makes on the database ([db.DB], [db.Tx]),
    the clock and Go's map iteration, ending in what it returns. The engine
    behind [db.DB] is a parameter: an [Engine] is any machine whose every
    answer is allowed by [step], that is, by the SQL semantics of Sql.v or,
    when the engine is faulty, by an error. *)
From S2P Require Import Prelude GoStd Sql.
Local Open Scope Z_scope.

(** ** Go errors *)

(** The text of an error of the driver or the engine. *)
Abbreviation dberr := string (only parsing).

Inductive error :=
  | ErrWrongType
  | ErrNoKey
  | ErrNew (msg : string)
  | ErrDb (e : dberr)
  (** A run-time panic: it unwinds the stack past every caller. *)
  | Panic.

#[export] Instance error_eq_dec : EqDecision error.
Proof. solve_decision. Defined.

(** A Go result [(v, err)] whose [v] is only read when [err] is nil. *)
Abbreviation result A := (error + A)%type.

(** ** Programs *)

(** [s.db] or [tx]. *)
Inductive conn := DB | TX.

Inductive event : Type → Type :=
  (** [time.Now()], in Unix nanoseconds. *)
  | Now : event Z
  (** [ExecContext]: an error or the number of affected rows. *)
  | Exec (c : conn) (s : stmt) : event (dberr + Z)
  (** [QueryContext] and the iteration over its rows. *)
  | Query {R} (c : conn) (q : query R) : event (dberr + list R)
  (** [s.db.BeginTx], [tx.Commit]: an error or nil. *)
  | BeginTx : event (option dberr)
  | Commit : event (option dberr)
  (** [tx.Rollback], whose error the program drops. *)
  | Rollback : event unit
  (** [for k := range m] over a map with the keys [ks]. *)
  | RangeMap (ks : list string) : event (list string).

Inductive prog (A : Type) : Type :=
  | Ret (a : A)
  | Vis {X} (e : event X) (k : X → prog A).
Arguments Ret {A} a.
Arguments Vis {A X} e k.

Fixpoint bind {A B} (p : prog A) (f : A → prog B) : prog B :=
  match p with
  | Ret a => f a
  | Vis e k => Vis e (λ x, bind (k x) f)
  end.

Definition trigger {X} (e : event X) : prog X := Vis e Ret.

(** [x, err := p; if err != nil { return err }]. *)
Definition err_bind {A B} (p : prog (result A)) (f : A → prog (result B)) : prog (result B) :=
  bind p (λ r, match r with inl e => Ret (inl e) | inr a => f a end).

Definition ok {A} (a : A) : prog (result A) := Ret (inr a).
Definition err {A} (e : error) : prog (result A) := Ret (inl e).

(** An index or slice expression, which panics out of range. *)
Definition checked {A} (o : option A) : prog (result A) :=
  match o with Some a => ok a | None => err Panic end.

Notation "x ⇐ p ; q" := (bind p (λ x, q))
  (at level 20, p at level 100, q at level 200, right associativity) : go_scope.
Notation "' pat ⇐ p ; q" := (bind p (λ x, match x with pat => q end))
  (at level 20, pat pattern, p at level 100, q at level 200, right associativity) : go_scope.
Notation "x ⇐? p ; q" := (err_bind p (λ x, q))
  (at level 20, p at level 100, q at level 200, right associativity) : go_scope.
Notation "' pat ⇐? p ; q" := (err_bind p (λ x, match x with pat => q end))
  (at level 20, pat pattern, p at level 100, q at level 200, right associativity) : go_scope.
Local Open Scope go_scope.

(** ** The calls of [database/sql] as the store uses them *)

Definition exec (c : conn) (s : stmt) : prog (result Z) :=
  r ⇐ trigger (Exec c s);
  Ret (match r with inl e => inl (ErrDb e) | inr n => inr n end).

Definition query_all {R} (c : conn) (q : query R) : prog (result (list R)) :=
  r ⇐ trigger (Query c q);
  Ret (match r with inl e => inl (ErrDb e) | inr rows => inr rows end).

(** [QueryRowContext(...).Scan(...)]: [NoRows] is [sql.ErrNoRows]. *)
Inductive scan (R : Type) := Row (r : R) | NoRows | ScanErr (e : error).
Arguments Row {R} r.
Arguments NoRows {R}.
Arguments ScanErr {R} e.

Definition query_row {R} (c : conn) (q : query R) : prog (scan R) :=
  r ⇐ trigger (Query c q);
  Ret (match r with
       | inl e => ScanErr (ErrDb e)
       | inr [] => NoRows
       | inr (x :: _) => Row x
       end).

(** [n] after [var n; row.Scan(&n)] whose error is dropped. *)
Definition scanned {R} (zero : R) (s : scan R) : R :=
  match s with Row r => r | _ => zero end.

Definition commit : prog (result unit) :=
  r ⇐ trigger Commit;
  Ret (match r with Some e => inl (ErrDb e) | None => inr tt end).

(** [tx, err := s.db.BeginTx(...); if err != nil { return err };
    defer tx.Rollback(); body]. *)
Definition with_tx {A} (body : prog (result A)) : prog (result A) :=
  b ⇐ trigger BeginTx;
  match b with
  | Some e => err (ErrDb e)
  | None => r ⇐ body; _ ⇐ trigger Rollback; Ret r
  end.

(** A loop over a slice carrying [acc], left at the first error. *)
Fixpoint for_each {X A} (l : list X) (acc : A) (body : A → X → prog (result A))
    : prog (result A) :=
  match l with
  | [] => ok acc
  | x :: l' => acc' ⇐? body acc x; for_each l' acc' body
  end.

(** [time.Time.UnixMilli] of an instant given in nanoseconds. *)
Definition unix_milli (ns : Z) : Z := ns / 1000000.

(** ** States and allowed steps *)

(** What the engine exposes: the committed tables, the tables of the open
    transaction if there is one, and the clock's future readings. *)
Record State := mkState {
  com : Tables;
  work : option Tables;
  clk : nat → Z;
}.

Definition set_com (T : Tables) (σ : State) : State := mkState T (work σ) (clk σ).
Definition set_work (W : option Tables) (σ : State) : State := mkState (com σ) W (clk σ).
Definition tick (σ : State) : State := mkState (com σ) (work σ) (λ n, clk σ (S n)).

(** [s] on [T] answers [r] and leaves [T']. A failing statement of a faulty
    engine may or may not have been applied (a lost connection). *)
Definition exec_outcome (faulty : Prop) (s : stmt) (T : Tables) (r : dberr + Z) (T' : Tables) : Prop :=
  match r with
  | inr n => sql_exec s T = Some (n, T')
  | inl _ =>
      (T' = T ∧ (faulty ∨ sql_exec s T = None)) ∨
      (faulty ∧ ∃ n, sql_exec s T = Some (n, T'))
  end.

Definition query_outcome {R} (faulty : Prop) (q : query R) (T : Tables) (r : dberr + list R) : Prop :=
  match r with
  | inr rows => sql_answer q T rows
  | inl _ => faulty
  end.

(** [step faulty e σ x σ']: in state [σ] the call [e] may answer [x] and leave
    [σ']. Nothing is promised to a program that uses [s.db] while it holds a
    transaction, opens a second one, or uses a closed one. *)
Definition step (faulty : Prop) {X} (e : event X) (σ : State) : X → State → Prop :=
  match e with
  | Now => λ t σ', t = clk σ 0 ∧ σ' = tick σ
  | Exec DB s => λ r σ', work σ = None →
      ∃ T', exec_outcome faulty s (com σ) r T' ∧ σ' = set_com T' σ
  | Exec TX s => λ r σ', ∀ T, work σ = Some T →
      ∃ T', exec_outcome faulty s T r T' ∧ σ' = set_work (Some T') σ
  | Query DB q => λ r σ', work σ = None → query_outcome faulty q (com σ) r ∧ σ' = σ
  | Query TX q => λ r σ', ∀ T, work σ = Some T → query_outcome faulty q T r ∧ σ' = σ
  | BeginTx => λ r σ', work σ = None →
      match r with
      | None => σ' = set_work (Some (com σ)) σ
      | Some _ => faulty ∧ σ' = σ
      end
  | Commit => λ r σ', ∀ T, work σ = Some T →
      match r with
      | None => σ' = set_work None (set_com T σ)
      | Some _ => faulty ∧ (σ' = set_work None σ ∨ σ' = set_work None (set_com T σ))
      end
  | Rollback => λ _ σ', σ' = set_work None σ
  | RangeMap ks => λ r σ', r ≡ₚ ks ∧ σ' = σ
  end.

(** ** Engines *)

(** The interface the store relies on: a machine with an observable state
    whose answers are all allowed. [faulty] says whether it may fail. *)
Class Engine (E : Type) := {
  view : E → State;
  faulty : Prop;
  handle : ∀ {X}, event X → E → X * E;
  handle_step : ∀ {X} (e : event X) w x w',
    handle e w = (x, w') → step faulty e (view w) x (view w');
}.
#[global] Hint Mode Engine ! : typeclass_instances.
Arguments faulty E {_}.

Fixpoint run `{Engine E} {A} (p : prog A) (w : E) : A * E :=
  match p with
  | Ret a => (a, w)
  | Vis e k => let '(x, w') := handle e w in run (k x) w'
  end.

Lemma run_bind `{Engine E} {A B} (p : prog A) (f : A → prog B) (w : E) :
  run (bind p f) w = let '(a, w') := run p w in run (f a) w'.
Proof. revert w. induction p as [a|X e k IH]; intros w; simpl; [done|]. by destruct (handle e w). Qed.

Lemma run_err_bind `{Engine E} {A B} (p : prog (result A)) (f : A → prog (result B)) (w : E) :
  run (err_bind p f) w =
    let '(r, w') := run p w in match r with inl e => (inl e, w') | inr a => run (f a) w' end.
Proof. unfold err_bind. rewrite run_bind. by destruct (run p w) as [[e|a] w']. Qed.

(** ** Weakest preconditions *)

Fixpoint wp (F : Prop) {A} (p : prog A) (Q : A → State → Prop) (σ : State) : Prop :=
  match p with
  | Ret a => Q a σ
  | Vis e k => ∀ x σ', step F e σ x σ' → wp F (k x) Q σ'
  end.

Lemma wp_run `{Engine E} {A} (p : prog A) (Q : A → State → Prop) (w : E) :
  wp (faulty E) p Q (view w) → let '(a, w') := run p w in Q a (view w').
Proof.
  revert w. induction p as [a|X e k IH]; intros w Hwp; simpl; [done|].
  destruct (handle e w) as [x w'] eqn:Hh. apply IH.
  apply Hwp. by apply handle_step.
Qed.

(** A more faulty engine may do whatever a less faulty one does. *)
Lemma step_mono (F F' : Prop) {X} (e : event X) σ x σ' :
  (F → F') → step F e σ x σ' → step F' e σ x σ'.
Proof.
  intros HF.
  assert (∀ s T r T', exec_outcome F s T r T' → exec_outcome F' s T r T') as Hexec.
  { intros s T [c|n] T'; simpl; [|done]. intuition. }
  assert (∀ R (q : query R) T r, query_outcome F q T r → query_outcome F' q T r) as Hquery.
  { intros R q T [c|rows]; simpl; auto. }
  destruct e as [|[] s|R [] q| | | |ks]; simpl; try done.
  - intros Hs Hw. destruct (Hs Hw) as (T' & ? & ?). eauto.
  - intros Hs T HT. destruct (Hs T HT) as (T' & ? & ?). eauto.
  - intros Hs Hw. destruct (Hs Hw). auto.
  - intros Hs T HT. destruct (Hs T HT). auto.
  - intros Hs Hw. specialize (Hs Hw). destruct x; naive_solver.
  - intros Hs T HT. specialize (Hs T HT). destruct x; naive_solver.
Qed.

Lemma wp_weaken (F F' : Prop) {A} (p : prog A) Q σ : (F → F') → wp F' p Q σ → wp F p Q σ.
Proof.
  intros HF. revert σ. induction p as [a|X e k IH]; intros σ; simpl; [done|].
  intros Hwp x σ' Hs. apply IH, Hwp. by eapply step_mono.
Qed.

Section wp.
Context (F : Prop).

Lemma wp_bind {A B} (p : prog A) (f : A → prog B) Q σ :
  wp F (bind p f) Q σ ↔ wp F p (λ a σ', wp F (f a) Q σ') σ.
Proof.
  revert σ. induction p as [a|X e k IH]; intros σ; simpl; [done|].
  split; intros Hwp x σ' Hs; apply IH, Hwp, Hs.
Qed.

Lemma wp_mono {A} (p : prog A) (Q Q' : A → State → Prop) σ :
  (∀ a σ', Q a σ' → Q' a σ') → wp F p Q σ → wp F p Q' σ.
Proof.
  intros HQ. revert σ. induction p as [a|X e k IH]; intros σ; simpl; eauto.
Qed.

(** Sequencing with a known postcondition of the first part. *)
Lemma wp_seq {A B} (p : prog A) (f : A → prog B) R Q σ :
  wp F p R σ → (∀ a σ', R a σ' → wp F (f a) Q σ') → wp F (bind p f) Q σ.
Proof. intros Hp Hf. apply wp_bind. eapply wp_mono; eauto. Qed.

(** Sequencing of fallible parts: an error ends the whole. *)
Lemma wp_err_bind {A B} (p : prog (result A)) (f : A → prog (result B)) Q σ :
  wp F p (λ r σ', match r with inl e => Q (inl e) σ' | inr a => wp F (f a) Q σ' end) σ →
  wp F (err_bind p f) Q σ.
Proof. intros Hp. eapply wp_seq; [done|]. by intros [e|a] σ'. Qed.

Lemma wp_err_bind_iff {A B} (p : prog (result A)) (f : A → prog (result B)) Q σ :
  wp F (err_bind p f) Q σ ↔
  wp F p (λ r σ', match r with inl e => Q (inl e) σ' | inr a => wp F (f a) Q σ' end) σ.
Proof.
  unfold err_bind. rewrite wp_bind. split; intros Hwp; (eapply wp_mono; [|exact Hwp]);
    by intros [e|a] σ'.
Qed.

(** Sequencing is associative. *)
Lemma wp_err_bind_assoc {A B C} (p : prog (result A)) (f : A → prog (result B))
    (g : B → prog (result C)) Q σ :
  wp F (err_bind p (λ a, err_bind (f a) g)) Q σ → wp F (err_bind (err_bind p f) g) Q σ.
Proof.
  rewrite !wp_err_bind_iff. intros Hwp. eapply wp_mono; [|exact Hwp].
  intros [e|a] σ'; [done|]. by rewrite wp_err_bind_iff.
Qed.

Lemma wp_ret {A} (a : A) (Q : A → State → Prop) σ : Q a σ → wp F (Ret a) Q σ.
Proof. done. Qed.

Lemma wp_now {A} (k : Z → prog A) Q σ :
  wp F (k (clk σ 0)) Q (tick σ) → wp F (Vis Now k) Q σ.
Proof. by intros Hwp x σ' [-> ->]. Qed.

Lemma wp_exec_db s Q σ :
  work σ = None →
  (∀ n T', sql_exec s (com σ) = Some (n, T') → Q (inr n) (set_com T' σ)) →
  (∀ e T', exec_outcome F s (com σ) (inl e) T' → Q (inl (ErrDb e)) (set_com T' σ)) →
  wp F (exec DB s) Q σ.
Proof.
  intros Hw Hok Herr [e|n] σ' Hs; simpl in *;
    destruct (Hs Hw) as (T' & Ho & ->); auto.
Qed.

Lemma wp_exec_tx s T Q σ :
  work σ = Some T →
  (∀ n T', sql_exec s T = Some (n, T') → Q (inr n) (set_work (Some T') σ)) →
  (∀ e T', exec_outcome F s T (inl e) T' → Q (inl (ErrDb e)) (set_work (Some T') σ)) →
  wp F (exec TX s) Q σ.
Proof.
  intros Hw Hok Herr [e|n] σ' Hs; simpl in *;
    destruct (Hs T Hw) as (T' & Ho & ->); auto.
Qed.

Definition tables_of (c : conn) (σ : State) : option Tables :=
  match c with DB => if work σ is Some _ then None else Some (com σ) | TX => work σ end.

Lemma query_step {R} c (q : query R) T r σ σ' :
  tables_of c σ = Some T → step F (Query c q) σ r σ' → query_outcome F q T r ∧ σ' = σ.
Proof.
  destruct c; simpl; [|by auto].
  destruct (work σ) eqn:Hw; intros ? Hs; simplify_eq. by apply Hs.
Qed.

Lemma wp_query_all {R} c (q : query R) T Q σ :
  tables_of c σ = Some T →
  (∀ rows, sql_answer q T rows → Q (inr rows) σ) →
  (∀ e, F → Q (inl (ErrDb e)) σ) →
  wp F (query_all c q) Q σ.
Proof.
  intros Hc Hok Herr [e|rows] σ' Hs;
    destruct (query_step _ _ _ _ _ _ Hc Hs) as [Ho ->]; simpl in *; auto.
Qed.

Lemma wp_query_row {R} c (q : query R) T Q σ :
  tables_of c σ = Some T →
  (∀ rows, sql_answer q T rows →
     Q (match rows with [] => NoRows | x :: _ => Row x end) σ) →
  (∀ e, F → Q (ScanErr (ErrDb e)) σ) →
  wp F (query_row c q) Q σ.
Proof.
  intros Hc Hok Herr [e|rows] σ' Hs;
    destruct (query_step _ _ _ _ _ _ Hc Hs) as [Ho ->]; simpl in *; auto.
Qed.

(** A transaction: the body runs on a copy of the committed tables and its
    deferred rollback closes whatever it leaves open. *)
Lemma wp_with_tx {A} (body : prog (result A)) Q σ :
  work σ = None →
  wp F body (λ r σ', Q r (set_work None σ')) (set_work (Some (com σ)) σ) →
  (∀ e, F → Q (inl (ErrDb e)) σ) →
  wp F (with_tx body) Q σ.
Proof.
  intros Hw Hbody Herr [e|] σ' Hs; simpl in *.
  - destruct (Hs Hw) as [HF ->]. by apply Herr.
  - rewrite (Hs Hw). apply wp_bind. eapply wp_mono; [|exact Hbody].
    intros r σ'' HQ [] σ''' ->. exact HQ.
Qed.

Lemma wp_commit T Q σ :
  work σ = Some T →
  Q (inr tt) (set_work None (set_com T σ)) →
  (∀ e T', F → T' = com σ ∨ T' = T → Q (inl (ErrDb e)) (set_work None (set_com T' σ))) →
  wp F commit Q σ.
Proof.
  intros Hw Hok Herr [e|] σ' Hs; simpl in *; specialize (Hs T Hw).
  - destruct Hs as [HF [Hs|Hs]]; rewrite Hs; [|by auto].
    replace (set_work None σ) with (set_work None (set_com (com σ) σ)); auto.
  - by subst.
Qed.

Lemma wp_range {A} ks (k : list string → prog A) Q σ :
  (∀ ks', ks' ≡ₚ ks → wp F (k ks') Q σ) → wp F (Vis (RangeMap ks) k) Q σ.
Proof. by intros Hk x σ' [Hp ->]; apply Hk. Qed.

(** [for k := range m]: the body must be right for every order. *)
Lemma wp_range_bind {A} ks (f : list string → prog A) Q σ :
  (∀ ks', ks' ≡ₚ ks → wp F (f ks') Q σ) → wp F (bind (trigger (RangeMap ks)) f) Q σ.
Proof. intros Hk. apply wp_bind. apply wp_range. intros ks' Hp. by apply Hk. Qed.

(** Loops: an invariant over the processed prefix. *)
Lemma wp_for_each {X A} (I : list X → A → State → Prop) (Q : result A → State → Prop)
    (body : A → X → prog (result A)) l acc σ :
  I [] acc σ →
  (∀ done x todo acc σ, l = done ++ x :: todo → I done acc σ →
     wp F (body acc x) (λ r σ',
       match r with inl e => Q (inl e) σ' | inr acc' => I (done ++ [x]) acc' σ' end) σ) →
  (∀ acc σ, I l acc σ → Q (inr acc) σ) →
  wp F (for_each l acc body) Q σ.
Proof.
  intros H0 Hstep Hend.
  assert (∀ todo done acc σ, l = done ++ todo → I done acc σ →
    wp F (for_each todo acc body) Q σ) as Hgen; [|by apply (Hgen l [])].
  clear acc σ H0. induction todo as [|x todo IH]; intros done acc σ Hl HI; simpl.
  { rewrite app_nil_r in Hl. subst. by apply Hend. }
  unfold err_bind. eapply wp_seq; [by eapply Hstep|].
  intros [e|acc'] σ' HR; [done|]. apply (IH (done ++ [x])); [|done].
  by rewrite <- app_assoc.
Qed.
End wp.

#[global] Arguments wp : simpl never.
#[global] Arguments bind : simpl never.
#[global] Arguments err_bind : simpl never.

(** ** A reference engine *)

(** The tables themselves, with a list telling which of the coming calls fail
    (without being applied), the clock, and rows and map keys in the order of
    the finite maps. It shows the interface can be implemented, and the
    witnesses run on it. *)
Record RefEngine := mkRef { ref_state : State; ref_faults : list bool }.

Definition ref_fault (w : RefEngine) : bool := hd false (ref_faults w).
Definition ref_next (w : RefEngine) (σ : State) : RefEngine := mkRef σ (tl (ref_faults w)).

Definition ref_exec (s : stmt) (T : Tables) (failing : bool) : (dberr + Z) * Tables :=
  if failing then (inl "engine failure", T)
  else match sql_exec s T with
       | Some (n, T') => (inr n, T')
       | None => (inl "constraint failed", T)
       end.

Definition ref_query {R} (q : query R) (T : Tables) (failing : bool) : dberr + list R :=
  if failing then inl "engine failure"
  else inr (match sql_order q with RandomOne => take 1 (sql_select q T) | _ => sql_select q T end).

Definition ref_handle {X} (e : event X) (w : RefEngine) : X * RefEngine :=
  let σ := ref_state w in
  let f := ref_fault w in
  match e with
  | Now => (clk σ 0, mkRef (tick σ) (ref_faults w))
  | Exec DB s =>
      let '(r, T') := ref_exec s (com σ) f in (r, ref_next w (set_com T' σ))
  | Exec TX s =>
      match work σ with
      | Some T => let '(r, T') := ref_exec s T f in (r, ref_next w (set_work (Some T') σ))
      | None => (inl "no transaction", w)
      end
  | Query DB q => (ref_query q (com σ) f, ref_next w σ)
  | Query TX q =>
      match work σ with
      | Some T => (ref_query q T f, ref_next w σ)
      | None => (inl "no transaction", w)
      end
  | BeginTx =>
      if f then (Some "engine failure", ref_next w σ)
      else (None, ref_next w (set_work (Some (com σ)) σ))
  | Commit =>
      match work σ with
      | Some T => if f then (Some "engine failure", ref_next w (set_work None σ))
                  else (None, ref_next w (set_work None (set_com T σ)))
      | None => (Some "no transaction", w)
      end
  | Rollback => (tt, mkRef (set_work None σ) (ref_faults w))
  | RangeMap ks => (ks, w)
  end.

Lemma ref_exec_outcome s T failing r T' :
  ref_exec s T failing = (r, T') → exec_outcome True s T r T'.
Proof. unfold ref_exec, exec_outcome. intros. split_matches; auto. Qed.

Lemma ref_query_outcome {R} (q : query R) T failing :
  query_outcome True q T (ref_query q T failing).
Proof.
  unfold ref_query, query_outcome, sql_answer. destruct failing; [done|].
  destruct (sql_order q); eauto.
Qed.

Lemma ref_handle_step {X} (e : event X) w x w' :
  ref_handle e w = (x, w') → step True e (ref_state w) x (ref_state w').
Proof.
  destruct e as [|[] s|R [] q| | | |ks]; simpl; intros Hh.
  - by simplify_eq.
  - destruct (ref_exec _ _ _) as [r T'] eqn:He. simplify_eq/=.
    intros _. eauto using ref_exec_outcome.
  - intros T HT. rewrite HT in Hh.
    destruct (ref_exec _ _ _) as [r T'] eqn:He. simplify_eq/=. eauto using ref_exec_outcome.
  - simplify_eq/=. auto using ref_query_outcome.
  - intros T HT. rewrite HT in Hh. simplify_eq/=. auto using ref_query_outcome.
  - intros _. destruct (ref_fault w); by simplify_eq/=.
  - intros T HT. rewrite HT in Hh. destruct (ref_fault w); simplify_eq/=; auto.
  - by simplify_eq.
  - by simplify_eq.
Qed.

#[export] Instance ref_engine : Engine RefEngine := {|
  view := ref_state;
  faulty := True;
  handle := @ref_handle;
  handle_step := @ref_handle_step;
|}.

(** The same engine without its faults is one that never fails. *)
Record Reliable := mkReliable { rel_state : State }.

Definition rel_handle {X} (e : event X) (w : Reliable) : X * Reliable :=
  let '(x, w') := ref_handle e (mkRef (rel_state w) []) in (x, mkReliable (ref_state w')).

Lemma rel_handle_step {X} (e : event X) w x w' :
  rel_handle e w = (x, w') → step False e (rel_state w) x (rel_state w').
Proof.
  unfold rel_handle.
  destruct e as [|[] s|R [] q| | | |ks]; simpl; intros Hh.
  - by simplify_eq.
  - intros _. unfold ref_exec in *. simpl in Hh.
    destruct (sql_exec _ _) as [[n T']|] eqn:He; simplify_eq/=; eexists; split; eauto.
  - intros T HT. rewrite HT in Hh. unfold ref_exec in *. simpl in Hh.
    destruct (sql_exec _ _) as [[n T']|] eqn:He; simplify_eq/=; eexists; split; eauto.
  - intros _. simplify_eq/=. unfold sql_answer. destruct (sql_order q); eauto.
  - intros T HT. rewrite HT in Hh. simplify_eq/=. unfold sql_answer. destruct (sql_order q); eauto.
  - intros _. by simplify_eq/=.
  - intros T HT. rewrite HT in Hh. by simplify_eq/=.
  - by simplify_eq.
  - by simplify_eq.
Qed.

#[export] Instance rel_engine : Engine Reliable := {|
  view := rel_state;
  faulty := False;
  handle := @rel_handle;
  handle_step := @rel_handle_step;
|}.
