(* ===== verification/Behaviour.v ===== *)
(** Two views of programs that forget the engine: when two programs behave
    alike on every engine, and what a program returns whatever it is answered. *)
From S2P Require Import Prelude GoStd Sql Effects.
Local Open Scope Z_scope.
Local Open Scope go_scope.

(** ** Behavioural equivalence *)

(** Alike on every engine, from every state: the same postconditions. *)
#[export] Instance prog_equiv {A} : Equiv (prog A) := λ p q,
  ∀ F Q σ, wp F p Q σ ↔ wp F q Q σ.

#[export] Instance prog_equivalence {A} : Equivalence (≡@{prog A}).
Proof.
  split.
  - by intros p F Q σ.
  - intros p q Hpq F Q σ. by rewrite (Hpq F Q σ).
  - intros p q r Hpq Hqr F Q σ. by rewrite (Hpq F Q σ), (Hqr F Q σ).
Qed.

Section equivalence.
Context {A B C : Type}.

#[export] Instance bind_proper :
  Proper ((≡) ==> pointwise_relation A (≡) ==> (≡)) (@bind A B).
Proof.
  intros p q Hpq f g Hfg F Q σ. rewrite !wp_bind, (Hpq F _ σ).
  split; intros Hwp; (eapply wp_mono; [|exact Hwp]); intros a σ' Ha; by apply (Hfg a F Q σ').
Qed.

#[export] Instance err_bind_proper :
  Proper ((≡) ==> pointwise_relation A (≡) ==> (≡)) (@err_bind A B).
Proof.
  intros p q Hpq f g Hfg F Q σ. rewrite !wp_err_bind_iff, (Hpq F _ σ).
  split; intros Hwp; (eapply wp_mono; [|exact Hwp]); intros [e|a] σ' Ha; try done; by apply (Hfg a F Q σ').
Qed.

Lemma err_bind_assoc (p : prog (result A)) (f : A → prog (result B)) (g : B → prog (result C)) :
  err_bind (err_bind p f) g ≡ err_bind p (λ a, err_bind (f a) g).
Proof.
  intros F Q σ. rewrite !wp_err_bind_iff. split; intros Hwp; (eapply wp_mono; [|exact Hwp]);
    intros [e|a] σ'; try done; by rewrite wp_err_bind_iff.
Qed.

Lemma err_bind_ok_l (a : A) (f : A → prog (result B)) : err_bind (ok a) f = f a.
Proof. done. Qed.

Lemma err_bind_ok_r (p : prog (result A)) : err_bind p ok ≡ p.
Proof.
  intros F Q σ. rewrite wp_err_bind_iff. split; intros Hwp; (eapply wp_mono; [|exact Hwp]); by intros [e|a] σ'.
Qed.
End equivalence.

Lemma for_each_proper {X A} (l : list X) (acc : A) (f g : A → X → prog (result A)) :
  (∀ acc x, x ∈ l → f acc x ≡ g acc x) → for_each l acc f ≡ for_each l acc g.
Proof.
  revert acc. induction l as [|x l IH]; intros acc Hfg; simpl; [done|].
  apply err_bind_proper; [apply Hfg; by left|]. intros acc'. apply IH. intros acc'' y Hy.
  apply Hfg. by right.
Qed.

Lemma for_each_app {X A} (l l' : list X) (acc : A) (f : A → X → prog (result A)) :
  for_each (l ++ l') acc f ≡ err_bind (for_each l acc f) (λ acc, for_each l' acc f).
Proof.
  revert acc. induction l as [|x l IH]; intros acc; simpl; [done|].
  rewrite err_bind_assoc. apply err_bind_proper; [done|]. intros acc'. apply IH.
Qed.

(** ** Results, whatever the answers *)

(** [p] returns a value in [P], whatever the engine answers: even answers no
    engine gives. *)
Fixpoint returns {A} (P : A → Prop) (p : prog A) : Prop :=
  match p with
  | Ret a => P a
  | Vis e k => ∀ x, returns P (k x)
  end.

Lemma returns_mono {A} (P P' : A → Prop) p : (∀ a, P a → P' a) → returns P p → returns P' p.
Proof. intros HP. induction p as [a|X e k IH]; simpl; eauto. Qed.

Lemma returns_any {A} (p : prog A) : returns (λ _, True) p.
Proof. induction p; simpl; auto. Qed.

Lemma returns_bind {A B} (P : A → Prop) (P' : B → Prop) p f :
  returns P p → (∀ a, P a → returns P' (f a)) → returns P' (bind p f).
Proof.
  intros Hp Hf. induction p as [a|X e k IH]; [by apply Hf|]. intros x. apply IH, Hp.
Qed.

(** A run only adds what the engine does. *)
Lemma returns_run `{Engine E} {A} (P : A → Prop) (p : prog A) (w : E) : returns P p → P (run p w).1.
Proof.
  revert w. induction p as [a|X e k IH]; intros w Hp; simpl in *; [done|].
  destruct (handle e w) as [x w']. auto.
Qed.

(** The value, if any, is in [P], and the only failure is a panic. *)
Definition yields {A} (P : A → Prop) : result A → Prop := λ r,
  match r with inl e => e = Panic | inr a => P a end.

Section yields.
Context {A B : Type}.

Lemma yields_mono (P P' : A → Prop) (p : prog (result A)) :
  (∀ a, P a → P' a) → returns (yields P) p → returns (yields P') p.
Proof. intros HP. apply returns_mono. intros [e|a]; simpl; auto. Qed.

Lemma yields_ok (P : A → Prop) a : P a → returns (yields P) (ok a).
Proof. done. Qed.

Lemma yields_panic (P : A → Prop) : returns (yields P) (err Panic).
Proof. done. Qed.

Lemma yields_checked (o : option A) : returns (yields (λ _, True)) (checked o).
Proof. by destruct o. Qed.

Lemma yields_bind (P : A → Prop) (P' : B → Prop) (p : prog (result A)) f :
  returns (yields P) p → (∀ a, P a → returns (yields P') (f a)) → returns (yields P') (err_bind p f).
Proof. intros Hp Hf. eapply returns_bind; [done|]. intros [e|a]; simpl; [done|apply Hf]. Qed.

End yields.

Lemma yields_for_each {X A} (P : A → Prop) (l : list X) acc (body : A → X → prog (result A)) :
  P acc → (∀ acc x, x ∈ l → P acc → returns (yields P) (body acc x)) →
  returns (yields P) (for_each l acc body).
Proof.
  revert acc. induction l as [|x l IH]; intros acc Hacc Hbody; simpl; [done|].
  eapply yields_bind; [apply Hbody; [by left|done]|]. intros acc' Hacc'. apply IH; [done|].
  intros. apply Hbody; [by right|done].
Qed.
