(* ===== verification/Keyspace.v ===== *)
(** The abstract contract of the store: a keyspace maps a key to a typed value
    and an optional expiry time. This file relates it to the relational tables
    ([abs]), states when tables are well formed ([wf]) and reduces reasoning
    about a statement on one key to the rows of that key (its [slice]). *)
From S2P Require Import Prelude GoStd Float Sql Effects.
Local Open Scope Z_scope.

(** ** Redis values *)

Inductive rval :=
  | RStr (s : string)
  | RList (l : list string)
  | RHash (h : gmap string string)
  | RSet (s : gset string)
  | RZset (z : gmap string float64).

Record entry := mkEntry { e_val : rval; e_exp : option Z }.

Abbreviation keyspace := (gmap kid entry).

Definition type_name (v : rval) : string :=
  match v with
  | RStr _ => "string" | RList _ => "list" | RHash _ => "hash"
  | RSet _ => "set" | RZset _ => "zset"
  end.

(** ** The rows of one key *)

Record slice := mkSlice {
  s_key : option KeyRow;
  s_str : option string;
  s_list : gmap Z string;
  s_hash : gmap string string;
  s_set : gmap string unit;
  s_zset : gmap string float64;
}.

Definition slice_of (T : Tables) (k : kid) : slice :=
  mkSlice (t_keys T !! k) (t_strings T !! k) (rows k (t_lists T))
    (rows k (t_hashes T)) (rows k (t_sets T)) (rows k (t_zsets T)).

Definition empty_slice : slice := mkSlice None None ∅ ∅ ∅ ∅.

(** The value the rows of a key stand for, by its type column. *)
Definition slice_value (sl : slice) (typ : string) : option rval :=
  if decide (typ = "string") then RStr <$> s_str sl
  else if decide (typ = "list") then Some (RList (order_by_idx (s_list sl)))
  else if decide (typ = "hash") then Some (RHash (s_hash sl))
  else if decide (typ = "set") then Some (RSet (dom (s_set sl)))
  else if decide (typ = "zset") then Some (RZset (s_zset sl))
  else None.

(** The entry of a key at time [now]: none once it has expired. *)
Definition abs_entry (now : Z) (sl : slice) : option entry :=
  r ← s_key sl;
  if aliveWhere now r
  then v ← slice_value sl (kr_type r); Some (mkEntry v (kr_expires_at r))
  else None.

(** The keyspace the tables stand for at time [now]. *)
Definition abs (now : Z) (T : Tables) : keyspace :=
  map_imap (λ k _, abs_entry now (slice_of T k)) (t_keys T).

Lemma lookup_abs now T k : abs now T !! k = abs_entry now (slice_of T k).
Proof.
  unfold abs. rewrite map_lookup_imap. unfold abs_entry at 2; simpl.
  destruct (t_keys T !! k) as [r|] eqn:Hk; simpl; [|done].
  unfold abs_entry. simpl. by rewrite Hk.
Qed.

(** ** Well-formed tables *)

(** No score is a NaN. *)
Definition nan_free (z : gmap string float64) : Prop := map_Forall (λ _ x, is_nan x = false) z.

(** A key has rows only in the table of its type, a string key has its value. *)
Inductive wf_slice : slice → Prop :=
  | wf_none : wf_slice empty_slice
  | wf_string exp v :
      wf_slice (mkSlice (Some (mkKeyRow "string" exp)) (Some v) ∅ ∅ ∅ ∅)
  | wf_list exp l : wf_slice (mkSlice (Some (mkKeyRow "list" exp)) None l ∅ ∅ ∅)
  | wf_hash exp h : wf_slice (mkSlice (Some (mkKeyRow "hash" exp)) None ∅ h ∅ ∅)
  | wf_set exp s : wf_slice (mkSlice (Some (mkKeyRow "set" exp)) None ∅ ∅ s ∅)
  | wf_zset exp z : nan_free z → wf_slice (mkSlice (Some (mkKeyRow "zset" exp)) None ∅ ∅ ∅ z).
#[export] Hint Constructors wf_slice : sqlresp.

Definition wf (T : Tables) : Prop := ∀ k, wf_slice (slice_of T k).

Lemma wf_empty_tables : wf empty_tables.
Proof. intros k. apply wf_none. Qed.

(** ** Updating one key *)

(** [T'] is [T] with the rows of [k] replaced by [sl]. *)
Definition updates (T : Tables) (k : kid) (sl : slice) (T' : Tables) : Prop :=
  slice_of T' k = sl ∧ ∀ k', k' ≠ k → slice_of T' k' = slice_of T k'.

Lemma updates_refl T k : updates T k (slice_of T k) T.
Proof. done. Qed.

Lemma updates_trans T k sl T1 sl' T2 :
  updates T k sl T1 → updates T1 k sl' T2 → updates T k sl' T2.
Proof. intros [? H1] [? H2]. split; [done|]. intros k' Hk. by rewrite H2, H1. Qed.

Lemma updates_abs now T k sl T' :
  updates T k sl T' → abs now T' = partial_alter (λ _, abs_entry now sl) k (abs now T).
Proof.
  intros [Hk Hne]. apply map_eq. intros k'. rewrite lookup_abs.
  destruct (decide (k' = k)) as [->|?].
  - by rewrite lookup_partial_alter_eq, Hk.
  - by rewrite lookup_partial_alter_ne, lookup_abs, Hne by done.
Qed.

Lemma updates_wf T k sl T' : updates T k sl T' → wf T → wf_slice sl → wf T'.
Proof.
  intros [<- Hne] Hwf Hsl k'. destruct (decide (k' = k)) as [->|]; [done|].
  by rewrite Hne.
Qed.

#[export] Hint Resolve updates_refl wf_empty_tables : sqlresp.

(** ** Statements and queries on the rows of one key *)

Definition stmt_key (s : stmt) : option kid :=
  match s with
  | DeleteKeyExpired k _ | DeleteKey k | UpsertKey k _ _ | UpsertKeyType k _
  | InsertKeyIgnore k _ | InsertKey k _ _ | UpdateExpiry k _ | UpsertString k _
  | InsertString k _ | UpdateString k _ | DeleteList k | InsertListRow k _ _
  | UpsertHash k _ _ | DeleteHashField k _ | InsertSetIgnore k _
  | DeleteSetMember k _ | InsertZset k _ _ | UpdateZset k _ _ | DeleteZsetMember k _ => Some k
  | _ => None
  end.

Definition with_key (r : option KeyRow) (sl : slice) :=
  mkSlice r (s_str sl) (s_list sl) (s_hash sl) (s_set sl) (s_zset sl).
Definition with_str (v : option string) (sl : slice) :=
  mkSlice (s_key sl) v (s_list sl) (s_hash sl) (s_set sl) (s_zset sl).
Definition with_list (l : gmap Z string) (sl : slice) :=
  mkSlice (s_key sl) (s_str sl) l (s_hash sl) (s_set sl) (s_zset sl).
Definition with_hash (h : gmap string string) (sl : slice) :=
  mkSlice (s_key sl) (s_str sl) (s_list sl) h (s_set sl) (s_zset sl).
Definition with_set (m : gmap string unit) (sl : slice) :=
  mkSlice (s_key sl) (s_str sl) (s_list sl) (s_hash sl) m (s_zset sl).

Definition with_zset (z : gmap string float64) (sl : slice) :=
  mkSlice (s_key sl) (s_str sl) (s_list sl) (s_hash sl) (s_set sl) z.

Definition slice_fk {A} (sl : slice) (r : A) : option A :=
  match s_key sl with Some _ => Some r | None => None end.

Definition slice_delete (P : KeyRow → bool) (sl : slice) : Z * slice :=
  match s_key sl with
  | Some r => if P r then (1, empty_slice) else (0, sl)
  | None => (0, sl)
  end.

(** [sql_exec] restricted to the rows of the statement's key. *)
Definition slice_exec (s : stmt) (sl : slice) : option (Z * slice) :=
  match s with
  | DeleteKeyExpired _ now => Some (slice_delete (expiredWhere now) sl)
  | DeleteKey _ => Some (slice_delete (λ _, true) sl)
  | UpsertKey _ typ exp => Some (1, with_key (Some (mkKeyRow typ exp)) sl)
  | UpsertKeyType _ typ =>
      Some (1, with_key (Some (mkKeyRow typ (s_key sl ≫= kr_expires_at))) sl)
  | InsertKeyIgnore _ typ =>
      match s_key sl with
      | Some _ => Some (0, sl)
      | None => Some (1, with_key (Some (mkKeyRow typ None)) sl)
      end
  | InsertKey _ typ exp =>
      match s_key sl with
      | Some _ => None
      | None => Some (1, with_key (Some (mkKeyRow typ exp)) sl)
      end
  | UpdateExpiry _ exp =>
      match s_key sl with
      | Some r => Some (1, with_key (Some (mkKeyRow (kr_type r) exp)) sl)
      | None => Some (0, sl)
      end
  | UpsertString _ v => slice_fk sl (1, with_str (Some v) sl)
  | InsertString _ v =>
      match s_str sl with
      | Some _ => None
      | None => slice_fk sl (1, with_str (Some v) sl)
      end
  | UpdateString _ v =>
      match s_str sl with
      | Some _ => Some (1, with_str (Some v) sl)
      | None => Some (0, sl)
      end
  | DeleteList _ => Some (Z.of_nat (size (s_list sl)), with_list ∅ sl)
  | InsertListRow _ idx v =>
      match s_list sl !! idx with
      | Some _ => None
      | None => slice_fk sl (1, with_list (<[idx := v]> (s_list sl)) sl)
      end
  | UpsertHash _ f v => slice_fk sl (1, with_hash (<[f := v]> (s_hash sl)) sl)
  | DeleteHashField _ f =>
      match s_hash sl !! f with
      | Some _ => Some (1, with_hash (delete f (s_hash sl)) sl)
      | None => Some (0, sl)
      end
  | InsertSetIgnore _ m =>
      match s_set sl !! m with
      | Some _ => Some (0, sl)
      | None => slice_fk sl (1, with_set (<[m := tt]> (s_set sl)) sl)
      end
  | DeleteSetMember _ m =>
      match s_set sl !! m with
      | Some _ => Some (1, with_set (delete m (s_set sl)) sl)
      | None => Some (0, sl)
      end
  | InsertZset _ m score =>
      match s_zset sl !! m with
      | Some _ => None
      | None => if is_nan score then None else slice_fk sl (1, with_zset (<[m := score]> (s_zset sl)) sl)
      end
  | UpdateZset _ m score =>
      match s_zset sl !! m with
      | Some _ => if is_nan score then None else Some (1, with_zset (<[m := score]> (s_zset sl)) sl)
      | None => Some (0, sl)
      end
  | DeleteZsetMember _ m =>
      match s_zset sl !! m with
      | Some _ => Some (1, with_zset (delete m (s_zset sl)) sl)
      | None => Some (0, sl)
      end
  | _ => None
  end.

(** The outcome of a statement agrees with its outcome on the slice. *)
Definition agrees (T : Tables) (k : kid) (r : option (Z * Tables)) (r' : option (Z * slice)) : Prop :=
  match r, r' with
  | Some (n, T'), Some (n', sl') => n = n' ∧ updates T k sl' T'
  | None, None => True
  | _, _ => False
  end.

Lemma rows_filter {S V} `{Countable S} (k : kid) (b : kid → bool) (m : gmap (kid * S) V) :
  rows k (filter (λ p, b p.1.1 = false) m) = if b k then ∅ else rows k m.
Proof.
  apply map_eq. intros s. rewrite lookup_rows, map_lookup_filter. simpl.
  destruct (b k) eqn:Hb; [rewrite lookup_empty|rewrite lookup_rows];
    destruct (m !! (k, s)); simpl; try done; by rewrite option_guard_False || rewrite option_guard_True.
Qed.

Lemma lookup_filter_bool {K V} `{Countable K} (k : K) (b : K → V → bool) (m : gmap K V) :
  filter (λ p, b p.1 p.2 = false) m !! k =
    match m !! k with Some v => if b k v then None else Some v | None => None end.
Proof.
  rewrite map_lookup_filter. destruct (m !! k) as [v|]; simpl; [|done].
  destruct (b k v); [by rewrite option_guard_False|by rewrite option_guard_True].
Qed.

Lemma slice_delete_where P T k :
  slice_of (delete_where P T) k = if doomed P T k then empty_slice else slice_of T k.
Proof.
  unfold slice_of, delete_where; simpl. rewrite !rows_filter.
  rewrite lookup_filter_bool, (lookup_filter_bool k (λ k _, doomed P T k)).
  unfold doomed. destruct (t_keys T !! k) as [r|] eqn:Hk; simpl.
  - destruct (P k r); [|by destruct (t_strings T !! k)].
    by destruct (t_strings T !! k).
  - by destruct (t_strings T !! k).
Qed.

(** Deleting by a condition on one key only. *)
Definition at_kid (k : kid) (P : KeyRow → bool) : kid → KeyRow → bool :=
  λ k' r, bool_decide (k' = k) && P r.

Lemma count_at_kid k P T : count_where (at_kid k P) T = (slice_delete P (slice_of T k)).1.
Proof.
  unfold count_where, slice_delete, at_kid; simpl.
  destruct (t_keys T !! k) as [r|] eqn:Hk; [destruct (P r) eqn:HP|].
  - replace (filter _ _) with ({[k := r]} : gmap kid KeyRow).
    { by rewrite map_size_singleton. }
    symmetry. apply map_eq. intros k'. rewrite map_lookup_filter.
    destruct (decide (k' = k)) as [->|Hne].
    + rewrite Hk, lookup_singleton_eq. simpl. rewrite option_guard_True; [done|].
      by rewrite bool_decide_eq_true_2.
    + rewrite lookup_singleton_ne by done. destruct (t_keys T !! k'); [|done]. simpl.
      by rewrite option_guard_False; [|rewrite bool_decide_eq_false_2].
  - replace (filter _ _) with (∅ : gmap kid KeyRow); [by rewrite map_size_empty|].
    symmetry. apply map_empty_filter. intros k' r' Hk'; simpl.
    case_bool_decide; [|done]. by simplify_eq/=; rewrite HP.
  - replace (filter _ _) with (∅ : gmap kid KeyRow); [by rewrite map_size_empty|].
    symmetry. apply map_empty_filter. intros k' r' Hk'; simpl.
    case_bool_decide; [|done]. by simplify_eq.
Qed.

Lemma updates_at_kid k P T : updates T k (slice_delete P (slice_of T k)).2 (delete_where (at_kid k P) T).
Proof.
  unfold updates, slice_delete, at_kid. simpl. setoid_rewrite slice_delete_where.
  unfold doomed. split.
  - destruct (t_keys T !! k); [|done]. rewrite bool_decide_eq_true_2 by done. simpl.
    by destruct (P k0).
  - intros k' Hne. destruct (t_keys T !! k'); [|done]. by rewrite bool_decide_eq_false_2.
Qed.

Lemma delete_where_ext P Q T :
  (∀ k r, P k r = Q k r) → delete_where P T = delete_where Q T ∧ count_where P T = count_where Q T.
Proof.
  intros Heq.
  assert (∀ k, doomed P T k = doomed Q T k) as Hd.
  { intros k. unfold doomed. destruct (t_keys T !! k); auto. }
  split.
  - unfold delete_where. f_equal; apply map_filter_ext; intros; by rewrite ?Heq, ?Hd.
  - unfold count_where. f_equal. f_equal. apply map_filter_ext. intros. by rewrite Heq.
Qed.

(** A one-key change of each table, read on slices. *)
Lemma slice_set_keys T k r k' :
  slice_of (set_keys <[k := r]> T) k' =
    if decide (k' = k) then with_key (Some r) (slice_of T k) else slice_of T k'.
Proof.
  unfold slice_of, with_key; simpl. case_decide; subst.
  - by rewrite lookup_insert_eq.
  - by rewrite lookup_insert_ne.
Qed.

Lemma slice_set_strings T k v k' :
  slice_of (set_strings <[k := v]> T) k' =
    if decide (k' = k) then with_str (Some v) (slice_of T k) else slice_of T k'.
Proof.
  unfold slice_of, with_str; simpl. case_decide; subst.
  - by rewrite lookup_insert_eq.
  - by rewrite lookup_insert_ne.
Qed.

Lemma updates_by T k sl T' :
  (∀ k', slice_of T' k' = if decide (k' = k) then sl else slice_of T k') → updates T k sl T'.
Proof.
  intros Heq. split; [by rewrite Heq, decide_True|]. intros k' Hne. by rewrite Heq, decide_False.
Qed.

Ltac solve_updates :=
  unfold agrees, updates, slice_of, with_key, with_str, with_list, with_hash, with_set, with_zset; simpl;
  split; [done|]; split;
    [by autorewrite with rows; rewrite ?lookup_insert_eq
    |by intros; autorewrite with rows; rewrite ?lookup_insert_ne by congruence].

Lemma rows_clear {S V} `{Countable S} (k k' : kid) (m : gmap (kid * S) V) :
  rows k' (clear_rows k m) = if decide (k' = k) then ∅ else rows k' m.
Proof.
  apply map_eq. intros s. rewrite lookup_rows. unfold clear_rows.
  rewrite map_lookup_filter. simpl. case_decide; subst.
  - rewrite lookup_empty. destruct (m !! _); simpl; [|done]. by rewrite option_guard_False by congruence.
  - rewrite lookup_rows. destruct (m !! _); simpl; [|done]. by rewrite option_guard_True.
Qed.

Lemma agrees_delete k P T :
  agrees T k (Some (count_where (at_kid k P) T, delete_where (at_kid k P) T))
    (Some (slice_delete P (slice_of T k))).
Proof.
  unfold agrees. pose proof (count_at_kid k P T). pose proof (updates_at_kid k P T).
  by destruct (slice_delete P (slice_of T k)).
Qed.

(** A statement on one key does to the tables what [slice_exec] does to the
    rows of that key, and nothing to any other key. *)
Lemma sql_exec_slice s k T :
  stmt_key s = Some k → agrees T k (sql_exec s T) (slice_exec s (slice_of T k)).
Proof.
  destruct s; simpl; intros [= ->]; unfold fk, slice_fk; simpl.
  - apply (agrees_delete k (expiredWhere now)).
  - destruct (delete_where_ext (is_key k) (at_kid k (λ _, true)) T) as [-> ->].
    { intros k' r. unfold is_key, at_kid. by rewrite andb_true_r. }
    apply agrees_delete.
  - solve_updates.
  - solve_updates.
  - destruct (t_keys T !! k) eqn:Hk; [done|]. solve_updates.
  - destruct (t_keys T !! k) eqn:Hk; [done|]. solve_updates.
  - destruct (t_keys T !! k) eqn:Hk; [|done]. solve_updates.
  - destruct (t_keys T !! k) eqn:Hk; [|done]. solve_updates.
  - destruct (t_strings T !! k) eqn:Hs; [done|]. destruct (t_keys T !! k) eqn:Hk; [|done]. solve_updates.
  - destruct (t_strings T !! k) eqn:Hs; [|done]. solve_updates.
  - unfold agrees. split; [done|]. apply updates_by. intros k'. unfold slice_of, with_list; simpl.
    rewrite rows_clear. by case_decide; subst.
  - rewrite lookup_rows. destruct (t_lists T !! _) eqn:Hs; [done|].
    destruct (t_keys T !! k) eqn:Hk; [|done]. solve_updates.
  - destruct (t_keys T !! k) eqn:Hk; [|done]. solve_updates.
  - rewrite lookup_rows. destruct (t_hashes T !! _) eqn:Hs; [|done]. solve_updates.
  - rewrite lookup_rows. destruct (t_sets T !! _) eqn:Hs; [done|].
    destruct (t_keys T !! k) eqn:Hk; [|done]. solve_updates.
  - rewrite lookup_rows. destruct (t_sets T !! _) eqn:Hs; [|done]. solve_updates.
  - rewrite lookup_rows. destruct (t_zsets T !! _) eqn:Hs; [done|]. destruct (is_nan score); [done|].
    destruct (t_keys T !! k) eqn:Hk; [|done]. solve_updates.
  - rewrite lookup_rows. destruct (t_zsets T !! _) eqn:Hs; [|done]. destruct (is_nan score); [done|].
    solve_updates.
  - rewrite lookup_rows. destruct (t_zsets T !! _) eqn:Hs; [|done]. solve_updates.
Qed.

Definition query_key {R} (q : query R) : option kid :=
  match q with
  | SelKeyTypeAlive k _ | CountKeyAlive k _ | CountKey k | SelExpiresAt k
  | SelTypeExpires k | SelString k | SelList k | CountList k | SelHashValue k _
  | CountHashField k _ | SelHashRows k | SelHashFields k | SelHashValues k
  | CountHash k | SelSetMembers k | CountSetMember k _ | CountSet k
  | CountZsetMember k _ | SelZsetScore k _ | CountZsetBelow k _ | CountZset k
  | SelZsetPage k _ _ | SelZsetScores k _ _ _ _ => Some k
  | CountDbAlive _ _ | SelKeysAlive _ _ | SelRandomKey _ _ => None
  end.

(** [sql_select] read on the rows of the query's key. *)
Definition slice_select {R} (q : query R) (sl : slice) : list R :=
  match q with
  | SelKeyTypeAlive _ now =>
      match s_key sl with
      | Some r => if aliveWhere now r then [kr_type r] else []
      | None => []
      end
  | CountKeyAlive _ now =>
      [match s_key sl with Some r => if aliveWhere now r then 1 else 0 | None => 0 end]
  | CountKey _ => [count (s_key sl)]
  | SelExpiresAt _ => match s_key sl with Some r => [kr_expires_at r] | None => [] end
  | SelTypeExpires _ =>
      match s_key sl with Some r => [(kr_type r, kr_expires_at r)] | None => [] end
  | SelString _ => option_list (s_str sl)
  | SelList _ => order_by_idx (s_list sl)
  | CountList _ => [Z.of_nat (size (s_list sl))]
  | SelHashValue _ f => option_list (s_hash sl !! f)
  | CountHashField _ f => [count (s_hash sl !! f)]
  | SelHashRows _ => map_to_list (s_hash sl)
  | SelHashFields _ => (map_to_list (s_hash sl)).*1
  | SelHashValues _ => (map_to_list (s_hash sl)).*2
  | CountHash _ => [Z.of_nat (size (s_hash sl))]
  | SelSetMembers _ => (map_to_list (s_set sl)).*1
  | CountSetMember _ m => [count (s_set sl !! m)]
  | CountSet _ => [Z.of_nat (size (s_set sl))]
  | CountZsetMember _ m => [count (s_zset sl !! m)]
  | SelZsetScore _ m => option_list (s_zset sl !! m)
  | CountZsetBelow _ m => [Z.of_nat (size (scores_below (s_zset sl !! m) (s_zset sl)))]
  | CountZset _ => [Z.of_nat (size (s_zset sl))]
  | SelZsetPage _ limit offset => limit_offset limit offset (order_by_score (s_zset sl))
  | SelZsetScores _ minExcl maxExcl min max =>
      order_by_score (scores_between minExcl maxExcl min max (s_zset sl))
  | _ => []
  end.

Lemma sql_select_slice {R} (q : query R) k T :
  query_key q = Some k → sql_select q T = slice_select q (slice_of T k).
Proof. destruct q; simpl; intros [= ->]; by rewrite ?lookup_rows. Qed.

(** ** Program states seen from one key *)

(** No transaction is open and the clock stands at [ns] nanoseconds. *)
Definition idle (ns : Z) (σ : State) : Prop := work σ = None ∧ ∀ n, clk σ n = ns.

(** The committed tables are [T0] with the rows of [k] replaced by [sl]. *)
Definition quiet (ns : Z) (T0 : Tables) (k : kid) (sl : slice) (σ : State) : Prop :=
  idle ns σ ∧ updates T0 k sl (com σ).

(** A transaction is open: outside it the rows of [k] are [sl], inside [slw]. *)
Definition in_tx (ns : Z) (T0 : Tables) (k : kid) (sl slw : slice) (σ : State) : Prop :=
  (∀ n, clk σ n = ns) ∧ updates T0 k sl (com σ) ∧
  ∃ W, work σ = Some W ∧ updates T0 k slw W.

Lemma quiet_start ns k σ : idle ns σ → quiet ns (com σ) k (slice_of (com σ) k) σ.
Proof. by split. Qed.

Section rules.
Context (F : Prop) (ns : Z) (T0 : Tables) (k : kid).

Lemma wp_slice_now {A} (f : Z → prog A) Q sl σ :
  quiet ns T0 k sl σ → (∀ σ', quiet ns T0 k sl σ' → wp F (f ns) Q σ') →
  wp F (Vis Now f) Q σ.
Proof.
  intros [[Hw Hc] Hu] Hk. apply wp_now. rewrite Hc. apply Hk.
  split; [|done]. split; [done|]. intros n. apply Hc.
Qed.

Lemma wp_tx_now {A} (f : Z → prog A) Q sl slw σ :
  in_tx ns T0 k sl slw σ → (∀ σ', in_tx ns T0 k sl slw σ' → wp F (f ns) Q σ') →
  wp F (Vis Now f) Q σ.
Proof.
  intros (Hc & Hu & W & HW & HuW) Hk. apply wp_now. rewrite Hc. apply Hk.
  split; [intros n; apply Hc|]. split; [done|]. by exists W.
Qed.

Lemma slice_exec_Some s sl T n T' :
  stmt_key s = Some k → updates T0 k sl T → sql_exec s T = Some (n, T') →
  ∃ sl', slice_exec s sl = Some (n, sl') ∧ updates T0 k sl' T'.
Proof.
  intros Hs Hu He. pose proof (sql_exec_slice s k T Hs) as Ha.
  rewrite He in Ha. destruct Hu as [Hsl Hu]. rewrite Hsl in Ha. unfold agrees in Ha.
  destruct (slice_exec s sl) as [[n' sl']|]; [|done]. destruct Ha as [-> Ha].
  exists sl'. split; [done|]. by eapply updates_trans; [split|].
Qed.

Lemma slice_exec_outcome s sl n sl' T e T' :
  stmt_key s = Some k → updates T0 k sl T → slice_exec s sl = Some (n, sl') →
  exec_outcome F s T (inl e) T' → F ∧ (updates T0 k sl T' ∨ updates T0 k sl' T').
Proof.
  intros Hs Hu He [[-> [HF|Hnone]]|[HF [n' Hsome]]].
  - auto.
  - pose proof (sql_exec_slice s k T Hs) as Ha. rewrite Hnone in Ha.
    destruct Hu as [Hsl Hu]. by rewrite Hsl, He in Ha.
  - split; [done|]. destruct (slice_exec_Some _ _ _ _ _ Hs Hu Hsome) as (sl'' & ? & ?).
    simplify_eq. auto.
Qed.

(** A statement through [s.db]. *)
Lemma wp_slice_exec s sl n sl' Q σ :
  quiet ns T0 k sl σ → stmt_key s = Some k → slice_exec s sl = Some (n, sl') →
  (∀ σ', quiet ns T0 k sl' σ' → Q (inr n) σ') →
  (F → ∀ e σ', quiet ns T0 k sl σ' ∨ quiet ns T0 k sl' σ' → Q (inl (ErrDb e)) σ') →
  wp F (exec DB s) Q σ.
Proof.
  intros [[Hw Hc] Hu] Hs He Hok Herr. apply wp_exec_db; [done|..].
  - intros n' T' Hx. destruct (slice_exec_Some _ _ _ _ _ Hs Hu Hx) as (? & ? & ?).
    simplify_eq. apply Hok. by split.
  - intros e T' Ho. destruct (slice_exec_outcome _ _ _ _ _ _ _ Hs Hu He Ho) as [HF Hor].
    apply Herr; [done|]. destruct Hor; [left|right]; by split.
Qed.

(** The rows a failed statement may leave. *)
Definition slice_failed (s : stmt) (slw slw' : slice) : Prop :=
  (slw' = slw ∧ (F ∨ slice_exec s slw = None)) ∨ (F ∧ ∃ n, slice_exec s slw = Some (n, slw')).

(** A statement through [s.db] that may violate a constraint. *)
Lemma wp_slice_exec_any s sl Q σ :
  quiet ns T0 k sl σ → stmt_key s = Some k →
  (∀ n sl' σ', slice_exec s sl = Some (n, sl') → quiet ns T0 k sl' σ' → Q (inr n) σ') →
  (∀ e sl' σ', slice_failed s sl sl' → quiet ns T0 k sl' σ' → Q (inl (ErrDb e)) σ') →
  wp F (exec DB s) Q σ.
Proof.
  intros [[Hw Hc] Hu] Hs Hok Herr. apply wp_exec_db; [done|..].
  - intros n' T' Hx. destruct (slice_exec_Some _ _ _ _ _ Hs Hu Hx) as (sl' & ? & ?).
    eapply Hok; [done|]. by split.
  - intros e T' [[-> Hor]|[HF [n Hx]]].
    + apply (Herr _ sl); [|by split]. left. split; [done|].
      destruct Hor as [?|Hnone]; [by left|]. right.
      pose proof (sql_exec_slice s k (com σ) Hs) as Ha. rewrite Hnone, (proj1 Hu) in Ha.
      by destruct (slice_exec s sl).
    + destruct (slice_exec_Some _ _ _ _ _ Hs Hu Hx) as (sl' & ? & ?).
      apply (Herr _ sl'); [right; eauto|]. by split.
Qed.

(** A statement through [tx], which may violate a constraint ... *)
Lemma wp_slice_exec_tx_any s sl slw Q σ :
  in_tx ns T0 k sl slw σ → stmt_key s = Some k →
  (∀ n slw' σ', slice_exec s slw = Some (n, slw') → in_tx ns T0 k sl slw' σ' → Q (inr n) σ') →
  (∀ e slw' σ', slice_failed s slw slw' → in_tx ns T0 k sl slw' σ' → Q (inl (ErrDb e)) σ') →
  wp F (exec TX s) Q σ.
Proof.
  intros (Hc & Hu & W & HW & HuW) Hs Hok Herr. eapply wp_exec_tx; [done|..].
  - intros n' T' Hx. destruct (slice_exec_Some _ _ _ _ _ Hs HuW Hx) as (slw' & ? & ?).
    eapply Hok; [done|]. split; [done|]. split; [done|]. by exists T'.
  - intros e T' [[-> Hor]|[HF [n Hx]]].
    + apply (Herr _ slw); [|split; [done|split; [done|by exists W]]]. left. split; [done|].
      destruct Hor as [?|Hnone]; [by left|]. right.
      pose proof (sql_exec_slice s k W Hs) as Ha. rewrite Hnone, (proj1 HuW) in Ha.
      by destruct (slice_exec s slw).
    + destruct (slice_exec_Some _ _ _ _ _ Hs HuW Hx) as (slw' & ? & ?).
      apply (Herr _ slw'); [right; eauto|]. split; [done|]. split; [done|]. by exists T'.
Qed.

(** ... and one that does not. *)
Lemma wp_slice_exec_tx s sl slw n slw' Q σ :
  in_tx ns T0 k sl slw σ → stmt_key s = Some k → slice_exec s slw = Some (n, slw') →
  (∀ σ', in_tx ns T0 k sl slw' σ' → Q (inr n) σ') →
  (F → ∀ e σ' slw'', in_tx ns T0 k sl slw'' σ' → Q (inl (ErrDb e)) σ') →
  wp F (exec TX s) Q σ.
Proof.
  intros Hq Hs He Hok Herr. eapply wp_slice_exec_tx_any; [done..| |].
  - intros n' slw1 σ' He' Hq'. simplify_eq. by apply Hok.
  - intros e slw1 σ' Hf Hq'. eapply Herr; [|done].
    destruct Hf as [[_ [?|?]]|[? _]]; congruence || done.
Qed.

Definition answers {R} (q : query R) (sl : slice) (rows : list R) : Prop :=
  match sql_order q with
  | Ordered => rows = slice_select q sl
  | _ => rows ≡ₚ slice_select q sl
  end.

Lemma sql_answer_slice {R} (q : query R) sl T rows :
  query_key q = Some k → updates T0 k sl T → sql_answer q T rows → answers q sl rows.
Proof.
  intros Hq [<- _]. unfold sql_answer, answers.
  rewrite (sql_select_slice _ _ _ Hq). by destruct q.
Qed.

Lemma wp_slice_query_all {R} (q : query R) sl Q σ :
  quiet ns T0 k sl σ → query_key q = Some k →
  (∀ rows, answers q sl rows → Q (inr rows) σ) →
  (F → ∀ e, Q (inl (ErrDb e)) σ) →
  wp F (query_all DB q) Q σ.
Proof.
  intros [[Hw Hc] Hu] Hq Hok Herr. eapply wp_query_all; [by simpl; rewrite Hw|..]; auto.
  intros rows Hr. apply Hok. by eapply sql_answer_slice.
Qed.

Definition row_of {R} (rows : list R) : scan R :=
  match rows with [] => NoRows | x :: _ => Row x end.

Lemma wp_slice_query_row {R} (q : query R) sl Q σ :
  quiet ns T0 k sl σ → query_key q = Some k → sql_order q = Ordered →
  Q (row_of (slice_select q sl)) σ →
  (F → ∀ e, Q (ScanErr (ErrDb e)) σ) →
  wp F (query_row DB q) Q σ.
Proof.
  intros [[Hw Hc] Hu] Hq Ho Hok Herr. eapply wp_query_row; [by simpl; rewrite Hw|..]; auto.
  intros rows Hr. eapply sql_answer_slice in Hr; [|done..]. unfold answers in Hr.
  rewrite Ho in Hr. by subst.
Qed.

Lemma wp_slice_query_row_tx {R} (q : query R) sl slw Q σ :
  in_tx ns T0 k sl slw σ → query_key q = Some k → sql_order q = Ordered →
  Q (row_of (slice_select q slw)) σ →
  (F → ∀ e, Q (ScanErr (ErrDb e)) σ) →
  wp F (query_row TX q) Q σ.
Proof.
  intros (Hc & Hu & W & HW & HuW) Hq Ho Hok Herr. eapply wp_query_row; [done|..]; auto.
  intros rows Hr. eapply sql_answer_slice in Hr; [|done..]. unfold answers in Hr.
  rewrite Ho in Hr. by subst.
Qed.

Lemma wp_slice_with_tx {A} (body : prog (result A)) sl Q σ :
  quiet ns T0 k sl σ →
  (∀ σ', in_tx ns T0 k sl sl σ' → wp F body (λ r σ'', Q r (set_work None σ'')) σ') →
  (F → ∀ e, Q (inl (ErrDb e)) σ) →
  wp F (with_tx body) Q σ.
Proof.
  intros [[Hw Hc] Hu] Hbody Herr. apply wp_with_tx; auto.
  apply Hbody. split; [done|]. split; [done|]. by exists (com σ).
Qed.

(** After the deferred rollback an uncommitted transaction leaves no trace. *)
Lemma in_tx_rollback sl slw σ : in_tx ns T0 k sl slw σ → quiet ns T0 k sl (set_work None σ).
Proof. intros (Hc & Hu & _). by split. Qed.

Lemma quiet_rollback sl σ : quiet ns T0 k sl σ → quiet ns T0 k sl (set_work None σ).
Proof. intros [[Hw Hc] Hu]. by split. Qed.

Lemma wp_slice_commit sl slw Q σ :
  in_tx ns T0 k sl slw σ →
  (∀ σ', quiet ns T0 k slw σ' → Q (inr tt) σ') →
  (F → ∀ e σ', quiet ns T0 k sl σ' ∨ quiet ns T0 k slw σ' → Q (inl (ErrDb e)) σ') →
  wp F commit Q σ.
Proof.
  intros (Hc & Hu & W & HW & HuW) Hok Herr. eapply wp_commit; [done|..].
  - apply Hok. by split.
  - intros e T' HF HT'. apply Herr; [done|].
    destruct HT' as [HT'|HT']; rewrite HT'; [left|right]; by split.
Qed.
End rules.

(** ** Contracts *)

(** What an operation promises: [c_ok before r after] when the engine does its
    part, and otherwise, on a faulty engine, at least [c_crash before r after]. *)
Record contract (A : Type) := mkContract {
  c_ok : keyspace → result A → keyspace → Prop;
  c_crash : keyspace → result A → keyspace → Prop;
}.
Arguments mkContract {A}. Arguments c_ok {A}. Arguments c_crash {A}.

(** The states between two operations: well-formed tables, no open
    transaction, and the clock standing at [ns]. *)
Definition ready (ns : Z) (σ : State) : Prop := wf (com σ) ∧ idle ns σ.

Definition fulfils (F : Prop) (ns : Z) {A} (C : contract A) (σ : State) (r : result A) (σ' : State) : Prop :=
  let before := abs (unix_milli ns) (com σ) in
  let after := abs (unix_milli ns) (com σ') in
  ready ns σ' ∧ (c_ok C before r after ∨ F ∧ c_crash C before r after).

Definition meets (F : Prop) (ns : Z) {A} (p : prog (result A)) (C : contract A) (σ : State) : Prop :=
  wp F p (fulfils F ns C σ) σ.

(** Running [p] on an engine in state [w] fulfils the contract [C]. *)
Definition outcome `{Engine E} (ns : Z) (w : E) {A} (p : prog (result A)) (C : contract A) : Prop :=
  let '(r, w') := run p w in fulfils (faulty E) ns C (view w) r (view w').

Lemma meets_outcome `{Engine E} ns (w : E) {A} (p : prog (result A)) C :
  meets (faulty E) ns p C (view w) → outcome ns w p C.
Proof. apply wp_run. Qed.

(** Contracts can be read with what is known of the starting keyspace. *)
Lemma outcome_mono `{Engine E} ns (w : E) {A} (p : prog (result A)) C C' :
  let before := abs (unix_milli ns) (com (view w)) in
  (∀ r a', c_ok C before r a' → c_ok C' before r a') →
  (∀ r a', c_crash C before r a' → c_crash C' before r a') →
  outcome ns w p C → outcome ns w p C'.
Proof.
  intros before Hok Hcrash. unfold outcome, fulfils. destruct (run p w).
  intros [Hr [?|[? ?]]]; (split; [done|]); [left|right]; auto.
Qed.

Definition db_error {A} (r : result A) : Prop := ∃ e, r = inl (ErrDb e).

(** The contract of an operation on the entry of one key: [f] gives the
    result and the new entry, [crash] relates the old entry to the result and
    the new entry when the engine fails, and every other key is untouched. *)
Definition on_entry {A} (k : kid) (f : option entry → result A * option entry)
    (crash : option entry → result A → option entry → Prop) : contract A :=
  let put (a : keyspace) (e : option entry) : keyspace := partial_alter (λ _, e) k a in
  mkContract
    (λ a r a', r = (f (a !! k)).1 ∧ a' = put a (f (a !! k)).2)
    (λ a r a', ∃ e, crash (a !! k) r e ∧ a' = put a e).

(** All or nothing: an engine failure is reported and leaves the old or the
    new entry. *)
Definition atomic {A} (f : option entry → result A * option entry)
    (e : option entry) (r : result A) (e' : option entry) : Prop :=
  db_error r ∧ (e' = e ∨ e' = (f e).2).

(** The contract of a failure-atomic operation. *)
Definition atomically {A} (k : kid) (f : option entry → result A * option entry) : contract A :=
  on_entry k f (atomic f).

(** [assertType]: an entry of another type is an error. *)
Definition expect {A} (want : string) (g : option entry → result A * option entry)
    (e : option entry) : result A * option entry :=
  match e with
  | Some e' => if decide (type_name (e_val e') = want) then g e else (inl ErrWrongType, e)
  | None => g None
  end.

(** The contract of an operation that reads a value of type [want]. *)
Definition reads {A} (k : kid) (want : string) (f : option entry → A) : contract A :=
  atomically k (expect want (λ e, (inr (f e), e))).

(** Only the value of [f] on the actual entry matters. *)
Lemma outcome_ext `{Engine E} ns (w : E) {A} (p : prog (result A)) k f g :
  f (abs (unix_milli ns) (com (view w)) !! k) = g (abs (unix_milli ns) (com (view w)) !! k) →
  outcome ns w p (atomically k f) → outcome ns w p (atomically k g).
Proof.
  intros Heq. apply outcome_mono; simpl; unfold atomic; by rewrite Heq.
Qed.

(** ... that reads a key of any type. *)
Definition reads_any {A} (k : kid) (f : option entry → A) : contract A :=
  atomically k (λ e, (inr (f e), e)).

(** ... whose answer is one of several, such as rows in any order. *)
Definition reads_one_of {A} (k : kid) (want : string) (P : option entry → A → Prop) : contract A :=
  mkContract
    (λ a r a', a' = a ∧
       match a !! k with
       | Some e => if decide (type_name (e_val e) = want) then ∃ x, r = inr x ∧ P (Some e) x
                   else r = inl ErrWrongType
       | None => ∃ x, r = inr x ∧ P None x
       end)
    (λ a r a', a' = a ∧ db_error r).

(** The values read; an absent key reads as the empty value. *)
Definition str_of (e : option entry) : option string :=
  match e with Some (mkEntry (RStr v) _) => Some v | _ => None end.
Definition list_of (e : option entry) : list string :=
  match e with Some (mkEntry (RList l) _) => l | _ => [] end.
Definition hash_of (e : option entry) : gmap string string :=
  match e with Some (mkEntry (RHash h) _) => h | _ => ∅ end.
Definition set_of (e : option entry) : gset string :=
  match e with Some (mkEntry (RSet s) _) => s | _ => ∅ end.
Definition zset_of (e : option entry) : gmap string float64 :=
  match e with Some (mkEntry (RZset z) _) => z | _ => ∅ end.

(** The expiry time an update keeps. *)
Definition exp_of (e : option entry) : option Z := e ≫= e_exp.

(** A stored entry, absent at once if its expiry time has passed. *)
Definition stored (now : Z) (v : rval) (exp : option Z) : option entry :=
  if aliveWhere now (mkKeyRow (type_name v) exp) then Some (mkEntry v exp) else None.

(** A reading operation leaves the keyspace as it is. *)
Definition read_answer {A} (want : string) (f : option entry → A) (e : option entry) : result A :=
  match e with
  | Some en => if decide (type_name (e_val en) = want) then inr (f e) else inl ErrWrongType
  | None => inr (f None)
  end.

Lemma read_answer_map {A B} want (g : A → B) (f : option entry → A) e :
  read_answer want (λ e, g (f e)) e =
    match read_answer want f e with inl c => inl c | inr a => inr (g a) end.
Proof. unfold read_answer. destruct e; [|done]. by case_decide. Qed.

Lemma fulfils_reads (F : Prop) ns {A} (k : kid) want (f : option entry → A) σ r σ' :
  let a := abs (unix_milli ns) (com σ) in
  fulfils F ns (reads k want f) σ r σ' ↔
    ready ns σ' ∧ abs (unix_milli ns) (com σ') = a ∧
    (r = read_answer want f (a !! k) ∨ F ∧ db_error r).
Proof.
  intros a. unfold fulfils. fold a. simpl. unfold atomic.
  assert (partial_alter (λ _, a !! k) k a = a) as Hid by by apply partial_alter_self.
  assert (expect want (λ e, (inr (f e), e)) (a !! k) = (read_answer want f (a !! k), a !! k)) as ->.
  { unfold expect, read_answer. destruct (a !! k); [|done]. by case_decide. }
  simpl. rewrite Hid. split.
  - intros [Hr [[-> Ha]|[HF (e & [Hdb [->| ->]] & Ha)]]]; rewrite ?Hid in Ha; eauto.
  - intros (Hr & Ha & [->|[HF Hdb]]); (split; [done|]); [by left|right].
    split; [done|]. exists (a !! k). by rewrite Hid; auto.
Qed.

Lemma fulfils_reads_any (F : Prop) ns {A} (k : kid) (f : option entry → A) σ r σ' :
  let a := abs (unix_milli ns) (com σ) in
  fulfils F ns (reads_any k f) σ r σ' ↔
    ready ns σ' ∧ abs (unix_milli ns) (com σ') = a ∧ (r = inr (f (a !! k)) ∨ F ∧ db_error r).
Proof.
  intros a. unfold fulfils. fold a. simpl. unfold atomic. simpl.
  assert (partial_alter (λ _, a !! k) k a = a) as Hid by by apply partial_alter_self.
  rewrite Hid. split.
  - intros [Hr [[-> Ha]|[HF (e & [Hdb [->| ->]] & Ha)]]]; rewrite ?Hid in Ha; eauto.
  - intros (Hr & Ha & [->|[HF Hdb]]); (split; [done|]); [by left|right].
    split; [done|]. exists (a !! k). by rewrite Hid; auto.
Qed.

(** The postcondition on slices that establishes [on_entry]. *)
Definition entry_post (F : Prop) (ns : Z) (T0 : Tables) (k : kid) {A}
    (f : option entry → result A * option entry)
    (crash : option entry → result A → option entry → Prop) (e : option entry)
    (r : result A) (σ' : State) : Prop :=
  ∃ sl', quiet ns T0 k sl' σ' ∧ wf_slice sl' ∧
    let e' := abs_entry (unix_milli ns) sl' in
    (r = (f e).1 ∧ e' = (f e).2 ∨ F ∧ crash e r e').

Lemma meets_on_entry_at F ns {A} (p : prog (result A)) k f crash σ0 :
  ready ns σ0 →
  (∀ T0 sl σ, wf_slice sl → quiet ns T0 k sl σ →
     abs_entry (unix_milli ns) sl = abs (unix_milli ns) (com σ0) !! k →
     wp F p (entry_post F ns T0 k f crash (abs_entry (unix_milli ns) sl)) σ) →
  meets F ns p (on_entry k f crash) σ0.
Proof.
  intros [Hwf Hidle] Hp.
  eapply wp_mono; [|apply (Hp (com σ0) (slice_of (com σ0) k));
    [apply Hwf|by apply quiet_start|by rewrite lookup_abs]].
  intros r σ' (sl' & [Hidle' Hu] & Hsl & Hor). unfold fulfils.
  split; [split; [by eapply updates_wf|done]|]. simpl.
  rewrite (updates_abs _ _ _ _ _ Hu). rewrite lookup_abs.
  destruct Hor as [[-> ->]|[HF Hc]]; [by left|right]. split; [done|]. by eexists.
Qed.

Lemma meets_on_entry F ns {A} (p : prog (result A)) k f crash σ :
  ready ns σ →
  (∀ T0 sl σ, wf_slice sl → quiet ns T0 k sl σ →
     wp F p (entry_post F ns T0 k f crash (abs_entry (unix_milli ns) sl)) σ) →
  meets F ns p (on_entry k f crash) σ.
Proof. intros Hr Hp. apply meets_on_entry_at; auto. Qed.

(** The ways to close a branch of a proof: the specified outcome, or a
    reported engine failure with the old or the new rows. *)
Lemma entry_post_ok F ns T0 k {A} (f : option entry → result A * option entry) crash e r sl σ :
  quiet ns T0 k sl σ → wf_slice sl → f e = (r, abs_entry (unix_milli ns) sl) →
  entry_post F ns T0 k f crash e r σ.
Proof. intros Hq Hsl Hf. exists sl. split; [done|]. split; [done|]. left. by rewrite Hf. Qed.

Lemma entry_post_crash (F : Prop) ns T0 k {A} (f : option entry → result A * option entry) crash e r sl σ :
  quiet ns T0 k sl σ → wf_slice sl → F → crash e r (abs_entry (unix_milli ns) sl) →
  entry_post F ns T0 k f crash e r σ.
Proof. intros Hq Hsl HF Hc. exists sl. auto. Qed.

Lemma nan_free_empty : nan_free ∅.
Proof. apply map_Forall_empty. Qed.
Lemma nan_free_insert z m x : nan_free z → is_nan x = false → nan_free (<[m := x]> z).
Proof. intros. by apply map_Forall_insert_2. Qed.
Lemma nan_free_delete z m : nan_free z → nan_free (delete m z).
Proof. apply map_Forall_delete. Qed.
#[export] Hint Resolve nan_free_empty nan_free_insert nan_free_delete : sqlresp.

(** *** The rows of a live key of each type *)

Abbreviation string_slice exp v := (mkSlice (Some (mkKeyRow "string" exp)) (Some v) ∅ ∅ ∅ ∅).
Abbreviation list_slice exp l := (mkSlice (Some (mkKeyRow "list" exp)) None l ∅ ∅ ∅).
Abbreviation hash_slice exp h := (mkSlice (Some (mkKeyRow "hash" exp)) None ∅ h ∅ ∅).
Abbreviation set_slice exp s := (mkSlice (Some (mkKeyRow "set" exp)) None ∅ ∅ s ∅).
Abbreviation zset_slice exp z := (mkSlice (Some (mkKeyRow "zset" exp)) None ∅ ∅ ∅ z).

Definition has_type (sl : slice) (typ : string) : Prop :=
  ∀ r, s_key sl = Some r → kr_type r = typ.

Lemma wf_type_nonempty sl r : wf_slice sl → s_key sl = Some r → kr_type r ≠ "".
Proof. by destruct 1; intros; simplify_eq/=. Qed.

Lemma wf_string_cases sl : wf_slice sl → has_type sl "string" →
  sl = empty_slice ∨ ∃ exp v, sl = string_slice exp v.
Proof. destruct 1; intros Ht; eauto; by specialize (Ht _ eq_refl). Qed.
Lemma wf_list_cases sl : wf_slice sl → has_type sl "list" →
  sl = empty_slice ∨ ∃ exp l, sl = list_slice exp l.
Proof. destruct 1; intros Ht; eauto; by specialize (Ht _ eq_refl). Qed.
Lemma wf_hash_cases sl : wf_slice sl → has_type sl "hash" →
  sl = empty_slice ∨ ∃ exp h, sl = hash_slice exp h.
Proof. destruct 1; intros Ht; eauto; by specialize (Ht _ eq_refl). Qed.
Lemma wf_set_cases sl : wf_slice sl → has_type sl "set" →
  sl = empty_slice ∨ ∃ exp s, sl = set_slice exp s.
Proof. destruct 1; intros Ht; eauto; by specialize (Ht _ eq_refl). Qed.
Lemma wf_zset_cases sl : wf_slice sl → has_type sl "zset" →
  sl = empty_slice ∨ ∃ exp z, nan_free z ∧ sl = zset_slice exp z.
Proof. destruct 1; intros Ht; eauto; by specialize (Ht _ eq_refl). Qed.

(** What the rows of each type stand for. *)
Lemma abs_string now exp v : abs_entry now (string_slice exp v) = stored now (RStr v) exp.
Proof. done. Qed.
Lemma abs_list now exp l :
  abs_entry now (list_slice exp l) = stored now (RList (order_by_idx l)) exp.
Proof. done. Qed.
Lemma abs_hash now exp h : abs_entry now (hash_slice exp h) = stored now (RHash h) exp.
Proof. done. Qed.
Lemma abs_set now exp s : abs_entry now (set_slice exp s) = stored now (RSet (dom s)) exp.
Proof. done. Qed.
Lemma abs_zset now exp z : abs_entry now (zset_slice exp z) = stored now (RZset z) exp.
Proof. done. Qed.

Lemma wf_slice_value sl r : wf_slice sl → s_key sl = Some r →
  ∃ v, slice_value sl (kr_type r) = Some v ∧ type_name v = kr_type r.
Proof. by destruct 1; intros; simplify_eq/=; eexists. Qed.

(** ** Deciding well-formedness *)

Definition wf_slice_b (sl : slice) : bool :=
  let no_str := bool_decide (s_str sl = None) in
  let no_list := bool_decide (s_list sl = ∅) in
  let no_hash := bool_decide (s_hash sl = ∅) in
  let no_set := bool_decide (s_set sl = ∅) in
  let no_zset := bool_decide (dom (s_zset sl) = ∅) in
  let no_nan := bool_decide (map_Forall (λ _ x, is_nan x = false) (s_zset sl)) in
  match s_key sl with
  | None => no_str && no_list && no_hash && no_set && no_zset
  | Some r =>
      if decide (kr_type r = "string") then negb no_str && no_list && no_hash && no_set && no_zset
      else if decide (kr_type r = "list") then no_str && no_hash && no_set && no_zset
      else if decide (kr_type r = "hash") then no_str && no_list && no_set && no_zset
      else if decide (kr_type r = "set") then no_str && no_list && no_hash && no_zset
      else if decide (kr_type r = "zset") then no_str && no_list && no_hash && no_set && no_nan
      else false
  end.

Lemma wf_slice_b_sound sl : wf_slice_b sl = true → wf_slice sl.
Proof.
  destruct sl as [[[typ exp]|] v l h s z]; unfold wf_slice_b; simpl; intros Hb;
    repeat match goal with
    | H : context [decide (typ = ?t)] |- _ => destruct (decide (typ = t))
    end; simplify_eq/=;
    repeat match goal with
    | H : _ && _ = true |- _ => apply andb_true_iff in H as [? ?]
    | H : bool_decide _ = true |- _ => apply bool_decide_eq_true_1 in H
    | H : negb _ = true |- _ => apply negb_true_iff, bool_decide_eq_false_1 in H
    | H : dom _ = ∅ |- _ => apply dom_empty_iff_L in H
    end; subst; try (by constructor).
  destruct v; [constructor|done].
Qed.

(** Every key some table mentions. *)
Definition all_kids (T : Tables) : list kid :=
  (map_to_list (t_keys T)).*1 ++ (map_to_list (t_strings T)).*1 ++
  (map_to_list (t_lists T)).*1.*1 ++ (map_to_list (t_hashes T)).*1.*1 ++
  (map_to_list (t_sets T)).*1.*1 ++ (map_to_list (t_zsets T)).*1.*1.

Definition wf_b (T : Tables) : bool := forallb (λ k, wf_slice_b (slice_of T k)) (all_kids T).

Lemma not_in_keys {K V} `{Countable K} (m : gmap K V) k : k ∉ (map_to_list m).*1 → m !! k = None.
Proof.
  intros Hn. destruct (m !! k) as [v|] eqn:Hk; [|done]. destruct Hn.
  apply list_elem_of_fmap. exists (k, v). split; [done|]. by apply elem_of_map_to_list.
Qed.

Lemma not_in_rows {S V} `{Countable S} (m : gmap (kid * S) V) k :
  k ∉ (map_to_list m).*1.*1 → rows k m = ∅.
Proof.
  intros Hn. apply map_eq. intros s. rewrite lookup_rows, lookup_empty.
  destruct (m !! (k, s)) as [v|] eqn:Hk; [|done]. destruct Hn.
  apply list_elem_of_fmap. exists (k, s). split; [done|].
  apply list_elem_of_fmap. exists (k, s, v). split; [done|]. by apply elem_of_map_to_list.
Qed.

Lemma wf_b_sound T : wf_b T = true → wf T.
Proof.
  unfold wf_b. intros Hall%Is_true_true_2 k. rewrite forallb_True in Hall.
  destruct (decide (k ∈ all_kids T)) as [Hin|Hn].
  - apply wf_slice_b_sound, Is_true_true_1. rewrite Forall_forall in Hall.
    by apply Hall, list_elem_of_In.
  - unfold all_kids in Hn. rewrite !not_elem_of_app in Hn.
    destruct Hn as (H1 & H2 & H3 & H4 & H5 & H6). unfold slice_of.
    rewrite !not_in_keys, !not_in_rows by done. constructor.
Qed.
