(* ===== verification/Locality.v ===== *)
(** Where statements reach. [agree K] relates tables with the same rows for the
    keys in [K]; a statement or query within [K] cannot tell such tables apart,
    and a statement within [K] leaves the rows of every other key. *)
From S2P Require Import Prelude GoStd Float Sql Effects Keyspace.
Local Open Scope Z_scope.

(** A set of keys. *)
Abbreviation footprint := (kid → Prop) (only parsing).

(** The same rows for the keys in [K]. *)
Definition agree (K : footprint) (T T' : Tables) : Prop := ∀ k, K k → slice_of T k = slice_of T' k.

#[export] Instance agree_equivalence K : Equivalence (agree K).
Proof.
  split; [by intros T k| |].
  - intros T T' Ha k Hk. by rewrite Ha.
  - intros T T' T'' Ha Ha' k Hk. by rewrite Ha, Ha'.
Qed.

Lemma agree_mono (K K' : footprint) T T' : (∀ k, K' k → K k) → agree K T T' → agree K' T T'.
Proof. intros HK Ha k Hk. auto. Qed.

Lemma rows_determine {S V} `{Countable S} (m m' : gmap (kid * S) V) : (∀ k, rows k m = rows k m') → m = m'.
Proof.
  intros Heq. apply map_eq. intros [k s]. specialize (Heq k). rewrite <- !lookup_rows. by rewrite Heq.
Qed.

(** Tables are what they hold for each key. *)
Lemma tables_ext T T' : (∀ k, slice_of T k = slice_of T' k) → T = T'.
Proof.
  destruct T as [ks ss ls hs es zs], T' as [ks' ss' ls' hs' es' zs']. unfold slice_of. simpl. intros Heq.
  f_equal; [apply map_eq|apply map_eq|apply rows_determine..]; intros k; specialize (Heq k); by injection Heq.
Qed.

(** ** Statements *)

(** Every row [s] reads or writes is of a key in [K]. *)
Definition stmt_within (K : footprint) (s : stmt) : Prop :=
  match s with
  | DeleteAllExpired _ | DeleteAll => ∀ k, K k
  | DeleteDb db => ∀ k, k.2 = db → K k
  | CopyStrings dst src | CopyLists dst src | CopyHashes dst src | CopySets dst src
  | CopyZsets dst src => K dst ∧ K src
  | _ => match stmt_key s with Some k => K k | None => False end
  end.

(** The outcomes of a statement on two tables: alike for [K], and each leaves
    the other keys. *)
Definition alike (K : footprint) (T1 T2 : Tables) (r1 r2 : option (Z * Tables)) : Prop :=
  match r1, r2 with
  | Some (n1, T1'), Some (n2, T2') =>
      n1 = n2 ∧ agree K T1' T2' ∧ agree (λ k, ¬ K k) T1 T1' ∧ agree (λ k, ¬ K k) T2 T2'
  | None, None => True
  | _, _ => False
  end.

Section exec.
Context (K : footprint) (T1 T2 : Tables).
Hypothesis Hagree : agree K T1 T2.

Lemma agree_keys k : K k → t_keys T1 !! k = t_keys T2 !! k.
Proof. intros Hk. by injection (Hagree k Hk). Qed.

(** One key. *)
Lemma alike_key s k : K k → stmt_key s = Some k → alike K T1 T2 (sql_exec s T1) (sql_exec s T2).
Proof.
  intros Hk Hs. pose proof (sql_exec_slice s k T1 Hs) as H1. pose proof (sql_exec_slice s k T2 Hs) as H2.
  rewrite <- (Hagree k Hk) in H2. unfold agrees in *.
  destruct (sql_exec s T1) as [[n1 T1']|], (sql_exec s T2) as [[n2 T2']|], (slice_exec s _) as [[n sl]|]; try done.
  destruct H1 as [-> [H1 H1']], H2 as [-> [H2 H2']]. split; [done|].
  assert (∀ k', ¬ K k' → k' ≠ k) as Hne by (by intros k' Hk' ->).
  split; [|split; intros k' Hk'; symmetry; auto]. intros k' Hk'.
  destruct (decide (k' = k)) as [->|]; [congruence|]. by rewrite H1', H2', Hagree.
Qed.

(** A deletion by a condition that holds only of keys in [K]. *)
Lemma alike_delete P :
  (∀ k r, P k r = true → K k) →
  alike K T1 T2 (Some (count_where P T1, delete_where P T1)) (Some (count_where P T2, delete_where P T2)).
Proof.
  intros HP. assert (∀ T k, doomed P T k = true → K k) as Hd.
  { intros T k. unfold doomed. destruct (t_keys T !! k); [apply HP|done]. }
  split; [|split; [|split]].
  - unfold count_where. do 2 f_equal. apply map_eq. intros k. rewrite !map_lookup_filter.
    assert (K k → t_keys T1 !! k = t_keys T2 !! k) as Hk by apply agree_keys.
    destruct (t_keys T1 !! k) as [r|], (t_keys T2 !! k) as [r'|]; simpl; [|..|done].
    + destruct (P k r) eqn:Hr, (P k r') eqn:Hr'; [|..|by rewrite !option_guard_False];
        [specialize (Hk (HP _ _ Hr))|specialize (Hk (HP _ _ Hr))|specialize (Hk (HP _ _ Hr'))];
        (congruence || by injection Hk as ->).
    + rewrite option_guard_False; [done|]. intros Hr. by specialize (Hk (HP _ _ Hr)).
    + rewrite option_guard_False; [done|]. intros Hr. by specialize (Hk (HP _ _ Hr)).
  - intros k Hk. rewrite !slice_delete_where, (Hagree k Hk). unfold doomed. by rewrite agree_keys.
  - intros k Hk. rewrite slice_delete_where. destruct (doomed P T1 k) eqn:Hx; [by apply Hd in Hx|done].
  - intros k Hk. rewrite slice_delete_where. destruct (doomed P T2 k) eqn:Hx; [by apply Hd in Hx|done].
Qed.

(** *** Copies *)

Section copy.
Context {S V : Type} `{Countable S}.
Implicit Types (m : gmap (kid * S) V) (r : gmap S V).

Lemma lookup_rows_of k r k' s : rows_of k r !! (k', s) = if decide (k' = k) then r !! s else None.
Proof.
  unfold rows_of. case_decide as Hk; [subst; apply lookup_kmap, _|].
  apply lookup_kmap_None; [apply _|]. congruence.
Qed.

Lemma rows_of_disjoint k r m : rows_of k r ##ₘ m ↔ r ##ₘ rows k m.
Proof.
  rewrite !map_disjoint_spec. split; intros Hd.
  - intros s v v' Hv. rewrite lookup_rows. apply (Hd (k, s) v v'). by rewrite lookup_rows_of, decide_True.
  - intros [k' s] v v'. rewrite lookup_rows_of. case_decide; [subst|done]. rewrite <- lookup_rows. apply Hd.
Qed.

Lemma rows_of_union k r m k' :
  rows k' (rows_of k r ∪ m) = if decide (k' = k) then r ∪ rows k m else rows k' m.
Proof.
  apply map_eq. intros s. rewrite lookup_rows, lookup_union, lookup_rows_of.
  case_decide; subst; [by rewrite lookup_union, lookup_rows|by rewrite lookup_rows, (left_id None _)].
Qed.

(** Copying rows does the same to tables that agree on both keys. *)
Lemma copy_rows_alike dst src m1 m2 :
  K dst → K src → (∀ k, K k → rows k m1 = rows k m2) →
  match copy_rows T1 dst src m1, copy_rows T2 dst src m2 with
  | Some (n1, m1'), Some (n2, m2') =>
      n1 = n2 ∧ (∀ k, K k → rows k m1' = rows k m2') ∧
      (∀ k, ¬ K k → rows k m1' = rows k m1) ∧ (∀ k, ¬ K k → rows k m2' = rows k m2)
  | None, None => True
  | _, _ => False
  end.
Proof.
  intros Hdst Hsrc Hm. unfold copy_rows, fk. rewrite (Hm src Hsrc), (agree_keys dst Hdst).
  assert (rows_of dst (rows src m2) ##ₘ m1 ↔ rows_of dst (rows src m2) ##ₘ m2) as Hd
    by by rewrite !rows_of_disjoint, (Hm dst Hdst).
  case_decide as Hr; [done|]. case_decide as Hd1; case_decide as Hd2; try tauto.
  destruct (t_keys T2 !! dst) as [row|]; [|done]. split; [done|].
  assert (∀ k, ¬ K k → k ≠ dst) as Hne by (by intros k Hk ->).
  split; [|split]; intros k Hk; rewrite ?rows_of_union; try (rewrite decide_False by auto; done).
  case_decide; subst; [by rewrite Hm|auto].
Qed.

(** [get] and [set] reach one table of rows. *)
Lemma alike_copy (get : Tables → gmap (kid * S) V) (set : gmap (kid * S) V → Tables → Tables) dst src :
  (∀ T T' m m' k, slice_of T k = slice_of T' k → rows k m = rows k m' →
    slice_of (set m T) k = slice_of (set m' T') k) →
  (∀ T, set (get T) T = T) → (∀ T T' k, slice_of T k = slice_of T' k → rows k (get T) = rows k (get T')) →
  K dst → K src →
  alike K T1 T2 (copy_into T1 dst src (get T1) (λ m, set m T1)) (copy_into T2 dst src (get T2) (λ m, set m T2)).
Proof.
  intros Hset Hid Hget Hdst Hsrc. pose proof (copy_rows_alike dst src (get T1) (get T2) Hdst Hsrc) as Hc.
  specialize (Hc (λ k Hk, Hget _ _ k (Hagree k Hk))). unfold copy_into.
  destruct (copy_rows T1 _ _ _) as [[n1 m1]|], (copy_rows T2 _ _ _) as [[n2 m2]|]; try done.
  destruct Hc as (-> & Hm & H1 & H2). split; [done|]. split; [|split]; intros k Hk.
  - apply Hset; auto.
  - rewrite <- (Hid T1) at 1. apply Hset; [done|]. symmetry. auto.
  - rewrite <- (Hid T2) at 1. apply Hset; [done|]. symmetry. auto.
Qed.
End copy.

Lemma alike_copy_strings dst src :
  K dst → K src → alike K T1 T2 (sql_exec (CopyStrings dst src) T1) (sql_exec (CopyStrings dst src) T2).
Proof.
  intros Hdst Hsrc. simpl. unfold fk.
  assert (∀ k, K k → t_strings T1 !! k = t_strings T2 !! k) as Hs
    by (intros k Hk; by injection (Hagree k Hk)).
  rewrite (Hs src Hsrc), (Hs dst Hdst), (agree_keys dst Hdst).
  destruct (t_strings T2 !! src) as [v|]; [|done]. destruct (t_strings T2 !! dst); [done|].
  destruct (t_keys T2 !! dst) as [row|]; [|done]. split; [done|].
  assert (∀ k, ¬ K k → k ≠ dst) as Hne by (by intros k Hk ->).
  split; [|split]; intros k Hk; rewrite !slice_set_strings.
  - by rewrite !Hagree.
  - by rewrite decide_False by auto.
  - by rewrite decide_False by auto.
Qed.

Ltac copied :=
  first
    [done
    |by intros []
    |unfold slice_of; simpl; intros ? ? ? ? ? Hs Hr; injection Hs; intros; by f_equal
    |intros ? ? ? Hs; by injection Hs].

Lemma sql_exec_alike s : stmt_within K s → alike K T1 T2 (sql_exec s T1) (sql_exec s T2).
Proof.
  destruct s; cbn [stmt_within stmt_key]; try (intros Hk; eapply alike_key; [exact Hk|reflexivity]);
    try (intros [Hdst Hsrc]); try intros Hall.
  - apply alike_delete. intros k r _. apply Hall.
  - apply alike_delete. intros k r Hk%bool_decide_eq_true_1. auto.
  - apply alike_delete. intros k r _. apply Hall.
  - by apply alike_copy_strings.
  - apply (alike_copy t_lists (λ m, set_lists (λ _, m))); copied.
  - apply (alike_copy t_hashes (λ m, set_hashes (λ _, m))); copied.
  - apply (alike_copy t_sets (λ m, set_sets (λ _, m))); copied.
  - apply (alike_copy t_zsets (λ m, set_zsets (λ _, m))); copied.
Qed.
End exec.

(** What a statement of other keys leaves of [K]. *)
Lemma sql_exec_frame (K K' : footprint) s n T T' :
  stmt_within K' s → (∀ k, K k → K' k → False) → sql_exec s T = Some (n, T') → agree K T T'.
Proof.
  intros Hs Hdisj He. pose proof (sql_exec_alike K' T T (reflexivity _) s Hs) as Ha. rewrite He in Ha.
  destruct Ha as (_ & _ & Ha & _). intros k Hk. apply Ha. intros Hk'. by eapply Hdisj.
Qed.

(** ** Queries *)

Definition query_within (K : footprint) {R} (q : query R) : Prop :=
  match q with
  | CountDbAlive db _ | SelKeysAlive db _ | SelRandomKey db _ => ∀ k, k.2 = db → K k
  | _ => match query_key q with Some k => K k | None => False end
  end.

Lemma keys_alive_agree K db now T T' :
  agree K T T' → (∀ k, k.2 = db → K k) → keys_alive db now T ≡ₚ keys_alive db now T'.
Proof.
  intros Ha Hdb. unfold keys_alive. do 2 apply Permutation_map. apply NoDup_Permutation.
  - apply list.NoDup_filter, NoDup_map_to_list.
  - apply list.NoDup_filter, NoDup_map_to_list.
  - intros [k r]. rewrite !list_elem_of_filter, !elem_of_map_to_list. simpl.
    split; intros [[Hk Hr] Hx]; (split; [done|]); by rewrite <- Hx, (agree_keys _ _ _ Ha) by auto.
Qed.

(** A query cannot tell tables that agree on its keys apart. *)
Lemma sql_answer_agree K {R} (q : query R) T T' rows :
  agree K T T' → query_within K q → sql_answer q T rows → sql_answer q T' rows.
Proof.
  intros Ha Hq. destruct (query_key q) as [k|] eqn:Hk.
  - assert (K k) as Hin by (destruct q; simplify_eq/=; done).
    unfold sql_answer. by rewrite !(sql_select_slice _ _ _ Hk), (Ha k Hin).
  - destruct q; simplify_eq/=; unfold sql_answer; simpl; pose proof (keys_alive_agree K db now T T' Ha Hq) as Hp.
    + by rewrite Hp.
    + by rewrite Hp.
    + intros (full & Hfull & ->). exists full. by rewrite <- Hp.
Qed.
