(* ===== verification/Protocol.v ===== *)
(** The protocol between a program and its database connection: [s.db] is used
    while no transaction is open, [tx] while one is, and every statement and
    query stays within a footprint, whatever the calls answer. *)
From S2P Require Import Prelude GoStd Sql Effects Keyspace Locality.
Local Open Scope Z_scope.
Local Open Scope go_scope.

(** Whether [e] may be called; [open] tells whether a transaction is. *)
Definition may_call (K : footprint) (open : bool) {X} (e : event X) : Prop :=
  match e with
  | Exec DB s => open = false ∧ stmt_within K s
  | Exec TX s => open = true ∧ stmt_within K s
  | Query DB q => open = false ∧ query_within K q
  | Query TX q => open = true ∧ query_within K q
  | BeginTx => open = false
  | Commit => open = true
  | Now | Rollback | RangeMap _ => True
  end.

(** Whether a transaction is open once [e] has answered. *)
Definition opened (open : bool) {X} (e : event X) : X → bool :=
  match e with
  | BeginTx => λ r, match r with None => true | Some _ => false end
  | Commit | Rollback => λ _, false
  | _ => λ _, open
  end.

(** [p] keeps to the protocol from [open] on and ends in [Q]. *)
Fixpoint conforms (K : footprint) {A} (p : prog A) (Q : A → bool → Prop) (open : bool) : Prop :=
  match p with
  | Ret a => Q a open
  | Vis e k => may_call K open e ∧ ∀ x, conforms K (k x) Q (opened open e x)
  end.

(** The end of an operation: no transaction is left open. *)
Definition closed {A} (P : A → Prop) : A → bool → Prop := λ a o, o = false ∧ P a.

(** [p] is an operation: it starts and ends without a transaction. *)
Definition operation (K : footprint) {A} (P : A → Prop) (p : prog A) : Prop :=
  conforms K p (closed P) false.

Section conforms.
Context (K : footprint).

Lemma conforms_mono {A} (p : prog A) (Q Q' : A → bool → Prop) o :
  (∀ a o', Q a o' → Q' a o') → conforms K p Q o → conforms K p Q' o.
Proof. intros HQ. revert o. induction p as [a|X e k IH]; intros o; simpl; [auto|]. intros [? Hp]. eauto. Qed.

Lemma conforms_bind {A B} (p : prog A) (f : A → prog B) Q o :
  conforms K (bind p f) Q o ↔ conforms K p (λ a o', conforms K (f a) Q o') o.
Proof.
  revert o. induction p as [a|X e k IH]; intros o; simpl; [done|].
  split; intros [? Hp]; (split; [done|]); intros x; apply IH, Hp.
Qed.

Lemma conforms_err_bind {A B} (p : prog (result A)) (f : A → prog (result B)) Q o :
  conforms K (err_bind p f) Q o ↔
  conforms K p (λ r o', match r with inl e => Q (inl e) o' | inr a => conforms K (f a) Q o' end) o.
Proof.
  unfold err_bind. rewrite conforms_bind. split; intros Hp; (eapply conforms_mono; [|exact Hp]); by intros [e|a] o'.
Qed.

Lemma conforms_exec c s Q o :
  may_call K o (Exec c s) → (∀ r, Q r o) → conforms K (exec c s) Q o.
Proof. intros Hc HQ. split; [done|]. intros x. destruct c; apply HQ. Qed.

Lemma conforms_query_all {R} c (q : query R) Q o :
  may_call K o (Query c q) → (∀ r, Q r o) → conforms K (query_all c q) Q o.
Proof. intros Hc HQ. split; [done|]. intros x. destruct c; apply HQ. Qed.

Lemma conforms_query_row {R} c (q : query R) Q o :
  may_call K o (Query c q) → (∀ r, Q r o) → conforms K (query_row c q) Q o.
Proof. intros Hc HQ. split; [done|]. intros x. destruct c; apply HQ. Qed.

Lemma conforms_trigger {X} (e : event X) Q o :
  may_call K o e → (∀ x, Q x (opened o e x)) → conforms K (trigger e) Q o.
Proof. by split. Qed.

(** However the body ends, the deferred rollback closes the transaction. *)
Lemma conforms_with_tx {A} (body : prog (result A)) (Q : result A → bool → Prop) :
  conforms K body (λ r _, Q r false) true → (∀ e, Q (inl (ErrDb e)) false) →
  conforms K (with_tx body) Q false.
Proof.
  intros Hbody Herr. apply conforms_bind. split; [done|]. intros [e|]; [apply Herr|]. apply conforms_bind.
  eapply conforms_mono; [|exact Hbody]. intros r o HQ. split; [done|]. intros []. exact HQ.
Qed.

Lemma conforms_commit Q : (∀ r, Q r false) → conforms K commit Q true.
Proof. intros HQ. split; [done|]. intros x. apply HQ. Qed.

(** Loops, with an invariant of the accumulator. *)
Lemma conforms_for_each {X A} (I : A → Prop) (l : list X) acc (body : A → X → prog (result A)) Q o :
  I acc →
  (∀ acc x, x ∈ l → I acc → conforms K (body acc x)
     (λ r o', o' = o ∧ match r with inl e => Q (inl e) o | inr acc' => I acc' end) o) →
  (∀ acc, I acc → Q (inr acc) o) →
  conforms K (for_each l acc body) Q o.
Proof.
  revert acc. induction l as [|x l IH]; intros acc Hacc Hbody HQ; simpl; [by apply HQ|].
  apply conforms_err_bind. eapply conforms_mono; [|apply Hbody; [by left|done]].
  intros [e|acc'] o' [-> Hr]; [done|]. apply IH; [done| |done]. intros acc'' y Hy. apply Hbody. by right.
Qed.

(** An operation in the place of a call. *)
Lemma conforms_operation {A} (P : A → Prop) (p : prog A) Q :
  operation K P p → (∀ a, P a → Q a false) → conforms K p Q false.
Proof. intros Hp HQ. eapply conforms_mono; [|exact Hp]. intros a o [-> Ha]. auto. Qed.

Lemma operation_mono {A} (P P' : A → Prop) (p : prog A) :
  (∀ a, P a → P' a) → operation K P p → operation K P' p.
Proof. intros HP Hp. eapply conforms_operation; [done|]. intros a Ha. split; auto. Qed.

Lemma operation_bind {A B} (P : A → Prop) (P' : B → Prop) (p : prog A) f :
  operation K P p → (∀ a, P a → operation K P' (f a)) → operation K P' (bind p f).
Proof. intros Hp Hf. apply conforms_bind. by eapply conforms_operation. Qed.
End conforms.

(** A footprint may grow. *)
Lemma stmt_within_mono (K K' : footprint) s : (∀ k, K k → K' k) → stmt_within K s → stmt_within K' s.
Proof. intros HK. destruct s; simpl; naive_solver. Qed.

Lemma query_within_mono (K K' : footprint) {R} (q : query R) :
  (∀ k, K k → K' k) → query_within K q → query_within K' q.
Proof. intros HK. destruct q; simpl; auto. Qed.

Lemma conforms_grow (K K' : footprint) {A} (p : prog A) Q o :
  (∀ k, K k → K' k) → conforms K p Q o → conforms K' p Q o.
Proof.
  intros HK. revert o. induction p as [a|X e k IH]; intros o; simpl; [done|].
  intros [Hc Hp]. split; [|by intros x; apply IH].
  destruct e as [|[] s|R [] q| | | |]; simpl in *; try done;
    destruct Hc; split; eauto using stmt_within_mono, query_within_mono.
Qed.
