(* ===== verification/Calls.v ===== *)
(** Policies: which calls a program may make when the answers are of a given
    kind, and what it then ends in. The predicate is about the program alone;
    what it means on a database is proved where a policy is used. *)
From S2P Require Import Prelude GoStd Sql Effects.
Local Open Scope Z_scope.
Local Open Scope go_scope.

(** The calls a policy permits, and the answers it counts on. *)
Record policy := mkPolicy {
  permits : ∀ {X}, event X → Prop;
  expects : ∀ {X}, event X → X → Prop;
}.

Section obeys.
Context (π : policy).

(** Every call of [p] is permitted and its results are in [Q], as long as
    every answer is expected. *)
Fixpoint obeys {A} (p : prog A) (Q : A → Prop) : Prop :=
  match p with
  | Ret a => Q a
  | Vis e k => permits π e ∧ ∀ x, expects π e x → obeys (k x) Q
  end.

Lemma obeys_mono {A} (p : prog A) (Q Q' : A → Prop) : (∀ a, Q a → Q' a) → obeys p Q → obeys p Q'.
Proof. intros HQ. induction p as [a|X e k IH]; simpl; [auto|]. intros [? Hp]. auto. Qed.

Lemma obeys_bind {A B} (p : prog A) (f : A → prog B) Q :
  obeys (bind p f) Q ↔ obeys p (λ a, obeys (f a) Q).
Proof.
  induction p as [a|X e k IH]; [done|]. split; intros [? Hp]; (split; [done|]); intros x Hx; by apply IH, Hp.
Qed.

Lemma obeys_err_bind {A B} (p : prog (result A)) (f : A → prog (result B)) Q :
  obeys (err_bind p f) Q ↔ obeys p (λ r, match r with inl e => Q (inl e) | inr a => obeys (f a) Q end).
Proof.
  unfold err_bind. rewrite obeys_bind. split; intros Hp; (eapply obeys_mono; [|exact Hp]); by intros [e|a].
Qed.

(** An operation in the place of a call. *)
Lemma obeys_call {A} (P Q : A → Prop) (p : prog A) : obeys p P → (∀ a, P a → Q a) → obeys p Q.
Proof. intros Hp HP. by eapply obeys_mono. Qed.

Lemma obeys_trigger {X} (e : event X) Q : permits π e → (∀ x, expects π e x → Q x) → obeys (trigger e) Q.
Proof. by split. Qed.

Lemma obeys_exec c s Q :
  permits π (Exec c s) → (∀ e, Q (inl (ErrDb e))) → (∀ n, Q (inr n)) → obeys (exec c s) Q.
Proof. intros Hs Herr Hok. split; [done|]. intros [e|n] _; [apply Herr|apply Hok]. Qed.

Lemma obeys_query_all {R} c (q : query R) Q :
  permits π (Query c q) → (∀ e, Q (inl (ErrDb e))) →
  (∀ rows, expects π (Query c q) (inr rows) → Q (inr rows)) → obeys (query_all c q) Q.
Proof. intros Hs Herr Hok. split; [done|]. intros [e|rows] Hx; [apply Herr|by apply Hok]. Qed.

Lemma obeys_query_row {R} c (q : query R) Q :
  permits π (Query c q) → (∀ e, Q (ScanErr (ErrDb e))) → Q NoRows →
  (∀ r rows, expects π (Query c q) (inr (r :: rows)) → Q (Row r)) → obeys (query_row c q) Q.
Proof. intros Hs Herr Hno Hok. split; [done|]. intros [e|[|r rows]] Hx; [apply Herr|apply Hno|by eapply Hok]. Qed.

Lemma obeys_commit Q : permits π Commit → (∀ e, Q (inl (ErrDb e))) → Q (inr tt) → obeys commit Q.
Proof. intros Hs Herr Hok. split; [done|]. intros [e|] _; [apply Herr|apply Hok]. Qed.

Lemma obeys_with_tx {A} (body : prog (result A)) Q :
  permits π BeginTx → permits π Rollback → (∀ e, Q (inl (ErrDb e))) → obeys body Q → obeys (with_tx body) Q.
Proof.
  intros Hb Hr Herr Hbody. apply obeys_bind. split; [done|]. intros [e|] _; [apply Herr|]. apply obeys_bind.
  eapply obeys_mono; [|exact Hbody]. intros r HQ. split; [done|]. by intros [] _.
Qed.

Lemma obeys_for_each {X A} (l : list X) acc (body : A → X → prog (result A)) (Q : result A → Prop) :
  (∀ acc x, x ∈ l → obeys (body acc x) (λ r, match r with inl e => Q (inl e) | inr _ => True end)) →
  (∀ acc, Q (inr acc)) → obeys (for_each l acc body) Q.
Proof.
  revert acc. induction l as [|x l IH]; intros acc Hbody HQ; [apply HQ|]. cbn [for_each]. apply obeys_err_bind.
  eapply obeys_mono; [|apply Hbody; by left]. intros [e|acc']; [done|]. intros _. apply IH; [|done].
  intros acc'' y Hy. apply Hbody. by right.
Qed.

Lemma obeys_checked {A} (o : option A) (Q : result A → Prop) :
  is_Some o → (∀ a, Q (inr a)) → obeys (checked o) Q.
Proof. intros [a ->] HQ. apply HQ. Qed.
End obeys.

(** A result that is no panic. *)
Definition sane {A} : result A → Prop := λ r, r ≠ inl Panic.
