(* ===== verification/Integrity.v ===== *)
(** What the tables keep whatever the clock does and whoever else is at work:
    every row belongs to a key of one of the five types, and no score is a
    NaN. Unlike [wf] it does not say that a key has rows of its own type only. *)
From S2P Require Import Prelude GoStd Float Sql Effects Keyspace Locality Protocol Calls.
Local Open Scope Z_scope.
Local Open Scope go_scope.

Definition types : list string := ["string"; "list"; "hash"; "set"; "zset"].

Definition intact_slice (sl : slice) : Prop :=
  match s_key sl with
  | None => sl = empty_slice
  | Some r => kr_type r ∈ types ∧ nan_free (s_zset sl)
  end.

Definition intact (T : Tables) : Prop := ∀ k, intact_slice (slice_of T k).

Lemma wf_intact_slice sl : wf_slice sl → intact_slice sl.
Proof. unfold types. destruct 1; simpl; try done; (split; [simpl; set_solver|]); simpl; auto with sqlresp. Qed.

Lemma wf_intact T : wf T → intact T.
Proof. intros Hwf k. apply wf_intact_slice, Hwf. Qed.

(** ** Statements *)

(** A statement that names a type names one of the five. *)
Definition stmt_typed (s : stmt) : Prop :=
  match s with
  | UpsertKey _ typ _ | UpsertKeyType _ typ | InsertKeyIgnore _ typ | InsertKey _ typ _ => typ ∈ types
  | _ => True
  end.

Lemma intact_keyed sl r : intact_slice sl → s_key sl = Some r → kr_type r ∈ types ∧ nan_free (s_zset sl).
Proof. unfold intact_slice. intros Hi Hk. by rewrite Hk in Hi. Qed.

(** Rows without a key are none. *)
Lemma intact_orphan sl : intact_slice sl → s_key sl = None → sl = empty_slice.
Proof. unfold intact_slice. intros Hi Hk. by rewrite Hk in Hi. Qed.

Lemma intact_set_key sl r : intact_slice sl → kr_type r ∈ types → intact_slice (with_key (Some r) sl).
Proof.
  intros Hi Hr. split; [done|]. cbn [with_key s_zset]. destruct (s_key sl) as [r'|] eqn:Hk.
  - by apply (intact_keyed sl r').
  - rewrite (intact_orphan sl Hi Hk). apply nan_free_empty.
Qed.

Lemma slice_exec_intact s sl n sl' :
  intact_slice sl → stmt_typed s → slice_exec s sl = Some (n, sl') → intact_slice sl'.
Proof.
  intros Hi Hs He. destruct s; cbn [slice_exec stmt_typed] in *; unfold slice_fk, slice_delete in *;
    repeat match type of He with
    | context [match s_key sl with _ => _ end] => destruct (s_key sl) as [r|] eqn:Hk
    | context [match ?x with _ => _ end] => destruct x eqn:?
    end; simplify_eq/=; try done; try (by apply intact_set_key);
    try (apply intact_set_key; [done|]; by apply (intact_keyed sl _ Hi Hk));
    try (destruct (s_key sl) as [r|] eqn:Hk; [|by rewrite (intact_orphan sl Hi Hk) in *; simplify_eq/=]);
    try (unfold intact_slice; cbn [with_str with_list with_hash with_set with_zset s_key s_zset]; rewrite Hk;
         destruct (intact_keyed sl _ Hi Hk); split; auto with sqlresp).
Qed.

Lemma intact_updates T k sl T' : intact T → updates T k sl T' → intact_slice sl → intact T'.
Proof. intros HT [Hk Hne] Hsl k'. destruct (decide (k' = k)) as [->|Hk']; [by rewrite Hk|by rewrite Hne]. Qed.

(** Copied rows go to a key that is there. *)
Lemma copy_into_cases {S V} `{Countable S} (T : Tables) (dst src : kid) (m : gmap (kid * S) V)
    (set : gmap (kid * S) V → Tables) n T' :
  copy_into T dst src m set = Some (n, T') →
  T' = set m ∨ ∃ r, t_keys T !! dst = Some r ∧ T' = set (rows_of dst (rows src m) ∪ m).
Proof.
  unfold copy_into, copy_rows, fk. intros Hc. repeat case_decide; simplify_eq/=; [by left|].
  destruct (t_keys T !! dst) as [r|]; simplify_eq/=. right. by exists r.
Qed.

Lemma intact_copy T dst sl T' r :
  intact T → t_keys T !! dst = Some r → updates T dst sl T' → s_key sl = Some r → nan_free (s_zset sl) → intact T'.
Proof.
  intros HT Hr Hu Hk Hz. eapply intact_updates; [done|done|]. unfold intact_slice. rewrite Hk. split; [|done].
  by apply (intact_keyed (slice_of T dst)).
Qed.

Lemma nan_free_union z z' : nan_free z → nan_free z' → nan_free (z ∪ z').
Proof. apply map_Forall_union_2. Qed.

Lemma intact_zset T k : intact T → nan_free (s_zset (slice_of T k)).
Proof.
  intros HT. specialize (HT k). unfold intact_slice in HT.
  destruct (s_key (slice_of T k)); [apply HT|rewrite HT; apply nan_free_empty].
Qed.

Ltac copied_rows :=
  split; [reflexivity|intros k' Hk'; unfold slice_of; cbn; by rewrite rows_of_union, decide_False].

Lemma sql_exec_intact s T n T' : intact T → stmt_typed s → sql_exec s T = Some (n, T') → intact T'.
Proof.
  intros HT Hs He. destruct (stmt_key s) as [k|] eqn:Hk.
  - pose proof (sql_exec_slice s k T Hk) as Ha. rewrite He in Ha. unfold agrees in Ha.
    destruct (slice_exec s (slice_of T k)) as [[n' sl]|] eqn:Hsl; [|done]. destruct Ha as [-> Hu].
    eapply intact_updates; [done|done|]. eapply slice_exec_intact; [apply HT|done|done].
  - assert (∀ P, intact (delete_where P T)) as Hdel.
    { intros P k. rewrite slice_delete_where. destruct (doomed P T k); [done|apply HT]. }
    destruct s; try discriminate Hk; cbn [sql_exec] in He; try (simplify_eq; apply Hdel).
    1: { destruct (t_strings T !! src) as [v|]; [|by simplify_eq]. destruct (t_strings T !! dst); [done|].
      unfold fk in He. destruct (t_keys T !! dst) as [r|] eqn:Hr; simplify_eq.
      eapply (intact_copy T dst (with_str (Some v) (slice_of T dst)) _ r); [done|done| |done|by apply intact_zset].
      apply updates_by. intros k'. by rewrite slice_set_strings. }
    all: apply copy_into_cases in He as [->|(r & Hr & ->)]; [by destruct T|];
      eapply (intact_copy T dst); [done|exact Hr|copied_rows|done|]; try exact (intact_zset T dst HT).
    unfold slice_of. cbn [s_zset set_zsets t_zsets]. rewrite rows_of_union, decide_True by done.
    apply nan_free_union; [apply (intact_zset T src)|apply (intact_zset T dst)]; done.
Qed.

Lemma exec_outcome_intact F s T r T' :
  intact T → stmt_typed s → exec_outcome F s T r T' → intact T'.
Proof.
  intros HT Hs Ho. destruct r as [e|n]; simpl in Ho; [|by eapply sql_exec_intact].
  destruct Ho as [[-> _]|[_ [n He]]]; [done|by eapply sql_exec_intact].
Qed.

(** ** Answers *)

(** The rows a query may answer from intact tables. *)
Definition plausible {R} (q : query R) : list R → Prop :=
  match q in query R return list R → Prop with
  | SelTypeExpires _ => λ rows, Forall (λ r, r.1 ∈ types) rows
  | _ => λ _, True
  end.

Lemma sql_answer_plausible {R} (q : query R) T rows : intact T → sql_answer q T rows → plausible q rows.
Proof.
  intros HT Ha. destruct q; try done. unfold sql_answer in Ha. simpl in *.
  destruct (t_keys T !! k) as [r|] eqn:Hr; subst rows; [|by apply list.Forall_nil].
  apply list.Forall_singleton. by apply (intact_keyed (slice_of T k)).
Qed.

(** ** Lawful programs *)

(** Only typed statements, while queries are answered from intact tables. *)
Definition lawful : policy := {|
  permits X e := match e with Exec _ s => stmt_typed s | _ => True end;
  expects X e := match e in event X return X → Prop with
    | Query _ q => λ r, match r with inl _ => True | inr rows => plausible q rows end
    | _ => λ _, True
    end;
|}.

Section preserved.
Context (F : Prop) (K : footprint) (T0 : Tables).
Abbreviation outside := (agree (λ k, ¬ K k)).

(** Where a program of footprint [K] that set out from [T0] may have got to. *)
Definition on_course (o : bool) (σ : State) : Prop :=
  intact (com σ) ∧ outside T0 (com σ) ∧
  match work σ with
  | Some W => o = true ∧ intact W ∧ outside T0 W
  | None => o = false
  end.

Lemma exec_on_course s T r T' :
  intact T → outside T0 T → stmt_within K s → stmt_typed s → exec_outcome F s T r T' → intact T' ∧ outside T0 T'.
Proof.
  intros HT Ho Hw Hs He. split; [by eapply exec_outcome_intact|]. etrans; [exact Ho|].
  assert (∀ n, sql_exec s T = Some (n, T') → outside T T') as Hframe.
  { intros n Hn. eapply (sql_exec_frame _ K); [exact Hw| |exact Hn]. by intros k Hn' Hk. }
  destruct r as [e|n]; simpl in He; [|by eapply Hframe]. destruct He as [[-> _]|[_ [n Hn]]]; [done|by eapply Hframe].
Qed.

Lemma step_on_course {X} (e : event X) o σ x σ' :
  may_call K o e → permits lawful e → on_course o σ → step F e σ x σ' →
  expects lawful e x ∧ on_course (opened o e x) σ'.
Proof.
  intros Hcall Hper Hσ Hstep. pose proof Hσ as (Hcom & Hout & Hwork).
  destruct e as [|[] s|R [] q| | | |ks]; simpl in *.
  - by destruct Hstep as [-> ->].
  - destruct Hcall as [-> Hw]. split; [done|]. destruct (work σ) as [W|] eqn:HW; [by destruct Hwork|].
    destruct (Hstep eq_refl) as (T' & He & ->). unfold on_course. cbn [com work set_com]. rewrite HW.
    destruct (exec_on_course s (com σ) x T') as [? ?]; auto.
  - destruct Hcall as [-> Hw]. split; [done|]. destruct (work σ) as [W|] eqn:HW; [|done].
    destruct Hwork as (_ & HiW & HoW). destruct (Hstep W eq_refl) as (T' & He & ->).
    destruct (exec_on_course s W x T') as [? ?]; auto. unfold on_course. by cbn [com work set_work].
  - destruct Hcall as [-> Hw]. destruct (work σ) as [W|] eqn:HW; [by destruct Hwork|].
    destruct (Hstep eq_refl) as [Ho ->]. split; [|done]. destruct x as [e|rows]; [done|].
    by eapply sql_answer_plausible.
  - destruct Hcall as [-> Hw]. destruct (work σ) as [W|] eqn:HW; [|done]. destruct Hwork as (_ & HiW & HoW).
    destruct (Hstep W eq_refl) as [Ho ->]. split; [|done]. destruct x as [e|rows]; [done|].
    by eapply sql_answer_plausible.
  - subst o. split; [done|]. destruct (work σ) as [W|] eqn:HW; [by destruct Hwork|]. specialize (Hstep eq_refl).
    destruct x as [e|]; [by destruct Hstep as [_ ->]|]. subst σ'. unfold on_course. by cbn [com work set_work].
  - subst o. split; [done|]. destruct (work σ) as [W|] eqn:HW; [|done]. destruct Hwork as (_ & HiW & HoW).
    specialize (Hstep W eq_refl). destruct x as [e|].
    + by destruct Hstep as [_ [->| ->]].
    + by subst σ'.
  - split; [done|]. by subst σ'.
  - by destruct Hstep as [_ ->].
Qed.

(** A lawful program that conforms to the protocol keeps the tables intact
    and the keys outside its footprint. *)
Lemma wp_on_course {A} (p : prog A) (Q : A → Prop) (Q' : A → bool → Prop) o σ :
  conforms K p Q' o → obeys lawful p Q → on_course o σ →
  wp F p (λ a σ', Q a ∧ ∃ o', Q' a o' ∧ on_course o' σ') σ.
Proof.
  revert o σ. induction p as [a|X e k IH]; intros o σ; [by intros ? ? ?; split; [|exists o]|].
  intros [Hcall Hc] [Hper Hp] Hσ x σ' Hstep.
  destruct (step_on_course e o σ x σ' Hcall Hper Hσ Hstep) as [Hx Hσ']. by eapply IH; [apply Hc|apply Hp|].
Qed.
End preserved.

(** Between two operations, whatever the clock shows. *)
Definition between (σ : State) : Prop := intact (com σ) ∧ work σ = None.

Lemma ready_between ns σ : ready ns σ → between σ.
Proof. intros [Hwf [Hw _]]. split; [by apply wf_intact|done]. Qed.

Lemma wp_lawful F K {A} (p : prog A) (P : A → Prop) (Q : A → Prop) σ :
  operation K P p → obeys lawful p Q → between σ →
  wp F p (λ a σ', between σ' ∧ agree (λ k, ¬ K k) (com σ) (com σ') ∧ P a ∧ Q a) σ.
Proof.
  intros Hc Hp [Hi Hw]. eapply wp_mono; [|eapply (wp_on_course F K (com σ)); [exact Hc|exact Hp|]].
  - intros a σ' (Ha & o' & [-> HP] & Hi' & Hout & Hw'). destruct (work σ') eqn:Hwσ; [by destruct Hw'|].
    split; [by split|]. by split; [|split].
  - split; [done|]. split; [done|]. by rewrite Hw.
Qed.

(** ** Programs that only remove expired keys *)

Section pruning.
(** The readings of the clock. *)
Context (F : Prop) (clock : Z → Prop).

(** Nothing but [deleteExpired], at a reading of the clock. *)
Definition pruning : policy := {|
  permits X e := match e with
    | Exec DB (DeleteKeyExpired _ now) => ∃ t, clock t ∧ now = unix_milli t
    | Now | Query DB _ | RangeMap _ => True
    | _ => False
    end;
  expects X e := match e in event X return X → Prop with Now => clock | _ => λ _, True end;
|}.

(** [T'] is [T] without some of the keys whose deadline has passed. *)
Definition pruned (T T' : Tables) : Prop := ∀ k,
  slice_of T' k = slice_of T k ∨
  slice_of T' k = empty_slice ∧ ∃ r t, t_keys T !! k = Some r ∧ clock t ∧ expiredWhere (unix_milli t) r = true.

#[export] Instance pruned_refl : Reflexive pruned.
Proof. intros T k. by left. Qed.

#[export] Instance pruned_trans : Transitive pruned.
Proof.
  intros T T' T'' H H' k. destruct (H' k) as [Heq'|[Hemp (r & t & Hr & Ht & Hx)]].
  - rewrite Heq'. apply H.
  - right. split; [done|]. exists r, t. split; [|done]. destruct (H k) as [Heq|[Hemp' _]].
    + apply (f_equal s_key) in Heq. simpl in Heq. congruence.
    + apply (f_equal s_key) in Hemp'. simpl in Hemp'. congruence.
Qed.

Lemma prune_step k t n T T' : clock t → sql_exec (DeleteKeyExpired k (unix_milli t)) T = Some (n, T') → pruned T T'.
Proof.
  intros Ht [= _ <-] k'. rewrite slice_delete_where. unfold doomed.
  destruct (t_keys T !! k') as [r|] eqn:Hr; [|by left].
  destruct (bool_decide (k' = k) && expiredWhere (unix_milli t) r) eqn:Hb; [right|by left].
  split; [done|]. exists r, t. split; [done|]. split; [done|]. apply andb_true_iff in Hb. apply Hb.
Qed.

Lemma wp_pruning {A} (p : prog A) Q σ :
  obeys pruning p Q → work σ = None → (∀ n, clock (clk σ n)) →
  wp F p (λ _ σ', pruned (com σ) (com σ')) σ.
Proof.
  intros Hp Hw Hc. assert (∀ T σ, pruned T (com σ) → work σ = None → (∀ n, clock (clk σ n)) →
    wp F p (λ _ σ', pruned T (com σ')) σ) as Hgen; [|by apply Hgen].
  clear σ Hw Hc. intros T. induction p as [a|X e k IH]; intros σ HT Hw Hc; [done|].
  destruct Hp as [Hper Hp]. intros x σ' Hstep.
  destruct e as [|[] s|R [] q| | | |ks]; simpl in *; try done.
  - destruct Hstep as [-> ->]. apply IH; [by apply Hp|done|done|intros n; apply Hc].
  - destruct s; try done. destruct Hper as (t & Ht & ->). destruct (Hstep Hw) as (T' & He & ->).
    apply IH; [by apply Hp| |done|done]. etrans; [exact HT|]. destruct x as [e|n]; simpl in He.
    + destruct He as [[-> _]|[_ [n He]]]; [done|by eapply prune_step].
    + by eapply prune_step.
  - destruct (Hstep Hw) as [_ ->]. apply IH; auto.
  - destruct Hstep as [_ ->]. apply IH; auto.
Qed.
End pruning.
