(* ===== verification/Sample.v ===== *)
(** A concrete database and engine on which the theorems' witnesses run: one
    key of each type, one key with a deadline ahead and one past it. *)
From S2P Require Import Prelude GoStd Float Sql Effects Keyspace.
Local Open Scope Z_scope.

(** One second after the epoch. *)
Definition sample_ns : Z := 1000000000.

Definition row (typ : string) (exp : option Z) : KeyRow := mkKeyRow typ exp.

Definition sample_tables : Tables := mkTables
  (list_to_map [
     (("n", 0), row "string" None); (("t", 0), row "string" (Some 5000));
     (("old", 0), row "string" (Some 500)); (("l", 0), row "list" None);
     (("h", 0), row "hash" None); (("s", 0), row "set" None);
     (("u", 0), row "set" None); (("gone", 0), row "set" (Some 500));
     (("z", 0), row "zset" None); (("n", 1), row "string" None)])
  (list_to_map [(("n", 0), "10"); (("t", 0), "hello"); (("old", 0), "x"); (("n", 1), "7")])
  (list_to_map [(("l", 0, 0), "a"); (("l", 0, 1), "b"); (("l", 0, 2), "a")])
  (list_to_map [(("h", 0, "f"), "1"); (("h", 0, "g"), "2")])
  (list_to_map [(("s", 0, "a"), tt); (("s", 0, "b"), tt); (("u", 0, "b"), tt); (("u", 0, "c"), tt);
     (("gone", 0, "z"), tt)])
  (list_to_map [(("z", 0, "a"), f64_of_bin false 1 0); (("z", 0, "b"), f64_of_bin false 3 0);
     (("z", 0, "c"), f64_of_bin false 2 0)]).

Definition sample_state : State := mkState sample_tables None (λ _, sample_ns).

(** An engine that never fails, and one whose second call fails. *)
Definition sample : Reliable := mkReliable sample_state.
Definition shaky : RefEngine := mkRef sample_state [false; true].

Lemma sample_state_ready : ready sample_ns sample_state.
Proof. split; [apply wf_b_sound; by vm_compute|by split]. Qed.

Lemma sample_ready : ready sample_ns (view sample).
Proof. apply sample_state_ready. Qed.

Lemma shaky_ready : ready sample_ns (view shaky).
Proof. apply sample_state_ready. Qed.

#[export] Hint Resolve sample_ready shaky_ready : sqlresp.
