(* ===== verification/Pool.v ===== *)
(** Operations that run at the same time. A pool is the committed tables and
    the clients at work on them, each with the rest of its program and its open
    transaction; one call of one client is one step. A transaction works on a
    snapshot taken when it begins, and its commit merges the keys it changed
    unless one of them was changed meanwhile. SQLite allows one writer at a
    time, which is a special case; PostgreSQL's default isolation, where a
    statement sees what others committed before it, refreshes the snapshot. *)
From S2P Require Import Prelude GoStd Sql Effects Keyspace Locality Protocol Sample.
Local Open Scope Z_scope.
Local Open Scope go_scope.

(** ** Clients *)

(** An open transaction: the tables it started from, and its own. *)
Record Tx := mkTx { tx_base : Tables; tx_work : Tables }.

Record Client (A : Type) := mkClient { cl_prog : prog A; cl_tx : option Tx }.
Arguments mkClient {A}. Arguments cl_prog {A}. Arguments cl_tx {A}.

(** [T'] is [T] with the keys of the transaction that it changed; nobody else
    changed those. *)
Definition merges (tx : Tx) (T T' : Tables) : Prop := ∀ k,
  (slice_of (tx_work tx) k = slice_of (tx_base tx) k ∧ slice_of T' k = slice_of T k) ∨
  (slice_of T k = slice_of (tx_base tx) k ∧ slice_of T' k = slice_of (tx_work tx) k).

(** A key the transaction changed was changed by someone else as well. *)
Definition conflict (tx : Tx) (T : Tables) : Prop := ∃ k,
  slice_of (tx_work tx) k ≠ slice_of (tx_base tx) k ∧ slice_of T k ≠ slice_of (tx_base tx) k.

(** A client about to start, with a clock that shows one instant. *)
Definition start (ns : Z) (T : Tables) : State := mkState T None (λ _, ns).

(** The clock that stands still. *)
Definition still (ns : Z) : Z → Prop := λ t, t = ns.

Section machine.
(** Whether the engine may fail, whether a transaction sees what others commit
    while it runs, and the readings of the clock: any call may answer any. *)
Context (F refreshing : Prop) (clock : Z → Prop).

(** The next call of a client, with the committed tables before and after. A
    call on a transaction that is over answers [sql.ErrTxDone]. *)
Inductive client_step {A} (T : Tables) : Client A → Tables → Client A → Prop :=
  | client_now k tx t :
      clock t → client_step T (mkClient (Vis Now k) tx) T (mkClient (k t) tx)
  | client_exec_db s k tx r T' :
      exec_outcome F s T r T' →
      client_step T (mkClient (Vis (Exec DB s) k) tx) T' (mkClient (k r) tx)
  | client_exec_tx s k tx r W' :
      exec_outcome F s (tx_work tx) r W' →
      client_step T (mkClient (Vis (Exec TX s) k) (Some tx)) T
        (mkClient (k r) (Some (mkTx (tx_base tx) W')))
  | client_exec_done s k e :
      client_step T (mkClient (Vis (Exec TX s) k) None) T (mkClient (k (inl e)) None)
  | client_query_db {R} (q : query R) k tx r :
      query_outcome F q T r →
      client_step T (mkClient (Vis (Query DB q) k) tx) T (mkClient (k r) tx)
  | client_query_tx {R} (q : query R) k tx r :
      query_outcome F q (tx_work tx) r →
      client_step T (mkClient (Vis (Query TX q) k) (Some tx)) T (mkClient (k r) (Some tx))
  | client_query_done {R} (q : query R) k e :
      client_step T (mkClient (Vis (Query TX q) k) None) T (mkClient (k (inl e)) None)
  | client_begin k :
      client_step T (mkClient (Vis BeginTx k) None) T (mkClient (k None) (Some (mkTx T T)))
  | client_begin_failed k e :
      F → client_step T (mkClient (Vis BeginTx k) None) T (mkClient (k (Some e)) None)
  | client_commit k tx T' :
      merges tx T T' →
      client_step T (mkClient (Vis Commit k) (Some tx)) T' (mkClient (k None) None)
  | client_commit_refused k tx e :
      conflict tx T →
      client_step T (mkClient (Vis Commit k) (Some tx)) T (mkClient (k (Some e)) None)
  | client_commit_failed k tx e T' :
      F → T' = T ∨ merges tx T T' →
      client_step T (mkClient (Vis Commit k) (Some tx)) T' (mkClient (k (Some e)) None)
  | client_commit_done k e :
      client_step T (mkClient (Vis Commit k) None) T (mkClient (k (Some e)) None)
  | client_rollback k tx :
      client_step T (mkClient (Vis Rollback k) tx) T (mkClient (k tt) None)
  | client_range ks k tx r :
      r ≡ₚ ks → client_step T (mkClient (Vis (RangeMap ks) k) tx) T (mkClient (k r) tx)
  | client_refresh p tx W :
      refreshing → merges tx T W →
      client_step T (mkClient p (Some tx)) T (mkClient p (Some (mkTx T W))).

(** ** Pools *)

Record Pool (A : Type) := mkPool { p_com : Tables; p_clients : list (Client A) }.
#[global] Arguments mkPool {A}. #[global] Arguments p_com {A}. #[global] Arguments p_clients {A}.

Inductive pool_step {A} : Pool A → Pool A → Prop :=
  | one_client i c T T' c' cs :
      cs !! i = Some c → client_step T c T' c' →
      pool_step (mkPool T cs) (mkPool T' (<[i := c']> cs)).

(** The clients about to start. *)
Definition pool_of {A} (T : Tables) (ps : list (prog A)) : Pool A :=
  mkPool T ((λ p, mkClient p None) <$> ps).

(** ** One client alone *)

Inductive lone {A} : prog A * State → prog A * State → Prop :=
  | lone_call {X} (e : event X) k σ x σ' :
      step F e σ x σ' → lone (Vis e k, σ) (k x, σ').

(** What a client alone may do satisfies every postcondition proved of it. *)
Lemma lone_wp {A} (p : prog A) (Q : A → State → Prop) σ a σ' :
  wp F p Q σ → rtc lone (p, σ) (Ret a, σ') → Q a σ'.
Proof.
  intros Hwp Hl. remember (p, σ) as c eqn:Hc. remember (Ret a, σ') as d eqn:Hd.
  revert p σ Hc Hwp. induction Hl as [c|c c' d Hstep Hl IH]; intros p σ -> Hwp; [by simplify_eq|].
  inversion Hstep as [X e k σ1 x σ2 Hs]; subst. eapply IH; [done..|]. by apply Hwp.
Qed.

(** The programs one after the other, each from the tables the one before it
    left, with its own readings of the clock. *)
Inductive in_turn {A} : list (prog A) → Tables → list A → Tables → Prop :=
  | turn_nil T : in_turn [] T [] T
  | turn_cons p ps T c a σ rs T' :
      (∀ n, clock (c n)) → rtc lone (p, mkState T None c) (Ret a, σ) → work σ = None →
      in_turn ps (com σ) rs T' → in_turn (p :: ps) T (a :: rs) T'.

(** *** The clock read freely *)

Definition timeless {X} (e : event X) : Prop := match e with Now => False | _ => True end.

(** As [lone], with a clock that answers any of its readings. *)
Inductive free {A} : prog A * State → prog A * State → Prop :=
  | free_now k σ t : clock t → free (Vis Now k, σ) (k t, σ)
  | free_call {X} (e : event X) k σ x σ' :
      timeless e → step F e σ x σ' → free (Vis e k, σ) (k x, σ').

Definition set_clk (c : nat → Z) (σ : State) : State := mkState (com σ) (work σ) c.

Lemma step_set_clk {X} (e : event X) c σ x σ' :
  timeless e → step F e σ x σ' → step F e (set_clk c σ) x (set_clk c σ').
Proof.
  destruct e as [|[] s|R [] q| | | |ks]; simpl; try done.
  - intros _ Hs Hw. destruct (Hs Hw) as (T' & ? & ->). by exists T'.
  - intros _ Hs T HT. destruct (Hs T HT) as (T' & ? & ->). by exists T'.
  - intros _ Hs Hw. by destruct (Hs Hw) as [? ->].
  - intros _ Hs T HT. by destruct (Hs T HT) as [? ->].
  - intros _ Hs Hw. specialize (Hs Hw). destruct x; [by destruct Hs as [? ->]|by subst].
  - intros _ Hs T HT. specialize (Hs T HT). destruct x; [destruct Hs as [? [->| ->]]; auto|by subst].
  - by intros _ ->.
  - by intros _ [? ->].
Qed.

(** Its answers can be told in advance. *)
Lemma free_lone {A} (p : prog A) σ a σ' t :
  clock t → rtc free (p, σ) (Ret a, σ') →
  ∃ c c', (∀ n, clock (c n)) ∧ rtc lone (p, set_clk c σ) (Ret a, set_clk c' σ').
Proof.
  intros Ht Hl. remember (p, σ) as x eqn:Hx. remember (Ret a, σ') as y eqn:Hy. revert p σ Hx.
  induction Hl as [x|x y z Hstep Hl IH]; intros p σ ->; [simplify_eq; by exists (λ _, t), (λ _, t)|].
  inversion Hstep as [k σ1 t' Ht'|X e k σ1 e1 σ2 He Hs]; subst.
  - destruct (IH eq_refl _ _ eq_refl) as (c & c' & Hc & Hl').
    exists (λ n, match n with O => t' | S n => c n end), c'. split; [by intros [|n]|].
    eapply rtc_l; [|exact Hl']. by constructor.
  - destruct (IH eq_refl _ _ eq_refl) as (c & c' & Hc & Hl'). exists c, c'. split; [done|].
    eapply rtc_l; [|exact Hl']. constructor. by apply step_set_clk.
Qed.

(** ** Isolation *)

(** Two tables with agreeing footprints go through a statement alike. *)
Lemma exec_outcome_alike K s T1 T2 r T1' :
  agree K T1 T2 → stmt_within K s → exec_outcome F s T1 r T1' →
  ∃ T2', exec_outcome F s T2 r T2' ∧ agree K T1' T2' ∧
    agree (λ k, ¬ K k) T1 T1' ∧ agree (λ k, ¬ K k) T2 T2'.
Proof.
  intros Ha Hs He. pose proof (sql_exec_alike K T1 T2 Ha s Hs) as Hx. unfold alike in Hx.
  assert (∀ n, sql_exec s T1 = Some (n, T1') → ∃ T2', sql_exec s T2 = Some (n, T2') ∧ agree K T1' T2' ∧
    agree (λ k, ¬ K k) T1 T1' ∧ agree (λ k, ¬ K k) T2 T2') as Hsome.
  { intros n Hn. rewrite Hn in Hx. destruct (sql_exec s T2) as [[n2 T2']|]; [|done].
    destruct Hx as (-> & ? & ? & ?). by exists T2'. }
  destruct r as [e|n]; simpl in He.
  - destruct He as [[-> Hor]|[HF [n Hn]]].
    + exists T2. split; [|done]. left. split; [done|]. destruct Hor as [?|Hnone]; [by left|right].
      rewrite Hnone in Hx. by destruct (sql_exec s T2) as [[? ?]|].
    + destruct (Hsome n Hn) as (T2' & ? & ?). exists T2'. split; [right; eauto|done].
  - destruct (Hsome n He) as (T2' & ? & ?). by exists T2'.
Qed.

Lemma query_outcome_alike K {R} (q : query R) T1 T2 r :
  agree K T1 T2 → query_within K q → query_outcome F q T1 r → query_outcome F q T2 r.
Proof. intros Ha Hq. destruct r as [e|rows]; simpl; [done|]. by eapply sql_answer_agree. Qed.

(** What a merge does inside and outside the footprint of a transaction that
    only it works on. *)
Lemma merges_inside K tx T T' :
  merges tx T T' → agree K (tx_base tx) T → agree K T' (tx_work tx).
Proof. intros Hm Hb k Hk. specialize (Hb k Hk). destruct (Hm k) as [[? ?]|[? ?]]; congruence. Qed.

Lemma merges_outside K tx T T' :
  merges tx T T' → agree K (tx_base tx) (tx_work tx) → agree K T T'.
Proof. intros Hm Hb k Hk. specialize (Hb k Hk). destruct (Hm k) as [[? ?]|[? ?]]; congruence. Qed.

Lemma merges_own tx : merges tx (tx_base tx) (tx_work tx).
Proof. by right. Qed.

Section footprint.
Context (K : footprint).
Abbreviation outside := (λ k, ¬ K k).

(** [σ] is what the client [c] sees of the pool through its footprint. *)
Definition mirrors {A} (Q : A → bool → Prop) (T : Tables) (c : Client A) (pσ : prog A * State) : Prop :=
  let '(p, σ) := pσ in
  cl_prog c = p ∧ agree K T (com σ) ∧
  match cl_tx c, work σ with
  | None, None => conforms K p Q false
  | Some tx, Some W =>
      conforms K p Q true ∧ agree K (tx_base tx) T ∧ agree K (tx_work tx) W ∧
      agree outside (tx_base tx) (tx_work tx)
  | _, _ => False
  end.

(** A step of someone else. *)
Lemma mirrors_other {A} (Q : A → bool → Prop) T T' c pσ :
  mirrors Q T c pσ → agree K T T' → mirrors Q T' c pσ.
Proof.
  destruct pσ as [p σ]. intros (Hp & Hcom & Htx) Ha.
  split; [done|]. split; [by rewrite <- Ha|].
  destruct (cl_tx c) as [tx|], (work σ) as [W|]; try done.
  destruct Htx as (? & ? & ? & ?). split; [done|]. split; [by etrans|done].
Qed.

(** What a client sees once it has made its call. *)
Lemma mirrors_idle {A} (Q : A → bool → Prop) T p σ :
  agree K T (com σ) → work σ = None → conforms K p Q false →
  mirrors Q T (mkClient p None) (p, σ).
Proof. intros. do 2 (split; [done|]). simpl. by destruct (work σ). Qed.

Lemma mirrors_open {A} (Q : A → bool → Prop) T p σ tx W :
  agree K T (com σ) → work σ = Some W → conforms K p Q true →
  agree K (tx_base tx) T → agree K (tx_work tx) W → agree outside (tx_base tx) (tx_work tx) →
  mirrors Q T (mkClient p (Some tx)) (p, σ).
Proof. intros ? Hw ? ? ? ?. do 2 (split; [done|]). simpl. by rewrite Hw. Qed.

(** A call that leaves its transaction and the tables. *)
Lemma mirrors_next {A} (Q : A → bool → Prop) T p p' tx σ σ' :
  mirrors Q T (mkClient p tx) (p, σ) →
  com σ' = com σ → work σ' = work σ →
  (∀ o, conforms K p Q o → conforms K p' Q o) → mirrors Q T (mkClient p' tx) (p', σ').
Proof.
  intros (_ & Hcom & Htx) Hc Hw Hp. split; [done|]. rewrite Hc. split; [done|].
  rewrite Hw. simpl in *. destruct tx, (work σ); try done; [|by apply Hp].
  destruct Htx as [? Htx]. split; [by apply Hp|exact Htx].
Qed.

(** A step of the client itself is a step it could make alone, and leaves the
    keys of the others. *)
Lemma mirrors_step {A} (Q : A → bool → Prop) T T' c c' pσ :
  mirrors Q T c pσ → client_step T c T' c' →
  agree outside T T' ∧ ∃ pσ', rtc free pσ pσ' ∧ mirrors Q T' c' pσ'.
Proof.
  destruct pσ as [p σ]. intros Hmir Hstep. pose proof Hmir as (Hp & Hcom & Htx).
  destruct Hstep as [k tx t Ht|s k tx r T' He|s k tx r W' He|s k e|R q k tx r Hq|R q k tx r Hq|R q k e|k|k e HF
    |k tx T' Hm|k tx e Hc|k tx e T' HF Hor|k e|k tx|ks k tx r Hperm|p' tx W' Hr Hm]; simpl in Hp, Htx; subst p.
  - split; [done|]. exists (k t, σ). split; [by apply rtc_once; constructor|].
    eapply mirrors_next; [exact Hmir|done|done|]. intros o [_ Hk]. apply (Hk t).
  - destruct tx as [tx|], (work σ) as [W|] eqn:Hw; try done; [by destruct Htx as [[[? _] _] _]|].
    destruct Htx as [[_ Hs] Hk].
    destruct (exec_outcome_alike K s T (com σ) r T' Hcom Hs He) as (T2' & He' & Ha & Hout & _).
    split; [done|]. exists (k r, set_com T2' σ). split; [apply rtc_once; constructor; [done|]; by exists T2'|].
    by apply mirrors_idle.
  - destruct (work σ) as [W|] eqn:Hw; [|done]. destruct Htx as ([[_ Hs] Hk] & Hb & HW & Hout).
    destruct (exec_outcome_alike K s _ W r W' HW Hs He) as (W2 & He' & Ha & Hout' & _).
    split; [done|]. exists (k r, set_work (Some W2) σ). split.
    + apply rtc_once. constructor; [done|]. intros V HV. simplify_eq. by exists W2.
    + eapply mirrors_open; try done. simpl. by etrans.
  - destruct (work σ); [done|]. by destruct Htx as [[? _] _].
  - destruct tx as [tx|], (work σ) as [W|] eqn:Hw; try done; [by destruct Htx as [[[? _] _] _]|].
    destruct Htx as [[_ Hs] Hk]. split; [done|]. exists (k r, σ). split; [|by apply mirrors_idle].
    apply rtc_once. constructor; [done|]. intros _. split; [by eapply (query_outcome_alike K)|done].
  - destruct (work σ) as [W|] eqn:Hw; [|done]. destruct Htx as ([[_ Hs] Hk] & Hb & HW & Hout).
    split; [done|]. exists (k r, σ). split; [|by eapply mirrors_open].
    apply rtc_once. constructor; [done|]. intros V HV. simplify_eq. split; [by eapply (query_outcome_alike K)|done].
  - destruct (work σ); [done|]. by destruct Htx as [[? _] _].
  - destruct (work σ) as [W|] eqn:Hw; [done|]. destruct Htx as [_ Hk]. split; [done|].
    exists (k None, set_work (Some (com σ)) σ). split; [by apply rtc_once; constructor|].
    by eapply mirrors_open.
  - destruct (work σ) as [W|] eqn:Hw; [done|]. destruct Htx as [_ Hk]. split; [done|].
    exists (k (Some e), σ). split; [by apply rtc_once; constructor|].
    by apply mirrors_idle.
  - destruct (work σ) as [W|] eqn:Hw; [|done]. destruct Htx as ([_ Hk] & Hb & HW & Hout).
    split; [by eapply merges_outside|]. exists (k None, set_work None (set_com W σ)). split.
    + apply rtc_once. constructor; [done|]. intros V HV. by simplify_eq.
    + apply mirrors_idle; try done. etrans; [by eapply merges_inside|done].
  - destruct (work σ) as [W|] eqn:Hw; [|done]. destruct Htx as (_ & Hb & _ & Hout). exfalso.
    destruct Hc as (key & Hne & Hne'). apply Hne. symmetry. apply Hout. intros HK. apply Hne'.
    symmetry. by apply Hb.
  - destruct (work σ) as [W|] eqn:Hw; [|done]. destruct Htx as ([_ Hk] & Hb & HW & Hout).
    split; [destruct Hor as [->|Hm]; [done|by eapply merges_outside]|]. destruct Hor as [->|Hm].
    + exists (k (Some e), set_work None σ). split; [|by apply mirrors_idle].
      apply rtc_once. constructor; [done|]. intros V HV. simplify_eq. auto.
    + exists (k (Some e), set_work None (set_com W σ)). split.
      * apply rtc_once. constructor; [done|]. intros V HV. simplify_eq. auto.
      * apply mirrors_idle; try done. etrans; [by eapply merges_inside|done].
  - destruct (work σ); [done|]. by destruct Htx as [? _].
  - split; [done|]. exists (k tt, set_work None σ). split; [by apply rtc_once; constructor|].
    apply mirrors_idle; try done. destruct tx, (work σ); try done; [destruct Htx as [Htx _]|]; apply Htx.
  - split; [done|]. exists (k r, σ). split; [by apply rtc_once; constructor|].
    eapply mirrors_next; [exact Hmir|done..|]. intros o [_ Hk]. apply (Hk r).
  - destruct (work σ) as [W|] eqn:Hw; [|done]. destruct Htx as (Hk & Hb & HW & Hout).
    split; [done|]. exists (p', σ). split; [done|]. eapply mirrors_open; try done; simpl.
    + etrans; [by eapply merges_inside|done].
    + by eapply merges_outside.
Qed.

(** *** One client alone, on other tables *)

(** [σ] and [τ] differ outside the footprint only, where [τ] is at rest. *)
Definition related (o : bool) (σ τ : State) : Prop :=
  agree K (com σ) (com τ) ∧
  match work σ, work τ with
  | None, None => o = false
  | Some V, Some W => o = true ∧ agree K V W ∧ agree outside (com τ) W
  | _, _ => False
  end.

Lemma related_idle σ τ :
  agree K (com σ) (com τ) → work σ = None → work τ = None → related false σ τ.
Proof. intros ? Hσ Hτ. split; [done|]. by rewrite Hσ, Hτ. Qed.

Lemma related_open σ τ V W :
  agree K (com σ) (com τ) → work σ = Some V → work τ = Some W →
  agree K V W → agree outside (com τ) W → related true σ τ.
Proof. intros ? Hσ Hτ ? ?. split; [done|]. by rewrite Hσ, Hτ. Qed.

Lemma related_cases o σ τ :
  related o σ τ → agree K (com σ) (com τ) ∧
    (o = false ∧ work σ = None ∧ work τ = None ∨
     o = true ∧ ∃ V W, work σ = Some V ∧ work τ = Some W ∧ agree K V W ∧ agree outside (com τ) W).
Proof.
  intros (Ha & Hw). split; [done|].
  destruct (work σ) as [V|], (work τ) as [W|]; try done; [right|by left]. destruct Hw as (-> & ? & ?). eauto 10.
Qed.

Lemma step_transfer {X} (e : event X) o σ x σ' τ :
  timeless e → may_call K o e → related o σ τ → step F e σ x σ' →
  ∃ τ', step F e τ x τ' ∧ related (opened o e x) σ' τ' ∧ agree outside (com τ) (com τ').
Proof.
  intros Htime Hcall Hrel. pose proof Hrel as (Hcom & Hcase)%related_cases. intros Hstep.
  destruct e as [|[] s|R [] q| | | |ks]; simpl in *; [done|..].
  - destruct Hcall as [-> Hs]. destruct Hcase as [(_ & Hσ & Hτ)|[? _]]; [|done].
    destruct (Hstep Hσ) as (T' & He & ->).
    destruct (exec_outcome_alike K s _ _ _ _ Hcom Hs He) as (T2 & He2 & Ha & _ & Hout).
    exists (set_com T2 τ). split; [intros _; by exists T2|]. split; [by apply related_idle|done].
  - destruct Hcall as [-> Hs]. destruct Hcase as [[? _]|(_ & V & W & Hσ & Hτ & HVW & HW)]; [done|].
    destruct (Hstep V Hσ) as (T' & He & ->).
    destruct (exec_outcome_alike K s _ _ _ _ HVW Hs He) as (T2 & He2 & Ha & _ & Hout).
    exists (set_work (Some T2) τ). split; [intros W' HW'; simplify_eq; by exists T2|]. split; [|done].
    apply (related_open _ _ T' T2); try done. simpl. by etrans.
  - destruct Hcall as [-> Hq]. destruct Hcase as [(_ & Hσ & Hτ)|[? _]]; [|done].
    destruct (Hstep Hσ) as [Ho ->]. exists τ. split; [|done]. intros _. split; [by eapply (query_outcome_alike K)|done].
  - destruct Hcall as [-> Hq]. destruct Hcase as [[? _]|(_ & V & W & Hσ & Hτ & HVW & HW)]; [done|].
    destruct (Hstep V Hσ) as [Ho ->]. exists τ. split; [|done].
    intros W' HW'. simplify_eq. split; [by eapply (query_outcome_alike K)|done].
  - subst o. destruct Hcase as [(_ & Hσ & Hτ)|[? _]]; [|done]. specialize (Hstep Hσ). destruct x as [e|].
    + destruct Hstep as [HF ->]. exists τ. split; [done|]. split; [by apply related_idle|done].
    + subst σ'. exists (set_work (Some (com τ)) τ). split; [done|]. split; [|done]. by eapply related_open.
  - subst o. destruct Hcase as [[? _]|(_ & V & W & Hσ & Hτ & HVW & HW)]; [done|].
    specialize (Hstep V Hσ). destruct x as [e|].
    + destruct Hstep as [HF [->| ->]]; [exists (set_work None τ)|exists (set_work None (set_com W τ))];
        (split; [intros W' HW'; simplify_eq; auto|]); (split; [by apply related_idle|done]).
    + subst σ'. exists (set_work None (set_com W τ)). split; [intros W' HW'; by simplify_eq|].
      split; [by apply related_idle|done].
  - subst σ'. exists (set_work None τ). split; [done|]. split; [by apply related_idle|done].
  - destruct Hstep as [Hp ->]. exists τ. done.
Qed.

(** What a client does alone it also does on tables that differ outside its
    footprint, and there it changes nothing. *)
Lemma free_transfer {A} (Q : A → bool → Prop) p σ a σ' o τ :
  conforms K p Q o → related o σ τ → rtc free (p, σ) (Ret a, σ') →
  ∃ τ' o', rtc free (p, τ) (Ret a, τ') ∧ related o' σ' τ' ∧ Q a o' ∧ agree outside (com τ) (com τ').
Proof.
  intros Hp Hrel Hl. remember (p, σ) as c eqn:Hc. remember (Ret a, σ') as d eqn:Hd.
  revert p σ o τ Hc Hp Hrel. induction Hl as [c|c c' d Hstep Hl IH]; intros p σ o τ -> Hp Hrel.
  { simplify_eq. by exists τ, o. }
  inversion Hstep as [k σ1 t Ht|X e k σ1 x σ2 He Hs]; subst; destruct Hp as [Hcall Hk].
  { destruct (IH eq_refl (k t) σ o τ eq_refl (Hk t) Hrel) as (τ2 & o' & Hl2 & ?).
    exists τ2, o'. split; [eapply rtc_l; [by constructor|done]|done]. }
  destruct (step_transfer e o σ x σ2 τ He Hcall Hrel Hs) as (τ1 & Hs1 & Hrel1 & Hout1).
  destruct (IH eq_refl (k x) σ2 (opened o e x) τ1 eq_refl (Hk x) Hrel1) as (τ2 & o' & Hl2 & Hrel2 & HQ & Hout2).
  exists τ2, o'. split; [eapply rtc_l; [by constructor|done]|]. split; [done|]. split; [done|]. by etrans.
Qed.
End footprint.

(** ** Pools of clients with footprints of their own *)

Section isolation.
Context {A : Type} (P : A → Prop) (Ks : nat → footprint) (ps : list (prog A)) (T : Tables).

(** No key is in two footprints. *)
Definition apart : Prop := ∀ i j k, Ks i k → Ks j k → i = j.

Context (Hops : ∀ i p, ps !! i = Some p → operation (Ks i) P p) (Hapart : apart).

(** Each client has got to where it would be alone. *)
Definition mirrored (pool : Pool A) : Prop :=
  length (p_clients pool) = length ps ∧
  (∀ i p c, ps !! i = Some p → p_clients pool !! i = Some c →
    ∃ σ, rtc free (p, start 0 T) (cl_prog c, σ) ∧
      mirrors (Ks i) (closed P) (p_com pool) c (cl_prog c, σ)) ∧
  agree (λ k, ∀ i p, ps !! i = Some p → ¬ Ks i k) T (p_com pool).

Lemma mirrored_start : mirrored (pool_of T ps).
Proof.
  split; [simpl; by rewrite length_fmap|]. split; [|done]. intros i p c Hp Hc. simpl in Hc.
  rewrite list_lookup_fmap, Hp in Hc. simplify_eq/=. exists (start 0 T). split; [done|].
  apply mirrors_idle; [done..|]. by eapply Hops.
Qed.

Lemma mirrored_step pool pool' : mirrored pool → pool_step pool pool' → mirrored pool'.
Proof.
  intros (Hlen & Hall & Hout) Hstep. destruct Hstep as [i c T1 T2 c' cs Hi Hstep].
  cbn [p_com p_clients] in *.
  assert (∃ p, ps !! i = Some p) as [p Hp].
  { apply lookup_lt_is_Some. rewrite <- Hlen. by apply lookup_lt_is_Some; eexists. }
  destruct (Hall i p c Hp Hi) as (σ & Hl & Hm).
  destruct (mirrors_step _ _ _ _ _ _ _ Hm Hstep) as (Hothers & [p' σ'] & Hl' & Hm').
  assert (cl_prog c' = p') as <- by apply Hm'.
  split; [cbn [p_clients]; by rewrite length_insert|]. cbn [p_com p_clients]. split.
  - intros j q d Hq Hd. destruct (decide (j = i)) as [->|Hne].
    + rewrite list_lookup_insert_eq in Hd by by eapply lookup_lt_Some. simplify_eq.
      exists σ'. split; [by etrans|done].
    + rewrite list_lookup_insert_ne in Hd by done. destruct (Hall j q d Hq Hd) as (τ & Hlτ & Hmτ).
      exists τ. split; [done|]. eapply mirrors_other; [done|]. intros k Hk. apply Hothers.
      intros Hk'. by destruct (Hapart j i k).
  - intros k Hk. rewrite (Hout k Hk). apply Hothers. by eapply Hk.
Qed.

Lemma mirrored_steps pool : rtc pool_step (pool_of T ps) pool → mirrored pool.
Proof.
  intros Hsteps. assert (∀ p, mirrored p → rtc pool_step p pool → mirrored pool) as Hind.
  { clear Hsteps. intros p Hp Hsteps. induction Hsteps; eauto using mirrored_step. }
  eapply Hind; [apply mirrored_start|done].
Qed.

(** At every moment each client has got, with the answers it was given, to
    where it could be alone on the tables the pool started from, and the rows
    of its footprint are those it would have left. *)
Lemma pool_isolated pool i p c :
  rtc pool_step (pool_of T ps) pool → ps !! i = Some p → p_clients pool !! i = Some c →
  ∃ σ, rtc free (p, start 0 T) (cl_prog c, σ) ∧ agree (Ks i) (p_com pool) (com σ) ∧
    (∀ a, cl_prog c = Ret a → P a ∧ work σ = None).
Proof.
  intros Hsteps Hp Hc. destruct (mirrored_steps _ Hsteps) as (_ & Hall & _).
  destruct (Hall i p c Hp Hc) as (σ & Hl & Hm). exists σ. split; [done|].
  destruct Hm as (_ & Ha & Htx). split; [done|]. intros a Ha'. rewrite Ha' in Htx.
  destruct (cl_tx c), (work σ); try done; [by destruct Htx as [[? _] _]|]. by destruct Htx.
Qed.

(** *** In turn *)

(** [T'] once the first [m] clients of a pool that ended in [T''] have run. *)
Definition turned (T'' : Tables) (m : nat) (T' : Tables) : Prop :=
  (∀ i k, (i < m)%nat → Ks i k → slice_of T' k = slice_of T'' k) ∧
  (∀ k, (∀ i, (i < m)%nat → ¬ Ks i k) → slice_of T' k = slice_of T k).

Lemma in_turn_from t pool rs m T' :
  clock t → rtc pool_step (pool_of T ps) pool → p_clients pool = (λ a, mkClient (Ret a) None) <$> rs →
  length rs = length ps → turned (p_com pool) m T' →
  ∃ T'', in_turn (drop m ps) T' (drop m rs) T'' ∧ turned (p_com pool) (m + length (drop m ps)) T''.
Proof.
  intros Htime Hsteps Hfin Hlen. remember (drop m ps) as todo eqn:Htodo. revert m T' Htodo.
  induction todo as [|p todo IH]; intros m T' Htodo Ht.
  { exists T'. rewrite Nat.add_0_r. split; [|done]. rewrite drop_ge; [constructor|].
    rewrite Hlen. destruct (decide (m < length ps)%nat) as [Hm|]; [|lia].
    pose proof (f_equal length Htodo) as Hl. rewrite length_drop in Hl. simpl in Hl. lia. }
  assert (ps !! m = Some p) as Hp by by rewrite <- (Nat.add_0_r m), <- lookup_drop, <- Htodo.
  destruct (lookup_lt_is_Some_2 rs m) as [a Ha]; [rewrite Hlen; by eapply lookup_lt_Some|].
  destruct (pool_isolated pool m p (mkClient (Ret a) None) Hsteps Hp) as (σ & Hl & Hagr & Hend).
  { by rewrite Hfin, list_lookup_fmap, Ha. }
  destruct (Hend a eq_refl) as [_ Hw]. destruct Ht as [Hin Hnot].
  destruct (free_transfer (Ks m) (closed P) p (start 0 T) a σ false (start 0 T')) as (τ & o & Hlτ & Hrel & [-> _] & Hout).
  { by eapply Hops. }
  { apply related_idle; [|done..]. intros k Hk. symmetry. apply Hnot. intros i Hi Hk'.
    pose proof (Hapart i m k Hk' Hk). lia. }
  { done. }
  destruct Hrel as (Hcom & Hwork). rewrite Hw in Hwork. destruct (work τ) eqn:Hwτ; [done|].
  destruct (free_lone _ _ _ _ _ Htime Hlτ) as (c & c' & Hc & Hlc).
  destruct (IH (S m) (com τ)) as (T'' & Hturn & Ht'').
  { rewrite (drop_S _ _ _ Hp) in Htodo. by simplify_eq. }
  { split.
    - intros i k Hi Hk. destruct (decide (i = m)) as [->|Hne]; [by rewrite <- Hcom, <- Hagr|].
      rewrite <- (Hin i k) by (done || lia). symmetry. apply Hout. intros Hk'.
      by apply Hne, (Hapart i m k).
    - intros k Hk. rewrite <- (Hnot k) by (intros i Hi; apply Hk; lia). symmetry. apply Hout. apply Hk. lia. }
  exists T''. split; [|by replace (m + length (p :: todo))%nat with (S m + length todo)%nat by (simpl; lia)].
  rewrite (drop_S rs a m Ha). by eapply (turn_cons _ _ _ c _ (set_clk c' τ)).
Qed.

(** A pool that has run to its end has done what its programs do one after
    the other. *)
Lemma pool_in_turn t pool rs `{!∀ i k, Decision (Ks i k)} :
  clock t → rtc pool_step (pool_of T ps) pool → p_clients pool = (λ a, mkClient (Ret a) None) <$> rs →
  in_turn ps T rs (p_com pool).
Proof.
  intros Htime Hsteps Hfin. destruct (mirrored_steps _ Hsteps) as (Hlen & _ & Hnone).
  rewrite Hfin, length_fmap in Hlen.
  destruct (in_turn_from t pool rs 0 T Htime Hsteps Hfin Hlen) as (T'' & Hturn & Hin & Hnot).
  { split; [intros; lia|done]. }
  rewrite !drop_0 in *. replace (p_com pool) with T''; [done|]. apply tables_ext. intros k. simpl in *.
  destruct (decide (Exists (λ i, Ks i k) (seq 0 (length ps)))) as [He|Hne].
  - apply list.Exists_exists in He as (i & Hi & Hk). apply elem_of_seq in Hi. apply (Hin i k); [lia|done].
  - assert (∀ i, (i < length ps)%nat → ¬ Ks i k) as Hk.
    { intros i Hi Hk. apply Hne, list.Exists_exists. exists i. split; [apply elem_of_seq; lia|done]. }
    rewrite Hnot by done. apply Hnone. intros i p Hp. apply Hk. by eapply lookup_lt_Some.
Qed.
End isolation.
End machine.

(** A clock of more readings allows more. *)
Lemma client_step_clock (F refreshing : Prop) (clock clock' : Z → Prop) {A} T (c : Client A) T' c' :
  (∀ t, clock t → clock' t) →
  client_step F refreshing clock T c T' c' → client_step F refreshing clock' T c T' c'.
Proof. intros Hc Hstep. destruct Hstep; by econstructor; eauto. Qed.

Lemma pool_steps_clock (F refreshing : Prop) (clock clock' : Z → Prop) {A} (P P' : Pool A) :
  (∀ t, clock t → clock' t) → rtc (pool_step F refreshing clock) P P' → rtc (pool_step F refreshing clock') P P'.
Proof.
  intros Hc Hs. induction Hs as [P|P P1 P' Hstep _ IH]; [done|]. eapply rtc_l; [|exact IH].
  destruct Hstep as [i c T T' c' cs Hi Hstep]. econstructor; [exact Hi|]. by eapply client_step_clock.
Qed.

(** ** An executable scheduler *)

#[export] Instance key_row_eq_dec : EqDecision KeyRow.
Proof. solve_decision. Defined.
#[export] Instance spec_float_eq_dec : EqDecision SpecFloat.spec_float.
Proof. solve_decision. Defined.
#[export] Instance tables_eq_dec : EqDecision Tables.
Proof. solve_decision. Defined.

Definition tx_done : dberr := "sql: transaction has already been committed or rolled back".

Section scheduler.
Context (ns : Z).

(** The next call of a client on an engine that does not fail, unless it is a
    commit that would have to merge. *)
Definition next_call {A} (T : Tables) (c : Client A) : option (Tables * Client A) :=
  let tx := cl_tx c in
  match cl_prog c with
  | Ret _ => None
  | Vis e k =>
      match e in event X return (X → prog A) → option (Tables * Client A) with
      | Now => λ k, Some (T, mkClient (k ns) tx)
      | Exec DB s => λ k, let '(r, T') := ref_exec s T false in Some (T', mkClient (k r) tx)
      | Exec TX s => λ k,
          match tx with
          | Some x =>
              let '(r, W) := ref_exec s (tx_work x) false in
              Some (T, mkClient (k r) (Some (mkTx (tx_base x) W)))
          | None => Some (T, mkClient (k (inl tx_done)) None)
          end
      | Query DB q => λ k, Some (T, mkClient (k (ref_query q T false)) tx)
      | Query TX q => λ k,
          match tx with
          | Some x => Some (T, mkClient (k (ref_query q (tx_work x) false)) tx)
          | None => Some (T, mkClient (k (inl tx_done)) None)
          end
      | BeginTx => λ k,
          match tx with None => Some (T, mkClient (k None) (Some (mkTx T T))) | Some _ => None end
      | Commit => λ k,
          match tx with
          | Some x =>
              if decide (tx_base x = T) then Some (tx_work x, mkClient (k None) None)
              else if decide (tx_work x = tx_base x) then Some (T, mkClient (k None) None)
              else None
          | None => Some (T, mkClient (k (Some tx_done)) None)
          end
      | Rollback => λ k, Some (T, mkClient (k tt) None)
      | RangeMap ks => λ k, Some (T, mkClient (k ks) tx)
      end k
  end.

(** A schedule: the next call of a client, or a fresh snapshot for a
    transaction that has changed nothing. *)
Inductive move := Call (i : nat) | Refresh (i : nat).

Definition play_move {A} (m : move) (P : Pool A) : option (Pool A) :=
  match m with
  | Call i =>
      c ← p_clients P !! i;
      '(T, c') ← next_call (p_com P) c;
      Some (mkPool T (<[i := c']> (p_clients P)))
  | Refresh i =>
      c ← p_clients P !! i;
      tx ← cl_tx c;
      if decide (tx_work tx = tx_base tx) then
        Some (mkPool (p_com P) (<[i := mkClient (cl_prog c) (Some (mkTx (p_com P) (p_com P)))]> (p_clients P)))
      else None
  end.

Fixpoint play {A} (ms : list move) (P : Pool A) : option (Pool A) :=
  match ms with
  | [] => Some P
  | m :: ms => P' ← play_move m P; play ms P'
  end.

(** [n] calls of client [i]. *)
Definition calls (i n : nat) : list move := replicate n (Call i).

Lemma ref_exec_reliable s T r T' : ref_exec s T false = (r, T') → exec_outcome False s T r T'.
Proof. unfold ref_exec, exec_outcome. intros. split_matches; auto. Qed.

Lemma ref_query_reliable {R} (q : query R) T : query_outcome False q T (ref_query q T false).
Proof. unfold ref_query, query_outcome, sql_answer. destruct (sql_order q); eauto. Qed.

Lemma merges_unchanged tx T : tx_work tx = tx_base tx → merges tx T T.
Proof. intros Hw k. left. by rewrite Hw. Qed.

Lemma next_call_step refreshing {A} (T T' : Tables) (c c' : Client A) :
  next_call T c = Some (T', c') → client_step False refreshing (still ns) T c T' c'.
Proof.
  destruct c as [[a|X e k] tx]; [done|].
  destruct e as [|[] s|R [] q| | | |ks]; cbn [next_call cl_prog cl_tx]; intros Hn.
  - simplify_eq. by constructor.
  - destruct (ref_exec s T false) eqn:He. simplify_eq. by constructor; apply ref_exec_reliable.
  - destruct tx as [x|]; [|simplify_eq; constructor].
    destruct (ref_exec s (tx_work x) false) eqn:He. simplify_eq. by constructor; apply ref_exec_reliable.
  - simplify_eq. constructor. apply ref_query_reliable.
  - destruct tx as [x|]; simplify_eq; constructor. apply ref_query_reliable.
  - destruct tx; simplify_eq. constructor.
  - destruct tx as [x|]; [|simplify_eq; constructor]. repeat case_decide; simplify_eq; constructor.
    + apply merges_own.
    + by apply merges_unchanged.
  - simplify_eq. constructor.
  - simplify_eq. by constructor.
Qed.

Lemma play_steps (refreshing : Prop) {A} ms (P P' : Pool A) :
  (refreshing ∨ ∀ i, Refresh i ∉ ms) → play ms P = Some P' → rtc (pool_step False refreshing (still ns)) P P'.
Proof.
  revert P. induction ms as [|m ms IH]; intros P Hr Hp; simpl in Hp; [by simplify_eq|].
  destruct (play_move m P) as [P1|] eqn:Hm; [|done]. simpl in Hp. eapply rtc_l.
  2:{ apply IH; [|done]. destruct Hr as [?|Hr]; [by left|right]. intros i Hi. apply (Hr i). by right. }
  destruct P as [T cs]. destruct m as [i|i]; simpl in Hm.
  - destruct (cs !! i) as [c|] eqn:Hi; [|done]. simpl in Hm.
    destruct (next_call T c) as [[T' c']|] eqn:Hn; [|done]. simplify_eq/=.
    econstructor; [done|]. by apply next_call_step.
  - destruct (cs !! i) as [c|] eqn:Hi; [|done]. simpl in Hm. destruct c as [p [tx|]]; [|done]. simpl in Hm.
    case_decide; simplify_eq/=. econstructor; [done|]. constructor; [|by apply merges_unchanged].
    destruct Hr as [?|Hr]; [done|]. destruct (Hr i). by left.
Qed.
End scheduler.

(** ** A client that runs undisturbed *)

Section solo.
Context (ns : Z).

(** The engine that a pool is to a client without competition. *)
Definition engine_of (T : Tables) (W : option Tables) : Reliable := mkReliable (mkState T W (λ _, ns)).

Definition tx_on (T : Tables) (W : option Tables) : option Tx := mkTx T <$> W.

Definition is_open (W : option Tables) : bool := match W with Some _ => true | None => false end.

Lemma solo_call refreshing {A X} (e : event X) (k : X → prog A) K T W x w :
  may_call K (is_open W) e → rel_handle e (engine_of T W) = (x, w) →
  ∃ T' W', w = engine_of T' W' ∧ is_open W' = opened (is_open W) e x ∧
    client_step False refreshing (still ns) T (mkClient (Vis e k) (tx_on T W)) T' (mkClient (k x) (tx_on T' W')).
Proof.
  intros Hcall. unfold rel_handle, engine_of.
  destruct e as [|[] s|R [] q| | | |ks];
    cbn [ref_handle ref_state rel_state work com clk ref_fault ref_faults hd]; intros Hh.
  - simplify_eq. exists T, W. split; [done|]. split; [done|]. by constructor.
  - destruct Hcall as [Hw _]. destruct W; [done|].
    destruct (ref_exec s T false) as [r T'] eqn:He. simplify_eq. exists T', None.
    split; [done|]. split; [done|]. by constructor; apply ref_exec_reliable.
  - destruct Hcall as [Hw _]. destruct W as [V|]; [|done].
    destruct (ref_exec s V false) as [r T'] eqn:He. simplify_eq. exists T, (Some T').
    split; [done|]. split; [done|]. apply (client_exec_tx _ _ _ _ s k (mkTx T V)). by apply ref_exec_reliable.
  - simplify_eq. exists T, W. split; [done|]. split; [done|]. constructor. apply ref_query_reliable.
  - destruct Hcall as [Hw _]. destruct W as [V|]; [|done]. simplify_eq. exists T, (Some V).
    split; [done|]. split; [done|]. constructor. apply ref_query_reliable.
  - destruct W; [discriminate Hcall|]. simplify_eq. exists T, (Some T). split; [done|]. split; [done|]. constructor.
  - destruct W as [V|]; [|discriminate Hcall]. simplify_eq. exists V, None. split; [done|]. split; [done|].
    constructor. apply merges_own.
  - simplify_eq. exists T, None. split; [done|]. split; [done|]. constructor.
  - simplify_eq. exists T, W. split; [done|]. split; [done|]. by constructor.
Qed.

(** What surrounds a program: [g p] makes the calls of [p] first. *)
Definition surrounds {A B} (g : prog A → prog B) : Prop :=
  ∀ X (e : event X) k, g (Vis e k) = Vis e (λ x, g (k x)).

Lemma surrounds_bind {A B} (f : A → prog B) : surrounds (λ p, bind p f).
Proof. by intros X e k. Qed.
Lemma surrounds_id {A} : surrounds (λ p : prog A, p).
Proof. by intros X e k. Qed.
Lemma surrounds_bind_bind {A B C} (f : A → prog B) (h : B → prog C) : surrounds (λ p, bind (bind p f) h).
Proof. by intros X e k. Qed.

(** While client [i] runs [p], the others waiting, the pool does what the
    engine does. *)
Lemma solo_steps refreshing {A B} (g : prog A → prog B) (p : prog A) K Q T W cs i a w :
  surrounds g → cs !! i = Some (mkClient (g p) (tx_on T W)) → conforms K p Q (is_open W) →
  run p (engine_of T W) = (a, w) →
  ∃ T' W', w = engine_of T' W' ∧ Q a (is_open W') ∧
    rtc (pool_step False refreshing (still ns)) (mkPool T cs) (mkPool T' (<[i := mkClient (g (Ret a)) (tx_on T' W')]> cs)).
Proof.
  intros Hg. revert T W cs. induction p as [b|X e k IH]; intros T W cs Hi Hp Hrun; cbn [run] in Hrun.
  - simplify_eq. exists T, W. split; [done|]. split; [done|]. by rewrite list_insert_id.
  - destruct Hp as [Hcall Hk]. destruct (handle e (engine_of T W)) as [x w1] eqn:Hh. rewrite Hg in Hi.
    destruct (solo_call refreshing e (λ x, g (k x)) K T W x w1 Hcall Hh) as (T1 & W1 & -> & Hopen & Hstep).
    assert (i < length cs)%nat as Hlt by by eapply lookup_lt_Some.
    destruct (IH x T1 W1 (<[i := mkClient (g (k x)) (tx_on T1 W1)]> cs)) as (T' & W' & -> & HQ & Hsteps).
    { by apply list_lookup_insert_eq. }
    { rewrite Hopen. apply Hk. }
    { done. }
    exists T', W'. split; [done|]. split; [done|]. rewrite list_insert_insert_eq in Hsteps.
    eapply rtc_l; [|exact Hsteps]. econstructor; [exact Hi|exact Hstep].
Qed.

Definition state_of (T : Tables) (W : option Tables) : State := mkState T W (λ _, ns).

(** ... so what is proved of [p] on a reliable engine holds of it. *)
Lemma solo_wp refreshing {A B} (g : prog A → prog B) (p : prog A) K P Q T W cs i :
  surrounds g → cs !! i = Some (mkClient (g p) (tx_on T W)) →
  conforms K p P (is_open W) → wp False p Q (state_of T W) →
  ∃ a T' W', Q a (state_of T' W') ∧ P a (is_open W') ∧
    rtc (pool_step False refreshing (still ns)) (mkPool T cs) (mkPool T' (<[i := mkClient (g (Ret a)) (tx_on T' W')]> cs)).
Proof.
  intros Hg Hi Hp Hwp. destruct (run p (engine_of T W)) as [a w] eqn:Hrun.
  destruct (solo_steps refreshing g p K P T W cs i a w Hg Hi Hp Hrun) as (T' & W' & -> & HP & Hsteps).
  exists a, T', W'. split; [|done]. pose proof (wp_run p Q (engine_of T W) Hwp) as Hend. by rewrite Hrun in Hend.
Qed.

(** A whole operation. *)
Lemma solo_operation refreshing {A B} (g : prog A → prog B) (p : prog A) K P Q T cs i :
  surrounds g → cs !! i = Some (mkClient (g p) None) →
  operation K P p → wp False p Q (start ns T) →
  ∃ a T', Q a (start ns T') ∧ P a ∧
    rtc (pool_step False refreshing (still ns)) (mkPool T cs) (mkPool T' (<[i := mkClient (g (Ret a)) None]> cs)).
Proof.
  intros Hg Hi Hp Hwp.
  destruct (solo_wp refreshing g p K (closed P) Q T None cs i Hg Hi Hp Hwp) as (a & T' & [W'|] & HQ & [Hopen HP] & Hsteps);
    [done|]. by exists a, T'.
Qed.
End solo.
