(* ===== verification/Store.v ===== *)
(** The store's key-level operations ([src/internal/store/store.go]): lazy
    expiry, type checks, strings' [Get] and [Set], deletion, expiry times,
    [Rename], and the database-wide operations. *)
From S2P Require Import Prelude GoStd Float Sql Effects Keyspace Sample.
Local Open Scope Z_scope.
Local Open Scope go_scope.

(** ** Helpers shared by every operation *)

Definition nowMs : prog Z := ns ⇐ trigger Now; Ret (unix_milli ns).

(** [""] stands for a missing or expired key. *)
Definition keyType (key : string) (dbIdx : Z) : prog (result string) :=
  now ⇐ nowMs;
  r ⇐ query_row DB (SelKeyTypeAlive (key, dbIdx) now);
  match r with
  | NoRows => ok ""
  | ScanErr e => err e
  | Row typ => ok typ
  end.

Definition deleteExpired (key : string) (dbIdx : Z) : prog (result unit) :=
  now ⇐ nowMs;
  _ ⇐? exec DB (DeleteKeyExpired (key, dbIdx) now);
  ok tt.

Definition assertType (key : string) (dbIdx : Z) (want : string) : prog (result unit) :=
  typ ⇐? keyType key dbIdx;
  if decide (typ ≠ "" ∧ typ ≠ want) then err ErrWrongType else ok tt.

(** Both branches of the source issue the same upsert, with [NULL] for a nil
    [expiresAt]. *)
Definition upsertKey (key : string) (dbIdx : Z) (typ : string) (expiresAt : option Z)
    : prog (result unit) :=
  _ ⇐? exec TX (UpsertKey (key, dbIdx) typ expiresAt);
  ok tt.

(** ** Strings *)

Definition Get (key : string) (dbIdx : Z) : prog (result (option string)) :=
  _ ⇐? deleteExpired key dbIdx;
  _ ⇐? assertType key dbIdx "string";
  r ⇐ query_row DB (SelString (key, dbIdx));
  match r with
  | NoRows => ok None
  | ScanErr e => err e
  | Row val => ok (Some val)
  end.

Record SetOptions := mkSetOptions {
  ExpiresAt : option Z;
  NX : bool;
  XX : bool;
  KeepTTL : bool;
}.

Definition no_options : SetOptions := mkSetOptions None false false false.

Definition Set_ (key : string) (dbIdx : Z) (value : string) (opts : SetOptions)
    : prog (result bool) :=
  _ ⇐? deleteExpired key dbIdx;
  _ ⇐? assertType key dbIdx "string";
  with_tx (
    now ⇐ nowMs;
    r ⇐ query_row TX (CountKeyAlive (key, dbIdx) now);
    let exists_ := scanned 0 r in
    if NX opts && bool_decide (exists_ > 0) then ok false
    else if XX opts && bool_decide (exists_ = 0) then ok false
    else
      _ ⇐? upsertKey key dbIdx "string" (ExpiresAt opts);
      _ ⇐? exec TX (UpsertString (key, dbIdx) value);
      _ ⇐? commit;
      ok true).

(** ** Deletion and existence *)

Definition Del (keys : list string) (dbIdx : Z) : prog (result Z) :=
  if decide (keys = []) then ok 0
  else for_each keys 0 (λ total k,
    n ⇐? exec DB (DeleteKey (k, dbIdx));
    ok (total + n)).

Definition Exists_ (keys : list string) (dbIdx : Z) : prog (result Z) :=
  for_each keys 0 (λ count k,
    _ ⇐? deleteExpired k dbIdx;
    r ⇐ query_row DB (CountKey (k, dbIdx));
    ok (count + scanned 0 r)).

(** ** Expiry *)

Definition ExpireAt (key : string) (dbIdx : Z) (atMs : Z) : prog (result bool) :=
  _ ⇐? deleteExpired key dbIdx;
  n ⇐? exec DB (UpdateExpiry (key, dbIdx) (Some atMs));
  ok (bool_decide (n > 0)).

(** [time.Duration(seconds)*time.Second] is an int64 product in nanoseconds. *)
Definition Expire (key : string) (dbIdx : Z) (seconds : Z) : prog (result bool) :=
  ns ⇐ trigger Now;
  ExpireAt key dbIdx (unix_milli (ns + wrap64 (seconds * 1000000000))).

Definition PExpire (key : string) (dbIdx : Z) (ms : Z) : prog (result bool) :=
  now ⇐ nowMs;
  ExpireAt key dbIdx (wrap64 (now + ms)).

(** int64 [/] truncates towards zero; here the dividend is not negative. *)
Definition ttl (key : string) (dbIdx : Z) (millis : bool) : prog (result Z) :=
  _ ⇐? deleteExpired key dbIdx;
  r ⇐ query_row DB (SelExpiresAt (key, dbIdx));
  match r with
  | NoRows => ok (-2)
  | ScanErr e => err e
  | Row None => ok (-1)
  | Row (Some expiresAt) =>
      now ⇐ nowMs;
      let rem := wrap64 (expiresAt - now) in
      if decide (rem < 0) then ok (-2)
      else if millis then ok rem
      else ok (Z.quot rem 1000)
  end.

Definition TTL (key : string) (dbIdx : Z) : prog (result Z) := ttl key dbIdx false.
Definition PTTL (key : string) (dbIdx : Z) : prog (result Z) := ttl key dbIdx true.

Definition Persist (key : string) (dbIdx : Z) : prog (result bool) :=
  _ ⇐? deleteExpired key dbIdx;
  r ⇐ query_row DB (SelExpiresAt (key, dbIdx));
  match r with
  | Row (Some _) =>
      _ ⇐? exec DB (UpdateExpiry (key, dbIdx) None);
      ok true
  | _ => ok false
  end.

Definition Type_ (key : string) (dbIdx : Z) : prog (result string) :=
  _ ⇐? deleteExpired key dbIdx;
  typ ⇐? keyType key dbIdx;
  if decide (typ = "") then ok "none" else ok typ.

(** ** Whole databases *)

Definition SweepExpired : prog (result unit) :=
  now ⇐ nowMs;
  _ ⇐? exec DB (DeleteAllExpired now);
  ok tt.

Definition DBSize (dbIdx : Z) : prog (result Z) :=
  now ⇐ nowMs;
  r ⇐ query_row DB (CountDbAlive dbIdx now);
  match r with
  | Row n => ok n
  | NoRows => err (ErrNew "sql: no rows in result set")
  | ScanErr e => err e
  end.

Definition FlushDB (dbIdx : Z) : prog (result unit) :=
  _ ⇐? exec DB (DeleteDb dbIdx);
  ok tt.

Definition FlushAll : prog (result unit) :=
  _ ⇐? exec DB DeleteAll;
  ok tt.

(** ** Rename *)

(** The copy statement of [typ]'s table; a row of [keys] has one of the five
    types, and the source copies nothing for any other. *)
Definition copy_stmt (typ : string) (dst src : kid) : option stmt :=
  if decide (typ = "string") then Some (CopyStrings dst src)
  else if decide (typ = "list") then Some (CopyLists dst src)
  else if decide (typ = "hash") then Some (CopyHashes dst src)
  else if decide (typ = "set") then Some (CopySets dst src)
  else if decide (typ = "zset") then Some (CopyZsets dst src)
  else None.

Definition Rename (src dst : string) (dbIdx : Z) : prog (result unit) :=
  _ ⇐? deleteExpired src dbIdx;
  r ⇐ query_row DB (SelTypeExpires (src, dbIdx));
  match r with
  | NoRows => err ErrNoKey
  | ScanErr e => err e
  | Row (typ, expiresAt) =>
      with_tx (
        _ ⇐ exec TX (DeleteKey (dst, dbIdx));
        _ ⇐? exec TX (InsertKey (dst, dbIdx) typ expiresAt);
        _ ⇐? match copy_stmt typ (dst, dbIdx) (src, dbIdx) with
             | Some s => exec TX s
             | None => ok 0
             end;
        _ ⇐? exec TX (DeleteKey (src, dbIdx));
        commit)
  end.

(** ** Random key and key listing *)

Definition RandomKey (dbIdx : Z) : prog (result string) :=
  now ⇐ nowMs;
  r ⇐ query_row DB (SelRandomKey dbIdx now);
  match r with
  | NoRows => ok ""
  | ScanErr e => err e
  | Row key => ok key
  end.

(** ** Proof rules of the helpers *)

(** The rows of a key after [deleteExpired]. *)
Definition purge (now : Z) (sl : slice) : slice := (slice_delete (expiredWhere now) sl).2.

(** Its [keys] row, if any, has not expired. *)
Definition live (now : Z) (sl : slice) : Prop :=
  ∀ r, s_key sl = Some r → aliveWhere now r = true.

Lemma aliveWhere_negb now r : aliveWhere now r = negb (expiredWhere now r).
Proof.
  unfold aliveWhere, expiredWhere. destruct (kr_expires_at r) as [e|]; [|done].
  rewrite <- bool_decide_not. apply bool_decide_ext. lia.
Qed.

Lemma purge_live now sl : live now (purge now sl).
Proof.
  unfold live, purge, slice_delete. intros r.
  destruct (s_key sl) as [r'|] eqn:Hk; [|by simpl; rewrite Hk].
  destruct (expiredWhere now r') eqn:He; simpl; [done|].
  rewrite Hk.
  intros ?; simplify_eq. by rewrite aliveWhere_negb, He.
Qed.

Lemma purge_wf now sl : wf_slice sl → wf_slice (purge now sl).
Proof.
  intros Hsl. unfold purge, slice_delete. destruct (s_key sl); [|done].
  case_match; [constructor|done].
Qed.

Lemma purge_abs now sl : abs_entry now (purge now sl) = abs_entry now sl.
Proof.
  unfold purge, slice_delete. destruct (s_key sl) as [r|] eqn:Hk; [|done].
  destruct (expiredWhere now r) eqn:He; [|done].
  unfold abs_entry. rewrite Hk. simpl. by rewrite aliveWhere_negb, He.
Qed.

#[export] Hint Resolve purge_live purge_wf : sqlresp.

Section helpers.
Context (F : Prop) (ns : Z) (T0 : Tables) (key : string) (db : Z).
Abbreviation k := (key, db).
Abbreviation now := (unix_milli ns).

Lemma wp_nowMs {A} (f : Z → prog A) Q sl σ :
  quiet ns T0 k sl σ → (∀ σ', quiet ns T0 k sl σ' → wp F (f now) Q σ') →
  wp F (bind nowMs f) Q σ.
Proof. intros Hq Hf. change (wp F (Vis Now (λ x, f (unix_milli x))) Q σ). by eapply wp_slice_now. Qed.

Lemma wp_nowMs_tx {A} (f : Z → prog A) Q sl slw σ :
  in_tx ns T0 k sl slw σ → (∀ σ', in_tx ns T0 k sl slw σ' → wp F (f now) Q σ') →
  wp F (bind nowMs f) Q σ.
Proof. intros Hq Hf. change (wp F (Vis Now (λ x, f (unix_milli x))) Q σ). by eapply wp_tx_now. Qed.

Lemma wp_deleteExpired sl Q σ :
  quiet ns T0 k sl σ →
  (∀ σ', quiet ns T0 k (purge now sl) σ' → Q (inr tt) σ') →
  (F → ∀ e σ', quiet ns T0 k sl σ' ∨ quiet ns T0 k (purge now sl) σ' → Q (inl (ErrDb e)) σ') →
  wp F (deleteExpired key db) Q σ.
Proof.
  intros Hq Hok Herr. unfold deleteExpired. eapply wp_nowMs; [done|]. intros σ' Hq'.
  apply wp_err_bind. eapply wp_slice_exec; [done|done| |done|done].
  simpl. f_equal. apply surjective_pairing.
Qed.

(** [keyType] on live rows: the type column, or [""] without a row. *)
Lemma wp_keyType sl Q σ :
  live now sl → quiet ns T0 k sl σ →
  (∀ σ', quiet ns T0 k sl σ' →
     Q (inr (match s_key sl with Some r => kr_type r | None => "" end)) σ') →
  (F → ∀ e σ', quiet ns T0 k sl σ' → Q (inl (ErrDb e)) σ') →
  wp F (keyType key db) Q σ.
Proof.
  intros Hlive Hq Hok Herr. unfold keyType. eapply wp_nowMs; [done|]. intros σ' Hq'.
  apply wp_bind. eapply wp_slice_query_row; [done..| |].
  - simpl. destruct (s_key sl) as [r|] eqn:Hk; [|by apply Hok].
    rewrite (Hlive r Hk). by apply Hok.
  - intros HF e. by apply Herr.
Qed.

(** [assertType]: passes on an absent key and on the wanted type. *)
Lemma wp_assertType sl want Q σ :
  live now sl → quiet ns T0 k sl σ →
  (∀ r, s_key sl = Some r → kr_type r ≠ "") →
  (∀ σ', quiet ns T0 k sl σ' → (∀ r, s_key sl = Some r → kr_type r = want) → Q (inr tt) σ') →
  (∀ σ' r, quiet ns T0 k sl σ' → s_key sl = Some r → kr_type r ≠ want → Q (inl ErrWrongType) σ') →
  (F → ∀ e σ', quiet ns T0 k sl σ' → Q (inl (ErrDb e)) σ') →
  wp F (assertType key db want) Q σ.
Proof.
  intros Hlive Hq Hne Hok Hwrong Herr. unfold assertType. apply wp_err_bind.
  eapply wp_keyType; [done|done| |done]. intros σ' Hq'.
  destruct (s_key sl) as [r|] eqn:Hk.
  - case_decide as Hd; [by eapply Hwrong; [| |apply Hd]|].
    apply Hok; [done|]. intros r' ?; simplify_eq.
    destruct (decide (kr_type r' = want)); [done|]. destruct Hd; auto.
  - case_decide as Hd; [by destruct Hd as [? _]|]. by apply Hok.
Qed.
End helpers.

(** The prologue [deleteExpired; assertType] of every typed operation, for any
    postcondition: the body runs on live rows of the wanted type that stand
    for the same entry. *)
Lemma wp_guarded_any F ns T0 key db want {A} (body : prog (result A)) Q sl σ :
  let same sl' := wf_slice sl' ∧ abs_entry (unix_milli ns) sl' = abs_entry (unix_milli ns) sl in
  wf_slice sl → quiet ns T0 (key, db) sl σ →
  (∀ sl' σ', same sl' → has_type sl' want → live (unix_milli ns) sl' →
     quiet ns T0 (key, db) sl' σ' → wp F body Q σ') →
  (∀ sl' σ' en, same sl' → quiet ns T0 (key, db) sl' σ' →
     abs_entry (unix_milli ns) sl = Some en → type_name (e_val en) ≠ want →
     Q (inl ErrWrongType) σ') →
  (F → ∀ c sl' σ', same sl' → quiet ns T0 (key, db) sl' σ' → Q (inl (ErrDb c)) σ') →
  wp F (err_bind (deleteExpired key db) (λ _, err_bind (assertType key db want) (λ _, body))) Q σ.
Proof.
  intros same Hsl Hq Hbody Hwrong Hfail. apply wp_err_bind.
  set (sl1 := purge (unix_milli ns) sl) in *.
  assert (same sl1) as Hsame by (split; [by apply purge_wf|apply purge_abs]).
  eapply wp_deleteExpired; [done| |].
  - intros σ1 Hq1. assert (live (unix_milli ns) sl1) as Hlive by apply purge_live.
    apply wp_err_bind. eapply wp_assertType; [done|done|..].
    + intros r. apply wf_type_nonempty, Hsame.
    + intros σ2 Hq2 Ht. by apply (Hbody sl1).
    + intros σ2 r Hq2 Hr Hne.
      destruct (wf_slice_value _ _ (proj1 Hsame) Hr) as (v & Hv & Htv).
      eapply (Hwrong sl1 σ2 (mkEntry v (kr_expires_at r))); [done|done| |simpl; congruence].
      rewrite <- (proj2 Hsame). unfold abs_entry. rewrite Hr. simpl. by rewrite (Hlive r Hr), Hv.
    + intros HF e σ2 Hq2. by eapply Hfail.
  - intros HF e σ1 [Hq1|Hq1]; [apply (Hfail HF _ sl)|apply (Hfail HF _ sl1)]; done.
Qed.

(** ... and for the contract of an operation on one entry. *)
Lemma wp_guarded_at F ns T0 key db want {A} (body : prog (result A)) g crash sl σ :
  let e := abs_entry (unix_milli ns) sl in
  let post := entry_post F ns T0 (key, db) (expect want g) crash e in
  (∀ c, crash e (inl (ErrDb c)) e) →
  wf_slice sl → quiet ns T0 (key, db) sl σ →
  (∀ sl σ, wf_slice sl → has_type sl want → live (unix_milli ns) sl →
     quiet ns T0 (key, db) sl σ → abs_entry (unix_milli ns) sl = e → wp F body post σ) →
  wp F (err_bind (deleteExpired key db) (λ _, err_bind (assertType key db want) (λ _, body))) post σ.
Proof.
  intros e post Hcrash Hsl Hq Hbody. eapply wp_guarded_any; [done|done|..].
  - intros sl' σ' [Hsl' Ha] Ht Hlive Hq'. by eapply Hbody.
  - intros sl' σ' en [Hsl' Ha] Hq' Hen Hne. eapply entry_post_ok; [done..|].
    rewrite Ha. unfold e. rewrite Hen. simpl. by rewrite decide_False.
  - intros HF c sl' σ' [Hsl' Ha] Hq'. eapply entry_post_crash; [done..|]. rewrite Ha. apply Hcrash.
Qed.

Lemma wp_guarded F ns T0 key db want {A} (body : prog (result A)) g crash sl σ :
  let post e := entry_post F ns T0 (key, db) (expect want g) crash e in
  (∀ e c, crash e (inl (ErrDb c)) e) →
  wf_slice sl → quiet ns T0 (key, db) sl σ →
  (∀ sl σ, wf_slice sl → has_type sl want → live (unix_milli ns) sl →
     quiet ns T0 (key, db) sl σ → wp F body (post (abs_entry (unix_milli ns) sl)) σ) →
  wp F (err_bind (deleteExpired key db) (λ _, err_bind (assertType key db want) (λ _, body)))
    (post (abs_entry (unix_milli ns) sl)) σ.
Proof.
  intros post Hcrash Hsl Hq Hbody. apply wp_guarded_at; [done..|].
  intros sl' σ' Hsl' Ht Hlive Hq' <-. by apply Hbody.
Qed.

(** ... and for an operation that reads in no particular order. *)
Lemma meets_reads_one_of F ns key db want {A} (body : prog (result A)) (P : option entry → A → Prop) σ :
  ready ns σ →
  (∀ T0 sl σ', wf_slice sl → has_type sl want → live (unix_milli ns) sl →
     quiet ns T0 (key, db) sl σ' →
     wp F body (λ r σ'', quiet ns T0 (key, db) sl σ'' ∧
       ((∃ x, r = inr x ∧ P (abs_entry (unix_milli ns) sl) x) ∨ F ∧ ∃ c, r = inl (ErrDb c))) σ') →
  meets F ns (err_bind (deleteExpired key db) (λ _, err_bind (assertType key db want) (λ _, body)))
    (reads_one_of (key, db) want P) σ.
Proof.
  intros [Hwf Hidle] Hbody. unfold meets.
  set (sl := slice_of (com σ) (key, db)). set (now := unix_milli ns).
  assert (∀ sl' σ' (r : result A), wf_slice sl' ∧ abs_entry now sl' = abs_entry now sl →
    quiet ns (com σ) (key, db) sl' σ' → ready ns σ' ∧ abs now (com σ') = abs now (com σ)) as Hsame.
  { intros sl' σ' r [Hsl' Ha] [Hidle' Hu]. split; [split; [by eapply updates_wf|done]|].
    rewrite (updates_abs _ _ _ _ _ Hu), Ha. unfold sl. rewrite <- lookup_abs.
    by apply partial_alter_self. }
  eapply (wp_guarded_any _ ns (com σ)); [apply Hwf|by apply quiet_start|..].
  - intros sl' σ' Hs Ht Hlive Hq. eapply wp_mono; [|by eapply (Hbody (com σ)); [apply Hs|..]].
    intros r σ'' [Hq' Hr]. destruct (Hsame _ _ r Hs Hq') as [Hready Habs].
    split; [done|]. fold now. rewrite Habs.
    assert (abs_entry now sl' = abs_entry now sl) as Ha by apply Hs. fold now in Hr. rewrite Ha in Hr.
    destruct Hr as [(x & -> & HP)|[HF (c & ->)]]; [left|right; split; [done|]]; (split; [done|]);
      [|by eexists].
    rewrite lookup_abs. fold sl. destruct (abs_entry now sl) as [en|] eqn:Hen; [|eauto].
    assert (type_name (e_val en) = want) as Hty; [|rewrite decide_True by done; eauto].
    destruct Hs as [Hwf' Ha']. change (abs_entry now sl' = abs_entry now sl) in Ha'.
    fold now in Hlive. rewrite <- Ha' in Hen. unfold abs_entry in Hen.
    destruct (s_key sl') as [row|] eqn:Hk; [|done]. simpl in Hen. rewrite (Hlive row Hk) in Hen.
    destruct (wf_slice_value sl' row Hwf' Hk) as (v & Hv & Htv). rewrite Hv in Hen.
    simplify_eq/=. by rewrite Htv, (Ht row Hk).
  - intros sl' σ' en Hs Hq Hen Hne. destruct (Hsame _ _ (inl ErrWrongType) Hs Hq) as [Hready Habs].
    split; [done|]. left. fold now. rewrite Habs. split; [done|]. rewrite lookup_abs. fold sl.
    change (abs_entry now sl = Some en) in Hen. rewrite Hen. by rewrite decide_False.
  - intros HF c sl' σ' Hs Hq. destruct (Hsame _ _ (inl (ErrDb c)) Hs Hq) as [Hready Habs].
    split; [done|]. right. split; [done|]. fold now. split; [done|by eexists].
Qed.

(** The [lEnsure], [hEnsure] and [sEnsure] prologue: the guarded one with the
    insertion of the key's row in front of the body. *)
Lemma wp_ensured F key db want {A} (body : prog (result A)) Q σ :
  wp F (err_bind (deleteExpired key db) (λ _, err_bind (assertType key db want) (λ _,
    err_bind (exec DB (InsertKeyIgnore (key, db) want)) (λ _, body)))) Q σ →
  wp F (err_bind (err_bind (deleteExpired key db) (λ _, err_bind (assertType key db want) (λ _,
    err_bind (exec DB (InsertKeyIgnore (key, db) want)) (λ _, ok tt)))) (λ _, body)) Q σ.
Proof.
  intros Hwp. apply wp_err_bind_assoc. rewrite wp_err_bind_iff in *.
  eapply wp_mono; [|exact Hwp]. intros [e|[]] σ1 H1; [done|].
  apply wp_err_bind_assoc. rewrite wp_err_bind_iff in *.
  eapply wp_mono; [|exact H1]. intros [e|[]] σ2 H2; [done|].
  apply wp_err_bind_assoc. rewrite wp_err_bind_iff in *.
  eapply wp_mono; [|exact H2]. by intros [e|n] σ3 H3.
Qed.

(** A loop of deletions, one statement per key of a map kept in rows. *)
Lemma wp_delete_loop {A} F ns T0 k (st : string → stmt) (mk : gmap string A → slice) m fields Q σ :
  let gone ks := Z.of_nat (size m) - Z.of_nat (size (without ks m)) in
  (∀ f, stmt_key (st f) = Some k) →
  (∀ f m, slice_exec (st f) (mk m) =
     Some (Z.of_nat (size m) - Z.of_nat (size (delete f m)), mk (delete f m))) →
  quiet ns T0 k (mk m) σ →
  (∀ σ', quiet ns T0 k (mk (without fields m)) σ' → Q (inr (gone fields)) σ') →
  (F → ∀ c σ' ks, ks `prefix_of` fields → quiet ns T0 k (mk (without ks m)) σ' → Q (inl (ErrDb c)) σ') →
  wp F (for_each fields 0 (λ n f, n' ⇐? exec DB (st f); ok (n + n'))) Q σ.
Proof.
  intros gone Hkey Hst Hq Hok Herr.
  apply (wp_for_each _ (λ done n σ, n = gone done ∧ quiet ns T0 k (mk (without done m)) σ)).
  - unfold gone. rewrite without_nil. split; [lia|done].
  - intros done f todo n σ' Hf [-> Hq']. apply wp_err_bind. eapply wp_slice_exec; [done|done|apply Hst|..].
    + intros σ'' Hq''. apply wp_ret. unfold gone. rewrite without_snoc. split; [lia|done].
    + intros HF c σ'' [Hq''|Hq'']; [apply (Herr HF _ _ done)|apply (Herr HF _ _ (done ++ [f]))]; try done.
      * rewrite Hf. by eexists.
      * rewrite Hf. exists todo. by rewrite <- app_assoc.
      * by rewrite without_snoc.
  - intros n σ' [-> Hq']. by apply Hok.
Qed.

Lemma atomic_crash {A} (f : option entry → result A * option entry) e c :
  atomic f e (inl (ErrDb c)) e.
Proof. split; [by eexists|by left]. Qed.

Lemma atomic_new {A} (f : option entry → result A * option entry) e c :
  atomic f e (inl (ErrDb c)) (f e).2.
Proof. split; [by eexists|by right]. Qed.

Lemma db_error_db {A} c : db_error (A := A) (inl (ErrDb c)).
Proof. by eexists. Qed.

#[export] Hint Resolve atomic_crash atomic_new db_error_db : sqlresp.

Lemma stored_alive now v exp typ :
  aliveWhere now (mkKeyRow typ exp) = true → stored now v exp = Some (mkEntry v exp).
Proof. intros Ha. unfold stored. change (aliveWhere now (mkKeyRow typ exp) = true) with
  (aliveWhere now (mkKeyRow (type_name v) exp) = true) in Ha. by rewrite Ha. Qed.

Lemma crash_old {A} F ns T0 k (f : option entry → result A * option entry) crash sl c σ :
  quiet ns T0 k sl σ → wf_slice sl → F → (∀ e c, crash e (inl (ErrDb c)) e) →
  entry_post F ns T0 k f crash (abs_entry (unix_milli ns) sl) (inl (ErrDb c)) σ.
Proof. intros. by eapply entry_post_crash. Qed.

#[export] Hint Resolve crash_old : sqlresp.

(** Reduce [stored] on rows known to be alive. *)
Ltac live_entries :=
  rewrite ?abs_string, ?abs_list, ?abs_hash, ?abs_set, ?abs_zset;
  repeat match goal with
  | H : live ?now (mkSlice (Some (mkKeyRow ?typ ?exp)) _ _ _ _ _) |- _ =>
      specialize (H _ eq_refl); try change (aliveWhere now (mkKeyRow typ exp) = true) in H
  | H : aliveWhere ?now (mkKeyRow ?typ ?exp) = true |- context [stored ?now ?v ?exp] =>
      rewrite (stored_alive now v exp typ H)
  end; simpl.

(** One step of symbolic execution on the rows of the current key. *)
Ltac sql_step :=
  lazymatch goal with
  | |- wp _ (err_bind _ _) _ _ => apply wp_err_bind
  | |- wp _ (bind nowMs _) _ _ =>
      first [ eapply wp_nowMs_tx; [eassumption|intros ? ?]
            | eapply wp_nowMs; [eassumption|intros ? ?] ]
  | |- wp _ (bind _ _) _ _ => apply wp_bind
  | |- wp _ (upsertKey _ _ _ _) _ _ => unfold upsertKey
  | |- wp _ (exec DB _) _ _ =>
      eapply wp_slice_exec; [eassumption|reflexivity|reflexivity|intros ? ?|intros ? ? ? [?|?]]
  | |- wp _ (exec TX _) _ _ =>
      eapply wp_slice_exec_tx; [eassumption|reflexivity|reflexivity|intros ? ?|intros ? ? ? ? ?]
  | |- wp _ (query_row DB _) _ _ =>
      eapply wp_slice_query_row; [eassumption|reflexivity|reflexivity| |intros ? ?]
  | |- wp _ (query_row TX _) _ _ =>
      eapply wp_slice_query_row_tx; [eassumption|reflexivity|reflexivity| |intros ? ?]
  | |- wp _ (query_all DB _) _ _ =>
      eapply wp_slice_query_all; [eassumption|reflexivity|intros ? ?|intros ? ?]
  | |- wp _ (with_tx _) _ _ =>
      eapply wp_slice_with_tx; [eassumption|intros ? ?|intros ? ?]
  | |- wp _ commit _ _ =>
      eapply wp_slice_commit; [eassumption|intros ? ?|intros ? ? ? [?|?]]
  | |- wp _ (Ret _) _ _ => apply wp_ret
  | |- wp _ (ok _) _ _ => apply wp_ret
  | |- wp _ (err _) _ _ => apply wp_ret
  | |- wp _ (checked (Some _)) _ _ => apply wp_ret
  end; cbv beta iota.

(** The state after the deferred rollback. *)
Ltac rolled_back :=
  repeat match goal with
  | H : in_tx _ _ _ _ _ ?σ |- context [set_work None ?σ] => apply in_tx_rollback in H
  | H : quiet _ _ _ _ ?σ |- context [set_work None ?σ] => apply quiet_rollback in H
  end.

(** Conditions on the expiry time of a live key. *)
Ltac use_live :=
  repeat match goal with
  | H : aliveWhere ?now ?r = true |- context [aliveWhere ?now ?r] => rewrite H
  end.

(** Write the updated rows of the current key as a plain record. *)
Ltac norm_slices :=
  cbv [with_key with_str with_list with_hash with_set with_zset] in *;
  change (s_key empty_slice) with (@None KeyRow) in *;
  change (s_str empty_slice) with (@None string) in *;
  change (s_list empty_slice) with (∅ : gmap Z string) in *;
  change (s_hash empty_slice) with (∅ : gmap string string) in *;
  change (s_set empty_slice) with (∅ : gmap string unit) in *;
  change (s_zset empty_slice) with (∅ : gmap string float64) in *;
  cbn [s_key s_str s_list s_hash s_set s_zset kr_type kr_expires_at] in *.

Ltac solve_wf := first [assumption | constructor; solve [eauto with sqlresp]].

(** Close a branch that ends in the specified outcome ... *)
Ltac done_ok :=
  rolled_back; norm_slices; eapply entry_post_ok; [eassumption|solve_wf|simpl; live_entries; try done].

(** ... or in a failure of the engine. *)
Ltac done_crash :=
  rolled_back; norm_slices; eapply entry_post_crash; [eassumption|solve_wf|assumption|].

Ltac close_atomic :=
  done_crash; first
    [ by auto with sqlresp
    | split; [apply db_error_db|]; simpl; live_entries; first [by left | by right] ].

Ltac close_entry := first [by done_ok | by close_atomic].

(** The same, with [tac] evaluating the specification on the current value. *)
Tactic Notation "close_entry" "by" tactic3(tac) :=
  first
    [ by done_ok; tac
    | by done_crash; split; [apply db_error_db|]; simpl; live_entries; tac;
        first [by left | by right] ].

(** Enter a one-key operation and its prologue. *)
Ltac start_entry :=
  intros; apply meets_on_entry; [assumption|];
  let T0 := fresh "T0" in let sl := fresh "sl" in let σ := fresh "σ" in
  let Hsl := fresh "Hsl0" in let Hq := fresh "Hq0" in
  intros T0 sl σ Hsl Hq.

Ltac enter_guarded cases :=
  apply wp_guarded; [by intros; hnf; auto with sqlresp|assumption|assumption|];
  let sl := fresh "sl" in let σ := fresh "σ" in
  let Hsl := fresh "Hsl" in let Ht := fresh "Ht" in let Hlive := fresh "Hlive" in
  intros sl σ Hsl Ht Hlive ?;
  destruct (cases _ Hsl Ht) as [->|(? & ? & ->)]; [|specialize (Hlive _ eq_refl)].

(** ** [Get] and [Set] *)

Lemma meets_Get F ns key dbIdx st :
  ready ns st → meets F ns (Get key dbIdx) (reads (key, dbIdx) "string" str_of) st.
Proof.
  start_entry. unfold Get. enter_guarded wf_string_cases; repeat sql_step; close_entry.
Qed.

(** C33: [GET] returns the value of a live string key, nothing for an absent or
    expired key, and [WRONGTYPE] for a key of another type. *)
Theorem Get_correct `{Engine E} (w : E) ns key dbIdx :
  ready ns (view w) → outcome ns w (Get key dbIdx) (reads (key, dbIdx) "string" str_of).
Proof. intros Hr. by apply meets_outcome, meets_Get. Qed.

Definition present (e : option entry) : bool := match e with Some _ => true | None => false end.

(** What [SET] does to the entry of its key at time [now]. *)
Definition set_spec (now : Z) (value : string) (opts : SetOptions) (e : option entry)
    : result bool * option entry :=
  if NX opts && present e || XX opts && negb (present e) then (inr false, e)
  else (inr true, stored now (RStr value) (ExpiresAt opts)).

(** On a failing engine [SET] is still all or nothing, and its reply still
    tells the truth about the write, but the source drops the error of its
    existence check, so a condition may be judged wrongly. *)
Definition set_crash (now : Z) (value : string) (opts : SetOptions)
    (e : option entry) (r : result bool) (e' : option entry) : Prop :=
  let new := stored now (RStr value) (ExpiresAt opts) in
  match r with
  | inr true => e' = new
  | inr false => e' = e
  | inl _ => db_error r ∧ (e' = e ∨ e' = new)
  end.

(** The writing half of [SET] inside its transaction. *)
Lemma wp_set_write F ns T0 key db value opts sl Q σ :
  wf_slice sl → has_type sl "string" → in_tx ns T0 (key, db) sl sl σ →
  let new := string_slice (ExpiresAt opts) value in
  (∀ σ', quiet ns T0 (key, db) new σ' → Q (inr true) σ') →
  (F → ∀ e σ' sl', in_tx ns T0 (key, db) sl sl' σ' → Q (inl (ErrDb e)) σ') →
  (F → ∀ e σ' sl', quiet ns T0 (key, db) sl' σ' → sl' = sl ∨ sl' = new → Q (inl (ErrDb e)) σ') →
  wp F (_ ⇐? upsertKey key db "string" (ExpiresAt opts);
        _ ⇐? exec TX (UpsertString (key, db) value); _ ⇐? commit; ok true) Q σ.
Proof.
  intros Hsl Ht Hq new Hok Htx Herr.
  destruct (wf_string_cases _ Hsl Ht) as [->|(? & ? & ->)];
    repeat sql_step; eauto.
Qed.

Lemma meets_Set F ns key dbIdx value opts st :
  ready ns st →
  let now := unix_milli ns in
  meets F ns (Set_ key dbIdx value opts)
    (on_entry (key, dbIdx) (expect "string" (set_spec now value opts)) (set_crash now value opts)) st.
Proof.
  start_entry. unfold Set_. enter_guarded wf_string_cases; repeat sql_step;
    try (by done_crash; hnf; auto with sqlresp).
  all: destruct (NX opts) eqn:HNX, (XX opts) eqn:HXX; simpl; use_live; simpl.
  all: first [eapply wp_set_write; [done..|intros|intros|intros ? ? ? ? ? [->| ->]]|sql_step].
  all: try (by done_ok; unfold set_spec; rewrite ?HNX, ?HXX).
  all: done_crash; simpl; auto with sqlresp.
Qed.

(** C11: SET with its NX and XX conditions and deadline, on every branch,
    replaces the entry of a live string key, refuses a key of another type
    and touches no other key; on a failing engine it is all or nothing. *)
Theorem Set_correct `{Engine E} (w : E) ns key dbIdx value opts :
  ready ns (view w) →
  let now := unix_milli ns in
  outcome ns w (Set_ key dbIdx value opts)
    (on_entry (key, dbIdx) (expect "string" (set_spec now value opts)) (set_crash now value opts)).
Proof. intros Hr. by apply meets_outcome, meets_Set. Qed.

(** ** Expiry times *)

(** The prologue [deleteExpired] alone: the body runs on live rows. *)
Lemma wp_purged F ns T0 key db {A} (body : prog (result A)) f crash sl σ :
  let post e := entry_post F ns T0 (key, db) f crash e in
  (∀ e c, crash e (inl (ErrDb c)) e) →
  wf_slice sl → quiet ns T0 (key, db) sl σ →
  (∀ sl σ, wf_slice sl → live (unix_milli ns) sl → quiet ns T0 (key, db) sl σ →
     wp F body (post (abs_entry (unix_milli ns) sl)) σ) →
  wp F (err_bind (deleteExpired key db) (λ _, body)) (post (abs_entry (unix_milli ns) sl)) σ.
Proof.
  intros post Hcrash Hsl Hq Hbody. apply wp_err_bind. eapply wp_deleteExpired; [done| |].
  - intros σ1 Hq1. rewrite <- purge_abs. auto using purge_wf, purge_live.
  - intros HF e σ1 [Hq1|Hq1]; (eapply entry_post_crash; [done|by auto using purge_wf|done|]);
      [|rewrite purge_abs]; apply Hcrash.
Qed.

Ltac enter_purged :=
  apply wp_purged; [by intros; hnf; auto with sqlresp|assumption|assumption|];
  let sl := fresh "sl" in let σ := fresh "σ" in
  let Hsl := fresh "Hsl" in let Hlive := fresh "Hlive" in
  intros sl σ Hsl Hlive ?;
  destruct Hsl; try specialize (Hlive _ eq_refl).

(** A new deadline: the key expires at [at_], at once if that is past. *)
Definition expire_spec (now at_ : Z) (e : option entry) : result bool * option entry :=
  match e with
  | Some (mkEntry v _) => (inr true, stored now v (Some at_))
  | None => (inr false, None)
  end.

Lemma wp_ExpireAt F ns T0 key db at_ sl σ :
  wf_slice sl → quiet ns T0 (key, db) sl σ →
  wp F (ExpireAt key db at_)
    (entry_post F ns T0 (key, db) (expire_spec (unix_milli ns) at_)
       (atomic (expire_spec (unix_milli ns) at_)) (abs_entry (unix_milli ns) sl)) σ.
Proof. intros. unfold ExpireAt. enter_purged; repeat sql_step; close_entry. Qed.

Lemma meets_Expire F ns key db seconds σ :
  ready ns σ →
  meets F ns (Expire key db seconds)
    (atomically (key, db) (expire_spec (unix_milli ns)
       (unix_milli (ns + wrap64 (seconds * 1000000000))))) σ.
Proof.
  intros Hr. apply meets_on_entry; [done|]. intros T0 sl σ' Hsl Hq. unfold Expire.
  eapply wp_slice_now; [done|]. intros σ'' Hq'. by apply wp_ExpireAt.
Qed.

(** The longest duration in seconds that fits [time.Duration]. *)
Definition max_seconds : Z := max_int64 / 1000000000.

Lemma unix_milli_add ns s : unix_milli (ns + s * 1000000000) = unix_milli ns + s * 1000.
Proof.
  unfold unix_milli. replace (ns + s * 1000000000) with (ns + (s * 1000) * 1000000) by lia.
  by rewrite Z.div_add by lia.
Qed.

(** C34: EXPIRE sets the deadline the given number of seconds ahead for
    every duration that fits time.Duration, and answers whether the key
    exists. *)
Theorem Expire_correct `{Engine E} (w : E) ns key dbIdx seconds :
  ready ns (view w) → - max_seconds ≤ seconds ≤ max_seconds →
  let now := unix_milli ns in
  outcome ns w (Expire key dbIdx seconds)
    (atomically (key, dbIdx) (expire_spec now (now + seconds * 1000))).
Proof.
  intros Hr Hs now. unfold now. rewrite <- unix_milli_add.
  rewrite <- (wrap64_id (seconds * 1000000000)).
  - by apply meets_outcome, meets_Expire.
  - change max_seconds with 9223372036 in Hs. unfold int64_ok, min_int64, max_int64. lia.
Qed.

(** A duration of [max_seconds + 1] up to [2 * max_seconds + 1] seconds wraps
    around to a negative one: the command reports success and the key is gone. *)
Definition expire_gone (e : option entry) : result bool * option entry :=
  (inr (present e), None).

Lemma expire_wrapped ns seconds e :
  max_seconds < seconds ≤ 2 * max_seconds + 1 →
  expire_spec (unix_milli ns) (unix_milli (ns + wrap64 (seconds * 1000000000))) e = expire_gone e.
Proof.
  intros Hs. destruct e as [[v exp]|]; [|done]. unfold expire_spec, expire_gone, stored; simpl.
  change max_seconds with 9223372036 in Hs.
  unfold aliveWhere; simpl. rewrite bool_decide_eq_false_2; [done|].
  rewrite wrap64_over by (unfold max_int64; lia).
  apply Z.le_ngt, Z.div_le_mono; lia.
Qed.

(** EXPIRE with a duration beyond int64 nanoseconds reports success and
    makes the key vanish. *)
Theorem Expire_overflow `{Engine E} (w : E) ns key dbIdx seconds :
  ready ns (view w) → max_seconds < seconds ≤ 2 * max_seconds + 1 →
  outcome ns w (Expire key dbIdx seconds) (atomically (key, dbIdx) expire_gone).
Proof.
  intros Hr Hs. eapply outcome_ext; [by apply expire_wrapped|].
  by apply meets_outcome, meets_Expire.
Qed.

Lemma meets_PExpire F ns key dbIdx ms st :
  ready ns st →
  let now := unix_milli ns in
  meets F ns (PExpire key dbIdx ms)
    (atomically (key, dbIdx) (expire_spec now (wrap64 (now + ms)))) st.
Proof.
  intros Hr now. apply meets_on_entry; [done|]. intros T0 sl σ Hsl Hq.
  unfold PExpire. sql_step. by apply wp_ExpireAt.
Qed.

(** ... in milliseconds from now. *)
Theorem PExpire_correct `{Engine E} (w : E) ns key dbIdx ms :
  ready ns (view w) →
  let now := unix_milli ns in
  outcome ns w (PExpire key dbIdx ms)
    (atomically (key, dbIdx) (expire_spec now (wrap64 (now + ms)))).
Proof. intros Hr. by apply meets_outcome, meets_PExpire. Qed.

(** ** [TTL], [PERSIST], [TYPE] *)

Definition ttl_spec (now : Z) (millis : bool) (e : option entry) : Z :=
  match e with
  | None => -2
  | Some (mkEntry _ None) => -1
  | Some (mkEntry _ (Some at_)) =>
      let rem := wrap64 (at_ - now) in
      if decide (rem < 0) then -2 else if millis then rem else Z.quot rem 1000
  end.

Lemma meets_ttl F ns key db millis σ :
  ready ns σ →
  meets F ns (ttl key db millis) (reads_any (key, db) (ttl_spec (unix_milli ns) millis)) σ.
Proof.
  intros Hr. apply meets_on_entry; [done|]. intros T0 sl σ' Hsl Hq. unfold ttl.
  enter_purged; repeat sql_step; try close_entry.
  all: destruct exp as [at_|]; simpl; repeat sql_step; try close_entry.
  all: case_decide as Hd; [|destruct millis]; sql_step; done_ok; by case_decide.
Qed.

(** A visible deadline lies in the future. *)
Lemma abs_deadline now T k v at_ :
  Some (mkEntry v (Some at_)) = abs now T !! k → now < at_.
Proof.
  rewrite lookup_abs. unfold abs_entry. destruct (s_key _) as [r|]; [|done]; simpl.
  destruct (aliveWhere now r) eqn:Ha; [|done]. destruct (slice_value _ _); [|done]; simpl.
  intros [= -> Hr]. unfold aliveWhere in Ha. rewrite <- Hr in Ha.
  by apply bool_decide_eq_true_1 in Ha.
Qed.

(** The exact remaining time of a key with an int64 deadline. *)
Definition ttl_exact (now : Z) (millis : bool) (e : option entry) : Z :=
  match e with
  | None => -2
  | Some (mkEntry _ None) => -1
  | Some (mkEntry _ (Some at_)) => if millis then at_ - now else (at_ - now) / 1000
  end.

(** TTL and PTTL answer the exact remaining time, -1 without a deadline
    and -2 without a key. *)
Theorem TTL_correct `{Engine E} (w : E) ns key dbIdx millis :
  ready ns (view w) →
  let now := unix_milli ns in
  0 ≤ now →
  (∀ e at_, abs now (com (view w)) !! (key, dbIdx) = Some e → e_exp e = Some at_ → int64_ok at_) →
  outcome ns w (ttl key dbIdx millis) (reads_any (key, dbIdx) (ttl_exact now millis)).
Proof.
  intros Hr now Hnow Hint. eapply outcome_ext; [|by apply meets_outcome, meets_ttl].
  fold now. set (e := abs now (com (view w)) !! (key, dbIdx)) in *.
  assert (e = abs now (com (view w)) !! (key, dbIdx)) as He by done. clearbody e.
  destruct e as [[v [at_|]]|]; [|done..].
  assert (now < at_) as Hlt by by eapply abs_deadline.
  specialize (Hint _ _ eq_refl eq_refl). unfold ttl_spec, ttl_exact.
  unfold int64_ok, min_int64, max_int64 in Hint.
  rewrite wrap64_id by (unfold int64_ok, min_int64, max_int64; lia).
  rewrite decide_False by lia. by rewrite Z.quot_div_nonneg by lia.
Qed.

Definition persist_spec (e : option entry) : result bool * option entry :=
  match e with
  | Some (mkEntry v (Some _)) => (inr true, Some (mkEntry v None))
  | _ => (inr false, e)
  end.

(** The source reads any failure of its query as "no expiry", so a failing
    engine may also make [PERSIST] report [false]. *)
Definition persist_crash (e : option entry) (r : result bool) (e' : option entry) : Prop :=
  r = inr false ∧ e' = e ∨ atomic persist_spec e r e'.

Lemma meets_Persist F ns key dbIdx st :
  ready ns st →
  meets F ns (Persist key dbIdx) (on_entry (key, dbIdx) persist_spec persist_crash) st.
Proof.
  start_entry. unfold Persist.
  enter_purged; repeat sql_step; try destruct exp as [at_|]; simpl; repeat sql_step.
  all: first [by done_ok|done_crash; unfold persist_crash, atomic; live_entries].
  all: first [by left|right; split; [apply db_error_db|]; auto].
Qed.

(** PERSIST removes a deadline and answers whether there was one. *)
Theorem Persist_correct `{Engine E} (w : E) ns key dbIdx :
  ready ns (view w) →
  outcome ns w (Persist key dbIdx) (on_entry (key, dbIdx) persist_spec persist_crash).
Proof. intros Hr. by apply meets_outcome, meets_Persist. Qed.

(** [TYPE] names the type of a live key and says [none] otherwise. *)
Definition type_spec (e : option entry) : string :=
  match e with Some (mkEntry v _) => type_name v | None => "none" end.

Lemma meets_Type F ns key dbIdx st :
  ready ns st → meets F ns (Type_ key dbIdx) (reads_any (key, dbIdx) type_spec) st.
Proof.
  start_entry. unfold Type_. apply wp_purged; [by intros; hnf; auto with sqlresp|done..|].
  clear sl σ Hsl0 Hq0. intros sl σ Hsl Hlive Hq. sql_step. eapply wp_keyType; [done..| |].
  - intros σ' Hq'. destruct Hsl; try specialize (Hlive _ eq_refl); simpl; sql_step; by done_ok.
  - intros HF e σ' Hq'. by close_entry.
Qed.

Theorem Type_correct `{Engine E} (w : E) ns key dbIdx :
  ready ns (view w) → outcome ns w (Type_ key dbIdx) (reads_any (key, dbIdx) type_spec).
Proof. intros Hr. by apply meets_outcome, meets_Type. Qed.

(** ** Witnesses *)

Lemma Get_correct_witness :
  (run (Get "n" 0) sample).1 = inr (Some "10") ∧
  outcome sample_ns sample (Get "n" 0) (reads ("n", 0) "string" str_of).
Proof. split; [by vm_compute|]. apply (Get_correct sample sample_ns "n" 0). apply sample_ready. Defined.

Lemma Set_correct_witness :
  (run (Set_ "n" 0 "v" (mkSetOptions (Some 3000) true false false)) sample).1 = inr false ∧
  outcome sample_ns sample (Set_ "n" 0 "v" (mkSetOptions (Some 3000) true false false)) (on_entry ("n", 0) (expect "string" (set_spec (unix_milli sample_ns) "v" (mkSetOptions (Some 3000) true false false))) (set_crash (unix_milli sample_ns) "v" (mkSetOptions (Some 3000) true false false))).
Proof. split; [by vm_compute|]. apply (Set_correct sample sample_ns "n" 0 "v" (mkSetOptions (Some 3000) true false false)). apply sample_ready. Defined.

Lemma Expire_correct_witness :
  (run (Expire "n" 0 5) sample).1 = inr true ∧
  outcome sample_ns sample (Expire "n" 0 5) (atomically ("n", 0) (expire_spec (unix_milli sample_ns) 6000)).
Proof. split; [by vm_compute|]. apply (Expire_correct sample sample_ns "n" 0 5); [apply sample_ready|by vm_compute]. Defined.

Lemma Expire_overflow_witness :
  (run (Expire "n" 0 9223372037) sample).1 = inr true ∧
  outcome sample_ns sample (Expire "n" 0 9223372037) (atomically ("n", 0) expire_gone).
Proof. split; [by vm_compute|]. apply (Expire_overflow sample sample_ns "n" 0 9223372037); [apply sample_ready|by vm_compute]. Defined.

Lemma PExpire_correct_witness :
  (run (PExpire "n" 0 50) sample).1 = inr true ∧
  outcome sample_ns sample (PExpire "n" 0 50) (atomically ("n", 0) (expire_spec (unix_milli sample_ns) 1050)).
Proof. split; [by vm_compute|]. apply (PExpire_correct sample sample_ns "n" 0 50). apply sample_ready. Defined.

Lemma TTL_correct_witness :
  (run (TTL "t" 0) sample).1 = inr 4 ∧
  outcome sample_ns sample (ttl "t" 0 false) (reads_any ("t", 0) (ttl_exact (unix_milli sample_ns) false)).
Proof. split; [by vm_compute|]. apply (TTL_correct sample sample_ns "t" 0 false); [apply sample_ready|done|].
  intros e at_ He Hat. vm_compute in He. simplify_eq/=. by vm_compute. Defined.

Lemma Persist_correct_witness :
  (run (Persist "t" 0) sample).1 = inr true ∧
  outcome sample_ns sample (Persist "t" 0) (on_entry ("t", 0) persist_spec persist_crash).
Proof. split; [by vm_compute|]. apply (Persist_correct sample sample_ns "t" 0). apply sample_ready. Defined.

Lemma Type_correct_witness :
  (run (Type_ "l" 0) sample).1 = inr "list" ∧
  outcome sample_ns sample (Type_ "l" 0) (reads_any ("l", 0) type_spec).
Proof. split; [by vm_compute|]. apply (Type_correct sample sample_ns "l" 0). apply sample_ready. Defined.
