(* ===== verification/StoreKeys.v ===== *)
(** Operations on many keys ([src/internal/store/store.go]): deletion,
    existence, the whole-database commands and [Rename], against the
    keyspace contract. *)
From S2P Require Import Prelude GoStd Float Sql Effects Keyspace Sample Store.
Local Open Scope Z_scope.
Local Open Scope go_scope.

(** ** Whole databases *)

Lemma abs_delete_where now P T k :
  abs now (delete_where P T) !! k = if doomed P T k then None else abs now T !! k.
Proof. rewrite !lookup_abs, slice_delete_where. by destruct (doomed P T k). Qed.

Lemma wf_delete_where P T : wf T → wf (delete_where P T).
Proof. intros Hwf k. rewrite slice_delete_where. case_match; [constructor|apply Hwf]. Qed.

Lemma ready_set_com ns T σ : ready ns σ → wf T → ready ns (set_com T σ).
Proof. intros [_ [? ?]] ?. by split. Qed.

Lemma wp_exec_whole F s n T' Q σ :
  work σ = None → sql_exec s (com σ) = Some (n, T') →
  Q (inr n) (set_com T' σ) →
  (F → ∀ e T'', T'' = com σ ∨ T'' = T' → Q (inl (ErrDb e)) (set_com T'' σ)) →
  wp F (exec DB s) Q σ.
Proof.
  intros Hw He Hok Herr. apply wp_exec_db; [done|..].
  - intros n' T'' Hx. by simplify_eq.
  - intros e T'' [[-> [HF|Hnone]]|[HF [n' Hx]]]; simplify_eq; auto.
Qed.

Lemma wp_nowMs_idle F ns {A} (f : Z → prog A) Q σ :
  ready ns σ →
  (∀ σ', ready ns σ' → com σ' = com σ → wp F (f (unix_milli ns)) Q σ') → wp F (bind nowMs f) Q σ.
Proof.
  intros [Hwf [Hw Hc]] Hf. change (wp F (Vis Now (λ x, f (unix_milli x))) Q σ).
  apply wp_now. rewrite Hc. apply Hf; [|done]. split; [done|]. split; [done|].
  intros n. apply Hc.
Qed.

(** The contract of a command on many entries: [f] maps the keyspace. *)
Definition maps_to {A} (f : keyspace → result A * keyspace) : contract A :=
  mkContract (λ a r a', (r, a') = f a)
    (λ a r a', db_error r ∧ (a' = a ∨ a' = (f a).2)).

Lemma abs_filter_delete now (P : kid → bool) T :
  abs now (delete_where (λ k _, P k) T) = filter (λ p, P p.1 = false) (abs now T).
Proof.
  apply map_eq. intros k. rewrite abs_delete_where, map_lookup_filter.
  unfold doomed. destruct (t_keys T !! k) as [r|] eqn:Hk.
  - destruct (P k) eqn:HP; destruct (abs now T !! k); simpl; try done;
      by rewrite HP || rewrite option_guard_True.
  - rewrite lookup_abs. unfold abs_entry; simpl. by rewrite Hk.
Qed.

Lemma meets_delete (F : Prop) (ns : Z) (P : kid → bool) (s : stmt) (n : Z) (f : keyspace → keyspace) (σ : State) :
  ready ns σ →
  sql_exec s (com σ) = Some (n, delete_where (λ k _, P k) (com σ)) →
  (∀ a, f a = filter (λ p, P p.1 = false) a) →
  meets F ns (_ ⇐? exec DB s; ok tt) (maps_to (λ a, (inr tt, f a))) σ.
Proof.
  intros Hr Hs Hf. apply wp_err_bind. eapply wp_exec_whole; [apply Hr|done|..].
  - split; [by apply ready_set_com, wf_delete_where, Hr|]. left. simpl.
    by rewrite abs_filter_delete, Hf.
  - intros HF e T'' [->| ->]; (split; [apply ready_set_com; [done|]|right; split; [done|]]).
    + apply Hr.
    + split; [apply db_error_db|by left].
    + apply wf_delete_where, Hr.
    + split; [apply db_error_db|right]. simpl. by rewrite abs_filter_delete, Hf.
Qed.

Lemma meets_FlushDB F ns dbIdx st :
  ready ns st →
  meets F ns (FlushDB dbIdx)
    (maps_to (λ a, (inr tt, filter (λ p, p.1.2 ≠ dbIdx) a))) st.
Proof.
  intros Hr.
  eapply (meets_delete _ _ (λ k, bool_decide (k.2 = dbIdx)) _ _ (λ a, filter (λ p, p.1.2 ≠ dbIdx) a) _ Hr);
    [done|].
  intros a. apply map_filter_ext. intros k e _; simpl. by rewrite bool_decide_eq_false.
Qed.

(** [FLUSHDB] empties one database and leaves the others alone. *)
Theorem FlushDB_correct `{Engine E} (w : E) ns dbIdx :
  ready ns (view w) →
  outcome ns w (FlushDB dbIdx)
    (maps_to (λ a, (inr tt, filter (λ p, p.1.2 ≠ dbIdx) a))).
Proof. intros Hr. by apply meets_outcome, meets_FlushDB. Qed.

Lemma meets_FlushAll F ns st :
  ready ns st → meets F ns FlushAll (maps_to (λ a, (inr tt, ∅))) st.
Proof.
  intros Hr.
  eapply (meets_delete _ _ (λ _, true) _ _ (λ a, ∅) _ Hr); [done|].
  intros a. symmetry. apply map_empty_filter. by intros k e _.
Qed.

Theorem FlushAll_correct `{Engine E} (w : E) ns :
  ready ns (view w) → outcome ns w FlushAll (maps_to (λ a, (inr tt, ∅))).
Proof. intros Hr. by apply meets_outcome, meets_FlushAll. Qed.

Lemma wp_SweepExpired F ns st :
  ready ns st →
  wp F SweepExpired (λ r σ',
    fulfils F ns (maps_to (λ a, (inr tt, a))) st r σ' ∧
    (¬ F → ∀ k, slice_of (com σ') k = purge (unix_milli ns) (slice_of (com st) k))) st.
Proof.
  intros Hr. unfold SweepExpired. eapply wp_nowMs_idle; [done|]. intros σ Hr' Hcom. apply wp_err_bind.
  assert (∀ T', T' = com σ ∨ T' = delete_where (λ _ r, expiredWhere (unix_milli ns) r) (com σ) →
    wf T' ∧ abs (unix_milli ns) T' = abs (unix_milli ns) (com st)) as Habs.
  { intros T' [->| ->]; [split; [apply Hr'|by rewrite Hcom]|].
    split; [apply wf_delete_where, Hr'|]. apply map_eq. intros k.
    rewrite abs_delete_where, Hcom. unfold doomed. destruct (t_keys _ !! k) as [r|] eqn:Hk; [|done].
    destruct (expiredWhere _ r) eqn:He; [|done]. rewrite lookup_abs. unfold abs_entry; simpl.
    rewrite Hk; simpl. by rewrite aliveWhere_negb, He. }
  eapply wp_exec_whole; [apply Hr'|done|..].
  - destruct (Habs _ (or_intror eq_refl)) as [Hwf Ha]. split.
    + split; [by apply ready_set_com|]. left. simpl. by rewrite Ha.
    + intros _ k. unfold set_com; cbn [com]. rewrite slice_delete_where, Hcom. unfold doomed, purge, slice_delete; simpl.
      destruct (t_keys _ !! k) as [r|]; [|done]. by destruct (expiredWhere _ r).
  - intros HF e T'' HT. destruct (Habs _ HT) as [Hwf Ha]. split; [|done].
    split; [by apply ready_set_com|]. right. split; [done|].
    split; [apply db_error_db|]. left. by simpl; rewrite Ha.
Qed.

(** C26: The background sweep is invisible in the keyspace, whether the engine fails
    or not. On an engine that does not fail it removes the keys whose deadline
    is now or earlier, with all their rows, and leaves every other row. *)
Theorem SweepExpired_correct `{Engine E} (w : E) ns :
  ready ns (view w) →
  outcome ns w SweepExpired (maps_to (λ a, (inr tt, a))) ∧
  (¬ faulty E → ∀ k, slice_of (com (view (run SweepExpired w).2)) k =
    purge (unix_milli ns) (slice_of (com (view w)) k)).
Proof.
  intros Hr. pose proof (wp_run _ _ w (wp_SweepExpired (faulty E) ns (view w) Hr)) as Hwp.
  unfold outcome. destruct (run SweepExpired w). done.
Qed.

(** ** [DBSIZE] and the listing of a database *)

Lemma abs_alive now T k e :
  abs now T !! k = Some e → ∃ r, t_keys T !! k = Some r ∧ aliveWhere now r = true.
Proof.
  rewrite lookup_abs. unfold abs_entry; simpl.
  destruct (t_keys T !! k) as [r|]; [|done]; simpl.
  destruct (aliveWhere now r) eqn:Ha; [eauto|done].
Qed.

Lemma alive_abs now T k r :
  wf T → t_keys T !! k = Some r → aliveWhere now r = true → is_Some (abs now T !! k).
Proof.
  intros Hwf Hk Ha. rewrite lookup_abs. unfold abs_entry; simpl. rewrite Hk; simpl. rewrite Ha.
  destruct (wf_slice_value (slice_of T k) r (Hwf k) Hk) as (v & -> & _). by eexists.
Qed.

(** The names of a database of the keyspace. *)
Definition names (db : Z) (a : keyspace) : gset string :=
  list_to_set ((filter (λ k, k.2 = db) (map_to_list a).*1).*1).

Lemma elem_of_names db a n : n ∈ names db a ↔ is_Some (a !! (n, db)).
Proof.
  unfold names. rewrite elem_of_list_to_set, list_elem_of_fmap. split.
  - intros ([n' db'] & -> & [Hdb Hin]%list_elem_of_filter). simpl in *; subst.
    apply list_elem_of_fmap in Hin as ([k e] & -> & Hin%elem_of_map_to_list). by eexists.
  - intros [e He]. exists (n, db). split; [done|]. apply list_elem_of_filter. split; [done|].
    apply list_elem_of_fmap. exists (n, db, e). split; [done|]. by apply elem_of_map_to_list.
Qed.

Lemma elem_of_keys_alive db now T n :
  n ∈ keys_alive db now T ↔ ∃ r, t_keys T !! (n, db) = Some r ∧ aliveWhere now r = true.
Proof.
  unfold keys_alive. rewrite list_elem_of_fmap. split.
  - intros ([n' db'] & -> & Hin). apply list_elem_of_fmap in Hin as ([k r] & -> & Hin).
    apply list_elem_of_filter in Hin as [[Hdb Ha] Hin%elem_of_map_to_list].
    destruct k; simpl in *; subst. eauto.
  - intros (r & Hk & Ha). exists (n, db). split; [done|].
    apply list_elem_of_fmap. exists (n, db, r). split; [done|].
    apply list_elem_of_filter. split; [done|]. by apply elem_of_map_to_list.
Qed.

Lemma NoDup_keys_alive db now T : NoDup (keys_alive db now T).
Proof.
  unfold keys_alive. pose proof (NoDup_fst_map_to_list (t_keys T)) as Hnd.
  induction (map_to_list (t_keys T)) as [|[[n d] r] l IH]; [constructor|].
  rewrite fmap_cons in Hnd. apply list.NoDup_cons in Hnd as [Hn Hnd]. rewrite filter_cons.
  case_decide as Hd; [|by apply IH]. simpl in Hd. destruct Hd as [-> Ha].
  rewrite !fmap_cons. apply list.NoDup_cons. split; [|by apply IH]. simpl.
  intros Hin. apply Hn. apply list_elem_of_fmap in Hin as ([n1 d1] & Heq & Hin). simpl in Heq; subst n1.
  apply list_elem_of_fmap in Hin as ([[n2 d2] r'] & Heq & Hin). simpl in Heq; simplify_eq.
  apply list_elem_of_filter in Hin as [[Hdb _] Hin]. simpl in Hdb; subst.
  apply list_elem_of_fmap. by exists (n2, db, r').
Qed.

Lemma keys_alive_names db now T :
  wf T → keys_alive db now T ≡ₚ elements (names db (abs now T)).
Proof.
  intros Hwf. apply NoDup_Permutation; [apply NoDup_keys_alive|apply NoDup_elements|].
  intros n. rewrite elem_of_keys_alive, elem_of_elements, elem_of_names. split.
  - intros (r & Hk & Ha). by eapply alive_abs.
  - intros [e He]. by eapply abs_alive.
Qed.

(** Query rules for a whole database. *)
Lemma wp_query_row_idle F ns {R} (q : query R) Q σ :
  ready ns σ →
  (∀ rows, sql_answer q (com σ) rows → Q (row_of rows) σ) →
  (F → ∀ e, Q (ScanErr (ErrDb e)) σ) →
  wp F (query_row DB q) Q σ.
Proof.
  intros [_ [Hw _]] Hok Herr. eapply wp_query_row; [by simpl; rewrite Hw|..]; auto.
Qed.

Lemma fulfils_same F ns {A} (C : contract A) σ σ' r :
  ready ns σ' → com σ' = com σ →
  let a := abs (unix_milli ns) (com σ) in
  c_ok C a r a ∨ F ∧ c_crash C a r a → fulfils F ns C σ r σ'.
Proof. intros Hr Hc a Hor. split; [done|]. by rewrite Hc. Qed.

Lemma meets_DBSize F ns dbIdx st :
  ready ns st →
  meets F ns (DBSize dbIdx) (maps_to (λ a, (inr (Z.of_nat (size (names dbIdx a))), a))) st.
Proof.
  intros Hr. unfold meets, DBSize.
  eapply wp_nowMs_idle; [done|]. intros σ Hr' Hc. apply wp_bind.
  eapply wp_query_row_idle; [done|..].
  - intros rows ->. simpl. apply wp_ret. apply fulfils_same; [done..|]. left. simpl.
    rewrite (keys_alive_names _ _ _ (proj1 Hr')), Hc. done.
  - intros HF e. apply wp_ret. apply fulfils_same; [done..|]. right. split; [done|].
    split; [apply db_error_db|by left].
Qed.

(** [DBSIZE] counts the live keys of the database. *)
Theorem DBSize_correct `{Engine E} (w : E) ns dbIdx :
  ready ns (view w) →
  outcome ns w (DBSize dbIdx) (maps_to (λ a, (inr (Z.of_nat (size (names dbIdx a))), a))).
Proof. intros Hr. by apply meets_outcome, meets_DBSize. Qed.

Lemma meets_RandomKey F ns dbIdx st :
  ready ns st →
  meets F ns (RandomKey dbIdx) (mkContract
    (λ a r a', a' = a ∧
       (r = inr "" ∧ names dbIdx a = ∅ ∨ ∃ n, r = inr n ∧ n ∈ names dbIdx a))
    (λ a r a', db_error r ∧ a' = a)) st.
Proof.
  intros Hr. unfold meets, RandomKey.
  eapply wp_nowMs_idle; [done|]. intros σ Hr' Hc. apply wp_bind.
  eapply wp_query_row_idle; [done|..].
  - intros rows (full & Hp & ->). simpl in Hp.
    rewrite (keys_alive_names _ _ _ (proj1 Hr')), Hc in Hp.
    destruct full as [|n full]; simpl; apply wp_ret; (apply fulfils_same; [done..|]);
      left; simpl; (split; [done|]).
    + left. split; [done|]. by apply leibniz_equiv, elements_empty_inv, Permutation_nil_r.
    + right. exists n. split; [done|]. apply elem_of_elements. rewrite <- Hp. by left.
  - intros HF e. apply wp_ret. apply fulfils_same; [done..|]. right. split; [done|].
    split; [apply db_error_db|done].
Qed.

(** [RANDOMKEY] answers a live key of the database, or [""] when it is empty. *)
Theorem RandomKey_correct `{Engine E} (w : E) ns dbIdx :
  ready ns (view w) →
  outcome ns w (RandomKey dbIdx) (mkContract
    (λ a r a', a' = a ∧
       (r = inr "" ∧ names dbIdx a = ∅ ∨ ∃ n, r = inr n ∧ n ∈ names dbIdx a))
    (λ a r a', db_error r ∧ a' = a)).
Proof. intros Hr. by apply meets_outcome, meets_RandomKey. Qed.

(** ** [DEL] *)

Lemma doomed_twice (P Q : kid → bool) (T : Tables) k :
  doomed (λ k _, P k || Q k) T k = false ↔
    doomed (λ k _, P k) (delete_where (λ k _, Q k) T) k = false ∧ doomed (λ k _, Q k) T k = false.
Proof.
  unfold doomed, delete_where; simpl. rewrite (lookup_filter_bool k (λ k _, Q k)).
  destruct (t_keys T !! k); [|done]. destruct (Q k), (P k); simpl; intuition congruence.
Qed.

(** Deleting in two steps is deleting at once, and the counts add up. *)
Lemma delete_where_twice (P Q : kid → bool) (T : Tables) :
  delete_where (λ k _, P k) (delete_where (λ k _, Q k) T) =
    delete_where (λ k _, P k || Q k) T.
Proof.
  set (T1 := delete_where _ T). unfold delete_where. f_equal; simpl;
    rewrite map_filter_filter; apply map_filter_ext; intros k r _; simpl.
  - by rewrite orb_false_iff.
  - by rewrite doomed_twice.
  - by rewrite doomed_twice.
  - by rewrite doomed_twice.
  - by rewrite doomed_twice.
  - by rewrite doomed_twice.
Qed.

Lemma count_where_twice (P Q : kid → bool) (T : Tables) :
  count_where (λ k _, P k) (delete_where (λ k _, Q k) T) + count_where (λ k _, Q k) T =
    count_where (λ k _, P k || Q k) T.
Proof.
  unfold count_where. simpl. rewrite map_filter_filter. rewrite <- Nat2Z.inj_add.
  assert (∀ m1 m2 : gmap kid KeyRow, (∀ k r1 r2, m1 !! k = Some r1 → m2 !! k = Some r2 → False) →
    (size m1 + size m2)%nat = size (m1 ∪ m2) ∧ m1 ##ₘ m2) as Hsize.
  { intros m1 m2 Hd. assert (m1 ##ₘ m2) by by apply map_disjoint_spec.
    by rewrite map_size_disj_union. }
  edestruct Hsize as [-> Hd].
  { intros k r1 r2. rewrite !map_lookup_filter_Some. simpl. intros [_ Ha] [_ Hb]. destruct Ha. congruence. }
  f_equal. f_equal. apply map_eq. intros k. apply option_eq. intros r.
  rewrite lookup_union_Some by done. rewrite !map_lookup_filter_Some. simpl.
  destruct (P k), (Q k); simpl; intuition congruence.
Qed.

(** The keys named by the arguments of a command. *)
Definition named (keys : list string) (db : Z) : kid → bool :=
  λ k, bool_decide (k.2 = db ∧ k.1 ∈ keys).

Lemma named_snoc keys db k' k :
  named (keys ++ [k']) db k = bool_decide (k = (k', db)) || named keys db k.
Proof.
  unfold named. destruct k as [n d]; simpl. rewrite <- bool_decide_or.
  apply bool_decide_ext. rewrite elem_of_app, list_elem_of_singleton.
  split; [intros [-> [?| ->]]; auto|intros [[= -> ->]|[-> ?]]; auto].
Qed.

Lemma named_step ks x db T :
  let T' := delete_where (λ k _, named ks db k) T in
  delete_where (is_key (x, db)) T' = delete_where (λ k _, named (ks ++ [x]) db k) T ∧
  count_where (λ k _, named ks db k) T + count_where (is_key (x, db)) T' =
    count_where (λ k _, named (ks ++ [x]) db k) T.
Proof.
  intros T'. unfold T', is_key.
  destruct (delete_where_ext (λ k' _, named (ks ++ [x]) db k')
    (λ k' _, bool_decide (k' = (x, db)) || named ks db k') T) as [-> ->].
  { intros k' _. apply named_snoc. }
  pose proof (delete_where_twice (λ k', bool_decide (k' = (x, db))) (named ks db) T) as H1.
  pose proof (count_where_twice (λ k', bool_decide (k' = (x, db))) (named ks db) T) as H2.
  split; [exact H1|]. rewrite Z.add_comm. exact H2.
Qed.

Lemma named_nil db k : named [] db k = false.
Proof. apply bool_decide_eq_false. intros [_ Hin]. by apply not_elem_of_nil in Hin. Qed.

Lemma delete_none db T : delete_where (λ k _, named [] db k) T = T.
Proof.
  assert (∀ k, doomed (λ k _, named [] db k) T k = false) as Hd.
  { intros k. unfold doomed. destruct (t_keys T !! k); auto using named_nil. }
  destruct T; unfold delete_where; f_equal; simpl; apply map_filter_id; simpl; auto using named_nil.
Qed.

Lemma count_none db T : count_where (λ k _, named [] db k) T = 0.
Proof.
  unfold count_where. rewrite map_empty_filter_2; [by rewrite map_size_empty|].
  intros k r _. simpl. by rewrite named_nil.
Qed.

(** [DEL] on an engine that fails may have deleted only the first of its keys,
    and [DEL] counts the rows it removes. *)
Definition del_contract (T : Tables) (keys : list string) (db : Z) : contract Z :=
  let drop ks (a : keyspace) : keyspace := filter (λ p, named ks db p.1 = false) a in
  mkContract
    (λ a r a', r = inr (count_where (λ k _, named keys db k) T) ∧ a' = drop keys a)
    (λ a r a', db_error r ∧ ∃ ks, ks `prefix_of` keys ∧ a' = drop ks a).

Lemma meets_Del F ns keys dbIdx st :
  ready ns st →
  meets F ns (Del keys dbIdx) (del_contract (com st) keys dbIdx) st.
Proof.
  intros Hr. unfold meets, Del. set (T := com st) in *.
  assert (wp (F) (for_each keys 0 (λ total k, n ⇐? exec DB (DeleteKey (k, dbIdx)); ok (total + n)))
    (fulfils (F) ns (del_contract T keys dbIdx) st) st) as Hloop.
  2: by case_decide; subst.
  apply (wp_for_each _ (λ done acc σ, ready ns σ ∧
      com σ = delete_where (λ k _, named done dbIdx k) T ∧ acc = count_where (λ k _, named done dbIdx k) T)).
  - split; [done|]. by rewrite delete_none, count_none.
  - intros done k todo acc σ Hkeys (Hrσ & Hcom & ->). apply wp_err_bind.
    destruct (named_step done k dbIdx T) as [Hdel Hcount]. rewrite <- Hcom in Hdel, Hcount.
    eapply wp_exec_whole; [apply Hrσ|done|..].
    + apply wp_ret. split; [apply ready_set_com; [done|apply wf_delete_where, Hrσ]|].
      by rewrite Hcount.
    + intros HF e T'' HT. split; [apply ready_set_com; [done|]|].
      { destruct HT as [->| ->]; [apply Hrσ|apply wf_delete_where, Hrσ]. }
      right. split; [done|]. split; [apply db_error_db|].
      destruct HT as [->| ->]; [exists done|exists (done ++ [k])]; simpl.
      * rewrite Hcom, abs_filter_delete. split; [|done]. rewrite Hkeys. by eexists.
      * rewrite Hdel, abs_filter_delete. split; [|done]. rewrite Hkeys. exists todo. by rewrite <- app_assoc.
  - intros acc σ (Hrσ & Hcom & ->). split; [done|]. left. simpl.
    by rewrite Hcom, abs_filter_delete.
Qed.

(** C35: DEL, one statement per key, does what one deletion of all its keys
    would do and counts the rows removed; a failing engine leaves a prefix
    deleted. *)
Theorem Del_correct `{Engine E} (w : E) ns keys dbIdx :
  ready ns (view w) →
  outcome ns w (Del keys dbIdx) (del_contract (com (view w)) keys dbIdx).
Proof. intros Hr. by apply meets_outcome, meets_Del. Qed.

(** ** [EXISTS] *)

Definition exists_count (keys : list string) (db : Z) (a : keyspace) : Z :=
  Z.of_nat (length (filter (λ k, is_Some (a !! (k, db))) keys)).

Lemma exists_count_snoc keys k db a :
  exists_count (keys ++ [k]) db a = exists_count keys db a + (if present (a !! (k, db)) then 1 else 0).
Proof.
  unfold exists_count. rewrite list.filter_app, length_app, filter_cons, filter_nil.
  destruct (a !! (k, db)); case_decide as Hd; simpl; try lia.
  - destruct Hd. by eexists.
  - by destruct Hd.
Qed.

(** One round of the loop of [Exists]. The error of the count is dropped. *)
Lemma meets_exists_step F ns k db acc σ :
  ready ns σ →
  meets F ns (_ ⇐? deleteExpired k db; r ⇐ query_row DB (CountKey (k, db)); ok (acc + scanned 0 r))
    (on_entry (k, db) (λ e, (inr (acc + if present e then 1 else 0), e))
       (λ e r e', e' = e ∧ (db_error r ∨ r = inr acc))) σ.
Proof.
  intros Hr. apply meets_on_entry; [done|]. intros T0 sl σ' Hsl Hq.
  apply wp_purged; [by intros; split; [|left; apply db_error_db]|done..|].
  clear sl σ' Hsl Hq. intros sl σ' Hsl Hlive Hq. destruct Hsl; try specialize (Hlive _ eq_refl);
    repeat sql_step; first [by done_ok|done_crash; simpl; live_entries; rewrite Z.add_0_r; auto].
Qed.

Lemma meets_Exists F ns keys dbIdx st :
  ready ns st →
  meets F ns (Exists_ keys dbIdx)
    (mkContract (λ a r a', a' = a ∧ r = inr (exists_count keys dbIdx a))
       (λ a r a', a' = a ∧ (db_error r ∨ ∃ n, r = inr n ∧ 0 ≤ n ≤ exists_count keys dbIdx a))) st.
Proof.
  intros Hr. unfold meets, Exists_.
  set (a := abs (unix_milli ns) (com st)).
  apply (wp_for_each _ (λ done acc σ, ready ns σ ∧ abs (unix_milli ns) (com σ) = a ∧
    (acc = exists_count done dbIdx a ∨ F ∧ 0 ≤ acc ≤ exists_count done dbIdx a))).
  - split; [done|]. split; [done|]. by left.
  - intros done k todo acc σ Hkeys (Hrσ & Ha & Hacc).
    eapply wp_mono; [|by apply meets_exists_step]. intros r σ' [Hrσ' Hor]. simpl in Hor.
    rewrite Ha in Hor.
    assert (partial_alter (λ _, a !! (k, dbIdx)) (k, dbIdx) a = a) as Hsame
      by by apply partial_alter_self.
    rewrite Hsame in Hor. pose proof (exists_count_snoc done k dbIdx a) as Hsnoc.
    destruct Hor as [[-> Ha']|(HF & e & [-> Hc] & Ha')].
    + split; [done|]. split; [done|]. rewrite Hsnoc.
      destruct (present _), Hacc as [->|[HF ?]]; (by left) || (right; split; [done|lia]).
    + rewrite Hsame in Ha'. destruct Hc as [[c ->]| ->].
      * split; [done|]. right. split; [done|]. split; [done|]. left. by eexists.
      * split; [done|]. split; [done|]. right. split; [done|].
        assert (0 ≤ exists_count done dbIdx a) by (unfold exists_count; lia).
        rewrite Hsnoc. destruct (present _), Hacc as [->|[? ?]]; lia.
  - intros acc σ (Hrσ & Ha & Hacc). split; [done|]. rewrite Ha. simpl. fold a.
    destruct Hacc as [->|[HF ?]]; [by left|]. right. eauto 8.
Qed.

(** [EXISTS] counts its live arguments, repetitions included. An engine that
    fails may only make it count too few. *)
Theorem Exists_correct `{Engine E} (w : E) ns keys dbIdx :
  ready ns (view w) →
  outcome ns w (Exists_ keys dbIdx)
    (mkContract (λ a r a', a' = a ∧ r = inr (exists_count keys dbIdx a))
       (λ a r a', a' = a ∧ (db_error r ∨ ∃ n, r = inr n ∧ 0 ≤ n ≤ exists_count keys dbIdx a))).
Proof. intros Hr. by apply meets_outcome, meets_Exists. Qed.

(** ** [RENAME] *)

Section rename.
Context (F : Prop) (ns : Z) (C : Tables).

(** A transaction opened on the committed tables [C] now sees [T]. *)
Definition tx_at (T : Tables) (σ : State) : Prop :=
  (∀ n, clk σ n = ns) ∧ com σ = C ∧ work σ = Some T.

Lemma tx_rollback T σ : tx_at T σ → idle ns (set_work None σ) ∧ com (set_work None σ) = C.
Proof. by intros (? & ? & ?). Qed.

(** A statement whose error ends the transaction. *)
Lemma wp_tx_exec s T Q σ :
  tx_at T σ →
  (∀ n T' σ', sql_exec s T = Some (n, T') → tx_at T' σ' → Q (inr n) σ') →
  (∀ e T' σ', exec_outcome F s T (inl e) T' → tx_at T' σ' → Q (inl (ErrDb e)) σ') →
  wp F (exec TX s) Q σ.
Proof.
  intros (Hclk & Hcom & Hw) Hok Herr. eapply wp_exec_tx; [done|..].
  - intros n T' Hs. by eapply Hok.
  - intros e T' Ho. by eapply Herr.
Qed.
End rename.

(** The new row of [dst] before the copy. *)
Definition bare_slice (r : KeyRow) : slice := mkSlice (Some r) None ∅ ∅ ∅ ∅.

(** [DELETE dst; INSERT dst], whatever the first statement answered. *)
Lemma rename_fresh F dst typ exp T T1 r1 n T2 :
  wf T → exec_outcome F (DeleteKey dst) T r1 T1 →
  sql_exec (InsertKey dst typ exp) T1 = Some (n, T2) →
  updates T dst (bare_slice (mkKeyRow typ exp)) T2.
Proof.
  intros Hwf Hdel Hins.
  assert (T1 = T ∨ updates T dst empty_slice T1) as HT1.
  { pose proof (sql_exec_slice (DeleteKey dst) dst T eq_refl) as Ha.
    assert (slice_delete (λ _, true) (slice_of T dst) = (count (t_keys T !! dst), empty_slice)) as Hsl.
    { pose proof (Hwf dst) as Hk. unfold slice_delete.
      change (t_keys T !! dst) with (s_key (slice_of T dst)). by destruct Hk. }
    simpl in Ha. rewrite Hsl in Ha. destruct Ha as [_ Ha]. simpl in Hdel.
    destruct r1 as [e|n1]; [destruct Hdel as [[-> _]|(_ & n' & Hdel)]|]; [by left|right..];
      simpl in Hdel; simplify_eq; done. }
  pose proof (sql_exec_slice (InsertKey dst typ exp) dst T1 eq_refl) as Ha.
  rewrite Hins in Ha. destruct (slice_exec _ _) as [[n' sl2]|] eqn:Hsl; [|done].
  destruct Ha as [-> Ha]. simpl in Hsl.
  destruct (t_keys T1 !! dst) eqn:Hk; [done|]. simplify_eq.
  assert (slice_of T1 dst = empty_slice) as He.
  { destruct HT1 as [->|[HT1 _]]; [|done]. pose proof (Hwf dst) as Hd.
    change (t_keys T !! dst) with (s_key (slice_of T dst)) in Hk. by destruct Hd. }
  rewrite He in Ha. destruct HT1 as [->|HT1]; [done|]. by eapply updates_trans.
Qed.

Lemma rows_of_eq {S V} `{Countable S} (k : kid) (r : gmap S V) (m : gmap (kid * S) V) k' :
  rows k m = ∅ → rows k' (rows_of k r ∪ m) = if decide (k' = k) then r else rows k' m.
Proof.
  intros Hm. apply map_eq. intros s. rewrite lookup_rows. unfold rows_of. case_decide; subst.
  - destruct (r !! s) as [v|] eqn:Hr.
    + apply lookup_union_Some_l. apply lookup_kmap_Some; [by intros ?? [=]|]. by exists s.
    + rewrite lookup_union_r; [by apply rows_empty_None|].
      apply lookup_kmap_None; [by intros ?? [=]|]. by intros s' [= ->].
  - rewrite lookup_rows. apply lookup_union_r.
    apply lookup_kmap_None; [by intros ?? [=]|]. by intros s' [=].
Qed.

(** Copying the rows of [src] to a key without rows. *)
Lemma copy_rows_fresh {S V} `{Countable S} (T : Tables) (dst src : kid) (m : gmap (kid * S) V) r :
  t_keys T !! dst = Some r → rows dst m = ∅ →
  ∃ n m', copy_rows T dst src m = Some (n, m') ∧ rows dst m' = rows src m ∧
    ∀ k, k ≠ dst → rows k m' = rows k m.
Proof.
  intros Hk Hm. unfold copy_rows, fk. rewrite Hk. case_decide as Hr.
  { exists 0, m. by rewrite Hr, Hm. }
  rewrite decide_True.
  - do 2 eexists. split; [done|]. 
    split; [by rewrite rows_of_eq, decide_True|]. intros k Hne. by rewrite rows_of_eq, decide_False.
  - apply map_disjoint_spec. unfold rows_of. intros [k s] v1 v2 H1 H2.
    apply lookup_kmap_Some in H1 as (s' & [= -> ->] & _); [|by intros ?? [=]].
    by rewrite (rows_empty_None _ _ _ Hm) in H2.
Qed.

(** The copy gives [dst] the rows of [src]. *)
Lemma rename_copy typ exp (dst src : kid) T sl :
  slice_of T src = sl → wf_slice sl → s_key sl = Some (mkKeyRow typ exp) →
  slice_of T dst = bare_slice (mkKeyRow typ exp) →
  ∃ s n T', copy_stmt typ dst src = Some s ∧ sql_exec s T = Some (n, T') ∧ updates T dst sl T'.
Proof.
  intros Hs Hwf Hkey Hd. unfold slice_of, bare_slice in Hd. injection Hd as Hk Hdv Hdl Hdh Hds Hdz.
  destruct Hwf; simplify_eq/=; unfold slice_of in Hs; injection Hs as Hsk Hss Hsl Hsh Hst Hsz;
    eexists; unfold copy_stmt; simpl.
  - do 2 eexists. split; [reflexivity|]. simpl. rewrite Hss, Hdv. unfold fk. rewrite Hk.
    split; [reflexivity|]. apply updates_by. intros k'. rewrite slice_set_strings.
    case_decide; [|done]. unfold slice_of, with_str; simpl. by rewrite Hk, Hdl, Hdh, Hds, Hdz.
  - destruct (copy_rows_fresh T dst src _ _ Hk Hdl) as (n & m' & Hc & Hr & Hne).
    do 2 eexists. split; [reflexivity|]. simpl. unfold copy_into. rewrite Hc. split; [reflexivity|].
    unfold updates, slice_of; simpl. rewrite Hk, Hr, Hdv, Hsl, Hdh, Hds, Hdz. split; [done|].
    intros k' Hk'. by rewrite Hne.
  - destruct (copy_rows_fresh T dst src _ _ Hk Hdh) as (n & m' & Hc & Hr & Hne).
    do 2 eexists. split; [reflexivity|]. simpl. unfold copy_into. rewrite Hc. split; [reflexivity|].
    unfold updates, slice_of; simpl. rewrite Hk, Hr, Hdv, Hsh, Hdl, Hds, Hdz. split; [done|].
    intros k' Hk'. by rewrite Hne.
  - destruct (copy_rows_fresh T dst src _ _ Hk Hds) as (n & m' & Hc & Hr & Hne).
    do 2 eexists. split; [reflexivity|]. simpl. unfold copy_into. rewrite Hc. split; [reflexivity|].
    unfold updates, slice_of; simpl. rewrite Hk, Hr, Hdv, Hst, Hdl, Hdh, Hdz. split; [done|].
    intros k' Hk'. by rewrite Hne.
  - destruct (copy_rows_fresh T dst src _ _ Hk Hdz) as (n & m' & Hc & Hr & Hne).
    do 2 eexists. split; [reflexivity|]. simpl. unfold copy_into. rewrite Hc. split; [reflexivity|].
    unfold updates, slice_of; simpl. rewrite Hk, Hr, Hdv, Hsz, Hdl, Hdh, Hds. split; [done|].
    intros k' Hk'. by rewrite Hne.
Qed.

(** Copying a key without rows onto itself changes nothing. *)
Lemma rename_copy_self typ r (k : kid) T s :
  slice_of T k = bare_slice r → copy_stmt typ k k = Some s → sql_exec s T = Some (0, T).
Proof.
  intros Hd Hs. unfold slice_of, bare_slice in Hd. injection Hd as Hk Hdv Hdl Hdh Hds Hdz.
  unfold copy_stmt in Hs. repeat case_decide; simplify_eq/=; unfold copy_into, copy_rows;
    rewrite ?Hdv, ?decide_True by done; by destruct T.
Qed.

(** What [RENAME] does to the keyspace: the destination gets the value and
    the expiry time of the source, replacing what it held; and a key renamed
    to itself is deleted. *)
Definition rename_spec (src dst : kid) (a : keyspace) : result unit * keyspace :=
  match a !! src with
  | None => (inl ErrNoKey, a)
  | Some e => (inr tt, delete src (if decide (src = dst) then a else <[dst := e]> a))
  end.

(** The tables [T] are [C] with the rows [sl] of [src] moved to [dst]. *)
Definition renamed (C : Tables) (src dst : kid) (sl : slice) (T : Tables) : Prop :=
  if decide (src = dst) then updates C src empty_slice T
  else ∃ T3, updates C dst sl T3 ∧ updates T3 src empty_slice T.

(** The copy statement never fails, and the deletion of [src] ends the move. *)
Lemma rename_moved C typ exp (src dst : kid) sl T2 :
  wf_slice sl → slice_of C src = sl → s_key sl = Some (mkKeyRow typ exp) →
  updates C dst (bare_slice (mkKeyRow typ exp)) T2 →
  ∃ s n T3, copy_stmt typ dst src = Some s ∧ sql_exec s T2 = Some (n, T3) ∧
    ∀ n' T4, sql_exec (DeleteKey src) T3 = Some (n', T4) → renamed C src dst sl T4.
Proof.
  intros Hwf Hs Hk Hu. unfold renamed.
  assert (∀ T3, s_key (slice_of T3 src) = Some (mkKeyRow typ exp) → ∀ n' T4,
    sql_exec (DeleteKey src) T3 = Some (n', T4) → updates T3 src empty_slice T4) as Hdel.
  { intros T3 Hk3 n' T4 He. pose proof (sql_exec_slice (DeleteKey src) src T3 eq_refl) as Ha.
    rewrite He in Ha. simpl in Ha. unfold slice_delete in Ha. simpl in Hk3, Ha.
    rewrite Hk3 in Ha. by destruct Ha. }
  case_decide as Hne; subst.
  - assert (∃ s, copy_stmt typ dst dst = Some s) as [s Hcs].
    { destruct Hwf; simplify_eq/=; by eexists. }
    exists s, 0, T2. split; [done|]. split; [by eapply rename_copy_self; [apply Hu|]|].
    intros n' T4 He. eapply updates_trans; [done|]. eapply Hdel; [|done]. by rewrite (proj1 Hu).
  - assert (slice_of T2 src = slice_of C src) as Hs2 by by apply Hu.
    destruct (rename_copy typ exp dst src T2 _ Hs2 Hwf Hk (proj1 Hu)) as (s & n & T3 & Hcs & He & Hu3).
    exists s, n, T3. split; [done|]. split; [done|]. intros n' T4 He4.
    exists T3. split; [by eapply updates_trans|]. eapply Hdel; [|done].
    by rewrite (proj2 Hu3), Hs2.
Qed.

Lemma renamed_spec now C (src dst : kid) sl T e :
  wf C → wf_slice sl → renamed C src dst sl T → slice_of C src = sl → abs_entry now sl = Some e →
  wf T ∧ (inr tt, abs now T) = rename_spec src dst (abs now C).
Proof.
  intros HwfC Hwf Hren Hs He. unfold rename_spec. rewrite lookup_abs, Hs, He.
  unfold renamed in Hren. case_decide; subst.
  - split; [by eapply updates_wf; eauto with sqlresp|].
    by rewrite (updates_abs _ _ _ _ _ Hren).
  - destruct Hren as (T3 & Hu3 & Hu4).
    split; [by eapply updates_wf; eauto using updates_wf with sqlresp|].
    rewrite (updates_abs _ _ _ _ _ Hu4), (updates_abs _ _ _ _ _ Hu3), He. done.
Qed.

(** Only a failure of the engine makes the insertion of [dst] collide. *)
Lemma rename_insert_fails F dst typ exp T r1 T1 e T2 :
  exec_outcome F (DeleteKey dst) T r1 T1 →
  exec_outcome F (InsertKey dst typ exp) T1 (inl e) T2 → F.
Proof.
  intros Hdel Hins. destruct r1 as [e1|n1].
  - by destruct Hdel as [[_ [?|?]]|[? _]].
  - destruct Hins as [[_ [?|Hins]]|[? _]]; try done. exfalso. simpl in Hdel, Hins.
    injection Hdel as _ <-. unfold delete_where in Hins; simpl in Hins.
    rewrite lookup_filter_bool in Hins. unfold is_key in Hins.
    destruct (t_keys T !! dst); [|done]. by rewrite bool_decide_eq_true_2 in Hins.
Qed.

(** The transaction of [RENAME]. *)
Lemma wp_rename_tx F ns C typ exp src dst db sl σ Q :
  ready ns σ → com σ = C → slice_of C (src, db) = sl → s_key sl = Some (mkKeyRow typ exp) →
  (∀ T σ', idle ns σ' → com σ' = T → renamed C (src, db) (dst, db) sl T → Q (inr tt) σ') →
  (F → ∀ e T σ', idle ns σ' → com σ' = T → T = C ∨ renamed C (src, db) (dst, db) sl T →
     Q (inl (ErrDb e)) σ') →
  wp F (with_tx (
        _ ⇐ exec TX (DeleteKey (dst, db));
        _ ⇐? exec TX (InsertKey (dst, db) typ exp);
        _ ⇐? match copy_stmt typ (dst, db) (src, db) with Some s => exec TX s | None => ok 0 end;
        _ ⇐? exec TX (DeleteKey (src, db));
        commit)) Q σ.
Proof.
  intros [Hwf [Hw Hclk]] Hcom Hs Hk Hok Herr.
  assert (F → ∀ e T σ', tx_at ns C T σ' → Q (inl (ErrDb e)) (set_work None σ')) as Hroll.
  { intros HF e T σ' Ht. destruct (tx_rollback _ _ _ _ Ht) as [? ?]. eapply Herr; eauto. }
  apply wp_with_tx; [done| |intros e HF; eapply (Herr HF); [by split|done|by left]].
  assert (tx_at ns C C (set_work (Some (com σ)) σ)) as Ht0 by by rewrite Hcom.
  assert (wf_slice sl) as Hsl by (rewrite <- Hs, <- Hcom; apply Hwf).
  eapply (wp_seq F _ _ (λ _ σ', ∃ r1 T1,
    exec_outcome F (DeleteKey (dst, db)) C r1 T1 ∧ tx_at ns C T1 σ')).
  { eapply wp_tx_exec; [done|..].
    - intros n T' σ' He Ht. by exists (inr n), T'.
    - intros e T' σ' He Ht. by exists (inl e), T'. }
  intros _ σ1 (r1 & T1 & Hdel & Ht1). apply wp_err_bind. eapply wp_tx_exec; [done| |].
  2: { intros e T2 σ2 He Ht2. eapply Hroll; [|done]. by eapply rename_insert_fails. }
  intros n2 T2 σ2 He2 Ht2.
  assert (updates C (dst, db) (bare_slice (mkKeyRow typ exp)) T2) as Hu2.
  { eapply rename_fresh; [by rewrite <- Hcom|done..]. }
  destruct (rename_moved C typ exp (src, db) (dst, db) sl T2 Hsl Hs Hk Hu2)
    as (s & n & T3 & -> & He3 & Hmoved).
  apply wp_err_bind. eapply wp_tx_exec; [done| |].
  2: { intros e T' σ3 He Ht3. eapply Hroll; [|done].
       destruct He as [[_ [?|He]]|[? _]]; congruence || done. }
  intros n3 T3' σ3 He3' Ht3. rewrite He3 in He3'. injection He3' as <- <-.
  apply wp_err_bind. eapply wp_tx_exec; [done| |].
  2: { intros e T' σ4 He Ht4. eapply Hroll; [|done]. by destruct He as [[_ [?|?]]|[? _]]. }
  intros n4 T4 σ4 He4 (Hclk4 & Hcom4 & Hw4). apply Hmoved in He4.
  eapply wp_commit; [done|..].
  - eapply Hok; [|done|done]. by split.
  - intros e T' HF HT'. eapply (Herr HF); [by split|done|].
    rewrite Hcom4 in HT'. destruct HT' as [->| ->]; auto.
Qed.

Lemma meets_Rename F ns src dst dbIdx st :
  ready ns st →
  meets F ns (Rename src dst dbIdx) (maps_to (rename_spec (src, dbIdx) (dst, dbIdx))) st.
Proof.
  intros Hr. unfold meets, Rename. set (T := com st) in *.
  set (k := (src, dbIdx)). set (sl := slice_of T k). set (now := unix_milli ns).
  assert (wf_slice sl) as Hsl by apply Hr.
  assert (∀ sl' σ, wf_slice sl' → abs_entry now sl' = abs_entry now sl → quiet ns T k sl' σ →
    ready ns σ ∧ abs now (com σ) = abs now T) as Hsame.
  { intros sl' σ Hsl' Ha [Hidle Hu]. split; [split; [|done]|].
    - eapply updates_wf; [done|apply Hr|done].
    - rewrite (updates_abs _ _ _ _ _ Hu), Ha. unfold sl. rewrite <- lookup_abs. by apply partial_alter_self. }
  assert (∀ e σ, F → ready ns σ → abs now (com σ) = abs now T →
    fulfils (F) ns (maps_to (rename_spec k (dst, dbIdx))) st (inl (ErrDb e)) σ) as Hfail.
  { intros e σ HF Hrσ Ha. split; [done|]. right. split; [done|]. split; [apply db_error_db|].
    left. exact Ha. }
  apply wp_err_bind. eapply (wp_deleteExpired _ _ T); [by apply quiet_start, Hr| |].
  2: { intros HF e σ [Hq|Hq]; (apply Hfail; [done|..]); eapply Hsame; try exact Hq;
       auto using purge_wf, purge_abs. }
  intros σ1 Hq1. set (sl1 := purge now sl) in *. change (quiet ns T k sl1 σ1) in Hq1.
  assert (wf_slice sl1) as Hsl1 by by apply purge_wf.
  assert (abs_entry now sl1 = abs_entry now sl) as Ha1 by apply purge_abs.
  destruct (Hsame _ _ Hsl1 Ha1 Hq1) as [Hr1 Habs1].
  apply wp_bind. apply (wp_slice_query_row _ ns T k _ sl1); [done|done|done| |].
  2: { intros HF e. by apply Hfail. }
  assert (abs now T !! k = abs_entry now sl1) as Hk by by rewrite lookup_abs, Ha1.
  simpl. destruct (s_key sl1) as [[typ exp]|] eqn:Hk1; simpl.
  2: { apply wp_ret. split; [done|]. left. unfold rename_spec; cbn [c_ok maps_to].
       fold T now. rewrite Hk, Habs1. unfold abs_entry. by rewrite Hk1. }
  destruct (wf_slice_value sl1 _ Hsl1 Hk1) as (v & Hv & _).
  assert (abs_entry now sl1 = Some (mkEntry v exp)) as He.
  { unfold abs_entry. rewrite Hk1; simpl. rewrite (purge_live now sl _ Hk1). simpl in Hv. by rewrite Hv. }
  assert (∀ σ2 T2, idle ns σ2 → com σ2 = T2 → renamed (com σ1) k (dst, dbIdx) sl1 T2 →
    ready ns σ2 ∧ (inr tt, abs now (com σ2)) = rename_spec k (dst, dbIdx) (abs now T)) as Hdone.
  { intros σ2 T2 Hi Hc2 Hren. rewrite <- Habs1.
    destruct (renamed_spec now (com σ1) k (dst, dbIdx) sl1 T2 _ (proj1 Hr1) Hsl1 Hren (proj1 (proj2 Hq1)) He)
      as [Hwf2 Hs2]. rewrite Hc2. split; [|done]. split; [by rewrite Hc2|done]. }
  apply (wp_rename_tx _ ns (com σ1) typ exp src dst dbIdx sl1); [done|done|apply Hq1|done|..].
  - intros T2 σ2 Hi Hc2 Hren. destruct (Hdone _ _ Hi Hc2 Hren). split; [done|]. by left.
  - intros HF e T2 σ2 Hi Hc2 [->|Hren].
    + apply Hfail; [done|split; [rewrite Hc2; apply Hr1|done]|by rewrite Hc2].
    + destruct (Hdone _ _ Hi Hc2 Hren) as [? Hs2]. split; [done|]. right. split; [done|].
      split; [apply db_error_db|]. right. fold T now. by rewrite <- Hs2.
Qed.

(** C13: [RENAME] moves the value and the deadline of a live key, or answers
    [ErrNoKey], and on a failing engine does all of it or nothing. *)
Theorem Rename_correct `{Engine E} (w : E) ns src dst dbIdx :
  ready ns (view w) →
  outcome ns w (Rename src dst dbIdx) (maps_to (rename_spec (src, dbIdx) (dst, dbIdx))).
Proof. intros Hr. by apply meets_outcome, meets_Rename. Qed.

(** ** Witnesses *)

Lemma FlushDB_correct_witness :
  (run (FlushDB 1) sample).1 = inr tt ∧
  outcome sample_ns sample (FlushDB 1) (maps_to (λ a, (inr tt, filter (λ p, p.1.2 ≠ 1) a))).
Proof. split; [by vm_compute|]. apply (FlushDB_correct sample sample_ns 1). apply sample_ready. Defined.

Lemma FlushAll_correct_witness :
  (run FlushAll sample).1 = inr tt ∧
  outcome sample_ns sample FlushAll (maps_to (λ a, (inr tt, ∅))).
Proof. split; [by vm_compute|]. apply (FlushAll_correct sample sample_ns). apply sample_ready. Defined.

Lemma SweepExpired_correct_witness :
  outcome sample_ns sample SweepExpired (maps_to (λ a, (inr tt, a))) ∧
  (¬ faulty Reliable → ∀ k, slice_of (com (view (run SweepExpired sample).2)) k =
    purge (unix_milli sample_ns) (slice_of (com (view sample)) k)).
Proof. apply (SweepExpired_correct sample sample_ns). apply sample_ready. Defined.

Lemma DBSize_correct_witness :
  (run (DBSize 0) sample).1 = inr 7 ∧
  outcome sample_ns sample (DBSize 0) (maps_to (λ a, (inr (Z.of_nat (size (names 0 a))), a))).
Proof. split; [by vm_compute|]. apply (DBSize_correct sample sample_ns 0). apply sample_ready. Defined.

Lemma RandomKey_correct_witness :
  (run (RandomKey 1) sample).1 = inr "n" ∧
  outcome sample_ns sample (RandomKey 1) (mkContract
    (λ a r a', a' = a ∧ (r = inr "" ∧ names 1 a = ∅ ∨ ∃ n, r = inr n ∧ n ∈ names 1 a))
    (λ a r a', db_error r ∧ a' = a)).
Proof. split; [by vm_compute|]. apply (RandomKey_correct sample sample_ns 1). apply sample_ready. Defined.

Lemma Del_correct_witness :
  (run (Del ["n"; "old"; "n"] 0) sample).1 = inr 2 ∧
  outcome sample_ns sample (Del ["n"; "old"; "n"] 0) (del_contract (com (view sample)) ["n"; "old"; "n"] 0).
Proof. split; [by vm_compute|]. apply (Del_correct sample sample_ns ["n"; "old"; "n"] 0). apply sample_ready. Defined.

Lemma Exists_correct_witness :
  (run (Exists_ ["n"; "old"; "n"] 0) sample).1 = inr 2 ∧
  outcome sample_ns sample (Exists_ ["n"; "old"; "n"] 0)
    (mkContract (λ a r a', a' = a ∧ r = inr (exists_count ["n"; "old"; "n"] 0 a))
       (λ a r a', a' = a ∧ (db_error r ∨ ∃ n, r = inr n ∧ 0 ≤ n ≤ exists_count ["n"; "old"; "n"] 0 a))).
Proof. split; [by vm_compute|]. apply (Exists_correct sample sample_ns ["n"; "old"; "n"] 0). apply sample_ready. Defined.

Lemma Rename_correct_witness :
  (run (Rename "n" "l" 0) sample).1 = inr tt ∧
  outcome sample_ns sample (Rename "n" "l" 0) (maps_to (rename_spec ("n", 0) ("l", 0))).
Proof. split; [by vm_compute|]. apply (Rename_correct sample sample_ns "n" "l" 0). apply sample_ready. Defined.
