(* ===== verification/StoreStrings.v ===== *)
(** Operations on string values ([src/internal/store/strings.go]):
    [IncrBy], [Append], [StrLen]. *)
From S2P Require Import Prelude GoStd Float Sql Effects Keyspace Sample Store.
Local Open Scope Z_scope.
Local Open Scope go_scope.

Definition not_an_integer : error := ErrNew "ERR value is not an integer or out of range".

(** The rest of [IncrBy] once the current value has been read: [raw] is
    [sql.NullString], and the final [next, tx.Commit()] reports the error of
    the commit. *)
Definition incr_write (key : string) (dbIdx : Z) (raw : option string) (next : Z) : prog (result Z) :=
  _ ⇐? match raw with
       | Some _ => exec TX (UpdateString (key, dbIdx) (format_int next))
       | None =>
           _ ⇐? exec TX (UpsertKeyType (key, dbIdx) "string");
           exec TX (InsertString (key, dbIdx) (format_int next))
       end;
  _ ⇐? commit;
  ok next.

Definition IncrBy (key : string) (dbIdx : Z) (delta : Z) : prog (result Z) :=
  _ ⇐? deleteExpired key dbIdx;
  _ ⇐? assertType key dbIdx "string";
  with_tx (
    r ⇐ query_row TX (SelString (key, dbIdx));
    let raw := match r with Row v => Some v | _ => None end in
    match match raw with Some v => parse_int v | None => Some 0 end with
    | None => err not_an_integer
    | Some cur => incr_write key dbIdx raw (wrap64 (cur + delta))
    end).

Definition Append (key : string) (dbIdx : Z) (suffix : string) : prog (result Z) :=
  _ ⇐? deleteExpired key dbIdx;
  _ ⇐? assertType key dbIdx "string";
  with_tx (
    r ⇐ query_row TX (SelString (key, dbIdx));
    let write (exists_ : bool) (newVal : string) : prog (result Z) :=
      _ ⇐? (if exists_ then exec TX (UpdateString (key, dbIdx) newVal)
            else
              _ ⇐ exec TX (UpsertKeyType (key, dbIdx) "string");
              exec TX (InsertString (key, dbIdx) newVal));
      _ ⇐? commit;
      ok (Z.of_nat (String.length newVal)) in
    match r with
    | ScanErr e => err e
    | NoRows => write false ("" +:+ suffix)
    | Row cur => write true (cur +:+ suffix)
    end).

Definition StrLen (key : string) (dbIdx : Z) : prog (result Z) :=
  _ ⇐? deleteExpired key dbIdx;
  _ ⇐? assertType key dbIdx "string";
  r ⇐ query_row DB (SelString (key, dbIdx));
  match r with
  | NoRows => ok 0
  | ScanErr e => err e
  | Row val => ok (Z.of_nat (String.length val))
  end.

(** ** Correctness *)

(** [INCRBY] adds to the integer the string denotes, with int64 wrap-around;
    an absent key counts as 0, and the deadline is kept. *)
Definition incr_spec (delta : Z) (e : option entry) : result Z * option entry :=
  match match str_of e with Some v => parse_int v | None => Some 0 end with
  | None => (inl not_an_integer, e)
  | Some cur =>
      let next := wrap64 (cur + delta) in
      (inr next, Some (mkEntry (RStr (format_int next)) (exp_of e)))
  end.

(** Inserting the value of a key that has one fails, so the transaction is
    rolled back. *)
Lemma wp_insert_string_collides F ns T0 k sl slw v v' Q σ :
  in_tx ns T0 k sl slw σ → s_str slw = Some v' →
  (∀ e σ' slw', in_tx ns T0 k sl slw' σ' → Q (inl (ErrDb e)) σ') →
  wp F (exec TX (InsertString k v)) Q σ.
Proof.
  intros Hq Hs Herr. eapply wp_slice_exec_tx_any; [done..| |].
  - intros n slw' σ' He. simpl in He. by rewrite Hs in He.
  - eauto.
Qed.

Lemma meets_IncrBy F ns key dbIdx delta st :
  ready ns st →
  meets F ns (IncrBy key dbIdx delta)
    (atomically (key, dbIdx) (expect "string" (incr_spec delta))) st.
Proof.
  start_entry. unfold IncrBy. enter_guarded wf_string_cases; [|rename x into exp, x0 into v].
  - repeat sql_step; unfold incr_write; simpl; repeat sql_step; close_entry.
  - repeat sql_step; unfold incr_write; simpl; [|..|close_entry].
    + destruct (parse_int v) as [cur|] eqn:Hp; repeat sql_step;
        close_entry by (unfold incr_spec; simpl; rewrite Hp).
    + repeat sql_step; [|close_entry].
      eapply wp_insert_string_collides; [done|done|]. intros; close_entry.
Qed.

(** C14: INCRBY adds with int64 wrap-around to the integer a string denotes and
    keeps the deadline; a non-integer or another type is an error and changes
    nothing. When the engine fails an error is reported and either nothing has
    changed or, if a commit that was reported as failed took effect, the
    increment is in place. *)
Theorem IncrBy_correct `{Engine E} (w : E) ns key dbIdx delta :
  ready ns (view w) →
  outcome ns w (IncrBy key dbIdx delta)
    (atomically (key, dbIdx) (expect "string" (incr_spec delta))).
Proof. intros Hr. by apply meets_outcome, meets_IncrBy. Qed.

(** [APPEND] concatenates and answers the new length in bytes. *)
Definition append_spec (suffix : string) (e : option entry) : result Z * option entry :=
  let v := default "" (str_of e) +:+ suffix in
  (inr (Z.of_nat (String.length v)), Some (mkEntry (RStr v) (exp_of e))).

(** Creating the value of an absent key: the error of the first statement is
    dropped, but without its row the second one fails. *)
Lemma wp_append_absent F ns T0 k v Q σ :
  in_tx ns T0 k empty_slice empty_slice σ →
  (∀ σ', in_tx ns T0 k empty_slice (string_slice None v) σ' → Q (inr 1) σ') →
  (F → ∀ e σ' slw, in_tx ns T0 k empty_slice slw σ' → Q (inl (ErrDb e)) σ') →
  wp F (_ ⇐ exec TX (UpsertKeyType k "string"); exec TX (InsertString k v)) Q σ.
Proof.
  intros Hq Hok Herr. apply wp_bind. eapply wp_slice_exec_tx_any; [done|done|..].
  - intros n slw σ' [= <- <-] Hq'. by eapply wp_slice_exec_tx.
  - intros e slw σ' [[-> [HF|?]]|[HF [n [= <- <-]]]] Hq'; [|done|].
    + eapply wp_slice_exec_tx_any; [done..| |]; [done|]. eauto.
    + by eapply wp_slice_exec_tx.
Qed.

Lemma meets_Append F ns key dbIdx suffix st :
  ready ns st →
  meets F ns (Append key dbIdx suffix)
    (atomically (key, dbIdx) (expect "string" (append_spec suffix))) st.
Proof.
  start_entry. unfold Append. enter_guarded wf_string_cases.
  - sql_step; [|close_entry]. do 2 sql_step; simpl; [|sql_step; close_entry].
    sql_step. eapply wp_append_absent; [done|..]; intros; repeat sql_step; close_entry.
  - repeat sql_step; simpl; repeat sql_step; close_entry.
Qed.

(** APPEND concatenates, keeps the deadline and answers the length in
    bytes. *)
Theorem Append_correct `{Engine E} (w : E) ns key dbIdx suffix :
  ready ns (view w) →
  outcome ns w (Append key dbIdx suffix)
    (atomically (key, dbIdx) (expect "string" (append_spec suffix))).
Proof. intros Hr. by apply meets_outcome, meets_Append. Qed.

Lemma meets_StrLen F ns key dbIdx st :
  ready ns st →
  meets F ns (StrLen key dbIdx)
    (reads (key, dbIdx) "string" (λ e, Z.of_nat (String.length (default "" (str_of e))))) st.
Proof.
  start_entry. unfold StrLen. enter_guarded wf_string_cases; repeat sql_step; close_entry.
Qed.

Theorem StrLen_correct `{Engine E} (w : E) ns key dbIdx :
  ready ns (view w) →
  outcome ns w (StrLen key dbIdx)
    (reads (key, dbIdx) "string" (λ e, Z.of_nat (String.length (default "" (str_of e))))).
Proof. intros Hr. by apply meets_outcome, meets_StrLen. Qed.

(** ** Witnesses *)

Lemma IncrBy_correct_witness :
  (run (IncrBy "n" 0 5) sample).1 = inr 15 ∧
  outcome sample_ns sample (IncrBy "n" 0 5) (atomically ("n", 0) (expect "string" (incr_spec 5))).
Proof. split; [by vm_compute|]. apply (IncrBy_correct sample sample_ns "n" 0 5). apply sample_ready. Defined.

Lemma Append_correct_witness :
  (run (Append "n" 0 "x") sample).1 = inr 3 ∧
  outcome sample_ns sample (Append "n" 0 "x") (atomically ("n", 0) (expect "string" (append_spec "x"))).
Proof. split; [by vm_compute|]. apply (Append_correct sample sample_ns "n" 0 "x"). apply sample_ready. Defined.

Lemma StrLen_correct_witness :
  (run (StrLen "t" 0) sample).1 = inr 5 ∧
  outcome sample_ns sample (StrLen "t" 0) (reads ("t", 0) "string" (λ e, Z.of_nat (String.length (default "" (str_of e))))).
Proof. split; [by vm_compute|]. apply (StrLen_correct sample sample_ns "t" 0). apply sample_ready. Defined.
