(* ===== verification/StoreLists.v ===== *)
(** Operations on lists ([src/internal/store/lists.go]). A list is kept as rows
    [(idx, value)] and rewritten as a whole with the indices 0, 1, ... *)
From S2P Require Import Prelude GoStd Float Sql Effects Keyspace Sample Store.
Local Open Scope Z_scope.
Local Open Scope go_scope.

(** ** Operations *)

Definition lAssert (key : string) (dbIdx : Z) : prog (result unit) := assertType key dbIdx "list".

Definition lEnsure (key : string) (dbIdx : Z) : prog (result unit) :=
  _ ⇐? deleteExpired key dbIdx;
  _ ⇐? assertType key dbIdx "list";
  _ ⇐? exec DB (InsertKeyIgnore (key, dbIdx) "list");
  ok tt.

Definition lAll (key : string) (dbIdx : Z) : prog (result (list string)) :=
  query_all DB (SelList (key, dbIdx)).

Definition lRewrite (key : string) (dbIdx : Z) (values : list string) : prog (result unit) :=
  with_tx (
    _ ⇐? exec TX (DeleteList (key, dbIdx));
    _ ⇐? for_each (imap (λ i v, (Z.of_nat i, v)) values) tt (λ _ '(i, v),
      _ ⇐? exec TX (InsertListRow (key, dbIdx) i v);
      ok tt);
    _ ⇐ (if decide (values = []) then exec TX (DeleteKey (key, dbIdx)) else ok 0);
    commit).

(** [prepend[len(values)-1-i] = v] for every [i], [v] of [values]. *)
Definition prepend_of (values : list string) : list string :=
  foldl (λ p '(i, v), <[(length values - 1 - i)%nat := v]> p)
    (replicate (length values) EmptyString) (imap pair values).

Definition LPush (key : string) (dbIdx : Z) (values : list string) : prog (result Z) :=
  _ ⇐? lEnsure key dbIdx;
  existing ⇐? lAll key dbIdx;
  let newList := prepend_of values ++ existing in
  _ ⇐? lRewrite key dbIdx newList;
  ok (Z.of_nat (length newList)).

Definition RPush (key : string) (dbIdx : Z) (values : list string) : prog (result Z) :=
  _ ⇐? lEnsure key dbIdx;
  existing ⇐? lAll key dbIdx;
  let newList := existing ++ values in
  _ ⇐? lRewrite key dbIdx newList;
  ok (Z.of_nat (length newList)).

Definition LPop (key : string) (dbIdx : Z) : prog (result (option string)) :=
  _ ⇐? deleteExpired key dbIdx;
  _ ⇐? lAssert key dbIdx;
  items ⇐? lAll key dbIdx;
  let n := Z.of_nat (length items) in
  if decide (n = 0) then ok None
  else
    val ⇐? checked (go_index items 0);
    rest ⇐? checked (go_slice items 1 n);
    _ ⇐? lRewrite key dbIdx rest;
    ok (Some val).

Definition RPop (key : string) (dbIdx : Z) : prog (result (option string)) :=
  _ ⇐? deleteExpired key dbIdx;
  _ ⇐? lAssert key dbIdx;
  items ⇐? lAll key dbIdx;
  let n := Z.of_nat (length items) in
  if decide (n = 0) then ok None
  else
    val ⇐? checked (go_index items (n - 1));
    rest ⇐? checked (go_slice items 0 (n - 1));
    _ ⇐? lRewrite key dbIdx rest;
    ok (Some val).

Definition LLen (key : string) (dbIdx : Z) : prog (result Z) :=
  _ ⇐? deleteExpired key dbIdx;
  _ ⇐? lAssert key dbIdx;
  r ⇐ query_row DB (CountList (key, dbIdx));
  match r with
  | Row n => ok n
  | NoRows => err (ErrNew "sql: no rows in result set")
  | ScanErr e => err e
  end.

(** The slice selected by [LRange]; [None] would be a panic. *)
Definition range_slice (all : list string) (start stop : Z) : option (list string) :=
  let n := Z.of_nat (length all) in
  let start := if decide (start < 0) then n + start else start in
  let stop := if decide (stop < 0) then n + stop else stop in
  let start := if decide (start < 0) then 0 else start in
  let stop := if decide (n ≤ stop) then n - 1 else stop in
  if decide (start > stop ∨ n ≤ start) then Some []
  else go_slice all start (stop + 1).

Definition LRange (key : string) (dbIdx : Z) (start stop : Z) : prog (result (list string)) :=
  _ ⇐? deleteExpired key dbIdx;
  _ ⇐? lAssert key dbIdx;
  all ⇐? lAll key dbIdx;
  checked (range_slice all start stop).

Definition LIndex (key : string) (dbIdx : Z) (index : Z) : prog (result (option string)) :=
  _ ⇐? deleteExpired key dbIdx;
  _ ⇐? lAssert key dbIdx;
  all ⇐? lAll key dbIdx;
  let n := Z.of_nat (length all) in
  let index := if decide (index < 0) then n + index else index in
  if decide (index < 0 ∨ n ≤ index) then ok None
  else v ⇐? checked (go_index all index); ok (Some v).

Definition LSet (key : string) (dbIdx : Z) (index : Z) (value : string) : prog (result unit) :=
  _ ⇐? deleteExpired key dbIdx;
  _ ⇐? lAssert key dbIdx;
  all ⇐? lAll key dbIdx;
  let n := Z.of_nat (length all) in
  let index := if decide (index < 0) then n + index else index in
  if decide (index < 0 ∨ n ≤ index) then err (ErrNew "ERR index out of range")
  else all' ⇐? checked (go_update all index value); lRewrite key dbIdx all'.

(** The loop that looks for the pivot: its position, or [-1]. *)
Fixpoint pivot_pos (i : Z) (all : list string) (pivot : string) : Z :=
  match all with
  | [] => -1
  | v :: all' => if decide (v = pivot) then i else pivot_pos (i + 1) all' pivot
  end.

Definition LInsert (key : string) (dbIdx : Z) (before : bool) (pivot value : string)
    : prog (result Z) :=
  _ ⇐? deleteExpired key dbIdx;
  _ ⇐? lAssert key dbIdx;
  all ⇐? lAll key dbIdx;
  let pivotPos := pivot_pos 0 all pivot in
  if decide (pivotPos = -1) then ok (-1)
  else
    let insertAt := if before then pivotPos else pivotPos + 1 in
    front ⇐? checked (go_slice all 0 insertAt);
    back ⇐? checked (go_slice all insertAt (Z.of_nat (length all)));
    let newList := front ++ [value] ++ back in
    _ ⇐? lRewrite key dbIdx newList;
    ok (Z.of_nat (length newList)).

(** [for i, j := ...; i < j; i, j = i+1, j-1 { l[i], l[j] = l[j], l[i] }]:
    [fuel] rounds at most, half the length of [l] being enough. *)
Fixpoint swap_loop (fuel : nat) (i j : nat) (l : list string) : list string :=
  match fuel with
  | O => l
  | S fuel' =>
      if decide (i < j)%nat then
        match l !! i, l !! j with
        | Some x, Some y => swap_loop fuel' (i + 1) (j - 1) (<[i := y]> (<[j := x]> l))
        | _, _ => l
        end
      else l
  end.

Definition reverse_in_place (l : list string) : list string :=
  swap_loop (length l) 0 (length l - 1) l.

(** The scan of [LRem]: [(removed, result)]. *)
Definition rem_scan (limit : Z) (value : string) (all : list string) : Z * list string :=
  foldl (λ '(removed, result) v,
    if decide (v = value ∧ (limit = 0 ∨ removed < limit)) then (removed + 1, result)
    else (removed, result ++ [v])) (0, []) all.

(** [LRem] between reading and rewriting: [(removed, result)]. *)
Definition rem_values (count : Z) (value : string) (all : list string) : Z * list string :=
  let fromTail := bool_decide (count < 0) in
  let limit := if fromTail then wrap64 (- count) else count in
  let all := if fromTail then reverse_in_place all else all in
  let '(removed, result) := rem_scan limit value all in
  (removed, if fromTail then reverse_in_place result else result).

Definition LRem (key : string) (dbIdx : Z) (count : Z) (value : string) : prog (result Z) :=
  _ ⇐? deleteExpired key dbIdx;
  _ ⇐? lAssert key dbIdx;
  all ⇐? lAll key dbIdx;
  let '(removed, result) := rem_values count value all in
  _ ⇐? lRewrite key dbIdx result;
  ok removed.

(** ** The pure parts *)

(** The rows [lRewrite] writes for [values], and reading them back in index
    order. *)
Abbreviation indexed values := (map_seqZ 0 values : gmap Z string).

Lemma imap_sorted {A} (f : nat → Z) (l : list A) :
  (∀ i j, (i < j)%nat → f i < f j) →
  StronglySorted (λ x y : Z * A, x.1 < y.1) (imap (λ i v, (f i, v)) l).
Proof.
  revert f. induction l as [|x l IH]; intros f Hf; [constructor|]. rewrite imap_cons. constructor.
  - apply (IH (f ∘ S)). intros i j Hij. apply Hf. lia.
  - apply list.Forall_forall. intros [k v] (n & w & [= -> ->] & _)%elem_of_lookup_imap.
    simpl. apply Hf. lia.
Qed.

#[local] Instance idx_le_total : Total idx_le.
Proof. intros x y. unfold idx_le. lia. Qed.
#[local] Instance idx_le_trans : Transitive idx_le.
Proof. intros x y z. unfold idx_le. lia. Qed.

Lemma length_order_by_idx (r : gmap Z string) : length (order_by_idx r) = size r.
Proof. unfold order_by_idx. by rewrite length_fmap, merge_sort_Permutation, length_map_to_list. Qed.

Lemma order_by_idx_indexed l : order_by_idx (indexed l) = l.
Proof.
  unfold order_by_idx.
  set (pairs := imap (λ i v, (Z.of_nat i, v)) l).
  assert (StronglySorted (λ x y : Z * string, x.1 < y.1) pairs) as Hlt.
  { apply imap_sorted. lia. }
  assert (∀ i v, (i, v) ∈ pairs ↔ indexed l !! i = Some v) as Hin.
  { intros i v. unfold pairs. rewrite elem_of_lookup_imap, lookup_map_seqZ_Some. split.
    - intros (n & w & [= -> ->] & Hn). split; [lia|]. by rewrite Z.sub_0_r, Nat2Z.id.
    - intros [Hi Hv]. rewrite Z.sub_0_r in Hv. exists (Z.to_nat i), v.
      rewrite Z2Nat.id by lia. done. }
  assert (merge_sort idx_le (map_to_list (indexed l)) = pairs) as ->.
  2: { unfold pairs. apply list_eq. intros i. rewrite list_lookup_fmap, list_lookup_imap.
       by destruct (l !! i). }
  apply (StronglySorted_unique_strong idx_le).
  - intros [i v] [j v'] H1 H2 Hij Hji. unfold idx_le in *. simpl in *.
    assert (i = j) as -> by lia. f_equal.
    rewrite merge_sort_Permutation, elem_of_map_to_list in H1. apply Hin in H2. congruence.
  - apply (StronglySorted_merge_sort idx_le).
  - clear -Hlt. induction Hlt as [|x m Hs IH Hx]; constructor; [done|].
    eapply list.Forall_impl; [done|]. intros y. unfold idx_le. lia.
  - rewrite merge_sort_Permutation. apply NoDup_Permutation.
    + apply NoDup_map_to_list.
    + clear -Hlt. induction Hlt as [|x m Hs IH Hx]; constructor; [|done].
      intros Hin. rewrite list.Forall_forall in Hx. specialize (Hx x Hin). lia.
    + intros [i v]. by rewrite elem_of_map_to_list, Hin.
Qed.

(** The values land in reverse order. *)
Lemma prepend_of_reverse values : prepend_of values = reverse values.
Proof.
  unfold prepend_of.
  assert (∀ todo done, values = done ++ todo →
    foldl (λ p '(i, v), <[(length values - 1 - i)%nat := v]> p)
      (replicate (length todo) EmptyString ++ reverse done)
      (imap (λ i v, ((length done + i)%nat, v)) todo) = reverse values) as Hgen.
  { induction todo as [|v todo IH]; intros done Hv.
    - simpl. by rewrite Hv, app_nil_r.
    - rewrite imap_cons. cbn [foldl]. rewrite Nat.add_0_r.
      specialize (IH (done ++ [v])). rewrite <- app_assoc in IH. specialize (IH Hv).
      rewrite <- IH. rewrite length_app, Hv, length_app. simpl. f_equal.
      + change ("" :: replicate ?n "" ++ ?r) with (replicate (S n) "" ++ r).
        rewrite replicate_S_end, <- app_assoc, insert_app_r_alt by (rewrite length_replicate; lia).
        rewrite length_replicate. replace (_ - _)%nat with 0%nat by lia. by rewrite reverse_app.
      + apply imap_ext. intros i x _. simpl. f_equal. lia. }
  specialize (Hgen values [] eq_refl). simpl in Hgen. rewrite app_nil_r in Hgen. done.
Qed.

Lemma insert_middle {A} (l1 l2 : list A) x y n :
  n = length l1 → <[n := y]> (l1 ++ x :: l2) = l1 ++ y :: l2.
Proof. intros ->. rewrite insert_app_r_alt by done. by rewrite Nat.sub_diag. Qed.

(** Swapping inwards from both ends reverses what lies between. *)
Lemma swap_loop_reverse fuel pre mid suf :
  (length mid ≤ 2 * fuel + 1)%nat →
  swap_loop fuel (length pre) (length pre + length mid - 1) (pre ++ mid ++ suf) =
    pre ++ reverse mid ++ suf.
Proof.
  revert pre mid suf. induction fuel as [|fuel IH]; intros pre mid suf Hm.
  { destruct mid as [|x [|]]; simpl in *; [done..|lia]. }
  cbn [swap_loop]. destruct mid as [|x mid]; [rewrite decide_False by (simpl; lia); done|].
  destruct mid as [|z mid _] using rev_ind; [rewrite decide_False by (simpl; lia); done|].
  simpl in Hm. rewrite length_app in Hm. simpl in Hm.
  assert ((pre ++ (x :: mid ++ [z]) ++ suf) = (pre ++ x :: mid) ++ z :: suf) as Hshape
    by by simpl; rewrite <- !app_assoc.
  assert (length pre + length (x :: mid ++ [z]) - 1 = length (pre ++ x :: mid))%nat as ->
    by (simpl; rewrite !length_app; simpl; lia).
  rewrite decide_True by (rewrite length_app; simpl; lia).
  change ((x :: mid ++ [z]) ++ suf) with (x :: (mid ++ [z]) ++ suf) in *.
  rewrite (list_lookup_middle pre ((mid ++ [z]) ++ suf)) by done.
  rewrite Hshape, list_lookup_middle by done.
  rewrite insert_middle by done. rewrite <- app_assoc. cbn [app].
  rewrite insert_middle by done.
  specialize (IH (pre ++ [z]) mid (x :: suf)).
  rewrite !length_app in *. rewrite <- !app_assoc in IH. cbn [app length] in *.
  rewrite reverse_cons, reverse_app, reverse_singleton, <- !app_assoc. cbn [app].
  rewrite <- IH by lia. f_equal. lia.
Qed.

Lemma reverse_in_place_correct l : reverse_in_place l = reverse l.
Proof.
  unfold reverse_in_place. pose proof (swap_loop_reverse (length l) [] l []) as H.
  simpl in H. rewrite !app_nil_r in H. apply H. lia.
Qed.

(** The elements [LRANGE] asks for: those whose position lies between the two
    indices, negative ones counting from the end. *)
Definition from_end (n i : Z) : Z := if decide (i < 0) then n + i else i.

Definition elements_between (l : list string) (start stop : Z) : list string :=
  let n := Z.of_nat (length l) in
  (filter (λ p, from_end n start ≤ Z.of_nat p.1 ≤ from_end n stop) (imap pair l)).*2.

Lemma filter_none {A} (P : A → Prop) `{!∀ x, Decision (P x)} (l : list A) :
  (∀ x, x ∈ l → ¬ P x) → filter P l = [].
Proof.
  induction l as [|x l IH]; intros Hl; [done|]. rewrite filter_cons, decide_False.
  - apply IH. intros y Hy. apply Hl. by right.
  - apply Hl. by left.
Qed.

Lemma filter_all {A} (P : A → Prop) `{!∀ x, Decision (P x)} (l : list A) :
  (∀ x, x ∈ l → P x) → filter P l = l.
Proof.
  induction l as [|x l IH]; intros Hl; [done|]. rewrite filter_cons, decide_True.
  - f_equal. apply IH. intros y Hy. apply Hl. by right.
  - apply Hl. by left.
Qed.

Lemma filter_ext_in {A} (P Q : A → Prop) `{!∀ x, Decision (P x), !∀ x, Decision (Q x)} (l : list A) :
  (∀ x, x ∈ l → P x ↔ Q x) → filter P l = filter Q l.
Proof.
  induction l as [|x l IH]; intros Hl; [done|]. rewrite !filter_cons.
  rewrite (decide_ext (P x) (Q x)) by (apply Hl; by left).
  rewrite IH; [done|]. intros y Hy. apply Hl. by right.
Qed.

Lemma imap_pair_app {A} (l1 l2 : list A) :
  imap pair (l1 ++ l2) = imap pair l1 ++ imap (λ i x, ((length l1 + i)%nat, x)) l2.
Proof. apply imap_app. Qed.

Lemma imap_pair_snd {A I} (f : nat → I) (l : list A) : (imap (λ i x, (f i, x)) l).*2 = l.
Proof.
  apply list_eq. intros i. rewrite list_lookup_fmap, list_lookup_imap. by destruct (l !! i).
Qed.

(** Filtering by position is slicing. *)
Lemma filter_between (a b : nat) (l : list string) :
  (a ≤ b ≤ length l)%nat →
  (filter (λ p : nat * string, Z.of_nat a ≤ Z.of_nat p.1 ≤ Z.of_nat b - 1) (imap pair l)).*2 =
    take (b - a) (drop a l).
Proof.
  intros Hab. set (P := λ p : nat * string, _).
  assert (l = take a l ++ take (b - a) (drop a l) ++ drop b l) as Hl.
  { rewrite <- (take_drop a l) at 1. f_equal. rewrite <- (take_drop (b - a) (drop a l)) at 1.
    rewrite drop_drop. by replace (a + (b - a))%nat with b by lia. }
  rewrite Hl at 1. rewrite !imap_pair_app, imap_app, !list.filter_app.
  assert (length (take a l) = a) as Ha by (rewrite length_take; lia).
  assert (length (take (b - a) (drop a l)) = b - a)%nat as Hb by (rewrite length_take, length_drop; lia).
  rewrite (filter_none P (imap pair _)), (filter_all P (imap _ (take _ _))), (filter_none P (imap _ (drop b l))).
  - simpl. rewrite app_nil_r. apply (imap_pair_snd (λ i, (length (take a l) + i)%nat)).
  - intros p (i & v & -> & Hi)%elem_of_lookup_imap. unfold P; simpl. lia.
  - intros p (i & v & -> & Hi%lookup_lt_Some)%elem_of_lookup_imap. unfold P; simpl. lia.
  - intros p (i & v & -> & Hi%lookup_lt_Some)%elem_of_lookup_imap. unfold P; simpl. lia.
Qed.

(** [LRange] never slices out of range, and slices what was asked for. *)
Lemma range_slice_correct l start stop :
  range_slice l start stop = Some (elements_between l start stop).
Proof.
  unfold range_slice, elements_between. fold (from_end (Z.of_nat (length l)) start).
  fold (from_end (Z.of_nat (length l)) stop). set (n := Z.of_nat (length l)).
  generalize (from_end n start) as s, (from_end n stop) as t. intros s t.
  set (s' := if decide (s < 0) then 0 else s). set (t' := if decide (n ≤ t) then n - 1 else t).
  assert (filter (λ p : nat * string, s ≤ Z.of_nat p.1 ≤ t) (imap pair l) =
    filter (λ p : nat * string, s' ≤ Z.of_nat p.1 ≤ t') (imap pair l)) as ->.
  { apply filter_ext_in. intros p (i & v & -> & Hi%lookup_lt_Some)%elem_of_lookup_imap.
    simpl. unfold s', t'. repeat case_decide; lia. }
  assert (0 ≤ s') by (unfold s'; case_decide; lia).
  assert (t' < n) by (unfold t'; case_decide; lia).
  case_decide as Hd.
  - rewrite filter_none; [done|]. intros p (i & v & -> & Hi%lookup_lt_Some)%elem_of_lookup_imap.
    simpl. lia.
  - rewrite go_slice_some by lia. rewrite Z2Nat.inj_sub, <- filter_between by lia.
    do 2 f_equal. symmetry. apply list_filter_iff. intros p. lia.
Qed.

(** ** [LREM] *)

(** [l] without the first [n] occurrences of [v]. *)
Fixpoint rem_first (n : nat) (v : string) (l : list string) : list string :=
  match l with
  | [] => []
  | x :: l' =>
      if decide (x = v) then match n with O => x :: l' | S n' => rem_first n' v l' end
      else x :: rem_first n v l'
  end.

(** What [LREM] leaves: [count > 0] removes from the head, [count < 0] from
    the tail, 0 removes every occurrence. *)
Definition rem_occurrences (count : Z) (v : string) (l : list string) : list string :=
  if decide (count = 0) then filter (λ x, x ≠ v) l
  else if decide (count < 0) then reverse (rem_first (Z.to_nat (- count)) v (reverse l))
  else rem_first (Z.to_nat count) v l.

Lemma rem_first_none v l : rem_first 0 v l = l.
Proof. induction l as [|x l IH]; simpl; [done|]. case_decide; by rewrite ?IH. Qed.

Lemma rem_first_length n v l : (length (rem_first n v l) ≤ length l)%nat.
Proof.
  revert n. induction l as [|x l IH]; intros n; simpl; [done|].
  case_decide; [destruct n; simpl; [done|]|simpl]; specialize (IH n); lia.
Qed.

Lemma rem_scan_gen limit v l r acc :
  0 ≤ r →
  foldl (λ '(removed, result) x,
    if decide (x = v ∧ (limit = 0 ∨ removed < limit)) then (removed + 1, result)
    else (removed, result ++ [x])) (r, acc) l =
  let rest := if decide (limit = 0) then filter (λ x, x ≠ v) l
              else rem_first (Z.to_nat (limit - r)) v l in
  (r + Z.of_nat (length l - length rest), acc ++ rest).
Proof.
  revert r acc. induction l as [|x l IH]; intros r acc Hr; cbn [foldl].
  { simpl. case_decide; simpl; by rewrite Z.add_0_r, app_nil_r. }
  destruct (decide (x = v ∧ (limit = 0 ∨ r < limit))) as [Hx|Hx].
  - destruct Hx as [-> Hx]. rewrite IH by lia. case_decide as Hl.
    + cbv zeta. rewrite filter_cons, decide_False by naive_solver.
      pose proof (length_filter (λ x, x ≠ v) l). f_equal. simpl. lia.
    + destruct Hx as [?|Hx]; [done|]. simpl. rewrite decide_True by done.
      destruct (Z.to_nat (limit - r)) as [|n] eqn:Hn; [lia|].
      replace (Z.to_nat (limit - (r + 1))) with n by lia.
      pose proof (rem_first_length n v l). f_equal. lia.
  - rewrite IH by done. case_decide as Hl.
    + cbv zeta. rewrite filter_cons, decide_True by naive_solver. rewrite <- app_assoc. done.
    + simpl. destruct (decide (x = v)) as [Hxv|]; [|simpl; by rewrite <- app_assoc]. subst.
      destruct (Z.to_nat (limit - r)) as [|n] eqn:Hn; [|exfalso; apply Hx; split; [done|lia]].
      rewrite rem_first_none, <- app_assoc. done.
Qed.

(** The scan removes the first [limit] occurrences, or all for 0, and counts
    what it removes. *)
Lemma rem_scan_correct limit v l :
  let rest := if decide (limit = 0) then filter (λ x, x ≠ v) l
              else rem_first (Z.to_nat limit) v l in
  rem_scan limit v l = (Z.of_nat (length l - length rest), rest).
Proof. unfold rem_scan. rewrite rem_scan_gen by done. by rewrite Z.sub_0_r. Qed.

(** ** [LINSERT] *)

(** [value] next to the first occurrence of [pivot]. *)
Fixpoint insert_near (before : bool) (pivot value : string) (l : list string) : option (list string) :=
  match l with
  | [] => None
  | x :: l' =>
      if decide (x = pivot) then Some (if before then value :: x :: l' else x :: value :: l')
      else cons x <$> insert_near before pivot value l'
  end.

Lemma pivot_pos_shift i l pivot :
  pivot_pos i l pivot = if decide (pivot ∈ l) then i + pivot_pos 0 l pivot else -1.
Proof.
  revert i. induction l as [|x l IH]; intros i; cbn [pivot_pos].
  { rewrite decide_False; [done|]. by apply not_elem_of_nil. }
  destruct (decide (x = pivot)) as [->|Hne].
  - rewrite decide_True; [lia|by left].
  - rewrite (IH (i + 1)), (IH (0 + 1)). destruct (decide (pivot ∈ l)).
    + rewrite decide_True; [lia|by right].
    + rewrite decide_False; [done|]. by intros [->|?]%elem_of_cons.
Qed.

Lemma pivot_pos_bound l pivot : pivot ∈ l → 0 ≤ pivot_pos 0 l pivot < Z.of_nat (length l).
Proof.
  induction l as [|x l IH]; [by intros ?%not_elem_of_nil|]. intros Hin. cbn [pivot_pos length].
  case_decide as Hx; [lia|]. rewrite pivot_pos_shift.
  apply elem_of_cons in Hin as [->|Hin]; [done|]. rewrite decide_True by done.
  specialize (IH Hin). lia.
Qed.

(** The list [LInsert] builds. *)
Definition insert_at (l : list string) (at_ : Z) (value : string) : list string :=
  take (Z.to_nat at_) l ++ [value] ++ drop (Z.to_nat at_) l.

Lemma insert_near_pos before pivot value l :
  insert_near before pivot value l =
    let pos := pivot_pos 0 l pivot in
    if decide (pos = -1) then None
    else Some (insert_at l (if before then pos else pos + 1) value).
Proof.
  induction l as [|x l IH]; [done|]. cbn [insert_near pivot_pos].
  case_decide as Hx; [by destruct before|]. rewrite IH. cbv zeta.
  rewrite (pivot_pos_shift (0 + 1)). destruct (decide (pivot ∈ l)) as [Hin|Hn].
  - pose proof (pivot_pos_bound l pivot Hin). rewrite !decide_False by lia. simpl. f_equal.
    unfold insert_at. destruct before.
    + replace (Z.to_nat (0 + 1 + _)) with (S (Z.to_nat (pivot_pos 0 l pivot))) by lia. reflexivity.
    + replace (Z.to_nat (0 + 1 + _ + 1)) with (S (Z.to_nat (pivot_pos 0 l pivot + 1))) by lia. reflexivity.
  - rewrite (pivot_pos_shift 0 l), (decide_False (P := pivot ∈ l)) by done. done.
Qed.

(** ** Rewriting the rows *)

(** The rows of a list key holding [values]; an empty list is no key. *)
Definition list_rows (exp : option Z) (values : list string) : slice :=
  match values with [] => empty_slice | _ => list_slice exp (indexed values) end.

(** What [lRewrite] may leave on a failing engine: the old or the new rows,
    reported as an error, or a key without rows, whose final deletion's error
    the source drops. *)
Definition rewrite_failed (exp : option Z) (l : gmap Z string) (values : list string)
    (r : result unit) (sl : slice) : Prop :=
  (∃ e, r = inl (ErrDb e)) ∧ (sl = list_slice exp l ∨ sl = list_rows exp values) ∨
  (r = inr tt ∨ ∃ e, r = inl (ErrDb e)) ∧ values = [] ∧ sl = list_slice exp ∅.

Section rewrite.
Context (F : Prop) (ns : Z) (T0 : Tables) (key : string) (db : Z).
Abbreviation k := (key, db).

(** The insertion loop fills the table with the indexed rows. *)
Lemma wp_insert_rows exp sl values Q σ :
  in_tx ns T0 k sl (list_slice exp ∅) σ →
  (∀ σ', in_tx ns T0 k sl (list_slice exp (indexed values)) σ' → Q (inr tt) σ') →
  (F → ∀ e sl' σ', in_tx ns T0 k sl sl' σ' → Q (inl (ErrDb e)) σ') →
  wp F (for_each (imap (λ i v, (Z.of_nat i, v)) values) tt (λ _ '(i, v),
          _ ⇐? exec TX (InsertListRow k i v); ok tt)) Q σ.
Proof.
  intros Hq Hok Herr.
  apply (wp_for_each _ (λ done _ σ', in_tx ns T0 k sl (list_slice exp (indexed done.*2)) σ')).
  - done.
  - intros done [i v] todo [] σ' Hl Hq'.
    assert (i = Z.of_nat (length done)) as ->.
    { assert (imap (λ i v, (Z.of_nat i, v)) values !! length done = Some (i, v)) as Hi
        by by rewrite Hl, list_lookup_middle.
      rewrite list_lookup_imap in Hi. by destruct (values !! length done); simplify_eq/=. }
    apply wp_err_bind.
    eapply (wp_slice_exec_tx _ _ _ _ _ _ _ 1 (list_slice exp (indexed (done ++ [(_, v)]).*2)));
      [done|done| | |].
    + simpl. rewrite fmap_app. simpl. rewrite map_seqZ_snoc, length_fmap, Z.add_0_l.
      assert ((indexed done.*2) !! Z.of_nat (length done) = None) as ->; [|done].
      apply lookup_map_seqZ_None. rewrite length_fmap. lia.
    + intros σ'' Hq''. by apply wp_ret.
    + intros HF e σ'' slw Hq''. by eapply Herr.
  - intros [] σ' Hq'. apply Hok. by rewrite imap_pair_snd in Hq'.
Qed.

Lemma wp_lRewrite exp l values Q σ :
  quiet ns T0 k (list_slice exp l) σ →
  (∀ σ', quiet ns T0 k (list_rows exp values) σ' → Q (inr tt) σ') →
  (F → ∀ r sl σ', quiet ns T0 k sl σ' → rewrite_failed exp l values r sl → Q r σ') →
  wp F (lRewrite key db values) Q σ.
Proof.
  intros Hq Hok Herr. unfold lRewrite.
  assert (∀ e sl σ', F → in_tx ns T0 k (list_slice exp l) sl σ' → Q (inl (ErrDb e)) (set_work None σ')) as Hroll.
  { intros e sl σ' HF Hq'. eapply (Herr HF); [by eapply in_tx_rollback|]. left. eauto. }
  eapply wp_slice_with_tx; [done| |intros HF e; eapply (Herr HF); [done|left; eauto]].
  intros σ1 Hq1. apply wp_err_bind.
  eapply wp_slice_exec_tx; [done|done|done| |intros; by eapply Hroll]. intros σ2 Hq2.
  apply wp_err_bind. eapply wp_insert_rows; [done| |intros; by eapply Hroll]. intros σ3 Hq3.
  assert (∀ slw σ', in_tx ns T0 k (list_slice exp l) slw σ' →
    (slw = list_rows exp values ∨ F ∧ values = [] ∧ slw = list_slice exp ∅) →
    wp F commit (λ r σ'', Q r (set_work None σ'')) σ') as Hcommit.
  { intros slw σ' Hq' Hslw. eapply wp_slice_commit; [done|..].
    - intros σ'' Hq''%quiet_rollback. destruct Hslw as [->|(HF & Hv & ->)]; [by apply Hok|].
      eapply (Herr HF); [done|]. right. auto.
    - intros HF e σ'' [Hq''|Hq'']; apply quiet_rollback in Hq'';
        (eapply (Herr HF); [done|]); [left; eauto|].
      destruct Hslw as [->|(_ & Hv & ->)]; [left; eauto|right; eauto]. }
  apply wp_bind. destruct values as [|v values]; simpl.
  - eapply wp_slice_exec_tx_any; [done|done|..].
    + intros n slw σ4 [= <- <-] Hq4. eapply Hcommit; [done|by left].
    + intros e slw σ4 [[-> [HF|?]]|[HF [n [= <- <-]]]] Hq4; [|done|].
      * eapply Hcommit; [done|right; auto].
      * eapply Hcommit; [done|by left].
  - apply wp_ret. eapply Hcommit; [done|by left].
Qed.

(** Rewriting an absent list to an empty one. *)
Lemma wp_lRewrite_absent Q σ :
  quiet ns T0 k empty_slice σ →
  (∀ r σ', quiet ns T0 k empty_slice σ' → r = inr tt ∨ F ∧ (∃ e, r = inl (ErrDb e)) → Q r σ') →
  wp F (lRewrite key db []) Q σ.
Proof.
  intros Hq Hok. unfold lRewrite. cbn [imap for_each]. repeat sql_step; cbn [decide].
  all: try (rolled_back; eapply Hok; [done|]; eauto).
  assert (∀ slw σ', in_tx ns T0 k empty_slice slw σ' → slw = empty_slice →
    wp F commit (λ r σ'', Q r (set_work None σ'')) σ') as Hcommit.
  { intros slw σ1 Hq1 ->. repeat sql_step; rolled_back; eapply Hok; eauto. }
  rewrite decide_True by done. eapply wp_slice_exec_tx_any; [done|done|..].
  - intros n slw σ2 [= <- <-] Hq2. by eapply Hcommit.
  - intros e slw σ2 Hf Hq2. eapply Hcommit; [done|].
    by destruct Hf as [[-> _]|[_ [n [= <- <-]]]].
Qed.
End rewrite.

(** ** Contracts of the list operations *)

(** An empty list is no key. *)
Definition put_list (l : list string) (exp : option Z) : option entry :=
  match l with [] => None | _ => Some (mkEntry (RList l) exp) end.

(** On a failing engine a list operation leaves the old or the new entry, or,
    where it creates or empties the list, a key holding the empty list. *)
Definition list_crash {A} (f : option entry → result A * option entry)
    (e : option entry) (r : result A) (e' : option entry) : Prop :=
  db_error r ∧ (e' = e ∨ e' = (f e).2) ∨
  (r = (f e).1 ∨ db_error r) ∧ (e = None ∨ (f e).2 = None) ∧
    e' = Some (mkEntry (RList []) (exp_of e)).

Definition on_list {A} (k : kid) (f : option entry → result A * option entry) : contract A :=
  on_entry k (expect "list" f) (list_crash (expect "list" f)).

Lemma list_crash_old {A} (f : option entry → result A * option entry) e c :
  list_crash f e (inl (ErrDb c)) e.
Proof. left. split; [by eexists|by left]. Qed.
#[local] Hint Resolve list_crash_old : sqlresp.

Lemma abs_list_rows now exp values :
  aliveWhere now (mkKeyRow "list" exp) = true →
  abs_entry now (list_rows exp values) = put_list values exp.
Proof.
  intros Ha. destruct values as [|v values]; [done|]. unfold list_rows.
  rewrite abs_list, order_by_idx_indexed. by rewrite (stored_alive _ _ _ "list").
Qed.

Lemma wf_list_rows exp values : wf_slice (list_rows exp values).
Proof. destruct values; constructor. Qed.
#[local] Hint Resolve wf_list_rows : sqlresp.

(** The end of every list update: rewriting the rows of a live list to
    [values] and answering [a] establishes the contract of an operation that
    does just that. *)
Lemma wp_update_list F ns T0 key db {A} (f : option entry → result A * option entry)
    exp l values (a : A) e σ :
  quiet ns T0 (key, db) (list_slice exp l) σ →
  aliveWhere (unix_milli ns) (mkKeyRow "list" exp) = true →
  expect "list" f e = (inr a, put_list values exp) →
  (e = Some (mkEntry (RList (order_by_idx l)) exp) ∨ e = None ∧ l = ∅ ∧ exp = None) →
  wp F (_ ⇐? lRewrite key db values; ok a)
    (entry_post F ns T0 (key, db) (expect "list" f) (list_crash (expect "list" f)) e) σ.
Proof.
  intros Hq Ha Hf He. apply wp_err_bind. eapply wp_lRewrite; [done|..].
  - intros σ' Hq'. apply wp_ret. eapply entry_post_ok; [done|apply wf_list_rows|].
    by rewrite abs_list_rows.
  - intros HF r sl σ' Hq' Hr.
    assert (abs_entry (unix_milli ns) (list_slice exp l) = Some (mkEntry (RList (order_by_idx l)) exp)) as Hl
      by by rewrite abs_list, (stored_alive _ _ _ "list").
    assert (exp_of e = exp) as Hexp by by destruct He as [->|(-> & _ & ->)].
    destruct Hr as [[[c ->] Hsl]|(Hr & -> & ->)].
    + eapply entry_post_crash; [done|destruct Hsl as [->| ->]; auto with sqlresp|done|].
      destruct Hsl as [->| ->]; [rewrite Hl|rewrite abs_list_rows by done].
      * destruct He as [->|(-> & -> & ->)]; [by left; split; [eexists|left]|].
        right. split; [right; by eexists|]. split; [by left|done].
      * left. split; [by eexists|]. right. by rewrite Hf.
    + assert (abs_entry (unix_milli ns) (list_slice exp ∅) = Some (mkEntry (RList []) exp)) as H0
        by by rewrite abs_list, (stored_alive _ _ _ "list").
      assert (∀ r', r' = inr a ∨ db_error r' →
        entry_post F ns T0 (key, db) (expect "list" f) (list_crash (expect "list" f)) e r' σ') as Hend.
      { intros r' Hr'. eapply entry_post_crash; [done|apply wf_list|done|]. rewrite H0.
        right. by rewrite Hf, Hexp; auto. }
      destruct Hr as [->|[c ->]]; [apply wp_ret|]; apply Hend; [by left|right; by eexists].
Qed.

(** ... when the operation ends with the rewriting itself. *)
Lemma wp_lRewrite_end F key db values Q σ :
  wp F (_ ⇐? lRewrite key db values; ok tt) Q σ → wp F (lRewrite key db values) Q σ.
Proof. rewrite wp_err_bind_iff. intros Hwp. eapply wp_mono; [|exact Hwp]. by intros [e|[]] σ'. Qed.

(** The list operations of the program, on the value of a live list. *)
Definition push_spec (front : bool) (values : list string) (e : option entry) : result Z * option entry :=
  let l := if front then reverse values ++ list_of e else list_of e ++ values in
  (inr (Z.of_nat (length l)), put_list l (exp_of e)).

Ltac enter_ensured cases := apply wp_ensured; enter_guarded cases.

(** The answer to [lAll]. *)
Ltac list_read :=
  match goal with
  | H : answers (SelList _) _ ?rows |- _ => unfold answers in H; simpl in H; subst rows
  end; norm_slices; change (order_by_idx ∅) with (@nil string).

Ltac list_steps :=
  repeat (lazymatch goal with
  | H : answers (SelList _) _ _ |- _ => list_read
  | |- wp _ (err_bind (lRewrite _ _ _) _) _ _ => fail
  | |- _ => sql_step
  end).

(** Reading commands end here. *)
Ltac close_list :=
  first [ close_entry | by done_crash; left; split; [apply db_error_db|]; live_entries; auto
        | by done_crash; right; split; [right; apply db_error_db|]; live_entries; auto ].

(** The writing end of a list command on a list that exists. *)
Ltac list_write :=
  norm_slices;
  match goal with
  | |- wp ?F ?p (entry_post _ _ _ _ _ _ (abs_entry _ (list_slice ?exp ?l))) _ =>
      rewrite abs_list, (stored_alive _ _ _ "list") by assumption;
      eapply wp_update_list; [eassumption|assumption| |by left]
  | |- wp ?F ?p (entry_post _ _ _ _ _ _ (abs_entry _ empty_slice)) _ =>
      change (abs_entry _ empty_slice) with (@None entry);
      eapply wp_update_list; [eassumption|done| |by right]
  end.

Lemma meets_LPush F ns key dbIdx values st :
  ready ns st →
  meets F ns (LPush key dbIdx values) (on_list (key, dbIdx) (push_spec true values)) st.
Proof.
  start_entry. unfold LPush, lEnsure, lAll. enter_ensured wf_list_cases.
  all: list_steps; first [close_list | list_write; by rewrite prepend_of_reverse].
Qed.

(** C12: [LPUSH] puts its arguments in front one by one, so in reverse order;
    [RPUSH] appends them. Both answer the new length and keep the deadline. *)
Theorem LPush_correct `{Engine E} (w : E) ns key dbIdx values :
  ready ns (view w) →
  outcome ns w (LPush key dbIdx values) (on_list (key, dbIdx) (push_spec true values)).
Proof. intros Hr. by apply meets_outcome, meets_LPush. Qed.

Lemma meets_RPush F ns key dbIdx values st :
  ready ns st →
  meets F ns (RPush key dbIdx values) (on_list (key, dbIdx) (push_spec false values)) st.
Proof.
  start_entry. unfold RPush, lEnsure, lAll. enter_ensured wf_list_cases;
    list_steps; first [close_list | by list_write].
Qed.

Theorem RPush_correct `{Engine E} (w : E) ns key dbIdx values :
  ready ns (view w) →
  outcome ns w (RPush key dbIdx values) (on_list (key, dbIdx) (push_spec false values)).
Proof. intros Hr. by apply meets_outcome, meets_RPush. Qed.

(** [LPOP] and [RPOP] take the first or last element off; the last element
    takes the key with it. *)
Definition pop_spec (front : bool) (e : option entry) : result (option string) * option entry :=
  match list_of e with
  | [] => (inr None, e)
  | l => (inr (if front then head l else list.last l),
          put_list (if front then tail l else take (length l - 1) l) (exp_of e))
  end.

Lemma pop_front_in_range x (l : list string) :
  go_index (x :: l) 0 = Some x ∧ go_slice (x :: l) 1 (Z.of_nat (length (x :: l))) = Some l.
Proof.
  split; [done|]. rewrite go_slice_some by (cbn [length]; lia).
  rewrite take_ge; [done|]. rewrite length_drop. cbn [length]. lia.
Qed.

Lemma pop_back_in_range (l : list string) : l ≠ [] →
  let n := Z.of_nat (length l) in
  ∃ x, list.last l = Some x ∧ go_index l (n - 1) = Some x ∧
    go_slice l 0 (n - 1) = Some (take (length l - 1) l).
Proof.
  intros Hl n. destruct l as [|x l] using rev_ind; [done|]. clear IHl. exists x. unfold n.
  rewrite length_app; simpl. split; [by rewrite last_snoc|].
  replace (Z.of_nat (length l + 1) - 1) with (Z.of_nat (length l)) by lia. split.
  - unfold go_index. rewrite decide_True, Nat2Z.id by lia. by apply list_lookup_middle.
  - rewrite go_slice_some by (rewrite ?length_app; lia). f_equal. rewrite Z.sub_0_r, Nat2Z.id. simpl.
    f_equal. lia.
Qed.

Lemma meets_LPop F ns key dbIdx st :
  ready ns st →
  meets F ns (LPop key dbIdx) (on_list (key, dbIdx) (pop_spec true)) st.
Proof.
  start_entry. unfold LPop, lAssert, lAll. enter_guarded wf_list_cases; list_steps; try close_list.
  destruct (order_by_idx x0) as [|v l] eqn:HL; (case_decide; [|]); try done.
  - sql_step. by done_ok; rewrite HL.
  - destruct (pop_front_in_range v l) as [-> ->]. list_steps. list_write. by rewrite HL.
Qed.

(** LPOP removes the first element; the last one takes the key with it.
    *)
Theorem LPop_correct `{Engine E} (w : E) ns key dbIdx :
  ready ns (view w) →
  outcome ns w (LPop key dbIdx) (on_list (key, dbIdx) (pop_spec true)).
Proof. intros Hr. by apply meets_outcome, meets_LPop. Qed.

Lemma meets_RPop F ns key dbIdx st :
  ready ns st →
  meets F ns (RPop key dbIdx) (on_list (key, dbIdx) (pop_spec false)) st.
Proof.
  start_entry. unfold RPop, lAssert, lAll. enter_guarded wf_list_cases; list_steps; try close_list.
  destruct (order_by_idx x0) as [|v l] eqn:HL; (case_decide; [|]); try done.
  - sql_step. by done_ok; rewrite HL.
  - destruct (pop_back_in_range (v :: l)) as (y & Hy & -> & ->); [done|].
    list_steps. list_write. rewrite HL. unfold expect; simpl. unfold pop_spec; simpl. by rewrite <- Hy.
Qed.

Theorem RPop_correct `{Engine E} (w : E) ns key dbIdx :
  ready ns (view w) →
  outcome ns w (RPop key dbIdx) (on_list (key, dbIdx) (pop_spec false)).
Proof. intros Hr. by apply meets_outcome, meets_RPop. Qed.

Lemma meets_LLen F ns key dbIdx st :
  ready ns st →
  meets F ns (LLen key dbIdx)
    (reads (key, dbIdx) "list" (λ e, Z.of_nat (length (list_of e)))) st.
Proof.
  start_entry. unfold LLen, lAssert. enter_guarded wf_list_cases; list_steps; try close_entry.
  done_ok. rewrite length_order_by_idx. done.
Qed.

(** [LLEN], [LRANGE], [LINDEX] read. *)
Theorem LLen_correct `{Engine E} (w : E) ns key dbIdx :
  ready ns (view w) →
  outcome ns w (LLen key dbIdx)
    (reads (key, dbIdx) "list" (λ e, Z.of_nat (length (list_of e)))).
Proof. intros Hr. by apply meets_outcome, meets_LLen. Qed.

Lemma meets_LRange F ns key dbIdx start stop st :
  ready ns st →
  meets F ns (LRange key dbIdx start stop)
    (reads (key, dbIdx) "list" (λ e, elements_between (list_of e) start stop)) st.
Proof.
  start_entry. unfold LRange, lAssert, lAll. enter_guarded wf_list_cases; list_steps; try close_entry.
  all: rewrite range_slice_correct; sql_step; by close_entry.
Qed.

(** C37: LRANGE answers the elements between two indices, negative ones
    counting from the end, and never slices out of range. *)
Theorem LRange_correct `{Engine E} (w : E) ns key dbIdx start stop :
  ready ns (view w) →
  outcome ns w (LRange key dbIdx start stop)
    (reads (key, dbIdx) "list" (λ e, elements_between (list_of e) start stop)).
Proof. intros Hr. by apply meets_outcome, meets_LRange. Qed.

(** The element at an index, negative ones counting from the end. *)
Definition element_at (l : list string) (index : Z) : option string :=
  go_index l (from_end (Z.of_nat (length l)) index).

(** The bounds check of [LIndex] and [LSet]. *)
Lemma element_at_checked l index :
  let n := Z.of_nat (length l) in
  let i := from_end n index in
  (i < 0 ∨ n ≤ i) ∧ element_at l index = None ∨
  ¬ (i < 0 ∨ n ≤ i) ∧ ∃ v, go_index l i = Some v ∧ element_at l index = Some v ∧
    ∀ w, go_update l i w = Some (<[Z.to_nat i := w]> l).
Proof.
  intros n i. unfold element_at. fold n. fold i. unfold go_index, go_update.
  destruct (decide (i < 0 ∨ n ≤ i)) as [Hi|Hi]; [left|right]; (split; [done|]).
  - case_decide; [|done]. apply lookup_ge_None. lia.
  - rewrite decide_True by lia. destruct (lookup_lt_is_Some_2 l (Z.to_nat i)) as [v Hv]; [lia|].
    exists v. split; [done|]. split; [done|]. intros w. rewrite decide_True by lia. done.
Qed.

Ltac check_index index :=
  match goal with
  | |- wp _ (if decide (_ < 0 ∨ Z.of_nat (length ?l) ≤ _) then _ else _) _ _ =>
      change (if decide (index < 0) then _ else _) with (from_end (Z.of_nat (length l)) index);
      let Hi := fresh "Hi" in let v := fresh "v" in let Hg := fresh "Hg" in
      let Hv := fresh "Hv" in let Hup := fresh "Hup" in
      destruct (element_at_checked l index) as [[Hi Hv]|(Hi & v & Hg & Hv & Hup)]
  end.

Lemma meets_LIndex F ns key dbIdx index st :
  ready ns st →
  meets F ns (LIndex key dbIdx index)
    (reads (key, dbIdx) "list" (λ e, element_at (list_of e) index)) st.
Proof.
  start_entry. unfold LIndex, lAssert, lAll. enter_guarded wf_list_cases; list_steps; try close_entry.
  all: check_index index.
  all: first [rewrite decide_True by done|rewrite decide_False by done; rewrite Hg]; list_steps.
  all: close_entry by (rewrite ?Hv).
Qed.

Theorem LIndex_correct `{Engine E} (w : E) ns key dbIdx index :
  ready ns (view w) →
  outcome ns w (LIndex key dbIdx index)
    (reads (key, dbIdx) "list" (λ e, element_at (list_of e) index)).
Proof. intros Hr. by apply meets_outcome, meets_LIndex. Qed.

(** [LSET] replaces the element at an index of the list. *)
Definition set_element_spec (index : Z) (value : string) (e : option entry) : result unit * option entry :=
  match element_at (list_of e) index with
  | None => (inl (ErrNew "ERR index out of range"), e)
  | Some _ =>
      let i := Z.to_nat (from_end (Z.of_nat (length (list_of e))) index) in
      (inr tt, put_list (<[i := value]> (list_of e)) (exp_of e))
  end.

Lemma meets_LSet F ns key dbIdx index value st :
  ready ns st →
  meets F ns (LSet key dbIdx index value) (on_list (key, dbIdx) (set_element_spec index value)) st.
Proof.
  start_entry. unfold LSet, lAssert, lAll. enter_guarded wf_list_cases; list_steps; try close_list.
  all: check_index index.
  all: first [rewrite decide_True by done|rewrite decide_False by done; rewrite Hup].
  - sql_step. by done_ok; unfold set_element_spec; simpl; rewrite Hv.
  - unfold element_at, go_index in Hv. by case_decide.
  - sql_step. by done_ok; unfold set_element_spec; simpl; rewrite Hv.
  - list_steps. eapply wp_lRewrite_end. list_write. unfold expect; simpl. unfold set_element_spec; simpl. by rewrite Hv.
Qed.

(** LSET replaces the element at an index or reports it out of range.
    *)
Theorem LSet_correct `{Engine E} (w : E) ns key dbIdx index value :
  ready ns (view w) →
  outcome ns w (LSet key dbIdx index value) (on_list (key, dbIdx) (set_element_spec index value)).
Proof. intros Hr. by apply meets_outcome, meets_LSet. Qed.

Lemma insert_at_in_range (before : bool) pivot l :
  let pos := pivot_pos 0 l pivot in
  let at_ := if before then pos else pos + 1 in
  pos ≠ -1 →
  go_slice l 0 at_ = Some (take (Z.to_nat at_) l) ∧
  go_slice l at_ (Z.of_nat (length l)) = Some (drop (Z.to_nat at_) l).
Proof.
  intros pos at_ Hp.
  assert (0 ≤ at_ ≤ Z.of_nat (length l)) as Hat.
  { unfold at_, pos in *. rewrite pivot_pos_shift in Hp. destruct (decide (pivot ∈ l)) as [Hin|]; [|done].
    pose proof (pivot_pos_bound l pivot Hin). destruct before; lia. }
  rewrite !go_slice_some by lia. rewrite Z.sub_0_r. split; [done|].
  rewrite take_ge; [done|]. rewrite length_drop. lia.
Qed.

(** [LINSERT] answers the new length, or -1 without the pivot. *)
Definition linsert_spec (before : bool) (pivot value : string) (e : option entry)
    : result Z * option entry :=
  match insert_near before pivot value (list_of e) with
  | None => (inr (-1), e)
  | Some l => (inr (Z.of_nat (length l)), put_list l (exp_of e))
  end.

Lemma meets_LInsert F ns key dbIdx before pivot value st :
  ready ns st →
  meets F ns (LInsert key dbIdx before pivot value)
    (on_list (key, dbIdx) (linsert_spec before pivot value)) st.
Proof.
  start_entry. unfold LInsert, lAssert, lAll. enter_guarded wf_list_cases; list_steps; try close_list.
  pose proof (insert_near_pos before pivot value (order_by_idx x0)) as Hspec. cbv zeta in Hspec.
  destruct (decide (pivot_pos 0 (order_by_idx x0) pivot = -1)) as [Hp|Hp].
  { sql_step. by done_ok; unfold linsert_spec; simpl; rewrite Hspec. }
  destruct (insert_at_in_range before pivot (order_by_idx x0) Hp) as [-> ->].
  list_steps. list_write. unfold expect; simpl. unfold linsert_spec; simpl. by rewrite Hspec.
Qed.

(** LINSERT puts the value next to the first occurrence of the pivot
    and answers the new length, or -1. *)
Theorem LInsert_correct `{Engine E} (w : E) ns key dbIdx before pivot value :
  ready ns (view w) →
  outcome ns w (LInsert key dbIdx before pivot value)
    (on_list (key, dbIdx) (linsert_spec before pivot value)).
Proof. intros Hr. by apply meets_outcome, meets_LInsert. Qed.

Lemma rem_values_correct count value all :
  min_int64 < count ≤ max_int64 →
  let l := rem_occurrences count value all in
  rem_values count value all = (Z.of_nat (length all - length l), l).
Proof.
  intros Hc. unfold rem_values, rem_occurrences. case_bool_decide as Hneg.
  - rewrite wrap64_id by (unfold int64_ok, min_int64, max_int64 in *; lia).
    rewrite !reverse_in_place_correct, rem_scan_correct. cbv zeta.
    rewrite (decide_False (P := - count = 0)), (decide_False (P := count = 0)), (decide_True (P := count < 0)) by lia.
    by rewrite reverse_in_place_correct, !length_reverse.
  - rewrite rem_scan_correct. rewrite (decide_False (P := count < 0)) by done. by case_decide.
Qed.

(** The negation of the least int64 is itself: that limit removes nothing. *)
Lemma rem_scan_negative limit value all : limit < 0 → rem_scan limit value all = (0, all).
Proof.
  intros Hl. unfold rem_scan. induction all as [|v all IH] using rev_ind; [done|].
  rewrite foldl_snoc, IH. by rewrite decide_False by lia.
Qed.

Lemma rem_values_least value all : rem_values min_int64 value all = (0, all).
Proof.
  unfold rem_values. rewrite bool_decide_eq_true_2 by done.
  rewrite rem_scan_negative by done. cbv beta iota. by rewrite !reverse_in_place_correct, reverse_involutive.
Qed.

(** What [LREM] leaves of a list, for every int64 [count]. *)
Definition lrem_left (count : Z) (value : string) (l : list string) : list string :=
  if decide (count = min_int64) then l else rem_occurrences count value l.

Lemma rem_values_left count value all :
  int64_ok count →
  rem_values count value all =
    (Z.of_nat (length all - length (lrem_left count value all)), lrem_left count value all).
Proof.
  intros Hc. unfold lrem_left, int64_ok in *. case_decide as Hm.
  - rewrite Hm, rem_values_least. f_equal. lia.
  - apply rem_values_correct. lia.
Qed.

(** [LREM] answers how many elements it removed; the last one takes the key
    with it. *)
Definition lrem_spec (count : Z) (value : string) (e : option entry) : result Z * option entry :=
  let l := lrem_left count value (list_of e) in
  (inr (Z.of_nat (length (list_of e) - length l)), put_list l (exp_of e)).

Lemma meets_LRem F ns key dbIdx count value st :
  ready ns st → int64_ok count →
  meets F ns (LRem key dbIdx count value) (on_list (key, dbIdx) (lrem_spec count value)) st.
Proof.
  intros Hr Hc. apply meets_on_entry; [done|]. intros T0 sl σ Hsl0 Hq0.
  unfold LRem, lAssert, lAll. enter_guarded wf_list_cases; list_steps; try close_list.
  all: rewrite rem_values_left by done; cbv beta iota zeta.
  - assert (lrem_left count value [] = []) as Hnil.
    { unfold lrem_left, rem_occurrences. by repeat case_decide. }
    rewrite Hnil. sql_step. eapply wp_lRewrite_absent; [done|]. intros r σ1 Hq1 [->|[HF [c ->]]].
    + sql_step. done_ok. unfold lrem_spec; simpl. by rewrite Hnil.
    + done_crash. left. split; [apply db_error_db|by left].
  - list_write. done.
Qed.

(** C25: LREM removes the first |count| occurrences from the head or the
    tail, or all when count is 0, counts them, and drops the key with its last
    element; with the least int64 as count, whose negation overflows, it removes
    nothing. *)
Theorem LRem_correct `{Engine E} (w : E) ns key dbIdx count value :
  ready ns (view w) → int64_ok count →
  outcome ns w (LRem key dbIdx count value) (on_list (key, dbIdx) (lrem_spec count value)).
Proof. intros Hr Hc. by apply meets_outcome, meets_LRem. Qed.

(** ** Witnesses *)

Lemma LPush_correct_witness :
  (run (LPush "l" 0 ["x"; "y"]) sample).1 = inr 5 ∧
  outcome sample_ns sample (LPush "l" 0 ["x"; "y"]) (on_list ("l", 0) (push_spec true ["x"; "y"])).
Proof. split; [by vm_compute|]. apply (LPush_correct sample sample_ns "l" 0 ["x"; "y"]). apply sample_ready. Defined.

Lemma RPush_correct_witness :
  (run (RPush "l" 0 ["x"; "y"]) sample).1 = inr 5 ∧
  outcome sample_ns sample (RPush "l" 0 ["x"; "y"]) (on_list ("l", 0) (push_spec false ["x"; "y"])).
Proof. split; [by vm_compute|]. apply (RPush_correct sample sample_ns "l" 0 ["x"; "y"]). apply sample_ready. Defined.

Lemma LPop_correct_witness :
  (run (LPop "l" 0) sample).1 = inr (Some "a") ∧
  outcome sample_ns sample (LPop "l" 0) (on_list ("l", 0) (pop_spec true)).
Proof. split; [by vm_compute|]. apply (LPop_correct sample sample_ns "l" 0). apply sample_ready. Defined.

Lemma RPop_correct_witness :
  (run (RPop "l" 0) sample).1 = inr (Some "a") ∧
  outcome sample_ns sample (RPop "l" 0) (on_list ("l", 0) (pop_spec false)).
Proof. split; [by vm_compute|]. apply (RPop_correct sample sample_ns "l" 0). apply sample_ready. Defined.

Lemma LLen_correct_witness :
  (run (LLen "l" 0) sample).1 = inr 3 ∧
  outcome sample_ns sample (LLen "l" 0) (reads ("l", 0) "list" (λ e, Z.of_nat (length (list_of e)))).
Proof. split; [by vm_compute|]. apply (LLen_correct sample sample_ns "l" 0). apply sample_ready. Defined.

Lemma LRange_correct_witness :
  (run (LRange "l" 0 (-2) 9) sample).1 = inr ["b"; "a"] ∧
  outcome sample_ns sample (LRange "l" 0 (-2) 9) (reads ("l", 0) "list" (λ e, elements_between (list_of e) (-2) 9)).
Proof. split; [by vm_compute|]. apply (LRange_correct sample sample_ns "l" 0 (-2) 9). apply sample_ready. Defined.

Lemma LIndex_correct_witness :
  (run (LIndex "l" 0 (-2)) sample).1 = inr (Some "b") ∧
  outcome sample_ns sample (LIndex "l" 0 (-2)) (reads ("l", 0) "list" (λ e, element_at (list_of e) (-2))).
Proof. split; [by vm_compute|]. apply (LIndex_correct sample sample_ns "l" 0 (-2)). apply sample_ready. Defined.

Lemma LSet_correct_witness :
  (run (LSet "l" 0 (-1) "z") sample).1 = inr tt ∧
  outcome sample_ns sample (LSet "l" 0 (-1) "z") (on_list ("l", 0) (set_element_spec (-1) "z")).
Proof. split; [by vm_compute|]. apply (LSet_correct sample sample_ns "l" 0 (-1) "z"). apply sample_ready. Defined.

Lemma LInsert_correct_witness :
  (run (LInsert "l" 0 false "b" "z") sample).1 = inr 4 ∧
  outcome sample_ns sample (LInsert "l" 0 false "b" "z") (on_list ("l", 0) (linsert_spec false "b" "z")).
Proof. split; [by vm_compute|]. apply (LInsert_correct sample sample_ns "l" 0 false "b" "z"). apply sample_ready. Defined.

Lemma LRem_correct_witness :
  (run (LRem "l" 0 (-1) "a") sample).1 = inr 1 ∧
  outcome sample_ns sample (LRem "l" 0 (-1) "a") (on_list ("l", 0) (lrem_spec (-1) "a")).
Proof. split; [by vm_compute|]. apply (LRem_correct sample sample_ns "l" 0 (-1) "a"); [apply sample_ready|by vm_compute]. Defined.
