(* ===== verification/StoreHashes.v ===== *)
(** Operations on hashes ([src/internal/store/hashes.go]). *)
From S2P Require Import Prelude GoStd Float Sql Effects Keyspace Sample Store.
Local Open Scope Z_scope.
Local Open Scope go_scope.

(** ** Operations *)

Definition hAssert (key : string) (dbIdx : Z) : prog (result unit) := assertType key dbIdx "hash".

Definition hEnsure (key : string) (dbIdx : Z) : prog (result unit) :=
  _ ⇐? deleteExpired key dbIdx;
  _ ⇐? hAssert key dbIdx;
  _ ⇐? exec DB (InsertKeyIgnore (key, dbIdx) "hash");
  ok tt.

(** The loop over the Go map [pairs] visits its keys in any order. *)
Definition HSet (key : string) (dbIdx : Z) (pairs : gmap string string) : prog (result Z) :=
  _ ⇐? hEnsure key dbIdx;
  with_tx (
    fields ⇐ trigger (RangeMap (map_to_list pairs).*1);
    added ⇐? for_each fields 0 (λ added field,
      let val := default EmptyString (pairs !! field) in
      r ⇐ query_row TX (CountHashField (key, dbIdx) field);
      let exists_ := scanned 0 r in
      let added := if decide (exists_ = 0) then added + 1 else added in
      _ ⇐? exec TX (UpsertHash (key, dbIdx) field val);
      ok added);
    _ ⇐? commit;
    ok added).

Definition HGet (key : string) (dbIdx : Z) (field : string) : prog (result (option string)) :=
  _ ⇐? deleteExpired key dbIdx;
  _ ⇐? hAssert key dbIdx;
  r ⇐ query_row DB (SelHashValue (key, dbIdx) field);
  match r with
  | NoRows => ok None
  | ScanErr e => err e
  | Row val => ok (Some val)
  end.

Definition HDel (key : string) (dbIdx : Z) (fields : list string) : prog (result Z) :=
  _ ⇐? deleteExpired key dbIdx;
  _ ⇐? hAssert key dbIdx;
  for_each fields 0 (λ removed f,
    n ⇐? exec DB (DeleteHashField (key, dbIdx) f);
    ok (removed + n)).

Definition HExists (key : string) (dbIdx : Z) (field : string) : prog (result bool) :=
  v ⇐? HGet key dbIdx field;
  ok (match v with Some _ => true | None => false end).

(** The rows are collected with [result[f] = v]. *)
Definition HGetAll (key : string) (dbIdx : Z) : prog (result (gmap string string)) :=
  _ ⇐? deleteExpired key dbIdx;
  _ ⇐? hAssert key dbIdx;
  rows ⇐? query_all DB (SelHashRows (key, dbIdx));
  ok (foldl (λ m '(f, v), <[f := v]> m) ∅ rows).

Definition HKeys (key : string) (dbIdx : Z) : prog (result (list string)) :=
  _ ⇐? deleteExpired key dbIdx;
  _ ⇐? hAssert key dbIdx;
  query_all DB (SelHashFields (key, dbIdx)).

Definition HVals (key : string) (dbIdx : Z) : prog (result (list string)) :=
  _ ⇐? deleteExpired key dbIdx;
  _ ⇐? hAssert key dbIdx;
  query_all DB (SelHashValues (key, dbIdx)).

Definition HLen (key : string) (dbIdx : Z) : prog (result Z) :=
  _ ⇐? deleteExpired key dbIdx;
  _ ⇐? hAssert key dbIdx;
  r ⇐ query_row DB (CountHash (key, dbIdx));
  match r with
  | Row n => ok n
  | NoRows => err (ErrNew "sql: no rows in result set")
  | ScanErr e => err e
  end.

Definition HMGet (key : string) (dbIdx : Z) (fields : list string)
    : prog (result (list (option string))) :=
  for_each fields [] (λ acc f,
    v ⇐? HGet key dbIdx f;
    ok (acc ++ [v])).

(** ** Reading *)

(** [HGET] finds the value of a field; absent keys have no fields. *)
Lemma meets_HGet F ns key dbIdx field σ :
  ready ns σ →
  meets F ns (HGet key dbIdx field) (reads (key, dbIdx) "hash" (λ e, hash_of e !! field)) σ.
Proof.
  intros Hr. apply meets_on_entry; [done|]. intros T0 sl σ' Hsl0 Hq0. unfold HGet, hAssert.
  enter_guarded wf_hash_cases; repeat sql_step; try close_entry.
  all: simpl; destruct (_ !! field) eqn:Hf; simpl; repeat sql_step; close_entry by (rewrite Hf).
Qed.

Theorem HGet_correct `{Engine E} (w : E) ns key dbIdx field :
  ready ns (view w) →
  outcome ns w (HGet key dbIdx field)
    (reads (key, dbIdx) "hash" (λ e, hash_of e !! field)).
Proof. intros. by apply meets_outcome, meets_HGet. Qed.

Definition present_field (v : option string) : bool :=
  match v with Some _ => true | None => false end.

Lemma meets_HExists F ns key dbIdx field st :
  ready ns st →
  meets F ns (HExists key dbIdx field)
    (reads (key, dbIdx) "hash" (λ e, present_field (hash_of e !! field))) st.
Proof.
  intros Hr. unfold meets, HExists. apply wp_err_bind.
  eapply wp_mono; [|by apply meets_HGet]. intros r σ' (Hr' & Ha & Hor)%fulfils_reads.
  destruct Hor as [->|[HF [c ->]]].
  - pose proof (read_answer_map "hash" present_field (λ e, hash_of e !! field)
      (abs (unix_milli ns) (com st) !! (key, dbIdx))) as Hmap.
    destruct (read_answer "hash" (λ e, hash_of e !! field) _) as [c|v]; [|apply wp_ret];
      apply fulfils_reads; (split; [done|]); (split; [done|]); left; by rewrite Hmap.
  - apply fulfils_reads. split; [done|]. split; [done|]. right. split; [done|by eexists].
Qed.

Theorem HExists_correct `{Engine E} (w : E) ns key dbIdx field :
  ready ns (view w) →
  outcome ns w (HExists key dbIdx field)
    (reads (key, dbIdx) "hash" (λ e, present_field (hash_of e !! field))).
Proof. intros Hr. by apply meets_outcome, meets_HExists. Qed.

Lemma meets_HLen F ns key dbIdx st :
  ready ns st →
  meets F ns (HLen key dbIdx)
    (reads (key, dbIdx) "hash" (λ e, Z.of_nat (size (hash_of e)))) st.
Proof.
  start_entry. unfold HLen, hAssert. enter_guarded wf_hash_cases; repeat sql_step; close_entry.
Qed.

Theorem HLen_correct `{Engine E} (w : E) ns key dbIdx :
  ready ns (view w) →
  outcome ns w (HLen key dbIdx)
    (reads (key, dbIdx) "hash" (λ e, Z.of_nat (size (hash_of e)))).
Proof. intros Hr. by apply meets_outcome, meets_HLen. Qed.

Lemma foldl_insert_rows (rows : list (string * string)) (m : gmap string string) :
  NoDup rows.*1 → foldl (λ m '(f, v), <[f := v]> m) m rows = list_to_map rows ∪ m.
Proof.
  revert m. induction rows as [|[f v] rows IH]; intros m Hnd; simpl; [by rewrite map_empty_union|].
  apply list.NoDup_cons in Hnd as [Hf Hnd]. rewrite IH by done.
  rewrite <- insert_union_l, insert_union_r; [done|]. by apply not_elem_of_list_to_map_1.
Qed.

Lemma collect_rows (rows : list (string * string)) (h : gmap string string) :
  rows ≡ₚ map_to_list h → foldl (λ m '(f, v), <[f := v]> m) ∅ rows = h.
Proof.
  intros Hp. assert (NoDup rows.*1) as Hnd by (rewrite Hp; apply NoDup_fst_map_to_list).
  rewrite foldl_insert_rows, map_union_empty by done.
  by rewrite (list_to_map_proper rows (map_to_list h)), list_to_map_to_list.
Qed.

Lemma meets_HGetAll F ns key dbIdx st :
  ready ns st →
  meets F ns (HGetAll key dbIdx) (reads (key, dbIdx) "hash" hash_of) st.
Proof.
  start_entry. unfold HGetAll, hAssert. enter_guarded wf_hash_cases; repeat sql_step; try close_entry.
  all: match goal with H : answers _ _ _ |- _ => rename H into Ha; unfold answers in Ha; simpl in Ha end.
  all: rewrite (collect_rows _ _ Ha); by done_ok.
Qed.

Theorem HGetAll_correct `{Engine E} (w : E) ns key dbIdx :
  ready ns (view w) →
  outcome ns w (HGetAll key dbIdx) (reads (key, dbIdx) "hash" hash_of).
Proof. intros Hr. by apply meets_outcome, meets_HGetAll. Qed.

Lemma abs_hash_of now sl :
  live now sl → wf_slice sl → has_type sl "hash" → hash_of (abs_entry now sl) = s_hash sl.
Proof.
  intros Hlive Hsl Ht. destruct (wf_hash_cases _ Hsl Ht) as [->|(exp & h & ->)]; [done|].
  specialize (Hlive _ eq_refl). by live_entries.
Qed.

Lemma meets_HKeys F ns key dbIdx st :
  ready ns st →
  meets F ns (HKeys key dbIdx)
    (reads_one_of (key, dbIdx) "hash" (λ e l, l ≡ₚ (map_to_list (hash_of e)).*1)) st.
Proof.
  intros Hr. unfold HKeys, hAssert. apply meets_reads_one_of; [done|].
  intros T0 sl σ Hsl Ht Hlive Hq. sql_step; (split; [done|]); [left|right; eauto].
  exists rows. split; [done|]. by rewrite abs_hash_of.
Qed.

(** [HKEYS] and [HVALS] list the columns of the hash in some order. *)
Theorem HKeys_correct `{Engine E} (w : E) ns key dbIdx :
  ready ns (view w) →
  outcome ns w (HKeys key dbIdx)
    (reads_one_of (key, dbIdx) "hash" (λ e l, l ≡ₚ (map_to_list (hash_of e)).*1)).
Proof. intros Hr. by apply meets_outcome, meets_HKeys. Qed.

Lemma meets_HVals F ns key dbIdx st :
  ready ns st →
  meets F ns (HVals key dbIdx)
    (reads_one_of (key, dbIdx) "hash" (λ e l, l ≡ₚ (map_to_list (hash_of e)).*2)) st.
Proof.
  intros Hr. unfold HVals, hAssert. apply meets_reads_one_of; [done|].
  intros T0 sl σ Hsl Ht Hlive Hq. sql_step; (split; [done|]); [left|right; eauto].
  exists rows. split; [done|]. by rewrite abs_hash_of.
Qed.

Theorem HVals_correct `{Engine E} (w : E) ns key dbIdx :
  ready ns (view w) →
  outcome ns w (HVals key dbIdx)
    (reads_one_of (key, dbIdx) "hash" (λ e l, l ≡ₚ (map_to_list (hash_of e)).*2)).
Proof. intros Hr. by apply meets_outcome, meets_HVals. Qed.

(** [HMGET] is a sequence of [HGET]s; without fields nothing is checked. *)
Definition hmget_spec (fields : list string) (e : option entry) : result (list (option string)) :=
  if decide (fields = []) then inr []
  else read_answer "hash" (λ e, (λ f, hash_of e !! f) <$> fields) e.

Lemma hmget_snoc done f todo acc e :
  inr acc = hmget_spec done e →
  match read_answer "hash" (λ e, hash_of e !! f) e with
  | inl c => hmget_spec (done ++ f :: todo) e = inl c
  | inr v => inr (acc ++ [v]) = hmget_spec (done ++ [f]) e
  end.
Proof.
  unfold hmget_spec. rewrite !(decide_False (P := done ++ _ = [])) by by destruct done.
  intros Hacc.
  assert (read_answer "hash" (λ e, (λ f, hash_of e !! f) <$> done) e = inr acc ∨ done = [] ∧ acc = []) as Hd.
  { destruct (decide (done = [])) as [->|]; [right; by simplify_eq|by left]. }
  clear Hacc. unfold read_answer in *.
  destruct e as [en|]; [destruct (decide (type_name (e_val en) = "hash")); [|done]|];
    destruct Hd as [Hd|[-> ->]]; simplify_eq; by rewrite ?fmap_app.
Qed.

Definition reads_result {A} (k : kid) (f : option entry → result A) : contract A :=
  mkContract (λ a r a', a' = a ∧ r = f (a !! k)) (λ a r a', a' = a ∧ db_error r).

Lemma meets_HMGet F ns key dbIdx fields st :
  ready ns st →
  meets F ns (HMGet key dbIdx fields) (reads_result (key, dbIdx) (hmget_spec fields)) st.
Proof.
  intros Hr. unfold meets, HMGet.
  set (a := abs (unix_milli ns) (com st)).
  apply (wp_for_each _ (λ done acc σ, ready ns σ ∧ abs (unix_milli ns) (com σ) = a ∧
    inr acc = hmget_spec done (a !! (key, dbIdx)))).
  - by split.
  - intros done f todo acc σ Hfields (Hrσ & Ha & Hacc). apply wp_err_bind.
    eapply wp_mono; [|by apply meets_HGet]. intros r σ' (Hr' & Ha' & Hor)%fulfils_reads.
    rewrite Ha in *. destruct Hor as [->|[HF [c ->]]].
    + pose proof (hmget_snoc done f todo acc (a !! (key, dbIdx)) Hacc) as Hs.
      destruct (read_answer "hash" _ _) as [c|v].
      * split; [done|]. left. simpl. fold a. split; [done|]. by rewrite Hfields.
      * apply wp_ret. done.
    + split; [done|]. right. split; [done|]. split; [done|by eexists].
  - intros acc σ (Hrσ & Ha & Hacc). split; [done|]. by left.
Qed.

(** HMGET answers the value or nothing for each field in order. *)
Theorem HMGet_correct `{Engine E} (w : E) ns key dbIdx fields :
  ready ns (view w) →
  outcome ns w (HMGet key dbIdx fields) (reads_result (key, dbIdx) (hmget_spec fields)).
Proof. intros Hr. by apply meets_outcome, meets_HMGet. Qed.

(** ** [HDEL] *)

(** [HDEL] removes fields and counts them; the key stays, even with no field
    left. *)
Definition hdel_spec (fields : list string) (e : option entry) : result Z * option entry :=
  match e with
  | Some (mkEntry (RHash h) exp) =>
      let h' := without fields h in
      (inr (Z.of_nat (size h) - Z.of_nat (size h')), Some (mkEntry (RHash h') exp))
  | _ => (inr 0, e)
  end.

(** One statement per field: an engine that fails leaves the first ones
    removed. *)
Definition hdel_crash (fields : list string) (e : option entry) (r : result Z) (e' : option entry) : Prop :=
  db_error r ∧ ∃ done, done `prefix_of` fields ∧ e' = (hdel_spec done e).2.

Lemma delete_field_slice k f h sl :
  slice_exec (DeleteHashField k f) (with_hash h sl) =
    Some (Z.of_nat (size h) - Z.of_nat (size (delete f h)), with_hash (delete f h) sl).
Proof. rewrite size_deleted. simpl. destruct (h !! f) eqn:Hf; [done|]. by rewrite delete_id. Qed.

Lemma meets_HDel F ns key dbIdx fields st :
  ready ns st →
  meets F ns (HDel key dbIdx fields)
    (on_entry (key, dbIdx) (expect "hash" (hdel_spec fields)) (hdel_crash fields)) st.
Proof.
  start_entry. unfold HDel, hAssert.
  apply wp_guarded; [|done|done|].
  { intros e c. split; [by eexists|]. exists []. split; [apply prefix_nil|].
    by destruct e as [[[] exp]|]; simpl; rewrite ?without_nil. }
  clear sl σ Hsl0 Hq0. intros sl σ Hsl Ht Hlive Hq.
  destruct (wf_hash_cases _ Hsl Ht) as [->|(exp & h & ->)]; [|specialize (Hlive _ eq_refl)].
  - apply (wp_delete_loop _ ns T0 (key, dbIdx) _ (λ h, with_hash h empty_slice) ∅);
      [done|by intros; apply delete_field_slice|done|..]; rewrite ?without_empty; intros.
    + by done_ok.
    + rewrite without_empty in *. done_crash. (split; [apply db_error_db|]). exists []. split; [apply prefix_nil|done].
  - apply (wp_delete_loop _ ns T0 (key, dbIdx) _ (λ h, hash_slice exp h) h);
      [done|by intros ? m; apply (delete_field_slice _ _ m (hash_slice exp ∅))|done|..]; intros.
    + by done_ok.
    + done_crash. split; [apply db_error_db|]. eexists. split; [done|]. by live_entries.
Qed.

(** HDEL removes and counts fields; a failing engine leaves a prefix
    removed. *)
Theorem HDel_correct `{Engine E} (w : E) ns key dbIdx fields :
  ready ns (view w) →
  outcome ns w (HDel key dbIdx fields)
    (on_entry (key, dbIdx) (expect "hash" (hdel_spec fields)) (hdel_crash fields)).
Proof. intros Hr. by apply meets_outcome, meets_HDel. Qed.

(** ** [HSET] *)

Definition put_pairs (pairs : gmap string string) (fields : list string) (h : gmap string string) :=
  foldl (λ h f, <[f := default EmptyString (pairs !! f)]> h) h fields.

Lemma lookup_put_pairs pairs fields h f :
  put_pairs pairs fields h !! f =
    if decide (f ∈ fields) then Some (default EmptyString (pairs !! f)) else h !! f.
Proof.
  unfold put_pairs. induction fields as [|g fields IH] using rev_ind; [done|].
  rewrite foldl_snoc. destruct (decide (f = g)) as [->|Hne].
  - rewrite lookup_insert_eq, decide_True; [done|]. rewrite elem_of_app, list_elem_of_singleton. by right.
  - rewrite lookup_insert_ne, IH by done. apply decide_ext.
    rewrite elem_of_app, list_elem_of_singleton. intuition congruence.
Qed.

Lemma put_all_pairs pairs fields h :
  fields ≡ₚ (map_to_list pairs).*1 → put_pairs pairs fields h = pairs ∪ h.
Proof.
  intros Hp. apply map_eq. intros f. rewrite lookup_put_pairs, lookup_union.
  assert (f ∈ fields ↔ is_Some (pairs !! f)) as Hin.
  { rewrite Hp, list_elem_of_fmap. split.
    - intros ([g v] & -> & Hv%elem_of_map_to_list). by eexists.
    - intros [v Hv]. exists (f, v). split; [done|]. by apply elem_of_map_to_list. }
  destruct (pairs !! f) as [v|] eqn:Hf.
  - rewrite decide_True by (apply Hin; by eexists). by destruct (h !! f).
  - rewrite decide_False; [by destruct (h !! f)|]. intros [? [=]]%Hin.
Qed.

(** [HSET] sets every given field and answers how many are new. *)
Definition hset_spec (pairs : gmap string string) (e : option entry) : result Z * option entry :=
  let h := hash_of e in
  (inr (Z.of_nat (size (pairs ∪ h)) - Z.of_nat (size h)),
   Some (mkEntry (RHash (pairs ∪ h)) (exp_of e))).

(** The errors of the existence checks are dropped, so on a failing engine the
    count may be wrong; and the row of a new key is inserted before the
    transaction. *)
Definition hset_crash (pairs : gmap string string) (e : option entry) (r : result Z) (e' : option entry) : Prop :=
  let new := (expect "hash" (hset_spec pairs) e).2 in
  match r with
  | inr _ => e' = new
  | inl _ => db_error r ∧ (e' = e ∨ e' = new ∨ e = None ∧ e' = Some (mkEntry (RHash ∅) None))
  end.

Lemma put_field_size (h : gmap string string) f v :
  Z.of_nat (size (<[f := v]> h)) =
    Z.of_nat (size h) + (if decide (count (h !! f) = 0) then 1 else 0).
Proof.
  destruct (h !! f) as [x|] eqn:Hf; simpl.
  - rewrite map_size_insert_Some by eauto. lia.
  - rewrite map_size_insert_None by done. lia.
Qed.

(** One round of its loop: the count is right unless the check failed. *)
Lemma wp_HSet_step F ns T0 k sl exp h f v n Q σ :
  in_tx ns T0 k sl (hash_slice exp h) σ →
  (∀ n' σ', in_tx ns T0 k sl (hash_slice exp (<[f := v]> h)) σ' →
     n' = n + (Z.of_nat (size (<[f := v]> h)) - Z.of_nat (size h)) ∨ F → Q (inr n') σ') →
  (F → ∀ c slw σ', in_tx ns T0 k sl slw σ' → Q (inl (ErrDb c)) σ') →
  wp F (r ⇐ query_row TX (CountHashField k f);
        let exists_ := scanned 0 r in
        let added := if decide (exists_ = 0) then n + 1 else n in
        _ ⇐? exec TX (UpsertHash k f v);
        ok added) Q σ.
Proof.
  intros Hq Hok Herr.
  assert (∀ n' σ', in_tx ns T0 k sl (hash_slice exp h) σ' →
    n' = n + (Z.of_nat (size (<[f := v]> h)) - Z.of_nat (size h)) ∨ F →
    wp F (_ ⇐? exec TX (UpsertHash k f v); ok n') Q σ') as Hexec.
  { intros n' σ' Hq' Hn'. sql_step.
    eapply wp_slice_exec_tx; [done|by destruct k|done|..]; [|intros; by eapply Herr].
    intros σ'' Hq''. apply wp_ret. by eapply Hok. }
  sql_step. eapply wp_slice_query_row_tx; [done|done|done|..].
  - simpl. apply Hexec; [done|left]. rewrite put_field_size. case_decide; lia.
  - intros HF c. apply Hexec; [done|by right].
Qed.

(** The transaction of [HSet]. *)
Lemma wp_HSet_tx F ns T0 key db (pairs : gmap string string) exp h Q σ :
  quiet ns T0 (key, db) (hash_slice exp h) σ →
  (∀ n σ', quiet ns T0 (key, db) (hash_slice exp (pairs ∪ h)) σ' →
     n = Z.of_nat (size (pairs ∪ h)) - Z.of_nat (size h) ∨ F → Q (inr n) σ') →
  (F → ∀ c σ' h', h' = h ∨ h' = pairs ∪ h →
     quiet ns T0 (key, db) (hash_slice exp h') σ' → Q (inl (ErrDb c)) σ') →
  wp F (with_tx (
    fields ⇐ trigger (RangeMap (map_to_list pairs).*1);
    added ⇐? for_each fields 0 (λ added field,
      let val := default EmptyString (pairs !! field) in
      r ⇐ query_row TX (CountHashField (key, db) field);
      let exists_ := scanned 0 r in
      let added := if decide (exists_ = 0) then added + 1 else added in
      _ ⇐? exec TX (UpsertHash (key, db) field val);
      ok added);
    _ ⇐? commit;
    ok added)) Q σ.
Proof.
  intros Hq Hok Herr.
  assert (F → ∀ c slw σ', in_tx ns T0 (key, db) (hash_slice exp h) slw σ' →
    Q (inl (ErrDb c)) (set_work None σ')) as Hroll.
  { intros HF c slw σ' Hq'. eapply (Herr HF c _ h); [by left|by eapply in_tx_rollback]. }
  sql_step; [|by apply (Herr ltac:(assumption) _ _ h (or_introl eq_refl))]. apply wp_range_bind. intros fields Hp. apply wp_err_bind.
  apply (wp_for_each _ (λ done n σ', in_tx ns T0 (key, db) (hash_slice exp h) (hash_slice exp (put_pairs pairs done h)) σ' ∧
    (n = Z.of_nat (size (put_pairs pairs done h)) - Z.of_nat (size h) ∨ F))).
  - split; [done|left]. simpl. lia.
  - intros done f todo n σ1 Hf [Hq1 Hn]. eapply wp_HSet_step; [done|..].
    + intros n' σ2 Hq2 Hn'. assert (put_pairs pairs (done ++ [f]) h =
        <[f := default EmptyString (pairs !! f)]> (put_pairs pairs done h)) as ->
        by (unfold put_pairs; by rewrite foldl_snoc).
      split; [done|]. destruct Hn as [->|?], Hn' as [->|?]; auto. left. lia.
    + intros HF c slw σ2 Hq2. by eapply Hroll.
  - intros n σ1 [Hq1 Hn]. rewrite (put_all_pairs _ _ _ Hp) in *. repeat sql_step.
    + apply Hok; [by apply quiet_rollback|done].
    + eapply Herr; [done|by left|by apply quiet_rollback].
    + eapply Herr; [done|by right|by apply quiet_rollback].
Qed.

Lemma meets_HSet F ns key dbIdx pairs st :
  ready ns st →
  meets F ns (HSet key dbIdx pairs)
    (on_entry (key, dbIdx) (expect "hash" (hset_spec pairs)) (hset_crash pairs)) st.
Proof.
  start_entry. unfold HSet, hEnsure, hAssert. apply wp_ensured.
  apply wp_guarded; [by intros e c; split; [eexists|auto]|done|done|].
  clear sl σ Hsl0 Hq0. intros sl σ Hsl Ht Hlive Hq. sql_step.
  destruct (wf_hash_cases _ Hsl Ht) as [->|(exp & h & ->)]; [|specialize (Hlive _ eq_refl)];
    sql_step; norm_slices; try eapply wp_HSet_tx; try done.
  all: first
    [ intros n σ1 Hq1 [->|HF]; [by done_ok|by done_crash; simpl; live_entries]
    | intros HF c σ1 h' [->| ->] Hq1; done_crash; (split; [by eexists|]); simpl; live_entries; by auto
    | done_crash; (split; [by eexists|]); simpl; live_entries; by auto ].
Qed.

(** C22: HSET writes every pair whatever the order of the Go map and answers
    the number of new fields; what a failing engine may leave is stated. *)
Theorem HSet_correct `{Engine E} (w : E) ns key dbIdx pairs :
  ready ns (view w) →
  outcome ns w (HSet key dbIdx pairs)
    (on_entry (key, dbIdx) (expect "hash" (hset_spec pairs)) (hset_crash pairs)).
Proof. intros Hr. by apply meets_outcome, meets_HSet. Qed.

(** ** Witnesses *)

Lemma HGet_correct_witness :
  (run (HGet "h" 0 "g") sample).1 = inr (Some "2") ∧
  outcome sample_ns sample (HGet "h" 0 "g") (reads ("h", 0) "hash" (λ e, hash_of e !! "g")).
Proof. split; [by vm_compute|]. apply (HGet_correct sample sample_ns "h" 0 "g"). apply sample_ready. Defined.

Lemma HExists_correct_witness :
  (run (HExists "h" 0 "g") sample).1 = inr true ∧
  outcome sample_ns sample (HExists "h" 0 "g") (reads ("h", 0) "hash" (λ e, present_field (hash_of e !! "g"))).
Proof. split; [by vm_compute|]. apply (HExists_correct sample sample_ns "h" 0 "g"). apply sample_ready. Defined.

Lemma HLen_correct_witness :
  (run (HLen "h" 0) sample).1 = inr 2 ∧
  outcome sample_ns sample (HLen "h" 0) (reads ("h", 0) "hash" (λ e, Z.of_nat (size (hash_of e)))).
Proof. split; [by vm_compute|]. apply (HLen_correct sample sample_ns "h" 0). apply sample_ready. Defined.

Lemma HGetAll_correct_witness :
  (run (HGetAll "h" 0) sample).1 = inr (list_to_map [("f", "1"); ("g", "2")]) ∧
  outcome sample_ns sample (HGetAll "h" 0) (reads ("h", 0) "hash" hash_of).
Proof. split; [by vm_compute|]. apply (HGetAll_correct sample sample_ns "h" 0). apply sample_ready. Defined.

Lemma HKeys_correct_witness :
  outcome sample_ns sample (HKeys "h" 0)
    (reads_one_of ("h", 0) "hash" (λ e l, l ≡ₚ (map_to_list (hash_of e)).*1)).
Proof. apply (HKeys_correct sample sample_ns "h" 0). apply sample_ready. Defined.

Lemma HVals_correct_witness :
  outcome sample_ns sample (HVals "h" 0)
    (reads_one_of ("h", 0) "hash" (λ e l, l ≡ₚ (map_to_list (hash_of e)).*2)).
Proof. apply (HVals_correct sample sample_ns "h" 0). apply sample_ready. Defined.

Lemma HMGet_correct_witness :
  (run (HMGet "h" 0 ["g"; "q"]) sample).1 = inr [Some "2"; None] ∧
  outcome sample_ns sample (HMGet "h" 0 ["g"; "q"]) (reads_result ("h", 0) (hmget_spec ["g"; "q"])).
Proof. split; [by vm_compute|]. apply (HMGet_correct sample sample_ns "h" 0 ["g"; "q"]). apply sample_ready. Defined.

Lemma HDel_correct_witness :
  (run (HDel "h" 0 ["g"; "q"]) sample).1 = inr 1 ∧
  outcome sample_ns sample (HDel "h" 0 ["g"; "q"]) (on_entry ("h", 0) (expect "hash" (hdel_spec ["g"; "q"])) (hdel_crash ["g"; "q"])).
Proof. split; [by vm_compute|]. apply (HDel_correct sample sample_ns "h" 0 ["g"; "q"]). apply sample_ready. Defined.

Lemma HSet_correct_witness :
  (run (HSet "h" 0 {["g" := "3"; "k" := "4"]}) sample).1 = inr 1 ∧
  outcome sample_ns sample (HSet "h" 0 {["g" := "3"; "k" := "4"]}) (on_entry ("h", 0) (expect "hash" (hset_spec {["g" := "3"; "k" := "4"]})) (hset_crash {["g" := "3"; "k" := "4"]})).
Proof. split; [by vm_compute|]. apply (HSet_correct sample sample_ns "h" 0 {["g" := "3"; "k" := "4"]}). apply sample_ready. Defined.
