(* ===== verification/StoreSets.v ===== *)
(** Operations on sets ([src/internal/store/sets.go]). *)
From S2P Require Import Prelude GoStd Float Sql Effects Keyspace Sample Store.
Local Open Scope Z_scope.
Local Open Scope go_scope.

(** ** Operations *)

Definition sAssert (key : string) (dbIdx : Z) : prog (result unit) := assertType key dbIdx "set".

Definition sEnsure (key : string) (dbIdx : Z) : prog (result unit) :=
  _ ⇐? deleteExpired key dbIdx;
  _ ⇐? assertType key dbIdx "set";
  _ ⇐? exec DB (InsertKeyIgnore (key, dbIdx) "set");
  ok tt.

Definition SAdd (key : string) (dbIdx : Z) (members : list string) : prog (result Z) :=
  _ ⇐? sEnsure key dbIdx;
  for_each members 0 (λ added m,
    n ⇐? exec DB (InsertSetIgnore (key, dbIdx) m);
    ok (added + n)).

Definition SRem (key : string) (dbIdx : Z) (members : list string) : prog (result Z) :=
  _ ⇐? deleteExpired key dbIdx;
  _ ⇐? sAssert key dbIdx;
  for_each members 0 (λ removed m,
    n ⇐? exec DB (DeleteSetMember (key, dbIdx) m);
    ok (removed + n)).

Definition SMembers (key : string) (dbIdx : Z) : prog (result (list string)) :=
  _ ⇐? deleteExpired key dbIdx;
  _ ⇐? sAssert key dbIdx;
  query_all DB (SelSetMembers (key, dbIdx)).

Definition SIsMember (key : string) (dbIdx : Z) (member : string) : prog (result bool) :=
  _ ⇐? deleteExpired key dbIdx;
  _ ⇐? sAssert key dbIdx;
  r ⇐ query_row DB (CountSetMember (key, dbIdx) member);
  match r with
  | Row n => ok (bool_decide (n > 0))
  | NoRows => err (ErrNew "sql: no rows in result set")
  | ScanErr e => err e
  end.

Definition SCard (key : string) (dbIdx : Z) : prog (result Z) :=
  _ ⇐? deleteExpired key dbIdx;
  _ ⇐? sAssert key dbIdx;
  r ⇐ query_row DB (CountSet (key, dbIdx));
  match r with
  | Row n => ok n
  | NoRows => err (ErrNew "sql: no rows in result set")
  | ScanErr e => err e
  end.

(** Go's [map[string]struct{}] is a [gset]: [result[m] = struct{}{}] for every
    row. *)
Definition sMembers (key : string) (dbIdx : Z) : prog (result (gset string)) :=
  rows ⇐? query_all DB (SelSetMembers (key, dbIdx));
  ok (foldl (λ s m, {[m]} ∪ s) ∅ rows).

(** [for v := range m { result = append(result, v) }]. *)
Definition collect (m : gset string) : prog (result (list string)) :=
  vs ⇐ trigger (RangeMap (elements m));
  ok (foldl (λ l v, l ++ [v]) [] vs).

Definition SUnion (keys : list string) (dbIdx : Z) : prog (result (list string)) :=
  union ⇐? for_each keys ∅ (λ (union : gset string) k,
    _ ⇐? deleteExpired k dbIdx;
    _ ⇐? sAssert k dbIdx;
    m ⇐? sMembers k dbIdx;
    vs ⇐ trigger (RangeMap (elements m));
    ok (foldl (λ u v, {[v]} ∪ u) union vs));
  collect union.

Definition SInter (keys : list string) (dbIdx : Z) : prog (result (list string)) :=
  match keys with
  | [] => ok []
  | first :: rest =>
      base ⇐? sMembers first dbIdx;
      base ⇐? for_each rest base (λ base k,
        _ ⇐? deleteExpired k dbIdx;
        other ⇐? sMembers k dbIdx;
        ms ⇐ trigger (RangeMap (elements base));
        ok (foldl (λ b m, if decide (m ∈ other) then b else b ∖ {[m]}) base ms));
      collect base
  end.

Definition SDiff (keys : list string) (dbIdx : Z) : prog (result (list string)) :=
  match keys with
  | [] => ok []
  | first :: rest =>
      base ⇐? sMembers first dbIdx;
      base ⇐? for_each rest base (λ base k,
        _ ⇐? deleteExpired k dbIdx;
        other ⇐? sMembers k dbIdx;
        ms ⇐ trigger (RangeMap (elements other));
        ok (foldl (λ b m, b ∖ {[m]}) base ms));
      collect base
  end.

(** ** One key *)

Definition set_size (e : option entry) : Z := Z.of_nat (size (set_of e)).

Lemma meets_SCard F ns key dbIdx st :
  ready ns st →
  meets F ns (SCard key dbIdx) (reads (key, dbIdx) "set" set_size) st.
Proof.
  start_entry. unfold SCard, sAssert. enter_guarded wf_set_cases; repeat sql_step; try close_entry.
  done_ok. unfold set_size; simpl. by rewrite size_dom.
Qed.

Theorem SCard_correct `{Engine E} (w : E) ns key dbIdx :
  ready ns (view w) →
  outcome ns w (SCard key dbIdx) (reads (key, dbIdx) "set" set_size).
Proof. intros Hr. by apply meets_outcome, meets_SCard. Qed.

Lemma meets_SIsMember F ns key dbIdx member st :
  ready ns st →
  meets F ns (SIsMember key dbIdx member)
    (reads (key, dbIdx) "set" (λ e, bool_decide (member ∈ set_of e))) st.
Proof.
  start_entry. unfold SIsMember, sAssert. enter_guarded wf_set_cases; repeat sql_step; try close_entry.
  done_ok. f_equal. f_equal. apply bool_decide_ext. rewrite elem_of_dom.
  destruct (x0 !! member); simpl; split; try done; try lia; by intros [? ?].
Qed.

Theorem SIsMember_correct `{Engine E} (w : E) ns key dbIdx member :
  ready ns (view w) →
  outcome ns w (SIsMember key dbIdx member)
    (reads (key, dbIdx) "set" (λ e, bool_decide (member ∈ set_of e))).
Proof. intros Hr. by apply meets_outcome, meets_SIsMember. Qed.

(** [SADD] adds members one statement at a time and counts the new ones. *)
Definition sadd_spec (members : list string) (e : option entry) : result Z * option entry :=
  let s := list_to_set members ∪ set_of e in
  (inr (Z.of_nat (size s) - set_size e), Some (mkEntry (RSet s) (exp_of e))).

Definition sadd_crash (members : list string) (e : option entry) (r : result Z) (e' : option entry) : Prop :=
  db_error r ∧ (e' = e ∨ ∃ done, done `prefix_of` members ∧ e' = (expect "set" (sadd_spec done) e).2).

(** The rows of a set, and the statements on them. *)
Definition member_rows (s : gset string) : gmap string unit := gset_to_gmap tt s.

Lemma member_rows_dom (r : gmap string unit) : r = member_rows (dom r).
Proof.
  apply map_eq. intros m. unfold member_rows. rewrite lookup_gset_to_gmap.
  destruct (r !! m) as [[]|] eqn:Hm.
  - rewrite option_guard_True; [done|]. by apply elem_of_dom_2 in Hm.
  - rewrite option_guard_False; [done|]. by apply not_elem_of_dom.
Qed.

Lemma member_rows_empty : member_rows ∅ = ∅.
Proof. apply gset_to_gmap_empty. Qed.

Lemma dom_member_rows s : dom (member_rows s) = s.
Proof. apply dom_gset_to_gmap. Qed.

Lemma lookup_member_rows s m : member_rows s !! m = if decide (m ∈ s) then Some tt else None.
Proof. unfold member_rows. rewrite lookup_gset_to_gmap. by repeat case_guard || case_decide. Qed.

Lemma insert_member_slice k m exp s :
  slice_exec (InsertSetIgnore k m) (set_slice exp (member_rows s)) =
    Some (Z.of_nat (size ({[m]} ∪ s)) - Z.of_nat (size s), set_slice exp (member_rows ({[m]} ∪ s))).
Proof.
  simpl. rewrite lookup_member_rows. case_decide as Hm.
  - replace ({[m]} ∪ s) with s by set_solver. by rewrite Z.sub_diag.
  - unfold slice_fk, with_set; simpl. rewrite size_union, size_singleton by set_solver.
    unfold member_rows. rewrite gset_to_gmap_union_singleton. repeat f_equal. lia.
Qed.

Lemma delete_member_slice k m exp s :
  slice_exec (DeleteSetMember k m) (set_slice exp (member_rows s)) =
    Some (Z.of_nat (size s) - Z.of_nat (size (s ∖ {[m]})), set_slice exp (member_rows (s ∖ {[m]}))).
Proof.
  simpl. rewrite lookup_member_rows. case_decide as Hm.
  - assert (size s = S (size (s ∖ {[m]}))) as ->.
    { rewrite (union_difference_L {[m]} s) at 1 by set_solver.
      rewrite size_union, size_singleton by set_solver. done. }
    unfold with_set, member_rows; simpl. rewrite gset_to_gmap_difference_singleton. repeat f_equal. lia.
  - replace (s ∖ {[m]}) with s by set_solver. by rewrite Z.sub_diag.
Qed.

(** A loop of one statement per member, each turning the set [X] into
    [f x X] and answering the change of its size. *)
Lemma wp_member_loop F ns T0 key db (st : string → stmt) (f : string → gset string → gset string)
    (sign : Z) exp s members Q σ :
  let after ms := foldl (λ X m, f m X) s ms in
  (∀ m, stmt_key (st m) = Some (key, db)) →
  (∀ m X, slice_exec (st m) (set_slice exp (member_rows X)) =
     Some (sign * (Z.of_nat (size (f m X)) - Z.of_nat (size X)), set_slice exp (member_rows (f m X)))) →
  quiet ns T0 (key, db) (set_slice exp (member_rows s)) σ →
  (∀ σ', quiet ns T0 (key, db) (set_slice exp (member_rows (after members))) σ' →
     Q (inr (sign * (Z.of_nat (size (after members)) - Z.of_nat (size s)))) σ') →
  (F → ∀ c σ' done, done `prefix_of` members →
     quiet ns T0 (key, db) (set_slice exp (member_rows (after done))) σ' → Q (inl (ErrDb c)) σ') →
  wp F (for_each members 0 (λ n m, n' ⇐? exec DB (st m); ok (n + n'))) Q σ.
Proof.
  intros after Hkey Hst Hq Hok Herr.
  apply (wp_for_each _ (λ done n σ', quiet ns T0 (key, db) (set_slice exp (member_rows (after done))) σ' ∧
    n = sign * (Z.of_nat (size (after done)) - Z.of_nat (size s)))).
  - split; [done|]. simpl. by rewrite Z.sub_diag, Z.mul_0_r.
  - intros done m todo n σ' Hm [Hq' ->].
    assert (after (done ++ [m]) = f m (after done)) as Hafter by (unfold after; by rewrite foldl_snoc).
    apply wp_err_bind. eapply wp_slice_exec; [done|done|apply Hst|..].
    + intros σ'' Hq''. apply wp_ret. rewrite Hafter. split; [done|ring].
    + intros HF c σ'' [Hq''|Hq''].
      * apply (Herr HF _ _ done); [|done]. rewrite Hm. by eexists.
      * apply (Herr HF _ _ (done ++ [m])); [|by rewrite Hafter].
        exists todo. by rewrite Hm, <- app_assoc.
  - intros n σ' [Hq' ->]. by apply Hok.
Qed.

Lemma add_members (members : list string) (s : gset string) :
  foldl (λ X m, {[m]} ∪ X) s members = list_to_set members ∪ s.
Proof.
  revert s. induction members as [|m ms IH]; intros s; simpl; [by rewrite (left_id_L ∅ (∪))|].
  rewrite IH. set_solver.
Qed.

Lemma remove_members (members : list string) (s : gset string) :
  foldl (λ X m, X ∖ {[m]}) s members = s ∖ list_to_set members.
Proof.
  revert s. induction members as [|m ms IH]; intros s; simpl; [set_solver|].
  rewrite IH. set_solver.
Qed.

Lemma meets_SAdd F ns key dbIdx members st :
  ready ns st →
  meets F ns (SAdd key dbIdx members)
    (on_entry (key, dbIdx) (expect "set" (sadd_spec members)) (sadd_crash members)) st.
Proof.
  start_entry. unfold SAdd, sEnsure. apply wp_ensured.
  apply wp_guarded; [by intros e c; split; [eexists|auto]|done|done|].
  clear sl σ Hsl0 Hq0. intros sl σ Hsl Ht Hlive Hq. sql_step.
  assert (∀ exp s σ', quiet ns T0 (key, dbIdx) (set_slice exp (member_rows s)) σ' →
    aliveWhere (unix_milli ns) (mkKeyRow "set" exp) = true →
    (∀ ms, expect "set" (sadd_spec ms) (abs_entry (unix_milli ns) sl) =
       (inr (Z.of_nat (size (list_to_set ms ∪ s)) - Z.of_nat (size s)),
        Some (mkEntry (RSet (list_to_set ms ∪ s)) exp))) →
    wp (F) (for_each members 0 (λ added m, n ⇐? exec DB (InsertSetIgnore (key, dbIdx) m); ok (added + n)))
      (entry_post (F) ns T0 (key, dbIdx) (expect "set" (sadd_spec members)) (sadd_crash members)
        (abs_entry (unix_milli ns) sl)) σ') as Hloop.
  { intros exp s σ' Hq' Ha He.
    eapply (wp_member_loop _ _ _ _ _ _ (λ m X, {[m]} ∪ X) 1); [done| |done|..].
    - intros m X. rewrite insert_member_slice. by rewrite Z.mul_1_l.
    - intros σ'' Hq''. rewrite add_members in *. done_ok. rewrite He, dom_member_rows.
      by rewrite Z.mul_1_l.
    - intros HF c σ'' ms Hms Hq''. rewrite add_members in Hq''. done_crash.
      split; [by eexists|]. right. exists ms. split; [done|]. live_entries. by rewrite He, dom_member_rows. }
  destruct (wf_set_cases _ Hsl Ht) as [->|(exp & r & ->)]; [|specialize (Hlive _ eq_refl)];
    sql_step; norm_slices.
  - rewrite <- member_rows_empty in H0. apply (Hloop None ∅ σ' H0 eq_refl). intros ms. done.
  - done_crash. split; [by eexists|by left].
  - done_crash. split; [by eexists|]. right. exists []. split; [apply prefix_nil|].
    live_entries. by rewrite (left_id_L ∅ (∪)).
  - rewrite (member_rows_dom r) in H0. apply (Hloop exp (dom r) σ' H0 Hlive). intros ms. by live_entries.
  - done_crash. split; [by eexists|]. left. by live_entries.
  - done_crash. split; [by eexists|]. left. by live_entries.
Qed.

(** SADD adds members and counts the new ones; a failing engine leaves
    a prefix added. *)
Theorem SAdd_correct `{Engine E} (w : E) ns key dbIdx members :
  ready ns (view w) →
  outcome ns w (SAdd key dbIdx members)
    (on_entry (key, dbIdx) (expect "set" (sadd_spec members)) (sadd_crash members)).
Proof. intros Hr. by apply meets_outcome, meets_SAdd. Qed.

(** [SREM] removes members and counts them; the key stays, even with no
    member left. *)
Definition srem_spec (members : list string) (e : option entry) : result Z * option entry :=
  match e with
  | Some (mkEntry (RSet s) exp) =>
      let s' := s ∖ list_to_set members in
      (inr (Z.of_nat (size s) - Z.of_nat (size s')), Some (mkEntry (RSet s') exp))
  | _ => (inr 0, e)
  end.

Definition srem_crash (members : list string) (e : option entry) (r : result Z) (e' : option entry) : Prop :=
  db_error r ∧ (e' = e ∨ ∃ done, done `prefix_of` members ∧ e' = (srem_spec done e).2).

Lemma meets_SRem F ns key dbIdx members st :
  ready ns st →
  meets F ns (SRem key dbIdx members)
    (on_entry (key, dbIdx) (expect "set" (srem_spec members)) (srem_crash members)) st.
Proof.
  start_entry. unfold SRem, sAssert.
  apply wp_guarded; [by intros e c; split; [eexists|auto]|done|done|].
  clear sl σ Hsl0 Hq0. intros sl σ Hsl Ht Hlive Hq.
  destruct (wf_set_cases _ Hsl Ht) as [->|(exp & r & ->)]; [|specialize (Hlive _ eq_refl)].
  - apply (wp_for_each _ (λ _ n σ, n = 0 ∧ quiet ns T0 (key, dbIdx) empty_slice σ)); [done|..].
    + intros done m todo n σ' _ [-> Hq']. repeat sql_step; try done;
        done_crash; (split; [apply db_error_db|by left]).
    + intros n σ' [-> Hq']. by done_ok.
  - rewrite (member_rows_dom r) in Hq |- *. generalize dependent (dom r). clear r Hsl Ht. intros s Hq.
    eapply (wp_member_loop _ _ _ _ _ _ (λ m X, X ∖ {[m]}) (-1)); [done| |done|..].
    + intros m X. rewrite delete_member_slice. f_equal. f_equal. lia.
    + intros σ' Hq'. rewrite remove_members in *. done_ok. rewrite !dom_member_rows. f_equal. f_equal. lia.
    + intros HF c σ' ms Hms Hq'. rewrite remove_members in Hq'. done_crash.
      split; [by eexists|]. right. exists ms. split; [done|]. live_entries. by rewrite !dom_member_rows.
Qed.

(** SREM removes and counts members; a failing engine leaves a prefix
    removed. *)
Theorem SRem_correct `{Engine E} (w : E) ns key dbIdx members :
  ready ns (view w) →
  outcome ns w (SRem key dbIdx members)
    (on_entry (key, dbIdx) (expect "set" (srem_spec members)) (srem_crash members)).
Proof. intros Hr. by apply meets_outcome, meets_SRem. Qed.

Lemma abs_set_of now sl :
  live now sl → wf_slice sl → has_type sl "set" → set_of (abs_entry now sl) = dom (s_set sl).
Proof.
  intros Hlive Hsl Ht. destruct (wf_set_cases _ Hsl Ht) as [->|(exp & s & ->)]; [done|].
  specialize (Hlive _ eq_refl). by live_entries.
Qed.

Lemma elements_dom (r : gmap string unit) : (map_to_list r).*1 ≡ₚ elements (dom r).
Proof.
  apply NoDup_Permutation; [apply NoDup_fst_map_to_list|apply NoDup_elements|].
  intros m. rewrite elem_of_elements, elem_of_dom, list_elem_of_fmap. split.
  - intros ([m' v] & -> & Hv%elem_of_map_to_list). by eexists.
  - intros [v Hv]. exists (m, v). split; [done|]. by apply elem_of_map_to_list.
Qed.

Lemma meets_SMembers F ns key dbIdx st :
  ready ns st →
  meets F ns (SMembers key dbIdx)
    (reads_one_of (key, dbIdx) "set" (λ e l, l ≡ₚ elements (set_of e))) st.
Proof.
  intros Hr. unfold SMembers, sAssert. apply meets_reads_one_of; [done|].
  intros T0 sl σ Hsl Ht Hlive Hq. sql_step; (split; [done|]); [left|right; eauto].
  exists rows. split; [done|]. rewrite abs_set_of by done. rewrite <- elements_dom. done.
Qed.

Theorem SMembers_correct `{Engine E} (w : E) ns key dbIdx :
  ready ns (view w) →
  outcome ns w (SMembers key dbIdx)
    (reads_one_of (key, dbIdx) "set" (λ e l, l ≡ₚ elements (set_of e))).
Proof. intros Hr. by apply meets_outcome, meets_SMembers. Qed.

(** ** Set algebra *)

Lemma wp_sMembers F ns T0 key db sl Q σ :
  quiet ns T0 (key, db) sl σ → Q (inr (dom (s_set sl))) σ →
  (F → ∀ c, Q (inl (ErrDb c)) σ) → wp F (sMembers key db) Q σ.
Proof.
  intros Hq Hok Herr. unfold sMembers. sql_step. sql_step.
  - apply wp_ret. rewrite add_members, (right_id_L ∅ (∪)).
    match goal with H : answers _ _ rows |- _ => unfold answers in H; simpl in H; rename H into Hrows end.
    replace (list_to_set rows) with (dom (s_set sl)); [done|].
    apply set_eq. intros m. rewrite elem_of_list_to_set, Hrows, elements_dom. by rewrite elem_of_elements.
  - by apply Herr.
Qed.

Lemma wp_collect F (m : gset string) Q σ :
  (∀ l, l ≡ₚ elements m → Q (inr l) σ) → wp F (collect m) Q σ.
Proof.
  intros Hok. unfold collect. apply wp_range_bind. intros vs Hp. apply wp_ret.
  rewrite foldl_append. by apply Hok.
Qed.

(** One round of the loop of [SUnion] ... *)
Lemma meets_union_step F ns k db (u : gset string) σ :
  ready ns σ →
  meets F ns (
    _ ⇐? deleteExpired k db;
    _ ⇐? sAssert k db;
    m ⇐? sMembers k db;
    vs ⇐ trigger (RangeMap (elements m));
    ok (foldl (λ u v, {[v]} ∪ u) u vs)) (reads (k, db) "set" (λ e, set_of e ∪ u)) σ.
Proof.
  intros Hr. apply meets_on_entry; [done|]. intros T0 sl σ' Hsl Hq. unfold sAssert.
  apply wp_guarded; [by intros; hnf; auto with sqlresp|done|done|].
  clear sl σ' Hsl Hq. intros sl σ' Hsl Ht Hlive Hq. apply wp_err_bind. eapply wp_sMembers; [done|..].
  - apply wp_range_bind. intros vs Hvs. apply wp_ret. eapply entry_post_ok; [done|done|].
    rewrite add_members, <- (abs_set_of (unix_milli ns)) in * by done.
    assert (list_to_set vs = set_of (abs_entry (unix_milli ns) sl)) as ->.
    { apply set_eq. intros m. by rewrite elem_of_list_to_set, Hvs, elem_of_elements. }
    destruct (wf_set_cases _ Hsl Ht) as [->|(exp & s & ->)]; [done|].
    specialize (Hlive _ eq_refl). by live_entries.
  - intros HF c. eapply entry_post_crash; [done|done|done|apply atomic_crash].
Qed.

(** ... and of the loops of [SInter] and [SDiff], which do not check types:
    [f] is what the inner loop over a map makes of the base. *)
Lemma meets_scan_step F ns k db (p : gset string → prog (result (gset string))) (f : gset string → gset string) σ :
  ready ns σ →
  (∀ X Q σ, Q (inr (f X)) σ → wp F (p X) Q σ) →
  meets F ns (_ ⇐? deleteExpired k db; other ⇐? sMembers k db; p other)
    (reads_any (k, db) (λ e, f (set_of e))) σ.
Proof.
  intros Hr Hp. apply meets_on_entry; [done|]. intros T0 sl σ' Hsl Hq.
  apply wp_purged; [by intros; hnf; auto with sqlresp|done|done|].
  clear sl σ' Hsl Hq. intros sl σ' Hsl Hlive Hq. apply wp_err_bind. eapply wp_sMembers; [done|..].
  - apply Hp. eapply entry_post_ok; [done|done|]. do 3 f_equal.
    destruct Hsl; try specialize (Hlive _ eq_refl); by live_entries.
  - intros HF c. eapply entry_post_crash; [done|done|done|apply atomic_crash].
Qed.

Definition members (db : Z) (a : keyspace) (k : string) : gset string := set_of (a !! (k, db)).

(** A key that [SUNION] accepts. *)
Definition set_or_absent (db : Z) (a : keyspace) (k : string) : Prop :=
  ∀ e, a !! (k, db) = Some e → type_name (e_val e) = "set".

(** The contract of a command that answers a set in some order, reads only,
    and may refuse a key. *)
Definition answers_set (want : keyspace → gset string → Prop) (refused : keyspace → Prop) : contract (list string) :=
  mkContract
    (λ a r a', a' = a ∧ ((∃ s l, want a s ∧ r = inr l ∧ l ≡ₚ elements s) ∨ refused a ∧ r = inl ErrWrongType))
    (λ a r a', a' = a ∧ db_error r).

Lemma members_snoc db a done k :
  ⋃ (members db a <$> done ++ [k]) = members db a k ∪ ⋃ (members db a <$> done).
Proof. rewrite fmap_app, union_list_app_L. simpl. set_solver. Qed.

Lemma meets_SUnion F ns keys dbIdx st :
  ready ns st →
  meets F ns (SUnion keys dbIdx)
    (answers_set
       (λ a s, Forall (set_or_absent dbIdx a) keys ∧ s = ⋃ (members dbIdx a <$> keys))
       (λ a, ¬ Forall (set_or_absent dbIdx a) keys)) st.
Proof.
  intros Hr. unfold meets, SUnion. apply wp_err_bind.
  set (a := abs (unix_milli ns) (com st)).
  apply (wp_for_each _ (λ done u σ, ready ns σ ∧ abs (unix_milli ns) (com σ) = a ∧
    Forall (set_or_absent dbIdx a) done ∧ u = ⋃ (members dbIdx a <$> done))).
  - by split.
  - intros done k todo u σ Hkeys (Hrσ & Ha & Hall & ->).
    eapply wp_mono; [|by apply meets_union_step]. intros r σ' (Hr' & Ha' & Hor)%fulfils_reads.
    rewrite Ha in *. destruct Hor as [->|[HF [c ->]]].
    + assert (members dbIdx a k = set_of (a !! (k, dbIdx))) as Hm by done.
      unfold read_answer. destruct (a !! (k, dbIdx)) as [en|] eqn:Hk; [case_decide as Ht|].
      * split; [done|]. split; [done|]. rewrite members_snoc, Hm. split; [|done].
        apply list.Forall_app. split; [done|]. apply list.Forall_singleton. intros e. by rewrite Hk; intros [= <-].
      * split; [done|]. left. simpl. fold a. split; [done|]. right. split; [|done]. rewrite Hkeys.
        intros [_ Hbad]%list.Forall_app. apply list.Forall_cons in Hbad as [Hbad _]. by apply Ht, Hbad.
      * split; [done|]. split; [done|]. rewrite members_snoc, Hm. split; [|done].
        apply list.Forall_app. split; [done|]. apply list.Forall_singleton. intros e. by rewrite Hk.
    + split; [done|]. right. split; [done|]. split; [done|by eexists].
  - intros u σ (Hrσ & Ha & Hall & ->). apply wp_collect. intros l Hl. split; [done|]. left. simpl. fold a.
    split; [done|]. left. eauto 10.
Qed.

(** C23: [SUNION]: the union of its keys, all of which must be sets or absent. *)
Theorem SUnion_correct `{Engine E} (w : E) ns keys dbIdx :
  ready ns (view w) →
  outcome ns w (SUnion keys dbIdx)
    (answers_set
       (λ a s, Forall (set_or_absent dbIdx a) keys ∧ s = ⋃ (members dbIdx a <$> keys))
       (λ a, ¬ Forall (set_or_absent dbIdx a) keys)).
Proof. intros Hr. by apply meets_outcome, meets_SUnion. Qed.

(** What [SInter] and [SDiff] read of their first key: its rows, whether or
    not the key has expired. *)
Definition stored_members (db : Z) (T : Tables) (k : string) : gset string :=
  dom (rows (k, db) (t_sets T)).

(** They are its members unless it has expired. *)
Lemma stored_members_live now db T k :
  wf T → live now (slice_of T (k, db)) → stored_members db T k = members db (abs now T) k.
Proof.
  intros Hwf Hlive. unfold members, stored_members. rewrite lookup_abs.
  change (rows (k, db) (t_sets T)) with (s_set (slice_of T (k, db))).
  specialize (Hwf (k, db)). destruct Hwf; try specialize (Hlive _ eq_refl); by live_entries.
Qed.

(** The common shape of the two commands. *)
Lemma wp_scan F ns db (p : gset string → gset string → prog (result (gset string)))
    (f : gset string → gset string → gset string) first rest σ :
  ready ns σ →
  (∀ base X Q σ, Q (inr (f base X)) σ → wp F (p base X) Q σ) →
  wp F (base ⇐? sMembers first db;
        base ⇐? for_each rest base (λ base k,
          _ ⇐? deleteExpired k db; other ⇐? sMembers k db; p base other);
        collect base)
    (fulfils F ns (answers_set
      (λ a s, s = foldl f (stored_members db (com σ) first) (members db a <$> rest)) (λ _, False)) σ) σ.
Proof.
  intros Hr Hp. set (a := abs (unix_milli ns) (com σ)). set (base0 := stored_members db (com σ) first).
  apply wp_err_bind. eapply (wp_sMembers _ ns (com σ)); [apply quiet_start, Hr|..].
  2: { intros HF c. split; [done|]. right. split; [done|]. split; [done|by eexists]. }
  apply wp_err_bind. change (dom (s_set (slice_of (com σ) (first, db)))) with base0.
  apply (wp_for_each _ (λ done base σ', ready ns σ' ∧ abs (unix_milli ns) (com σ') = a ∧
    base = foldl f base0 (members db a <$> done))).
  - by split.
  - intros done k todo base σ1 _ (Hr1 & Ha & ->).
    eapply wp_mono; [|by apply meets_scan_step, Hp]. intros r σ2 (Hr2 & Ha2 & Hor)%fulfils_reads_any.
    rewrite Ha in *. destruct Hor as [->|[HF [c ->]]].
    + split; [done|]. split; [done|]. by rewrite fmap_app, foldl_app.
    + split; [done|]. right. split; [done|]. split; [done|by eexists].
  - intros base σ1 (Hr1 & Ha & ->). apply wp_collect. intros l Hl. split; [done|]. left. simpl. fold a.
    split; [done|]. left. eauto.
Qed.

Lemma wp_inter_loop F (base other : gset string) Q σ :
  Q (inr (base ∩ other)) σ →
  wp F (ms ⇐ trigger (RangeMap (elements base));
        ok (foldl (λ b m, if decide (m ∈ other) then b else b ∖ {[m]}) base ms)) Q σ.
Proof.
  intros HQ. apply wp_range_bind. intros ms Hms. apply wp_ret.
  assert (∀ b, foldl (λ b m, if decide (m ∈ other) then b else b ∖ {[m]}) b ms =
    b ∖ (list_to_set ms ∖ other)) as ->.
  { clear. induction ms as [|m ms IH]; intros b; simpl; [set_solver|]. rewrite IH.
    case_decide; [set_solver|]. set_solver. }
  replace (base ∖ _) with (base ∩ other); [done|]. apply set_eq. intros m.
  rewrite elem_of_difference, elem_of_difference, elem_of_list_to_set, Hms, elem_of_elements, elem_of_intersection.
  destruct (decide (m ∈ other)); naive_solver.
Qed.

Lemma wp_diff_loop F (base other : gset string) Q σ :
  Q (inr (base ∖ other)) σ →
  wp F (ms ⇐ trigger (RangeMap (elements other)); ok (foldl (λ b m, b ∖ {[m]}) base ms)) Q σ.
Proof.
  intros HQ. apply wp_range_bind. intros ms Hms. apply wp_ret. rewrite remove_members.
  replace (list_to_set ms) with other; [done|]. apply set_eq. intros m.
  by rewrite elem_of_list_to_set, Hms, elem_of_elements.
Qed.

(** Both start from the rows stored for the first key. *)
Lemma meets_SInter F ns first rest dbIdx st :
  ready ns st →
  meets F ns (SInter (first :: rest) dbIdx) (answers_set
    (λ a s, s = foldl (∩) (stored_members dbIdx (com st) first) (members dbIdx a <$> rest)) (λ _, False)) st.
Proof. intros Hr. unfold meets, SInter. apply wp_scan; [done|]. intros. by apply wp_inter_loop. Qed.

Lemma meets_SDiff F ns first rest dbIdx st :
  ready ns st →
  meets F ns (SDiff (first :: rest) dbIdx) (answers_set
    (λ a s, s = foldl (∖) (stored_members dbIdx (com st) first) (members dbIdx a <$> rest)) (λ _, False)) st.
Proof. intros Hr. unfold meets, SDiff. apply wp_scan; [done|]. intros. by apply wp_diff_loop. Qed.

(** [SINTER] and [SDIFF] of keys whose first has not expired are the
    intersection and the difference; a key of another type counts as empty. *)
Theorem SInter_correct `{Engine E} (w : E) ns first rest dbIdx :
  ready ns (view w) → live (unix_milli ns) (slice_of (com (view w)) (first, dbIdx)) →
  outcome ns w (SInter (first :: rest) dbIdx)
    (answers_set (λ a s, s = foldl (∩) (members dbIdx a first) (members dbIdx a <$> rest)) (λ _, False)).
Proof.
  intros Hr Hlive. apply (outcome_mono ns w _ (answers_set
    (λ a s, s = foldl (∩) (stored_members dbIdx (com (view w)) first) (members dbIdx a <$> rest)) (λ _, False))).
  - simpl. by rewrite <- stored_members_live by (done || apply Hr).
  - done.
  - by apply meets_outcome, meets_SInter.
Qed.

(** SDIFF with an unexpired first key answers the difference in some
    order. *)
Theorem SDiff_correct `{Engine E} (w : E) ns first rest dbIdx :
  ready ns (view w) → live (unix_milli ns) (slice_of (com (view w)) (first, dbIdx)) →
  outcome ns w (SDiff (first :: rest) dbIdx)
    (answers_set (λ a s, s = foldl (∖) (members dbIdx a first) (members dbIdx a <$> rest)) (λ _, False)).
Proof.
  intros Hr Hlive. apply (outcome_mono ns w _ (answers_set
    (λ a s, s = foldl (∖) (stored_members dbIdx (com (view w)) first) (members dbIdx a <$> rest)) (λ _, False))).
  - simpl. by rewrite <- stored_members_live by (done || apply Hr).
  - done.
  - by apply meets_outcome, meets_SDiff.
Qed.

(** The first key's deadline is not looked at: [SDIFF k] answers the members
    of an expired [k] that the sweep has not removed yet. *)
Theorem SDiff_stale `{Engine E} (w : E) ns key dbIdx :
  ready ns (view w) →
  outcome ns w (SDiff [key] dbIdx)
    (answers_set (λ _ s, s = stored_members dbIdx (com (view w)) key) (λ _, False)).
Proof.
  intros Hr. by apply meets_outcome, (meets_SDiff _ ns key []).
Qed.

(** ** Witnesses *)

Lemma SCard_correct_witness :
  (run (SCard "s" 0) sample).1 = inr 2 ∧
  outcome sample_ns sample (SCard "s" 0) (reads ("s", 0) "set" set_size).
Proof. split; [by vm_compute|]. apply (SCard_correct sample sample_ns "s" 0). apply sample_ready. Defined.

Lemma SIsMember_correct_witness :
  (run (SIsMember "s" 0 "b") sample).1 = inr true ∧
  outcome sample_ns sample (SIsMember "s" 0 "b") (reads ("s", 0) "set" (λ e, bool_decide ("b" ∈ set_of e))).
Proof. split; [by vm_compute|]. apply (SIsMember_correct sample sample_ns "s" 0 "b"). apply sample_ready. Defined.

Lemma SAdd_correct_witness :
  (run (SAdd "s" 0 ["b"; "c"]) sample).1 = inr 1 ∧
  outcome sample_ns sample (SAdd "s" 0 ["b"; "c"]) (on_entry ("s", 0) (expect "set" (sadd_spec ["b"; "c"])) (sadd_crash ["b"; "c"])).
Proof. split; [by vm_compute|]. apply (SAdd_correct sample sample_ns "s" 0 ["b"; "c"]). apply sample_ready. Defined.

Lemma SRem_correct_witness :
  (run (SRem "s" 0 ["b"; "c"]) sample).1 = inr 1 ∧
  outcome sample_ns sample (SRem "s" 0 ["b"; "c"]) (on_entry ("s", 0) (expect "set" (srem_spec ["b"; "c"])) (srem_crash ["b"; "c"])).
Proof. split; [by vm_compute|]. apply (SRem_correct sample sample_ns "s" 0 ["b"; "c"]). apply sample_ready. Defined.

Lemma SMembers_correct_witness :
  outcome sample_ns sample (SMembers "s" 0)
    (reads_one_of ("s", 0) "set" (λ e l, l ≡ₚ elements (set_of e))).
Proof. apply (SMembers_correct sample sample_ns "s" 0). apply sample_ready. Defined.

Lemma SUnion_correct_witness :
  outcome sample_ns sample (SUnion ["s"; "u"] 0) (answers_set
    (λ a s, Forall (set_or_absent 0 a) ["s"; "u"] ∧ s = ⋃ (members 0 a <$> ["s"; "u"]))
    (λ a, ¬ Forall (set_or_absent 0 a) ["s"; "u"])).
Proof. apply (SUnion_correct sample sample_ns ["s"; "u"] 0). apply sample_ready. Defined.

Lemma SInter_correct_witness :
  (run (SInter ["s"; "u"] 0) sample).1 = inr ["b"] ∧
  outcome sample_ns sample (SInter ["s"; "u"] 0) (answers_set
    (λ a s, s = foldl (∩) (members 0 a "s") (members 0 a <$> ["u"])) (λ _, False)).
Proof. split; [by vm_compute|]. apply (SInter_correct sample sample_ns "s" ["u"] 0); [apply sample_ready|].
  intros r Hr. vm_compute in Hr. by simplify_eq. Defined.

Lemma SDiff_correct_witness :
  (run (SDiff ["s"; "u"] 0) sample).1 = inr ["a"] ∧
  outcome sample_ns sample (SDiff ["s"; "u"] 0) (answers_set
    (λ a s, s = foldl (∖) (members 0 a "s") (members 0 a <$> ["u"])) (λ _, False)).
Proof. split; [by vm_compute|]. apply (SDiff_correct sample sample_ns "s" ["u"] 0); [apply sample_ready|].
  intros r Hr. vm_compute in Hr. by simplify_eq. Defined.

Lemma SDiff_stale_witness :
  (run (SDiff ["gone"] 0) sample).1 = inr ["z"] ∧
  abs 1000 sample_tables !! ("gone", 0) = None ∧
  outcome sample_ns sample (SDiff ["gone"] 0)
    (answers_set (λ _ s, s = stored_members 0 (com (view sample)) "gone") (λ _, False)).
Proof. split; [by vm_compute|]. split; [by vm_compute|].
  apply (SDiff_stale sample sample_ns "gone" 0). apply sample_ready. Defined.
