(* ===== verification/StoreZsets.v ===== *)
(** Operations on sorted sets ([src/internal/store/zsets.go]). Scores are
    binary64 numbers; the rows of a sorted set hold no NaN. *)
From S2P Require Import Prelude GoStd Float Sql Effects Keyspace Sample Store StoreLists.
Local Open Scope Z_scope.
Local Open Scope go_scope.

(** ** Operations *)

Definition zEnsure (key : string) (dbIdx : Z) : prog (result unit) :=
  _ ⇐? deleteExpired key dbIdx;
  _ ⇐? assertType key dbIdx "zset";
  _ ⇐? exec DB (InsertKeyIgnore (key, dbIdx) "zset");
  ok tt.

Definition zAssert (key : string) (dbIdx : Z) : prog (result unit) :=
  assertType key dbIdx "zset".

(** [ZAddOptions]. *)
Record ZAddOptions := mkZAddOptions { ZNX : bool; ZXX : bool }.

(** The body of [ZAdd]'s loop. *)
Definition zadd_member (key : string) (dbIdx : Z) (opts : ZAddOptions) (added : Z)
    (member : string) (score : float64) : prog (result Z) :=
  r ⇐ query_row DB (CountZsetMember (key, dbIdx) member);
  let exists_ := scanned 0 r in
  if ZNX opts && bool_decide (exists_ > 0) then ok added
  else if ZXX opts && bool_decide (exists_ = 0) then ok added
  else if decide (exists_ = 0) then
    _ ⇐? exec DB (InsertZset (key, dbIdx) member score);
    ok (added + 1)
  else
    _ ⇐? exec DB (UpdateZset (key, dbIdx) member score);
    ok added.

Definition ZAdd (key : string) (dbIdx : Z) (members : gmap string float64) (opts : ZAddOptions)
    : prog (result Z) :=
  _ ⇐? zEnsure key dbIdx;
  order ⇐ trigger (RangeMap (map_to_list members).*1);
  for_each order 0 (λ added member,
    zadd_member key dbIdx opts added member (default f64_zero (members !! member))).

Definition ZRem (key : string) (dbIdx : Z) (members : list string) : prog (result Z) :=
  _ ⇐? deleteExpired key dbIdx;
  _ ⇐? zAssert key dbIdx;
  for_each members 0 (λ removed m,
    n ⇐? exec DB (DeleteZsetMember (key, dbIdx) m);
    ok (removed + n)).

Definition ZScore (key : string) (dbIdx : Z) (member : string) : prog (result (option float64)) :=
  _ ⇐? deleteExpired key dbIdx;
  _ ⇐? zAssert key dbIdx;
  r ⇐ query_row DB (SelZsetScore (key, dbIdx) member);
  match r with
  | NoRows => ok None
  | ScanErr e => err e
  | Row score => ok (Some score)
  end.

(** Any error of the first query reads as an absent member. *)
Definition ZRank (key : string) (dbIdx : Z) (member : string) : prog (result (option Z)) :=
  _ ⇐? deleteExpired key dbIdx;
  _ ⇐? zAssert key dbIdx;
  r ⇐ query_row DB (CountZsetBelow (key, dbIdx) member);
  match r with
  | Row rank =>
      r ⇐ query_row DB (CountZsetMember (key, dbIdx) member);
      let exists_ := scanned 0 r in
      if decide (exists_ = 0) then ok None else ok (Some rank)
  | _ => ok None
  end.

Definition ZRange (key : string) (dbIdx : Z) (start stop : Z) : prog (result (list string)) :=
  _ ⇐? deleteExpired key dbIdx;
  _ ⇐? zAssert key dbIdx;
  r ⇐ query_row DB (CountZset (key, dbIdx));
  let count := scanned 0 r in
  let start := if decide (start < 0) then count + start else start in
  let stop := if decide (stop < 0) then count + stop else stop in
  let start := if decide (start < 0) then 0 else start in
  let stop := if decide (count ≤ stop) then count - 1 else stop in
  if decide (stop < start) then ok []
  else query_all DB (SelZsetPage (key, dbIdx) (stop - start + 1) start).

(** [parseScore]: the bound and whether it is exclusive, or [ParseFloat]'s
    error. *)
Definition parseScore `{Unicode} (s : string) : error + (float64 * bool) :=
  let '(excl, s) := match s with String "("%char s' => (true, s') | _ => (false, s) end in
  let lower := ToLower s in
  if decide (lower = "-inf") then inr (f64_inf true, excl)
  else if decide (lower = "+inf" ∨ lower = "inf") then inr (f64_inf false, excl)
  else match ParseFloat s with
       | inl e => inl (ErrNew (NumError "ParseFloat" s e))
       | inr v => inr (v, excl)
       end.

Definition ZRangeByScore `{Unicode} (key : string) (dbIdx : Z) (minStr maxStr : string)
    : prog (result (list string)) :=
  _ ⇐? deleteExpired key dbIdx;
  _ ⇐? zAssert key dbIdx;
  '(minVal, minExcl) ⇐? Ret (parseScore minStr);
  '(maxVal, maxExcl) ⇐? Ret (parseScore maxStr);
  query_all DB (SelZsetScores (key, dbIdx) minExcl maxExcl minVal maxVal).

Definition ZCard (key : string) (dbIdx : Z) : prog (result Z) :=
  _ ⇐? deleteExpired key dbIdx;
  _ ⇐? zAssert key dbIdx;
  r ⇐ query_row DB (CountZset (key, dbIdx));
  match r with
  | Row n => ok n
  | NoRows => err (ErrNew "sql: no rows in result set")
  | ScanErr e => err e
  end.

Definition ZCount `{Unicode} (key : string) (dbIdx : Z) (minStr maxStr : string) : prog (result Z) :=
  members ⇐? ZRangeByScore key dbIdx minStr maxStr;
  ok (Z.of_nat (length members)).

(** [ZIncrBy] after [zEnsure]. *)
Definition zincr_rows (key : string) (dbIdx : Z) (delta : float64) (member : string)
    : prog (result float64) :=
  r ⇐ query_row DB (SelZsetScore (key, dbIdx) member);
  match r with
  | NoRows =>
      _ ⇐? exec DB (InsertZset (key, dbIdx) member delta);
      ok delta
  | ScanErr e => err e
  | Row cur =>
      let newScore := f64_add cur delta in
      _ ⇐? exec DB (UpdateZset (key, dbIdx) member newScore);
      ok newScore
  end.

Definition ZIncrBy (key : string) (dbIdx : Z) (delta : float64) (member : string)
    : prog (result float64) :=
  _ ⇐? zEnsure key dbIdx;
  zincr_rows key dbIdx delta member.

(** ** Order *)

(** A listing of a sorted set: its pairs by ascending score, then member. *)
Definition listing (z : gmap string float64) (ps : list (string * float64)) : Prop :=
  ps ≡ₚ map_to_list z ∧ StronglySorted zset_le ps.

(** The order of the listing as an order of ranks, which is total. *)
Definition rank_le : relation (string * float64) := λ x y,
  lex3 (f64_rank x.2) (f64_rank y.2) ∨ f64_rank x.2 = f64_rank y.2 ∧ String.le x.1 y.1.

Lemma lex3_trans a b c : lex3 a b → lex3 b c → lex3 a c.
Proof. unfold lex3. lia. Qed.

Lemma lex3_total a b : lex3 a b ∨ a = b ∨ lex3 b a.
Proof.
  destruct a as [[a1 a2] a3], b as [[b1 b2] b3]. unfold lex3. simpl.
  destruct (decide (a1 = b1 ∧ a2 = b2 ∧ a3 = b3)) as [(-> & -> & ->)|]; [auto|lia].
Qed.

Lemma lex3_irrefl a : ¬ lex3 a a.
Proof. unfold lex3. lia. Qed.

#[export] Instance rank_le_trans : Transitive rank_le.
Proof.
  intros x y z [Hxy|[Hxy Hs]] [Hyz|[Hyz Hs']]; unfold rank_le.
  - left. by eapply lex3_trans.
  - left. by rewrite <- Hyz.
  - left. by rewrite Hxy.
  - right. split; [congruence|]. by etrans.
Qed.

Lemma zset_le_rank x y : is_nan x.2 = false → is_nan y.2 = false → zset_le x y ↔ rank_le x y.
Proof.
  intros Hx Hy. unfold zset_le, rank_le.
  rewrite <- not_true_iff_false, SFltb_rank, SFeqb_rank by done.
  pose proof (lex3_total (f64_rank x.2) (f64_rank y.2)) as Htot.
  pose proof (lex3_irrefl (f64_rank x.2)) as Hirr.
  split.
  - intros [Hn Hs]. destruct Htot as [?|[?|?]]; [by left|right; auto|done].
  - intros [Hlt|[Heq Hs]]; split.
    + intros Hgt. apply Hirr. by eapply lex3_trans.
    + intros Heq. by rewrite Heq in Hlt, Hirr.
    + by rewrite <- Heq.
    + done.
Qed.

#[export] Instance zset_le_total : Total zset_le.
Proof.
  intros [m x] [m' y]. unfold zset_le; simpl. unfold SFltb, SFeqb.
  assert (∀ a b, SFcompare a b = match SFcompare b a with Some c => Some (CompOpp c) | None => None end) as Hflip.
  { intros a b. destruct a as [[]|[]| |[] ma ea], b as [[]|[]| |[] mb eb]; simpl; try done;
      rewrite (Z.compare_antisym eb ea); destruct (Z.compare eb ea); simpl; try done;
      change (PosDef.Pos.compare_cont Eq ma mb) with (Pos.compare ma mb);
      change (PosDef.Pos.compare_cont Eq mb ma) with (Pos.compare mb ma);
      rewrite (Pos.compare_antisym mb ma); by destruct (Pos.compare mb ma). }
  rewrite (Hflip y x). destruct (SFcompare x y) as [[]|]; simpl.
  - destruct (String.le_total m m'); [left|right]; auto.
  - left. by split.
  - right. by split.
  - left. by split.
Qed.

Lemma rank_sorted z ps :
  nan_free z → ps ≡ₚ map_to_list z → Sorted zset_le ps → StronglySorted zset_le ps.
Proof.
  intros Hz Hp Hs.
  assert (∀ p, p ∈ ps → is_nan p.2 = false) as Hnan.
  { intros [m x]. rewrite Hp, elem_of_map_to_list. apply Hz. }
  clear Hp. assert (Sorted rank_le ps) as Hr%Sorted_StronglySorted; [|clear Hs|apply _].
  - induction Hs as [|p ps Hs IH Hd]; [constructor|]. constructor; [apply IH; set_solver|].
    destruct Hd; constructor. apply zset_le_rank; [..|done]; apply Hnan; set_solver.
  - induction Hr as [|p ps Hr IH Hall]; constructor; [apply IH; set_solver|].
    rewrite list.Forall_forall in Hall |- *. intros q Hq.
    apply zset_le_rank; [apply Hnan; set_solver..|]. by apply Hall.
Qed.

(** What [ORDER BY score, member] answers is a listing. *)
Lemma order_by_score_listing z :
  nan_free z → ∃ ps, order_by_score z = ps.*1 ∧ listing z ps.
Proof.
  intros Hz. exists (merge_sort zset_le (map_to_list z)). split; [done|].
  assert (merge_sort zset_le (map_to_list z) ≡ₚ map_to_list z) as Hp by apply merge_sort_Permutation.
  split; [done|]. apply (rank_sorted z); [done..|]. apply Sorted_merge_sort, _.
Qed.

(** ** Reading *)

(** Enter an operation and its prologue on an absent key or a sorted set. *)
Ltac enter_zset :=
  apply wp_guarded; [by intros; hnf; auto with sqlresp|assumption|assumption|];
  let sl := fresh "sl" in let σ := fresh "σ" in
  let Hsl := fresh "Hsl" in let Ht := fresh "Ht" in let Hlive := fresh "Hlive" in
  intros sl σ Hsl Ht Hlive ?;
  let exp := fresh "exp" in let z := fresh "z" in let Hz := fresh "Hz" in
  destruct (wf_zset_cases _ Hsl Ht) as [->|(exp & z & Hz & ->)]; [|specialize (Hlive _ eq_refl)].

Lemma meets_ZScore F ns key dbIdx member st :
  ready ns st →
  meets F ns (ZScore key dbIdx member) (reads (key, dbIdx) "zset" (λ e, zset_of e !! member)) st.
Proof.
  start_entry. unfold ZScore, zAssert. enter_zset; repeat sql_step; try close_entry.
  all: simpl; destruct (_ !! member) eqn:Hm; simpl; repeat sql_step; close_entry by (rewrite Hm).
Qed.

(** ZSCORE answers the score of a member. *)
Theorem ZScore_correct `{Engine E} (w : E) ns key dbIdx member :
  ready ns (view w) →
  outcome ns w (ZScore key dbIdx member) (reads (key, dbIdx) "zset" (λ e, zset_of e !! member)).
Proof. intros Hr. by apply meets_outcome, meets_ZScore. Qed.

Lemma meets_ZCard F ns key dbIdx st :
  ready ns st →
  meets F ns (ZCard key dbIdx) (reads (key, dbIdx) "zset" (λ e, Z.of_nat (size (zset_of e)))) st.
Proof. start_entry. unfold ZCard, zAssert. enter_zset; repeat sql_step; close_entry. Qed.

Theorem ZCard_correct `{Engine E} (w : E) ns key dbIdx :
  ready ns (view w) →
  outcome ns w (ZCard key dbIdx) (reads (key, dbIdx) "zset" (λ e, Z.of_nat (size (zset_of e)))).
Proof. intros Hr. by apply meets_outcome, meets_ZCard. Qed.

(** The rank of a member: how many members have a lower score. *)
Definition rank_of (z : gmap string float64) (member : string) : option Z :=
  x ← z !! member; Some (Z.of_nat (size (filter (λ p, SFltb p.2 x = true) z))).

Definition zrank_spec (member : string) (e : option entry) : result (option Z) * option entry :=
  (inr (rank_of (zset_of e) member), e).

(** The errors of its queries read as an absent member. *)
Definition zrank_crash (e : option entry) (r : result (option Z)) (e' : option entry) : Prop :=
  e' = e ∧ (db_error r ∨ r = inr None).

Lemma meets_ZRank F ns key dbIdx member st :
  ready ns st →
  meets F ns (ZRank key dbIdx member)
    (on_entry (key, dbIdx) (expect "zset" (zrank_spec member)) zrank_crash) st.
Proof.
  start_entry. unfold ZRank, zAssert. enter_zset; repeat sql_step; simpl; repeat sql_step; simpl.
  all: first [by done_ok|done_crash; by (split; [by live_entries|]; first [by left; apply db_error_db|by right]) | idtac].
  all: destruct (z !! member) as [x|] eqn:Hm; simpl; repeat sql_step; simpl.
  all: done_ok; unfold zrank_spec, rank_of; simpl; by rewrite Hm.
Qed.

(** ZRANK counts the members with a lower score. *)
Theorem ZRank_correct `{Engine E} (w : E) ns key dbIdx member :
  ready ns (view w) →
  outcome ns w (ZRank key dbIdx member)
    (on_entry (key, dbIdx) (expect "zset" (zrank_spec member)) zrank_crash).
Proof. intros Hr. by apply meets_outcome, meets_ZRank. Qed.

(** ** Ranges *)

(** The contract of an operation that reads a sorted set and answers any [r]
    with [P z r]; [lost] says what it may also answer when the engine fails. *)
Definition reads_zset {A} (k : kid) (P : gmap string float64 → result A → Prop)
    (lost : result A → Prop) : contract A :=
  mkContract
    (λ a r a', a' = a ∧
       match a !! k with
       | Some e => if decide (type_name (e_val e) = "zset") then P (zset_of (Some e)) r
                   else r = inl ErrWrongType
       | None => P ∅ r
       end)
    (λ a r a', a' = a ∧ (db_error r ∨ lost r)).

Lemma abs_nan_free now T k e : wf T → abs now T !! k = Some e → nan_free (zset_of (Some e)).
Proof.
  intros Hwf. rewrite lookup_abs. specialize (Hwf k). unfold abs_entry.
  destruct Hwf; simpl; intros He; case_match; simplify_eq/=; auto with sqlresp.
Qed.

Lemma meets_reads_zset F ns {A} (p : prog (result A)) k f (P : gmap string float64 → result A → Prop)
    (lost : result A → Prop) st :
  ready ns st →
  (∀ z, nan_free z → P z (f z)) →
  meets F ns p (on_entry k (expect "zset" (λ e, (f (zset_of e), e)))
    (λ e r e', e' = e ∧ (db_error r ∨ lost r))) st →
  meets F ns p (reads_zset k P lost) st.
Proof.
  intros [Hwf _] HP. apply wp_mono. intros r σ' [Hr Hor]. split; [done|]. simpl in *.
  set (a := abs (unix_milli ns) (com st)) in *.
  assert (partial_alter (λ _, a !! k) k a = a) as Hid by by apply partial_alter_self.
  destruct Hor as [[Hres Ha]|[HF (e & [-> Hc] & Ha)]]; [left|right; by rewrite Ha, Hid].
  unfold expect in *. destruct (a !! k) as [e|] eqn:Hk; simpl in *; [case_decide|];
    simpl in *; rewrite Hid in Ha; (split; [done|]); rewrite Hres; try done.
  - apply HP. by eapply abs_nan_free.
  - apply HP. auto with sqlresp.
Qed.

Lemma length_order_by_score z : length (order_by_score z) = size z.
Proof. unfold order_by_score. by rewrite length_fmap, merge_sort_Permutation, length_map_to_list. Qed.

(** The page that [ZRange] asks for. *)
Lemma page_correct l start stop :
  let n := Z.of_nat (length l) in
  let start' := if decide (start < 0) then n + start else start in
  let stop' := if decide (stop < 0) then n + stop else stop in
  let start' := if decide (start' < 0) then 0 else start' in
  let stop' := if decide (n ≤ stop') then n - 1 else stop' in
  elements_between l start stop =
    if decide (stop' < start') then [] else limit_offset (stop' - start' + 1) start' l.
Proof.
  cbv zeta. pose proof (range_slice_correct l start stop) as Hs. unfold range_slice in Hs.
  repeat case_decide; try lia; try (by injection Hs as <-).
  all: rewrite go_slice_some in Hs by lia; injection Hs as <-; unfold limit_offset.
  all: rewrite decide_False by lia; do 2 f_equal; lia.
Qed.

Definition zrange_lost (r : result (list string)) : Prop := r = inr [].

Lemma meets_ZRange F ns key dbIdx start stop st :
  ready ns st →
  meets F ns (ZRange key dbIdx start stop) (reads_zset (key, dbIdx)
    (λ z r, ∃ ps, listing z ps ∧ r = inr (elements_between ps.*1 start stop)) zrange_lost) st.
Proof.
  intros Hr. apply (meets_reads_zset _ _ _ _ (λ z, inr (elements_between (order_by_score z) start stop)));
    [done|..].
  { intros z Hz. destruct (order_by_score_listing z Hz) as (ps & -> & Hps). eauto. }
  start_entry. unfold ZRange, zAssert. enter_zset; (sql_step; sql_step; simpl).
  2,4: repeat case_decide; try lia; sql_step; done_crash; (split; [by live_entries|by right]).
  1: pose proof (page_correct (order_by_score ∅) start stop) as Hp.
  2: pose proof (page_correct (order_by_score z) start stop) as Hp.
  all: cbv zeta in Hp; rewrite length_order_by_score in Hp.
  all: match goal with |- wp _ (if ?D then _ else _) _ _ =>
         lazymatch type of Hp with _ = (if ?D' then _ else _) => change D' with D in Hp end; destruct D
       end; sql_step.
  all: match goal with H : answers _ _ _ |- _ => unfold answers in H; simpl in H; subst | _ => idtac end.
  all: first [by done_ok; rewrite Hp|done_crash; by (split; [by live_entries|]; left; apply db_error_db)].
Qed.

(** ZRANGE answers the members between two positions of the listing. *)
Theorem ZRange_correct `{Engine E} (w : E) ns key dbIdx start stop :
  ready ns (view w) →
  outcome ns w (ZRange key dbIdx start stop) (reads_zset (key, dbIdx)
    (λ z r, ∃ ps, listing z ps ∧ r = inr (elements_between ps.*1 start stop)) zrange_lost).
Proof. intros Hr. by apply meets_outcome, meets_ZRange. Qed.

(** The members whose score lies between the bounds, or the error of a bound
    that is not a number. *)
Definition score_bounds `{Unicode} (minStr maxStr : string) : error + (float64 * bool * (float64 * bool)) :=
  match parseScore minStr, parseScore maxStr with
  | inl e, _ => inl e
  | inr _, inl e => inl e
  | inr lo, inr hi => inr (lo, hi)
  end.

Definition within (b : float64 * bool * (float64 * bool)) (z : gmap string float64) : gmap string float64 :=
  scores_between b.1.2 b.2.2 b.1.1 b.2.1 z.

Lemma parseScore_safe `{Unicode} s e : parseScore s = inl e → ∃ m, e = ErrNew m.
Proof.
  unfold parseScore. destruct (match s with String _ _ => _ | _ => _ end) as [excl s'].
  repeat case_match; intros; simplify_eq; eauto.
Qed.

Lemma nan_free_within b z : nan_free z → nan_free (within b z).
Proof. intros Hz m x [Hx _]%map_lookup_filter_Some. by apply (Hz m). Qed.

Lemma within_empty b : within b ∅ = ∅.
Proof. unfold within, scores_between. apply map_filter_empty. Qed.

Definition zscores_spec `{Unicode} {A} (minStr maxStr : string) (f : gmap string float64 → A)
    (z : gmap string float64) : result A :=
  match score_bounds minStr maxStr with inl e => inl e | inr b => inr (f (within b z)) end.

Lemma meets_scores `{Unicode} F ns key dbIdx minStr maxStr st :
  ready ns st →
  meets F ns (ZRangeByScore key dbIdx minStr maxStr)
    (atomically (key, dbIdx) (expect "zset" (λ e,
       (zscores_spec minStr maxStr order_by_score (zset_of e), e)))) st.
Proof.
  start_entry. unfold ZRangeByScore, zAssert. enter_zset; unfold zscores_spec, score_bounds.
  all: sql_step; apply wp_ret; destruct (parseScore minStr) as [c|[lo lox]] eqn:Hlo; simpl.
  all: try (by close_entry by (rewrite ?Hlo)).
  all: sql_step; apply wp_ret; destruct (parseScore maxStr) as [c|[hi hix]] eqn:Hhi; simpl.
  all: try (by close_entry by (rewrite ?Hlo, ?Hhi)).
  all: sql_step; try match goal with H : answers _ _ _ |- _ => unfold answers in H; simpl in H; subst end.
  all: close_entry by (rewrite ?Hlo, ?Hhi).
Qed.

Definition never_lost {A} (r : result A) : Prop := False.

Lemma meets_ZRangeByScore `{Unicode} F ns key dbIdx minStr maxStr st :
  ready ns st →
  meets F ns (ZRangeByScore key dbIdx minStr maxStr) (reads_zset (key, dbIdx)
    (λ z r, match score_bounds minStr maxStr with
            | inl e => r = inl e
            | inr b => ∃ ps, listing (within b z) ps ∧ r = inr ps.*1
            end) never_lost) st.
Proof.
  intros Hr. apply (meets_reads_zset _ _ _ _ (zscores_spec minStr maxStr order_by_score)); [done|..].
  - intros z Hz. unfold zscores_spec. destruct (score_bounds minStr maxStr) as [c|b]; [done|].
    destruct (order_by_score_listing _ (nan_free_within b z Hz)) as (ps & -> & Hps). eauto.
  - eapply wp_mono; [|by apply meets_scores]. intros r σ' [Hr' Hor]. split; [done|].
    destruct Hor as [?|[HF (e & [Hdb He] & Ha)]]; [by left|right; split; [done|]]. simpl in *.
    exists e. split; [|done]. split; [|by left]. destruct He as [->| ->]; [done|].
    unfold expect. destruct (_ !! _); [by case_decide|done].
Qed.

(** ZRANGEBYSCORE lists the members whose score lies between its bounds. *)
Theorem ZRangeByScore_correct `{Unicode} `{Engine E} (w : E) ns key dbIdx minStr maxStr :
  ready ns (view w) →
  outcome ns w (ZRangeByScore key dbIdx minStr maxStr) (reads_zset (key, dbIdx)
    (λ z r, match score_bounds minStr maxStr with
            | inl e => r = inl e
            | inr b => ∃ ps, listing (within b z) ps ∧ r = inr ps.*1
            end) never_lost).
Proof. intros Hr. by apply meets_outcome, meets_ZRangeByScore. Qed.

Lemma meets_ZCount `{Unicode} F ns key dbIdx minStr maxStr st :
  ready ns st →
  meets F ns (ZCount key dbIdx minStr maxStr)
    (atomically (key, dbIdx) (expect "zset" (λ e,
       (zscores_spec minStr maxStr (λ z, Z.of_nat (size z)) (zset_of e), e)))) st.
Proof.
  intros Hr. unfold meets, ZCount. apply wp_err_bind.
  eapply wp_mono; [|by apply meets_scores]. intros r σ' [Hr' Hor]. simpl in Hor. unfold fulfils; simpl.
  assert (∀ e, (expect "zset" (λ e, (zscores_spec minStr maxStr (λ z, Z.of_nat (size z)) (zset_of e), e)) e) =
    (match (expect "zset" (λ e, (zscores_spec minStr maxStr order_by_score (zset_of e), e)) e).1 with
     | inl c => inl c | inr l => inr (Z.of_nat (length l)) end, e) ∧
    (expect "zset" (λ e, (zscores_spec minStr maxStr order_by_score (zset_of e), e)) e).2 = e) as Hspec.
  { intros e. unfold expect, zscores_spec. destruct e as [en|]; [case_decide; [|done]|];
      (destruct (score_bounds _ _); [done|]); simpl; by rewrite length_order_by_score. }
  destruct Hor as [[-> Ha]|[HF (e & [[c ->] He] & Ha)]].
  - rewrite (proj1 (Hspec _)) in *. rewrite (proj2 (Hspec _)) in Ha. simpl.
    destruct (expect "zset" _ _).1 as [c|l]; [|apply wp_ret]; (split; [done|]); by left.
  - split; [done|]. right. split; [done|]. exists e. split; [|done]. split; [by eexists|].
    rewrite (proj1 (Hspec _)). rewrite (proj2 (Hspec _)) in He. simpl. by left; destruct He.
Qed.

(** ZCOUNT counts the members ZRANGEBYSCORE would list. *)
Theorem ZCount_correct `{Unicode} `{Engine E} (w : E) ns key dbIdx minStr maxStr :
  ready ns (view w) →
  outcome ns w (ZCount key dbIdx minStr maxStr)
    (atomically (key, dbIdx) (expect "zset" (λ e,
       (zscores_spec minStr maxStr (λ z, Z.of_nat (size z)) (zset_of e), e)))).
Proof. intros Hr. by apply meets_outcome, meets_ZCount. Qed.

(** ** Writing *)

(** [ZINCRBY] adds to the score of a member, 0 for a new one. *)
Definition incremented (delta : float64) (member : string) (e : option entry) : float64 :=
  match zset_of e !! member with Some x => f64_add x delta | None => delta end.

Definition zincr_spec (delta : float64) (member : string) (e : option entry)
    : result float64 * option entry :=
  let x := incremented delta member e in
  (inr x, Some (mkEntry (RZset (<[member := x]> (zset_of e))) (exp_of e))).

(** The key's row is inserted before anything else. *)
Definition zincr_crash (delta : float64) (member : string) (e : option entry)
    (r : result float64) (e' : option entry) : Prop :=
  db_error r ∧
  (e' = e ∨ e' = (expect "zset" (zincr_spec delta member) e).2 ∨
   e = None ∧ e' = Some (mkEntry (RZset ∅) None)).

(** The prologue [zEnsure]: the body runs on the rows of a sorted set, empty
    if the key is new. *)
Lemma wp_zensured F ns T0 key db {A} (body : prog (result A)) g crash sl σ :
  let e := abs_entry (unix_milli ns) sl in
  let post := entry_post F ns T0 (key, db) (expect "zset" g) crash e in
  (∀ c, crash e (inl (ErrDb c)) e) →
  (e = None → ∀ c, crash e (inl (ErrDb c)) (Some (mkEntry (RZset ∅) None))) →
  wf_slice sl → quiet ns T0 (key, db) sl σ →
  (∀ exp z σ', nan_free z → quiet ns T0 (key, db) (zset_slice exp z) σ' →
     aliveWhere (unix_milli ns) (mkKeyRow "zset" exp) = true →
     e = Some (mkEntry (RZset z) exp) ∨ e = None ∧ z = ∅ ∧ exp = None →
     wp F body post σ') →
  wp F (err_bind (zEnsure key db) (λ _, body)) post σ.
Proof.
  intros e post Hold Hnew Hsl0 Hq0 Hbody. unfold zEnsure. apply wp_ensured.
  apply wp_guarded_at; [done..|]. intros sl1 σ1 Hsl Ht Hlive Hq Ha. fold e in Ha.
  change (entry_post _ _ _ _ _ _ _) with post. sql_step.
  destruct (wf_zset_cases _ Hsl Ht) as [->|(exp & z & Hz & ->)]; [|specialize (Hlive _ eq_refl)];
    (sql_step; norm_slices; [eapply Hbody; [eauto with sqlresp|done|done|]|..]).
  1: right; by rewrite <- Ha.
  3: left; rewrite <- Ha; by live_entries.
  all: unfold post; done_crash; fold e; rewrite ?Ha; auto.
Qed.

(** A statement that writes one score: a NaN is refused. *)
Lemma wp_write_score F ns T0 k (s : stmt) exp z member x n Q σ :
  quiet ns T0 k (zset_slice exp z) σ → stmt_key s = Some k →
  slice_exec s (zset_slice exp z) =
    (if is_nan x then None else Some (n, zset_slice exp (<[member := x]> z))) →
  is_nan x = false ∨ F →
  (∀ σ', is_nan x = false → quiet ns T0 k (zset_slice exp (<[member := x]> z)) σ' → Q (inr n) σ') →
  (F → ∀ c z' σ', z' = z ∨ is_nan x = false ∧ z' = <[member := x]> z →
     quiet ns T0 k (zset_slice exp z') σ' → Q (inl (ErrDb c)) σ') →
  wp F (exec DB s) Q σ.
Proof.
  intros Hq Hs He Hx Hok Herr. eapply wp_slice_exec_any; [done|done|..].
  - intros n' sl' σ' Hsl Hq'. rewrite He in Hsl. destruct (is_nan x); simplify_eq. by apply Hok.
  - intros c sl' σ' [[-> Hor]|[HF [n' Hsl]]] Hq'.
    + eapply Herr; [|by left|done]. destruct Hor as [?|Hn]; [done|]. rewrite He in Hn.
      destruct (is_nan x); [by destruct Hx|done].
    + rewrite He in Hsl. destruct (is_nan x) eqn:Hnan; simplify_eq. eapply Herr; [done| |done]. by right.
Qed.

Lemma wp_ZIncrBy_rows F ns T0 key db exp z delta member Q σ :
  let x := match z !! member with Some y => f64_add y delta | None => delta end in
  quiet ns T0 (key, db) (zset_slice exp z) σ → is_nan x = false ∨ F →
  (∀ σ', is_nan x = false → quiet ns T0 (key, db) (zset_slice exp (<[member := x]> z)) σ' → Q (inr x) σ') →
  (F → ∀ c z' σ', z' = z ∨ is_nan x = false ∧ z' = <[member := x]> z →
     quiet ns T0 (key, db) (zset_slice exp z') σ' → Q (inl (ErrDb c)) σ') →
  wp F (zincr_rows key db delta member) Q σ.
Proof.
  intros x Hq Hx Hok Herr. unfold x, zincr_rows in *. sql_step. sql_step; simpl; [|sql_step; by eapply Herr; [|left|]].
  destruct (z !! member) as [y|] eqn:Hm; simpl; sql_step.
  all: eapply (wp_write_score _ ns T0 (key, db) _ exp z member); [done|done| |exact Hx|..];
    [simpl; rewrite Hm; by destruct (is_nan _)|intros; sql_step; by apply Hok|intros; by eapply Herr].
Qed.

Lemma meets_ZIncrBy F ns key dbIdx delta member st :
  ready ns st →
  is_nan (incremented delta member (abs (unix_milli ns) (com st) !! (key, dbIdx))) = false ∨ F →
  meets F ns (ZIncrBy key dbIdx delta member)
    (on_entry (key, dbIdx) (expect "zset" (zincr_spec delta member)) (zincr_crash delta member)) st.
Proof.
  intros Hr Hnan. apply meets_on_entry_at; [done|]. intros T0 sl σ Hsl Hq Habs. rewrite <- Habs in Hnan.
  unfold ZIncrBy. set (e := abs_entry (unix_milli ns) sl) in *.
  apply wp_zensured; [by intros; split; [eexists|auto]|by intros; split; [eexists|auto]|done|done|].
  fold e. intros exp z σ' Hz Hq' Ha He. apply (wp_ZIncrBy_rows _ ns T0 _ _ exp z delta member); [done|..].
  - destruct He as [He|(He & -> & _)]; rewrite He in Hnan; exact Hnan.
  - intros σ2 Hx Hq2. done_ok. by destruct He as [->|(-> & -> & ->)].
  - intros HF c z' σ2 [->|[Hx ->]] Hq2; done_crash; (split; [by eexists|]); live_entries.
    + destruct He as [->|(-> & -> & ->)]; auto.
    + right; left. by destruct He as [->|(-> & -> & ->)].
Qed.

(** ZINCRBY adds to a member's score and answers the new score. *)
Theorem ZIncrBy_correct `{Engine E} (w : E) ns key dbIdx delta member :
  ready ns (view w) →
  is_nan (incremented delta member (abs (unix_milli ns) (com (view w)) !! (key, dbIdx))) = false →
  outcome ns w (ZIncrBy key dbIdx delta member)
    (on_entry (key, dbIdx) (expect "zset" (zincr_spec delta member)) (zincr_crash delta member)).
Proof. intros Hr Hn. apply meets_outcome, meets_ZIncrBy; auto. Qed.

(** [ZREM] removes members and counts them; the key stays. *)
Definition zrem_spec (members : list string) (e : option entry) : result Z * option entry :=
  match e with
  | Some (mkEntry (RZset z) exp) =>
      let z' := without members z in
      (inr (Z.of_nat (size z) - Z.of_nat (size z')), Some (mkEntry (RZset z') exp))
  | _ => (inr 0, e)
  end.

Definition zrem_crash (members : list string) (e : option entry) (r : result Z) (e' : option entry) : Prop :=
  db_error r ∧ ∃ done, done `prefix_of` members ∧ e' = (zrem_spec done e).2.

Lemma delete_member_row k m z sl :
  slice_exec (DeleteZsetMember k m) (with_zset z sl) =
    Some (Z.of_nat (size z) - Z.of_nat (size (delete m z)), with_zset (delete m z) sl).
Proof. rewrite size_deleted. simpl. destruct (z !! m) eqn:Hm; [done|]. by rewrite delete_id. Qed.

Lemma nan_free_without ks z : nan_free z → nan_free (without ks z).
Proof. intros Hz m x [Hx _]%map_lookup_filter_Some. by apply (Hz m). Qed.

#[export] Hint Resolve nan_free_without : sqlresp.

Lemma meets_ZRem F ns key dbIdx members st :
  ready ns st →
  meets F ns (ZRem key dbIdx members)
    (on_entry (key, dbIdx) (expect "zset" (zrem_spec members)) (zrem_crash members)) st.
Proof.
  start_entry. unfold ZRem, zAssert.
  apply wp_guarded; [|done|done|].
  { intros e c. split; [by eexists|]. exists []. split; [apply prefix_nil|].
    by destruct e as [[[] exp]|]; simpl; rewrite ?without_nil. }
  clear sl σ Hsl0 Hq0. intros sl σ Hsl Ht Hlive Hq.
  destruct (wf_zset_cases _ Hsl Ht) as [->|(exp & z & Hz & ->)]; [|specialize (Hlive _ eq_refl)].
  - apply (wp_delete_loop _ ns T0 (key, dbIdx) _ (λ z, with_zset z empty_slice) ∅);
      [done|by intros; apply delete_member_row|done|..]; rewrite ?without_empty; intros.
    + by done_ok.
    + rewrite without_empty in *. done_crash. (split; [apply db_error_db|]). exists []. split; [apply prefix_nil|done].
  - apply (wp_delete_loop _ ns T0 (key, dbIdx) _ (λ z, zset_slice exp z) z);
      [done|by intros ? m; apply (delete_member_row _ _ m (zset_slice exp ∅))|done|..]; intros.
    + by done_ok.
    + done_crash. split; [apply db_error_db|]. eexists. split; [done|]. by live_entries.
Qed.

(** ZREM removes members and counts them. *)
Theorem ZRem_correct `{Engine E} (w : E) ns key dbIdx members :
  ready ns (view w) →
  outcome ns w (ZRem key dbIdx members)
    (on_entry (key, dbIdx) (expect "zset" (zrem_spec members)) (zrem_crash members)).
Proof. intros Hr. by apply meets_outcome, meets_ZRem. Qed.

(** [ZADD] writes the scores its options allow and counts the new members. *)
Definition allowed (opts : ZAddOptions) (old : option float64) : bool :=
  match old with Some _ => negb (ZNX opts) | None => negb (ZXX opts) end.

Definition zadd_all (members : gmap string float64) (opts : ZAddOptions) (z : gmap string float64) :=
  filter (λ p, allowed opts (z !! p.1) = true) members ∪ z.

Definition zadd_spec (members : gmap string float64) (opts : ZAddOptions) (e : option entry)
    : result Z * option entry :=
  let z := zset_of e in
  let z' := zadd_all members opts z in
  (inr (Z.of_nat (size z') - Z.of_nat (size z)), Some (mkEntry (RZset z') (exp_of e))).

(** One statement per member, and the errors of the existence checks are
    dropped: on a failing engine some of the members may have been written. *)
Definition zadd_crash (members : gmap string float64) (opts : ZAddOptions) (e : option entry)
    (r : result Z) (e' : option entry) : Prop :=
  (db_error r ∨ ∃ n, r = inr n) ∧
  (e' = e ∨ ∃ z', (∀ m, z' !! m = zset_of e !! m ∨ z' !! m = zadd_all members opts (zset_of e) !! m) ∧
     e' = Some (mkEntry (RZset z') (exp_of e))).

Lemma wp_zadd_member F ns T0 key db opts exp z m score n Q σ :
  let z' := if allowed opts (z !! m) then <[m := score]> z else z in
  quiet ns T0 (key, db) (zset_slice exp z) σ → nan_free z → is_nan score = false ∨ F →
  (∀ n' z'' σ', (z'' = z' ∧ n' = n + (Z.of_nat (size z') - Z.of_nat (size z))) ∨ F ∧ z'' = z →
     nan_free z'' → quiet ns T0 (key, db) (zset_slice exp z'') σ' → Q (inr n') σ') →
  (F → ∀ c z'' σ', z'' = z ∨ z'' = z' → nan_free z'' →
     quiet ns T0 (key, db) (zset_slice exp z'') σ' → Q (inl (ErrDb c)) σ') →
  wp F (zadd_member key db opts n m score) Q σ.
Proof.
  intros z' Hq Hz Hx Hok Herr.
  (* The two statements, when the options allow the write. *)
  assert (∀ s n', stmt_key s = Some (key, db) → allowed opts (z !! m) = true →
    slice_exec s (zset_slice exp z) = (if is_nan score then None else Some (1, zset_slice exp (<[m := score]> z))) →
    n' = n + (Z.of_nat (size (<[m := score]> z)) - Z.of_nat (size z)) →
    wp F (_ ⇐? exec DB s; ok n') Q σ) as Hwrite.
  { intros s n' Hs Ha He ->. unfold z' in *. rewrite Ha in *. sql_step.
    eapply (wp_write_score _ ns T0 (key, db) _ exp z m score); [done..| |].
    - intros σ' Hs' Hq'. sql_step. eapply Hok; [by left|auto with sqlresp|done].
    - intros HF c z'' σ' [->|[Hs' ->]] Hq'; eapply Herr; try exact Hq'; auto with sqlresp. }
  assert (∀ n', n' = n → (allowed opts (z !! m) = false ∨ F) → wp F (ok n') Q σ) as Hskip.
  { intros n' -> Ha. sql_step. apply (Hok _ z); [|done..]. unfold z' in *.
    destruct Ha as [-> | ?]; [left|by right]. split; [done|lia]. }
  unfold zadd_member. sql_step. sql_step; simpl; destruct (z !! m) as [y|] eqn:Hm; simpl;
    unfold allowed in *; destruct (ZNX opts) eqn:Hnx, (ZXX opts) eqn:Hxx; simpl in *.
  all: try (apply Hskip; by auto).
  all: try (eapply Hwrite; [done|done|simpl; rewrite Hm; by destruct (is_nan score)|]).
  all: rewrite ?map_size_insert_None, ?map_size_insert_Some by eauto; try lia.
  all: sql_step; eapply wp_slice_exec_any; [done|done|simpl; rewrite Hm; done|].
  all: intros c sl' σ' [[-> _]|[_ [? Hbad]]] Hq'; [|by simpl in Hbad; rewrite Hm in Hbad].
  all: eapply Herr; [done|by left|done..].
Qed.

Lemma lookup_zadd_all members opts z m :
  zadd_all members opts z !! m =
    match members !! m with
    | Some x => if allowed opts (z !! m) then Some x else z !! m
    | None => z !! m
    end.
Proof.
  unfold zadd_all. rewrite lookup_union, map_lookup_filter. simpl.
  destruct (members !! m) as [x|]; simpl; [|by destruct (z !! m)].
  destruct (allowed opts (z !! m)); simpl; by destruct (z !! m).
Qed.

(** The rows while [ZAdd] has treated the members [done]: on a reliable
    engine those have their new score and the others their old one. *)
Definition zadd_progress (F : Prop) (new z : gmap string float64) (done : list string)
    (n : Z) (z' : gmap string float64) : Prop :=
  (∀ m, m ∉ done → z' !! m = z !! m) ∧ (∀ m, z' !! m = z !! m ∨ z' !! m = new !! m) ∧
  ((∀ m, m ∈ done → z' !! m = new !! m) ∧ n = Z.of_nat (size z') - Z.of_nat (size z) ∨ F).

Lemma zadd_progress_step F members opts z done m score n z' n' z'' :
  let new := zadd_all members opts z in
  let z1 := if allowed opts (z' !! m) then <[m := score]> z' else z' in
  zadd_progress F new z done n z' → m ∉ done → members !! m = Some score →
  z'' = z1 ∧ n' = n + (Z.of_nat (size z1) - Z.of_nat (size z')) ∨ F ∧ (z'' = z' ∨ z'' = z1) →
  zadd_progress F new z (done ++ [m]) n' z''.
Proof.
  intros new z1 (Hold & Hmix & Hdone) Hm Hscore Hstep.
  assert (z1 !! m = new !! m ∧ ∀ m', m' ≠ m → z1 !! m' = z' !! m') as [Hz1 Hne].
  { unfold z1, new. rewrite lookup_zadd_all, Hscore, (Hold m Hm).
    destruct (allowed opts (z !! m)) eqn:Ha.
    - split; [apply lookup_insert_eq|]. intros m' ?. by apply lookup_insert_ne.
    - split; [|done]. by apply Hold. }
  assert (∀ m', z'' !! m' = z' !! m' ∨ m' = m ∧ z'' = z1) as Hz''.
  { intros m'. destruct (decide (m' = m)) as [->|?].
    - destruct Hstep as [[-> _]|[_ [->| ->]]]; auto.
    - left. destruct Hstep as [[-> _]|[_ [->| ->]]]; auto. }
  split; [|split].
  - intros m' Hn. rewrite elem_of_app, list_elem_of_singleton in Hn.
    destruct (Hz'' m') as [->|[-> _]]; [apply Hold; tauto|tauto].
  - intros m'. destruct (Hz'' m') as [->|[-> ->]]; [done|]. right. apply Hz1.
  - destruct Hdone as [[Hd ->]|?]; [|by right]. destruct Hstep as [[-> ->]|[? _]]; [left|by right].
    split; [|lia]. intros m'. rewrite elem_of_app, list_elem_of_singleton.
    intros [Hin| ->]; [|done]. destruct (decide (m' = m)) as [->|?]; [done|]. rewrite Hne by done. by apply Hd.
Qed.

Lemma zadd_progress_done F members opts z done n z' :
  let new := zadd_all members opts z in
  done ≡ₚ (map_to_list members).*1 → zadd_progress F new z done n z' →
  z' = new ∧ n = Z.of_nat (size new) - Z.of_nat (size z) ∨ F.
Proof.
  intros new Hp (Hold & Hmix & [[Hd ->]|?]); [left|by right].
  assert (z' = new) as ->; [|done]. apply map_eq. intros m.
  destruct (decide (m ∈ done)) as [Hin|Hn]; [by apply Hd|]. rewrite (Hold m Hn).
  unfold new. rewrite lookup_zadd_all. destruct (members !! m) as [x|] eqn:Hm; [|done].
  destruct Hn. rewrite Hp. apply list_elem_of_fmap. exists (m, x). split; [done|].
  by apply elem_of_map_to_list.
Qed.

Lemma wp_zadd_loop F ns T0 key db members opts exp z order Q σ :
  let new := zadd_all members opts z in
  let mixed z' := ∀ m, z' !! m = z !! m ∨ z' !! m = new !! m in
  quiet ns T0 (key, db) (zset_slice exp z) σ → nan_free z → nan_free members ∨ F →
  order ≡ₚ (map_to_list members).*1 →
  (∀ n z' σ', z' = new ∧ n = Z.of_nat (size new) - Z.of_nat (size z) ∨ F ∧ mixed z' →
     nan_free z' → quiet ns T0 (key, db) (zset_slice exp z') σ' → Q (inr n) σ') →
  (F → ∀ c z' σ', mixed z' → nan_free z' →
     quiet ns T0 (key, db) (zset_slice exp z') σ' → Q (inl (ErrDb c)) σ') →
  wp F (for_each order 0 (λ added member,
    zadd_member key db opts added member (default f64_zero (members !! member)))) Q σ.
Proof.
  intros new mixed Hq Hz Hx Hp Hok Herr.
  assert (NoDup order) as Hnd by (rewrite Hp; apply NoDup_fst_map_to_list).
  apply (wp_for_each _ (λ done n σ', ∃ z', quiet ns T0 (key, db) (zset_slice exp z') σ' ∧ nan_free z' ∧
    zadd_progress F new z done n z')).
  - exists z. split; [done|]. split; [done|]. split; [done|]. split; [by left|]. left.
    split; [by intros m ?%elem_of_nil|]. lia.
  - intros done m todo n σ1 Horder (z' & Hq1 & Hz1 & Hprog).
    assert (m ∉ done) as Hm.
    { rewrite Horder in Hnd. apply list.NoDup_app in Hnd as (_ & Hd & _). intros Hin.
      apply (Hd m Hin). by left. }
    assert (∃ x, members !! m = Some x) as [x Hmx].
    { assert (m ∈ order) as Hin by (rewrite Horder; set_solver). rewrite Hp in Hin.
      apply list_elem_of_fmap in Hin as ([m' x] & -> & Hin%elem_of_map_to_list). eauto. }
    rewrite Hmx. simpl. eapply wp_zadd_member; [exact Hq1|done| |..].
    + destruct Hx as [Hx|?]; [left; by apply (Hx m)|by right].
    + intros n' z'' σ2 Hstep Hz2 Hq2. exists z''. split; [done|]. split; [done|].
      eapply (zadd_progress_step F members opts z done m x n z'); [done..|].
      destruct Hstep as [?|[? ->]]; [by left|right; auto].
    + intros HF c z'' σ2 Hor Hz2 Hq2. apply (Herr HF c z''); [|done..].
      assert (zadd_progress F new z (done ++ [m]) n z'') as (_ & ? & _); [|done].
      eapply (zadd_progress_step F members opts z done m x n z'); [done..|]. by right.
  - intros n σ1 (z' & Hq1 & Hz1 & Hprog). eapply Hok; [|done..].
    destruct (zadd_progress_done F members opts z order n z' Hp Hprog) as [?|?]; [by left|right].
    split; [done|]. by destruct Hprog as (_ & ? & _).
Qed.

Lemma meets_ZAdd F ns key dbIdx members opts st :
  ready ns st → nan_free members ∨ F →
  meets F ns (ZAdd key dbIdx members opts)
    (on_entry (key, dbIdx) (expect "zset" (zadd_spec members opts)) (zadd_crash members opts)) st.
Proof.
  intros Hr Hnan. apply meets_on_entry; [done|]. intros T0 sl σ Hsl Hq.
  unfold ZAdd. set (e := abs_entry (unix_milli ns) sl).
  apply wp_zensured; [by intros c; split; [left; by eexists|by left]| |done|done|]; fold e.
  { intros -> c. split; [left; by eexists|]. right. exists ∅. split; [by left|done]. }
  intros exp z σ' Hz Hq' Ha He.
  assert (zset_of e = z ∧ exp_of e = exp) as [Hze Hee] by by destruct He as [->|(-> & -> & ->)].
  assert (∀ r z' σ2, nan_free z' → F → (db_error r ∨ ∃ n, r = inr n) →
    (∀ m, z' !! m = z !! m ∨ z' !! m = zadd_all members opts z !! m) →
    quiet ns T0 (key, dbIdx) (zset_slice exp z') σ2 →
    entry_post F ns T0 (key, dbIdx) (expect "zset" (zadd_spec members opts)) (zadd_crash members opts) e r σ2)
    as Hmix.
  { intros r z' σ2 Hz' HF Hres Hmix Hq2. done_crash. split; [done|]. right. exists z'.
    rewrite Hze, Hee. by live_entries. }
  apply wp_range_bind. intros order Hp. eapply wp_zadd_loop; [done..| |].
  - intros n z' σ2 [[-> ->]|[HF Hm]] Hz' Hq2; [|eapply Hmix; eauto].
    done_ok. by destruct He as [->|(-> & -> & ->)].
  - intros HF c z' σ2 Hm Hz' Hq2. eapply Hmix; eauto. left. by eexists.
Qed.

(** C15: ZADD writes the scores its options allow and answers how many members are
    new; the key exists afterwards even if nothing was written. When the engine
    fails, or refuses a NaN among the scores, as SQLite does for a column that
    is NOT NULL, an error may be reported or the count be wrong, and each member
    has its old score or the one it should get. *)
Theorem ZAdd_correct `{Engine E} (w : E) ns key dbIdx members opts :
  ready ns (view w) →
  let '(r, w') := run (ZAdd key dbIdx members opts) w in
  fulfils (faulty E ∨ ¬ nan_free members) ns
    (on_entry (key, dbIdx) (expect "zset" (zadd_spec members opts)) (zadd_crash members opts))
    (view w) r (view w').
Proof.
  intros Hr. apply (wp_run (ZAdd key dbIdx members opts)).
  apply (wp_weaken _ (faulty E ∨ ¬ nan_free members)); [by left|]. apply meets_ZAdd; [done|].
  unfold nan_free. destruct (decide (map_Forall (λ _ x, is_nan x = false) members)); auto.
Qed.

(** ** Witnesses *)

#[local] Existing Instance ascii_only.

Lemma ZScore_correct_witness :
  (run (ZScore "z" 0 "b") sample).1 = inr (Some (f64_of_bin false 3 0)) ∧
  outcome sample_ns sample (ZScore "z" 0 "b") (reads ("z", 0) "zset" (λ e, zset_of e !! "b")).
Proof. split; [by vm_compute|]. apply (ZScore_correct sample sample_ns "z" 0 "b"). apply sample_ready. Defined.

Lemma ZCard_correct_witness :
  (run (ZCard "z" 0) sample).1 = inr 3 ∧
  outcome sample_ns sample (ZCard "z" 0) (reads ("z", 0) "zset" (λ e, Z.of_nat (size (zset_of e)))).
Proof. split; [by vm_compute|]. apply (ZCard_correct sample sample_ns "z" 0). apply sample_ready. Defined.

Lemma ZRank_correct_witness :
  (run (ZRank "z" 0 "b") sample).1 = inr (Some 2) ∧
  outcome sample_ns sample (ZRank "z" 0 "b") (on_entry ("z", 0) (expect "zset" (zrank_spec "b")) zrank_crash).
Proof. split; [by vm_compute|]. apply (ZRank_correct sample sample_ns "z" 0 "b"). apply sample_ready. Defined.

Lemma ZRange_correct_witness :
  (run (ZRange "z" 0 (-2) (-1)) sample).1 = inr ["c"; "b"] ∧
  outcome sample_ns sample (ZRange "z" 0 (-2) (-1)) (reads_zset ("z", 0)
    (λ z r, ∃ ps, listing z ps ∧ r = inr (elements_between ps.*1 (-2) (-1))) zrange_lost).
Proof. split; [by vm_compute|]. apply (ZRange_correct sample sample_ns "z" 0 (-2) (-1)). apply sample_ready. Defined.

Lemma ZRangeByScore_correct_witness :
  (run (ZRangeByScore "z" 0 "(1" "+inf") sample).1 = inr ["c"; "b"] ∧
  outcome sample_ns sample (ZRangeByScore "z" 0 "(1" "+inf") (reads_zset ("z", 0)
    (λ z r, match score_bounds "(1" "+inf" with
            | inl e => r = inl e
            | inr b => ∃ ps, listing (within b z) ps ∧ r = inr ps.*1
            end) never_lost).
Proof. split; [by vm_compute|]. apply (ZRangeByScore_correct sample sample_ns "z" 0 "(1" "+inf"). apply sample_ready. Defined.

Lemma ZCount_correct_witness :
  (run (ZCount "z" 0 "1" "2") sample).1 = inr 2 ∧
  outcome sample_ns sample (ZCount "z" 0 "1" "2") (atomically ("z", 0) (expect "zset" (λ e,
    (zscores_spec "1" "2" (λ z, Z.of_nat (size z)) (zset_of e), e)))).
Proof. split; [by vm_compute|]. apply (ZCount_correct sample sample_ns "z" 0 "1" "2"). apply sample_ready. Defined.

Lemma ZIncrBy_correct_witness :
  (run (ZIncrBy "z" 0 (f64_of_bin false 1 0) "c") sample).1 = inr (f64_of_bin false 3 0) ∧
  outcome sample_ns sample (ZIncrBy "z" 0 (f64_of_bin false 1 0) "c")
    (on_entry ("z", 0) (expect "zset" (zincr_spec (f64_of_bin false 1 0) "c")) (zincr_crash (f64_of_bin false 1 0) "c")).
Proof. split; [by vm_compute|]. apply (ZIncrBy_correct sample sample_ns "z" 0 (f64_of_bin false 1 0) "c"); [apply sample_ready|by vm_compute]. Defined.

Lemma ZRem_correct_witness :
  (run (ZRem "z" 0 ["b"; "q"]) sample).1 = inr 1 ∧
  outcome sample_ns sample (ZRem "z" 0 ["b"; "q"]) (on_entry ("z", 0) (expect "zset" (zrem_spec ["b"; "q"])) (zrem_crash ["b"; "q"])).
Proof. split; [by vm_compute|]. apply (ZRem_correct sample sample_ns "z" 0 ["b"; "q"]). apply sample_ready. Defined.

Lemma ZAdd_correct_witness :
  let members := {["b" := f64_of_bin false 1 0; "d" := f64_of_bin false 1 0]} in
  let opts := mkZAddOptions true false in
  (run (ZAdd "z" 0 members opts) sample).1 = inr 1 ∧
  let '(r, w') := run (ZAdd "z" 0 members opts) sample in
  fulfils (faulty Reliable ∨ ¬ nan_free members) sample_ns
    (on_entry ("z", 0) (expect "zset" (zadd_spec members opts)) (zadd_crash members opts))
    (view sample) r (view w').
Proof.
  intros members opts. split; [by vm_compute|].
  apply (ZAdd_correct sample sample_ns "z" 0 members opts). apply sample_ready.
Defined.
