(* ===== verification/Glob.v ===== *)
(** Key patterns ([globMatch], [matchGlob] and [Keys] of
    [src/internal/store/store.go]): the matcher with its panics, the pattern
    language it implements, and the [KEYS] command's query. *)
From S2P Require Import Prelude GoStd Float Sql Effects Keyspace Sample Store StoreKeys.
Local Open Scope Z_scope.
Local Open Scope go_scope.

Abbreviation bytes_of s := (Stdlib.Strings.String.list_ascii_of_string s) (only parsing).

(** ** The matcher *)

(** How a call ends: [GPanic] is a slice out of range, [GFuel] marks a model
    run cut short, which [globMatch] never is. *)
Inductive gresult := GMatch (b : bool) | GPanic | GFuel.

(** The class of a pattern starting with ["["]: the characters up to ["]"]
    or the end, and what [pat[end+1:]] is, [None] being out of range. *)
Fixpoint scan_class (pat : list ascii) : list ascii * option (list ascii) :=
  match pat with
  | [] => ([], None)
  | c :: pat' =>
      if decide (c = "]"%char) then ([], Some pat')
      else let '(cls, rest) := scan_class pat' in (c :: cls, rest)
  end.

(** [for i := 0; i <= len(str); i++ { if f(str[i:]) { return true } }; return false]. *)
Fixpoint any_suffix (f : list ascii → gresult) (str : list ascii) : gresult :=
  match f str with
  | GMatch false => match str with [] => GMatch false | _ :: str' => any_suffix f str' end
  | r => r
  end.

Fixpoint glob_fuel (fuel : nat) (pat str : list ascii) : gresult :=
  match fuel with
  | O => GFuel
  | S fuel' =>
      match pat with
      | [] => GMatch (match str with [] => true | _ => false end)
      | "*"%char :: pat' =>
          match pat' with
          | [] => GMatch true
          | _ => any_suffix (glob_fuel fuel' pat') str
          end
      | "?"%char :: pat' =>
          match str with [] => GMatch false | _ :: str' => glob_fuel fuel' pat' str' end
      | "["%char :: pat' =>
          let '(cls, rest) := scan_class pat' in
          match str with
          | [] => GMatch false
          | ch :: str' =>
              if decide (ch ∈ cls) then
                match rest with Some pat'' => glob_fuel fuel' pat'' str' | None => GPanic end
              else GMatch false
          end
      | c :: pat' =>
          match str with
          | [] => GMatch false
          | ch :: str' => if decide (c = ch) then glob_fuel fuel' pat' str' else GMatch false
          end
      end
  end.

Definition globMatch (pat str : list ascii) : gresult := glob_fuel (S (length pat)) pat str.

Definition matchGlob (pattern key : string) : gresult :=
  globMatch (Stdlib.Strings.String.list_ascii_of_string pattern)
    (Stdlib.Strings.String.list_ascii_of_string key).

(** [KEYS]: the live keys of the database that match, in the engine's order. *)
Definition Keys (pattern : string) (dbIdx : Z) : prog (result (list string)) :=
  now ⇐ nowMs;
  rows ⇐? query_all DB (SelKeysAlive dbIdx now);
  for_each rows [] (λ acc k,
    match matchGlob pattern k with
    | GMatch b => ok (if b then acc ++ [k] else acc)
    | GPanic | GFuel => err Panic
    end).

(** ** The pattern language *)

Inductive token := TStar | TAny | TClass (cls : list ascii) | TLit (c : ascii).

(** The tokens of a pattern, the last class of an unterminated one having no
    end. *)
Fixpoint parse_fuel (fuel : nat) (pat : list ascii) : option (list token) :=
  match fuel with
  | O => None
  | S fuel' =>
      match pat with
      | [] => Some []
      | "*"%char :: pat' => cons TStar <$> parse_fuel fuel' pat'
      | "?"%char :: pat' => cons TAny <$> parse_fuel fuel' pat'
      | "["%char :: pat' =>
          let '(cls, rest) := scan_class pat' in
          pat'' ← rest; cons (TClass cls) <$> parse_fuel fuel' pat''
      | c :: pat' => cons (TLit c) <$> parse_fuel fuel' pat'
      end
  end.

Definition parse_pattern (pat : list ascii) : option (list token) :=
  parse_fuel (S (length pat)) pat.

Inductive matches : list token → list ascii → Prop :=
  | matches_nil : matches [] []
  | matches_star ts s1 s2 : matches ts s2 → matches (TStar :: ts) (s1 ++ s2)
  | matches_any ts c s : matches ts s → matches (TAny :: ts) (c :: s)
  | matches_class cls ts c s : c ∈ cls → matches ts s → matches (TClass cls :: ts) (c :: s)
  | matches_lit ts c s : matches ts s → matches (TLit c :: ts) (c :: s).

(** ** Correctness of the matcher *)

Lemma glob_fuel_cons n c pat str :
  glob_fuel (S n) (c :: pat) str =
    if decide (c = "*"%char) then
      match pat with [] => GMatch true | _ => any_suffix (glob_fuel n pat) str end
    else if decide (c = "?"%char) then
      match str with [] => GMatch false | _ :: str' => glob_fuel n pat str' end
    else if decide (c = "["%char) then
      match str with
      | [] => GMatch false
      | ch :: str' =>
          if decide (ch ∈ (scan_class pat).1) then
            match (scan_class pat).2 with Some pat'' => glob_fuel n pat'' str' | None => GPanic end
          else GMatch false
      end
    else
      match str with
      | [] => GMatch false
      | ch :: str' => if decide (c = ch) then glob_fuel n pat str' else GMatch false
      end.
Proof.
  repeat case_decide; subst; try done.
  - simpl. by destruct (scan_class pat).
  - destruct c as [[] [] [] [] [] [] [] []]; done.
Qed.

Lemma parse_fuel_cons n c pat :
  parse_fuel (S n) (c :: pat) =
    if decide (c = "*"%char) then cons TStar <$> parse_fuel n pat
    else if decide (c = "?"%char) then cons TAny <$> parse_fuel n pat
    else if decide (c = "["%char) then
      pat'' ← (scan_class pat).2; cons (TClass (scan_class pat).1) <$> parse_fuel n pat''
    else cons (TLit c) <$> parse_fuel n pat.
Proof.
  repeat case_decide; subst; try done.
  - simpl. by destruct (scan_class pat).
  - destruct c as [[] [] [] [] [] [] [] []]; done.
Qed.

Lemma scan_class_shorter pat cls rest :
  scan_class pat = (cls, Some rest) → (length rest < length pat)%nat.
Proof.
  revert cls. induction pat as [|c pat IH]; intros cls; simpl; [done|].
  case_decide; [intros; simplify_eq; lia|]. destruct (scan_class pat) as [cls' rest'].
  intros; simplify_eq. specialize (IH _ eq_refl). lia.
Qed.

Lemma any_suffix_total f str : (∀ s, f s ≠ GFuel) → any_suffix f str ≠ GFuel.
Proof.
  intros Hf. induction str as [|c str IH]; simpl; [pose proof (Hf [])|pose proof (Hf (c :: str))];
    by destruct (f _) as [[]| |].
Qed.

Lemma glob_fuel_total n pat str : (length pat < n)%nat → glob_fuel n pat str ≠ GFuel.
Proof.
  revert pat str. induction n as [|n IH]; intros pat str Hn; [lia|].
  destruct pat as [|c pat]; [done|]. simpl in Hn. rewrite glob_fuel_cons.
  repeat case_decide.
  - destruct pat; [done|]. apply any_suffix_total. intros s. apply IH. lia.
  - destruct str; [done|]. apply IH. lia.
  - destruct str; [done|]. case_decide; [|done].
    destruct (scan_class pat) as [cls [rest|]] eqn:Hs; simpl; [|done].
    apply IH. apply scan_class_shorter in Hs. lia.
  - destruct str; [done|]. case_decide; [|done]. apply IH. lia.
Qed.

(** The fuel of [globMatch] is enough for every pattern and key. *)
Theorem globMatch_terminates pat str : globMatch pat str ≠ GFuel.
Proof. apply glob_fuel_total. lia. Qed.

(** [r] is the verdict of a matcher for [P]. *)
Definition decides (r : gresult) (P : Prop) : Prop := ∃ b, r = GMatch b ∧ (b = true ↔ P).

Lemma decides_false (P : Prop) : ¬ P → decides (GMatch false) P.
Proof. intros HP. by exists false. Qed.

Lemma decides_iff r P Q : (P ↔ Q) → decides r P → decides r Q.
Proof. intros HPQ (b & -> & Hb). exists b. by rewrite Hb, HPQ. Qed.

Lemma any_suffix_decides f str (P : list ascii → Prop) :
  (∀ s, decides (f s) (P s)) →
  decides (any_suffix f str) (∃ s1 s2, str = s1 ++ s2 ∧ P s2).
Proof.
  intros Hf. induction str as [|c str IH]; simpl.
  - destruct (Hf []) as ([] & -> & Hb).
    + exists true. split; [done|]. split; [|done]. intros _. exists [], []. by rewrite <- Hb.
    + exists false. split; [done|]. split; [done|]. intros (s1 & s2 & Heq & HP).
      symmetry in Heq. apply app_eq_nil in Heq as [-> ->]. by apply Hb.
  - destruct (Hf (c :: str)) as ([] & -> & Hb).
    + exists true. split; [done|]. split; [|done]. intros _. exists [], (c :: str). by rewrite <- Hb.
    + eapply decides_iff; [|exact IH]. split.
      * intros (s1 & s2 & -> & HP). by exists (c :: s1), s2.
      * intros (s1 & s2 & Heq & HP). destruct s1 as [|c' s1]; simplify_eq/=.
        -- apply Hb in HP. done.
        -- by exists s1, s2.
Qed.

Lemma glob_fuel_decides n pat str ts :
  (length pat < n)%nat → parse_fuel n pat = Some ts →
  decides (glob_fuel n pat str) (matches ts str).
Proof.
  revert pat str ts. induction n as [|n IH]; intros pat str ts Hn; [lia|].
  destruct pat as [|c pat].
  { intros [= <-]. simpl. destruct str; [exists true|exists false]; (split; [done|]); split; try done.
    - intros _. constructor.
    - by inversion 1. }
  simpl in Hn. rewrite parse_fuel_cons, glob_fuel_cons. repeat case_decide; subst.
  - intros (ts' & Hts & ->)%fmap_Some.
    assert (decides (any_suffix (glob_fuel n pat) str) (matches (TStar :: ts') str)) as Hany.
    { eapply decides_iff; [|apply (any_suffix_decides _ str (matches ts'))].
      - split; [intros (s1 & s2 & -> & Hm); by constructor|]. inversion 1; subst; eauto.
      - intros s. apply IH; [lia|done]. }
    destruct pat as [|c pat]; [|done]. exists true. split; [done|]. split; [|done]. intros _.
    destruct n; [done|]. simpl in Hts. injection Hts as <-. rewrite <- (app_nil_r str). constructor. constructor.
  - intros (ts' & Hts & ->)%fmap_Some. destruct str as [|ch str]; [apply decides_false; by inversion 1|].
    eapply decides_iff; [|apply IH; [lia|done]]. split; [by constructor|by inversion 1].
  - intros (rest & Hrest & (ts' & Hts & ->)%fmap_Some)%bind_Some.
    destruct str as [|ch str]; [apply decides_false; by inversion 1|].
    case_decide as Hin; [|apply decides_false; by inversion 1]. rewrite Hrest.
    eapply decides_iff; [|apply IH; [|done]]; [split; [by constructor|by inversion 1]|].
    destruct (scan_class pat) as [cls o] eqn:Hs; simplify_eq/=. apply scan_class_shorter in Hs. lia.
  - intros (ts' & Hts & ->)%fmap_Some. destruct str as [|ch str]; [apply decides_false; by inversion 1|].
    case_decide as Hc; [subst|apply decides_false; by inversion 1].
    eapply decides_iff; [|apply IH; [lia|done]]. split; [by constructor|by inversion 1].
Qed.

(** C24: A pattern all of whose classes are closed never panics, and matches
    exactly the strings of its language. *)
Theorem globMatch_correct pat str ts :
  parse_pattern pat = Some ts →
  ∃ b, globMatch pat str = GMatch b ∧ (b = true ↔ matches ts str).
Proof. intros Hp. apply glob_fuel_decides; [lia|done]. Qed.

Lemma scan_class_open cls : "]"%char ∉ cls → scan_class cls = (cls, None).
Proof.
  induction cls as [|c cls IH]; intros Hn; simpl; [done|].
  apply not_elem_of_cons in Hn as [Hc Hn]. rewrite decide_False by done. by rewrite IH.
Qed.

(** A class without its closing bracket panics on every string that starts
    with one of its characters. *)
Theorem globMatch_panics cls ch str :
  "]"%char ∉ cls → ch ∈ cls → globMatch ("["%char :: cls) (ch :: str) = GPanic.
Proof.
  intros Hcls Hch. unfold globMatch. rewrite glob_fuel_cons. simpl decide.
  rewrite !decide_False by done. rewrite decide_True by done. rewrite (scan_class_open _ Hcls).
  by rewrite decide_True.
Qed.

(** ** [KEYS] *)

Definition pattern_tokens (pattern : string) : option (list token) :=
  parse_pattern (Stdlib.Strings.String.list_ascii_of_string pattern).

Definition key_matches (ts : list token) (key : string) : Prop :=
  matches ts (Stdlib.Strings.String.list_ascii_of_string key).

Lemma matchGlob_decides pattern key ts :
  pattern_tokens pattern = Some ts → decides (matchGlob pattern key) (key_matches ts key).
Proof. intros Hts. apply glob_fuel_decides; [lia|done]. Qed.

Lemma meets_Keys F ns pattern ts dbIdx st :
  ready ns st → pattern_tokens pattern = Some ts →
  meets F ns (Keys pattern dbIdx) (mkContract
    (λ a r a', a' = a ∧ ∃ l, r = inr l ∧ NoDup l ∧
       ∀ n, n ∈ l ↔ n ∈ names dbIdx a ∧ key_matches ts n)
    (λ a r a', a' = a ∧ db_error r)) st.
Proof.
  intros Hr Hts. unfold meets, Keys.
  eapply wp_nowMs_idle; [done|]. intros σ Hr' Hc. apply wp_err_bind.
  destruct Hr' as [Hwf [Hw Hclk]]. eapply wp_query_all; [by simpl; rewrite Hw|..].
  - intros rows Hp. unfold sql_answer in Hp; simpl in Hp.
    rewrite (keys_alive_names _ _ _ Hwf), Hc in Hp.
    apply (wp_for_each _ (λ done acc σ', σ' = σ ∧ NoDup acc ∧ ∀ n, n ∈ acc ↔ n ∈ done ∧ key_matches ts n)).
    + split; [done|]. split; [constructor|]. intros n. set_solver.
    + intros done k todo acc σ' Hrows (-> & Hnd & Hacc).
      destruct (matchGlob_decides pattern k ts Hts) as (b & -> & Hb). apply wp_ret. split; [done|].
      assert (k ∉ done) as Hk.
      { assert (NoDup rows) as Hndr by (rewrite Hp; apply NoDup_elements). rewrite Hrows in Hndr.
        apply list.NoDup_app in Hndr as (_ & Hd & _). intros Hin. apply (Hd k Hin). by left. }
      destruct b.
      * split.
        -- apply list.NoDup_app. split; [done|]. split; [|apply list.NoDup_singleton].
           intros n Hn ->%list_elem_of_singleton. apply Hacc in Hn as [? _]. done.
        -- intros n. rewrite !elem_of_app, !list_elem_of_singleton, Hacc. naive_solver.
      * split; [done|]. intros n. rewrite elem_of_app, list_elem_of_singleton, Hacc. naive_solver.
    + intros acc σ' (-> & Hnd & Hacc). apply fulfils_same; [done..|]. left. simpl.
      split; [done|]. exists acc. split; [done|]. split; [done|]. intros n. by rewrite Hacc, Hp, elem_of_elements.
  - intros e HF. apply fulfils_same; [done..|]. right. split; [done|]. split; [done|by eexists].
Qed.

(** C36: [KEYS] lists the live keys of the database whose names are in the
    language of the pattern, each once. *)
Theorem Keys_correct `{Engine E} (w : E) ns pattern ts dbIdx :
  ready ns (view w) → pattern_tokens pattern = Some ts →
  outcome ns w (Keys pattern dbIdx) (mkContract
    (λ a r a', a' = a ∧ ∃ l, r = inr l ∧ NoDup l ∧
       ∀ n, n ∈ l ↔ n ∈ names dbIdx a ∧ key_matches ts n)
    (λ a r a', a' = a ∧ db_error r)).
Proof. intros Hr Hts. by apply meets_outcome, meets_Keys. Qed.

(** ** Witnesses *)

Lemma globMatch_correct_witness :
  parse_pattern (bytes_of "a*[xy]?") = Some [TLit "a"; TStar; TClass ["x"%char; "y"%char]; TAny] ∧
  ∃ b, globMatch (bytes_of "a*[xy]?") (bytes_of "abcxz") = GMatch b ∧
    (b = true ↔ matches [TLit "a"; TStar; TClass ["x"%char; "y"%char]; TAny] (bytes_of "abcxz")).
Proof. split; [by vm_compute|]. apply globMatch_correct. by vm_compute. Defined.

Lemma globMatch_panics_witness :
  globMatch ("["%char :: ["a"%char]) ("a"%char :: []) = GPanic.
Proof. apply globMatch_panics; [by vm_compute; set_solver|by left]. Defined.

Lemma Keys_correct_witness :
  (run (Keys "[ls]" 0) sample).1 = inr (if bool_decide ((run (Keys "[ls]" 0) sample).1 = inr ["l"; "s"]) then ["l"; "s"] else ["s"; "l"]) ∧
  outcome sample_ns sample (Keys "[ls]" 0) (mkContract
    (λ a r a', a' = a ∧ ∃ l, r = inr l ∧ NoDup l ∧
       ∀ n, n ∈ l ↔ n ∈ names 0 a ∧ key_matches [TClass ["l"%char; "s"%char]] n)
    (λ a r a', a' = a ∧ db_error r)).
Proof. split; [by vm_compute|]. apply (Keys_correct sample sample_ns "[ls]" [TClass ["l"%char; "s"%char]] 0); [apply sample_ready|by vm_compute]. Defined.
