(* ===== verification/Resp.v ===== *)
(** The RESP2 codec ([src/internal/resp/resp.go]): values, the encoder, the
    decoder with its errors and panics, and the inline command splitter. A
    connection's input is the list of bytes it will deliver before it is
    closed. *)
From S2P Require Import Prelude GoStd.
From S2P Require Export GoText.
Local Open Scope Z_scope.

(** ** Values *)

(** The values the constructors of the package build; a [Value] literal with
    another type byte is built nowhere in the program. *)
Inductive Value :=
  | SimpleString (s : string)
  | Error (s : string)
  | Integer (n : Z)
  | BulkString (s : string)
  | NullBulkString
  | Array (elems : list Value)
  | NullArray.

Definition TypeSimpleString : ascii := "+".
Definition TypeError : ascii := "-".
Definition TypeInteger : ascii := ":".
Definition TypeBulkString : ascii := "$".
Definition TypeArray : ascii := "*".

Definition Type_ (v : Value) : ascii :=
  match v with
  | SimpleString _ => TypeSimpleString
  | Error _ => TypeError
  | Integer _ => TypeInteger
  | BulkString _ | NullBulkString => TypeBulkString
  | Array _ | NullArray => TypeArray
  end.

Definition Str (v : Value) : string :=
  match v with SimpleString s | Error s | BulkString s => s | _ => EmptyString end.

Definition Elems (v : Value) : list Value := match v with Array vs => vs | _ => [] end.

Definition IsNull (v : Value) : bool :=
  match v with NullBulkString | NullArray => true | _ => false end.

Definition IsError (v : Value) : bool := bool_decide (Type_ v = TypeError).

(** Induction through the elements of arrays. *)
Fixpoint Value_rect' (P : Value → Prop)
    (Hs : ∀ s, P (SimpleString s)) (He : ∀ s, P (Error s)) (Hi : ∀ n, P (Integer n))
    (Hb : ∀ s, P (BulkString s)) (Hnb : P NullBulkString)
    (Ha : ∀ vs, Forall P vs → P (Array vs)) (Hna : P NullArray) (v : Value) : P v :=
  match v with
  | SimpleString s => Hs s
  | Error s => He s
  | Integer n => Hi n
  | BulkString s => Hb s
  | NullBulkString => Hnb
  | Array vs => Ha vs ((fix all vs : Forall P vs :=
      match vs with
      | [] => list.Forall_nil_2 P
      | v :: vs' => list.Forall_cons_2 P v vs' (Value_rect' P Hs He Hi Hb Hnb Ha Hna v) (all vs')
      end) vs)
  | NullArray => Hna
  end.

(** ** Encoder *)

(** What [writeValue] writes; the writer's own errors are not modelled. *)
Fixpoint writeValue (v : Value) : list ascii :=
  match v with
  | SimpleString s => TypeSimpleString :: bytes s ++ crlf
  | Error s => TypeError :: bytes s ++ crlf
  | Integer n => TypeInteger :: bytes (format_int n) ++ crlf
  | NullBulkString => bytes "$-1" ++ crlf
  | BulkString s =>
      TypeBulkString :: bytes (format_int (Z.of_nat (String.length s))) ++ crlf ++ bytes s ++ crlf
  | NullArray => bytes "*-1" ++ crlf
  | Array vs =>
      TypeArray :: bytes (format_int (Z.of_nat (length vs))) ++ crlf ++
        (fix write_all vs := match vs with [] => [] | v :: vs' => writeValue v ++ write_all vs' end) vs
  end.

(** ** Decoder *)

(** What the Go runtime can give a goroutine on the machine it runs on; when
    it cannot, it ends the process. *)
Class Runtime := {
  (** A block of so many bytes. *)
  has_memory : Z → bool;
  (** A stack for calls of [readValue] nested so deep. *)
  has_stack : nat → bool;
  has_stack_0 : has_stack 0 = true;
}.

(** How a read ends early: [io.EOF], [io.ErrUnexpectedEOF], an error of the
    package ("resp: ..."), a run-time panic, the end of the process for want of
    memory or stack; [ROut] marks a model run cut short, which [ReadValue]
    never is. *)
Inductive rerror :=
  | EOF
  | UnexpectedEOF
  | MissingCRLF
  | MissingBulkCRLF
  | InvalidInteger (line : string)
  | InvalidBulkLength (line : string)
  | InvalidArrayLength (line : string)
  | RPanic
  | RFatal
  | ROut.

Abbreviation read A := (rerror + A * list ascii)%type.

(** The bytes up to the first ['\n'], without it, and what follows. *)
Fixpoint until_newline (s : list ascii) : option (list ascii * list ascii) :=
  match s with
  | [] => None
  | c :: s' =>
      if decide (c = LF) then Some ([], s')
      else match until_newline s' with
           | Some (line, rest) => Some (c :: line, rest)
           | None => None
           end
  end.

Definition readLine (s : list ascii) : read string :=
  match until_newline s with
  | None => inl EOF
  | Some (line, rest) =>
      match reverse line with
      | c :: rev => if decide (c = CR) then inr (text (reverse rev), rest)
                    else inl MissingCRLF
      | [] => inl MissingCRLF
      end
  end.

(** The most bytes [make] can be asked for on a 64-bit platform, and the size
    of a [Value]. *)
Definition max_alloc : Z := 2 ^ 48.
Definition value_size : Z := 64.

(** The lengths that [make([]T, n)] accepts: it panics on a negative one and
    on one too large for any machine. *)
Definition make_ok (size n : Z) : bool := bool_decide (0 ≤ n ∧ n * size ≤ max_alloc).

Section decoder.
Context `{Runtime}.

(** How [make([]T, n)] fails, if it does. *)
Definition make_error (size n : Z) : option rerror :=
  if make_ok size n then if has_memory (n * size) then None else Some RFatal else Some RPanic.

Definition readBulkString (s : list ascii) : read Value :=
  match readLine s with
  | inl e => inl e
  | inr (line, s) =>
      match parse_int line with
      | None => inl (InvalidBulkLength line)
      | Some n =>
          if decide (n < 0) then inr (NullBulkString, s)
          else
            match make_error 1 (wrap64 (n + 2)) with
            | Some e => inl e
            | None =>
                if decide (Z.of_nat (length s) < n + 2)
                then match s with [] => inl EOF | _ => inl UnexpectedEOF end
                else
                  let buf := take (Z.to_nat n) s in
                  let tail := drop (Z.to_nat n) s in
                  if decide (take 2 tail = crlf) then inr (BulkString (text buf), drop 2 tail)
                  else inl MissingBulkCRLF
            end
      end
  end.

Definition blank (c : ascii) : bool := bool_decide (c = " "%char ∨ c = "009"%char).

(** The loop of [splitInline] at index [i] of [line], [l] being [line[i:]]. *)
Fixpoint split_loop (line l : list ascii) (i start : Z) (parts : list (list ascii))
    : option (list (list ascii)) :=
  match l with
  | [] =>
      if decide (0 ≤ start)
      then p ← go_slice line start (Z.of_nat (length line)); Some (parts ++ [p])
      else Some parts
  | c :: l' =>
      if blank c then
        if decide (0 ≤ start)
        then p ← go_slice line start i; split_loop line l' (i + 1) (-1) (parts ++ [p])
        else split_loop line l' (i + 1) start parts
      else split_loop line l' (i + 1) (if decide (start < 0) then i else start) parts
  end.

(** [None] would be a panic. *)
Definition splitInline (line : string) : option (list string) :=
  match split_loop (bytes line) (bytes line) 0 (-1) [] with
  | Some parts => Some (text <$> parts)
  | None => None
  end.

Definition readInline (s : list ascii) : read Value :=
  match readLine s with
  | inl e => inl e
  | inr (line, s) =>
      match splitInline line with
      | None => inl RPanic
      | Some parts => inr (Array (BulkString <$> parts), s)
      end
  end.

(** [readValue], called [depth] deep, and the loop of [readArray] over the [n]
    elements left. *)
Fixpoint readValue (fuel depth : nat) (s : list ascii) : read Value :=
  match fuel with
  | O => inl ROut
  | S fuel' =>
      if negb (has_stack depth) then inl RFatal
      else
      match s with
      | [] => inl EOF
      | b :: s' =>
          if decide (b = TypeSimpleString) then
            match readLine s' with inl e => inl e | inr (line, s) => inr (SimpleString line, s) end
          else if decide (b = TypeError) then
            match readLine s' with inl e => inl e | inr (line, s) => inr (Error line, s) end
          else if decide (b = TypeInteger) then
            match readLine s' with
            | inl e => inl e
            | inr (line, s) =>
                match parse_int line with
                | None => inl (InvalidInteger line)
                | Some n => inr (Integer n, s)
                end
            end
          else if decide (b = TypeBulkString) then readBulkString s'
          else if decide (b = TypeArray) then
            match readLine s' with
            | inl e => inl e
            | inr (line, s) =>
                match parse_int line with
                | None => inl (InvalidArrayLength line)
                | Some n =>
                    if decide (n < 0) then inr (NullArray, s)
                    else
                      match make_error value_size n with
                      | Some e => inl e
                      | None =>
                          match read_elems fuel' depth n s with
                          | inl e => inl e
                          | inr (vs, s) => inr (Array vs, s)
                          end
                      end
                end
            end
          else readInline s
      end
  end
with read_elems (fuel depth : nat) (n : Z) (s : list ascii) : read (list Value) :=
  match fuel with
  | O => inl ROut
  | S fuel' =>
      if decide (n ≤ 0) then inr ([], s)
      else
        match readValue fuel' (S depth) s with
        | inl e => inl e
        | inr (v, s) =>
            match read_elems fuel' depth (n - 1) s with
            | inl e => inl e
            | inr (vs, s) => inr (v :: vs, s)
            end
        end
  end.

Definition ReadValue (s : list ascii) : read Value := readValue (S (length s)) 0 s.

(** ** Round trip *)

(** A value the protocol can carry, [depth] deep: lines hold no newline,
    integers are int64, lengths can be allocated, and there is stack enough. *)
Fixpoint wire_at (depth : nat) (v : Value) : Prop :=
  has_stack depth = true ∧
  match v with
  | SimpleString s | Error s => LF ∉ bytes s
  | Integer n => int64_ok n
  | BulkString s => make_error 1 (Z.of_nat (String.length s) + 2) = None
  | Array vs =>
      make_error value_size (Z.of_nat (length vs)) = None ∧
      (fix all vs := match vs with [] => True | v :: vs' => wire_at (S depth) v ∧ all vs' end) vs
  | NullBulkString | NullArray => True
  end.

Definition wire_ok : Value → Prop := wire_at 0.

Lemma wire_at_array depth vs :
  wire_at depth (Array vs) ↔
  has_stack depth = true ∧ make_error value_size (Z.of_nat (length vs)) = None ∧ Forall (wire_at (S depth)) vs.
Proof.
  cbn [wire_at]. do 2 apply and_iff_compat_l. induction vs as [|v vs IH]; [by split|].
  rewrite list.Forall_cons. by rewrite IH.
Qed.

Lemma make_error_none size n : make_error size n = None → 0 ≤ n ∧ n * size ≤ max_alloc.
Proof. unfold make_error, make_ok. by case_bool_decide. Qed.

(** The encodings of a list of values, one after the other. *)
Definition write_all (vs : list Value) : list ascii := concat (writeValue <$> vs).

Lemma writeValue_array vs :
  writeValue (Array vs) =
    TypeArray :: bytes (format_int (Z.of_nat (length vs))) ++ crlf ++ write_all vs.
Proof.
  cbn [writeValue]. do 3 f_equal. unfold write_all.
  induction vs as [|v vs IH]; [done|]. rewrite fmap_cons. cbn [concat]. by rewrite IH.
Qed.

Lemma until_newline_line l rest : LF ∉ l → until_newline (l ++ LF :: rest) = Some (l, rest).
Proof.
  induction l as [|c l IH]; intros Hn; simpl; [done|].
  apply not_elem_of_cons in Hn as [Hc Hn]. rewrite decide_False by done. by rewrite IH.
Qed.

Lemma readLine_line s rest : LF ∉ bytes s → readLine (bytes s ++ crlf ++ rest) = inr (s, rest).
Proof.
  intros Hn. unfold readLine. change (crlf ++ rest) with ([CR] ++ LF :: rest).
  rewrite (assoc_L (++)), until_newline_line.
  - rewrite reverse_snoc, decide_True, reverse_involutive, text_bytes by done. done.
  - rewrite elem_of_app, list_elem_of_singleton. by intros [?|?].
Qed.

Lemma digit_not_newline d : 0 ≤ d < 10 → digit_char d ≠ LF.
Proof. intros Hd Heq. pose proof (char_digit_char d Hd) as Hc. by rewrite Heq in Hc. Qed.

Lemma format_digits_no_newline fuel n acc :
  LF ∉ bytes acc → LF ∉ bytes (format_digits fuel n acc).
Proof.
  revert n acc. induction fuel as [|fuel IH]; intros n acc Hacc; [done|]. cbn [format_digits].
  assert (LF ∉ bytes (String (digit_char (n mod 10)) acc)) as Hacc'.
  { cbn. apply not_elem_of_cons. split; [|done]. intros Heq.
    apply (digit_not_newline (n mod 10)); [apply Z.mod_pos_bound; lia|done]. }
  case_decide; [done|by apply IH].
Qed.

Lemma format_int_no_newline n : LF ∉ bytes (format_int n).
Proof.
  unfold format_int, format_uint. case_decide.
  - cbn [bytes Stdlib.Strings.String.list_ascii_of_string]. apply not_elem_of_cons. split; [done|].
    apply format_digits_no_newline. apply not_elem_of_nil.
  - apply format_digits_no_newline. apply not_elem_of_nil.
Qed.

Lemma read_length n rest : 0 ≤ n ≤ max_alloc →
  readLine (bytes (format_int n) ++ crlf ++ rest) = inr (format_int n, rest) ∧
  parse_int (format_int n) = Some n.
Proof.
  intros Hn. split; [apply readLine_line, format_int_no_newline|].
  apply parse_format_int. unfold int64_ok, min_int64, max_int64, max_alloc in *. lia.
Qed.

Lemma readBulkString_written s rest :
  make_error 1 (Z.of_nat (String.length s) + 2) = None →
  readBulkString (bytes (format_int (Z.of_nat (String.length s))) ++ crlf ++ bytes s ++ crlf ++ rest) =
    inr (BulkString s, rest).
Proof.
  intros Hmake. pose proof (make_error_none _ _ Hmake) as [_ Hs]. unfold readBulkString.
  destruct (read_length (Z.of_nat (String.length s)) (bytes s ++ crlf ++ rest)) as [-> ->]; [lia|].
  rewrite decide_False by lia.
  rewrite wrap64_id by (unfold int64_ok, min_int64, max_int64, max_alloc in *; lia).
  rewrite Hmake. rewrite decide_False by (rewrite !length_app, length_bytes; simpl; lia).
  rewrite Nat2Z.id, <- length_bytes, take_app_length, drop_app_length. simpl take.
  by rewrite decide_True, text_bytes.
Qed.

(** [readValue] by the type byte. *)
Definition read_line_as (mk : string → Value) (s : list ascii) : read Value :=
  match readLine s with inl e => inl e | inr (line, s) => inr (mk line, s) end.

Lemma readValue_simple f d s :
  has_stack d = true → readValue (S f) d (TypeSimpleString :: s) = read_line_as SimpleString s.
Proof. intros Hd. cbn [readValue]. by rewrite Hd. Qed.
Lemma readValue_error f d s :
  has_stack d = true → readValue (S f) d (TypeError :: s) = read_line_as Error s.
Proof. intros Hd. cbn [readValue]. by rewrite Hd. Qed.
Lemma readValue_integer f d s :
  has_stack d = true → readValue (S f) d (TypeInteger :: s) =
    match readLine s with
    | inl e => inl e
    | inr (line, s) =>
        match parse_int line with None => inl (InvalidInteger line) | Some n => inr (Integer n, s) end
    end.
Proof. intros Hd. cbn [readValue]. by rewrite Hd. Qed.
Lemma readValue_bulk f d s :
  has_stack d = true → readValue (S f) d (TypeBulkString :: s) = readBulkString s.
Proof. intros Hd. cbn [readValue]. by rewrite Hd. Qed.
Lemma readValue_array f d s :
  has_stack d = true → readValue (S f) d (TypeArray :: s) =
    match readLine s with
    | inl e => inl e
    | inr (line, s) =>
        match parse_int line with
        | None => inl (InvalidArrayLength line)
        | Some n =>
            if decide (n < 0) then inr (NullArray, s)
            else
              match make_error value_size n with
              | Some e => inl e
              | None =>
                  match read_elems f d n s with
                  | inl e => inl e
                  | inr (vs, s) => inr (Array vs, s)
                  end
              end
        end
    end.
Proof. intros Hd. cbn [readValue]. by rewrite Hd. Qed.

(** [v] is read back from its encoding with fuel for its length. *)
Definition reads_back (v : Value) : Prop :=
  ∀ depth, wire_at depth v → ∀ fuel rest, (length (writeValue v) ≤ fuel)%nat →
    readValue fuel depth (writeValue v ++ rest) = inr (v, rest).

Lemma writeValue_nonempty v : (1 ≤ length (writeValue v))%nat.
Proof. destruct v; simpl; lia. Qed.

Lemma read_elems_back depth vs :
  Forall reads_back vs → Forall (wire_at (S depth)) vs → ∀ fuel rest,
    (length (write_all vs) < fuel)%nat →
    read_elems fuel depth (Z.of_nat (length vs)) (write_all vs ++ rest) = inr (vs, rest).
Proof.
  unfold write_all. induction vs as [|v vs IH]; intros Hback Hok fuel rest Hfuel;
    (destruct fuel as [|fuel]; [lia|]).
  - done.
  - apply list.Forall_cons in Hback as [Hv Hback]. apply list.Forall_cons in Hok as [Hokv Hok].
    rewrite fmap_cons in *. cbn [concat length read_elems] in *. rewrite length_app in Hfuel.
    pose proof (writeValue_nonempty v). rewrite decide_False by lia.
    rewrite <- app_assoc, Hv by (done || lia).
    replace (Z.of_nat (S (length vs)) - 1) with (Z.of_nat (length vs)) by lia.
    by rewrite IH by (done || lia).
Qed.

Lemma value_reads_back v : reads_back v.
Proof.
  induction v as [s|s|n|s| |vs IH|] using Value_rect'; intros depth Hok [|fuel] rest Hfuel;
    try (simpl in Hfuel; lia).
  - destruct Hok as [Hd Hok]. cbn [writeValue app]. rewrite <- app_assoc, readValue_simple by done.
    unfold read_line_as. by rewrite readLine_line.
  - destruct Hok as [Hd Hok]. cbn [writeValue app]. rewrite <- app_assoc, readValue_error by done.
    unfold read_line_as. by rewrite readLine_line.
  - destruct Hok as [Hd Hok]. cbn [writeValue app]. rewrite <- app_assoc, readValue_integer by done.
    rewrite readLine_line by apply format_int_no_newline. by rewrite parse_format_int.
  - destruct Hok as [Hd Hok]. cbn [writeValue app]. rewrite <- !app_assoc, readValue_bulk by done.
    by apply readBulkString_written.
  - destruct Hok as [Hd _]. cbn [writeValue]. change (bytes "$-1" ++ crlf) with (TypeBulkString :: bytes "-1" ++ crlf).
    cbn [app]. by rewrite readValue_bulk.
  - apply wire_at_array in Hok as (Hd & Hmake & Hok). pose proof (make_error_none _ _ Hmake) as [_ Hlen].
    rewrite writeValue_array in *.
    cbn [app length] in *. rewrite <- !app_assoc, readValue_array by done.
    destruct (read_length (Z.of_nat (length vs)) (write_all vs ++ rest)) as [-> ->].
    { unfold value_size, max_alloc in *. lia. }
    rewrite !length_app in Hfuel. simpl in Hfuel. rewrite decide_False by lia. rewrite Hmake.
    rewrite read_elems_back by (done || lia). done.
  - destruct Hok as [Hd _]. cbn [writeValue]. change (bytes "*-1" ++ crlf) with (TypeArray :: bytes "-1" ++ crlf).
    cbn [app]. by rewrite readValue_array.
Qed.

(** C10: What [writeValue] writes, [ReadValue] reads back, and no more. *)
Theorem ReadValue_written v rest :
  wire_ok v → ReadValue (writeValue v ++ rest) = inr (v, rest).
Proof. intros Hok. apply value_reads_back; [done|]. rewrite length_app. lia. Qed.

(** What is sent as a line ends at its first newline: the rest is read as
    another value. *)
Theorem newline_cuts s l1 l2 rest :
  bytes s = l1 ++ LF :: l2 → LF ∉ l1 → (∀ l, l1 ≠ l ++ [CR]) →
  ReadValue (writeValue (Error s) ++ rest) = inl MissingCRLF.
Proof.
  intros Hs Hl1 Hcr. unfold ReadValue. cbn [writeValue app]. rewrite readValue_error by apply has_stack_0.
  unfold read_line_as, readLine. rewrite Hs, <- !app_assoc. cbn [app]. rewrite until_newline_line by done.
  destruct (reverse l1) as [|c l] eqn:Hr; [done|]. rewrite decide_False; [done|]. intros ->.
  apply (Hcr (reverse l)). by rewrite <- reverse_cons, <- Hr, reverse_involutive.
Qed.

(** ** Termination *)

Lemma until_newline_length s line rest :
  until_newline s = Some (line, rest) → (length s = length line + S (length rest))%nat.
Proof.
  revert line. induction s as [|c s IH]; intros line; simpl; [done|].
  case_decide; [by intros [= <- <-]|]. destruct (until_newline s) as [[line' rest']|]; [|done].
  intros [= <- <-]. rewrite (IH _ eq_refl). done.
Qed.

Lemma readLine_length s line rest :
  readLine s = inr (line, rest) → (length rest + 2 ≤ length s)%nat.
Proof.
  unfold readLine. destruct (until_newline s) as [[l r]|] eqn:Hu; [|done].
  apply until_newline_length in Hu. destruct (reverse l) as [|c rev] eqn:Hrev; [done|].
  case_decide; [|done]. intros [= _ <-].
  assert (length (reverse l) = S (length rev)) as Hl by by rewrite Hrev.
  rewrite length_reverse in Hl. lia.
Qed.

Lemma readLine_not_out s : readLine s ≠ inl ROut.
Proof. unfold readLine. repeat case_match; done. Qed.

Lemma readBulkString_length s v rest :
  readBulkString s = inr (v, rest) → (length rest ≤ length s)%nat.
Proof.
  unfold readBulkString. destruct (readLine s) as [|[line r]] eqn:Hl; [done|].
  apply readLine_length in Hl. destruct (parse_int line); [|done].
  case_decide; [intros [= _ <-]; lia|]. destruct (make_error _ _); [done|].
  case_decide; [by destruct r|]. case_decide; [|done]. intros [= _ <-].
  rewrite !length_drop. lia.
Qed.

Lemma readInline_length s v rest :
  readInline s = inr (v, rest) → (length rest < length s)%nat.
Proof.
  unfold readInline. destruct (readLine s) as [|[line r]] eqn:Hl; [done|].
  apply readLine_length in Hl. destruct (splitInline line); [|done]. intros [= _ <-]. lia.
Qed.

Lemma read_length_decreases fuel :
  (∀ d s v rest, readValue fuel d s = inr (v, rest) → (length rest < length s)%nat) ∧
  (∀ d n s vs rest, read_elems fuel d n s = inr (vs, rest) → (length rest ≤ length s)%nat).
Proof.
  induction fuel as [|fuel [IHv IHe]]; [done|]. split.
  - intros d [|b s] v rest; cbn [readValue]; (destruct (has_stack d); cbn [negb]; [|done]); [done|]. cbn [length].
    repeat case_decide.
    1-3: destruct (readLine s) as [|[line r]] eqn:Hl; [done|]; apply readLine_length in Hl;
      try (destruct (parse_int line); [|done]); intros [= _ <-]; lia.
    + intros Hr%readBulkString_length. lia.
    + destruct (readLine s) as [|[line r]] eqn:Hl; [done|]. apply readLine_length in Hl.
      destruct (parse_int line); [|done]. case_decide; [intros [= _ <-]; lia|].
      destruct (make_error _ _); [done|].
      destruct (read_elems fuel d z r) as [|[vs r']] eqn:He; [done|]. intros [= _ <-].
      apply IHe in He. lia.
    + intros Hr%readInline_length. done.
  - intros d n s vs rest; cbn [read_elems]. case_decide; [by intros [= _ <-]|].
    destruct (readValue fuel (S d) s) as [|[v r]] eqn:Hv; [done|]. apply IHv in Hv.
    destruct (read_elems fuel d (n - 1) r) as [|[vs' r']] eqn:He; [done|]. intros [= _ <-].
    apply IHe in He. lia.
Qed.

Lemma read_terminates fuel :
  (∀ d s, (length s < fuel)%nat → readValue fuel d s ≠ inl ROut) ∧
  (∀ d n s, (length s + 1 < fuel)%nat → read_elems fuel d n s ≠ inl ROut).
Proof.
  induction fuel as [|fuel [IHv IHe]]; [split; intros; lia|]. split.
  - intros d [|b s] Hs; cbn [readValue]; (destruct (has_stack d); cbn [negb]; [|done]); [done|]. cbn [length] in Hs.
    pose proof (readLine_not_out s) as Hout. repeat case_decide.
    1-3: destruct (readLine s) as [e|[line r]]; [congruence|]; try destruct (parse_int line); done.
    + unfold readBulkString, make_error. destruct (readLine s) as [e|[line r]]; [congruence|].
      repeat case_match; by simplify_eq.
    + destruct (readLine s) as [e|[line r]] eqn:Hl; [congruence|]. apply readLine_length in Hl.
      destruct (parse_int line) as [n|]; [|done]. case_decide; [done|].
      destruct (make_error _ _) as [e|] eqn:He; [unfold make_error in He; repeat case_match; by simplify_eq|]. clear He.
      assert (read_elems fuel d n r ≠ inl ROut) as He by (apply IHe; lia).
      destruct (read_elems fuel d n r) as [e|[vs r']]; congruence.
    + unfold readInline. pose proof (readLine_not_out (b :: s)).
      destruct (readLine (b :: s)) as [e|[line r]]; [congruence|]. repeat case_match; done.
  - intros d n s Hs; cbn [read_elems]. case_decide; [done|].
    assert (readValue fuel (S d) s ≠ inl ROut) as Hv by (apply IHv; lia).
    destruct (readValue fuel (S d) s) as [e|[v r]] eqn:Hr; [congruence|].
    apply read_length_decreases in Hr.
    assert (read_elems fuel d (n - 1) r ≠ inl ROut) as He by (apply IHe; lia).
    destruct (read_elems fuel d (n - 1) r) as [e|[vs r']]; congruence.
Qed.

(** C32: [ReadValue] ends on every input, and a value it returns has used some of
    it up: the connection loop makes progress. *)
Theorem ReadValue_terminates s :
  match ReadValue s with
  | inl e => e ≠ ROut
  | inr (_, rest) => (length rest < length s)%nat
  end.
Proof.
  unfold ReadValue. destruct (readValue (S (length s)) 0 s) as [e|[v rest]] eqn:Hr.
  - intros ->. apply (proj1 (read_terminates (S (length s))) 0%nat s); [lia|done].
  - by apply read_length_decreases in Hr.
Qed.

(** ** Panics *)

(** C40: A length header near the top of int64 asks [make] for more than there is:
    the goroutine panics, before any authentication. *)
Theorem readBulkString_panics n rest :
  max_alloc - 2 < n ≤ max_int64 →
  ReadValue (TypeBulkString :: bytes (format_int n) ++ crlf ++ rest) = inl RPanic.
Proof.
  intros Hn. unfold ReadValue. rewrite readValue_bulk by apply has_stack_0. unfold readBulkString.
  unfold max_alloc, max_int64 in Hn.
  rewrite readLine_line by apply format_int_no_newline.
  rewrite parse_format_int by (unfold int64_ok, min_int64, max_int64; lia).
  rewrite decide_False by lia. unfold make_error, make_ok. rewrite bool_decide_eq_false_2; [done|].
  unfold max_alloc. destruct (decide (n + 2 ≤ 2 ^ 63 - 1)).
  - rewrite wrap64_id by (unfold int64_ok, min_int64, max_int64; lia). lia.
  - rewrite wrap64_over by (unfold max_int64; lia). lia.
Qed.

End decoder.

(** ** Inline commands *)

(** [parts] are the maximal runs of non-blank characters of a line. *)
Inductive splits : list ascii → list (list ascii) → Prop :=
  | splits_nil : splits [] []
  | splits_blank c l parts : blank c = true → splits l parts → splits (c :: l) parts
  | splits_word w l parts :
      w ≠ [] → Forall (λ c, blank c = false) w →
      match l with [] => True | c :: _ => blank c = true end →
      splits l parts → splits (w ++ l) (w :: parts).

Lemma split_loop_splits l line pre w i start parts :
  line = pre ++ w ++ l → i = Z.of_nat (length pre + length w) →
  Forall (λ c, blank c = false) w →
  start = (if decide (w = []) then -1 else Z.of_nat (length pre)) →
  ∃ ps, split_loop line l i start parts = Some (parts ++ ps) ∧ splits (w ++ l) ps.
Proof.
  revert pre w i start parts. induction l as [|c l IH]; intros pre w i start parts -> -> Hw Hstart;
    cbn [split_loop].
  - destruct w as [|x w].
    + rewrite decide_True in Hstart by done. rewrite decide_False by lia. exists []. rewrite app_nil_r. split; [done|constructor].
    + rewrite decide_False in Hstart by done. subst start. rewrite decide_True by lia.
      rewrite !app_nil_r, go_slice_some by (rewrite ?length_app; simpl; lia). simpl.
      exists [x :: w]. split; [|rewrite <- (app_nil_r (x :: w)) at 1; constructor; try done; constructor].
      rewrite Nat2Z.id, drop_app_length, take_ge; [done|]. rewrite length_app. simpl. lia.
  - destruct (blank c) eqn:Hc.
    + destruct w as [|x w].
      * rewrite decide_True in Hstart by done. rewrite decide_False by lia.
        destruct (IH (pre ++ [c]) [] (Z.of_nat (length pre + length (@nil ascii)) + 1) start parts)
          as (ps & Hps & Hsp); [by rewrite <- app_assoc|rewrite length_app; simpl; lia|done|done|].
        rewrite app_nil_l. exists ps. split; [done|]. by constructor.
      * rewrite decide_False in Hstart by done. subst start. rewrite decide_True by lia.
        rewrite go_slice_some by (rewrite ?length_app; simpl; lia). cbn [mbind option_bind].
        rewrite Nat2Z.id, drop_app_length.
        replace (Z.to_nat _) with (length (x :: w)) by (simpl; lia). rewrite take_app_length.
        destruct (IH (pre ++ (x :: w) ++ [c]) [] (Z.of_nat (length pre + length (x :: w)) + 1) (-1) (parts ++ [x :: w]))
          as (ps & Hps & Hsp); [by rewrite <- !app_assoc|rewrite !length_app; simpl; lia|done|done|].
        exists ((x :: w) :: ps). split; [by rewrite Hps, <- app_assoc|].
        constructor; [done|done|done|]. by constructor.
    + destruct (IH pre (w ++ [c]) (Z.of_nat (length pre + length w) + 1)
        (if decide (start < 0) then Z.of_nat (length pre + length w) else start) parts) as (ps & Hps & Hsp).
      * by rewrite <- app_assoc.
      * rewrite length_app. simpl. lia.
      * apply list.Forall_app. split; [done|]. by apply list.Forall_singleton.
      * rewrite (decide_False (P := w ++ [c] = [])) by by destruct w.
        destruct w as [|x w].
        -- rewrite decide_True in Hstart by done. rewrite decide_True by lia. simpl. lia.
        -- rewrite decide_False in Hstart by done. by rewrite decide_False by lia.
      * exists ps. split; [done|]. by rewrite <- app_assoc in Hsp.
Qed.

(** Splitting never slices out of range and yields the words of the line. *)
Theorem splitInline_correct line :
  ∃ parts, splitInline line = Some parts ∧ splits (bytes line) (bytes <$> parts).
Proof.
  unfold splitInline.
  destruct (split_loop_splits (bytes line) (bytes line) [] [] 0 (-1) []) as (ps & -> & Hsp); [done..|].
  eexists. split; [done|]. simpl.
  assert (bytes <$> (text <$> ps) = ps) as ->; [|done].
  rewrite <- list_fmap_compose. rewrite (list_fmap_ext _ id), list_fmap_id; [done|].
  intros i l _. apply bytes_text.
Qed.

(** ** Witnesses *)

(** A machine with memory and stack for all it is asked for. *)
Definition ample : Runtime := {| has_memory _ := true; has_stack _ := true; has_stack_0 := eq_refl |}.

#[local] Existing Instance ample.

Lemma ReadValue_written_witness :
  let v := Array [BulkString "GET"; Integer (-5); Array [NullBulkString; Error "x"]] in
  ReadValue (writeValue v ++ bytes "+rest") = inr (v, bytes "+rest").
Proof. intros v. apply ReadValue_written. unfold v. vm_compute; repeat split; try done; set_solver. Defined.

Lemma ReadValue_terminates_witness :
  match ReadValue (bytes "*2" ++ crlf ++ bytes "$1") with
  | inl e => e ≠ ROut
  | inr (_, rest) => (length rest < 7)%nat
  end.
Proof. exact (ReadValue_terminates (bytes "*2" ++ crlf ++ bytes "$1")). Defined.

Lemma readBulkString_panics_witness :
  ReadValue (TypeBulkString :: bytes (format_int max_int64) ++ crlf ++ []) = inl RPanic.
Proof. apply readBulkString_panics. by vm_compute. Defined.
