(* ===== verification/Commands.v ===== *)
(** A connection's state and the command handlers of the string, key and
    database commands ([src/internal/commands/clientconn.go], [context.go],
    [strings.go]): argument parsing, the call on the store, the reply. *)
From S2P Require Import Prelude GoStd Float Sql Effects Keyspace Sample Store StoreKeys StoreStrings StoreLists StoreHashes StoreSets StoreZsets Glob Resp.
Local Open Scope Z_scope.
Local Open Scope go_scope.

(** ** Connections and handlers *)

(** [ClientConn]. *)
Record ClientConn := mkClientConn {
  cc_DB : Z;
  InMulti : bool;
  QueuedCmds : list (list Value);
  Authenticated : bool;
}.

Definition NewClientConn (authenticated : bool) : ClientConn := mkClientConn 0 false [] authenticated.

Definition with_DB (n : Z) (cc : ClientConn) : ClientConn :=
  mkClientConn n (InMulti cc) (QueuedCmds cc) (Authenticated cc).
Definition with_multi (b : bool) (q : list (list Value)) (cc : ClientConn) : ClientConn :=
  mkClientConn (cc_DB cc) b q (Authenticated cc).
Definition with_auth (b : bool) (cc : ClientConn) : ClientConn :=
  mkClientConn (cc_DB cc) (InMulti cc) (QueuedCmds cc) b.

(** A handler gets whether the context carries a store, and leaves the
    connection it was given, which it may change, next to its reply. Its only
    failure is a panic. *)
Definition Handler : Type := bool → ClientConn → list Value → prog (result (ClientConn * Value)).

(** [storeHandler]: none of them uses the connection. *)
Definition storeHandler : Type := Z → list Value → prog (result Value).

(** ** Replies *)

Definition ErrWrongTypeMsg : string := "WRONGTYPE Operation against a key holding the wrong kind of value".
Definition ErrSyntaxMsg : string := "ERR syntax error".
Definition not_integer_reply : Value := Error "ERR value is not an integer or out of range".
Definition not_float_reply : Value := Error "ERR value is not a valid float".

(** [err.Error()]. *)
Definition error_text (e : error) : string :=
  match e with
  | ErrWrongType => "WRONGTYPE Operation against a key holding the wrong kind of value"
  | ErrNoKey => "ERR no such key"
  | ErrNew msg => msg
  | ErrDb msg => msg
  | Panic => EmptyString
  end.

Definition storeErr (e : error) : Value :=
  if decide (e = ErrWrongType) then Error ErrWrongTypeMsg else Error ("ERR " +:+ error_text e).

Definition boolInt (b : bool) : Value := if b then Integer 1 else Integer 0.

Definition strSlice (vals : list string) : Value := Array (BulkString <$> vals).

Definition argsToStrings (args : list Value) : list string := Str <$> args.

(** [if !found { return NullBulkString() }; return BulkString(val)]. *)
Definition found (v : option string) : Value :=
  match v with Some val => BulkString val | None => NullBulkString end.

(** [v, err := p; if err != nil { return storeErr(err) }; k v]. A panic goes
    on unwinding. *)
Definition on_store {A} (p : prog (result A)) (k : A → prog (result Value)) : prog (result Value) :=
  r ⇐ p;
  match r with
  | inl Panic => err Panic
  | inl e => ok (storeErr e)
  | inr a => k a
  end.

Notation "x ⇐! p ; q" := (on_store p (λ x, q))
  (at level 20, p at level 100, q at level 200, right associativity) : go_scope.

(** [args[i].Str()] and [args[i:]]. *)
Definition arg (args : list Value) (i : Z) : prog (result string) :=
  checked (Str <$> go_index args i).
Definition args_from (args : list Value) (i : Z) : prog (result (list Value)) :=
  checked (go_slice args i (Z.of_nat (length args))).

(** [withStore]. *)
Definition withStore (h : storeHandler) : Handler := λ has_store cc args,
  if has_store then r ⇐? h (cc_DB cc) args; ok (cc, r)
  else ok (cc, Error "ERR store not available").

(** A handler that leaves the connection and needs no store. *)
Definition replying (h : list Value → prog (result Value)) : Handler := λ _ cc args,
  r ⇐? h args; ok (cc, r).

(** ** Strings and keys *)

Definition cmdGet : storeHandler := λ dbIdx args,
  key ⇐? arg args 1;
  v ⇐! Get key dbIdx;
  ok (found v).

Section unicode.
Context `{Unicode}.

(** The option loop of [cmdSet]: a reply that ends it, or the options. *)
Fixpoint set_options (args : list Value) (opts : SetOptions) : prog (Value + SetOptions) :=
  let deadline ms opts := mkSetOptions (Some ms) (NX opts) (XX opts) (KeepTTL opts) in
  match args with
  | [] => Ret (inr opts)
  | a :: rest =>
      let name := ToUpper (Str a) in
      if decide (name = "EX") then
        match rest with
        | [] => Ret (inl (Error ErrSyntaxMsg))
        | b :: rest' =>
            match parse_int (Str b) with
            | Some secs =>
                if decide (secs ≤ 0) then Ret (inl (Error "ERR invalid expire time in 'set' command"))
                else
                  ns ⇐ trigger Now;
                  set_options rest' (deadline (unix_milli (ns + wrap64 (secs * 1000000000))) opts)
            | None => Ret (inl (Error "ERR invalid expire time in 'set' command"))
            end
        end
      else if decide (name = "PX") then
        match rest with
        | [] => Ret (inl (Error ErrSyntaxMsg))
        | b :: rest' =>
            match parse_int (Str b) with
            | Some ms =>
                if decide (ms ≤ 0) then Ret (inl (Error "ERR invalid expire time in 'set' command"))
                else
                  now ⇐ nowMs;
                  set_options rest' (deadline (wrap64 (now + ms)) opts)
            | None => Ret (inl (Error "ERR invalid expire time in 'set' command"))
            end
        end
      else if decide (name = "NX") then
        set_options rest (mkSetOptions (ExpiresAt opts) true (XX opts) (KeepTTL opts))
      else if decide (name = "XX") then
        set_options rest (mkSetOptions (ExpiresAt opts) (NX opts) true (KeepTTL opts))
      else Ret (inl (Error ErrSyntaxMsg))
  end.

Definition no_options : SetOptions := mkSetOptions None false false false.

Definition cmdSet : storeHandler := λ dbIdx args,
  key ⇐? arg args 1;
  val ⇐? arg args 2;
  rest ⇐? args_from args 3;
  o ⇐ set_options rest no_options;
  match o with
  | inl reply => ok reply
  | inr opts =>
      done ⇐! Set_ key dbIdx val opts;
      ok (if done then SimpleString "OK" else NullBulkString)
  end.
End unicode.

Definition cmdDel : storeHandler := λ dbIdx args,
  rest ⇐? args_from args 1;
  n ⇐! Del (argsToStrings rest) dbIdx;
  ok (Integer n).

Definition cmdExists : storeHandler := λ dbIdx args,
  rest ⇐? args_from args 1;
  n ⇐! Exists_ (argsToStrings rest) dbIdx;
  ok (Integer n).

(** [n, err := strconv.ParseInt(args[i].Str(), 10, 64)] and its error reply. *)
Definition int_arg (args : list Value) (i : Z) (k : Z → prog (result Value)) : prog (result Value) :=
  s ⇐? arg args i;
  match parse_int s with Some n => k n | None => ok not_integer_reply end.

Definition cmdExpire : storeHandler := λ dbIdx args,
  int_arg args 2 (λ secs,
    key ⇐? arg args 1;
    done ⇐! Expire key dbIdx secs;
    ok (boolInt done)).

Definition cmdPExpire : storeHandler := λ dbIdx args,
  int_arg args 2 (λ ms,
    key ⇐? arg args 1;
    done ⇐! PExpire key dbIdx ms;
    ok (boolInt done)).

Definition cmdTTL : storeHandler := λ dbIdx args,
  key ⇐? arg args 1;
  n ⇐! TTL key dbIdx;
  ok (Integer n).

Definition cmdPTTL : storeHandler := λ dbIdx args,
  key ⇐? arg args 1;
  n ⇐! PTTL key dbIdx;
  ok (Integer n).

Definition cmdPersist : storeHandler := λ dbIdx args,
  key ⇐? arg args 1;
  done ⇐! Persist key dbIdx;
  ok (boolInt done).

Definition cmdType : storeHandler := λ dbIdx args,
  key ⇐? arg args 1;
  typ ⇐! Store.Type_ key dbIdx;
  ok (SimpleString typ).

Definition cmdRename : storeHandler := λ dbIdx args,
  src ⇐? arg args 1;
  dst ⇐? arg args 2;
  r ⇐ Rename src dst dbIdx;
  match r with
  | inl Panic => err Panic
  | inl ErrNoKey => ok (Error "ERR no such key")
  | inl e => ok (storeErr e)
  | inr _ => ok (SimpleString "OK")
  end.

Definition cmdKeys : storeHandler := λ dbIdx args,
  pattern ⇐? arg args 1;
  keys ⇐! Keys pattern dbIdx;
  ok (Array (BulkString <$> keys)).

Definition cmdDBSize : storeHandler := λ dbIdx args,
  n ⇐! DBSize dbIdx;
  ok (Integer n).

Definition cmdFlushDB : storeHandler := λ dbIdx args,
  _ ⇐! FlushDB dbIdx;
  ok (SimpleString "OK").

Definition cmdFlushAll : storeHandler := λ dbIdx args,
  _ ⇐! FlushAll;
  ok (SimpleString "OK").

Definition cmdRandomKey : storeHandler := λ dbIdx args,
  key ⇐! RandomKey dbIdx;
  ok (if decide (key = "") then NullBulkString else BulkString key).

Definition cmdSelect : Handler := λ _ cc args,
  s ⇐? arg args 1;
  match parse_int s with
  | Some n =>
      if decide (n < 0 ∨ n > 15) then ok (cc, Error "ERR DB index is out of range")
      else ok (with_DB n cc, SimpleString "OK")
  | None => ok (cc, Error "ERR DB index is out of range")
  end.

Definition cmdIncr : storeHandler := λ dbIdx args,
  key ⇐? arg args 1;
  n ⇐! IncrBy key dbIdx 1;
  ok (Integer n).

Definition cmdIncrBy : storeHandler := λ dbIdx args,
  int_arg args 2 (λ delta,
    key ⇐? arg args 1;
    n ⇐! IncrBy key dbIdx delta;
    ok (Integer n)).

Definition cmdDecr : storeHandler := λ dbIdx args,
  key ⇐? arg args 1;
  n ⇐! IncrBy key dbIdx (-1);
  ok (Integer n).

(** [-delta] is an int64 negation. *)
Definition cmdDecrBy : storeHandler := λ dbIdx args,
  int_arg args 2 (λ delta,
    key ⇐? arg args 1;
    n ⇐! IncrBy key dbIdx (wrap64 (- delta));
    ok (Integer n)).

(** Any error of [Get] reads as an absent key. *)
Definition cmdMGet : storeHandler := λ dbIdx args,
  rest ⇐? args_from args 1;
  elems ⇐? for_each rest [] (λ elems a,
    r ⇐ Get (Str a) dbIdx;
    match r with
    | inl Panic => err Panic
    | inl _ => ok (elems ++ [NullBulkString])
    | inr v => ok (elems ++ [found v])
    end);
  ok (Array elems).

(** The loop of [cmdMSet] from [args[i]] on. *)
Fixpoint mset_loop (dbIdx : Z) (args : list Value) : prog (result Value) :=
  match args with
  | [] => ok (SimpleString "OK")
  | [_] => err Panic
  | k :: v :: args' =>
      _ ⇐! Set_ (Str k) dbIdx (Str v) no_options;
      mset_loop dbIdx args'
  end.

Definition cmdMSet : storeHandler := λ dbIdx args,
  if decide (Z.of_nat (length args) mod 2 = 0)
  then ok (Error "ERR wrong number of arguments for 'mset' command")
  else mset_loop dbIdx (drop 1 args).

Definition cmdSetNX : storeHandler := λ dbIdx args,
  key ⇐? arg args 1;
  val ⇐? arg args 2;
  done ⇐! Set_ key dbIdx val (mkSetOptions None true false false);
  ok (boolInt done).

Definition cmdGetSet : storeHandler := λ dbIdx args,
  key ⇐? arg args 1;
  old ⇐! Get key dbIdx;
  val ⇐? arg args 2;
  _ ⇐! Set_ key dbIdx val no_options;
  ok (found old).

Definition cmdAppend : storeHandler := λ dbIdx args,
  key ⇐? arg args 1;
  suffix ⇐? arg args 2;
  n ⇐! Append key dbIdx suffix;
  ok (Integer n).

Definition cmdStrLen : storeHandler := λ dbIdx args,
  key ⇐? arg args 1;
  n ⇐! StrLen key dbIdx;
  ok (Integer n).
