(* ===== verification/CmdData.v ===== *)
(** The handlers of the list, hash, set and sorted-set commands
    ([src/internal/commands/lists.go], [hashes.go], [sets.go], [zsets.go]). *)
From S2P Require Import Prelude GoStd Float Sql Effects Keyspace Sample Store StoreLists StoreHashes StoreSets StoreZsets Resp Commands.
Local Open Scope Z_scope.
Local Open Scope go_scope.

(** ** Lists *)

Definition cmdLPush : storeHandler := λ dbIdx args,
  rest ⇐? args_from args 2;
  key ⇐? arg args 1;
  n ⇐! LPush key dbIdx (argsToStrings rest);
  ok (Integer n).

Definition cmdRPush : storeHandler := λ dbIdx args,
  rest ⇐? args_from args 2;
  key ⇐? arg args 1;
  n ⇐! RPush key dbIdx (argsToStrings rest);
  ok (Integer n).

Definition cmdLPop : storeHandler := λ dbIdx args,
  key ⇐? arg args 1;
  v ⇐! LPop key dbIdx;
  ok (found v).

Definition cmdRPop : storeHandler := λ dbIdx args,
  key ⇐? arg args 1;
  v ⇐! RPop key dbIdx;
  ok (found v).

Definition cmdLLen : storeHandler := λ dbIdx args,
  key ⇐? arg args 1;
  n ⇐! LLen key dbIdx;
  ok (Integer n).

(** Two integers, both parsed before either error is looked at. *)
Definition two_ints (args : list Value) (i j : Z) (k : Z → Z → prog (result Value)) : prog (result Value) :=
  s ⇐? arg args i;
  t ⇐? arg args j;
  match parse_int s, parse_int t with
  | Some m, Some n => k m n
  | _, _ => ok not_integer_reply
  end.

Definition cmdLRange : storeHandler := λ dbIdx args,
  two_ints args 2 3 (λ start stop,
    key ⇐? arg args 1;
    vals ⇐! LRange key dbIdx start stop;
    ok (strSlice vals)).

Definition cmdLIndex : storeHandler := λ dbIdx args,
  int_arg args 2 (λ idx,
    key ⇐? arg args 1;
    v ⇐! LIndex key dbIdx idx;
    ok (found v)).

Definition cmdLSet : storeHandler := λ dbIdx args,
  int_arg args 2 (λ idx,
    key ⇐? arg args 1;
    value ⇐? arg args 3;
    _ ⇐! LSet key dbIdx idx value;
    ok (SimpleString "OK")).

Definition cmdLInsert `{Unicode} : storeHandler := λ dbIdx args,
  where_ ⇐? arg args 2;
  let before := bool_decide (ToUpper where_ = "BEFORE") in
  if negb before && negb (bool_decide (ToUpper where_ = "AFTER")) then ok (Error "ERR syntax error")
  else
    key ⇐? arg args 1;
    pivot ⇐? arg args 3;
    value ⇐? arg args 4;
    n ⇐! LInsert key dbIdx before pivot value;
    ok (Integer n).

Definition cmdLRem : storeHandler := λ dbIdx args,
  int_arg args 2 (λ count,
    key ⇐? arg args 1;
    value ⇐? arg args 3;
    n ⇐! LRem key dbIdx count value;
    ok (Integer n)).

(** ** Hashes *)

(** [for i := 2; i < len(args); i += 2 { pairs[args[i].Str()] = args[i+1].Str() }]. *)
Fixpoint pairs_loop (args : list Value) (pairs : gmap string string) : option (gmap string string) :=
  match args with
  | [] => Some pairs
  | [_] => None
  | f :: v :: args' => pairs_loop args' (<[Str f := Str v]> pairs)
  end.

Definition cmdHSet : storeHandler := λ dbIdx args,
  if decide (Z.rem (Z.of_nat (length args) - 2) 2 ≠ 0)
  then ok (Error "ERR wrong number of arguments for 'hset' command")
  else
    key ⇐? arg args 1;
    pairs ⇐? checked (pairs_loop (drop 2 args) ∅);
    n ⇐! HSet key dbIdx pairs;
    ok (Integer n).

Definition cmdHGet : storeHandler := λ dbIdx args,
  key ⇐? arg args 1;
  field ⇐? arg args 2;
  v ⇐! HGet key dbIdx field;
  ok (found v).

Definition cmdHDel : storeHandler := λ dbIdx args,
  rest ⇐? args_from args 2;
  key ⇐? arg args 1;
  n ⇐! HDel key dbIdx (argsToStrings rest);
  ok (Integer n).

Definition cmdHExists : storeHandler := λ dbIdx args,
  key ⇐? arg args 1;
  field ⇐? arg args 2;
  b ⇐! HExists key dbIdx field;
  ok (boolInt b).

(** The fields in the order of Go's map, each followed by its value. *)
Definition cmdHGetAll : storeHandler := λ dbIdx args,
  key ⇐? arg args 1;
  m ⇐! HGetAll key dbIdx;
  fields ⇐ trigger (RangeMap (map_to_list m).*1);
  ok (Array (fields ≫= λ f, [BulkString f; BulkString (default EmptyString (m !! f))])).

Definition cmdHKeys : storeHandler := λ dbIdx args,
  key ⇐? arg args 1;
  keys ⇐! HKeys key dbIdx;
  ok (strSlice keys).

Definition cmdHVals : storeHandler := λ dbIdx args,
  key ⇐? arg args 1;
  vals ⇐! HVals key dbIdx;
  ok (strSlice vals).

Definition cmdHLen : storeHandler := λ dbIdx args,
  key ⇐? arg args 1;
  n ⇐! HLen key dbIdx;
  ok (Integer n).

Definition cmdHMGet : storeHandler := λ dbIdx args,
  rest ⇐? args_from args 2;
  key ⇐? arg args 1;
  vals ⇐! HMGet key dbIdx (argsToStrings rest);
  ok (Array (found <$> vals)).

Definition cmdHMSet : storeHandler := λ dbIdx args,
  if decide (Z.rem (Z.of_nat (length args) - 2) 2 ≠ 0)
  then ok (Error "ERR wrong number of arguments for 'hmset' command")
  else
    key ⇐? arg args 1;
    pairs ⇐? checked (pairs_loop (drop 2 args) ∅);
    _ ⇐! HSet key dbIdx pairs;
    ok (SimpleString "OK").

(** ** Sets *)

Definition cmdSAdd : storeHandler := λ dbIdx args,
  key ⇐? arg args 1;
  rest ⇐? args_from args 2;
  n ⇐! SAdd key dbIdx (argsToStrings rest);
  ok (Integer n).

Definition cmdSRem : storeHandler := λ dbIdx args,
  key ⇐? arg args 1;
  rest ⇐? args_from args 2;
  n ⇐! SRem key dbIdx (argsToStrings rest);
  ok (Integer n).

Definition cmdSMembers : storeHandler := λ dbIdx args,
  key ⇐? arg args 1;
  members ⇐! SMembers key dbIdx;
  ok (strSlice members).

Definition cmdSIsMember : storeHandler := λ dbIdx args,
  key ⇐? arg args 1;
  member ⇐? arg args 2;
  b ⇐! SIsMember key dbIdx member;
  ok (boolInt b).

Definition cmdSCard : storeHandler := λ dbIdx args,
  key ⇐? arg args 1;
  n ⇐! SCard key dbIdx;
  ok (Integer n).

Definition cmdSUnion : storeHandler := λ dbIdx args,
  rest ⇐? args_from args 1;
  members ⇐! SUnion (argsToStrings rest) dbIdx;
  ok (strSlice members).

Definition cmdSInter : storeHandler := λ dbIdx args,
  rest ⇐? args_from args 1;
  members ⇐! SInter (argsToStrings rest) dbIdx;
  ok (strSlice members).

Definition cmdSDiff : storeHandler := λ dbIdx args,
  rest ⇐? args_from args 1;
  members ⇐! SDiff (argsToStrings rest) dbIdx;
  ok (strSlice members).

(** ** Sorted sets *)

Section zsets.
Context `{Unicode}.

(** The option loop of [cmdZAdd]: the options and the rest of the arguments. *)
Fixpoint zadd_options (args : list Value) (opts : ZAddOptions) : ZAddOptions * list Value :=
  match args with
  | [] => (opts, [])
  | a :: args' =>
      let name := ToUpper (Str a) in
      if decide (name = "NX") then zadd_options args' (mkZAddOptions true (ZXX opts))
      else if decide (name = "XX") then zadd_options args' (mkZAddOptions (ZNX opts) true)
      else (opts, args)
  end.

(** Its second loop: a reply that ends it, or the members; [None] is an index
    out of range. *)
Fixpoint zadd_pairs (args : list Value) (members : gmap string float64)
    : option (Value + gmap string float64) :=
  match args with
  | [] => Some (inr members)
  | s :: args' =>
      match ParseFloat (Str s) with
      | inl _ => Some (inl not_float_reply)
      | inr score =>
          match args' with
          | [] => None
          | m :: args'' => zadd_pairs args'' (<[Str m := score]> members)
          end
      end
  end.

Definition cmdZAdd : storeHandler := λ dbIdx args,
  let '(opts, rest) := zadd_options (drop 2 args) (mkZAddOptions false false) in
  let i := 2 + Z.of_nat (length (drop 2 args) - length rest) in
  if decide (Z.rem (Z.of_nat (length args) - i) 2 ≠ 0) then ok (Error "ERR syntax error")
  else
    parsed ⇐? checked (zadd_pairs rest ∅);
    match parsed with
    | inl reply => ok reply
    | inr members =>
        key ⇐? arg args 1;
        n ⇐! ZAdd key dbIdx members opts;
        ok (Integer n)
    end.

Definition cmdZRem : storeHandler := λ dbIdx args,
  key ⇐? arg args 1;
  rest ⇐? args_from args 2;
  n ⇐! ZRem key dbIdx (argsToStrings rest);
  ok (Integer n).

Definition formatFloat (f : float64) : string := Sprintf_g f.

Definition cmdZScore : storeHandler := λ dbIdx args,
  key ⇐? arg args 1;
  member ⇐? arg args 2;
  score ⇐! ZScore key dbIdx member;
  ok (match score with Some x => BulkString (formatFloat x) | None => NullBulkString end).

Definition cmdZRank : storeHandler := λ dbIdx args,
  key ⇐? arg args 1;
  member ⇐? arg args 2;
  rank ⇐! ZRank key dbIdx member;
  ok (match rank with Some n => Integer n | None => NullBulkString end).

Definition cmdZRange : storeHandler := λ dbIdx args,
  two_ints args 2 3 (λ start stop,
    key ⇐? arg args 1;
    members ⇐! ZRange key dbIdx start stop;
    ok (strSlice members)).

Definition cmdZRangeByScore : storeHandler := λ dbIdx args,
  key ⇐? arg args 1;
  minStr ⇐? arg args 2;
  maxStr ⇐? arg args 3;
  members ⇐! ZRangeByScore key dbIdx minStr maxStr;
  ok (strSlice members).

Definition cmdZCard : storeHandler := λ dbIdx args,
  key ⇐? arg args 1;
  n ⇐! ZCard key dbIdx;
  ok (Integer n).

Definition cmdZCount : storeHandler := λ dbIdx args,
  key ⇐? arg args 1;
  minStr ⇐? arg args 2;
  maxStr ⇐? arg args 3;
  n ⇐! ZCount key dbIdx minStr maxStr;
  ok (Integer n).

Definition cmdZIncrBy : storeHandler := λ dbIdx args,
  s ⇐? arg args 2;
  match ParseFloat s with
  | inl _ => ok not_float_reply
  | inr delta =>
      key ⇐? arg args 1;
      member ⇐? arg args 3;
      x ⇐! ZIncrBy key dbIdx delta member;
      ok (BulkString (formatFloat x))
  end.
End zsets.
