(* ===== verification/Soundness.v ===== *)
(** What every command leaves intact. A program [runs R bad] when from any
    state between two operations, on any engine, it ends in such a state
    again (well-formed tables, no open transaction), relates the keyspaces by
    [R], and panics only if [bad]. *)
From S2P Require Import Prelude GoStd Float Sql Effects Keyspace Sample Store StoreKeys StoreStrings StoreLists StoreHashes StoreSets StoreZsets Glob Resp Commands CmdData.
Local Open Scope Z_scope.
Local Open Scope go_scope.

Create HintDb runs discriminated.

(** The keys of other databases are as they were. *)
Definition confined (db : Z) : relation keyspace := λ a a', ∀ k, k.2 ≠ db → a' !! k = a !! k.

#[export] Instance confined_preorder db : PreOrder (confined db).
Proof. split; [done|]. intros a a' a'' H H' k Hk. by rewrite H', H. Qed.

Definition anything : relation keyspace := λ _ _, True.

#[export] Instance anything_preorder : PreOrder anything.
Proof. by split. Qed.

Section runs.
Context (ns : Z).
Abbreviation now := (unix_milli ns).

Definition runs (R : relation keyspace) (bad : Prop) {A} (p : prog (result A)) : Prop :=
  ∀ σ, ready ns σ → wp True p (λ r σ',
    ready ns σ' ∧ R (abs now (com σ)) (abs now (com σ')) ∧ (r = inl Panic → bad)) σ.

Lemma runs_mono (R R' : relation keyspace) (bad bad' : Prop) {A} (p : prog (result A)) :
  (∀ a a', R a a' → R' a a') → (bad → bad') → runs R bad p → runs R' bad' p.
Proof. intros HR Hbad Hp σ Hr. eapply wp_mono; [|by apply Hp]. naive_solver. Qed.

Section rules.
Context (R : relation keyspace) `{!PreOrder R} (bad : Prop).

Lemma runs_ok {A} (a : A) : runs R bad (ok a).
Proof. intros σ Hr. by apply wp_ret. Qed.

Lemma runs_err {A} e : e ≠ Panic → runs R bad (err (A := A) e).
Proof. intros He σ Hr. apply wp_ret. split; [done|]. split; [done|]. by intros [= ->]. Qed.

Lemma runs_checked {A} (o : option A) : is_Some o → runs R bad (checked o).
Proof. intros [a ->]. apply runs_ok. Qed.

(** Sequencing of arbitrary parts. *)
Lemma runs_seq {A B} (p : prog (result A)) (f : result A → prog (result B)) :
  runs R bad p → (∀ r, (r = inl Panic → bad) → runs R bad (f r)) → runs R bad (bind p f).
Proof.
  intros Hp Hf σ Hr. eapply wp_seq; [by apply Hp|]. intros r σ' (Hr' & HR & Hbad).
  eapply wp_mono; [|by apply Hf]. intros r' σ'' (Hr'' & HR' & Hbad'). split; [done|].
  split; [by etrans|done].
Qed.

Lemma runs_bind {A B} (p : prog (result A)) (f : A → prog (result B)) :
  runs R bad p → (∀ a, runs R bad (f a)) → runs R bad (err_bind p f).
Proof.
  intros Hp Hf. apply runs_seq; [done|]. intros [e|a] He; [|done].
  intros σ Hr. apply wp_ret. split; [done|]. split; [done|]. intros [= ->]. auto.
Qed.

Lemma runs_on_store {A} (p : prog (result A)) (k : A → prog (result Value)) :
  runs R bad p → (∀ a, runs R bad (k a)) → runs R bad (on_store p k).
Proof.
  intros Hp Hk. apply runs_seq; [done|]. intros [e|a] He; [|done].
  destruct e; try apply runs_ok. intros σ Hr. apply wp_ret. naive_solver.
Qed.

Lemma runs_now {A} (f : Z → prog (result A)) : (∀ t, runs R bad (f t)) → runs R bad (bind (trigger Now) f).
Proof.
  intros Hf σ [Hwf [Hw Hc]]. apply wp_now. apply (Hf (clk σ 0) (tick σ)).
  split; [done|]. split; [done|]. intros n. apply Hc.
Qed.

Lemma runs_now_bind {A B} (k : Z → prog B) (f : B → prog (result A)) :
  (∀ t, runs R bad (bind (k t) f)) → runs R bad (bind (bind (trigger Now) k) f).
Proof. apply runs_now. Qed.

Lemma runs_nowMs_bind {A B} (k : Z → prog B) (f : B → prog (result A)) :
  (∀ t, runs R bad (bind (k t) f)) → runs R bad (bind (bind nowMs k) f).
Proof. intros Hf. apply runs_now_bind. intros t. apply Hf. Qed.

Lemma runs_range {A} ks (f : list string → prog (result A)) :
  (∀ ks', runs R bad (f ks')) → runs R bad (bind (trigger (RangeMap ks)) f).
Proof. intros Hf σ Hr. apply wp_range_bind. intros ks' _. by apply Hf. Qed.

Lemma runs_for_each {X A} (l : list X) (acc : A) (body : A → X → prog (result A)) :
  (∀ acc x, x ∈ l → runs R bad (body acc x)) → runs R bad (for_each l acc body).
Proof.
  revert acc. induction l as [|x l IH]; intros acc Hbody; simpl; [apply runs_ok|].
  apply runs_bind; [apply Hbody; by left|]. intros acc'. apply IH. intros acc'' y Hy. apply Hbody. by right.
Qed.
End rules.

(** From contracts. *)
Definition respects (R : relation keyspace) {A} (C : contract A) : Prop :=
  ∀ a r a', c_ok C a r a' ∨ c_crash C a r a' → R a a' ∧ r ≠ inl Panic.

Lemma runs_meets {A} (p : prog (result A)) (R : relation keyspace) (C : State → contract A) :
  (∀ σ, ready ns σ → meets True ns p (C σ) σ) → (∀ σ, respects R (C σ)) → runs R False p.
Proof.
  intros Hp HC σ Hr. eapply wp_mono; [|by apply Hp]. intros r σ' [Hr' Hor].
  split; [done|]. apply (HC σ). tauto.
Qed.
End runs.

Lemma db_error_safe {A} (r : result A) : db_error r → r ≠ inl Panic.
Proof. by intros [e ->]. Qed.

#[export] Hint Resolve db_error_safe : runs.

Lemma respects_on_entry {A} k (f : option entry → result A * option entry) crash :
  (∀ e, (f e).1 ≠ inl Panic) → (∀ e r e', crash e r e' → r ≠ inl Panic) →
  respects (confined k.2) (on_entry k f crash).
Proof.
  intros Hf Hcrash a r a' Hor. simpl in Hor.
  assert (∀ e, confined k.2 a (partial_alter (λ _, e) k a)) as Hput.
  { intros e k' Hk. apply lookup_partial_alter_ne. congruence. }
  destruct Hor as [[-> ->]|(e & Hc & ->)]; eauto.
Qed.

Lemma expect_safe {A} want (g : option entry → result A * option entry) :
  (∀ e, (g e).1 ≠ inl Panic) → ∀ e, (expect want g e).1 ≠ inl Panic.
Proof. intros Hg e. unfold expect. destruct e; [case_decide|]; done. Qed.

Lemma respects_atomically {A} k (f : option entry → result A * option entry) :
  (∀ e, (f e).1 ≠ inl Panic) → respects (confined k.2) (atomically k f).
Proof. intros Hf. apply respects_on_entry; [done|]. intros e r e' [? _]. auto with runs. Qed.

(** An operation on an entry that leaves it. *)
Lemma respects_same {A} k (f : option entry → result A * option entry) crash :
  (∀ e, (f e).1 ≠ inl Panic ∧ (f e).2 = e) → (∀ e r e', crash e r e' → r ≠ inl Panic ∧ e' = e) →
  respects eq (on_entry k f crash).
Proof.
  intros Hf Hcrash a r a' Hor. simpl in Hor.
  assert (a = partial_alter (λ _, a !! k) k a) as Hid by (symmetry; by apply partial_alter_self).
  destruct Hor as [[-> ->]|(e & Hc & ->)].
  - destruct (Hf (a !! k)) as [? ->]. done.
  - by destruct (Hcrash _ _ _ Hc) as [? ->].
Qed.

Lemma respects_reads {A} k want (f : option entry → A) : respects eq (reads k want f).
Proof.
  assert (∀ e, (expect want (λ e, (@inr error A (f e), e)) e).1 ≠ inl Panic ∧
    (expect want (λ e, (@inr error A (f e), e)) e).2 = e) as Hf.
  { intros e. unfold expect. destruct e; [case_decide|]; done. }
  apply respects_same; [done|]. intros e r e' [Hdb He]. split; [auto with runs|].
  destruct He as [?| ->]; [done|apply Hf].
Qed.

Lemma respects_reads_any {A} k (f : option entry → A) : respects eq (reads_any k f).
Proof.
  apply respects_same; [done|]. intros e r e' [Hdb He]. split; [auto with runs|]. by destruct He.
Qed.

Lemma respects_reads_one_of {A} k want (P : option entry → A → Prop) :
  respects eq (reads_one_of k want P).
Proof.
  intros a r a' [[-> Hr]|[-> ?]]; (split; [done|]); [|auto with runs].
  destruct (a !! k); [case_decide|]; naive_solver.
Qed.

Lemma respects_reads_zset {A} k (P : gmap string float64 → result A → Prop) (lost : result A → Prop) :
  (∀ z, ¬ P z (inl Panic)) → ¬ lost (inl Panic) → respects eq (reads_zset k P lost).
Proof.
  intros HP Hlost a r a' [[-> Hr]|[-> Hr]]; (split; [done|]); intros ->.
  - destruct (a !! k); [case_decide|]; naive_solver.
  - destruct Hr as [[? ?]|?]; naive_solver.
Qed.

Lemma respects_answers_set want refused : respects eq (answers_set want refused).
Proof. intros a r a' [[-> Hr]|[-> Hr]]; (split; [done|]); [naive_solver|auto with runs]. Qed.

(** ** Operations *)

(** The result of a specification, or after an engine failure, is no panic. *)
Ltac no_panic :=
  intros; unfold atomic, db_error in *;
  repeat match goal with e : option entry |- _ => destruct e as [[[] ?]|] end;
  simpl in *; repeat case_match; simplify_eq/=; try done; naive_solver.

Section operations.
Context (ns : Z) (key : string) (db : Z).

Ltac reading lem := eapply (runs_meets ns); [intros; by eapply lem|intros; cbv beta];
  first [apply respects_reads|apply respects_reads_any|apply respects_reads_one_of|apply respects_answers_set].

(** An operation on one key. *)
Ltac writing lem := eapply (runs_meets ns); [intros; by eapply lem|intros; cbv beta];
  first [apply (respects_atomically (key, db))|apply (respects_on_entry (key, db))];
  try apply expect_safe.

Lemma runs_Get : runs ns eq False (Get key db).
Proof. reading meets_Get. Qed.
Lemma runs_Set value opts : runs ns (confined db) False (Set_ key db value opts).
Proof. writing meets_Set; unfold set_spec, set_crash; no_panic. Qed.
Lemma runs_Expire n : runs ns (confined db) False (Expire key db n).
Proof. writing meets_Expire; unfold expire_spec; no_panic. Qed.
Lemma runs_PExpire n : runs ns (confined db) False (PExpire key db n).
Proof. writing meets_PExpire; unfold expire_spec; no_panic. Qed.
Lemma runs_TTL : runs ns eq False (TTL key db).
Proof. reading meets_ttl. Qed.
Lemma runs_PTTL : runs ns eq False (PTTL key db).
Proof. reading meets_ttl. Qed.
Lemma runs_Persist : runs ns (confined db) False (Persist key db).
Proof. writing meets_Persist; unfold persist_spec, persist_crash; no_panic. Qed.
Lemma runs_Type : runs ns eq False (Store.Type_ key db).
Proof. reading meets_Type. Qed.
Lemma runs_IncrBy n : runs ns (confined db) False (IncrBy key db n).
Proof. writing meets_IncrBy; unfold incr_spec; no_panic. Qed.
Lemma runs_Append s : runs ns (confined db) False (Append key db s).
Proof. writing meets_Append; unfold append_spec; no_panic. Qed.
Lemma runs_StrLen : runs ns eq False (StrLen key db).
Proof. reading meets_StrLen. Qed.

(** Lists. *)
Lemma list_crash_safe {A} (f : option entry → result A * option entry) e r e' :
  (∀ e, (f e).1 ≠ inl Panic) → list_crash f e r e' → r ≠ inl Panic.
Proof. intros Hf [[? _]|[[->|?] _]]; auto with runs. Qed.

Ltac writing_list lem :=
  eapply (runs_meets ns); [intros; by eapply lem|intros; cbv beta];
  apply (respects_on_entry (key, db)); [|intros ? ? ?; apply list_crash_safe]; apply expect_safe.

Lemma runs_LPush vs : runs ns (confined db) False (LPush key db vs).
Proof. writing_list meets_LPush; unfold push_spec; no_panic. Qed.
Lemma runs_RPush vs : runs ns (confined db) False (RPush key db vs).
Proof. writing_list meets_RPush; unfold push_spec; no_panic. Qed.
Lemma runs_LPop : runs ns (confined db) False (LPop key db).
Proof. writing_list meets_LPop; unfold pop_spec; no_panic. Qed.
Lemma runs_RPop : runs ns (confined db) False (RPop key db).
Proof. writing_list meets_RPop; unfold pop_spec; no_panic. Qed.
Lemma runs_LLen : runs ns eq False (LLen key db).
Proof. reading meets_LLen. Qed.
Lemma runs_LRange i j : runs ns eq False (LRange key db i j).
Proof. reading meets_LRange. Qed.
Lemma runs_LIndex i : runs ns eq False (LIndex key db i).
Proof. reading meets_LIndex. Qed.
Lemma runs_LSet i v : runs ns (confined db) False (LSet key db i v).
Proof. writing_list meets_LSet; unfold set_element_spec; no_panic. Qed.
Lemma runs_LInsert before pivot v : runs ns (confined db) False (LInsert key db before pivot v).
Proof. writing_list meets_LInsert; unfold linsert_spec; no_panic. Qed.
Lemma runs_LRem n v : int64_ok n → runs ns (confined db) False (LRem key db n v).
Proof. intros Hn. writing_list meets_LRem; unfold lrem_spec; no_panic. Qed.

(** Hashes. *)
Lemma runs_HSet pairs : runs ns (confined db) False (HSet key db pairs).
Proof. writing meets_HSet; unfold hset_spec, hset_crash; no_panic. Qed.
Lemma runs_HGet f : runs ns eq False (HGet key db f).
Proof. reading meets_HGet. Qed.
Lemma runs_HDel fs : runs ns (confined db) False (HDel key db fs).
Proof. writing meets_HDel; unfold hdel_spec, hdel_crash; no_panic. Qed.
Lemma runs_HExists f : runs ns eq False (HExists key db f).
Proof. reading meets_HExists. Qed.
Lemma runs_HGetAll : runs ns eq False (HGetAll key db).
Proof. reading meets_HGetAll. Qed.
Lemma runs_HKeys : runs ns eq False (HKeys key db).
Proof. reading meets_HKeys. Qed.
Lemma runs_HVals : runs ns eq False (HVals key db).
Proof. reading meets_HVals. Qed.
Lemma runs_HLen : runs ns eq False (HLen key db).
Proof. reading meets_HLen. Qed.
Lemma runs_HMGet fs : runs ns eq False (HMGet key db fs).
Proof.
  eapply (runs_meets ns); [intros; by eapply meets_HMGet|intros; cbv beta].
  intros a r a' [[-> ->]|[-> ?]]; (split; [done|]); [|auto with runs].
  unfold hmget_spec, read_answer. by repeat case_match.
Qed.

(** Sets. *)
Lemma runs_SAdd ms : runs ns (confined db) False (SAdd key db ms).
Proof. writing meets_SAdd; unfold sadd_spec, sadd_crash; no_panic. Qed.
Lemma runs_SRem ms : runs ns (confined db) False (SRem key db ms).
Proof. writing meets_SRem; unfold srem_spec, srem_crash; no_panic. Qed.
Lemma runs_SMembers : runs ns eq False (SMembers key db).
Proof. reading meets_SMembers. Qed.
Lemma runs_SIsMember m : runs ns eq False (SIsMember key db m).
Proof. reading meets_SIsMember. Qed.
Lemma runs_SCard : runs ns eq False (SCard key db).
Proof. reading meets_SCard. Qed.
Lemma runs_SUnion ks : runs ns eq False (SUnion ks db).
Proof. reading meets_SUnion. Qed.
Lemma runs_SInter ks : runs ns eq False (SInter ks db).
Proof. destruct ks; [unfold SInter; by apply runs_ok, _|]. reading meets_SInter. Qed.
Lemma runs_SDiff ks : runs ns eq False (SDiff ks db).
Proof. destruct ks; [unfold SDiff; by apply runs_ok, _|]. reading meets_SDiff. Qed.

(** Sorted sets. *)
Context `{Unicode}.
Lemma runs_ZAdd ms opts : runs ns (confined db) False (ZAdd key db ms opts).
Proof.
  eapply (runs_meets ns); [intros; by apply meets_ZAdd; auto|intros; cbv beta].
  apply (respects_on_entry (key, db)); [apply expect_safe|]; unfold zadd_spec, zadd_crash; no_panic.
Qed.
Lemma runs_ZRem ms : runs ns (confined db) False (ZRem key db ms).
Proof. writing meets_ZRem; unfold zrem_spec, zrem_crash; no_panic. Qed.
Lemma runs_ZScore m : runs ns eq False (ZScore key db m).
Proof. reading meets_ZScore. Qed.
Lemma runs_ZRank m : runs ns eq False (ZRank key db m).
Proof.
  eapply (runs_meets ns); [intros; by eapply meets_ZRank|intros; cbv beta].
  apply respects_same.
  - intros e. unfold expect, zrank_spec. destruct e; [case_decide|]; done.
  - intros e r e' [-> Hr]. split; [|done]. destruct Hr as [?| ->]; auto with runs.
Qed.
Lemma runs_ZRange i j : runs ns eq False (ZRange key db i j).
Proof.
  eapply (runs_meets ns); [intros; by eapply meets_ZRange|intros; cbv beta].
  by apply respects_reads_zset; [intros z (ps & _ & [=])|].
Qed.

Lemma bounds_safe {A} minStr maxStr (f : gmap string float64 → A) z :
  zscores_spec minStr maxStr f z ≠ inl Panic.
Proof.
  unfold zscores_spec, score_bounds. destruct (parseScore minStr) as [e|] eqn:Hlo.
  { by apply parseScore_safe in Hlo as [? ->]. }
  destruct (parseScore maxStr) as [e|] eqn:Hhi; [|done]. by apply parseScore_safe in Hhi as [? ->].
Qed.

(** A bound that does not parse is reported. *)
Lemma respects_scores {A} minStr maxStr (f : gmap string float64 → A) :
  respects eq (atomically (key, db) (expect "zset" (λ e, (zscores_spec minStr maxStr f (zset_of e), e)))).
Proof.
  assert (∀ e, (expect "zset" (λ e, (zscores_spec minStr maxStr f (zset_of e), e)) e).1 ≠ inl Panic ∧
    (expect "zset" (λ e, (zscores_spec minStr maxStr f (zset_of e), e)) e).2 = e) as Hf.
  { intros e. unfold expect. destruct e; [case_decide|]; (split; [|done]); simpl; done || apply bounds_safe. }
  apply respects_same; [done|]. intros e r e' [Hdb He]. split; [auto with runs|].
  destruct He as [?| ->]; [done|apply Hf].
Qed.

Lemma runs_ZRangeByScore lo hi : runs ns eq False (ZRangeByScore key db lo hi).
Proof.
  eapply (runs_meets ns); [intros; by eapply meets_scores|intros; cbv beta; apply respects_scores].
Qed.
Lemma runs_ZCard : runs ns eq False (ZCard key db).
Proof. reading meets_ZCard. Qed.
Lemma runs_ZCount lo hi : runs ns eq False (ZCount key db lo hi).
Proof.
  eapply (runs_meets ns); [intros; by eapply meets_ZCount|intros; cbv beta; apply respects_scores].
Qed.
Lemma runs_ZIncrBy x m : runs ns (confined db) False (ZIncrBy key db x m).
Proof.
  eapply (runs_meets ns); [intros; by apply meets_ZIncrBy; auto|intros; cbv beta].
  apply (respects_on_entry (key, db)); [apply expect_safe|]; unfold zincr_spec, zincr_crash; no_panic.
Qed.
End operations.

Section whole.
Context (ns : Z) (db : Z).

Lemma respects_maps_to (R : relation keyspace) {A} (f : keyspace → result A * keyspace) :
  PreOrder R → (∀ a, (f a).1 ≠ inl Panic ∧ R a (f a).2) → respects R (maps_to f).
Proof.
  intros HR Hf a r a' [Heq|[Hdb [->| ->]]].
  - simpl in Heq. destruct (Hf a) as [Hr Ha]. by rewrite <- Heq in Hr, Ha.
  - split; [done|auto with runs].
  - split; [apply Hf|auto with runs].
Qed.

Lemma runs_Del keys : runs ns (confined db) False (Del keys db).
Proof.
  eapply (runs_meets ns); [intros; by eapply meets_Del|intros; cbv beta].
  assert (∀ (a : keyspace) ks, confined db a (filter (λ p, named ks db p.1 = false) a)) as Hconf.
  { intros a ks k Hk. rewrite map_lookup_filter. destruct (a !! k) as [e|]; [|done]. simpl.
    rewrite option_guard_True; [done|]. unfold named. simpl. destruct k as [n db']. simpl in *.
    apply bool_decide_eq_false. set_solver. }
  intros a r a' [[-> ->]|[Hdb (ks & _ & ->)]]; auto with runs.
Qed.

Lemma runs_Exists keys : runs ns eq False (Exists_ keys db).
Proof.
  eapply (runs_meets ns); [intros; by eapply meets_Exists|intros; cbv beta].
  intros a r a' [[-> ->]|[-> [?|(n & -> & _)]]]; auto with runs.
Qed.

Lemma runs_Rename src dst : runs ns (confined db) False (Rename src dst db).
Proof.
  eapply (runs_meets ns); [intros; by eapply meets_Rename|intros; cbv beta].
  apply respects_maps_to; [apply _|]. intros a. unfold rename_spec. destruct (a !! _); [|done].
  split; [done|]. intros k Hk. simpl. rewrite lookup_delete_ne by (intros <-; done).
  case_decide; [done|]. rewrite lookup_insert_ne; [done|]. by intros <-.
Qed.

Lemma runs_FlushDB : runs ns (confined db) False (FlushDB db).
Proof.
  eapply (runs_meets ns); [intros; by eapply meets_FlushDB|intros; cbv beta].
  apply respects_maps_to; [apply _|]. intros a. split; [done|]. intros k Hk. simpl.
  apply option_eq. intros e. rewrite map_lookup_filter_Some. naive_solver.
Qed.

Lemma runs_FlushAll : runs ns anything False FlushAll.
Proof.
  eapply (runs_meets ns); [intros; by eapply meets_FlushAll|intros; cbv beta].
  by apply respects_maps_to; [apply _|].
Qed.

Lemma runs_DBSize : runs ns eq False (DBSize db).
Proof.
  eapply (runs_meets ns); [intros; by eapply meets_DBSize|intros; cbv beta].
  by apply respects_maps_to; [apply _|].
Qed.

Lemma runs_RandomKey : runs ns eq False (RandomKey db).
Proof.
  eapply (runs_meets ns); [intros; by eapply meets_RandomKey|intros; cbv beta].
  intros a r a' [[-> Hr]|[Hdb ->]]; (split; [done|]); [naive_solver|auto with runs].
Qed.
(** KEYS may panic, on a pattern with an unterminated class. *)
Lemma runs_Keys pattern : runs ns eq (pattern_tokens pattern = None) (Keys pattern db).
Proof.
  destruct (pattern_tokens pattern) as [ts|] eqn:Hts.
  - apply (runs_mono ns eq eq False); [done..|].
    eapply (runs_meets ns); [intros; by eapply meets_Keys|intros; cbv beta].
    intros a r a' [[-> (l & -> & _)]|[-> ?]]; auto with runs.
  - intros σ Hr. unfold Keys. eapply wp_nowMs_idle; [done|]. intros σ' Hr' Hc. apply wp_err_bind.
    assert (∀ r : result (list string), ready ns σ' ∧ abs (unix_milli ns) (com σ) = abs (unix_milli ns) (com σ') ∧
      (r = inl Panic → @None (list token) = None)) as Hend by by rewrite Hc.
    eapply wp_query_all; [by destruct Hr' as [_ [Hw _]]; simpl; rewrite Hw| |intros; apply Hend].
    intros rows _. apply (wp_for_each _ (λ _ _ σ'', σ'' = σ')); [done| |intros acc σ'' ->; apply Hend].
    intros done k todo acc σ'' _ ->. destruct (matchGlob pattern k); [apply wp_ret; done|apply Hend..].
Qed.
End whole.

(** ** Handlers *)

(** The operations of the store, for the handlers that call them. *)
#[export] Hint Resolve runs_Get runs_Set runs_Expire runs_PExpire runs_TTL runs_PTTL runs_Persist
  runs_Type runs_IncrBy runs_Append runs_StrLen runs_LPush runs_RPush runs_LPop runs_RPop runs_LLen
  runs_LRange runs_LIndex runs_LSet runs_LInsert runs_HSet runs_HGet runs_HDel runs_HExists
  runs_HGetAll runs_HKeys runs_HVals runs_HLen runs_HMGet runs_SAdd runs_SRem runs_SMembers
  runs_SIsMember runs_SCard runs_SUnion runs_SInter runs_SDiff runs_ZAdd runs_ZRem runs_ZScore
  runs_ZRank runs_ZRange runs_ZRangeByScore runs_ZCard runs_ZCount runs_ZIncrBy runs_Del runs_Exists
  runs_Rename runs_FlushDB runs_FlushAll runs_DBSize runs_RandomKey : runs.

Section handlers.
Context `{Unicode} (ns : Z).

(** [h] runs on any arguments of the length its registration asks for. *)
Definition handles (R : Z → relation keyspace) (min : Z) (h : storeHandler) : Prop :=
  ∀ db args, min ≤ Z.of_nat (length args) → runs ns (R db) False (h db args).

Lemma runs_arg R bad `{!PreOrder R} args i : 0 ≤ i < Z.of_nat (length args) → runs ns R bad (arg args i).
Proof.
  intros Hi. apply runs_checked; [done|]. unfold go_index. rewrite decide_True by lia.
  destruct (lookup_lt_is_Some_2 args (Z.to_nat i)) as [v ->]; [lia|]. by eexists.
Qed.

Lemma runs_args_from R bad `{!PreOrder R} args i :
  0 ≤ i ≤ Z.of_nat (length args) → runs ns R bad (args_from args i).
Proof. intros Hi. apply runs_checked; [done|]. rewrite go_slice_some by lia. by eexists. Qed.

Lemma parse_int_range s n : parse_int s = Some n → int64_ok n.
Proof. apply parse_int_ok. Qed.

(** One step through a handler. *)
Ltac handler_step :=
  lazymatch goal with
  | |- runs _ _ _ (err_bind _ _) => apply runs_bind; [apply _| |intros ?]
  | |- runs _ _ _ (on_store _ _) => apply runs_on_store; [apply _| |intros ?]
  | |- runs _ _ _ (ok _) => apply runs_ok; apply _
  | |- runs _ _ _ (arg _ _) => apply runs_arg; [apply _|lia]
  | |- runs _ _ _ (args_from _ _) => apply runs_args_from; [apply _|lia]
  | |- runs _ _ _ (int_arg _ _ _) => unfold int_arg
  | |- runs _ _ _ (two_ints _ _ _ _) => unfold two_ints
  | |- runs _ _ _ (if decide _ then _ else _) => case_decide
  | |- runs _ _ _ (let _ := _ in _) => cbv zeta
  | |- runs _ _ _ (if ?b then _ else _) => destruct b
  | |- runs _ _ _ (match parse_int ?s with _ => _ end) => destruct (parse_int s) eqn:?
  | |- runs _ _ _ (match ParseFloat ?s with _ => _ end) => destruct (ParseFloat s)
  | |- runs _ eq _ _ => by eauto with runs
  | |- _ => first
      [ by eauto with runs
      | apply (runs_mono ns eq _ False False); [by intros ? ? ->|done|by eauto with runs] ]
  end.

Tactic Notation "handler" reference(h) := intros db args Hargs; unfold h; repeat handler_step.

(** An int64 argument bounds [LRem]'s count. *)
Hint Resolve parse_int_range runs_LRem : runs.

Lemma handles_Get : handles (λ _, eq) 2 cmdGet.
Proof. handler cmdGet. Qed.
Lemma handles_Del : handles confined 2 cmdDel.
Proof. handler cmdDel. Qed.
Lemma handles_Exists : handles (λ _, eq) 2 cmdExists.
Proof. handler cmdExists. Qed.
Lemma handles_Expire : handles confined 3 cmdExpire.
Proof. handler cmdExpire. Qed.
Lemma handles_PExpire : handles confined 3 cmdPExpire.
Proof. handler cmdPExpire. Qed.
Lemma handles_TTL : handles (λ _, eq) 2 cmdTTL.
Proof. handler cmdTTL. Qed.
Lemma handles_PTTL : handles (λ _, eq) 2 cmdPTTL.
Proof. handler cmdPTTL. Qed.
Lemma handles_Persist : handles confined 2 cmdPersist.
Proof. handler cmdPersist. Qed.
Lemma handles_Type : handles (λ _, eq) 2 cmdType.
Proof. handler cmdType. Qed.
Lemma handles_DBSize : handles (λ _, eq) 1 cmdDBSize.
Proof. handler cmdDBSize. Qed.
Lemma handles_FlushDB : handles confined 1 cmdFlushDB.
Proof. handler cmdFlushDB. Qed.
Lemma handles_FlushAll : handles (λ _, anything) 1 cmdFlushAll.
Proof. handler cmdFlushAll. Qed.
Lemma handles_RandomKey : handles (λ _, eq) 1 cmdRandomKey.
Proof. handler cmdRandomKey. Qed.
Lemma handles_Incr : handles confined 2 cmdIncr.
Proof. handler cmdIncr. Qed.
Lemma handles_IncrBy : handles confined 3 cmdIncrBy.
Proof. handler cmdIncrBy. Qed.
Lemma handles_Decr : handles confined 2 cmdDecr.
Proof. handler cmdDecr. Qed.
Lemma handles_DecrBy : handles confined 3 cmdDecrBy.
Proof. handler cmdDecrBy. Qed.
Lemma handles_SetNX : handles confined 3 cmdSetNX.
Proof. handler cmdSetNX. Qed.
Lemma handles_GetSet : handles confined 3 cmdGetSet.
Proof. handler cmdGetSet. Qed.
Lemma handles_Append : handles confined 3 cmdAppend.
Proof. handler cmdAppend. Qed.
Lemma handles_StrLen : handles (λ _, eq) 2 cmdStrLen.
Proof. handler cmdStrLen. Qed.
Lemma handles_LPush : handles confined 3 cmdLPush.
Proof. handler cmdLPush. Qed.
Lemma handles_RPush : handles confined 3 cmdRPush.
Proof. handler cmdRPush. Qed.
Lemma handles_LPop : handles confined 2 cmdLPop.
Proof. handler cmdLPop. Qed.
Lemma handles_RPop : handles confined 2 cmdRPop.
Proof. handler cmdRPop. Qed.
Lemma handles_LLen : handles (λ _, eq) 2 cmdLLen.
Proof. handler cmdLLen. Qed.
Lemma handles_LRange : handles (λ _, eq) 4 cmdLRange.
Proof. handler cmdLRange. Qed.
Lemma handles_LIndex : handles (λ _, eq) 3 cmdLIndex.
Proof. handler cmdLIndex. Qed.
Lemma handles_LSet : handles confined 4 cmdLSet.
Proof. handler cmdLSet. Qed.
Lemma handles_LInsert : handles confined 5 cmdLInsert.
Proof. handler cmdLInsert. Qed.
Lemma handles_LRem : handles confined 4 cmdLRem.
Proof. handler cmdLRem. Qed.

(** Arguments in pairs: an even number of them. *)
Definition paired (args : list Value) : Prop := Z.rem (Z.of_nat (length args)) 2 = 0.

Lemma paired_cons_cons x y args : paired (x :: y :: args) → paired args.
Proof. unfold paired. simpl length. Z.to_euclidean_division_equations. lia. Qed.

Lemma paired_drop (args : list Value) (i : nat) :
  (i ≤ length args)%nat → Z.rem (Z.of_nat (length args) - Z.of_nat i) 2 = 0 → paired (drop i args).
Proof. intros Hi Hr. unfold paired. rewrite length_drop. by rewrite Nat2Z.inj_sub. Qed.

(** Induction on the pairs. *)
Lemma paired_ind (P : list Value → Prop) :
  P [] → (∀ x y args, P args → P (x :: y :: args)) → ∀ args, paired args → P args.
Proof.
  intros H0 H2. fix IH 1. intros [|x [|y args]] Hp; [done|by unfold paired in Hp|].
  apply H2, IH. by eapply paired_cons_cons.
Qed.

Lemma pairs_loop_even args : paired args → ∀ pairs, is_Some (pairs_loop args pairs).
Proof.
  revert args. apply (paired_ind (λ args, ∀ pairs, is_Some (pairs_loop args pairs))); [by eexists|].
  intros f v args IH pairs. apply IH.
Qed.

Lemma zadd_pairs_even args : paired args → ∀ members, is_Some (zadd_pairs args members).
Proof.
  revert args. apply (paired_ind (λ args, ∀ members, is_Some (zadd_pairs args members))); [by eexists|].
  intros s m args IH members. simpl.
  destruct (ParseFloat (Str s)); [by eexists|apply IH].
Qed.

Lemma runs_mset_loop db args : paired args → runs ns (confined db) False (mset_loop db args).
Proof.
  revert args. apply (paired_ind (λ args, runs ns (confined db) False (mset_loop db args)));
    [by apply runs_ok, _|]. intros k v args IH. cbn [mset_loop].
  by apply runs_on_store; [apply _|auto with runs|].
Qed.

Ltac even_rest := apply pairs_loop_even, (paired_drop _ 2); [lia|done].

Lemma handles_HSet : handles confined 4 cmdHSet.
Proof. handler cmdHSet. apply runs_checked; [apply _|even_rest]. Qed.
Lemma handles_HMSet : handles confined 4 cmdHMSet.
Proof. handler cmdHMSet. apply runs_checked; [apply _|even_rest]. Qed.
Lemma handles_HGet : handles (λ _, eq) 3 cmdHGet.
Proof. handler cmdHGet. Qed.
Lemma handles_HDel : handles confined 3 cmdHDel.
Proof. handler cmdHDel. Qed.
Lemma handles_HExists : handles (λ _, eq) 3 cmdHExists.
Proof. handler cmdHExists. Qed.
Lemma handles_HGetAll : handles (λ _, eq) 2 cmdHGetAll.
Proof. handler cmdHGetAll. apply runs_range. intros ?. by apply runs_ok, _. Qed.
Lemma handles_HKeys : handles (λ _, eq) 2 cmdHKeys.
Proof. handler cmdHKeys. Qed.
Lemma handles_HVals : handles (λ _, eq) 2 cmdHVals.
Proof. handler cmdHVals. Qed.
Lemma handles_HLen : handles (λ _, eq) 2 cmdHLen.
Proof. handler cmdHLen. Qed.
Lemma handles_HMGet : handles (λ _, eq) 3 cmdHMGet.
Proof. handler cmdHMGet. Qed.
Lemma handles_SAdd : handles confined 3 cmdSAdd.
Proof. handler cmdSAdd. Qed.
Lemma handles_SRem : handles confined 3 cmdSRem.
Proof. handler cmdSRem. Qed.
Lemma handles_SMembers : handles (λ _, eq) 2 cmdSMembers.
Proof. handler cmdSMembers. Qed.
Lemma handles_SIsMember : handles (λ _, eq) 3 cmdSIsMember.
Proof. handler cmdSIsMember. Qed.
Lemma handles_SCard : handles (λ _, eq) 2 cmdSCard.
Proof. handler cmdSCard. Qed.
Lemma handles_SUnion : handles (λ _, eq) 2 cmdSUnion.
Proof. handler cmdSUnion. Qed.
Lemma handles_SInter : handles (λ _, eq) 2 cmdSInter.
Proof. handler cmdSInter. Qed.
Lemma handles_SDiff : handles (λ _, eq) 2 cmdSDiff.
Proof. handler cmdSDiff. Qed.
Lemma handles_ZRem : handles confined 3 cmdZRem.
Proof. handler cmdZRem. Qed.
Lemma handles_ZScore : handles (λ _, eq) 3 cmdZScore.
Proof. handler cmdZScore. Qed.
Lemma handles_ZRank : handles (λ _, eq) 3 cmdZRank.
Proof. handler cmdZRank. Qed.
Lemma handles_ZRange : handles (λ _, eq) 4 cmdZRange.
Proof. handler cmdZRange. Qed.
Lemma handles_ZRangeByScore : handles (λ _, eq) 4 cmdZRangeByScore.
Proof. handler cmdZRangeByScore. Qed.
Lemma handles_ZCard : handles (λ _, eq) 2 cmdZCard.
Proof. handler cmdZCard. Qed.
Lemma handles_ZCount : handles (λ _, eq) 4 cmdZCount.
Proof. handler cmdZCount. Qed.
Lemma handles_ZIncrBy : handles confined 4 cmdZIncrBy.
Proof. handler cmdZIncrBy. Qed.

(** The arguments after the options of ZADD are a suffix. *)
Lemma zadd_options_suffix args opts :
  (zadd_options args opts).2 = drop (length args - length (zadd_options args opts).2) args ∧
  (length (zadd_options args opts).2 ≤ length args)%nat.
Proof.
  revert opts. induction args as [|a args IH]; intros opts; [done|]. simpl zadd_options.
  repeat case_decide; [destruct (IH (mkZAddOptions true (ZXX opts))) as [E L]
    |destruct (IH (mkZAddOptions (ZNX opts) true)) as [E L]|simpl; by rewrite Nat.sub_diag];
    (split; [|simpl; lia]); simpl length;
    by rewrite Nat.sub_succ_l by done; simpl.
Qed.

Lemma handles_ZAdd : handles confined 4 cmdZAdd.
Proof.
  intros db args Hargs. unfold cmdZAdd.
  destruct (zadd_options_suffix (drop 2 args) (mkZAddOptions false false)) as [_ Hl].
  destruct (zadd_options (drop 2 args) _) as [opts rest]. simpl in Hl.
  repeat handler_step.
  - apply runs_checked; [apply _|]. apply zadd_pairs_even. unfold paired. rewrite length_drop in *.
    match goal with H : Z.rem _ _ = 0 |- _ => rewrite <- H end. f_equal. lia.
  - destruct a; repeat handler_step.
Qed.

Lemma handles_Rename : handles confined 3 cmdRename.
Proof.
  handler cmdRename. apply runs_seq; [apply _|auto with runs|]. intros [[]|[]] Hr; try by apply runs_ok, _.
  by destruct (Hr eq_refl).
Qed.

(** Only KEYS can panic. *)
Lemma runs_cmdKeys db args : 2 ≤ Z.of_nat (length args) →
  runs ns eq (∃ pattern, Str <$> args !! 1%nat = Some pattern ∧ pattern_tokens pattern = None) (cmdKeys db args).
Proof.
  intros Hargs. unfold cmdKeys. destruct (lookup_lt_is_Some_2 args 1) as [v Hv]; [lia|].
  unfold arg, go_index. rewrite decide_True by lia. change (Z.to_nat 1) with 1%nat. rewrite Hv.
  change (err_bind _ ?k) with (k (Str v)). apply runs_on_store; [apply _| |intros ?; by apply runs_ok, _].
  eapply runs_mono; [done| |by apply runs_Keys]. intros Hbad. by eexists.
Qed.

Lemma handles_MGet : handles (λ _, eq) 2 cmdMGet.
Proof.
  handler cmdMGet. apply runs_for_each; [apply _|]. intros acc x _. apply runs_seq; [apply _|auto with runs|].
  intros [[]|] Hr; try by apply runs_ok, _. by destruct (Hr eq_refl).
Qed.

Lemma handles_MSet : handles confined 3 cmdMSet.
Proof.
  handler cmdMSet. apply runs_mset_loop. apply (paired_drop _ 1); [lia|].
  Z.to_euclidean_division_equations. lia.
Qed.

(** The options of SET are read without touching the tables. *)
Lemma runs_set_options {A} R bad `{!PreOrder R} (f : Value + SetOptions → prog (result A)) args opts :
  (∀ o, runs ns R bad (f o)) → runs ns R bad (bind (set_options args opts) f).
Proof.
  intros Hf. revert opts. revert args. fix IH 1. intros [|a args] opts; [apply Hf|]. cbn [set_options].
  repeat case_decide; try apply IH; try apply Hf.
  - destruct args as [|b args]; [apply Hf|]. destruct (parse_int (Str b)); [|apply Hf].
    case_decide; [apply Hf|]. apply runs_now_bind. intros t. apply IH.
  - destruct args as [|b args]; [apply Hf|]. destruct (parse_int (Str b)); [|apply Hf].
    case_decide; [apply Hf|]. apply runs_nowMs_bind. intros t. apply IH.
Qed.

Lemma handles_Set : handles confined 3 cmdSet.
Proof.
  handler cmdSet. apply runs_set_options; [apply _|]. intros [r|o]; repeat handler_step.
Qed.
End handlers.
