(* ===== verification/Dispatch.v ===== *)
(** The command registry, MULTI/EXEC and the commands without a key
    ([src/internal/commands/registry.go], [multi.go], [server.go],
    [info.go]). *)
From S2P Require Import Prelude GoStd Float Sql Effects Keyspace Sample Store StoreKeys StoreStrings StoreLists StoreHashes StoreSets StoreZsets Glob Resp Commands CmdData.
Local Open Scope Z_scope.
Local Open Scope go_scope.

(** ** Commands *)

(** What COMMAND reads of a registered command. *)
Record CmdInfo := mkCmdInfo { ci_Name : string; ci_MinArgs : Z; ci_MaxArgs : Z }.

(** The parts of the package a handler may call back: the registry and
    [Dispatch]. *)
Record Package := mkPackage {
  pkg_registry : gmap string CmdInfo;
  pkg_Dispatch : Handler;
}.

(** [Cmd]. *)
Record Cmd := mkCmd {
  Name : string;
  MinArgs : Z;
  MaxArgs : Z;
  Exec : Package → Handler;
}.

Definition info_of (c : Cmd) : CmdInfo := mkCmdInfo (Name c) (MinArgs c) (MaxArgs c).

Section dispatch.
Context `{Unicode}.
(** [startTime], the clock when the process started, in nanoseconds. *)
Context (startTime : Z).

(** ** Commands without a key *)

Definition cmdPing : list Value → prog (result Value) := λ args,
  if decide (length args = 2%nat) then s ⇐? arg args 1; ok (BulkString s)
  else ok (SimpleString "PONG").

Definition cmdEcho : list Value → prog (result Value) := λ args,
  s ⇐? arg args 1;
  ok (BulkString s).

Definition cmdQuit : list Value → prog (result Value) := λ args, ok (SimpleString "OK").

(** [sort.Slice(cmds, ...)] by name. *)
Definition name_le : relation CmdInfo := λ c d, String.le (ci_Name c) (ci_Name d).

#[local] Instance name_le_dec : RelDecision name_le.
Proof. intros c d. unfold name_le. apply _. Defined.

(** [All]: the registered commands in the order of Go's map. *)
Definition All (pkg : Package) : prog (list CmdInfo) :=
  names ⇐ trigger (RangeMap (map_to_list (pkg_registry pkg)).*1);
  Ret (omap (λ n, pkg_registry pkg !! n) names).

Definition command_entry (c : CmdInfo) : Value :=
  let arity := if decide (ci_MaxArgs c = -1) then - ci_MinArgs c else ci_MinArgs c in
  Array [BulkString (ToLower (ci_Name c)); Integer arity; Array []; Integer 0; Integer 0; Integer 0].

Definition cmdCommand (pkg : Package) : list Value → prog (result Value) := λ args,
  if decide (2 ≤ Z.of_nat (length args) ∧ ToUpper (from_option Str EmptyString (args !! 1%nat)) = "COUNT")
  then ok (Integer (Z.of_nat (size (pkg_registry pkg))))
  else
    cmds ⇐ All pkg;
    ok (Array (command_entry <$> merge_sort name_le cmds)).

Definition crlf_text : string := text crlf.
Definition line (s : string) : string := s +:+ crlf_text.

(** [int(time.Since(startTime).Seconds())]: whole seconds and the fraction
    are added as floats. *)
Definition f64_of_int (n : Z) : float64 := f64_of_bin (bool_decide (n < 0)) (Z.abs n) 0.
Definition f64_div (x y : float64) : float64 := SFdiv 53 1024 x y.

Definition f64_trunc (x : float64) : Z :=
  match x with
  | S754_finite neg m e =>
      let n := if decide (0 ≤ e) then Zpos m * 2 ^ e else Zpos m / 2 ^ (- e) in
      if neg then - n else n
  | _ => 0
  end.

Definition uptime (now : Z) : Z :=
  let d := wrap64 (now - startTime) in
  f64_trunc (f64_add (f64_of_int (Z.quot d 1000000000))
    (f64_div (f64_of_int (Z.rem d 1000000000)) (f64_of_int 1000000000))).

(** The keyspace section; a database that cannot be counted is skipped. *)
Definition info_keyspace : prog (result string) :=
  for_each (seqZ 0 16) EmptyString (λ acc db,
    r ⇐ DBSize db;
    match r with
    | inl Panic => err Panic
    | inl _ => ok acc
    | inr n =>
        ok (if decide (n > 0)
            then acc +:+ line ("db" +:+ format_int db +:+ ":keys=" +:+ format_int n +:+ ",expires=0")
            else acc)
    end).

Definition cmdInfo (has_store : bool) : list Value → prog (result Value) := λ args,
  let section := if decide (2 ≤ Z.of_nat (length args))
    then ToLower (from_option Str EmptyString (args !! 1%nat)) else EmptyString in
  let wanted s := bool_decide (section = "" ∨ section = s) in
  server ⇐ (if wanted "server" then
    now ⇐ trigger Now;
    Ret (line "# Server" +:+ line "redis_version:7.0.0-sql-resp" +:+
      line ("uptime_in_seconds:" +:+ format_int (uptime now)) +:+ line "tcp_port:6379" +:+ line "")
    else Ret EmptyString);
  let clients := if wanted "clients"
    then line "# Clients" +:+ line "connected_clients:1" +:+ line "" else EmptyString in
  let memory := if wanted "memory"
    then line "# Memory" +:+ line "used_memory:0" +:+ line "used_memory_human:0B" +:+ line ""
    else EmptyString in
  let replication := if wanted "replication"
    then line "# Replication" +:+ line "role:master" +:+ line "connected_slaves:0" +:+ line ""
    else EmptyString in
  keyspace ⇐? (if wanted "keyspace" && has_store then
    dbs ⇐? info_keyspace;
    ok (line "# Keyspace" +:+ dbs +:+ line "")
    else ok EmptyString);
  ok (BulkString (server +:+ clients +:+ memory +:+ replication +:+ keyspace)).

(** [withOptionalStore(cmdInfo)]. *)
Definition withOptionalStore (h : bool → list Value → prog (result Value)) : Handler :=
  λ has_store cc args, r ⇐? h has_store args; ok (cc, r).

(** ** MULTI, DISCARD, EXEC *)

Definition cmdMulti : Handler := λ _ cc args,
  if InMulti cc then ok (cc, Error "ERR MULTI calls can not be nested")
  else ok (with_multi true [] cc, SimpleString "OK").

Definition cmdDiscard : Handler := λ _ cc args,
  if negb (InMulti cc) then ok (cc, Error "ERR DISCARD without MULTI")
  else ok (with_multi false [] cc, SimpleString "OK").

(** The loop of [cmdExec]: each queued command is dispatched in turn. *)
Definition exec_queued (pkg : Package) (has_store : bool) (queued : list (list Value))
    (cc : ClientConn) : prog (result (ClientConn * list Value)) :=
  for_each queued (cc, []) (λ '(cc, results) args,
    '(cc, r) ⇐? pkg_Dispatch pkg has_store cc args;
    ok (cc, results ++ [r])).

Definition cmdExec (pkg : Package) : Handler := λ has_store cc args,
  if negb (InMulti cc) then ok (cc, Error "ERR EXEC without MULTI")
  else
    let queued := QueuedCmds cc in
    '(cc, results) ⇐? exec_queued pkg has_store queued (with_multi false [] cc);
    ok (cc, Array results).

(** ** The registry *)

Definition data (name : string) (min max : Z) (h : storeHandler) : Cmd :=
  mkCmd name min max (λ _, withStore h).
Definition plain (name : string) (min max : Z) (h : Handler) : Cmd := mkCmd name min max (λ _, h).

(** The commands the [init] functions register. *)
Definition string_cmds : list Cmd := [
  data "GET" 2 2 cmdGet; data "SET" 3 (-1) cmdSet; data "DEL" 2 (-1) cmdDel;
  data "EXISTS" 2 (-1) cmdExists; data "EXPIRE" 3 3 cmdExpire; data "PEXPIRE" 3 3 cmdPExpire;
  data "TTL" 2 2 cmdTTL; data "PTTL" 2 2 cmdPTTL; data "PERSIST" 2 2 cmdPersist;
  data "TYPE" 2 2 cmdType; data "RENAME" 3 3 cmdRename; data "KEYS" 2 2 cmdKeys;
  data "DBSIZE" 1 1 cmdDBSize; data "FLUSHDB" 1 2 cmdFlushDB; data "FLUSHALL" 1 2 cmdFlushAll;
  data "RANDOMKEY" 1 1 cmdRandomKey; plain "SELECT" 2 2 cmdSelect; data "INCR" 2 2 cmdIncr;
  data "INCRBY" 3 3 cmdIncrBy; data "DECR" 2 2 cmdDecr; data "DECRBY" 3 3 cmdDecrBy;
  data "MGET" 2 (-1) cmdMGet; data "MSET" 3 (-1) cmdMSet; data "SETNX" 3 3 cmdSetNX;
  data "GETSET" 3 3 cmdGetSet; data "APPEND" 3 3 cmdAppend; data "STRLEN" 2 2 cmdStrLen].

Definition hash_cmds : list Cmd := [
  data "HSET" 4 (-1) cmdHSet; data "HGET" 3 3 cmdHGet; data "HDEL" 3 (-1) cmdHDel;
  data "HEXISTS" 3 3 cmdHExists; data "HGETALL" 2 2 cmdHGetAll; data "HKEYS" 2 2 cmdHKeys;
  data "HVALS" 2 2 cmdHVals; data "HLEN" 2 2 cmdHLen; data "HMGET" 3 (-1) cmdHMGet;
  data "HMSET" 4 (-1) cmdHMSet].

Definition list_cmds : list Cmd := [
  data "LPUSH" 3 (-1) cmdLPush; data "RPUSH" 3 (-1) cmdRPush; data "LPOP" 2 2 cmdLPop;
  data "RPOP" 2 2 cmdRPop; data "LLEN" 2 2 cmdLLen; data "LRANGE" 4 4 cmdLRange;
  data "LINDEX" 3 3 cmdLIndex; data "LSET" 4 4 cmdLSet; data "LINSERT" 5 5 cmdLInsert;
  data "LREM" 4 4 cmdLRem].

Definition set_cmds : list Cmd := [
  data "SADD" 3 (-1) cmdSAdd; data "SREM" 3 (-1) cmdSRem; data "SMEMBERS" 2 2 cmdSMembers;
  data "SISMEMBER" 3 3 cmdSIsMember; data "SCARD" 2 2 cmdSCard; data "SUNION" 2 (-1) cmdSUnion;
  data "SINTER" 2 (-1) cmdSInter; data "SDIFF" 2 (-1) cmdSDiff].

Definition zset_cmds : list Cmd := [
  data "ZADD" 4 (-1) cmdZAdd; data "ZREM" 3 (-1) cmdZRem; data "ZSCORE" 3 3 cmdZScore;
  data "ZRANK" 3 3 cmdZRank; data "ZRANGE" 4 4 cmdZRange;
  data "ZRANGEBYSCORE" 4 (-1) cmdZRangeByScore; data "ZCARD" 2 2 cmdZCard;
  data "ZCOUNT" 4 4 cmdZCount; data "ZINCRBY" 4 4 cmdZIncrBy].

Definition server_cmds : list Cmd := [
  plain "PING" 1 2 (replying cmdPing); plain "ECHO" 2 2 (replying cmdEcho);
  plain "QUIT" 1 1 (replying cmdQuit);
  mkCmd "COMMAND" 1 (-1) (λ pkg, replying (cmdCommand pkg))].

Definition info_cmds : list Cmd := [plain "INFO" 1 2 (withOptionalStore cmdInfo)].

Definition multi_cmds : list Cmd := [
  plain "MULTI" 1 1 cmdMulti; mkCmd "EXEC" 1 1 cmdExec; plain "DISCARD" 1 1 cmdDiscard].

Definition commands : list Cmd :=
  string_cmds ++ hash_cmds ++ list_cmds ++ set_cmds ++ zset_cmds ++ server_cmds ++ info_cmds ++ multi_cmds.

Definition Register (c : Cmd) (registry : gmap string Cmd) : gmap string Cmd :=
  <[ToUpper (Name c) := c]> registry.

Definition registry : gmap string Cmd := foldr Register ∅ commands.

(** ** Dispatch *)

Definition unknown_command (lower : string) : Value := Error ("ERR unknown command `" +:+ lower +:+ "`").
Definition wrong_number (lower : string) : Value :=
  Error ("ERR wrong number of arguments for '" +:+ lower +:+ "' command").

(** What a run cut short by its fuel ends in; no run of [Dispatch] does. *)
Definition out_of_fuel : error := ErrNew "out of fuel".

Fixpoint dispatch (fuel : nat) : Handler := λ has_store cc args,
  match fuel with
  | O => err out_of_fuel
  | S fuel' =>
      match args with
      | [] => ok (cc, Error "ERR empty command")
      | a :: _ =>
          let name := ToUpper (Str a) in
          match registry !! name with
          | None => ok (cc, unknown_command (ToLower name))
          | Some cmd =>
              let n := Z.of_nat (length args) in
              if decide (n < MinArgs cmd) then ok (cc, wrong_number (ToLower name))
              else if decide (0 ≤ MaxArgs cmd ∧ MaxArgs cmd < n) then ok (cc, wrong_number (ToLower name))
              else Exec cmd (mkPackage (info_of <$> registry) (dispatch fuel')) has_store cc args
          end
      end
  end.

(** EXEC dispatches the commands it finds queued, and leaves none queued for
    an EXEC among them. *)
Definition Dispatch : Handler := dispatch 2.

(** [upperStr], [lowerStr]: ASCII letters only. *)
Definition upperStr : string → string := map_string upper_ascii.
Definition lowerStr : string → string := map_string lower_ascii.

Definition QueueOrDispatch : Handler := λ has_store cc args,
  if negb (InMulti cc) then Dispatch has_store cc args
  else
    let name := match args with a :: _ => upperStr (Str a) | [] => EmptyString end in
    if decide (name = "EXEC" ∨ name = "DISCARD" ∨ name = "QUIT") then Dispatch has_store cc args
    else if decide (name = "MULTI") then ok (cc, Error "ERR MULTI calls can not be nested")
    else
      match registry !! name with
      | None => ok (cc, unknown_command (lowerStr name))
      | Some cmd =>
          if decide (Z.of_nat (length args) < MinArgs cmd) then ok (cc, wrong_number (lowerStr name))
          else ok (with_multi true (QueuedCmds cc ++ [args]) cc, SimpleString "QUEUED")
      end.
End dispatch.
