(* ===== verification/Session.v ===== *)
(** One client's commands: the registry, the connection's invariant, what a
    command leaves intact, and MULTI/EXEC ([src/internal/commands/registry.go],
    [multi.go], [clientconn.go]). *)
From S2P Require Import Prelude GoStd Float Sql Effects Behaviour Keyspace Sample Store StoreKeys StoreStrings StoreLists StoreHashes StoreSets StoreZsets Glob Resp Commands CmdData Soundness Dispatch.
Local Open Scope Z_scope.
Local Open Scope go_scope.

Create HintDb handles discriminated.
#[export] Hint Resolve handles_Get handles_Set handles_Del handles_Exists handles_Expire handles_PExpire
  handles_TTL handles_PTTL handles_Persist handles_Type handles_Rename handles_DBSize handles_FlushDB
  handles_FlushAll handles_RandomKey handles_Incr handles_IncrBy handles_Decr handles_DecrBy handles_MGet
  handles_MSet handles_SetNX handles_GetSet handles_Append handles_StrLen : handles.
#[export] Hint Resolve handles_LPush handles_RPush handles_LPop handles_RPop handles_LLen handles_LRange
  handles_LIndex handles_LSet handles_LInsert handles_LRem handles_HSet handles_HGet handles_HDel
  handles_HExists handles_HGetAll handles_HKeys handles_HVals handles_HLen handles_HMGet handles_HMSet
  : handles.
#[export] Hint Resolve handles_SAdd handles_SRem handles_SMembers handles_SIsMember handles_SCard
  handles_SUnion handles_SInter handles_SDiff handles_ZAdd handles_ZRem handles_ZScore handles_ZRank
  handles_ZRange handles_ZRangeByScore handles_ZCard handles_ZCount handles_ZIncrBy : handles.

(** Goals about every command, one by one. *)
Ltac each_command :=
  unfold commands, string_cmds, hash_cmds, list_cmds, set_cmds, zset_cmds, server_cmds, info_cmds, multi_cmds;
  cbn [app]; repeat (apply list.Forall_cons; split); try (apply list.Forall_nil; exact I).

Section session.
Context `{Unicode} (startTime : Z).
Abbreviation commands := (commands startTime).
Abbreviation registry := (registry startTime).
Abbreviation dispatch := (dispatch startTime).
Abbreviation Dispatch := (Dispatch startTime).
Abbreviation QueueOrDispatch := (QueueOrDispatch startTime).

(** ** The registry *)

Definition names : list string := Name <$> commands.

Lemma names_upper : Forall (λ c, ToUpper (Name c) = Name c) commands.
Proof. each_command; reflexivity. Qed.

Lemma names_distinct : NoDup names.
Proof. apply (bool_decide_unpack _). by vm_compute. Qed.

Lemma fold_register cs n c :
  Forall (λ c, ToUpper (Name c) = Name c) cs → NoDup (Name <$> cs) →
  foldr Register ∅ cs !! n = Some c ↔ c ∈ cs ∧ Name c = n.
Proof.
  induction cs as [|d cs IH]; intros Hup Hnd; simpl.
  { rewrite lookup_empty. split; [done|]. by intros [?%not_elem_of_nil _]. }
  apply list.Forall_cons in Hup as [Hd Hup]. apply list.NoDup_cons in Hnd as [Hn Hnd].
  unfold Register at 1. rewrite Hd, list.elem_of_cons. destruct (decide (Name d = n)) as [<-|Hne].
  - rewrite lookup_insert_eq. split; [intros [= ->]; auto|]. intros [[->|Hin] Hname]; [done|].
    destruct Hn. rewrite <- Hname. by apply list_elem_of_fmap_2.
  - rewrite lookup_insert_ne, IH by done. naive_solver.
Qed.

(** No registration shadows another. *)
Lemma registry_iff n c : registry !! n = Some c ↔ c ∈ commands ∧ Name c = n.
Proof. apply fold_register; [apply names_upper|apply names_distinct]. Qed.

(** ** The connection *)

(** What MULTI queues: a registered command with enough arguments that is not
    about the transaction itself. *)
Definition queueable (args : list Value) : Prop :=
  match args with
  | [] => False
  | a :: _ =>
      let name := upperStr (Str a) in
      ¬ (name = "EXEC" ∨ name = "DISCARD" ∨ name = "QUIT") ∧ name ≠ "MULTI" ∧
      ∃ c, registry !! name = Some c ∧ MinArgs c ≤ Z.of_nat (length args)
  end.

(** A connection between two commands. *)
Definition conn_ok (cc : ClientConn) : Prop :=
  0 ≤ cc_DB cc ≤ 15 ∧ (InMulti cc = false → QueuedCmds cc = []) ∧ Forall queueable (QueuedCmds cc).

Lemma NewClientConn_ok b : conn_ok (NewClientConn b).
Proof. split; [simpl; lia|]. by split; [|apply list.Forall_nil]. Qed.

(** A dispatched command never queues, and never authenticates. *)
Definition kept (cc cc' : ClientConn) : Prop :=
  conn_ok cc' ∧ Authenticated cc' = Authenticated cc ∧ (QueuedCmds cc' = [] ∨ QueuedCmds cc' = QueuedCmds cc).

Lemma kept_refl cc : conn_ok cc → kept cc cc.
Proof. unfold kept. auto. Qed.

Lemma kept_trans cc cc' cc'' : QueuedCmds cc = [] → kept cc cc' → kept cc' cc'' → kept cc cc''.
Proof.
  intros Hq (_ & Ha & Hor) (Hok & Ha' & Hor'). split; [done|]. split; [congruence|]. left.
  destruct Hor' as [?|Hq']; [done|]. rewrite Hq'. by destruct Hor as [?| ->].
Qed.

Lemma kept_closed b cc : conn_ok cc → kept cc (with_multi b [] cc).
Proof.
  intros (? & _ & _). split; [|by auto]. split; [done|]. split; [done|]. by apply list.Forall_nil.
Qed.

(** A store command leaves the connection; its only failure is a panic. *)
Definition replies (p : prog (result Value)) : Prop := returns (yields (λ _, True)) p.

Lemma replies_on_store {A} (p : prog (result A)) k : (∀ a, replies (k a)) → replies (on_store p k).
Proof.
  intros Hk. eapply returns_bind; [apply returns_any|]. intros [[]|a] _; first [exact I|exact eq_refl|apply Hk].
Qed.

Lemma replies_bind {A} (p : prog (result A)) k :
  returns (yields (λ _, True)) p → (∀ a, replies (k a)) → replies (err_bind p k).
Proof. intros Hp Hk. eapply yields_bind; [exact Hp|]. intros a _. apply Hk. Qed.

Lemma replies_then {A} (p : prog A) k : (∀ a, replies (k a)) → replies (bind p k).
Proof. intros Hk. eapply returns_bind; [apply returns_any|]. intros a _. apply Hk. Qed.

Lemma replies_mset db args : replies (mset_loop db args).
Proof.
  revert args. fix IH 1. intros [|k [|v args]]; [exact I|exact eq_refl|]. cbn [mset_loop]. apply replies_on_store.
  intros ?. apply IH.
Qed.

Ltac replying :=
  repeat match goal with
  | |- replies (err_bind _ _) => apply replies_bind; [|intros ?]
  | |- replies (on_store _ _) => apply replies_on_store; intros ?
  | |- replies (bind _ _) => apply replies_then; intros ?
  | |- replies (int_arg _ _ _) => unfold int_arg
  | |- replies (two_ints _ _ _ _) => unfold two_ints
  | |- replies (mset_loop _ _) => apply replies_mset
  | |- replies (let '(_, _) := ?x in _) => destruct x
  | |- replies (match ?x with _ => _ end) => destruct x
  | |- replies (if ?b then _ else _) => destruct b
  | |- returns _ (checked _) => apply yields_checked
  | |- returns _ (arg _ _) => apply yields_checked
  | |- returns _ (args_from _ _) => apply yields_checked
  | |- returns _ (for_each _ _ _) => apply (yields_for_each (λ _, True)); [exact I|intros]
  | |- returns _ (err_bind _ _) => apply (yields_bind (λ _, True)); [|intros ? ?]
  | |- returns _ (bind _ _) => eapply returns_bind; [apply returns_any|intros ? _]
  | |- returns _ (match ?x with _ => _ end) => destruct x
  | |- _ => first [exact I|exact eq_refl|done]
  end.

(** [Dispatch] as EXEC calls it, with an empty queue, keeps the connection. *)
Definition keeping (h : Handler) : Prop := ∀ has_store cc args,
  conn_ok cc → QueuedCmds cc = [] → returns (yields (λ '(cc', _), kept cc cc')) (h has_store cc args).

Definition keeps (c : Cmd) : Prop := ∀ pkg has_store cc args,
  conn_ok cc → (QueuedCmds cc ≠ [] → keeping (pkg_Dispatch pkg)) →
  returns (yields (λ '(cc', _), kept cc cc')) (Exec c pkg has_store cc args).

Lemma keeps_data name min max h : (∀ db args, replies (h db args)) → keeps (data name min max h).
Proof.
  intros Hh pkg [] cc args Hcc _; simpl; [|by apply kept_refl].
  eapply yields_bind; [apply Hh|]. intros r _. by apply kept_refl.
Qed.

Lemma keeps_plain name min max (h : Package → bool → list Value → prog (result Value)) :
  (∀ pkg b args, replies (h pkg b args)) →
  keeps (mkCmd name min max (λ pkg, withOptionalStore (h pkg))).
Proof.
  intros Hh pkg b cc args Hcc _. eapply yields_bind; [apply Hh|]. intros r _. by apply kept_refl.
Qed.

Lemma keeps_SELECT : keeps (plain "SELECT" 2 2 cmdSelect).
Proof.
  intros pkg b cc args Hcc _. simpl. unfold cmdSelect. eapply yields_bind; [apply yields_checked|].
  intros s _. destruct (parse_int s); [|by apply kept_refl]. case_decide as Hr; [by apply kept_refl|].
  destruct Hcc as (_ & Hq). split; [split; [simpl; lia|done]|]. auto.
Qed.

Lemma keeps_MULTI : keeps (plain "MULTI" 1 1 cmdMulti).
Proof.
  intros pkg b cc args Hcc _. simpl. unfold cmdMulti. destruct (InMulti cc); [by apply kept_refl|].
  by apply kept_closed.
Qed.

Lemma keeps_DISCARD : keeps (plain "DISCARD" 1 1 cmdDiscard).
Proof.
  intros pkg b cc args Hcc _. simpl. unfold cmdDiscard. destruct (InMulti cc); [by apply kept_closed|].
  by apply kept_refl.
Qed.

Lemma keeps_EXEC : keeps (mkCmd "EXEC" 1 1 cmdExec).
Proof.
  intros pkg b cc args Hcc Hpkg. simpl. unfold cmdExec. destruct (InMulti cc) eqn:Hm; [|by apply kept_refl].
  pose proof (kept_closed false cc Hcc) as Hclosed. simpl.
  eapply (yields_bind (λ '(cc', _), kept (with_multi false [] cc) cc')).
  - apply (yields_for_each (λ '(cc', _), kept (with_multi false [] cc) cc')).
    { by apply kept_refl, Hclosed. }
    intros [cc1 rs] q Hq Hk. assert (QueuedCmds cc1 = []) as Hq1 by (by destruct Hk as (_ & _ & [?|?])).
    eapply yields_bind.
    + apply Hpkg; [|apply Hk|done]. intros Hnil. rewrite Hnil in Hq. by apply not_elem_of_nil in Hq.
    + intros [cc2 r] Hk2. by eapply kept_trans.
  - intros [cc' rs] (Hok & Ha & Hor). split; [done|]. split; [done|]. left. by destruct Hor.
Qed.

Lemma commands_keep : Forall keeps commands.
Proof.
  each_command;
  lazymatch goal with
  | |- keeps (data _ _ _ ?h) =>
      apply keeps_data; intros ? ?; lazymatch h with ?f _ => unfold f | _ => unfold h end; replying
  | |- _ => idtac
  end.
  - apply keeps_SELECT.
  - apply (keeps_plain _ _ _ (λ _ _, cmdPing)). intros; cbv beta; unfold cmdPing. replying.
  - apply (keeps_plain _ _ _ (λ _ _, cmdEcho)). intros; cbv beta; unfold cmdEcho. replying.
  - by apply (keeps_plain _ _ _ (λ _ _, cmdQuit)).
  - apply (keeps_plain _ _ _ (λ pkg _, cmdCommand pkg)). intros; cbv beta; unfold cmdCommand. replying.
  - apply (keeps_plain _ _ _ (λ _, cmdInfo startTime)). intros; cbv beta; unfold cmdInfo, info_keyspace. replying.
  - apply keeps_MULTI.
  - apply keeps_EXEC.
  - apply keeps_DISCARD.
Qed.

(** With a nested call left for the queue, [dispatch] never runs out. *)
Lemma dispatch_keeps fuel has_store cc args :
  conn_ok cc → (QueuedCmds cc ≠ [] → keeping (dispatch fuel)) →
  returns (yields (λ '(cc', _), kept cc cc')) (dispatch (S fuel) has_store cc args).
Proof.
  intros Hcc Hfuel. cbn [Dispatch.dispatch]. destruct args as [|a args]; [by apply kept_refl|].
  destruct (registry !! _) as [c|] eqn:Hc; [|by apply kept_refl]. cbv zeta.
  repeat (case_decide; [by apply kept_refl|]). apply registry_iff in Hc as [Hin _].
  pose proof commands_keep as Hall. rewrite list.Forall_forall in Hall. by apply (Hall c Hin).
Qed.

Lemma Dispatch_keeps has_store cc args :
  conn_ok cc → returns (yields (λ '(cc', _), kept cc cc')) (Dispatch has_store cc args).
Proof.
  intros Hcc. apply dispatch_keeps; [done|]. intros _ has_store' cc' args' Hcc' Hq.
  by apply dispatch_keeps.
Qed.

(** A command a client sends stays out of the password, and joins the queue
    at most. *)
Definition took (cc : ClientConn) (args : list Value) (cc' : ClientConn) : Prop :=
  conn_ok cc' ∧ Authenticated cc' = Authenticated cc ∧ QueuedCmds cc' ⊆ args :: QueuedCmds cc.

Lemma kept_took cc args cc' : kept cc cc' → took cc args cc'.
Proof. intros (? & ? & [Hq|Hq]); (split; [done|]); (split; [done|]); rewrite Hq; set_solver. Qed.

Lemma QueueOrDispatch_keeps has_store cc args :
  conn_ok cc → returns (yields (λ '(cc', _), took cc args cc')) (QueueOrDispatch has_store cc args).
Proof.
  intros Hcc.
  assert (returns (yields (λ '(cc', _), took cc args cc')) (Dispatch has_store cc args)) as Hd.
  { eapply yields_mono; [|by apply Dispatch_keeps]. intros [cc' r]. apply kept_took. }
  assert (∀ r : Value, returns (yields (λ '(cc', _), took cc args cc')) (ok (cc, r))) as Hsame
    by (intros r; by apply kept_took, kept_refl).
  unfold QueueOrDispatch. destruct (InMulti cc) eqn:Hm; cbn [negb]; [|exact Hd]. case_decide as Hx; [exact Hd|].
  case_decide as Hmulti; [apply Hsame|]. destruct (registry !! _) as [c|] eqn:Hc; [|apply Hsame].
  case_decide as Hn; [apply Hsame|].
  split; [|split; [done|simpl; set_solver]]. destruct Hcc as (Hdb & _ & Hq). split; [done|]. split; [done|]. simpl.
  apply list.Forall_app. split; [done|]. apply list.Forall_singleton. destruct args as [|a args].
  - by vm_compute in Hc.
  - split; [done|]. split; [done|]. exists c. split; [done|]. lia.
Qed.

(** ** Command names *)

Lemma upper_ascii_ascii c : bool_decide (byte_of (upper_ascii c) < 128) = bool_decide (byte_of c < 128).
Proof. by destruct c as [[] [] [] [] [] [] [] []]; vm_compute. Qed.

Lemma is_ascii_upper s : is_ascii (upperStr s) = is_ascii s.
Proof.
  induction s as [|c s IH]; [done|]. unfold upperStr in *. cbn [map_string is_ascii].
  by rewrite upper_ascii_ascii, IH.
Qed.

Lemma names_ascii : Forall (λ c, is_ascii (Name c) = true) commands.
Proof. each_command; reflexivity. Qed.

(** On the names that matter the two ways to read a name agree. *)
Lemma ToUpper_upperStr s : is_ascii (upperStr s) = true → ToUpper s = upperStr s.
Proof. intros Ha. rewrite is_ascii_upper in Ha. unfold ToUpper. by rewrite Ha. Qed.

Lemma ToUpper_registered s c : registry !! upperStr s = Some c → ToUpper s = upperStr s.
Proof.
  intros Hc. apply ToUpper_upperStr. apply registry_iff in Hc as [Hin <-].
  pose proof names_ascii as Hall. rewrite list.Forall_forall in Hall. by apply Hall.
Qed.

(** The name a command line is dispatched under. *)
Definition name_of (args : list Value) : string :=
  match args with a :: _ => ToUpper (Str a) | [] => EmptyString end.

(** ** What a command leaves intact *)

(** The commands that write no key. *)
Definition reading : list string := [
  "GET"; "EXISTS"; "TTL"; "PTTL"; "TYPE"; "KEYS"; "DBSIZE"; "RANDOMKEY"; "SELECT"; "MGET"; "STRLEN";
  "HGET"; "HEXISTS"; "HGETALL"; "HKEYS"; "HVALS"; "HLEN"; "HMGET"; "LLEN"; "LRANGE"; "LINDEX";
  "SMEMBERS"; "SISMEMBER"; "SCARD"; "SUNION"; "SINTER"; "SDIFF"; "ZSCORE"; "ZRANK"; "ZRANGE";
  "ZRANGEBYSCORE"; "ZCARD"; "ZCOUNT"; "PING"; "ECHO"; "QUIT"; "COMMAND"; "INFO"; "MULTI"; "DISCARD"].

(** What the command [name] may change from the database [db]. *)
Definition effect (name : string) (db : Z) : relation keyspace :=
  if decide (name ∈ reading) then eq
  else if decide (name = "FLUSHALL" ∨ name = "EXEC") then anything
  else confined db.

#[export] Instance effect_preorder name db : PreOrder (effect name db).
Proof. unfold effect. repeat case_decide; apply _. Qed.

(** KEYS with an unterminated class. *)
Definition keys_panics (args : list Value) : Prop :=
  name_of args = "KEYS" ∧ ∃ pattern, Str <$> args !! 1%nat = Some pattern ∧ pattern_tokens pattern = None.

Definition may_panic (cc : ClientConn) (args : list Value) : Prop :=
  keys_panics args ∨
  name_of args = "EXEC" ∧ InMulti cc = true ∧ ∃ q, q ∈ QueuedCmds cc ∧ keys_panics q.

Section sound.
Context (ns : Z).

(** A command that runs on any arguments its registration allows; EXEC needs
    [Dispatch] to run what is queued. *)
Definition sound (c : Cmd) : Prop := ∀ pkg has_store cc args,
  name_of args = Name c → MinArgs c ≤ Z.of_nat (length args) →
  (∀ q cc', q ∈ QueuedCmds cc →
    runs ns anything (keys_panics q) (pkg_Dispatch pkg has_store cc' q)) →
  runs ns (effect (Name c) (cc_DB cc)) (may_panic cc args) (Exec c pkg has_store cc args).

Lemma runs_reply R bad `{!PreOrder R} (p : prog (result Value)) (cc : ClientConn) :
  runs ns R bad p → runs ns R bad (r ⇐? p; ok (cc, r)).
Proof. intros Hp. apply runs_bind; [done|done|]. intros r. by apply runs_ok. Qed.

Lemma sound_data R name min max h :
  (∀ db a a', R db a a' → effect name db a a') → handles ns R min h → sound (data name min max h).
Proof.
  intros HR Hh pkg has_store cc args Hname Hargs Hpkg. simpl. unfold withStore. destruct has_store.
  - apply runs_reply; [apply _|]. eapply (runs_mono _ _ _ False); [apply HR|done|by apply Hh].
  - apply runs_ok, _.
Qed.

(** A command that only reads. *)
Lemma sound_reading c :
  Name c ∈ reading →
  (∀ pkg has_store cc args, MinArgs c ≤ Z.of_nat (length args) →
    runs ns eq False (Exec c pkg has_store cc args)) →
  sound c.
Proof.
  intros Hin Hh pkg has_store cc args Hname Hargs Hpkg.
  eapply (runs_mono _ eq _ False); [|done|by apply Hh]. intros a a' ->. apply effect_preorder.
Qed.

Lemma sound_KEYS : sound (data "KEYS" 2 2 cmdKeys).
Proof.
  intros pkg has_store cc args Hname Hargs Hpkg. simpl. unfold withStore. destruct has_store.
  - apply runs_reply; [apply _|]. eapply runs_mono; [| |by apply runs_cmdKeys].
    + intros a a' ->. apply effect_preorder.
    + intros Hbad. left. by split.
  - apply runs_ok, _.
Qed.
Lemma sound_EXEC : sound (mkCmd "EXEC" 1 1 cmdExec).
Proof.
  intros pkg has_store cc args Hname Hargs Hpkg. simpl. unfold cmdExec.
  destruct (InMulti cc) eqn:Hm; cbn [negb]; [|by apply runs_ok, _].
  change (effect "EXEC" (cc_DB cc)) with anything.
  apply runs_bind; [apply _| |intros [cc' rs]; by apply runs_ok, _].
  apply runs_for_each; [apply _|]. intros [cc' rs] q Hq.
  apply runs_bind; [apply _| |intros [cc'' r]; by apply runs_ok, _].
  eapply (runs_mono _ anything _ (keys_panics q)); [done| |by apply Hpkg].
  intros Hbad. right. eauto.
Qed.

Lemma runs_info b args : runs ns eq False (cmdInfo startTime b args).
Proof.
  assert (runs ns eq False info_keyspace) as Hks.
  { apply runs_for_each; [apply _|]. intros acc db _. apply runs_seq; [apply _|auto with runs|].
    intros [[]|n] Hr; try by apply runs_ok, _. by destruct (Hr eq_refl). }
  assert (∀ (b : bool) (f : string → prog (result Value)), (∀ s, runs ns eq False (f s)) →
    runs ns eq False (err_bind (if b then dbs ⇐? info_keyspace; ok (line "# Keyspace" +:+ dbs +:+ line "")
      else ok EmptyString) f)) as Hopt.
  { intros [] f Hf; (apply runs_bind; [apply _| |done]); [|by apply runs_ok, _].
    apply runs_bind; [apply _|done|]. intros dbs. by apply runs_ok, _. }
  unfold cmdInfo. cbv zeta. destruct (bool_decide (_ = "" ∨ _ = "server")).
  - apply runs_now_bind. intros t. apply Hopt. intros s. by apply runs_ok, _.
  - apply Hopt. intros s. by apply runs_ok, _.
Qed.

Lemma sound_reads name min max h :
  bool_decide (name ∈ reading) = true → handles ns (λ _, eq) min h → sound (data name min max h).
Proof. intros _. apply sound_data. intros db a a' ->. apply effect_preorder. Qed.

Lemma sound_writes name min max h :
  bool_decide (name ∈ reading ∨ name = "FLUSHALL" ∨ name = "EXEC") = false →
  handles ns confined min h → sound (data name min max h).
Proof.
  intros Hn%bool_decide_eq_false. apply sound_data. intros db a a' HR. unfold effect.
  repeat (rewrite decide_False by tauto). done.
Qed.

Lemma sound_FLUSHALL : sound (data "FLUSHALL" 1 2 cmdFlushAll).
Proof.
  apply (sound_data (λ _, anything)); [|apply handles_FlushAll]. intros db a a' _.
  unfold effect. by rewrite decide_False by (apply (bool_decide_unpack _); by vm_compute).
Qed.

Lemma commands_sound : Forall (sound) commands.
Proof.
  each_command;
  lazymatch goal with
  | |- sound (data "KEYS" _ _ _) => apply sound_KEYS
  | |- sound (data "FLUSHALL" _ _ _) => apply sound_FLUSHALL
  | |- sound (data _ _ _ _) =>
      first [ apply sound_reads; [vm_compute; exact eq_refl|auto with handles; fail]
            | apply sound_writes; [vm_compute; exact eq_refl|auto with handles; fail] ]
  | |- sound (plain "EXEC" _ _ _) => apply sound_EXEC
  | |- _ => idtac
  end.
  all: lazymatch goal with
  | |- sound (mkCmd "EXEC" _ _ _) => apply sound_EXEC
  | |- _ => apply sound_reading; [apply (bool_decide_unpack _); by vm_compute|];
            intros pkg b cc args Hargs; cbn [Exec data plain MinArgs] in *
  end.
  - unfold cmdSelect. apply runs_bind; [apply _|apply runs_arg; [apply _|lia]|]. intros s.
    repeat case_match; apply runs_ok, _.
  - apply runs_reply; [apply _|]. unfold cmdPing. case_decide; [|by apply runs_ok, _].
    apply runs_bind; [apply _|apply runs_arg; [apply _|lia]|]. intros s. by apply runs_ok, _.
  - apply runs_reply; [apply _|]. unfold cmdEcho.
    apply runs_bind; [apply _|apply runs_arg; [apply _|lia]|]. intros s. by apply runs_ok, _.
  - by apply runs_ok, _.
  - apply runs_reply; [apply _|]. unfold cmdCommand. case_decide; [by apply runs_ok, _|].
    apply runs_range. intros ks. by apply runs_ok, _.
  - apply runs_reply; [apply _|]. apply runs_info.
  - unfold cmdMulti. destruct (InMulti cc); by apply runs_ok, _.
  - unfold cmdDiscard. destruct (InMulti cc); by apply runs_ok, _.
Qed.

Lemma runs_dispatch fuel has_store cc args :
  (∀ q cc', q ∈ QueuedCmds cc → runs ns anything (keys_panics q) (dispatch fuel has_store cc' q)) →
  runs ns (effect (name_of args) (cc_DB cc)) (may_panic cc args) (dispatch (S fuel) has_store cc args).
Proof.
  intros Hq. cbn [Dispatch.dispatch]. destruct args as [|a args]; [by apply runs_ok, _|]. cbv zeta.
  destruct (registry !! _) as [c|] eqn:Hc; [|by apply runs_ok, _].
  case_decide as Hmin; [by apply runs_ok, _|]. case_decide; [by apply runs_ok, _|].
  apply registry_iff in Hc as [Hin Hname]. pose proof commands_sound as Hall.
  rewrite list.Forall_forall in Hall. change (ToUpper (Str a)) with (name_of (a :: args)) in Hname.
  rewrite <- Hname. apply (Hall c Hin); [done|lia|]. intros q cc' Hin'. by apply Hq.
Qed.

(** What is queued is no EXEC. *)
Lemma queueable_name q : queueable q → name_of q ≠ "EXEC".
Proof.
  destruct q as [|a q]; [done|]. intros (Hx & _ & c & Hc & _). simpl.
  rewrite (ToUpper_registered _ _ Hc). tauto.
Qed.

Lemma runs_Dispatch has_store cc args :
  conn_ok cc →
  runs ns (effect (name_of args) (cc_DB cc)) (may_panic cc args) (Dispatch has_store cc args).
Proof.
  intros (_ & _ & Hqueue). apply runs_dispatch. intros q cc' Hq.
  rewrite list.Forall_forall in Hqueue. apply Hqueue, queueable_name in Hq.
  eapply runs_mono; [done| |apply runs_dispatch].
  - intros [Hbad|[? _]]; done.
  - intros q' cc'' _. by apply runs_err.
Qed.

Lemma runs_QueueOrDispatch has_store cc args :
  conn_ok cc →
  runs ns (effect (name_of args) (cc_DB cc)) (may_panic cc args) (QueueOrDispatch has_store cc args).
Proof.
  intros Hcc. pose proof (runs_Dispatch has_store cc args Hcc) as Hd. unfold QueueOrDispatch.
  destruct (InMulti cc); cbn [negb]; [|exact Hd]. case_decide; [exact Hd|].
  case_decide; [by apply runs_ok, _|]. destruct (registry !! _); [|by apply runs_ok, _].
  case_decide; by apply runs_ok, _.
Qed.
End sound.

(** A result of the command and what it leaves. *)
Lemma wp_returns {A} (P : A → Prop) F (p : prog A) Q σ :
  returns P p → wp F p Q σ → wp F p (λ a σ', P a ∧ Q a σ') σ.
Proof.
  revert σ. induction p as [a|X e k IH]; intros σ Hp Hwp; [by split|].
  intros x σ' Hs. apply IH; [apply Hp|by apply Hwp].
Qed.

(** ** MULTI and EXEC *)

(** A client's command lines in turn and the replies to them. *)
Definition transcript (step : ClientConn → list Value → prog (result (ClientConn * Value)))
    (cc : ClientConn) (cmds : list (list Value)) : prog (result (ClientConn * list Value)) :=
  for_each cmds (cc, []) (λ '(cc, rs) args,
    '(cc, r) ⇐? step cc args;
    ok (cc, rs ++ [r])).

Lemma dispatch_registered c fuel has_store cc args :
  c ∈ commands → args ≠ [] → name_of args = Name c → MinArgs c ≤ Z.of_nat (length args) →
  ¬ (0 ≤ MaxArgs c ∧ MaxArgs c < Z.of_nat (length args)) →
  dispatch (S fuel) has_store cc args =
    Exec c (mkPackage (info_of <$> registry) (dispatch fuel)) has_store cc args.
Proof.
  intros Hin Hne Hname Hmin Hmax. destruct args as [|a args]; [done|]. cbn [Dispatch.dispatch]. cbv zeta.
  assert (registry !! ToUpper (Str a) = Some c) as -> by (by apply registry_iff).
  by rewrite !decide_False by lia.
Qed.

(** Only EXEC calls [Dispatch] back. *)
Definition needs_no_dispatch (c : Cmd) : Prop :=
  Name c = "EXEC" ∨ ∀ infos d d', Exec c (mkPackage infos d) = Exec c (mkPackage infos d').

Lemma commands_need_no_dispatch : Forall needs_no_dispatch commands.
Proof. each_command; solve [by left|by right]. Qed.

Lemma dispatch_queued fuel fuel' has_store cc q :
  queueable q → dispatch (S fuel) has_store cc q = dispatch (S fuel') has_store cc q.
Proof.
  intros Hq. destruct q as [|a q]; [done|]. pose proof (queueable_name _ Hq) as Hx.
  cbn [Dispatch.dispatch]. destruct (registry !! ToUpper (Str a)) as [c|] eqn:Hc; [|done].
  apply registry_iff in Hc as [Hin Hname]. pose proof commands_need_no_dispatch as Hall.
  rewrite list.Forall_forall in Hall. destruct (Hall c Hin) as [He|He].
  - destruct Hx. simpl. congruence.
  - by rewrite (He _ (dispatch fuel) (dispatch fuel')).
Qed.

Definition queued_reply : Value := SimpleString "QUEUED".
Definition ok_reply : Value := SimpleString "OK".

Lemma queueing has_store cc q :
  InMulti cc = true → queueable q →
  QueueOrDispatch has_store cc q = ok (with_multi true (QueuedCmds cc ++ [q]) cc, queued_reply).
Proof.
  intros Hm Hq. unfold QueueOrDispatch. rewrite Hm. cbn [negb]. destruct q as [|a q]; [done|].
  destruct Hq as (Hx & Hmulti & c & Hc & Hmin). cbv zeta. rewrite decide_False by done.
  rewrite decide_False by done. rewrite Hc. by rewrite decide_False by lia.
Qed.

(** The loop body of a transcript. *)
Abbreviation answer step := (λ '(cc, rs) args,
  '(cc, r) ⇐? step cc args;
  ok (cc, rs ++ [r])).

Lemma answer_ok (step : ClientConn → list Value → prog (result (ClientConn * Value))) cc rs q cmds cc' r :
  step cc q = ok (cc', r) →
  for_each (q :: cmds) (cc, rs) (answer step) = for_each cmds (cc', rs ++ [r]) (answer step).
Proof. intros Hs. simpl. by rewrite Hs. Qed.

Lemma queueing_all has_store cc rs cmds :
  InMulti cc = true → Forall queueable cmds →
  for_each cmds (cc, rs) (answer (QueueOrDispatch has_store)) =
    ok (with_multi true (QueuedCmds cc ++ cmds) cc, rs ++ replicate (length cmds) queued_reply).
Proof.
  intros Hm Hq. revert cc rs Hm. induction Hq as [|q cmds Hq Hcmds IH]; intros cc rs Hm.
  - simpl. rewrite !app_nil_r. by destruct cc as [db m q a]; simpl in Hm; subst m.
  - erewrite answer_ok by (by apply queueing). rewrite IH by done. simpl. by rewrite <- !app_assoc.
Qed.

Ltac right_of_commands := unfold commands; rewrite !elem_of_app; do 7 right.

Lemma dispatch_MULTI has_store cc :
  InMulti cc = false →
  QueueOrDispatch has_store cc [BulkString "MULTI"] = ok (with_multi true [] cc, ok_reply).
Proof.
  intros Hm. unfold QueueOrDispatch. rewrite Hm. cbn [negb]. unfold Dispatch.Dispatch.
  rewrite (dispatch_registered (plain "MULTI" 1 1 cmdMulti)); [|right_of_commands; by left|done|..|by simpl; lia].
  - cbn [Exec plain]. unfold cmdMulti. by rewrite Hm.
  - reflexivity.
  - by simpl; lia.
Qed.

Lemma dispatch_EXEC has_store cc :
  InMulti cc = true →
  QueueOrDispatch has_store cc [BulkString "EXEC"] =
    ('(cc', rs) ⇐? transcript (dispatch 1 has_store) (with_multi false [] cc) (QueuedCmds cc);
     ok (cc', Array rs)).
Proof.
  intros Hm. unfold QueueOrDispatch. rewrite Hm. cbn [negb]. cbv zeta.
  rewrite decide_True by (left; reflexivity). unfold Dispatch.Dispatch.
  rewrite (dispatch_registered (mkCmd "EXEC" 1 1 cmdExec)); [|right_of_commands; right; by left|done|..|by simpl; lia].
  - cbn [Exec]. unfold cmdExec. rewrite Hm. reflexivity.
  - reflexivity.
  - by simpl; lia.
Qed.

(** C3: MULTI, then commands, then EXEC behaves, on every engine, as the commands
    sent by themselves: the same database calls in the same order, the same
    connection after, each reply QUEUED and the replies of the commands in
    EXEC's array. In particular they are no database transaction. *)
Theorem multi_exec has_store cc cmds :
  conn_ok cc → InMulti cc = false → Forall queueable cmds →
  transcript (QueueOrDispatch has_store) cc ([[BulkString "MULTI"]] ++ cmds ++ [[BulkString "EXEC"]]) ≡
  ('(cc', rs) ⇐? transcript (Dispatch has_store) cc cmds;
   ok (cc', [ok_reply] ++ replicate (length cmds) queued_reply ++ [Array rs])).
Proof.
  intros (_ & Hempty & _) Hm Hq. unfold transcript at 1. rewrite <- app_comm_cons, app_nil_l.
  erewrite answer_ok by (by apply dispatch_MULTI). rewrite for_each_app, queueing_all by done.
  rewrite err_bind_ok_l. unfold for_each at 1. rewrite dispatch_EXEC by done.
  assert (with_multi false [] (with_multi true (QueuedCmds (with_multi true [] cc) ++ cmds)
    (with_multi true [] cc)) = cc) as ->.
  { destruct cc; simpl in *. by rewrite Hm, Hempty. }
  rewrite !err_bind_assoc. apply err_bind_proper.
  - apply for_each_proper. intros [cc' rs] q Hin. rewrite list.Forall_forall in Hq.
    by rewrite (dispatch_queued 0 1) by auto.
  - intros [cc' rs]. done.
Qed.

(** ** What a client reads is what it wrote *)

Lemma dispatch_store name min max h cc args :
  data name min max h ∈ commands → InMulti cc = false → args ≠ [] → name_of args = name →
  min ≤ Z.of_nat (length args) → ¬ (0 ≤ max ∧ max < Z.of_nat (length args)) →
  QueueOrDispatch true cc args = (r ⇐? h (cc_DB cc) args; ok (cc, r)).
Proof.
  intros Hin Hm Hne Hname Hmin Hmax. unfold QueueOrDispatch. rewrite Hm. cbn [negb].
  unfold Dispatch.Dispatch. by rewrite (dispatch_registered (data name min max h)).
Qed.

Ltac in_strings n :=
  unfold commands; rewrite !elem_of_app; left; apply (list_elem_of_lookup_2 _ n); reflexivity.

Section set_get.
Context (F : Prop) (reliable : ¬ F) (ns : Z) (key value : string) (db : Z).
Abbreviation now := (unix_milli ns).

Lemma wp_cmdSet σ :
  ready ns σ →
  (∀ e, abs now (com σ) !! (key, db) = Some e → type_name (e_val e) = "string") →
  wp F (cmdSet db [BulkString "SET"; BulkString key; BulkString value]) (λ r σ',
    r = inr ok_reply ∧ ready ns σ' ∧
    abs now (com σ') !! (key, db) = Some (mkEntry (RStr value) None)) σ.
Proof.
  intros Hr Htype.
  change (cmdSet db _) with (on_store (Set_ key db value no_options) (λ done : bool,
    ok (if done then SimpleString "OK" else NullBulkString))).
  assert (expect "string" (set_spec now value no_options) (abs now (com σ) !! (key, db))
    = (inr true, Some (mkEntry (RStr value) None))) as Hspec.
  { unfold expect. destruct (abs now (com σ) !! (key, db)) as [e|]; [|done].
    by rewrite decide_True by by apply Htype. }
  eapply wp_seq; [by apply meets_Set|]. intros r σ' [Hr' [Hok|[? _]]]; [|done]. simpl in Hok.
  rewrite Hspec in Hok. destruct Hok as [-> Ha]. apply wp_ret. split; [done|]. split; [done|].
  rewrite Ha. apply lookup_partial_alter_eq.
Qed.

Lemma wp_cmdGet σ :
  ready ns σ → abs now (com σ) !! (key, db) = Some (mkEntry (RStr value) None) →
  wp F (cmdGet db [BulkString "GET"; BulkString key]) (λ r _, r = inr (BulkString value)) σ.
Proof.
  intros Hr He. change (cmdGet db _) with (on_store (Get key db) (λ v, ok (found v))).
  eapply wp_seq; [by apply meets_Get|]. intros r σ' [Hr' [Hok|[? _]]]; [|done]. simpl in Hok.
  rewrite He in Hok. by destruct Hok as [-> _].
Qed.
End set_get.

(** C16: SET, then GET, over the wire protocol's commands and down to the tables: on
    an engine that does not fail the value read is the value written, when the
    key was absent, expired or a string. *)
Theorem set_then_get `{Engine E} (w : E) ns cc key value :
  ready ns (view w) → ¬ faulty E → InMulti cc = false →
  (∀ e, abs (unix_milli ns) (com (view w)) !! (key, cc_DB cc) = Some e → type_name (e_val e) = "string") →
  (run (transcript (QueueOrDispatch true) cc
    [[BulkString "SET"; BulkString key; BulkString value]; [BulkString "GET"; BulkString key]]) w).1 =
  inr (cc, [ok_reply; BulkString value]).
Proof.
  intros Hr HF Hm Htype.
  assert (wp (faulty E) (transcript (QueueOrDispatch true) cc
    [[BulkString "SET"; BulkString key; BulkString value]; [BulkString "GET"; BulkString key]])
    (λ r _, r = inr (cc, [ok_reply; BulkString value])) (view w)) as Hwp.
  { unfold transcript. cbn [for_each]. apply wp_err_bind, wp_err_bind.
    rewrite (dispatch_store "SET" 3 (-1) cmdSet); [|by in_strings 1%nat|done|done|reflexivity|by simpl; lia..].
    apply wp_err_bind. eapply wp_mono; [|by apply wp_cmdSet]. intros r σ (-> & Hr' & Hkey). apply wp_ret.
    apply wp_err_bind, wp_err_bind.
    rewrite (dispatch_store "GET" 2 2 cmdGet); [|by in_strings 0%nat|done|done|reflexivity|by simpl; lia..].
    apply wp_err_bind. eapply wp_mono; [|by eapply wp_cmdGet]. intros r σ'' ->. by apply wp_ret. }
  apply wp_run in Hwp. by destruct (run _ w).
Qed.
End session.

(** ** Witnesses *)

#[local] Existing Instance ascii_only.

Lemma multi_exec_witness :
  let cmds := [[BulkString "incr"; BulkString "n"]; [BulkString "GET"; BulkString "n"]] in
  (run (transcript (QueueOrDispatch 0 true) (NewClientConn true)
    ([[BulkString "MULTI"]] ++ cmds ++ [[BulkString "EXEC"]])) sample).1 =
    inr (NewClientConn true, [ok_reply; queued_reply; queued_reply; Array [Integer 11; BulkString "11"]]) ∧
  transcript (QueueOrDispatch 0 true) (NewClientConn true)
    ([[BulkString "MULTI"]] ++ cmds ++ [[BulkString "EXEC"]]) ≡
  ('(cc', rs) ⇐? transcript (Dispatch 0 true) (NewClientConn true) cmds;
   ok (cc', [ok_reply] ++ replicate (length cmds) queued_reply ++ [Array rs])).
Proof. intros cmds. split; [by vm_compute|]. apply multi_exec; [apply NewClientConn_ok|done|].
  repeat (apply list.Forall_cons; split); [..|by apply list.Forall_nil].
  - split; [by intros [?|[?|?]]|]. split; [done|]. exists (data "INCR" 2 2 cmdIncr).
    split; [|done]. apply registry_iff. split; [|done]. apply (list_elem_of_lookup_2 _ 17%nat); reflexivity.
  - split; [by intros [?|[?|?]]|]. split; [done|]. exists (data "GET" 2 2 cmdGet).
    split; [|done]. apply registry_iff. split; [|done]. apply (list_elem_of_lookup_2 _ 0%nat); reflexivity. Defined.

Lemma set_then_get_witness :
  (run (transcript (QueueOrDispatch 0 true) (NewClientConn true)
    [[BulkString "SET"; BulkString "n"; BulkString "v"]; [BulkString "GET"; BulkString "n"]]) sample).1 =
  inr (NewClientConn true, [ok_reply; BulkString "v"]).
Proof. apply (set_then_get 0 sample sample_ns (NewClientConn true)); [apply sample_ready|by intros []|done|].
  intros e He. vm_compute in He. by simplify_eq. Defined.
