(* ===== verification/Confined.v ===== *)
(** Every command keeps to the protocol of its database connection and, unless
    it is about all databases, to the keys of the connection's database. *)
From S2P Require Import Prelude GoStd Float Sql Effects Behaviour Keyspace Locality Protocol Sample Store StoreKeys StoreStrings StoreLists StoreHashes StoreSets StoreZsets Glob Resp Commands CmdData Dispatch Session.
Local Open Scope Z_scope.
Local Open Scope go_scope.

(** The keys of one database. *)
Definition in_db (db : Z) : kid → Prop := λ k, k.2 = db.

#[export] Instance in_db_dec db k : Decision (in_db db k).
Proof. unfold in_db. apply _. Defined.

(** Any result. *)
Definition anything {A} : A → Prop := λ _, True.

(** ** Loops *)

Lemma for_each_confined K {X A} (l : list X) acc (body : A → X → prog (result A)) (Q : result A → bool → Prop) o :
  (∀ acc x, x ∈ l → conforms K (body acc x)
     (λ r o', o' = o ∧ match r with inl e => Q (inl e) o | inr _ => True end) o) →
  (∀ acc, Q (inr acc) o) → conforms K (for_each l acc body) Q o.
Proof. intros Hbody HQ. by apply (conforms_for_each K (λ _, True)); auto. Qed.

(** A statement or a query in the footprint of its database. *)
Ltac within := first
  [ exact I | reflexivity
  | split; [reflexivity|simpl; first [reflexivity | by split | by intros ? ?]] ].

Ltac head t := lazymatch t with ?f _ => head f | _ => t end.

(** One call or branch of a program after the other. *)
Ltac confine_step :=
  lazymatch goal with
  | |- operation _ _ _ => unfold operation
  | |- conforms _ (err_bind _ _) _ _ => apply conforms_err_bind
  | |- conforms _ (bind _ _) _ _ => apply conforms_bind
  | |- conforms _ (trigger _) _ _ => apply conforms_trigger; [within|intros ?; cbn [opened]]
  | |- conforms _ (exec _ _) _ _ => apply conforms_exec; [within|intros [?|?]]
  | |- conforms _ (query_all _ _) _ _ => apply conforms_query_all; [within|intros [?|?]]
  | |- conforms _ (query_row _ _) _ _ => apply conforms_query_row; [within|intros [?| |?]]
  | |- conforms _ (with_tx _) _ _ => apply conforms_with_tx; [|intros ?]
  | |- conforms _ commit _ _ => apply conforms_commit; intros [?|?]
  | |- conforms _ (for_each _ _ _) _ _ => apply for_each_confined; [intros ? ? ?|intros ?]
  | |- conforms _ (ok _) _ _ => cbn [conforms ok]
  | |- conforms _ (err _) _ _ => cbn [conforms err]
  | |- conforms _ (Ret _) _ _ => cbn [conforms]
  | |- conforms _ (match ?x with _ => _ end) _ _ => destruct x
  | |- conforms _ (let '(_, _) := ?x in _) _ _ => destruct x
  | |- conforms _ (if ?b then _ else _) _ _ => destruct b
  | |- conforms _ ?p _ _ => let h := head p in progress unfold h
  | |- match ?x with _ => _ end => destruct x
  | |- closed _ _ _ => split
  | |- _ ∧ _ => split
  | |- _ => first [exact I | reflexivity]
  end.
Ltac confine := repeat (confine_step; cbv beta iota zeta).

(** ** The store's operations that the tactic needs help with *)

Lemma copy_stmt_within db src dst typ s :
  copy_stmt typ (dst, db) (src, db) = Some s → stmt_within (in_db db) s.
Proof. unfold copy_stmt. intros Hs. repeat case_decide; simplify_eq; by split. Qed.

Lemma Rename_confined src dst db : operation (in_db db) anything (Rename src dst db).
Proof.
  unfold Rename. repeat lazymatch goal with
  | |- conforms _ (match copy_stmt ?t ?d ?s with _ => _ end) _ _ =>
      destruct (copy_stmt t d s) eqn:Hcopy; [apply copy_stmt_within in Hcopy; apply conforms_exec; [by split|intros [?|?]]|]
  | |- _ => progress (confine_step; cbv beta iota zeta)
  end.
Qed.

Section unicode.
Context `{Unicode}.

Lemma set_options_confined K args opts : operation K anything (set_options args opts).
Proof.
  revert opts. induction args as [args IH] using (induction_ltof1 _ length); unfold ltof in IH. intros opts.
  destruct args as [|a rest]; cbn [set_options]; [by split|].
  repeat lazymatch goal with
  | |- conforms _ (set_options _ _) _ _ => apply IH; simpl; lia
  | |- _ => progress (confine_step; cbv beta iota zeta)
  end.
Qed.

Lemma mset_loop_confined db args : operation (in_db db) anything (mset_loop db args).
Proof.
  induction args as [args IH] using (induction_ltof1 _ length); unfold ltof in IH.
  destruct args as [|k [|v rest]]; cbn [mset_loop]; [by split..|].
  repeat lazymatch goal with
  | |- conforms _ (mset_loop _ _) _ _ => apply IH; simpl; lia
  | |- _ => progress (confine_step; cbv beta iota zeta)
  end.
Qed.

End unicode.

(** ** Handlers *)

Ltac confine_handler :=
  repeat lazymatch goal with
  | |- conforms _ (set_options _ _) _ _ => eapply conforms_operation; [apply set_options_confined|intros ? _]
  | |- conforms _ (mset_loop _ _) _ _ => apply mset_loop_confined
  | |- conforms _ (Rename _ _ _) _ _ => eapply conforms_operation; [apply Rename_confined|intros ? _]
  | |- _ => progress (confine_step; cbv beta iota zeta)
  end.

(** ** Footprints of commands *)

Section footprints.
Context `{Unicode}.

(** The commands about every database, and those after which a queued command
    may be about another one. *)
Definition roaming : list string := ["FLUSHALL"; "INFO"].
Definition moving : list string := ["SELECT"; "EXEC"] ++ roaming.

(** [args] is about the connection's database only. *)
Definition at_home (cc : ClientConn) (args : list Value) : Prop :=
  name_of args ∉ roaming ∧ (name_of args = "EXEC" → Forall (λ q, name_of q ∉ moving) (QueuedCmds cc)).

#[export] Instance at_home_dec cc args : Decision (at_home cc args).
Proof. unfold at_home. apply _. Defined.

(** The keys a command may read or write. *)
Definition reach (cc : ClientConn) (args : list Value) : kid → Prop := λ k,
  at_home cc args → in_db (cc_DB cc) k.

(** Only SELECT takes the connection to another database. *)
Definition settled (cc : ClientConn) (args : list Value) (r : result (ClientConn * Value)) : Prop :=
  match r with
  | inr (cc', _) => at_home cc args → name_of args ≠ "SELECT" → cc_DB cc' = cc_DB cc
  | inl _ => True
  end.

Definition covers (K : kid → Prop) (cc : ClientConn) (args : list Value) : Prop :=
  (∀ k, in_db (cc_DB cc) k → K k) ∧ (¬ at_home cc args → ∀ k, K k).

Definition confined (c : Cmd) : Prop := ∀ K pkg has_store cc args,
  name_of args = Name c → covers K cc args →
  (∀ q cc', q ∈ QueuedCmds cc → covers K cc' q →
    operation K (settled cc' q) (pkg_Dispatch pkg has_store cc' q)) →
  operation K (settled cc args) (Exec c pkg has_store cc args).

(** A handler of data stays in the database it is given. *)
Definition stays (h : storeHandler) : Prop := ∀ db args, operation (in_db db) anything (h db args).

Lemma settled_same cc args r : settled cc args (inr (cc, r)).
Proof. done. Qed.

Lemma operation_reply K (p : prog (result Value)) cc args :
  operation K anything p → operation K (settled cc args) (r ⇐? p; ok (cc, r)).
Proof. intros Hp. eapply operation_bind; [exact Hp|]. by intros [e|r] _. Qed.

Lemma confined_data name min max h : stays h → confined (data name min max h).
Proof.
  intros Hh K pkg has_store cc args _ [HK _] _. simpl. unfold withStore. destruct has_store; [|by split].
  apply operation_reply. eapply conforms_grow; [exact HK|apply Hh].
Qed.

(** A command about everything. *)
Lemma confined_roaming name min max h :
  name ∈ roaming → (∀ db args, operation (λ _, True) anything (h db args)) → confined (data name min max h).
Proof.
  intros Hin Hh K pkg has_store cc args Hname [_ HK] _. simpl in *. unfold withStore.
  destruct has_store; [|by split]. apply operation_reply. eapply conforms_grow; [|apply Hh].
  intros k _. apply HK. intros [Hn _]. by rewrite Hname in Hn.
Qed.

(** A command that makes no call. *)
Lemma confined_plain name min max h :
  (∀ pkg args, operation (λ _, False) anything (h pkg args)) →
  confined (mkCmd name min max (λ pkg, replying (h pkg))).
Proof.
  intros Hh K pkg has_store cc args _ _ _. apply operation_reply. eapply conforms_grow; [|apply Hh]. by intros.
Qed.
End footprints.

Section commands.
Context `{Unicode} (startTime : Z).
Abbreviation commands := (commands startTime).

Lemma confined_INFO : confined (plain "INFO" 1 2 (withOptionalStore (cmdInfo startTime))).
Proof.
  intros K pkg has_store cc args Hname [_ HK] _. apply operation_reply.
  apply (conforms_grow (λ _, True));
    [intros k _; apply HK; intros [Hn _]; rewrite Hname in Hn; apply Hn; set_solver|].
  unfold cmdInfo. confine.
Qed.

Lemma confined_EXEC : confined (mkCmd "EXEC" 1 1 cmdExec).
Proof.
  intros K pkg has_store cc args Hname [Hdb HK] Hpkg. simpl in *. unfold cmdExec.
  destruct (InMulti cc); cbn [negb]; [|by split].
  set (I := λ a : ClientConn * list Value, at_home cc args → cc_DB a.1 = cc_DB cc).
  apply conforms_err_bind. unfold exec_queued. apply (conforms_for_each K I).
  - by intros _.
  - intros [cc' rs] q Hq HI. unfold I in HI. cbn [fst] in HI. apply conforms_err_bind.
    assert (at_home cc args → at_home cc' q) as Hq'.
    { intros [_ Hall]. specialize (Hall Hname). rewrite list.Forall_forall in Hall. specialize (Hall q Hq).
      unfold moving in Hall. split; [set_solver|]. intros Hx. rewrite Hx in Hall. set_solver. }
    eapply conforms_operation; [apply Hpkg; [done|]|].
    + destruct (decide (at_home cc args)) as [Hh|Hh].
      * split; [by rewrite (HI Hh)|]. intros Hn. by destruct Hn; apply Hq'.
      * split; intros; by apply HK.
    + intros [e|[cc'' r]] Hset; (split; [done|]); [by split|]. intros Hh. simpl in *.
      rewrite <- (HI Hh). apply Hset; [by apply Hq'|]. intros Hx. destruct Hh as [_ Hall].
      specialize (Hall Hname). rewrite list.Forall_forall in Hall. specialize (Hall q Hq).
      rewrite Hx in Hall. unfold moving in Hall. set_solver.
  - intros [cc' rs] HI. split; [done|]. intros Hh _. by apply HI.
Qed.

Lemma commands_confined : Forall confined commands.
Proof.
  each_command;
  try lazymatch goal with
  | |- confined (data "FLUSHALL" _ _ _) => apply confined_roaming; [set_solver|intros; confine]
  | |- confined (data _ _ _ ?h) =>
      apply confined_data; intros ? ?; confine_handler
  end.
  - intros K pkg has_store cc args Hname _ _. simpl in *. unfold cmdSelect. confine; by intros ? [].
  - apply (confined_plain _ _ _ (λ _, cmdPing)). intros. unfold cmdPing. confine.
  - apply (confined_plain _ _ _ (λ _, cmdEcho)). intros. unfold cmdEcho. confine.
  - apply (confined_plain _ _ _ (λ _, cmdQuit)). intros. confine.
  - apply confined_plain. intros. unfold cmdCommand. confine.
  - apply confined_INFO.
  - intros K pkg has_store cc args _ _ _. simpl. unfold cmdMulti. confine; done.
  - apply confined_EXEC.
  - intros K pkg has_store cc args _ _ _. simpl. unfold cmdDiscard. confine; done.
Qed.

Lemma dispatch_confined fuel K has_store cc args :
  covers K cc args →
  (∀ q cc', q ∈ QueuedCmds cc → covers K cc' q → operation K (settled cc' q) (dispatch startTime fuel has_store cc' q)) →
  operation K (settled cc args) (dispatch startTime (S fuel) has_store cc args).
Proof.
  intros HK Hq. cbn [dispatch]. destruct args as [|a args]; [by split|]. cbv zeta.
  destruct (registry startTime !! _) as [c|] eqn:Hc; [|by split].
  repeat (case_decide; [by split|]). apply registry_iff in Hc as [Hin Hname].
  pose proof commands_confined as Hall. rewrite list.Forall_forall in Hall.
  by apply (Hall c Hin).
Qed.

Lemma covers_reach cc args : covers (reach cc args) cc args.
Proof. split; [by intros k Hk _|]. by intros Hn k Hh. Qed.

Lemma QueueOrDispatch_confined has_store cc args :
  operation (reach cc args) (settled cc args) (QueueOrDispatch startTime has_store cc args).
Proof.
  assert (operation (reach cc args) (settled cc args) (Dispatch startTime has_store cc args)) as Hd.
  { apply dispatch_confined; [apply covers_reach|]. intros q cc' _ HK.
    apply dispatch_confined; [done|]. intros q' cc'' _ _. by split. }
  unfold QueueOrDispatch. destruct (InMulti cc); cbn [negb]; [|exact Hd]. cbv zeta.
  case_decide; [exact Hd|]. case_decide; [by split|].
  destruct (registry startTime !! _); [|by split]. case_decide; by split.
Qed.

(** C4: Every command line, whatever the database answers, uses its connection in
    order (no call on [s.db] while it holds a transaction, none on a [tx] that
    is over, no transaction left open) and reads and writes only keys of the
    connection's database, unless it is FLUSHALL, INFO or an EXEC of a queue
    with one of these or SELECT in it. *)
Theorem command_protocol has_store cc args :
  operation (reach cc args) (settled cc args) (QueueOrDispatch startTime has_store cc args).
Proof. apply QueueOrDispatch_confined. Qed.
End commands.
