(* ===== verification/Lawful.v ===== *)
(** Every command is lawful: it writes keys of the five types only and panics
    on KEYS with an unterminated class only, whatever the clock shows and
    whatever an intact database answers; and a command that reads removes
    nothing but expired keys. Hence what one command does on any engine, with
    a clock that moves under it. *)
From S2P Require Import Prelude GoStd Float Sql Effects Behaviour Keyspace Locality Protocol Calls Integrity Sample Store StoreKeys StoreStrings StoreLists StoreHashes StoreSets StoreZsets Glob Resp Commands CmdData Soundness Dispatch Session Confined.
Local Open Scope Z_scope.
Local Open Scope go_scope.

Create HintDb lawful discriminated.

(** ** Calls *)

(** What a policy says of a call at hand. *)
Ltac permit := first
  [ exact I
  | cbn; exact I
  | cbn; apply (bool_decide_unpack _); vm_compute; exact I
  | cbn; eexists; split; [eassumption|reflexivity] ].

Lemma obeys_on_store π {A} (p : prog (result A)) k Q :
  obeys π p (λ r, match r with
    | inl Panic => Q (inl Panic) | inl e => Q (inr (storeErr e)) | inr a => obeys π (k a) Q end) →
  obeys π (on_store p k) Q.
Proof. intros Hp. apply obeys_bind. eapply obeys_mono; [|exact Hp]. by intros [[]|a]. Qed.

(** One call or branch of a program after the other. *)
Ltac obey_step :=
  lazymatch goal with
  | |- obeys _ (err_bind _ _) _ => apply obeys_err_bind
  | |- obeys _ (bind _ _) _ => apply obeys_bind
  | |- obeys _ (trigger _) _ => apply obeys_trigger; [permit|intros ? ?]
  | |- obeys _ (exec _ _) _ => apply obeys_exec; [permit|intros ?|intros ?]
  | |- obeys _ (query_all _ _) _ => apply obeys_query_all; [permit|intros ?|intros ? _]
  | |- obeys _ (query_row _ _) _ => apply obeys_query_row; [permit|intros ?| |intros ? ? _]
  | |- obeys _ (with_tx _) _ => apply obeys_with_tx; [permit|permit|intros ?|]
  | |- obeys _ commit _ => apply obeys_commit; [permit|intros ?|]
  | |- obeys _ (for_each _ _ _) _ => apply obeys_for_each; [intros ? ? ?|intros ?]
  | |- obeys _ (on_store _ _) _ => apply obeys_on_store
  | |- obeys _ (ok _) _ => cbn [obeys ok]
  | |- obeys _ (err _) _ => cbn [obeys err]
  | |- obeys _ (Ret _) _ => cbn [obeys]
  | |- obeys _ (match ?x with _ => _ end) _ => destruct x
  | |- obeys _ (let '(_, _) := ?x in _) _ => destruct x
  | |- obeys _ (if ?b then _ else _) _ => destruct b
  | |- obeys _ ?p _ => let h := head p in progress unfold h
  | |- match ?x with _ => _ end => destruct x
  | |- sane _ => by intros [=]
  | |- _ => first [exact I | done]
  end.
Ltac obey := repeat (obey_step; cbv beta iota zeta).

(** ** The store *)

Section store.
Context (key : string) (db : Z).

(** An operation that writes keys of the five types, and does not panic. *)
Abbreviation acts p := (obeys lawful p sane).

Lemma acts_call {A} (p : prog (result A)) Q :
  acts p → (∀ e, e ≠ Panic → Q (inl e)) → (∀ a, Q (inr a)) → obeys lawful p Q.
Proof. intros Hp Herr Hok. eapply obeys_call; [exact Hp|]. intros [e|a] Hr; [apply Herr; congruence|apply Hok]. Qed.

Lemma acts_checked {A B} (o : option A) (f : A → prog (result B)) a :
  o = Some a → acts (f a) → acts (err_bind (checked o) f).
Proof. by intros ->. Qed.

Lemma acts_deleteExpired k : acts (deleteExpired k db).
Proof. obey. Qed.

Lemma acts_assertType typ : acts (assertType key db typ).
Proof. obey. Qed.

Lemma acts_Get : acts (Get key db).
Proof. obey. Qed.
Lemma acts_Set value opts : acts (Set_ key db value opts).
Proof. obey. Qed.
Lemma acts_Del keys : acts (Del keys db).
Proof. obey. Qed.
Lemma acts_Exists keys : acts (Exists_ keys db).
Proof. obey. Qed.
Lemma acts_Expire n : acts (Expire key db n).
Proof. obey. Qed.
Lemma acts_PExpire n : acts (PExpire key db n).
Proof. obey. Qed.
Lemma acts_TTL : acts (TTL key db).
Proof. obey. Qed.
Lemma acts_PTTL : acts (PTTL key db).
Proof. obey. Qed.
Lemma acts_Persist : acts (Persist key db).
Proof. obey. Qed.
Lemma acts_Type : acts (Store.Type_ key db).
Proof. obey. Qed.
Lemma acts_DBSize : acts (DBSize db).
Proof. obey. Qed.
Lemma acts_FlushDB : acts (FlushDB db).
Proof. obey. Qed.
Lemma acts_FlushAll : acts FlushAll.
Proof. obey. Qed.
Lemma acts_RandomKey : acts (RandomKey db).
Proof. obey. Qed.
Lemma acts_SweepExpired : acts SweepExpired.
Proof. obey. Qed.

(** RENAME writes the type it has read. *)
Lemma acts_Rename src dst : acts (Rename src dst db).
Proof.
  unfold Rename. apply obeys_err_bind, (acts_call _ _ (acts_deleteExpired _)); [congruence|intros _]. apply obeys_bind.
  apply obeys_query_row; [permit|intros ?; obey|obey|]. intros [typ exp] rows Hrows. cbn in Hrows.
  apply list.Forall_cons in Hrows as [Htyp _]. apply obeys_with_tx; [permit|permit|obey|].
  apply obeys_bind. apply obeys_exec; [permit|intros ?|intros ?].
  all: apply obeys_err_bind, obeys_exec; [exact Htyp|obey|intros ?].
  all: apply obeys_err_bind.
  all: assert (∀ Q : result Z → Prop, (∀ e, Q (inl (ErrDb e))) → (∀ n, Q (inr n)) →
    obeys lawful (match copy_stmt typ (dst, db) (src, db) with Some s => exec TX s | None => ok 0 end) Q) as Hcopy
    by (intros Q Herr Hok; unfold copy_stmt; repeat case_decide; try (apply obeys_exec; [permit|done..]); apply Hok).
  all: apply Hcopy; [obey|intros ?]; obey.
Qed.

Lemma acts_IncrBy n : acts (IncrBy key db n).
Proof. obey. Qed.
Lemma acts_Append s : acts (Append key db s).
Proof. obey. Qed.
Lemma acts_StrLen : acts (StrLen key db).
Proof. obey. Qed.

(** *** Lists *)

Lemma acts_lRewrite values : acts (lRewrite key db values).
Proof. obey. Qed.

Lemma acts_LPush vs : acts (LPush key db vs).
Proof. obey. Qed.
Lemma acts_RPush vs : acts (RPush key db vs).
Proof. obey. Qed.
Lemma acts_LLen : acts (LLen key db).
Proof. obey. Qed.
Lemma acts_LRem n v : acts (LRem key db n v).
Proof. obey. Qed.

(** The prologue of the operations on an existing list. *)
Lemma acts_on_list {B} (f : list string → prog (result B)) :
  (∀ l, acts (f l)) →
  acts (_ ⇐? deleteExpired key db; _ ⇐? lAssert key db; all ⇐? lAll key db; f all).
Proof.
  intros Hf. apply obeys_err_bind, (acts_call _ _ (acts_deleteExpired _)); [congruence|intros _].
  apply obeys_err_bind, (acts_call _ _ (acts_assertType _)); [congruence|intros _].
  apply obeys_err_bind, obeys_query_all; [permit|obey|]. intros l _. apply Hf.
Qed.

Lemma acts_LPop : acts (LPop key db).
Proof.
  apply acts_on_list. intros [|x l]; [obey|]. cbv zeta. rewrite decide_False by (simpl; lia).
  destruct (pop_front_in_range x l) as [Hi Hs]. eapply acts_checked; [exact Hi|]. eapply acts_checked; [exact Hs|]. obey.
Qed.
Lemma acts_RPop : acts (RPop key db).
Proof.
  apply acts_on_list. intros [|x l]; [obey|]. cbv zeta. rewrite decide_False by (simpl; lia).
  destruct (pop_back_in_range (x :: l)) as (y & _ & Hi & Hs); [done|].
  eapply acts_checked; [exact Hi|]. eapply acts_checked; [exact Hs|]. obey.
Qed.
Lemma acts_LRange i j : acts (LRange key db i j).
Proof. apply acts_on_list. intros l. rewrite range_slice_correct. obey. Qed.
Lemma acts_LIndex i : acts (LIndex key db i).
Proof.
  apply acts_on_list. intros l. cbv zeta. destruct (element_at_checked l i) as [[Hi _]|(Hi & v & Hg & _)]; fold (from_end (Z.of_nat (length l)) i).
  - rewrite decide_True by done. obey.
  - rewrite decide_False by done. eapply acts_checked; [exact Hg|]. obey.
Qed.
Lemma acts_LSet i v : acts (LSet key db i v).
Proof.
  apply acts_on_list. intros l. cbv zeta. destruct (element_at_checked l i) as [[Hi _]|(Hi & w & _ & _ & Hu)]; fold (from_end (Z.of_nat (length l)) i).
  - rewrite decide_True by done. obey.
  - rewrite decide_False by done. eapply acts_checked; [exact (Hu v)|]. obey.
Qed.
Lemma acts_LInsert before pivot v : acts (LInsert key db before pivot v).
Proof.
  apply acts_on_list. intros l. cbv zeta. case_decide as Hp; [obey|].
  destruct (insert_at_in_range before pivot l Hp) as [Hf Hb].
  eapply acts_checked; [exact Hf|]. eapply acts_checked; [exact Hb|]. obey.
Qed.

(** *** Hashes, sets, sorted sets *)

Lemma acts_HSet pairs : acts (HSet key db pairs).
Proof. obey. Qed.
Lemma acts_HGet f : acts (HGet key db f).
Proof. obey. Qed.
Lemma acts_HDel fs : acts (HDel key db fs).
Proof. obey. Qed.
Lemma acts_HExists f : acts (HExists key db f).
Proof. obey. Qed.
Lemma acts_HGetAll : acts (HGetAll key db).
Proof. obey. Qed.
Lemma acts_HKeys : acts (HKeys key db).
Proof. obey. Qed.
Lemma acts_HVals : acts (HVals key db).
Proof. obey. Qed.
Lemma acts_HLen : acts (HLen key db).
Proof. obey. Qed.
Lemma acts_HMGet fs : acts (HMGet key db fs).
Proof. obey. Qed.
Lemma acts_SAdd ms : acts (SAdd key db ms).
Proof. obey. Qed.
Lemma acts_SRem ms : acts (SRem key db ms).
Proof. obey. Qed.
Lemma acts_SMembers : acts (SMembers key db).
Proof. obey. Qed.
Lemma acts_SIsMember m : acts (SIsMember key db m).
Proof. obey. Qed.
Lemma acts_SCard : acts (SCard key db).
Proof. obey. Qed.
Lemma acts_SUnion ks : acts (SUnion ks db).
Proof. obey. Qed.
Lemma acts_SInter ks : acts (SInter ks db).
Proof. obey. Qed.
Lemma acts_SDiff ks : acts (SDiff ks db).
Proof. obey. Qed.

Context `{Unicode}.
Lemma acts_ZAdd ms opts : acts (ZAdd key db ms opts).
Proof. obey. Qed.
Lemma acts_ZRem ms : acts (ZRem key db ms).
Proof. obey. Qed.
Lemma acts_ZScore m : acts (ZScore key db m).
Proof. obey. Qed.
Lemma acts_ZRank m : acts (ZRank key db m).
Proof. obey. Qed.
Lemma acts_ZRange i j : acts (ZRange key db i j).
Proof. obey. Qed.

Lemma acts_parseScore s : acts (Ret (parseScore s)).
Proof.
  cbn [obeys]. destruct (parseScore s) as [e|] eqn:Hs; [|done].
  apply parseScore_safe in Hs as [? ->]. by intros [=].
Qed.

Lemma acts_ZRangeByScore lo hi : acts (ZRangeByScore key db lo hi).
Proof.
  apply obeys_err_bind, (acts_call _ _ (acts_deleteExpired _)); [congruence|intros _].
  apply obeys_err_bind, (acts_call _ _ (acts_assertType _)); [congruence|intros _].
  do 2 (apply obeys_err_bind, (acts_call _ _ (acts_parseScore _)); [congruence|intros [? ?]]). obey.
Qed.
Lemma acts_ZCard : acts (ZCard key db).
Proof. obey. Qed.
Lemma acts_ZCount lo hi : acts (ZCount key db lo hi).
Proof. apply obeys_err_bind, (acts_call _ _ (acts_ZRangeByScore _ _)); [congruence|intros l; obey]. Qed.
Lemma acts_ZIncrBy x m : acts (ZIncrBy key db x m).
Proof. obey. Qed.
End store.

#[export] Hint Resolve acts_Get acts_Set acts_Del acts_Exists acts_Expire acts_PExpire acts_TTL acts_PTTL
  acts_Persist acts_Type acts_DBSize acts_FlushDB acts_FlushAll acts_RandomKey acts_Rename acts_IncrBy
  acts_Append acts_StrLen acts_LPush acts_RPush acts_LLen acts_LRem acts_LPop acts_RPop acts_LRange
  acts_LIndex acts_LSet acts_LInsert acts_HSet acts_HGet acts_HDel acts_HExists acts_HGetAll acts_HKeys
  acts_HVals acts_HLen acts_HMGet acts_SAdd acts_SRem acts_SMembers acts_SIsMember acts_SCard
  acts_SUnion acts_SInter acts_SDiff acts_ZAdd acts_ZRem acts_ZScore acts_ZRank acts_ZRange
  acts_ZRangeByScore acts_ZCard acts_ZCount acts_ZIncrBy : lawful.

(** ** Handlers *)

(** [p] is lawful, and panics only if [bad]. *)
Definition acts (bad : Prop) {A} (p : prog (result A)) : Prop := obeys lawful p (λ r, r = inl Panic → bad).

Lemma acts_mono (bad bad' : Prop) {A} (p : prog (result A)) : (bad → bad') → acts bad p → acts bad' p.
Proof. intros Hb. apply obeys_mono. auto. Qed.

Section rules.
Context (bad : Prop).

Lemma acts_ok {A} (a : A) : acts bad (ok a).
Proof. by intros [=]. Qed.

Lemma acts_err_bind {A B} (p : prog (result A)) (f : A → prog (result B)) :
  acts bad p → (∀ a, acts bad (f a)) → acts bad (err_bind p f).
Proof. intros Hp Hf. apply obeys_err_bind. eapply obeys_mono; [|exact Hp]. intros [e|a] Hr; [|apply Hf]. intros [= ->]. auto. Qed.

Lemma acts_sane {A} (p : prog (result A)) : obeys lawful p sane → acts bad p.
Proof. apply obeys_mono. by intros r Hr ->. Qed.

Lemma acts_store {A} (p : prog (result A)) k :
  acts bad p → (∀ a, acts bad (k a)) → acts bad (on_store p k).
Proof.
  intros Hp Hk. apply obeys_on_store. eapply obeys_mono; [|exact Hp].
  intros [[]|a] Hr; try (by intros [=]); [intros _; by apply Hr|apply Hk].
Qed.

Lemma acts_arg args i : 0 ≤ i < Z.of_nat (length args) → acts bad (arg args i).
Proof.
  intros Hi. unfold arg, go_index. rewrite decide_True by lia.
  destruct (lookup_lt_is_Some_2 args (Z.to_nat i)) as [v ->]; [lia|]. by intros [=].
Qed.

Lemma acts_args_from args i : 0 ≤ i ≤ Z.of_nat (length args) → acts bad (args_from args i).
Proof. intros Hi. unfold args_from. rewrite go_slice_some by lia. by intros [=]. Qed.

Lemma acts_for_each {X A} (l : list X) (acc : A) (body : A → X → prog (result A)) :
  (∀ acc x, x ∈ l → acts bad (body acc x)) → acts bad (for_each l acc body).
Proof.
  intros Hbody. apply obeys_for_each; [|by intros ? [=]]. intros a x Hx. eapply obeys_mono; [|by apply Hbody].
  intros [e|b] Hr; [|done]. intros [= ->]. auto.
Qed.

Lemma acts_then {A B} (e : event A) (f : A → prog (result B)) :
  permits lawful e → (∀ a, acts bad (f a)) → acts bad (bind (trigger e) f).
Proof. intros He Hf. split; [done|]. intros a _. apply Hf. Qed.
End rules.

(** One step through a handler. *)
Ltac act_step :=
  lazymatch goal with
  | |- acts _ (err_bind _ _) => apply acts_err_bind; [|intros ?]
  | |- acts _ (on_store _ _) => apply acts_store; [|intros ?]
  | |- acts _ (ok _) => apply acts_ok
  | |- acts _ (arg _ _) => apply acts_arg; lia
  | |- acts _ (args_from _ _) => apply acts_args_from; lia
  | |- acts _ (for_each _ _ _) => apply acts_for_each; intros ? ? _
  | |- acts _ (bind (trigger _) _) => apply acts_then; [exact I|intros ?]
  | |- acts _ (int_arg _ _ _) => unfold int_arg
  | |- acts _ (two_ints _ _ _ _) => unfold two_ints
  | |- acts _ (if decide _ then _ else _) => case_decide
  | |- acts _ (if ?b then _ else _) => destruct b
  | |- acts _ (match parse_int ?s with _ => _ end) => destruct (parse_int s)
  | |- acts _ (match ParseFloat ?s with _ => _ end) => destruct (ParseFloat s)
  | |- acts _ _ => apply acts_sane; by eauto with lawful
  end.
Ltac act := repeat (act_step; cbv beta iota zeta).

Section handlers.
Context `{Unicode} (startTime : Z).
Abbreviation commands := (commands startTime).

(** A command on any arguments its registration allows; EXEC needs [Dispatch]
    to run what is queued. *)
Definition lawful_cmd (c : Cmd) : Prop := ∀ pkg has_store cc args,
  name_of args = Name c → MinArgs c ≤ Z.of_nat (length args) →
  (∀ q cc', q ∈ QueuedCmds cc → acts (keys_panics q) (pkg_Dispatch pkg has_store cc' q)) →
  acts (may_panic cc args) (Exec c pkg has_store cc args).

Lemma acts_reply bad (p : prog (result Value)) (cc : ClientConn) : acts bad p → acts bad (r ⇐? p; ok (cc, r)).
Proof. intros Hp. apply acts_err_bind; [done|]. intros r. apply acts_ok. Qed.

(** A handler that does not panic. *)
Lemma lawful_data name min max h :
  (∀ db args, min ≤ Z.of_nat (length args) → acts False (h db args)) → lawful_cmd (data name min max h).
Proof.
  intros Hh pkg has_store cc args _ Hargs _. simpl. unfold withStore. destruct has_store; [|apply acts_ok].
  apply acts_reply. by eapply acts_mono; [|apply Hh].
Qed.

Lemma acts_set_options {A} bad (f : Value + SetOptions → prog (result A)) args opts :
  (∀ o, acts bad (f o)) → acts bad (bind (set_options args opts) f).
Proof.
  intros Hf. revert args opts. fix IH 1. intros [|a args] opts; [apply Hf|]. cbn [set_options].
  repeat case_decide; try apply IH; try apply Hf.
  - destruct args as [|b args]; [apply Hf|]. destruct (parse_int (Str b)); [|apply Hf].
    case_decide; [apply Hf|]. split; [exact I|]. intros t _. apply IH.
  - destruct args as [|b args]; [apply Hf|]. destruct (parse_int (Str b)); [|apply Hf].
    case_decide; [apply Hf|]. split; [exact I|]. intros t _. apply IH.
Qed.

Lemma acts_mset_loop bad db args : paired args → acts bad (mset_loop db args).
Proof.
  revert args. apply (paired_ind (λ args, acts bad (mset_loop db args))); [apply acts_ok|].
  intros k v args IH. cbn [mset_loop]. apply acts_store; [apply acts_sane; auto with lawful|done].
Qed.

Lemma acts_pairs {A B} bad (o : option A) (f : A → prog (result B)) :
  is_Some o → (∀ a, acts bad (f a)) → acts bad (err_bind (checked o) f).
Proof. intros [a ->] Hf. apply Hf. Qed.

Lemma lawful_HSet : lawful_cmd (data "HSET" 4 (-1) cmdHSet).
Proof.
  apply lawful_data. intros db args Hargs. unfold cmdHSet. case_decide as Hr; [act|].
  apply acts_err_bind; [act|]. intros k. apply acts_pairs; [|intros ?; act].
  apply pairs_loop_even, (paired_drop _ 2); [lia|by destruct (decide (Z.rem (Z.of_nat (length args) - 2) 2 = 0))].
Qed.

Lemma lawful_HMSet : lawful_cmd (data "HMSET" 4 (-1) cmdHMSet).
Proof.
  apply lawful_data. intros db args Hargs. unfold cmdHMSet. case_decide as Hr; [act|].
  apply acts_err_bind; [act|]. intros k. apply acts_pairs; [|intros ?; act].
  apply pairs_loop_even, (paired_drop _ 2); [lia|by destruct (decide (Z.rem (Z.of_nat (length args) - 2) 2 = 0))].
Qed.

Lemma lawful_ZAdd : lawful_cmd (data "ZADD" 4 (-1) cmdZAdd).
Proof.
  apply lawful_data. intros db args Hargs. unfold cmdZAdd.
  destruct (zadd_options_suffix (drop 2 args) (mkZAddOptions false false)) as [_ Hl].
  destruct (zadd_options (drop 2 args) _) as [opts rest]. simpl in Hl. cbv zeta. case_decide as Hr; [act|].
  apply acts_pairs.
  - apply zadd_pairs_even. unfold paired. rewrite length_drop in *.
    replace (Z.of_nat (length rest)) with (Z.of_nat (length args) - (2 + Z.of_nat (length args - 2 - length rest))) by lia.
    by destruct (decide (Z.rem (Z.of_nat (length args) - (2 + Z.of_nat (length args - 2 - length rest))) 2 = 0)).
  - intros [r|ms]; act.
Qed.

Lemma lawful_MSet : lawful_cmd (data "MSET" 3 (-1) cmdMSet).
Proof.
  apply lawful_data. intros db args Hargs. unfold cmdMSet. case_decide as Hr; [act|].
  apply acts_mset_loop, (paired_drop _ 1); [lia|]. Z.to_euclidean_division_equations. lia.
Qed.

Lemma lawful_Set : lawful_cmd (data "SET" 3 (-1) cmdSet).
Proof.
  apply lawful_data. intros db args Hargs. unfold cmdSet. do 3 (apply acts_err_bind; [act|intros ?]).
  apply acts_set_options. intros [r|o]; act.
Qed.

(** An operation whose errors the handler looks at itself. *)
Lemma acts_sane_bind {A B} bad (p : prog (result A)) (f : result A → prog (result B)) :
  obeys lawful p sane → (∀ r, sane r → acts bad (f r)) → acts bad (bind p f).
Proof. intros Hp Hf. apply obeys_bind. eapply obeys_mono; [|exact Hp]. exact Hf. Qed.

Lemma lawful_MGet : lawful_cmd (data "MGET" 2 (-1) cmdMGet).
Proof.
  apply lawful_data. intros db args Hargs. unfold cmdMGet. act.
  apply acts_sane_bind; [auto with lawful|]. intros [[]|] Hr; try apply acts_ok. by destruct Hr.
Qed.

Lemma lawful_Rename : lawful_cmd (data "RENAME" 3 3 cmdRename).
Proof.
  apply lawful_data. intros db args Hargs. unfold cmdRename. do 2 (apply acts_err_bind; [act|intros ?]).
  apply acts_sane_bind; [auto with lawful|]. intros [[]|] Hr; try apply acts_ok. by destruct Hr.
Qed.

(** KEYS may panic, on a pattern with an unterminated class. *)
Lemma lawful_Keys : lawful_cmd (data "KEYS" 2 2 cmdKeys).
Proof.
  intros pkg has_store cc args Hname Hargs _. simpl in *. unfold withStore. destruct has_store; [|apply acts_ok].
  apply acts_reply. unfold cmdKeys. destruct (lookup_lt_is_Some_2 args 1) as [v Hv]; [lia|].
  unfold arg, go_index. rewrite decide_True by lia. change (Z.to_nat 1) with 1%nat. rewrite Hv.
  change (err_bind _ ?k) with (k (Str v)). apply acts_store; [|intros ?; apply acts_ok].
  destruct (pattern_tokens (Str v)) as [ts|] eqn:Hts.
  - split; [exact I|]. intros t _. apply acts_err_bind.
    { apply acts_sane, obeys_query_all; [permit|obey|obey]. }
    intros rows. apply acts_for_each. intros acc k _. destruct (matchGlob (Str v) k) eqn:Hm; [apply acts_ok|..].
    all: destruct (matchGlob_decides (Str v) k ts Hts) as (b & Hb & _); congruence.
  - eapply (obeys_mono _ _ (λ _, True)); [|obey]. intros r _ _. left. split; [done|]. exists (Str v). by rewrite Hv.
Qed.

Lemma lawful_EXEC : lawful_cmd (mkCmd "EXEC" 1 1 cmdExec).
Proof.
  intros pkg has_store cc args Hname Hargs Hpkg. simpl. unfold cmdExec.
  destruct (InMulti cc) eqn:Hm; cbn [negb]; [|apply acts_ok].
  apply acts_err_bind; [|intros [cc' rs]; apply acts_ok]. apply acts_for_each.
  intros [cc' rs] q Hq. apply acts_err_bind; [|intros [cc'' r]; apply acts_ok].
  eapply acts_mono; [|by apply Hpkg]. intros Hbad. right. eauto.
Qed.

Lemma lawful_INFO : lawful_cmd (plain "INFO" 1 2 (withOptionalStore (cmdInfo startTime))).
Proof.
  intros pkg has_store cc args _ _ _. apply acts_reply, acts_sane. unfold cmdInfo. obey.
Qed.

Lemma commands_lawful : Forall lawful_cmd commands.
Proof.
  each_command;
  lazymatch goal with
  | |- lawful_cmd (data "SET" _ _ _) => apply lawful_Set
  | |- lawful_cmd (data "KEYS" _ _ _) => apply lawful_Keys
  | |- lawful_cmd (data "RENAME" _ _ _) => apply lawful_Rename
  | |- lawful_cmd (data "MGET" _ _ _) => apply lawful_MGet
  | |- lawful_cmd (data "MSET" _ _ _) => apply lawful_MSet
  | |- lawful_cmd (data "HSET" _ _ _) => apply lawful_HSet
  | |- lawful_cmd (data "HMSET" _ _ _) => apply lawful_HMSet
  | |- lawful_cmd (data "ZADD" _ _ _) => apply lawful_ZAdd
  | |- lawful_cmd (data _ _ _ ?h) =>
      apply lawful_data; intros db args Hargs; lazymatch h with ?f _ => unfold f | _ => unfold h end; act
  | |- _ => idtac
  end.
  - intros pkg b cc args _ Hargs _. simpl in *. unfold cmdSelect. apply acts_err_bind; [act|]. intros s.
    repeat case_match; apply acts_ok.
  - intros pkg b cc args _ Hargs _. apply acts_reply. unfold cmdPing. act.
  - intros pkg b cc args _ Hargs _. simpl in *. apply acts_reply. unfold cmdEcho. act.
  - intros pkg b cc args _ Hargs _. apply acts_ok.
  - intros pkg b cc args _ Hargs _. apply acts_reply. unfold cmdCommand, All. apply acts_sane. obey.
  - apply lawful_INFO.
  - intros pkg b cc args _ Hargs _. simpl. unfold cmdMulti. destruct (InMulti cc); apply acts_ok.
  - apply lawful_EXEC.
  - intros pkg b cc args _ Hargs _. simpl. unfold cmdDiscard. destruct (InMulti cc); apply acts_ok.
Qed.

Lemma acts_dispatch fuel has_store cc args :
  (∀ q cc', q ∈ QueuedCmds cc → acts (keys_panics q) (dispatch startTime fuel has_store cc' q)) →
  acts (may_panic cc args) (dispatch startTime (S fuel) has_store cc args).
Proof.
  intros Hq. cbn [dispatch]. destruct args as [|a args]; [apply acts_ok|]. cbv zeta.
  destruct (registry startTime !! _) as [c|] eqn:Hc; [|apply acts_ok].
  case_decide as Hmin; [apply acts_ok|]. case_decide; [apply acts_ok|].
  apply registry_iff in Hc as [Hin Hname]. pose proof commands_lawful as Hall. rewrite list.Forall_forall in Hall.
  apply (Hall c Hin); [done|lia|exact Hq].
Qed.

Lemma acts_Dispatch has_store cc args :
  conn_ok startTime cc → acts (may_panic cc args) (Dispatch startTime has_store cc args).
Proof.
  intros (_ & _ & Hqueue). apply acts_dispatch. intros q cc' Hq.
  rewrite list.Forall_forall in Hqueue. apply Hqueue, queueable_name in Hq.
  eapply acts_mono; [|apply acts_dispatch].
  - intros [Hbad|[? _]]; done.
  - intros q' cc'' _. by intros [=].
Qed.

Lemma acts_QueueOrDispatch has_store cc args :
  conn_ok startTime cc → acts (may_panic cc args) (QueueOrDispatch startTime has_store cc args).
Proof.
  intros Hcc. pose proof (acts_Dispatch has_store cc args Hcc) as Hd. unfold QueueOrDispatch.
  destruct (InMulti cc); cbn [negb]; [|exact Hd]. case_decide; [exact Hd|].
  case_decide; [apply acts_ok|]. destruct (registry startTime !! _); [|apply acts_ok].
  case_decide; apply acts_ok.
Qed.
End handlers.

(** ** Reading commands *)

Section reading.
Context `{Unicode} (startTime : Z) (clock : Z → Prop).

Definition prunes (c : Cmd) : Prop := Name c ∈ reading → ∀ pkg has_store cc args,
  obeys (pruning clock) (Exec c pkg has_store cc args) (λ _, True).

Lemma obeys_reply π {A B} (p : prog (result A)) (f : A → prog (result B)) :
  obeys π p (λ _, True) → (∀ a, obeys π (f a) (λ _, True)) → obeys π (err_bind p f) (λ _, True).
Proof. intros Hp Hf. apply obeys_err_bind. eapply obeys_mono; [|exact Hp]. intros [e|a] _; [done|apply Hf]. Qed.

Lemma commands_prune : Forall prunes (commands startTime).
Proof.
  each_command; intros Hin pkg has_store cc args;
    first [exfalso; revert Hin; apply (bool_decide_unpack _); vm_compute; exact I|clear Hin]; simpl; obey.
Qed.

Lemma dispatch_prunes fuel has_store cc args :
  name_of args ∈ reading → obeys (pruning clock) (dispatch startTime (S fuel) has_store cc args) (λ _, True).
Proof.
  intros Hin. cbn [dispatch]. destruct args as [|a args]; [exact I|]. cbv zeta.
  destruct (registry startTime !! _) as [c|] eqn:Hc; [|exact I]. repeat (case_decide; [exact I|]).
  apply registry_iff in Hc as [Hc Hname]. pose proof commands_prune as Hall. rewrite list.Forall_forall in Hall.
  apply (Hall c Hc). by rewrite Hname.
Qed.

Lemma QueueOrDispatch_prunes has_store cc args :
  name_of args ∈ reading → obeys (pruning clock) (QueueOrDispatch startTime has_store cc args) (λ _, True).
Proof.
  intros Hin. pose proof (dispatch_prunes 1 has_store cc args Hin) as Hd. unfold QueueOrDispatch.
  destruct (InMulti cc); cbn [negb]; [|exact Hd]. cbv zeta. case_decide; [exact Hd|].
  case_decide; [exact I|]. destruct (registry startTime !! _); [|exact I]. by case_decide.
Qed.
End reading.

(** ** One command *)

Lemma wp_and F {A} (p : prog A) (Q Q' : A → State → Prop) σ :
  wp F p Q σ → wp F p Q' σ → wp F p (λ a σ', Q a σ' ∧ Q' a σ') σ.
Proof.
  revert σ. induction p as [a|X e k IH]; intros σ Hp Hp'; [by split|]. intros x σ' Hs. apply IH; auto.
Qed.

Section command.
Context `{Unicode} (startTime : Z).
Abbreviation conn_ok := (conn_ok startTime).
Abbreviation QueueOrDispatch := (QueueOrDispatch startTime).

(** What a command may do from [σ], whatever the clock shows. *)
Definition commanded (cc : ClientConn) (args : list Value) (σ : State)
    (r : result (ClientConn * Value)) (σ' : State) : Prop :=
  between σ' ∧ agree (λ k, ¬ reach cc args k) (com σ) (com σ') ∧
  (r = inl Panic → may_panic cc args) ∧ yields (λ '(cc', _), took startTime cc args cc') r.

Lemma wp_command F has_store cc args σ :
  between σ → conn_ok cc → wp F (QueueOrDispatch has_store cc args) (commanded cc args σ) σ.
Proof.
  intros Hσ Hcc. eapply wp_mono; [|apply (wp_returns _ _ _ _ _ (QueueOrDispatch_keeps startTime has_store cc args Hcc)
    (wp_lawful F (reach cc args) _ _ _ σ (QueueOrDispatch_confined startTime has_store cc args)
       (acts_QueueOrDispatch startTime has_store cc args Hcc) Hσ))].
  intros r σ' (Hy & Hb & Ha & _ & Hbad). split; [done|]. split; [done|]. split; [done|exact Hy].
Qed.

(** C1: Whatever a client sends, on any engine, failing or not, with any readings
    of the clock: no transaction is left open, the tables stay intact, the
    rows outside the command's reach (the connection's database, but for
    FLUSHALL, INFO and EXEC) are as before, a reading command removes nothing
    but expired keys, the connection stays well formed, and the only failure
    is the panic of KEYS on an unterminated class. If moreover every reading of
    the clock is the same instant, the tables stay well formed and the
    keyspace changes no more than the command's name allows. *)
Theorem command_safe `{Engine E} (w : E) has_store cc args :
  between (view w) → conn_ok cc →
  let '(r, w') := run (QueueOrDispatch has_store cc args) w in
  let T := com (view w) in
  let T' := com (view w') in
  between (view w') ∧ agree (λ k, ¬ reach cc args k) T T' ∧
  (name_of args ∈ reading → pruned (λ t, ∃ n, t = clk (view w) n) T T') ∧
  (∀ ns, ready ns (view w) →
     ready ns (view w') ∧ effect (name_of args) (cc_DB cc) (abs (unix_milli ns) T) (abs (unix_milli ns) T')) ∧
  match r with
  | inl e => e = Panic ∧ may_panic cc args
  | inr (cc', _) => conn_ok cc' ∧ Authenticated cc' = Authenticated cc
  end.
Proof.
  intros Hσ Hcc. pose proof (wp_run _ _ w (wp_command (faulty E) has_store cc args _ Hσ Hcc)) as Hcmd.
  assert (name_of args ∈ reading →
    let '(_, w') := run (QueueOrDispatch has_store cc args) w in
    pruned (λ t, ∃ n, t = clk (view w) n) (com (view w)) (com (view w'))) as Hread.
  { intros Hin. apply (wp_run (QueueOrDispatch has_store cc args) (λ _ σ', pruned _ (com (view w)) (com σ'))).
    eapply wp_pruning; [by apply QueueOrDispatch_prunes|apply Hσ|intros n; by exists n]. }
  assert (∀ ns, ready ns (view w) → let '(_, w') := run (QueueOrDispatch has_store cc args) w in
    ready ns (view w') ∧ effect (name_of args) (cc_DB cc) (abs (unix_milli ns) (com (view w)))
      (abs (unix_milli ns) (com (view w')))) as Hstill.
  { intros ns Hr. apply (wp_run (QueueOrDispatch has_store cc args) (λ _ σ', ready ns σ' ∧ effect _ _ (abs _ (com (view w))) (abs _ (com σ')))).
    eapply (wp_weaken _ True); [done|]. eapply wp_mono; [|by apply (runs_QueueOrDispatch startTime ns has_store cc args Hcc)].
    by intros r σ' (? & ? & _). }
  destruct (run _ w) as [r w']. destruct Hcmd as (Hb & Ha & Hbad & Hy).
  do 4 (split; [done|]). destruct r as [e|[cc' v]]; [simpl in Hy; subst e; auto|]. by destruct Hy as (? & ? & _).
Qed.
End command.

(** ** Witness *)

#[local] Existing Instance ascii_only.

(** The key [t] expires between two readings of the clock. *)
Definition late : Reliable := mkReliable (mkState sample_tables None (λ n, sample_ns * (1 + 5 * Z.of_nat n))).

Lemma command_safe_witness :
  let args := [BulkString "SET"; BulkString "t"; BulkString "x"] in
  let '(r, w') := run (QueueOrDispatch 0 true (NewClientConn true) args) late in
  let T' := com (view w') in
  r = inr (NewClientConn true, SimpleString "OK") ∧
  between (view w') ∧ agree (λ k, ¬ reach (NewClientConn true) args k) sample_tables T' ∧
  (name_of args ∈ reading → pruned (λ t, ∃ n, t = clk (view late) n) sample_tables T') ∧
  (∀ ns, ready ns (view late) →
     ready ns (view w') ∧ effect (name_of args) 0 (abs (unix_milli ns) sample_tables) (abs (unix_milli ns) T')) ∧
  match r with
  | inl e => e = Panic ∧ may_panic (NewClientConn true) args
  | inr (cc', _) => conn_ok 0 cc' ∧ Authenticated cc' = true
  end.
Proof.
  intros args. pose proof (command_safe 0 late true (NewClientConn true) args) as Hsafe.
  assert ((run (QueueOrDispatch 0 true (NewClientConn true) args) late).1 = inr (NewClientConn true, SimpleString "OK")) as Hr
    by by vm_compute.
  destruct (run _ late) as [r w']. cbn [fst] in Hr. split; [done|]. apply Hsafe; [|apply NewClientConn_ok].
  split; [|done]. apply wf_intact, wf_b_sound. by vm_compute.
Defined.
