(* ===== verification/Clients.v ===== *)
(** Clients at the same time: the commands of connections in different
    databases amount to running them one after the other, whatever the clock
    shows; commands on one key do not (Races.v). *)
From S2P Require Import Prelude GoStd Float Sql Effects Behaviour Keyspace Locality Protocol Calls Integrity Sample Pool Store StoreKeys StoreStrings StoreLists StoreHashes StoreSets StoreZsets Glob Resp Commands CmdData Soundness Dispatch Session Confined Lawful.
Local Open Scope Z_scope.
Local Open Scope go_scope.

(** Every client of the pool has its result. *)
Definition finished {A} (pool : Pool A) (rs : list A) : Prop :=
  p_clients pool = (λ a, mkClient (Ret a) None) <$> rs.

(** ** Different databases *)

Section databases.
Context `{Unicode} (startTime : Z) (has_store : bool) (F refreshing : Prop) (clock : Z → Prop).

(** A connection and the command line it sends. *)
Definition command_of (c : ClientConn * list Value) : prog (result (ClientConn * Value)) :=
  QueueOrDispatch startTime has_store c.1 c.2.

(** The keys of the [i]-th client. *)
Definition home_of (clients : list (ClientConn * list Value)) (i : nat) : kid → Prop :=
  match clients !! i with Some c => in_db (cc_DB c.1) | None => λ _, False end.

#[local] Instance home_of_dec clients i k : Decision (home_of clients i k).
Proof. unfold home_of. destruct (clients !! i); apply _. Defined.

Lemma home_apart clients : NoDup ((λ c, cc_DB c.1) <$> clients) → apart (home_of clients).
Proof.
  intros Hnd i j k Hi Hj. unfold home_of, in_db in *.
  destruct (clients !! i) as [c|] eqn:Hci; [|done]. destruct (clients !! j) as [d|] eqn:Hcj; [|done].
  eapply NoDup_lookup; [exact Hnd|..]; rewrite list_lookup_fmap.
  - by rewrite Hci.
  - rewrite Hcj. simpl. congruence.
Qed.

Lemma home_operation clients i p :
  Forall (λ c, conn_ok startTime c.1 ∧ at_home c.1 c.2) clients →
  (command_of <$> clients) !! i = Some p → operation (home_of clients i) (λ _, True) p.
Proof.
  intros Hall Hp. rewrite list_lookup_fmap in Hp. unfold home_of.
  destruct (clients !! i) as [[cc args]|] eqn:Hi; [|done]. simplify_eq/=.
  rewrite list.Forall_forall in Hall. destruct (Hall (cc, args)) as [_ Hhome]; [by eapply list_elem_of_lookup_2|].
  eapply operation_mono; [|eapply conforms_grow; [|apply QueueOrDispatch_confined]]; [done|]. intros k Hk. by apply Hk.
Qed.

(** What every command keeps, commands in turn keep. *)
Lemma in_turn_keeps (I : Tables → Prop) clients T rs T' :
  (∀ cc args T c, conn_ok startTime cc → (∀ n, clock (c n)) → I T →
    wp F (QueueOrDispatch startTime has_store cc args) (λ _ σ', I (com σ')) (mkState T None c)) →
  Forall (λ c, conn_ok startTime c.1 ∧ at_home c.1 c.2) clients → I T →
  in_turn F clock (command_of <$> clients) T rs T' → I T'.
Proof.
  intros Hone Hall HI Hturn. remember (command_of <$> clients) as ps eqn:Hps. revert clients Hps Hall HI.
  induction Hturn as [T|p ps T c a σ rs T' Hc Hl Hw Hturn IH]; intros clients Hps Hall HI; [done|].
  destruct clients as [|[cc args] clients]; simplify_eq/=.
  apply list.Forall_cons in Hall as [[Hcc _] Hall]. eapply IH; [done|done|].
  eapply (lone_wp F _ (λ _ σ', I (com σ'))); [|exact Hl]. by apply Hone.
Qed.

Lemma in_turn_intact clients T rs T' :
  Forall (λ c, conn_ok startTime c.1 ∧ at_home c.1 c.2) clients → intact T →
  in_turn F clock (command_of <$> clients) T rs T' → intact T'.
Proof.
  apply in_turn_keeps. clear T T'. intros cc args T c Hcc _ HT.
  eapply wp_mono; [|apply (wp_command startTime F has_store cc args _); [by split|done]].
  by intros r σ' ([? _] & _).
Qed.

(** With one reading of the clock. *)
Lemma in_turn_wf clients T rs T' :
  (∀ t t', clock t → clock t' → t = t') →
  Forall (λ c, conn_ok startTime c.1 ∧ at_home c.1 c.2) clients → wf T →
  in_turn F clock (command_of <$> clients) T rs T' → wf T'.
Proof.
  intros Hone. apply in_turn_keeps. clear T T'. intros cc args T c Hcc Hc HT.
  eapply (wp_weaken F True); [done|]. eapply wp_mono; [|apply (runs_QueueOrDispatch startTime (c 0%nat) has_store cc args Hcc)].
  - by intros r σ' [[? _] _].
  - split; [done|]. split; [done|]. intros n. by apply Hone.
Qed.

(** C2: Command lines of clients in different databases that run at the same
    time, call by call in any order, with any number of failing calls, on an
    engine with or without read-committed snapshots, while the clock shows any
    readings, have the replies and leave the tables of running them one after
    the other, each with readings of the same clock; the tables stay intact,
    and well formed when the clock shows one instant throughout. FLUSHALL, INFO
    and an EXEC of these or of SELECT are apart. *)
Theorem databases_serial T clients pool rs t :
  clock t → NoDup ((λ c, cc_DB c.1) <$> clients) →
  Forall (λ c, conn_ok startTime c.1 ∧ at_home c.1 c.2) clients →
  rtc (pool_step F refreshing clock) (pool_of T (command_of <$> clients)) pool → finished pool rs →
  in_turn F clock (command_of <$> clients) T rs (p_com pool) ∧
  (intact T → intact (p_com pool)) ∧
  ((∀ t t', clock t → clock t' → t = t') → wf T → wf (p_com pool)).
Proof.
  intros Ht Hnd Hall Hsteps Hfin.
  assert (in_turn F clock (command_of <$> clients) T rs (p_com pool)) as Hturn.
  { eapply (pool_in_turn F refreshing clock (λ _, True) (home_of clients)); [|by apply home_apart|apply _|exact Ht|exact Hsteps|exact Hfin].
    intros i p. by apply home_operation. }
  split; [done|]. split; [intros ?; by eapply in_turn_intact|intros ? ?; by eapply in_turn_wf].
Qed.
End databases.

(** ** Witnesses *)

#[local] Existing Instance ascii_only.

(** A SET and an INCR, while the clock runs on. *)
Lemma databases_serial_witness :
  let clock t := sample_ns <= t in
  let clients :=
    [(NewClientConn true, [BulkString "SET"; BulkString "n"; BulkString "5"]);
     (with_DB 1 (NewClientConn true), [BulkString "INCR"; BulkString "n"])] in
  let rs := [inr (NewClientConn true, SimpleString "OK"); inr (with_DB 1 (NewClientConn true), Integer 8)] in
  ∃ pool, rtc (pool_step False True clock) (pool_of sample_tables (command_of 0 true <$> clients)) pool ∧
    finished pool rs ∧
    in_turn False clock (command_of 0 true <$> clients) sample_tables rs (p_com pool) ∧ intact (p_com pool).
Proof.
  intros clock clients rs. set (start := pool_of sample_tables (command_of 0 true <$> clients)).
  assert (p_clients <$> (play sample_ns (calls 0 4 ++ calls 1 2) start ≫= play (sample_ns + 5) (calls 1 7 ++ calls 0 7)) =
    Some ((λ a, mkClient (Ret a) None) <$> rs)) as (pool & Hplay & Hfin)%fmap_Some by by vm_compute.
  apply bind_Some in Hplay as (middle & Hplay1 & Hplay2).
  assert (rtc (pool_step False True clock) start pool) as Hsteps.
  { etrans; (eapply pool_steps_clock; [|eapply play_steps; [by left|eassumption]]); intros t ->; unfold clock; lia. }
  clear Hplay1 Hplay2. symmetry in Hfin.
  destruct (databases_serial 0 true False True clock sample_tables clients pool rs sample_ns) as (Hturn & Hintact & _);
    [unfold clock; lia|..|done|done|].
  - apply (bool_decide_unpack _). by vm_compute.
  - assert (∀ cc args, cc_DB cc = 0 ∨ cc_DB cc = 1 → InMulti cc = false → QueuedCmds cc = [] →
      name_of args ∉ roaming → name_of args ≠ "EXEC" → conn_ok 0 cc ∧ at_home cc args) as Hhome.
    { intros cc args Hdb Hm Hq Hmoving Hexec. split; [|split; [exact Hmoving|intros Hx; destruct (Hexec Hx)]].
      split; [lia|]. by rewrite Hq; split; [|apply list.Forall_nil]. }
    apply list.Forall_cons. split; [|apply list.Forall_cons; split; [|by apply list.Forall_nil]]; apply Hhome;
      first [by left|by right|reflexivity|by apply (bool_decide_unpack _); vm_compute].
  - exists pool. do 3 (split; [done|]). apply Hintact, wf_intact, wf_b_sound. by vm_compute.
Defined.
