(* ===== verification/Races.v ===== *)
(** Commands on the same keys at the same time: schedules of a reliable engine
    whose outcome no order of the commands has; and a command whose key expires
    between two of its own readings of the clock. *)
From S2P Require Import Prelude GoStd Float Sql Effects Behaviour Keyspace Locality Protocol Sample Pool Store StoreKeys StoreStrings StoreLists StoreHashes StoreSets StoreZsets Glob Resp Commands CmdData Soundness Dispatch Session Confined Clients.
Local Open Scope Z_scope.
Local Open Scope go_scope.

(** ** LPUSH against LPUSH *)

Section lists.
Context (ns : Z) (key : string) (db : Z).
Abbreviation k := (key, db).
Abbreviation now := (unix_milli ns).

(** The key holds the list [l], perhaps by being absent. *)
Definition holds_list (l : list string) (exp : option Z) (e : option entry) : Prop :=
  e = None ∧ l = [] ∧ exp = None ∨ e = Some (mkEntry (RList l) exp).

(** The tables are [T0] with the rows of a live list at the key. *)
Definition list_at (T0 : Tables) (l : list string) (exp : option Z) (T : Tables) : Prop :=
  ∃ m, updates T0 k (list_slice exp m) T ∧ order_by_idx m = l ∧
    aliveWhere now (mkKeyRow "list" exp) = true.

Lemma wp_lEnsure_first T l exp :
  wf T → holds_list l exp (abs now T !! k) →
  wp False (lEnsure key db) (λ r σ', r = inr tt ∧ list_at T l exp (com σ')) (start ns T).
Proof.
  intros Hwf He. rewrite lookup_abs in He.
  assert (quiet ns T k (slice_of T k) (start ns T)) as Hq by by split.
  unfold lEnsure, lAssert. eapply wp_guarded_any; [apply Hwf|exact Hq|..]; [|..|done].
  - intros sl σ [Hsl Habs] Ht Hlive Hq'. rewrite <- Habs in He.
    apply wp_err_bind.
    destruct (wf_list_cases sl Hsl Ht) as [->|(exp' & m & ->)];
      (eapply wp_slice_exec; [exact Hq'|reflexivity|reflexivity| |done]); intros σ' [_ Hu]; apply wp_ret;
      (split; [done|]).
    + destruct He as [(_ & -> & ->)|?]; [|done]. by exists ∅.
    + specialize (Hlive _ eq_refl). rewrite abs_list, (stored_alive _ _ _ "list") in He by done.
      destruct He as [[? _]|?]; simplify_eq. by exists m.
  - intros sl σ en [Hsl Habs] Hq' Hen Hne. rewrite Hen in He. destruct He as [[? _]|?]; by simplify_eq.
Qed.

Lemma list_at_wf T0 l exp T : wf T0 → list_at T0 l exp T → wf T.
Proof. intros Hwf (m & Hu & _). eapply updates_wf; [done|done|constructor]. Qed.

Lemma list_at_abs T0 l exp T : list_at T0 l exp T → abs now T = <[k := mkEntry (RList l) exp]> (abs now T0).
Proof.
  intros (m & Hu & Hm & Ha). rewrite (updates_abs _ _ _ _ _ Hu), abs_list, (stored_alive _ _ _ "list") by done.
  apply map_eq. intros k'. destruct (decide (k' = k)) as [->|].
  - by rewrite lookup_partial_alter_eq, lookup_insert_eq, Hm.
  - by rewrite lookup_partial_alter_ne, lookup_insert_ne.
Qed.

(** [lEnsure] by whoever comes next. *)
Lemma wp_lEnsure_again T0 T l exp :
  wf T0 → list_at T0 l exp T →
  wp False (lEnsure key db) (λ r σ', r = inr tt ∧ list_at T0 l exp (com σ')) (start ns T).
Proof.
  intros Hwf Hl. eapply wp_mono; [|apply (wp_lEnsure_first T l exp); [by eapply list_at_wf|]].
  - intros r σ' [-> (m & Hu & Hm)]. split; [done|]. exists m. split; [|done].
    destruct Hl as (m0 & Hu0 & _). by eapply updates_trans.
  - right. rewrite (list_at_abs _ _ _ _ Hl). apply lookup_insert_eq.
Qed.

Lemma wp_lAll T0 T l exp :
  list_at T0 l exp T →
  wp False (lAll key db) (λ r σ', r = inr l ∧ list_at T0 l exp (com σ')) (start ns T).
Proof.
  intros Hl. pose proof Hl as (m & Hu & Hm & Ha). unfold lAll.
  eapply (wp_slice_query_all False ns T0 k); [by split|done| |done].
  intros rows Hrows. unfold answers in Hrows. simpl in Hrows. subst rows. by rewrite Hm.
Qed.

Lemma wp_lRewrite_at T0 T l exp v vs :
  list_at T0 l exp T →
  wp False (lRewrite key db (v :: vs)) (λ r σ', r = inr tt ∧ list_at T0 (v :: vs) exp (com σ')) (start ns T).
Proof.
  intros (m & Hu & Hm & Ha). eapply (wp_lRewrite False ns T0); [by split|..|done].
  intros σ' [_ Hu']. split; [done|]. exists (indexed (v :: vs)). split; [exact Hu'|].
  split; [apply order_by_idx_indexed|done].
Qed.

(** An LPUSH of [x] that has read the list [l]. *)
Definition push_rest (x : string) (l : list string) : prog (result Z) :=
  let newList := prepend_of [x] ++ l in
  _ ⇐? lRewrite key db newList;
  ok (Z.of_nat (length newList)).

Abbreviation steps := (rtc (pool_step False False (still ns))).

Lemma push_reads T0 T l exp x cs i :
  wf T → wp False (lEnsure key db) (λ r σ', r = inr tt ∧ list_at T0 l exp (com σ')) (start ns T) →
  cs !! i = Some (mkClient (LPush key db [x]) None) →
  ∃ T', list_at T0 l exp T' ∧ steps (mkPool T cs) (mkPool T' (<[i := mkClient (push_rest x l) None]> cs)).
Proof.
  intros Hwf Hwp Hi.
  destruct (solo_operation ns False (λ p, err_bind p (λ _, existing ⇐? lAll key db; push_rest x existing))
    (lEnsure key db) (in_db db) anything (λ r σ', r = inr tt ∧ list_at T0 l exp (com σ')) T cs i (surrounds_bind _) Hi) as (r & T1 & [-> Hl] & _ & Hs1);
    [confine|exact Hwp|].
  assert (i < length cs)%nat as Hlt by by eapply lookup_lt_Some.
  destruct (solo_operation ns False (λ p, err_bind p (push_rest x)) (lAll key db) (in_db db) anything
    (λ r σ', r = inr l ∧ list_at T0 l exp (com σ')) T1
    (<[i := mkClient (existing ⇐? lAll key db; push_rest x existing) None]> cs) i (surrounds_bind _))
    as (r & T2 & [-> Hl2] & _ & Hs2); [by apply list_lookup_insert_eq|confine|by eapply wp_lAll|].
  exists T2. split; [done|]. etrans; [exact Hs1|]. by rewrite list_insert_insert_eq in Hs2.
Qed.

Lemma push_writes T0 T l l' exp x cs i :
  list_at T0 l' exp T → cs !! i = Some (mkClient (push_rest x l) None) →
  ∃ T', list_at T0 (x :: l) exp T' ∧
    steps (mkPool T cs) (mkPool T' (<[i := mkClient (ok (Z.of_nat (S (length l)))) None]> cs)).
Proof.
  intros Hl Hi.
  destruct (solo_operation ns False (λ p, err_bind p (λ _, ok (Z.of_nat (S (length l)))))
    (lRewrite key db (x :: l)) (in_db db) anything (λ r σ', r = inr tt ∧ list_at T0 (x :: l) exp (com σ')) T cs i (surrounds_bind _) Hi) as (r & T1 & [-> Hl1] & _ & Hs1);
    [confine|by eapply wp_lRewrite_at|]. by exists T1.
Qed.

(** C19: Two LPUSH on one key may both answer the same new length and leave one
    of the two elements out: each reads the list before it opens the
    transaction that writes it back. *)
Theorem push_push_loses T l exp x y :
  wf T → holds_list l exp (abs now T !! k) →
  ∃ pool, steps (pool_of T [LPush key db [x]; LPush key db [y]]) pool ∧
    finished pool [inr (Z.of_nat (S (length l))); inr (Z.of_nat (S (length l)))] ∧
    abs now (p_com pool) = <[k := mkEntry (RList (x :: l)) exp]> (abs now T).
Proof.
  intros Hwf Hl. unfold pool_of. cbn [fmap list_fmap].
  destruct (push_reads T T l exp x [mkClient (LPush key db [x]) None; mkClient (LPush key db [y]) None] 0 Hwf)
    as (T1 & Hl1 & Hs1); [by apply wp_lEnsure_first|done|].
  destruct (push_reads T T1 l exp y [mkClient (push_rest x l) None; mkClient (LPush key db [y]) None] 1)
    as (T2 & Hl2 & Hs2); [by eapply list_at_wf|by eapply wp_lEnsure_again|done|].
  destruct (push_writes T T2 l l exp y [mkClient (push_rest x l) None; mkClient (push_rest y l) None] 1 Hl2)
    as (T3 & Hl3 & Hs3); [done|].
  destruct (push_writes T T3 l (y :: l) exp x [mkClient (push_rest x l) None; mkClient (ok (Z.of_nat (S (length l)))) None] 0 Hl3)
    as (T4 & Hl4 & Hs4); [done|].
  eexists. split; [etrans; [exact Hs1|etrans; [exact Hs2|etrans; [exact Hs3|exact Hs4]]]|].
  split; [done|]. by apply list_at_abs.
Qed.
End lists.

(** ** SET against LPUSH *)

Section types.
Context `{Unicode} (ns : Z) (key : string) (db : Z) (v x : string).
Abbreviation k := (key, db).
Abbreviation now := (unix_milli ns).
Abbreviation steps := (rtc (pool_step False False (still ns))).

Definition set_line : prog (result Value) := cmdSet db [BulkString "SET"; BulkString key; BulkString v].
Definition push_line : prog (result Value) := cmdLPush db [BulkString "LPUSH"; BulkString key; BulkString x].

(** [push_line] once the type of the key has been checked. *)
Definition push_checked : prog (result Value) :=
  n ⇐! (_ ⇐? (_ ⇐? exec DB (InsertKeyIgnore k "list"); ok tt);
        existing ⇐? lAll key db;
        push_rest key db x existing);
  ok (Integer n).

(** Rows that are a string's and a list's at once. *)
Definition mixed_slice : slice :=
  mkSlice (Some (mkKeyRow "string" None)) (Some v) {[0 := x]} ∅ ∅ ∅.

Lemma live_absent sl : wf_slice sl → live now sl → abs_entry now sl = None → sl = empty_slice.
Proof.
  intros Hsl Hlive Habs. destruct (s_key sl) as [r|] eqn:Hr; [|by destruct Hsl].
  destruct (wf_slice_value sl r Hsl Hr) as (w & Hw & _).
  unfold abs_entry in Habs. rewrite Hr in Habs. simpl in Habs. by rewrite (Hlive r Hr), Hw in Habs.
Qed.

(** The checks of LPUSH pass on an absent key. *)
Lemma wp_purge_absent T :
  wf T → abs now T !! k = None →
  wp False (deleteExpired key db) (λ r σ', r = inr tt ∧ updates T k empty_slice (com σ')) (start ns T).
Proof.
  intros Hwf Hnone. rewrite lookup_abs in Hnone.
  assert (quiet ns T k (slice_of T k) (start ns T)) as Hq by by split.
  eapply wp_deleteExpired; [exact Hq| |done]. intros σ [_ Hu]. split; [done|].
  rewrite (live_absent (purge now (slice_of T k))) in Hu; [done|by apply purge_wf|apply purge_live|by rewrite purge_abs].
Qed.

Lemma wp_check_absent T0 T :
  updates T0 k empty_slice T →
  wp False (lAssert key db) (λ r σ', r = inr tt ∧ updates T0 k empty_slice (com σ')) (start ns T).
Proof.
  intros Hu. assert (quiet ns T0 k empty_slice (start ns T)) as Hq by by split. unfold lAssert.
  eapply wp_assertType; [|exact Hq|..|done]; try done. intros σ' [_ Hu'] _. by split.
Qed.

(** SET on the absent key. *)
Lemma wp_set_absent T0 T :
  updates T0 k empty_slice T →
  wp False (Set_ key db v no_options) (λ r σ', r = inr true ∧ updates T0 k (string_slice None v) (com σ')) (start ns T).
Proof.
  intros Hu. assert (quiet ns T0 k empty_slice (start ns T)) as Hq by by split. unfold Set_.
  apply wp_err_bind. eapply wp_deleteExpired; [exact Hq| |done]. intros σ1 Hq1. apply wp_err_bind.
  eapply wp_assertType; [|exact Hq1|..|done]; try done. intros σ2 Hq2 _.
  repeat sql_step; try done. cbn [NX XX no_options andb].
  eapply (wp_set_write False ns T0 key db v no_options empty_slice); [constructor|by intros r|eassumption|..]; try done.
  intros σ3 Hq3. split; [done|]. by apply (quiet_rollback ns T0 k) in Hq3 as [_ Hu3].
Qed.

Lemma wp_push_on_string T0 T :
  updates T0 k (string_slice None v) T →
  wp False push_checked (λ r σ', r = inr (Integer 1) ∧ updates T0 k mixed_slice (com σ')) (start ns T).
Proof.
  intros Hu. unfold push_checked, on_store. apply wp_bind.
  assert (quiet ns T0 k (string_slice None v) (start ns T)) as Hq by by split.
  do 2 apply wp_err_bind. eapply wp_slice_exec; [exact Hq|done|done| |done]. intros σ1 Hq1.
  apply wp_ret. apply wp_err_bind. unfold lAll.
  eapply wp_slice_query_all; [exact Hq1|done| |done]. intros rows Hrows. unfold answers in Hrows. simpl in Hrows.
  change (order_by_idx ∅) with (@nil string) in Hrows. subst rows.
  unfold push_rest. change (prepend_of [x] ++ []) with [x]. apply wp_err_bind. unfold lRewrite.
  eapply wp_slice_with_tx; [exact Hq1| |done]. intros σ2 Hq2. cbn [imap for_each].
  rewrite decide_False by done. repeat sql_step; try done.
  split; [done|]. match goal with Hq' : quiet _ _ _ _ _ |- _ => apply (quiet_rollback ns T0 k) in Hq' as [_ Hu'] end.
  exact Hu'.
Qed.

(** C20: A SET and an LPUSH of one absent key may both succeed, the LPUSH
    answering 1, and leave a key of type string whose rows are those of the
    string and of the list: LPUSH checks the type outside the transaction that
    writes. Rows of two types under one key are not well formed; clients are
    shown the string, and the element that was pushed is in no value. *)
Theorem set_push_mixes T :
  wf T → abs now T !! k = None →
  ∃ pool, steps (pool_of T [push_line; set_line]) pool ∧
    finished pool [inr (Integer 1); inr (SimpleString "OK")] ∧
    slice_of (p_com pool) k = mixed_slice ∧ ¬ wf_slice (slice_of (p_com pool) k) ∧
    abs now (p_com pool) = <[k := mkEntry (RStr v) None]> (abs now T).
Proof.
  intros Hwf Hnone. unfold pool_of. cbn [fmap list_fmap].
  set (setter := mkClient set_line None).
  set (late := on_store (_ ⇐? (_ ⇐? lAssert key db; _ ⇐? exec DB (InsertKeyIgnore k "list"); ok tt);
    existing ⇐? lAll key db; push_rest key db x existing) (λ n, ok (Integer n)) : prog (result Value)).
  destruct (solo_operation ns False
    (λ p, on_store (err_bind (err_bind p (λ _, _ ⇐? lAssert key db; _ ⇐? exec DB (InsertKeyIgnore k "list"); ok tt))
       (λ _, existing ⇐? lAll key db; push_rest key db x existing)) (λ n, ok (Integer n)))
    (deleteExpired key db) (in_db db) anything
    (λ r σ', r = inr tt ∧ updates T k empty_slice (com σ')) T [mkClient push_line None; setter] 0)
    as (r & T1 & [-> Hu1] & _ & Hs1); [by intros ? ? ?|done|confine|by apply wp_purge_absent|].
  destruct (solo_operation ns False
    (λ p, on_store (err_bind (err_bind p (λ _, _ ⇐? exec DB (InsertKeyIgnore k "list"); ok tt))
       (λ _, existing ⇐? lAll key db; push_rest key db x existing)) (λ n, ok (Integer n)))
    (lAssert key db) (in_db db) anything
    (λ r σ', r = inr tt ∧ updates T k empty_slice (com σ')) T1 [mkClient late None; setter] 0)
    as (r & T2 & [-> Hu2] & _ & Hs2); [by intros ? ? ?|done|confine|by apply wp_check_absent|].
  destruct (solo_operation ns False
    (λ p, on_store p (λ done, ok (if done : bool then SimpleString "OK" else NullBulkString)))
    (Set_ key db v no_options) (in_db db) anything
    (λ r σ', r = inr true ∧ updates T k (string_slice None v) (com σ')) T2 [mkClient push_checked None; setter] 1)
    as (r & T3 & [-> Hu3] & _ & Hs3); [by intros ? ? ?|done|confine|by apply wp_set_absent|].
  destruct (solo_operation ns False (λ p, p) push_checked (in_db db) anything
    (λ r σ', r = inr (Integer 1) ∧ updates T k mixed_slice (com σ')) T3
    [mkClient push_checked None; mkClient (ok (SimpleString "OK")) None] 0)
    as (r & T4 & [-> Hu4] & _ & Hs4); [by intros ? ? ?|done|confine|by apply wp_push_on_string|].
  eexists. split; [etrans; [exact Hs1|etrans; [exact Hs2|etrans; [exact Hs3|exact Hs4]]]|].
  split; [done|]. pose proof Hu4 as [Hk _].
  change (slice_of T4 k = mixed_slice) in Hk. cbn [p_com]. split; [exact Hk|]. split.
  - rewrite Hk. by inversion 1.
  - rewrite (updates_abs now T k mixed_slice T4 Hu4). apply map_eq. intros k'. destruct (decide (k' = k)) as [->|].
    + by rewrite lookup_partial_alter_eq, lookup_insert_eq.
    + by rewrite lookup_partial_alter_ne, lookup_insert_ne.
Qed.

(** ** SET against the clock *)

(** The rows of a list that a SET makes a string of. *)
Definition overdue_slice (m : gmap Z string) : slice :=
  mkSlice (Some (mkKeyRow "string" None)) (Some v) m ∅ ∅ ∅.

Lemma wp_set_overdue T0 m d σ :
  d ≤ now → quiet ns T0 k (list_slice (Some d) m) σ →
  wp False (_ ⇐? assertType key db "string";
    with_tx (
      now ⇐ nowMs;
      r ⇐ query_row TX (CountKeyAlive k now);
      let exists_ := scanned 0 r in
      if NX no_options && bool_decide (exists_ > 0) then ok false
      else if XX no_options && bool_decide (exists_ = 0) then ok false
      else
        _ ⇐? upsertKey key db "string" None; _ ⇐? exec TX (UpsertString k v); _ ⇐? commit; ok true))
    (λ r σ', r = inr true ∧ updates T0 k (overdue_slice m) (com σ')) σ.
Proof.
  intros Hd Hq.
  assert (aliveWhere now (mkKeyRow "list" (Some d)) = false) as Hdead.
  { unfold aliveWhere. cbn. apply bool_decide_eq_false. lia. }
  apply wp_err_bind. unfold assertType, keyType. apply wp_err_bind. eapply wp_nowMs; [exact Hq|]. intros σ1 Hq1.
  apply wp_bind. eapply wp_slice_query_row; [exact Hq1|done|done| |done].
  simpl. rewrite Hdead. apply wp_ret. rewrite decide_False by (by intros [? _]). apply wp_ret.
  repeat sql_step; try done. cbn [NX XX no_options andb]. repeat sql_step; try done.
  split; [done|]. match goal with Hq' : quiet _ _ _ _ ?σ |- _ => apply (quiet_rollback ns T0 k) in Hq' as [_ Hu'] end.
  exact Hu'.
Qed.
End types.

(** A single SET suffices to leave a key of two types: on a list whose
    deadline falls between the clock readings of [deleteExpired] and of
    [keyType], it finds the key neither expired nor alive. *)
Theorem set_past_deadline `{Unicode, Engine E} (w : E) key db v m d ns clk T :
  ¬ faulty E → view w = mkState T None clk → slice_of T (key, db) = list_slice (Some d) m → m ≠ ∅ →
  unix_milli (clk 0%nat) < d ≤ unix_milli ns → (∀ n, clk (S n) = ns) →
  let '(r, w') := run (set_line key db v) w in
  r = inr (SimpleString "OK") ∧ slice_of (com (view w')) (key, db) = overdue_slice v m ∧
  ¬ wf_slice (slice_of (com (view w')) (key, db)).
Proof.
  intros HF Hv Hsl Hm [Hd Hns] Hclk.
  assert (wp (faulty E) (set_line key db v) (λ r σ', r = inr (SimpleString "OK") ∧
    updates T (key, db) (overdue_slice v m) (com σ')) (view w)) as Hwp.
  { eapply (wp_weaken _ False); [done|]. rewrite Hv.
    change (set_line key db v) with (on_store (Set_ key db v no_options) (λ done : bool,
      ok (if done then SimpleString "OK" else NullBulkString))).
    apply (wp_seq _ _ _ (λ r σ', r = inr true ∧ updates T (key, db) (overdue_slice v m) (com σ')));
      [|by intros r σ' [-> Hu]; apply wp_ret]. unfold Set_, deleteExpired.
    apply wp_err_bind, wp_now. apply wp_err_bind, wp_exec_db; [done| |by intros e T' [[_ [?|?]]|[? _]]].
    intros n T' He. apply wp_ret.
    pose proof (sql_exec_slice (DeleteKeyExpired (key, db) (unix_milli (clk 0%nat))) (key, db) T eq_refl) as Ha.
    change (sql_exec (DeleteKeyExpired (key, db) (unix_milli (clk 0%nat))) T = Some (n, T')) in He.
    rewrite He in Ha. cbn [slice_exec] in Ha. unfold slice_delete in Ha.
    rewrite Hsl in Ha. cbn [s_key] in Ha.
    assert (expiredWhere (unix_milli (clk 0%nat)) (mkKeyRow "list" (Some d)) = false) as Hx.
    { unfold expiredWhere. cbn. apply bool_decide_eq_false. lia. }
    rewrite Hx in Ha. destruct Ha as [-> Hu].
    by eapply wp_set_overdue. }
  apply wp_run in Hwp. destruct (run _ w) as [r w']. destruct Hwp as [-> [Hk _]]. split; [done|]. rewrite Hk.
  split; [done|]. inversion 1; by subst.
Qed.

(** ** INCRBY against INCRBY *)

Section counters.
Context (ns : Z) (key : string) (db : Z).
Abbreviation k := (key, db).
Abbreviation now := (unix_milli ns).
(** A statement of a transaction sees what others committed before it. *)
Abbreviation steps := (rtc (pool_step False True (still ns))).

Context (s : string) (exp : option Z) (cur : Z).

Lemma string_entry_slice sl :
  wf_slice sl → abs_entry now sl = Some (mkEntry (RStr s) exp) → 
  sl = string_slice exp s ∧ aliveWhere now (mkKeyRow "string" exp) = true.
Proof.
  intros Hsl Habs. destruct Hsl; unfold abs_entry in Habs; simpl in Habs; try done;
    destruct (aliveWhere _ _) eqn:Ha; simplify_eq/=; done.
Qed.

Context (Halive : aliveWhere now (mkKeyRow "string" exp) = true) (Hparse : parse_int s = Some cur).

(** INCRBY of [d] once it has read [s], in its transaction. *)
Definition incr_rest (d : Z) : prog (result Z) :=
  r ⇐ incr_write key db (Some s) (wrap64 (cur + d));
  _ ⇐ trigger Rollback;
  Ret r.

(** ... before it reads, and before it begins the transaction. *)
Definition incr_read (d : Z) : prog (result Z) :=
  r ⇐ query_row TX (SelString k);
  let raw := match r with Row v => Some v | _ => None end in
  match match raw with Some v => parse_int v | None => Some 0 end with
  | None => err not_an_integer
  | Some cur => incr_write key db raw (wrap64 (cur + d))
  end.

Definition incr_tx (d : Z) : prog (result Z) := with_tx (incr_read d).

Lemma live_string v : live now (string_slice exp v).
Proof. intros r [= <-]. exact Halive. Qed.

Lemma wp_checks_string T0 T v :
  updates T0 k (string_slice exp v) T →
  wp False (deleteExpired key db) (λ r σ', r = inr tt ∧ updates T0 k (string_slice exp v) (com σ')) (start ns T) ∧
  wp False (assertType key db "string") (λ r σ', r = inr tt ∧ updates T0 k (string_slice exp v) (com σ')) (start ns T).
Proof.
  intros Hu. assert (quiet ns T0 k (string_slice exp v) (start ns T)) as Hq by by split. split.
  - eapply wp_deleteExpired; [exact Hq| |done]. intros σ [_ Hu']. split; [done|].
    assert (purge now (string_slice exp v) = string_slice exp v) as Hp; [|by rewrite Hp in Hu'].
    unfold purge, slice_delete. simpl. rewrite aliveWhere_negb in Halive. by destruct (expiredWhere _ _).
  - eapply wp_assertType; [apply live_string|exact Hq|by intros r [= <-]|..|done].
    + intros σ' [_ Hu'] _. by split.
    + by intros σ' r _ [= <-] [].
Qed.

Lemma wp_incr_tx T0 T d :
  updates T0 k (string_slice exp s) T →
  wp False (incr_tx d) (λ r σ', r = inr (wrap64 (cur + d)) ∧
    updates T0 k (string_slice exp (format_int (wrap64 (cur + d)))) (com σ')) (start ns T).
Proof.
  intros Hu. assert (quiet ns T0 k (string_slice exp s) (start ns T)) as Hq by by split.
  unfold incr_tx, incr_read, incr_write. repeat sql_step; simpl; rewrite ?Hparse; repeat sql_step; try done.
  split; [done|]. by match goal with H : quiet _ _ _ _ ?σ |- updates _ _ _ (com ?σ) => destruct H end.
Qed.

Lemma wp_incr_rest T0 T v d :
  updates T0 k (string_slice exp v) T →
  wp False (incr_rest d) (λ r σ', r = inr (wrap64 (cur + d)) ∧
    updates T0 k (string_slice exp (format_int (wrap64 (cur + d)))) (com σ')) (state_of ns T (Some T)).
Proof.
  intros Hu. assert (in_tx ns T0 k (string_slice exp v) (string_slice exp v) (state_of ns T (Some T))) as Hq.
  { split; [done|]. split; [done|]. by exists T. }
  unfold incr_rest, incr_write. repeat sql_step; try done. split; [done|].
  match goal with H : quiet _ _ _ _ ?σ, Hr : step _ Rollback ?σ _ _ |- _ => destruct H; cbn in Hr; by subst end.
Qed.

Lemma incr_rest_conforms d : conforms (in_db db) (incr_rest d) (closed anything) true.
Proof. unfold incr_rest, incr_write. confine. Qed.

(** INCRBY up to its transaction, and all of it, on the string [v]. *)
Lemma incr_checks_steps T0 T v d cs i :
  updates T0 k (string_slice exp v) T → cs !! i = Some (mkClient (IncrBy key db d) None) →
  ∃ T', updates T0 k (string_slice exp v) T' ∧ steps (mkPool T cs) (mkPool T' (<[i := mkClient (incr_tx d) None]> cs)).
Proof.
  intros Hu Hi.
  destruct (solo_operation ns True (λ p, err_bind p (λ _, _ ⇐? assertType key db "string"; incr_tx d))
    (deleteExpired key db) (in_db db) anything (λ r σ', r = inr tt ∧ updates T0 k (string_slice exp v) (com σ')) T cs i)
    as (r & T1 & [-> Hu1] & _ & Hs1); [apply surrounds_bind|exact Hi|confine|by apply wp_checks_string|].
  destruct (solo_operation ns True (λ p, err_bind p (λ _, incr_tx d))
    (assertType key db "string") (in_db db) anything (λ r σ', r = inr tt ∧ updates T0 k (string_slice exp v) (com σ')) T1
    (<[i := mkClient (_ ⇐? assertType key db "string"; incr_tx d) None]> cs) i)
    as (r & T2 & [-> Hu2] & _ & Hs2); [apply surrounds_bind| |confine|by apply wp_checks_string|].
  { apply list_lookup_insert_eq. by eapply lookup_lt_Some. }
  exists T2. split; [done|]. rewrite list_insert_insert_eq in Hs2. by etrans.
Qed.

(** INCRBY begins its transaction and reads. *)
Lemma incr_reads T0 T d cs :
  updates T0 k (string_slice exp s) T →
  steps (mkPool T (mkClient (incr_tx d) None :: cs)) (mkPool T (mkClient (incr_rest d) (Some (mkTx T T)) :: cs)).
Proof.
  intros Hu.
  assert (t_strings T !! k = Some s) as Hs.
  { destruct Hu as [Hk _]. by apply (f_equal s_str) in Hk. }
  set (reading := mkClient (r ⇐ incr_read d; _ ⇐ trigger Rollback; Ret r) (Some (mkTx T T))).
  eapply rtc_l.
  { apply (one_client False True (still ns) 0 (mkClient (incr_tx d) None) T T reading); [done|]. apply client_begin. }
  apply rtc_once. apply (one_client False True (still ns) 0 reading T T (mkClient (incr_rest d) (Some (mkTx T T)))); [done|].
  pose proof (ref_query_reliable (SelString k) T) as Hq. unfold ref_query in Hq. simpl in Hq. rewrite Hs in Hq.
  assert (mkClient (incr_rest d) (Some (mkTx T T)) = mkClient ((λ r : scan string, bind
    (let raw := match r with Row v => Some v | _ => None end in
     match match raw with Some v => parse_int v | None => Some 0 end with
     | None => err not_an_integer
     | Some cur => incr_write key db raw (wrap64 (cur + d))
     end) (λ r, _ ⇐ trigger Rollback; Ret r)) (Row s)) (Some (mkTx T T))) as ->.
  { cbv beta iota zeta. by rewrite Hparse. }
  apply (client_query_tx False True (still ns) T (SelString k) (λ x, bind (bind (Ret (match x with
      | inl e => ScanErr (ErrDb e) | inr [] => NoRows | inr (v :: _) => Row v end)) (λ r,
        let raw := match r with Row v => Some v | _ => None end in
        match match raw with Some v => parse_int v | None => Some 0 end with
        | None => err not_an_integer
        | Some cur => incr_write key db raw (wrap64 (cur + d))
        end)) (λ r, _ ⇐ trigger Rollback; Ret r)) (mkTx T T) (inr [s])).
  exact Hq.
Qed.

Lemma incr_incr_steps T d1 d2 :
  wf T → abs now T !! k = Some (mkEntry (RStr s) exp) →
  ∃ pool, steps (pool_of T [IncrBy key db d1; IncrBy key db d2]) pool ∧
    finished pool [inr (wrap64 (cur + d1)); inr (wrap64 (cur + d2))] ∧
    abs now (p_com pool) = <[k := mkEntry (RStr (format_int (wrap64 (cur + d1)))) exp]> (abs now T).
Proof.
  intros Hwf He. rewrite lookup_abs in He. destruct (string_entry_slice _ (Hwf k) He) as [Hsl _].
  assert (updates T k (string_slice exp s) T) as Hu by (rewrite <- Hsl; apply updates_refl).
  unfold pool_of. cbn [fmap list_fmap].
  destruct (incr_checks_steps T T s d1 [mkClient (IncrBy key db d1) None; mkClient (IncrBy key db d2) None] 0 Hu)
    as (T1 & Hu1 & Hs1); [done|].
  destruct (incr_checks_steps T T1 s d2 [mkClient (incr_tx d1) None; mkClient (IncrBy key db d2) None] 1 Hu1)
    as (T2 & Hu2 & Hs2); [done|].
  assert (steps (mkPool T2 [mkClient (incr_tx d1) None; mkClient (incr_tx d2) None])
    (mkPool T2 [mkClient (incr_rest d1) (Some (mkTx T2 T2)); mkClient (incr_tx d2) None])) as Hs3.
  { by eapply incr_reads. }
  destruct (solo_operation ns True (λ p, p) (incr_tx d2) (in_db db) anything
    (λ r σ', r = inr (wrap64 (cur + d2)) ∧ updates T k (string_slice exp (format_int (wrap64 (cur + d2)))) (com σ')) T2
    [mkClient (incr_rest d1) (Some (mkTx T2 T2)); mkClient (incr_tx d2) None] 1)
    as (r & T4 & [-> Hu4] & _ & Hs4); [apply surrounds_id|done|unfold incr_tx, incr_read, incr_write; confine|by apply wp_incr_tx|].
  assert (steps (mkPool T4 [mkClient (incr_rest d1) (Some (mkTx T2 T2)); mkClient (ok (wrap64 (cur + d2))) None])
    (mkPool T4 [mkClient (incr_rest d1) (Some (mkTx T4 T4)); mkClient (ok (wrap64 (cur + d2))) None])) as Hs5.
  { apply rtc_once. apply (one_client False True (still ns) 0 (mkClient (incr_rest d1) (Some (mkTx T2 T2))) T4 T4
      (mkClient (incr_rest d1) (Some (mkTx T4 T4)))); [done|]. apply client_refresh; [done|by apply merges_unchanged]. }
  destruct (solo_wp ns True (λ p, p) (incr_rest d1) (in_db db) (closed anything)
    (λ r σ', r = inr (wrap64 (cur + d1)) ∧ updates T k (string_slice exp (format_int (wrap64 (cur + d1)))) (com σ')) T4 (Some T4)
    [mkClient (incr_rest d1) (Some (mkTx T4 T4)); mkClient (ok (wrap64 (cur + d2))) None] 0)
    as (r & T6 & W & [-> Hu6] & [Hopen _] & Hs6); [apply surrounds_id|done|apply incr_rest_conforms|by eapply wp_incr_rest|].
  destruct W; [done|].
  eexists. split; [etrans; [exact Hs1|etrans; [exact Hs2|etrans; [exact Hs3|etrans; [exact Hs4|etrans; [exact Hs5|exact Hs6]]]]]|].
  split; [done|]. cbn [p_com]. rewrite (updates_abs now T k _ T6 Hu6).
  apply map_eq. intros k'. destruct (decide (k' = k)) as [->|].
  - rewrite lookup_partial_alter_eq, lookup_insert_eq. unfold abs_entry. cbn. by rewrite Halive.
  - by rewrite lookup_partial_alter_ne, lookup_insert_ne.
Qed.
End counters.

(** The key holds a string that denotes the integer [n]. *)
Definition counter_at (ns : Z) (key : string) (db n : Z) (exp : option Z) (T : Tables) : Prop :=
  ∃ s, abs (unix_milli ns) T !! (key, db) = Some (mkEntry (RStr s) exp) ∧ parse_int s = Some n.

(** C18: On an engine whose transactions see what others commit while they run, as
    PostgreSQL's do by default, two INCRBY of one key may both answer as if
    they were alone, and the first to read is the one whose sum stays: the
    value is read and written back in one transaction, but not locked. *)
Theorem incr_incr_loses ns key db exp cur T d1 d2 :
  wf T → counter_at ns key db cur exp T →
  ∃ pool, rtc (pool_step False True (still ns)) (pool_of T [IncrBy key db d1; IncrBy key db d2]) pool ∧
    finished pool [inr (wrap64 (cur + d1)); inr (wrap64 (cur + d2))] ∧
    abs (unix_milli ns) (p_com pool) =
      <[(key, db) := mkEntry (RStr (format_int (wrap64 (cur + d1)))) exp]> (abs (unix_milli ns) T).
Proof.
  intros Hwf (s & He & Hp). eapply incr_incr_steps; [|exact Hp|exact Hwf|exact He]. rewrite lookup_abs in He.
  by destruct (string_entry_slice _ _ _ _ (Hwf (key, db)) He).
Qed.


(** ** EXEC against any command *)

Section batches.
Context `{Unicode} (startTime : Z) (has_store : bool) (ns : Z).
Abbreviation command_of := (command_of startTime has_store).
Abbreviation steps := (rtc (pool_step False False (still ns))).
Abbreviation alone T := (engine_of ns T None).

(** What EXEC does with its queue, from the connection and the replies so far. *)
Definition batch (cmds : list (list Value)) (acc : ClientConn * list Value) : prog (result (ClientConn * list Value)) :=
  for_each cmds acc (λ '(cc, rs) args,
    '(cc, r) ⇐? dispatch startTime 1 has_store cc args;
    ok (cc, rs ++ [r])).

Lemma dispatch_undisturbed cc q :
  operation (λ _, True) anything (dispatch startTime 1 has_store cc q).
Proof.
  eapply operation_mono; [|apply dispatch_confined; [by split|]]; [done|]. intros q' cc' _ _. by split.
Qed.

(** The first commands of a queue run while the other clients wait. *)
Lemma batch_steps q1 q2 acc acc' T T1 (h : ClientConn * list Value → prog (result (ClientConn * Value))) cs i :
  run (batch q1 acc) (alone T) = (inr acc', alone T1) →
  cs !! i = Some (mkClient (err_bind (batch (q1 ++ q2) acc) h) None) →
  steps (mkPool T cs) (mkPool T1 (<[i := mkClient (err_bind (batch q2 acc') h) None]> cs)).
Proof.
  revert acc T cs. induction q1 as [|q q1 IH]; intros [cc rs] T cs Hrun Hi.
  { cbn in Hrun. simplify_eq. by rewrite list_insert_id. }
  unfold batch in Hrun. cbn [for_each] in Hrun. rewrite !run_err_bind in Hrun.
  destruct (run (dispatch startTime 1 has_store cc q) (alone T)) as [a w] eqn:Ha.
  destruct (solo_steps ns False (λ p, err_bind (err_bind (err_bind p (λ '(cc', r), ok (cc', rs ++ [r]))) (batch (q1 ++ q2))) h)
    (dispatch startTime 1 has_store cc q) (λ _, True) (closed anything) T None cs i a w) as (T' & W' & -> & [Hopen _] & Hs);
    [by intros ???|exact Hi|apply dispatch_undisturbed|exact Ha|].
  destruct W'; [done|]. destruct a as [e|[cc' r]]; [done|]. cbn in Hrun.
  specialize (IH (cc', rs ++ [r]) T' (<[i := mkClient (err_bind (batch (q1 ++ q2) (cc', rs ++ [r])) h) None]> cs) Hrun).
  rewrite list_insert_insert_eq in IH. etrans; [exact Hs|]. apply IH, list_lookup_insert_eq. by eapply lookup_lt_Some.
Qed.

(** C17: EXEC is not atomic: a command line of another connection may run between
    two commands of the queue, see the tables the first ones leave, and leave
    its own to the rest. The queue is dispatched one command after the other,
    with no transaction around it. *)
Theorem exec_interrupted T T1 T2 T3 cc cc1 cc2 q1 q2 rs1 rs other a :
  InMulti cc = true → QueuedCmds cc = q1 ++ q2 →
  run (batch q1 (with_multi false [] cc, [])) (alone T) = (inr (cc1, rs1), alone T1) →
  run (command_of other) (alone T1) = (a, alone T2) →
  run (batch q2 (cc1, rs1)) (alone T2) = (inr (cc2, rs), alone T3) →
  ∃ pool, steps (pool_of T [command_of (cc, [BulkString "EXEC"]); command_of other]) pool ∧
    finished pool [inr (cc2, Array rs); a] ∧ p_com pool = T3.
Proof.
  intros Hm Hq H1 Hother H2. unfold pool_of. cbn [fmap list_fmap]. unfold Clients.command_of at 1. cbn [fst snd].
  rewrite dispatch_EXEC, Hq by done.
  set (h := (λ '(cc', rs), ok (cc', Array rs)) : ClientConn * list Value → prog (result (ClientConn * Value))).
  set (next := mkClient (command_of other) None).
  pose proof (batch_steps q1 q2 _ _ T T1 h
    [mkClient (err_bind (batch (q1 ++ q2) (with_multi false [] cc, [])) h) None; next] 0 H1 eq_refl) as Hs1.
  destruct (solo_steps ns False (λ p, p) (command_of other) (λ _, True) (closed anything) T1 None
    [mkClient (err_bind (batch q2 (cc1, rs1)) h) None; next] 1 a (alone T2)) as (T' & W' & Hw & [Hopen _] & Hs2);
    [by intros ???|done| |exact Hother|].
  { eapply operation_mono; [|eapply conforms_grow; [|apply QueueOrDispatch_confined]]; done. }
  destruct W'; [done|]. assert (T' = T2) as -> by (unfold engine_of in Hw; congruence).
  pose proof (batch_steps q2 [] (cc1, rs1) (cc2, rs) T2 T3 h
    [mkClient (err_bind (batch q2 (cc1, rs1)) h) None; mkClient (Ret a) None] 0 H2) as Hs3.
  rewrite app_nil_r in Hs3. specialize (Hs3 eq_refl).
  eexists. split; [etrans; [exact Hs1|etrans; [exact Hs2|exact Hs3]]|]. done.
Qed.
End batches.

(** ** Witnesses *)

#[local] Existing Instance ascii_only.

Lemma push_push_loses_witness :
  ∃ pool, rtc (pool_step False False (still sample_ns)) (pool_of sample_tables [LPush "l" 0 ["x"]; LPush "l" 0 ["y"]]) pool ∧
    finished pool [inr 4; inr 4] ∧
    abs (unix_milli sample_ns) (p_com pool) =
      <[("l", 0) := mkEntry (RList ["x"; "a"; "b"; "a"]) None]> (abs (unix_milli sample_ns) sample_tables).
Proof.
  apply (push_push_loses sample_ns "l" 0 sample_tables ["a"; "b"; "a"] None); [apply wf_b_sound; by vm_compute|].
  right. by vm_compute.
Defined.

Lemma set_push_mixes_witness :
  ∃ pool, rtc (pool_step False False (still sample_ns))
      (pool_of sample_tables [push_line "new" 0 "x"; set_line "new" 0 "v"]) pool ∧
    finished pool [inr (Integer 1); inr (SimpleString "OK")] ∧
    slice_of (p_com pool) ("new", 0) = mixed_slice "v" "x" ∧
    ¬ wf_slice (slice_of (p_com pool) ("new", 0)) ∧
    abs (unix_milli sample_ns) (p_com pool) =
      <[("new", 0) := mkEntry (RStr "v") None]> (abs (unix_milli sample_ns) sample_tables).
Proof.
  apply (set_push_mixes sample_ns "new" 0 "v" "x" sample_tables); [apply wf_b_sound; by vm_compute|by vm_compute].
Defined.

(** A queue of two SET, and an MGET between them. *)
Lemma exec_interrupted_witness :
  let set k v := [BulkString "SET"; BulkString k; BulkString v] in
  let cc := with_multi true [set "n" "1"; set "t" "1"] (NewClientConn true) in
  let other := (NewClientConn true, [BulkString "MGET"; BulkString "n"; BulkString "t"]) in
  ∃ pool, rtc (pool_step False False (still sample_ns))
      (pool_of empty_tables [command_of 0 true (cc, [BulkString "EXEC"]); command_of 0 true other]) pool ∧
    finished pool [inr (NewClientConn true, Array [SimpleString "OK"; SimpleString "OK"]);
                   inr (NewClientConn true, Array [BulkString "1"; NullBulkString])].
Proof.
  intros set cc other. set (step T q acc := run (batch 0 true q acc) (engine_of sample_ns T None)).
  set (w1 := (step empty_tables [set "n" "1"] (NewClientConn true, [])).2).
  set (T1 := com (view w1)).
  set (T3 := com (view (step T1 [set "t" "1"] (NewClientConn true, [SimpleString "OK"])).2)).
  destruct (exec_interrupted 0 true sample_ns empty_tables T1 T1 T3 cc (NewClientConn true) (NewClientConn true)
    [set "n" "1"] [set "t" "1"] [SimpleString "OK"] [SimpleString "OK"; SimpleString "OK"] other
    (inr (NewClientConn true, Array [BulkString "1"; NullBulkString]))) as (pool & Hsteps & Hfin & _);
    [done|done|by vm_compute..|].
  by exists pool.
Defined.

Lemma incr_incr_loses_witness :
  ∃ pool, rtc (pool_step False True (still sample_ns)) (pool_of sample_tables [IncrBy "n" 0 1; IncrBy "n" 0 5]) pool ∧
    finished pool [inr 11; inr 15] ∧
    abs (unix_milli sample_ns) (p_com pool) =
      <[("n", 0) := mkEntry (RStr "11") None]> (abs (unix_milli sample_ns) sample_tables).
Proof.
  apply (incr_incr_loses sample_ns "n" 0 None 10 sample_tables 1 5);
    [apply wf_b_sound; by vm_compute|exists "10"; split; by vm_compute].
Defined.
