(* ===== verification/Broker.v ===== *)
(** The publish/subscribe broker ([src/internal/pubsub/broker.go]). Every
    method runs under the broker's lock, so each is one step on its state. *)
From S2P Require Import Prelude.
Local Open Scope Z_scope.

Section broker.
(** Subscribers are compared by identity. *)
Context {Sub : Type} `{!EqDecision Sub}.
Implicit Types (sub target : Sub) (subs : list Sub).

(** ** State and operations *)

(** [subs map[string][]Subscriber]. *)
Abbreviation broker := (gmap string (list Sub)) (only parsing).
Implicit Types b : broker.

Definition New : broker := ∅.

(** [b.subs[channel]]: an absent channel reads as nil. *)
Definition subs_of b (channel : string) : list Sub := default [] (b !! channel).

Definition occurrences sub subs : nat := length (filter (λ s, s = sub) subs).

(** The nested loops of [countForSub]; the order of the map does not matter
    to a sum. *)
Definition countForSub b sub : Z :=
  map_fold (λ _ subs n, n + Z.of_nat (occurrences sub subs)) 0 b.

Definition removeOne subs target : list Sub :=
  (foldl (λ '(removed, result) s,
    if decide (removed = false ∧ s = target) then (true, result)
    else (removed, result ++ [s])) (false, []) subs).2.

Definition Subscribe b (channel : string) sub : broker * Z :=
  let b' := <[channel := subs_of b channel ++ [sub]]> b in (b', countForSub b' sub).

(** [b.subs[ch] = removeOne(b.subs[ch], sub)], and the channel is deleted
    when nobody is left. *)
Definition drop_from b (channel : string) sub : broker :=
  let subs := removeOne (subs_of b channel) sub in
  if decide (length subs = 0%nat) then delete channel b else <[channel := subs]> b.

(** [order] is the order in which Go visits the channels of the map; only
    the channel being visited is deleted on the way. *)
Definition Unsubscribe (order : list string) b (channel : string) sub : broker * Z :=
  if decide (channel = "") then
    (foldl (λ b ch, drop_from b ch sub) b order, 0)
  else
    let b' := drop_from b channel sub in (b', countForSub b' sub).

(** The deliveries, one per subscription, and their number. *)
Definition Publish b (channel message : string) : list (Sub * string * string) * Z :=
  ((λ s, (s, channel, message)) <$> subs_of b channel, Z.of_nat (length (subs_of b channel))).

(** [order] visits every channel of [b] once. *)
Definition visits (order : list string) b : Prop := order ≡ₚ (map_to_list b).*1.

(** ** Removing one subscription *)

Lemma remove_scan_done target subs acc :
  foldl (λ '(removed, result) s,
    if decide (removed = false ∧ s = target) then (true, result)
    else (removed, result ++ [s])) (true, acc) subs = (true, acc ++ subs).
Proof.
  revert acc. induction subs as [|s subs IH]; intros acc; cbn [foldl]; [by rewrite app_nil_r|].
  rewrite decide_False by by intros []. by rewrite IH, <- app_assoc.
Qed.

Lemma remove_scan_absent target subs acc :
  target ∉ subs →
  foldl (λ '(removed, result) s,
    if decide (removed = false ∧ s = target) then (true, result)
    else (removed, result ++ [s])) (false, acc) subs = (false, acc ++ subs).
Proof.
  revert acc. induction subs as [|s subs IH]; intros acc Hn; cbn [foldl]; [by rewrite app_nil_r|].
  apply not_elem_of_cons in Hn as [Hs Hn]. rewrite decide_False by (intros [_ ?]; congruence).
  by rewrite IH, <- app_assoc.
Qed.

Lemma removeOne_absent subs target : target ∉ subs → removeOne subs target = subs.
Proof. intros Hn. unfold removeOne. by rewrite remove_scan_absent. Qed.

Lemma removeOne_first l1 l2 target :
  target ∉ l1 → removeOne (l1 ++ target :: l2) target = l1 ++ l2.
Proof.
  intros Hn. unfold removeOne. rewrite foldl_app, remove_scan_absent by done. cbn [foldl].
  rewrite decide_True by done. by rewrite remove_scan_done.
Qed.

(** The list splits at the first occurrence. *)
Lemma first_occurrence target subs :
  target ∉ subs ∨ ∃ l1 l2, subs = l1 ++ target :: l2 ∧ target ∉ l1.
Proof.
  induction subs as [|s subs IH]; [left; apply not_elem_of_nil|].
  destruct (decide (s = target)) as [->|Hne].
  { right. exists [], subs. split; [done|apply not_elem_of_nil]. }
  destruct IH as [Hn|(l1 & l2 & -> & Hn)]; [left|right].
  - by apply not_elem_of_cons.
  - exists (s :: l1), l2. split; [done|]. by apply not_elem_of_cons.
Qed.

Lemma occurrences_app sub l1 l2 :
  occurrences sub (l1 ++ l2) = (occurrences sub l1 + occurrences sub l2)%nat.
Proof. unfold occurrences. by rewrite list.filter_app, length_app. Qed.

Lemma occurrences_absent sub subs : sub ∉ subs ↔ occurrences sub subs = 0%nat.
Proof.
  unfold occurrences. rewrite length_zero_iff_nil. split.
  - intros Hn. induction subs as [|s subs IH]; [done|].
    apply not_elem_of_cons in Hn as [Hs Hn]. rewrite filter_cons, decide_False by congruence. auto.
  - intros Hf Hin. assert (sub ∈ filter (λ s, s = sub) subs) as Hin'
      by by apply list_elem_of_filter.
    rewrite Hf in Hin'. by apply not_elem_of_nil in Hin'.
Qed.

Lemma occurrences_cons sub s subs :
  occurrences sub (s :: subs) = ((if decide (s = sub) then 1 else 0) + occurrences sub subs)%nat.
Proof. unfold occurrences. rewrite filter_cons. by case_decide. Qed.

Lemma occurrences_removeOne sub target subs :
  occurrences sub (removeOne subs target) =
    (occurrences sub subs - if decide (sub = target) then 1 else 0)%nat.
Proof.
  destruct (first_occurrence target subs) as [Hn|(l1 & l2 & -> & Hn)].
  - rewrite removeOne_absent by done. case_decide; subst; [|lia].
    apply occurrences_absent in Hn. lia.
  - rewrite removeOne_first, !occurrences_app, occurrences_cons by done.
    destruct (decide (target = sub)), (decide (sub = target)); subst; try done; lia.
Qed.

(** ** The abstract state: how often a subscriber is on a channel *)

Definition mult b (channel : string) sub : nat := occurrences sub (subs_of b channel).

(** No channel is kept without subscribers. *)
Definition wf_broker b : Prop := ∀ ch subs, b !! ch = Some subs → subs ≠ [].

Lemma subs_of_insert b ch ch' subs :
  subs_of (<[ch := subs]> b) ch' = if decide (ch = ch') then subs else subs_of b ch'.
Proof.
  unfold subs_of. case_decide; subst; [by rewrite lookup_insert_eq|by rewrite lookup_insert_ne].
Qed.

Lemma subs_of_drop b ch ch' sub :
  subs_of (drop_from b ch sub) ch' =
    if decide (ch = ch') then removeOne (subs_of b ch) sub else subs_of b ch'.
Proof.
  unfold drop_from. destruct (decide (length _ = 0%nat)) as [Hz|Hz].
  - apply nil_length_inv in Hz. unfold subs_of at 1. case_decide; subst.
    + by rewrite lookup_delete_eq, Hz.
    + by rewrite lookup_delete_ne.
  - apply subs_of_insert.
Qed.

Lemma wf_drop b ch sub : wf_broker b → wf_broker (drop_from b ch sub).
Proof.
  intros Hwf ch' subs. unfold drop_from. case_decide as Hz.
  - rewrite lookup_delete_Some. intros [_ Hl]. by eapply Hwf.
  - rewrite lookup_insert_Some. intros [[-> <-]|[_ Hl]]; [|by eapply Hwf].
    by intros Hnil; rewrite Hnil in Hz.
Qed.

Lemma wf_Subscribe b channel sub : wf_broker b → wf_broker (Subscribe b channel sub).1.
Proof.
  intros Hwf ch subs. simpl. rewrite lookup_insert_Some.
  intros [[_ <-]|[_ Hl]]; [|by eapply Hwf]. by destruct (subs_of b channel).
Qed.

Lemma wf_Unsubscribe order b channel sub : wf_broker b → wf_broker (Unsubscribe order b channel sub).1.
Proof.
  intros Hwf. unfold Unsubscribe. case_decide; [|by apply wf_drop]. simpl.
  revert b Hwf. induction order as [|ch order IH]; intros b Hwf; simpl; [done|].
  by apply IH, wf_drop.
Qed.

(** Every operation keeps the state without empty channels. *)
Theorem broker_wf_preserved b order channel sub :
  wf_broker b →
  wf_broker (Subscribe b channel sub).1 ∧ wf_broker (Unsubscribe order b channel sub).1.
Proof.
  intros Hwf. split; [by apply wf_Subscribe|by apply wf_Unsubscribe].
Qed.

Lemma mult_drop b ch ch' sub sub' :
  mult (drop_from b ch sub) ch' sub' =
    (mult b ch' sub' - if decide (ch = ch' ∧ sub' = sub) then 1 else 0)%nat.
Proof.
  unfold mult. rewrite subs_of_drop. destruct (decide (ch = ch')) as [->|Hne].
  - rewrite occurrences_removeOne. destruct (decide (sub' = sub)); subst.
    + by rewrite decide_True.
    + rewrite decide_False; [done|]. by intros [].
  - rewrite decide_False; [lia|]. by intros [].
Qed.

Lemma mult_drop_all order b ch sub sub' :
  NoDup order →
  mult (foldl (λ b ch, drop_from b ch sub) b order) ch sub' =
    (mult b ch sub' - if decide (ch ∈ order ∧ sub' = sub) then 1 else 0)%nat.
Proof.
  revert b. induction order as [|c order IH]; intros b Hnd; cbn [foldl].
  { rewrite decide_False; [lia|]. by intros [?%not_elem_of_nil _]. }
  apply list.NoDup_cons in Hnd as [Hc Hnd]. rewrite IH, mult_drop by done.
  destruct (decide (sub' = sub)) as [->|Hne].
  2: { rewrite !decide_False by (by intros [_ ?]). lia. }
  destruct (decide (c = ch)) as [->|Hne].
  - rewrite (decide_False (P := ch ∈ order ∧ _)) by (by intros [? _]).
    rewrite !decide_True by (split; [|done]; done || by left). lia.
  - rewrite (decide_False (P := c = ch ∧ _)) by (by intros [? _]). rewrite Nat.sub_0_r. f_equal.
    apply decide_ext. rewrite elem_of_cons. intuition congruence.
Qed.

Lemma visits_NoDup order b : visits order b → NoDup order.
Proof. intros Hv. rewrite Hv. apply NoDup_fst_map_to_list. Qed.

Lemma visits_elem order b ch : visits order b → ch ∈ order ↔ is_Some (b !! ch).
Proof.
  intros Hv. rewrite Hv, list_elem_of_fmap. split.
  - intros ([c subs] & -> & Hin%elem_of_map_to_list). by eexists.
  - intros [subs Hs]. exists (ch, subs). split; [done|]. by apply elem_of_map_to_list.
Qed.

Lemma mult_absent b ch sub : b !! ch = None → mult b ch sub = 0%nat.
Proof. intros Hb. unfold mult, subs_of. by rewrite Hb. Qed.

Lemma subs_of_Subscribe b channel sub ch :
  subs_of (Subscribe b channel sub).1 ch =
    subs_of b ch ++ (if decide (ch = channel) then [sub] else []).
Proof.
  unfold Subscribe; cbn [fst]. rewrite subs_of_insert. destruct (decide (channel = ch)) as [->|Hne].
  - by rewrite decide_True.
  - by rewrite decide_False, app_nil_r.
Qed.

Lemma mult_Subscribe b channel sub ch sub' :
  mult (Subscribe b channel sub).1 ch sub' =
    (mult b ch sub' + if decide (ch = channel ∧ sub' = sub) then 1 else 0)%nat.
Proof.
  unfold mult. rewrite subs_of_Subscribe, occurrences_app. f_equal.
  destruct (decide (ch = channel)) as [->|Hne].
  - rewrite occurrences_cons. destruct (decide (sub = sub')) as [->|Hs]; [by rewrite decide_True|].
    rewrite decide_False; [done|]. by intros [_ ->].
  - rewrite decide_False; [done|]. by intros [? _].
Qed.

Lemma mult_Unsubscribe b order channel sub ch sub' :
  visits order b →
  mult (Unsubscribe order b channel sub).1 ch sub' =
    (mult b ch sub' -
     if decide ((channel = "" ∨ ch = channel) ∧ sub' = sub) then 1 else 0)%nat.
Proof.
  intros Hv. unfold Unsubscribe. destruct (decide (channel = "")) as [->|Hne]; cbn [fst].
  - rewrite mult_drop_all by by eapply visits_NoDup.
    destruct (decide (ch ∈ order)) as [Hin|Hn].
    + f_equal. apply decide_ext. naive_solver.
    + rewrite mult_absent by (by apply eq_None_not_Some; rewrite <- visits_elem). lia.
  - rewrite mult_drop. f_equal. apply decide_ext. naive_solver.
Qed.

(** [SUBSCRIBE] adds one subscription of [sub] to the channel, last in
    delivery order, and changes nothing else. *)
Theorem Subscribe_correct b channel sub ch sub' :
  mult (Subscribe b channel sub).1 ch sub' =
    (mult b ch sub' + if decide (ch = channel ∧ sub' = sub) then 1 else 0)%nat ∧
  subs_of (Subscribe b channel sub).1 ch =
    subs_of b ch ++ (if decide (ch = channel) then [sub] else []).
Proof. split; [apply mult_Subscribe|apply subs_of_Subscribe]. Qed.

(** C31: [UNSUBSCRIBE channel] removes one subscription of [sub] to that channel;
    [Unsubscribe("")] removes one from every channel. *)
Theorem Unsubscribe_correct b order channel sub ch sub' :
  visits order b →
  mult (Unsubscribe order b channel sub).1 ch sub' =
    (mult b ch sub' -
     if decide ((channel = "" ∨ ch = channel) ∧ sub' = sub) then 1 else 0)%nat.
Proof. apply mult_Unsubscribe. Qed.

(** [countForSub] is the total number of [sub]'s subscriptions. *)
Definition total b sub : Z := foldr (λ ch n, Z.of_nat (mult b ch sub) + n) 0 (map_to_list b).*1.

Theorem countForSub_correct b sub : countForSub b sub = total b sub.
Proof.
  unfold countForSub, total. rewrite map_fold_foldr. unfold uncurry.
  assert (∀ l : list (string * list Sub), (∀ p, p ∈ l → p ∈ map_to_list b) →
    foldr (λ '(_, subs) n, n + Z.of_nat (occurrences sub subs)) 0 l =
    foldr (λ ch n, Z.of_nat (mult b ch sub) + n) 0 l.*1) as Hgen.
  { induction l as [|[ch subs] l IH]; intros Hl; [done|]. rewrite fmap_cons. cbn [foldr fst].
    rewrite IH by (intros p Hp; apply Hl; by right).
    assert (b !! ch = Some subs) as Hb by (apply elem_of_map_to_list, Hl; by left).
    assert (mult b ch sub = occurrences sub subs) as -> by (unfold mult, subs_of; by rewrite Hb). lia. }
  by apply Hgen.
Qed.

Lemma Publish_to b channel message : (Publish b channel message).1.*1.*1 = subs_of b channel.
Proof. unfold Publish; simpl. rewrite <- !list_fmap_compose. apply list_fmap_id. Qed.

(** [PUBLISH] delivers the message once per subscription to the channel, in
    the order of subscription, and answers their number. *)
Theorem Publish_correct b channel message :
  (Publish b channel message).1.*1.*1 = subs_of b channel ∧
  Forall (λ d, d.1.2 = channel ∧ d.2 = message) (Publish b channel message).1 ∧
  (Publish b channel message).2 = Z.of_nat (length (Publish b channel message).1).
Proof.
  split; [apply Publish_to|]. split; [|by simpl; rewrite length_fmap].
  apply list.Forall_fmap, list.Forall_forall. done.
Qed.

(** After [Unsubscribe("")], which the server calls when a connection ends,
    a subscriber receives nothing more, provided it never subscribed twice
    to a channel. *)
Theorem disconnect_clean b order sub channel message :
  visits order b → (∀ ch, (mult b ch sub ≤ 1)%nat) →
  sub ∉ (Publish (Unsubscribe order b "" sub).1 channel message).1.*1.*1.
Proof.
  intros Hv Hone. rewrite Publish_to. apply occurrences_absent. change (mult (Unsubscribe order b "" sub).1 channel sub = 0%nat).
  rewrite mult_Unsubscribe, decide_True by auto. specialize (Hone channel). lia.
Qed.

(** C39: A connection that subscribed to a channel twice stays subscribed after
    its disconnect: one subscription per channel is all that is removed. *)
Theorem disconnect_leak b order sub channel message :
  visits order b → (2 ≤ mult b channel sub)%nat →
  sub ∈ (Publish (Unsubscribe order b "" sub).1 channel message).1.*1.*1.
Proof.
  intros Hv Htwo. rewrite Publish_to.
  destruct (decide (sub ∈ subs_of (Unsubscribe order b "" sub).1 channel)) as [|Hn]; [done|].
  apply occurrences_absent in Hn. change (mult (Unsubscribe order b "" sub).1 channel sub = 0%nat) in Hn.
  rewrite mult_Unsubscribe, decide_True in Hn by auto. lia.
Qed.
End broker.

(** ** Witnesses *)

Lemma broker_wf_preserved_witness :
  let b : gmap string (list nat) := {["c" := [1%nat; 2%nat]]} in
  wf_broker (Subscribe b "c" 2%nat).1 ∧ wf_broker (Unsubscribe ["c"] b "c" 2%nat).1.
Proof. intros b. apply broker_wf_preserved. intros ch subs. unfold b. rewrite lookup_singleton_Some. by intros [_ <-]. Defined.

Lemma Unsubscribe_correct_witness :
  let b : gmap string (list nat) := {["c" := [1%nat; 2%nat]]} in
  mult (Unsubscribe ["c"] b "c" 2%nat).1 "c" 2%nat =
    (mult b "c" 2%nat - if decide (("c" = "" ∨ "c" = "c") ∧ 2 = 2)%nat then 1 else 0)%nat.
Proof. intros b. apply (Unsubscribe_correct b ["c"] "c" 2%nat "c" 2%nat). by vm_compute. Defined.

Lemma disconnect_clean_witness :
  let b : gmap string (list nat) := {["c" := [1%nat; 2%nat]]} in
  2%nat ∉ (Publish (Unsubscribe ["c"] b "" 2%nat).1 "c" "m").1.*1.*1.
Proof. intros b. apply disconnect_clean; [by vm_compute|]. intros ch. unfold mult, subs_of, b.
  destruct (decide (ch = "c")) as [->|Hne]; [vm_compute; repeat constructor|]. rewrite lookup_singleton_ne by done. vm_compute; repeat constructor. Defined.

Lemma disconnect_leak_witness :
  let b : gmap string (list nat) := {["c" := [2%nat; 2%nat]]} in
  2%nat ∈ (Publish (Unsubscribe ["c"] b "" 2%nat).1 "c" "m").1.*1.*1.
Proof. intros b. apply disconnect_leak; [by vm_compute|]. vm_compute; repeat constructor. Defined.
