(* ===== verification/Server.v ===== *)
(** The server's connection handler ([src/internal/server/server.go]):
    authentication, publish/subscribe, and the commands of Dispatch.v, for a
    connection that nobody disturbs. A transition system whose events are whole
    messages serves the theorem on authentication; Serving.v has the calls of
    several connections interleave. *)
From S2P Require Import Prelude GoStd Float Sql Effects Behaviour Keyspace Sample Store StoreKeys Glob Resp Commands Soundness Dispatch Session Broker Calls Integrity Lawful.
Local Open Scope Z_scope.
Local Open Scope go_scope.

(** A [connSub] is known by its address. *)
Abbreviation Sub := nat (only parsing).
Abbreviation broker := (gmap string (list nat)) (only parsing).

(** A value written to the connection of a subscriber. *)
Abbreviation write := (nat * Value)%type (only parsing).

(** [connSub.Deliver]. *)
Definition Deliver (d : nat * string * string) : write :=
  let '(sub, channel, message) := d in
  (sub, Array [BulkString "message"; BulkString channel; BulkString message]).

(** [toArgs]. *)
Definition toArgs (v : Value) : list Value :=
  if decide (Type_ v = TypeArray) then Elems v else [v].

(** The variables of [handleConn] that live as long as the connection: [cc]
    and [subscribedChannels]. *)
Record Conn := mkConn { conn_cc : ClientConn; subscribedChannels : gset string }.

Definition with_cc (cc : ClientConn) (c : Conn) : Conn := mkConn cc (subscribedChannels c).
Definition with_channels (chs : gset string) (c : Conn) : Conn := mkConn (conn_cc c) chs.

(** What handling a message leaves: the broker, the connection, the values
    written in order, and whether the handler returns. *)
Record Handled := mkHandled {
  h_broker : broker;
  h_conn : Conn;
  h_writes : list write;
  h_return : bool;
}.

Definition noauth_reply : Value := Error "NOAUTH Authentication required.".

Section server.
Context `{Unicode, Runtime} (startTime : Z).
(** [cfg.Password], and whether [cfg.Store] is set. *)
Context (Password : string) (has_store : bool).

(** [handleAuth]. *)
Definition handleAuth (cc : ClientConn) (args : list Value) : ClientConn * Value :=
  match args with
  | _ :: given :: _ =>
      if decide (Password = "") then (with_auth true cc, SimpleString "OK")
      else if decide (Str given = Password) then (with_auth true cc, SimpleString "OK")
      else (cc, Error "WRONGPASS invalid username-password pair or user is disabled.")
  | _ => (cc, Error "ERR wrong number of arguments for 'auth' command")
  end.

(** [s.broker.Unsubscribe]: only the empty channel visits the map. *)
Definition unsubscribe (b : broker) (channel : string) (sub : nat) : prog (broker * Z) :=
  if decide (channel = "") then
    order ⇐ trigger (RangeMap (map_to_list b).*1);
    Ret (Unsubscribe order b channel sub)
  else Ret (Unsubscribe [] b channel sub).

(** The loop of SUBSCRIBE over the channels. *)
Fixpoint subscribe_each (sub : nat) (chs : list Value) (b : broker) (subscribed : gset string)
    : broker * gset string * list write :=
  match chs with
  | [] => (b, subscribed, [])
  | a :: chs' =>
      let ch := Str a in
      let '(b, n) := Subscribe b ch sub in
      let '(b, subscribed, ws) := subscribe_each sub chs' b ({[ch]} ∪ subscribed) in
      (b, subscribed, (sub, Array [BulkString "subscribe"; BulkString ch; Integer n]) :: ws)
  end.

(** The loop of UNSUBSCRIBE over the channels. *)
Fixpoint unsubscribe_each (sub : nat) (chs : list Value) (b : broker) (subscribed : gset string)
    : prog (broker * gset string * list write) :=
  match chs with
  | [] => Ret (b, subscribed, [])
  | a :: chs' =>
      let ch := Str a in
      '(b, n) ⇐ unsubscribe b ch sub;
      '(b, subscribed, ws) ⇐ unsubscribe_each sub chs' b (subscribed ∖ {[ch]});
      Ret (b, subscribed, (sub, Array [BulkString "unsubscribe"; BulkString ch; Integer n]) :: ws)
  end.

(** One turn of the loop of [handleConn], after the read. *)
Definition handle_value (sub : nat) (b : broker) (c : Conn) (v : Value) : prog (result Handled) :=
  let args := toArgs v in
  let goes_on b c ws := ok (mkHandled b c ws false) in
  match args with
  | [] => goes_on b c []
  | a :: rest =>
      let name := ToUpper (Str a) in
      if decide (Authenticated (conn_cc c) = false ∧ name ≠ "AUTH" ∧ name ≠ "QUIT") then
        goes_on b c [(sub, noauth_reply)]
      else if decide (name = "AUTH") then
        let '(cc, r) := handleAuth (conn_cc c) args in
        goes_on b (with_cc cc c) [(sub, r)]
      else if decide (name = "SUBSCRIBE") then
        let '(b, chs, ws) := subscribe_each sub rest b (subscribedChannels c) in
        goes_on b (with_channels chs c) ws
      else if decide (name = "UNSUBSCRIBE") then
        if decide (length args = 1%nat) then
          '(b, _) ⇐ unsubscribe b "" sub;
          goes_on b (with_channels ∅ c)
            [(sub, Array [BulkString "unsubscribe"; NullBulkString; Integer 0])]
        else
          '(b, chs, ws) ⇐ unsubscribe_each sub rest b (subscribedChannels c);
          goes_on b (with_channels chs c) ws
      else if decide (name = "PUBLISH") then
        match rest with
        | channel :: message :: _ =>
            let '(deliveries, n) := Publish b (Str channel) (Str message) in
            goes_on b c ((Deliver <$> deliveries) ++ [(sub, Integer n)])
        | _ => goes_on b c [(sub, Error "ERR wrong number of arguments for 'publish' command")]
        end
      else
        '(cc, r) ⇐? QueueOrDispatch startTime has_store (conn_cc c) args;
        if decide (name = "QUIT") then
          '(b, _) ⇐ unsubscribe b "" sub;
          ok (mkHandled b (with_cc cc c) [(sub, r)] true)
        else goes_on b (with_cc cc c) [(sub, r)]
  end.

(** The loop of [handleConn] on all that the client sends before it closes
    its side; any read error ends it. *)
Fixpoint serve (fuel : nat) (sub : nat) (b : broker) (c : Conn) (input : list ascii)
    : prog (result (broker * list write)) :=
  match fuel with
  | O => err out_of_fuel
  | S fuel' =>
      match ReadValue input with
      | inl RPanic | inl RFatal => err Panic
      | inl _ => '(b, _) ⇐ unsubscribe b "" sub; ok (b, [])
      | inr (v, input) =>
          h ⇐? handle_value sub b c v;
          if h_return h then ok (h_broker h, h_writes h)
          else
            '(b, ws) ⇐? serve fuel' sub (h_broker h) (h_conn h) input;
            ok (b, h_writes h ++ ws)
      end
  end.

Definition new_conn : Conn := mkConn (NewClientConn (bool_decide (Password = ""))) ∅.

Definition handleConn (sub : nat) (b : broker) (input : list ascii) : prog (result (broker * list write)) :=
  serve (S (length input)) sub b new_conn input.

(** ** Handling one message *)

(** The message is AUTH with the password. *)
Definition unlocks (v : Value) : Prop :=
  ∃ a given rest, toArgs v = a :: given :: rest ∧ ToUpper (Str a) = "AUTH" ∧
    (Password = "" ∨ Str given = Password).

(** A broker step on behalf of [sub]: no other subscriber notices. *)
Definition others_kept (sub : nat) (b b' : broker) : Prop :=
  (wf_broker b → wf_broker b') ∧ ∀ ch s, s ≠ sub → mult b' ch s = mult b ch s.

#[export] Instance others_kept_preorder sub : PreOrder (others_kept sub).
Proof.
  split; [intros b; by split|]. intros b b' b'' [Hwf Hm] [Hwf' Hm']. split; [auto|].
  intros ch s Hs. by rewrite Hm', Hm.
Qed.

Lemma others_kept_Subscribe sub b ch : others_kept sub b (Subscribe b ch sub).1.
Proof.
  split; [apply wf_Subscribe|]. intros ch' s Hs. rewrite mult_Subscribe, decide_False; [lia|].
  by intros [_ ?].
Qed.

Lemma others_kept_Unsubscribe sub order b ch :
  visits order b → others_kept sub b (Unsubscribe order b ch sub).1.
Proof.
  intros Hv. split; [apply wf_Unsubscribe|]. intros ch' s Hs.
  rewrite mult_Unsubscribe, decide_False by (done || by intros [_ ?]). lia.
Qed.

Lemma others_kept_subscribe_each sub chs b subscribed :
  others_kept sub b (subscribe_each sub chs b subscribed).1.1.
Proof.
  revert b subscribed. induction chs as [|a chs IH]; intros b subscribed; [done|]. cbn [subscribe_each]. cbv zeta.
  pose proof (others_kept_Subscribe sub b (Str a)) as Hsub. destruct (Subscribe _ _ _) as [b' n].
  specialize (IH b' ({[Str a]} ∪ subscribed)). destruct (subscribe_each _ _ _ _) as [[b'' chs'] ws].
  simpl in *. etrans; [exact Hsub|exact IH].
Qed.

(** The broker's method as a program: the tables are not involved. *)
Lemma wp_unsubscribe {A} F b ch sub (k : broker * Z → prog A) Q σ :
  (∀ order, visits order b → wp F (k (Unsubscribe order b ch sub)) Q σ) →
  wp F (bind (unsubscribe b ch sub) k) Q σ.
Proof.
  intros Hk. unfold unsubscribe. case_decide as Hch.
  - apply wp_bind, wp_range_bind. intros order Hv. by apply Hk.
  - replace (Unsubscribe [] b ch sub) with (Unsubscribe (map_to_list b).*1 b ch sub).
    + apply Hk. by unfold visits.
    + unfold Unsubscribe. by rewrite !decide_False.
Qed.

Lemma wp_unsubscribe_each F sub chs b subscribed σ :
  wp F (unsubscribe_each sub chs b subscribed) (λ r σ', σ' = σ ∧ others_kept sub b r.1.1) σ.
Proof.
  revert b subscribed. induction chs as [|a chs IH]; intros b subscribed; [by split|].
  cbn [unsubscribe_each]. cbv zeta. apply wp_unsubscribe. intros order Hv.
  pose proof (others_kept_Unsubscribe sub order b (Str a) Hv) as Hb.
  destruct (Unsubscribe order b (Str a) sub) as [b' n]. eapply wp_seq; [apply IH|].
  intros [[b'' subscribed'] ws] σ' [-> Hb']. split; [done|]. etrans; [exact Hb|exact Hb'].
Qed.

(** A reply that carries no data. *)
Definition status (r : Value) : bool := match r with SimpleString _ | Error _ => true | _ => false end.

(** QUIT runs no statement, whatever its arguments. *)
Lemma quit_pure cc args :
  name_of args = "QUIT" → ∃ r, status r ∧ QueueOrDispatch startTime has_store cc args = ok (cc, r).
Proof.
  intros Hname. destruct args as [|a args]; [done|]. simpl in Hname.
  assert (∃ r, status r ∧ Dispatch startTime has_store cc (a :: args) = ok (cc, r)) as Hd.
  { unfold Dispatch. cbn [dispatch]. cbv zeta. rewrite Hname.
    assert (registry startTime !! "QUIT" = Some (plain "QUIT" 1 1 (replying cmdQuit))) as ->.
    { apply registry_iff. split; [|done]. unfold commands. rewrite !elem_of_app. do 5 right. left.
      right; right; by left. }
    repeat (case_decide; [by eexists; split; [|reflexivity]|]). by eexists; split; [|reflexivity]. }
  unfold QueueOrDispatch. destruct (InMulti cc); cbn [negb]; [|exact Hd]. cbv zeta.
  case_decide as Hx; [exact Hd|]. case_decide; [by eexists; split; [|reflexivity]|].
  destruct (registry startTime !! upperStr (Str a)) as [c|] eqn:Hc; [|by eexists; split; [|reflexivity]].
  pose proof (ToUpper_registered _ _ _ Hc) as Hup. destruct Hx. rewrite <- Hup, Hname. auto.
Qed.

Abbreviation conn_ok := (conn_ok startTime).

Section kept.
(** What every command keeps. *)
Context (I : State → Prop).
Context (HI : ∀ cc args σ, I σ → conn_ok cc →
  wp True (QueueOrDispatch startTime has_store cc args) (λ r σ', I σ' ∧ (r = inl Panic → may_panic cc args)) σ).

(** What handling [v] for [sub] may do from [b], [c] and the state [σ]. *)
Definition handled (sub : nat) (b : broker) (c : Conn) (v : Value) (σ : State)
    (r : result Handled) (σ' : State) : Prop :=
  I σ' ∧ (Authenticated (conn_cc c) = false → com σ' = com σ) ∧
  match r with
  | inl e => e = Panic ∧ may_panic (conn_cc c) (toArgs v)
  | inr h =>
      conn_ok (conn_cc (h_conn h)) ∧ others_kept sub b (h_broker h) ∧
      QueuedCmds (conn_cc (h_conn h)) ⊆ toArgs v :: QueuedCmds (conn_cc c) ∧
      (Authenticated (conn_cc (h_conn h)) = true → Authenticated (conn_cc c) = true ∨ unlocks v)
  end.

(** The branches that leave the tables. *)
Lemma handled_quiet sub b c v σ h :
  I σ → conn_ok (conn_cc (h_conn h)) → others_kept sub b (h_broker h) →
  QueuedCmds (conn_cc (h_conn h)) = QueuedCmds (conn_cc c) →
  (Authenticated (conn_cc (h_conn h)) = true → Authenticated (conn_cc c) = true ∨ unlocks v) →
  handled sub b c v σ (inr h) σ.
Proof.
  intros ? ? ? Hq ?. split; [done|]. split; [done|]. do 2 (split; [done|]). split; [rewrite Hq; set_solver|done].
Qed.

Lemma handleAuth_ok cc args :
  conn_ok cc → conn_ok (handleAuth cc args).1 ∧ QueuedCmds (handleAuth cc args).1 = QueuedCmds cc ∧
  (Authenticated (handleAuth cc args).1 = true → Authenticated cc = true ∨
    ∃ a given rest, args = a :: given :: rest ∧ (Password = "" ∨ Str given = Password)).
Proof.
  intros Hcc. destruct args as [|a [|given rest]]; simpl; [by auto..|].
  repeat case_decide; simpl; (split; [done|]); (split; [done|]); eauto 10.
Qed.

Lemma wp_handle_value sub b c v σ :
  I σ → conn_ok (conn_cc c) →
  wp True (handle_value sub b c v) (handled sub b c v σ) σ.
Proof.
  intros Hr Hcc. unfold handle_value. cbv zeta. destruct (toArgs v) as [|a rest] eqn:Hargs.
  { apply wp_ret, handled_quiet; auto. reflexivity. }
  case_decide as Hlocked; [apply wp_ret, handled_quiet; auto; reflexivity|].
  case_decide as Hauth.
  { destruct (handleAuth_ok (conn_cc c) (a :: rest) Hcc) as (Hok & Hq & Hun).
    destruct (handleAuth _ _) as [cc r]. apply wp_ret, handled_quiet; [done..|reflexivity|exact Hq|].
    intros Ha. destruct (Hun Ha) as [?|(a' & given & rest' & Heq & Hp)]; [by left|right].
    exists a', given, rest'. rewrite Hargs. split; [done|]. split; [|done]. by simplify_eq. }
  case_decide as Hsub.
  { pose proof (others_kept_subscribe_each sub rest b (subscribedChannels c)) as Hb.
    destruct (subscribe_each _ _ _ _) as [[b' chs] ws]. apply wp_ret, handled_quiet; auto. }
  case_decide as Hunsub.
  { case_decide.
    - apply wp_unsubscribe. intros order Hv. pose proof (others_kept_Unsubscribe sub order b "" Hv) as Hb.
      destruct (Unsubscribe _ _ _ _) as [b' n]. apply wp_ret, handled_quiet; auto.
    - eapply wp_seq; [apply wp_unsubscribe_each|]. intros [[b' chs] ws] σ' [-> Hb].
      apply wp_ret, handled_quiet; auto. }
  case_decide as Hpub.
  { destruct rest as [|ch [|msg rest]]; apply wp_ret, handled_quiet; auto; reflexivity. }
  destruct (Authenticated (conn_cc c)) eqn:Ha.
  - apply wp_err_bind. eapply wp_mono; [|apply (wp_returns _ _ _ _ _
      (QueueOrDispatch_keeps startTime has_store _ (a :: rest) Hcc)
      (HI _ (a :: rest) _ Hr Hcc))].
    intros [e|[cc r]] σ' (Hy & Hr' & Hbad).
    { simpl in Hy. subst e. split; [done|]. split; [congruence|]. rewrite Hargs. auto. }
    simpl in Hy. destruct Hy as (Hok & Hauth' & Hq). rewrite <- Hargs in Hq.
    case_decide.
    + apply wp_unsubscribe. intros order Hv. pose proof (others_kept_Unsubscribe sub order b "" Hv) as Hb.
      destruct (Unsubscribe _ _ _ _) as [b' n]. apply wp_ret. split; [done|]. split; [congruence|].
      simpl in *. auto.
    + apply wp_ret. split; [done|]. split; [congruence|]. split; [done|]. split; [reflexivity|]. auto.
  - assert (ToUpper (Str a) = "QUIT") as Hquit by (destruct (decide (ToUpper (Str a) = "QUIT")); [done|tauto]).
    destruct (quit_pure (conn_cc c) (a :: rest) Hquit) as (r & _ & ->). rewrite err_bind_ok_l.
    rewrite decide_True by done. apply wp_unsubscribe. intros order Hv.
    pose proof (others_kept_Unsubscribe sub order b "" Hv) as Hb.
    destruct (Unsubscribe _ _ _ _) as [b' n]. apply wp_ret, handled_quiet; auto.
Qed.

End kept.

(** With the clock at one instant the tables stay well formed; whatever it
    shows they stay intact. *)
Lemma kept_ready ns cc args σ :
  ready ns σ → conn_ok cc →
  wp True (QueueOrDispatch startTime has_store cc args) (λ r σ', ready ns σ' ∧ (r = inl Panic → may_panic cc args)) σ.
Proof.
  intros Hr Hcc. eapply wp_mono; [|exact (runs_QueueOrDispatch startTime ns has_store cc args Hcc σ Hr)].
  by intros r σ' (? & _ & ?).
Qed.

Lemma kept_between cc args σ :
  between σ → conn_ok cc →
  wp True (QueueOrDispatch startTime has_store cc args) (λ r σ', between σ' ∧ (r = inl Panic → may_panic cc args)) σ.
Proof.
  intros Hb Hcc. eapply wp_mono; [|exact (wp_command startTime True has_store cc args σ Hb Hcc)].
  by intros r σ' (? & _ & ? & _).
Qed.

(** A message before the password: the tables stay, nobody gains a
    subscription, and the only write is a status line to the client itself. *)
Definition refused (sub : nat) (b : broker) (h : Handled) : Prop :=
  (∀ ch s, (mult (h_broker h) ch s ≤ mult b ch s)%nat) ∧
  Forall (λ w, w.1 = sub ∧ status w.2) (h_writes h).

Lemma refused_one sub b c r ret :
  status r → refused sub b (mkHandled b c [(sub, r)] ret).
Proof. intros Hr. split; [done|]. by apply list.Forall_singleton. Qed.

Lemma wp_handle_locked sub b c v σ :
  Authenticated (conn_cc c) = false →
  wp True (handle_value sub b c v) (λ r σ', σ' = σ ∧ match r with inl _ => False | inr h => refused sub b h end) σ.
Proof.
  intros Hc. unfold handle_value. cbv zeta. destruct (toArgs v) as [|a rest]; [by split; [|split; [|apply list.Forall_nil]]|].
  case_decide as Hlocked; [split; [done|]; by apply refused_one|].
  case_decide as Hauth.
  { assert (status (handleAuth (conn_cc c) (a :: rest)).2) as Hr
      by (destruct rest as [|given rest]; simpl; repeat case_decide; done).
    destruct (handleAuth _ _) as [cc r]. split; [done|]. by apply refused_one. }
  assert (ToUpper (Str a) = "QUIT") as Hquit by (destruct (decide (ToUpper (Str a) = "QUIT")); [done|tauto]).
  rewrite Hquit, !decide_False by done.
  destruct (quit_pure (conn_cc c) (a :: rest) Hquit) as (r & Hr & ->). rewrite err_bind_ok_l, decide_True by done.
  apply wp_unsubscribe. intros order Hv. pose proof (mult_Unsubscribe b order "" sub) as Hm.
  destruct (Unsubscribe _ _ _ _) as [b' n]. split; [done|]. split; [|by apply list.Forall_singleton].
  intros ch s. simpl. rewrite Hm by done. lia.
Qed.

(** The values a message is answered by: SUBSCRIBE and UNSUBSCRIBE answer each
    channel. *)
Definition replies_due (cc : ClientConn) (args : list Value) : nat :=
  match args with
  | [] => 0
  | a :: rest =>
      let name := ToUpper (Str a) in
      if decide (Authenticated cc = false ∧ name ≠ "AUTH" ∧ name ≠ "QUIT") then 1
      else if decide (name = "SUBSCRIBE") then length rest
      else if decide (name = "UNSUBSCRIBE") then 1 `max` length rest
      else 1
  end.

(** What a PUBLISH sends to the subscribers first. *)
Definition pushed (b : broker) (cc : ClientConn) (args : list Value) : list write :=
  match args with
  | a :: channel :: message :: _ =>
      if decide (Authenticated cc = true ∧ ToUpper (Str a) = "PUBLISH")
      then Deliver <$> (Publish b (Str channel) (Str message)).1 else []
  | _ => []
  end.

Definition answered (sub : nat) (b : broker) (c : Conn) (args : list Value) (ws : list write) : Prop :=
  ∃ rs, ws = pushed b (conn_cc c) args ++ rs ∧ Forall (λ w, w.1 = sub) rs ∧ length rs = replies_due (conn_cc c) args.

Lemma subscribe_each_answers sub chs b subscribed :
  let ws := (subscribe_each sub chs b subscribed).2 in Forall (λ w, w.1 = sub) ws ∧ length ws = length chs.
Proof.
  revert b subscribed. induction chs as [|a chs IH]; intros b subscribed; [by split|]. cbn [subscribe_each]. cbv zeta.
  destruct (Subscribe _ _ _) as [b' n]. specialize (IH b' ({[Str a]} ∪ subscribed)).
  destruct (subscribe_each _ _ _ _) as [[b'' chs'] ws]. destruct IH as [Hf Hl]. simpl in *.
  split; [by constructor|congruence].
Qed.

Lemma unsubscribe_each_answers sub chs b subscribed :
  returns (λ r, Forall (λ w, w.1 = sub) r.2 ∧ length r.2 = length chs) (unsubscribe_each sub chs b subscribed).
Proof.
  revert b subscribed. induction chs as [|a chs IH]; intros b subscribed; [by split|]. cbn [unsubscribe_each]. cbv zeta.
  eapply returns_bind; [apply returns_any|]. intros [b' n] _. eapply returns_bind; [apply IH|].
  intros [[b'' chs'] ws] [Hf Hl]. simpl in *. split; [by constructor|congruence].
Qed.

Lemma answered_by sub b c args ws rs :
  pushed b (conn_cc c) args = [] → ws = rs → Forall (λ w, w.1 = sub) rs → length rs = replies_due (conn_cc c) args →
  answered sub b c args ws.
Proof. intros Hp -> ? ?. exists rs. by rewrite Hp. Qed.

Lemma pushed_other b cc args : name_of args ≠ "PUBLISH" ∨ Authenticated cc = false → pushed b cc args = [].
Proof.
  destruct args as [|a [|ch [|msg rest]]]; try done. intros Hn. unfold pushed. rewrite decide_False; [done|].
  intros [? ?]. destruct Hn; [done|congruence].
Qed.

Lemma handle_value_replies sub b c v :
  conn_ok (conn_cc c) →
  returns (yields (λ h, answered sub b c (toArgs v) (h_writes h))) (handle_value sub b c v).
Proof.
  intros Hcc. unfold handle_value. cbv zeta. destruct (toArgs v) as [|a rest]; [by exists []|].
  assert (∀ w, name_of (a :: rest) ≠ "PUBLISH" ∨ Authenticated (conn_cc c) = false →
    replies_due (conn_cc c) (a :: rest) = 1%nat → w.1 = sub → answered sub b c (a :: rest) [w]) as Hone.
  { intros w Hp Hd Hw. apply (answered_by _ _ _ _ _ [w]); [by apply pushed_other|done|by apply list.Forall_singleton|done]. }
  case_decide as Hlocked; [apply Hone; [right; apply Hlocked|unfold replies_due; by rewrite decide_True|done]|].
  case_decide as Hauth.
  { destruct (handleAuth _ _). apply Hone; [left; simpl; by rewrite Hauth| |done].
    unfold replies_due. by rewrite Hauth, !decide_False by (done || by intros (_ & ? & _)). }
  case_decide as Hs.
  { pose proof (subscribe_each_answers sub rest b (subscribedChannels c)) as [Hf Hl].
    destruct (subscribe_each _ _ _ _) as [[b' chs] ws]. apply (answered_by _ _ _ _ _ ws); [|done|done|].
    - apply pushed_other. left. simpl. by rewrite Hs.
    - unfold replies_due. by rewrite decide_False, decide_True. }
  case_decide as Hu.
  { assert (pushed b (conn_cc c) (a :: rest) = []) as Hp by (apply pushed_other; left; simpl; by rewrite Hu).
    assert (replies_due (conn_cc c) (a :: rest) = (1 `max` length rest)%nat) as Hd
      by (unfold replies_due; by rewrite decide_False, decide_False, decide_True).
    case_decide as Hl; (eapply returns_bind; [first [apply unsubscribe_each_answers|apply returns_any]|]).
    - intros [b' n] _. eapply answered_by; [done|done|by apply list.Forall_singleton|]. rewrite Hd. simpl in *. lia.
    - intros [[b' chs] ws] [Hf Hlen]. eapply answered_by; [done|done|done|]. rewrite Hd. simpl in *. lia. }
  case_decide as Hp.
  { assert (replies_due (conn_cc c) (a :: rest) = 1%nat) as Hd.
    { unfold replies_due. by rewrite !decide_False by done. }
    assert (Authenticated (conn_cc c) = true) as Hyes.
    { destruct (Authenticated (conn_cc c)); [done|]. destruct Hlocked. by rewrite Hp. }
    destruct rest as [|ch [|msg rest]].
    1,2: by eapply answered_by; [|done|by apply list.Forall_singleton|].
    exists [(sub, Integer (Publish b (Str ch) (Str msg)).2)].
    split; [|split; [by apply list.Forall_singleton|by rewrite Hd]]. unfold pushed. by rewrite decide_True. }
  assert (replies_due (conn_cc c) (a :: rest) = 1%nat) as Hd by (unfold replies_due; by rewrite !decide_False by done).
  eapply yields_bind; [by apply QueueOrDispatch_keeps|]. intros [cc r] _. case_decide.
  - eapply returns_bind; [apply returns_any|]. intros [b' n] _. apply Hone; auto.
  - apply Hone; auto.
Qed.

(** C27: A message is answered on its own connection, by as many values as are
    due: one for a command, one for each channel of a SUBSCRIBE (so none
    without a channel) and of an UNSUBSCRIBE (one without a channel), one for
    anything before authentication, none for an empty array; what a PUBLISH sends to the subscribers comes before its
    answer, and no other message sends anything to anyone else. The only
    exception is the panic of KEYS on an unterminated class, sent or queued
    and now run by EXEC. *)
Theorem one_reply `{Engine E} (w : E) sub b c v :
  between (view w) → conn_ok (conn_cc c) →
  match (run (handle_value sub b c v) w).1 with
  | inr h => answered sub b c (toArgs v) (h_writes h)
  | inl e => e = Panic ∧ may_panic (conn_cc c) (toArgs v)
  end.
Proof.
  intros Hb Hcc. pose proof (wp_returns _ _ _ _ _ (handle_value_replies sub b c v Hcc)
    (wp_weaken (faulty E) True _ _ _ (λ _, I) (wp_handle_value between kept_between sub b c v _ Hb Hcc))) as Hwp.
  apply (wp_run _ _ w) in Hwp. by destruct (run _ w) as [[e|h] w']; destruct Hwp as [Hy (_ & _ & Hh)].
Qed.

(** C38: PUBLISH of an authenticated client writes the message once per
    subscription to the channel, in the order of subscription, then answers
    their number; nobody's subscriptions change. *)
Theorem publish_delivers sub b c v a ch msg rest :
  Authenticated (conn_cc c) = true → toArgs v = a :: ch :: msg :: rest → ToUpper (Str a) = "PUBLISH" →
  ∃ ds, handle_value sub b c v = ok (mkHandled b c
      (ds ++ [(sub, Integer (Z.of_nat (length ds)))]) false) ∧
    ds.*1 = subs_of b (Str ch) ∧
    Forall (λ d, d.2 = Array [BulkString "message"; BulkString (Str ch); BulkString (Str msg)]) ds.
Proof.
  intros Hauth Hargs Hname. exists (Deliver <$> (Publish b (Str ch) (Str msg)).1).
  unfold handle_value. rewrite Hargs, Hname, Hauth. cbv zeta.
  rewrite decide_False by by intros [? _]. rewrite !decide_False by done. rewrite decide_True by done.
  split; [|split].
  - unfold Publish. cbn [fst]. do 3 f_equal. by rewrite !length_fmap.
  - unfold Publish. cbn [fst]. rewrite <- !list_fmap_compose. apply list_fmap_id.
  - unfold Publish. cbn [fst]. rewrite list.Forall_fmap, list.Forall_fmap. by apply list.Forall_true.
Qed.

(** ** The life of a connection *)

Lemma ReadValue_shrinks input v rest : ReadValue input = inr (v, rest) → (length rest < length input)%nat.
Proof. apply read_length_decreases. Qed.

(** The input holds what ends the process: a length too large to allocate,
    arrays nested too deep for the stack, or a KEYS whose pattern has an
    unterminated class. *)
Inductive hostile (input : list ascii) : Prop :=
  | hostile_length : ReadValue input = inl RPanic → hostile input
  | hostile_size : ReadValue input = inl RFatal → hostile input
  | hostile_keys v rest : ReadValue input = inr (v, rest) → keys_panics (toArgs v) → hostile input
  | hostile_later v rest : ReadValue input = inr (v, rest) → hostile rest → hostile input.

Section served.
Context (I : State → Prop).
Context (HI : ∀ cc args σ, I σ → conn_ok cc →
  wp True (QueueOrDispatch startTime has_store cc args) (λ r σ', I σ' ∧ (r = inl Panic → may_panic cc args)) σ).

(** What a connection in state [c] may do with [input]. *)
Definition served (sub : nat) (b : broker) (c : Conn) (input : list ascii)
    (r : result (broker * list write)) (σ' : State) : Prop :=
  I σ' ∧
  match r with
  | inl e => e = Panic ∧ (hostile input ∨ ∃ q, q ∈ QueuedCmds (conn_cc c) ∧ keys_panics q)
  | inr (b', _) => others_kept sub b b'
  end.

Lemma wp_serve fuel sub b c input σ :
  I σ → conn_ok (conn_cc c) → (length input < fuel)%nat →
  wp True (serve fuel sub b c input) (served sub b c input) σ.
Proof.
  revert b c input σ. induction fuel as [|fuel IH]; intros b c input σ Hr Hcc Hlen; [lia|].
  cbn [serve]. destruct (ReadValue input) as [e|[v rest]] eqn:Hread.
  { assert (∀ k : broker * Z → prog (result (broker * list write)), (∀ b' n, k (b', n) = ok (b', [])) →
      wp True (bind (unsubscribe b "" sub) k) (served sub b c input) σ) as Hend.
    { intros k Hk. apply wp_unsubscribe. intros order Hv.
      pose proof (others_kept_Unsubscribe sub order b "" Hv) as Hb.
      destruct (Unsubscribe _ _ _ _) as [b' n]. rewrite Hk. by apply wp_ret. }
    destruct e; [by apply Hend..| | |by apply Hend]; apply wp_ret; (split; [done|]); (split; [done|]); left;
      [by apply hostile_length|by apply hostile_size]. }
  pose proof (ReadValue_shrinks _ _ _ Hread) as Hshrink. apply wp_err_bind.
  eapply wp_mono; [|by apply (wp_handle_value I HI)]. intros [e|h] σ' (Hr' & _ & Hh).
  { split; [done|]. destruct Hh as [-> [Hk|(_ & _ & Hk)]]; (split; [done|]); [left|by right].
    by eapply hostile_keys. }
  destruct Hh as (Hok & Hb & Hq & _). destruct (h_return h); [by apply wp_ret|].
  apply wp_err_bind. eapply wp_mono; [|apply (IH (h_broker h) (h_conn h) rest); [done..|lia]].
  intros [e|[b' ws]] σ'' [Hr'' Hpost]; [|split; [done|]; by etrans].
  split; [done|]. destruct Hpost as [-> [Hk|(q & Hin & Hk)]]; (split; [done|]);
    [left; by eapply hostile_later|].
  apply Hq, elem_of_cons in Hin as [->|Hin]; [left; by eapply hostile_keys|right; by exists q].
Qed.

End served.

Lemma new_conn_ok : conn_ok (conn_cc new_conn).
Proof. apply NewClientConn_ok. Qed.

(** C30: A connection from its first byte to its last, on any engine and with any
    readings of the clock: unless what the client sends holds a length that
    cannot be allocated, arrays nested deeper than the stack, or a KEYS with an
    unterminated class, the handler returns; no transaction is left open, the
    tables stay intact (well formed, when the clock shows one instant), and
    the subscriptions of the other connections are as before. *)
Theorem handleConn_safe `{Engine E} (w : E) sub b input :
  between (view w) → wf_broker b →
  let '(r, w') := run (handleConn sub b input) w in
  between (view w') ∧ (∀ ns, ready ns (view w) → ready ns (view w')) ∧
  match r with
  | inl e => e = Panic ∧ hostile input
  | inr (b', _) => wf_broker b' ∧ ∀ ch s, s ≠ sub → mult b' ch s = mult b ch s
  end.
Proof.
  intros Hr Hb.
  assert (∀ (I : State → Prop), (∀ cc args σ, I σ → conn_ok cc →
    wp True (QueueOrDispatch startTime has_store cc args) (λ r σ', I σ' ∧ (r = inl Panic → may_panic cc args)) σ) →
    I (view w) → let '(r, w') := run (handleConn sub b input) w in served I sub b new_conn input r (view w')) as Hserved.
  { intros I HI Hw. apply (wp_run _ _ w). apply (wp_weaken (faulty E) True); [done|].
    apply wp_serve; [exact HI|done|apply new_conn_ok|lia]. }
  pose proof (Hserved _ kept_between Hr) as Hbetween.
  assert (∀ ns, ready ns (view w) → let '(_, w') := run (handleConn sub b input) w in ready ns (view w')) as Hready.
  { intros ns Hns. pose proof (Hserved _ (kept_ready ns) Hns) as Hs. by destruct (run _ w) as [r w'], Hs. }
  destruct (run _ w) as [r w']. destruct Hbetween as [Hr' Hpost]. split; [done|]. split; [done|].
  destruct r as [e|[b' ws]]; [|destruct Hpost as [Hwf Hm]; auto].
  destruct Hpost as [-> [?|(q & Hin & _)]]; [done|]. by apply elem_of_nil in Hin.
Qed.

(** ** Connections together *)

Section steps.
Context `{Engine E}.

(** The process: the engine, the broker, the open connections, and all that
    has been written to clients. *)
Record Server := mkServer {
  srv_engine : E;
  srv_broker : broker;
  srv_conns : gmap nat Conn;
  srv_sent : list write;
}.

Inductive label := Accept (sub : nat) | Message (sub : nat) (v : Value) | Disconnect (sub : nat) | Sweep | Wait.

(** One event of the process; a panic ends it, so no step follows one. *)
Inductive server_step (s : Server) : label → Server → Prop :=
  (** [serve] accepts a connection. *)
  | step_accept sub :
      srv_conns s !! sub = None →
      server_step s (Accept sub) (mkServer (srv_engine s) (srv_broker s) (<[sub := new_conn]> (srv_conns s)) (srv_sent s))
  (** A turn of a [handleConn]. *)
  | step_message sub c v h w' :
      srv_conns s !! sub = Some c →
      run (handle_value sub (srv_broker s) c v) (srv_engine s) = (inr h, w') →
      server_step s (Message sub v) (mkServer w' (h_broker h)
        (if h_return h then delete sub (srv_conns s) else <[sub := h_conn h]> (srv_conns s)) (srv_sent s ++ h_writes h))
  (** A read error: the handler unsubscribes and returns. *)
  | step_disconnect sub c b' n w' :
      srv_conns s !! sub = Some c →
      run (unsubscribe (srv_broker s) "" sub) (srv_engine s) = ((b', n), w') →
      server_step s (Disconnect sub) (mkServer w' b' (delete sub (srv_conns s)) (srv_sent s))
  (** The background sweep of [main]. *)
  | step_sweep r w' :
      run SweepExpired (srv_engine s) = (r, w') →
      server_step s Sweep (mkServer w' (srv_broker s) (srv_conns s) (srv_sent s))
  (** Time passes between the operations. *)
  | step_wait w' ns' :
      com (view w') = com (view (srv_engine s)) → idle ns' (view w') →
      server_step s Wait (mkServer w' (srv_broker s) (srv_conns s) (srv_sent s)).

Inductive server_steps (s : Server) : list label → Server → Prop :=
  | steps_nil : server_steps s [] s
  | steps_snoc ls s' l s'' : server_steps s ls s' → server_step s' l s'' → server_steps s (ls ++ [l]) s''.

(** Between two events. *)
Definition server_ok (s : Server) : Prop :=
  (∃ ns, ready ns (view (srv_engine s))) ∧ wf_broker (srv_broker s) ∧
  map_Forall (λ _ c, conn_ok (conn_cc c)) (srv_conns s).

Lemma run_wp {A} (Q : A → State → Prop) (p : prog A) (w w' : E) a :
  run p w = (a, w') → wp (faulty E) p Q (view w) → Q a (view w').
Proof. intros Hrun Hwp. apply wp_run in Hwp. by rewrite Hrun in Hwp. Qed.

Lemma run_unsubscribe b ch sub b' n (w w' : E) :
  run (unsubscribe b ch sub) w = ((b', n), w') →
  (others_kept sub b b' ∧ ∀ ch s, (mult b' ch s ≤ mult b ch s)%nat) ∧ view w' = view w.
Proof.
  intros Hrun.
  apply (run_wp (λ r σ', (others_kept sub b r.1 ∧ ∀ ch s, (mult r.1 ch s ≤ mult b ch s)%nat) ∧ σ' = view w)) in Hrun; [done|].
  assert (∀ order, visits order b → others_kept sub b (Unsubscribe order b ch sub).1 ∧
    ∀ ch' s, (mult (Unsubscribe order b ch sub).1 ch' s ≤ mult b ch' s)%nat) as Hb.
  { intros order Hv. split; [by apply others_kept_Unsubscribe|]. intros ch' s. rewrite mult_Unsubscribe by done. lia. }
  unfold unsubscribe. case_decide as Hch.
  - apply wp_range_bind. intros order Hv. split; [by apply Hb|done].
  - split; [|done]. replace (Unsubscribe [] b ch sub) with (Unsubscribe (map_to_list b).*1 b ch sub); [apply Hb; by unfold visits|].
    unfold Unsubscribe. by rewrite !decide_False.
Qed.

Lemma run_handle_value ns sub b c v (w : E) r w' :
  ready ns (view w) → conn_ok (conn_cc c) → run (handle_value sub b c v) w = (r, w') →
  handled (ready ns) sub b c v (view w) r (view w').
Proof.
  intros Hr Hcc Hrun. apply (run_wp _ _ _ _ _ Hrun). apply (wp_weaken (faulty E) True); [done|].
  by apply (wp_handle_value (ready ns) (kept_ready ns)).
Qed.

Lemma run_SweepExpired ns (w : E) r w' :
  ready ns (view w) → run SweepExpired w = (r, w') → ready ns (view w').
Proof.
  intros Hr Hrun. eapply (run_wp (λ _ σ', ready ns σ')); [done|].
  eapply wp_mono; [|by apply wp_SweepExpired]. by intros ? ? [[? _] _].
Qed.

Lemma server_step_ok s l s' : server_ok s → server_step s l s' → server_ok s'.
Proof.
  intros ([ns Hr] & Hb & Hc) Hstep.
  destruct Hstep as [sub Hnone|sub c v h w' Hsub Hrun|sub c b' n w' Hsub Hrun|r w' Hrun|w' ns' Hcom Hidle].
  - split; [by exists ns|]. split; [done|]. apply map_Forall_insert_2; [apply new_conn_ok|done].
  - apply (run_handle_value ns) in Hrun as (Hr' & _ & Hok & [Hwf _] & _); [|done|by eapply Hc].
    split; [by exists ns|]. split; [auto|]. simpl. destruct (h_return h).
    + by apply map_Forall_delete.
    + by apply map_Forall_insert_2.
  - apply run_unsubscribe in Hrun as [[[Hwf _] _] Hv]. split; [exists ns; simpl; by rewrite Hv|].
    split; [auto|]. by apply map_Forall_delete.
  - split; [exists ns; by eapply run_SweepExpired|done].
  - split; [|done]. exists ns'. simpl. split; [rewrite Hcom; apply Hr|done].
Qed.

Lemma server_steps_ok s ls s' : server_ok s → server_steps s ls s' → server_ok s'.
Proof. intros Hs Hsteps. induction Hsteps; [done|]. by eapply server_step_ok. Qed.

(** ** The password *)

(** No open connection is authenticated. *)
Definition locked (s : Server) : Prop :=
  map_Forall (λ _ c, Authenticated (conn_cc c) = false) (srv_conns s).

Definition opens (l : label) : Prop := match l with Message _ v => unlocks v | _ => False end.

(** The label is a message of the client [w] goes to, and [w] is a status line. *)
Definition answers (ls : list label) (w : write) : Prop := status w.2 ∧ ∃ v, Message w.1 v ∈ ls.

(** What a run of the server without the password may change. *)
Definition shut (s : Server) (ls : list label) (s' : Server) : Prop :=
  locked s' ∧ (Sweep ∉ ls → com (view (srv_engine s')) = com (view (srv_engine s))) ∧
  (∀ ch sub, (mult (srv_broker s') ch sub ≤ mult (srv_broker s) ch sub)%nat) ∧
  ∃ ws, srv_sent s' = srv_sent s ++ ws ∧ Forall (answers ls) ws.

Lemma shut_silent s ls s' :
  locked s' → (Sweep ∉ ls → com (view (srv_engine s')) = com (view (srv_engine s))) →
  (∀ ch sub, (mult (srv_broker s') ch sub ≤ mult (srv_broker s) ch sub)%nat) → srv_sent s' = srv_sent s →
  shut s ls s'.
Proof. intros ? ? ? Hs. do 3 (split; [done|]). exists []. by rewrite app_nil_r. Qed.

Lemma server_step_locked s l s' :
  Password ≠ "" → server_ok s → locked s → ¬ opens l → server_step s l s' → shut s [l] s'.
Proof.
  intros Hpw ([ns Hr] & Hb & Hc) Hlock Hl Hstep.
  destruct Hstep as [sub Hnone|sub c v h w' Hsub Hrun|sub c b' n w' Hsub Hrun|r w' Hrun|w' ns' Hcom Hidle].
  - apply shut_silent; try done. apply map_Forall_insert_2; [|done]. simpl. by apply bool_decide_eq_false.
  - pose proof (Hlock _ _ Hsub) as Hcl. simpl in Hcl.
    destruct (run_wp _ _ _ _ _ Hrun (wp_weaken (faulty E) True _ _ _ (λ _, I)
      (wp_handle_locked sub (srv_broker s) c v _ Hcl))) as [Hv [Hmult Hws]].
    apply (run_handle_value ns) in Hrun as (_ & _ & _ & _ & _ & Hauth); [|done|by eapply Hc].
    split; [|split; [|split; [done|]]].
    + unfold locked. simpl. destruct (h_return h); [by apply map_Forall_delete|].
      apply map_Forall_insert_2; [|done]. destruct (Authenticated (conn_cc (h_conn h))); [|done].
      destruct Hauth as [?|?]; [done|congruence|]. by destruct Hl.
    + intros _. simpl. by rewrite Hv.
    + exists (h_writes h). split; [done|]. eapply list.Forall_impl; [exact Hws|]. intros [to r] [Hto Hst].
      simpl in Hto. subst to. split; [done|]. exists v. by left.
  - apply run_unsubscribe in Hrun as [[_ Hm] Hv]. apply shut_silent; try done; [by apply map_Forall_delete|].
    intros _. simpl. by rewrite Hv.
  - apply shut_silent; try done. intros Hn. destruct Hn. by left.
  - by apply shut_silent.
Qed.

Lemma shut_trans s s' s'' ls l : shut s ls s' → shut s' [l] s'' → shut s (ls ++ [l]) s''.
Proof.
  intros (_ & Hcom & Hm & ws & Hws & Hok) (Hlock & Hcom' & Hm' & ws' & Hws' & Hok').
  split; [done|]. split; [|split].
  - rewrite elem_of_app. intros Hn. rewrite Hcom' by tauto. tauto.
  - intros ch sub. etrans; [apply Hm'|apply Hm].
  - exists (ws ++ ws'). split; [by rewrite Hws', Hws, app_assoc|].
    apply list.Forall_app. split; (eapply list.Forall_impl; [eassumption|]); intros w [Hst [v Hv]];
      (split; [done|]); exists v; apply elem_of_app; auto.
Qed.

(** C6: Without the password, no sequence of messages authenticates a connection,
    changes a table (only the background sweep may remove rows), or adds a
    subscription; and no client is sent anything but a status line in answer
    to a message of its own. *)
Theorem auth_gate s ls s' :
  Password ≠ "" → server_ok s → locked s → Forall (λ l, ¬ opens l) ls → server_steps s ls s' →
  shut s ls s'.
Proof.
  intros Hpw Hs Hlock Hls Hsteps. induction Hsteps as [|ls s' l s'' Hsteps IH Hstep]; [by apply shut_silent|].
  apply list.Forall_app in Hls as [Hls Hl]. apply list.Forall_cons in Hl as [Hl _].
  specialize (IH Hls). eapply shut_trans; [exact IH|].
  apply server_step_locked; [exact Hpw|by eapply server_steps_ok|apply IH|exact Hl|exact Hstep].
Qed.
End steps.
End server.

(** ** Witnesses *)

#[local] Existing Instance ascii_only.

#[local] Existing Instance ample.

(** The reply to an unknown command repeats its name in a line: with a newline
    in the name, what is sent is not read back. *)
Example newline_reply rest :
  let args := [BulkString (text ["a"%char; LF; "b"%char])] in
  ∃ r, QueueOrDispatch 0 true (NewClientConn true) args = ok (NewClientConn true, r) ∧
    ReadValue (writeValue r ++ rest) = inl MissingCRLF.
Proof.
  intros args. eexists. split; [by vm_compute|].
  apply (newline_cuts _ (bytes "ERR unknown command `a") (bytes "b`")); [done|by vm_compute; set_solver|].
  intros l Hl. apply (f_equal reverse) in Hl. by rewrite reverse_snoc in Hl.
Qed.

Lemma one_reply_witness :
  let v := Array [BulkString "publish"; BulkString "c"; BulkString "m"] in
  let b : gmap string (list nat) := {["c" := [2%nat]]} in
  match (run (handle_value 0 "secret" true 1 b (mkConn (NewClientConn true) ∅) v) sample).1 with
  | inr h => answered 1 b (mkConn (NewClientConn true) ∅) (toArgs v) (h_writes h)
  | inl e => e = Panic ∧ may_panic (NewClientConn true) (toArgs v)
  end.
Proof. intros v b. apply (one_reply 0 "secret" true sample 1 b (mkConn (NewClientConn true) ∅) v);
    [apply (ready_between sample_ns), sample_ready|apply NewClientConn_ok]. Defined.

Lemma publish_delivers_witness :
  let b : gmap string (list nat) := {["c" := [1%nat; 2%nat; 1%nat]]} in
  let c := mkConn (NewClientConn true) ∅ in
  ∃ ds, handle_value 0 "" true 3 b c (Array [BulkString "publish"; BulkString "c"; BulkString "m"]) =
      ok (mkHandled b c (ds ++ [(3%nat, Integer (Z.of_nat (length ds)))]) false) ∧
    ds.*1 = subs_of b "c" ∧
    Forall (λ d, d.2 = Array [BulkString "message"; BulkString "c"; BulkString "m"]) ds.
Proof. intros b c. by apply (publish_delivers 0 "" true 3 b c _ (BulkString "publish") (BulkString "c") (BulkString "m") []). Defined.

(** While the clock runs, and a key expires under the SET. *)
Lemma handleConn_safe_witness :
  let input := bytes "SUBSCRIBE c" ++ crlf ++ bytes "SET t 5" ++ crlf ++ bytes "QUIT" ++ crlf in
  let b : gmap string (list nat) := {["c" := [2%nat]]} in
  let '(r, w') := run (handleConn 0 "" true 1 b input) late in
  between (view w') ∧ (∀ ns, ready ns (view late) → ready ns (view w')) ∧
  match r with
  | inl e => e = Panic ∧ hostile input
  | inr (b', _) => wf_broker b' ∧ ∀ ch s, s ≠ 1%nat → mult b' ch s = mult b ch s
  end.
Proof. intros input b. apply (handleConn_safe 0 "" true late 1 b input).
  - split; [|done]. apply wf_intact, wf_b_sound. by vm_compute.
  - intros ch subs. unfold b. rewrite lookup_singleton_Some. by intros [_ <-]. Defined.

Lemma auth_gate_witness :
  let cs : gmap nat Conn := {[1%nat := new_conn "secret"]} in
  let v := Array [BulkString "FLUSHALL"] in
  let s : Server := mkServer sample ∅ cs [] in
  let s' : Server := mkServer sample ∅ (<[1%nat := new_conn "secret"]> cs) [(1%nat, noauth_reply)] in
  shut s [Message 1 v] s'.
Proof. intros cs v s s'. apply (auth_gate 0 "secret" true s [Message 1 v] s'); [done|..].
  - split; [exists sample_ns; apply sample_ready|]. split; [by intros ? ? ?|].
    apply map_Forall_singleton. apply NewClientConn_ok.
  - by apply map_Forall_singleton.
  - apply list.Forall_cons; split; [|by apply list.Forall_nil]. intros (a & given & rest & [=] & _).
  - apply (steps_snoc _ _ _ _ [] s); [constructor|].
    by apply (step_message 0 "secret" true s 1 (new_conn "secret") v (mkHandled ∅ (new_conn "secret") [(1%nat, noauth_reply)] false) sample). Defined.
