(* ===== verification/Serving.v ===== *)
(** The process at work ([serve] and [handleConn] of
    [src/internal/server/server.go], the sweep of [main]): every connection is
    a goroutine that takes its turn call by call, on the database, the broker
    and the connections it writes to, while others do, the clock runs on and
    the engine may fail. Server.v has what a connection does undisturbed. *)
From S2P Require Import Prelude GoStd Float Sql Effects Behaviour Keyspace Locality Protocol Calls Integrity Sample Pool Store StoreKeys Glob Resp Commands Soundness Dispatch Session Confined Lawful Broker Server.
Local Open Scope Z_scope.
Local Open Scope go_scope.

(** ** Goroutines *)

(** What a goroutine does with others: the calls of an operation on the store,
    a method of the broker under its lock, of [Publish] the part that copies
    the subscribers, and [connWriter.Write], which may be of another's
    connection. *)
Inductive call : Type → Type :=
  | Store {A} (p : prog A) : call A
  | Subscribing (channel : string) : call Z
  | Unsubscribing (channel : string) : call Z
  | Subscribers (channel : string) : call (list nat)
  | Send (to : nat) (v : Value) : call unit.

Inductive thread (R : Type) :=
  | Done (r : R)
  | Do {X} (c : call X) (k : X → thread R).
Arguments Done {R}. Arguments Do {R X}.

Section turns.
Context `{Unicode} (startTime : Z).
Context (Password : string) (has_store : bool).

(** The end of a turn: the connection, and whether its handler returns. *)
Abbreviation turned := (result (Conn * bool)).
Definition goes_on (c : Conn) : thread turned := Done (inr (c, false)).
Definition returned (c : Conn) : thread turned := Done (inr (c, true)).

Section goroutine.
(** The [connSub] of the connection. *)
Context (sub : nat).

(** [cw.Write(r)]. *)
Definition reply (r : Value) (t : thread turned) : thread turned := Do (Send sub r) (λ _, t).

Fixpoint subscribe_calls (chs : list Value) (c : Conn) : thread turned :=
  match chs with
  | [] => goes_on c
  | a :: chs' =>
      let ch := Str a in
      Do (Subscribing ch) (λ n,
        reply (Array [BulkString "subscribe"; BulkString ch; Integer n])
          (subscribe_calls chs' (with_channels ({[ch]} ∪ subscribedChannels c) c)))
  end.

Fixpoint unsubscribe_calls (chs : list Value) (c : Conn) : thread turned :=
  match chs with
  | [] => goes_on c
  | a :: chs' =>
      let ch := Str a in
      Do (Unsubscribing ch) (λ n,
        reply (Array [BulkString "unsubscribe"; BulkString ch; Integer n])
          (unsubscribe_calls chs' (with_channels (subscribedChannels c ∖ {[ch]}) c)))
  end.

(** The loop of [Publish] over the subscribers it copied. *)
Fixpoint deliver_all (subs : list nat) (channel message : string) (t : thread turned) : thread turned :=
  match subs with
  | [] => t
  | s :: subs' =>
      let '(to, v) := Deliver (s, channel, message) in
      Do (Send to v) (λ _, deliver_all subs' channel message t)
  end.

(** One turn of the loop of [handleConn], after the read. *)
Definition turn (c : Conn) (v : Value) : thread turned :=
  let args := toArgs v in
  match args with
  | [] => goes_on c
  | a :: rest =>
      let name := ToUpper (Str a) in
      if decide (Authenticated (conn_cc c) = false ∧ name ≠ "AUTH" ∧ name ≠ "QUIT") then
        reply noauth_reply (goes_on c)
      else if decide (name = "AUTH") then
        let '(cc, r) := handleAuth Password (conn_cc c) args in
        reply r (goes_on (with_cc cc c))
      else if decide (name = "SUBSCRIBE") then subscribe_calls rest c
      else if decide (name = "UNSUBSCRIBE") then
        if decide (length args = 1%nat) then
          Do (Unsubscribing "") (λ _,
            reply (Array [BulkString "unsubscribe"; NullBulkString; Integer 0])
              (goes_on (with_channels ∅ c)))
        else unsubscribe_calls rest c
      else if decide (name = "PUBLISH") then
        match rest with
        | channel :: message :: _ =>
            Do (Subscribers (Str channel)) (λ subs,
              deliver_all subs (Str channel) (Str message)
                (reply (Integer (Z.of_nat (length subs))) (goes_on c)))
        | _ => reply (Error "ERR wrong number of arguments for 'publish' command") (goes_on c)
        end
      else
        Do (Store (QueueOrDispatch startTime has_store (conn_cc c) args)) (λ r,
          match r with
          | inl e => Done (inl e)
          | inr (cc, r) =>
              reply r
                (if decide (name = "QUIT") then Do (Unsubscribing "") (λ _, returned (with_cc cc c))
                 else goes_on (with_cc cc c))
          end)
  end.

(** After a read error. *)
Definition leave (c : Conn) : thread turned := Do (Unsubscribing "") (λ _, returned c).

(** *** A turn without others *)

Definition solo_call {X R} (c : call X) (b : gmap string (list nat))
    (next : X → gmap string (list nat) → prog (gmap string (list nat) * list (nat * Value) * R)) :
    prog (gmap string (list nat) * list (nat * Value) * R) :=
  match c in call X return (X → gmap string (list nat) → prog _) → prog _ with
  | Store p => λ next, x ⇐ p; next x b
  | Subscribing ch => λ next, let '(b, n) := Subscribe b ch sub in next n b
  | Unsubscribing ch => λ next, '(b, n) ⇐ unsubscribe b ch sub; next n b
  | Subscribers ch => λ next, next (subs_of b ch) b
  | Send to v => λ next, '(b, ws, r) ⇐ next tt b; Ret (b, (to, v) :: ws, r)
  end next.

(** The broker, the writes and the result of a goroutine that runs alone. *)
Fixpoint solo {R} (t : thread R) (b : gmap string (list nat)) :
    prog (gmap string (list nat) * list (nat * Value) * R) :=
  match t with
  | Done r => Ret (b, [], r)
  | Do c k => solo_call c b (λ x b, solo (k x) b)
  end.

(** Which is what [handle_value] says of it. *)
Lemma bind_assoc {A B C} (p : prog A) (f : A → prog B) (g : B → prog C) :
  bind (bind p f) g ≡ bind p (λ a, bind (f a) g).
Proof.
  intros F Q σ. rewrite !wp_bind. split; (apply wp_mono; intros a σ'); by rewrite wp_bind.
Qed.

Lemma solo_subscribe chs c b :
  solo (subscribe_calls chs c) b =
    let '(b, chs, ws) := subscribe_each sub chs b (subscribedChannels c) in
    Ret (b, ws, inr (with_channels chs c, false)).
Proof.
  revert c b. induction chs as [|a chs IH]; intros c b; [by destruct c|].
  cbn [subscribe_calls solo solo_call subscribe_each]. cbv zeta. destruct (Subscribe _ _ _) as [b' n].
  unfold reply. cbn [solo solo_call]. rewrite IH. cbn [subscribedChannels with_channels].
  by destruct (subscribe_each _ _ _ _) as [[b'' chs''] ws].
Qed.

Lemma solo_unsubscribe chs c b :
  solo (unsubscribe_calls chs c) b ≡
    ('(b, chs, ws) ⇐ unsubscribe_each sub chs b (subscribedChannels c);
     Ret (b, ws, inr (with_channels chs c, false))).
Proof.
  revert c b. induction chs as [|a chs IH]; intros c b; [by destruct c|].
  cbn [unsubscribe_calls solo solo_call unsubscribe_each]. cbv zeta. rewrite bind_assoc.
  apply bind_proper; [done|]. intros [b' n]. unfold reply. cbn [solo solo_call].
  rewrite bind_assoc, (IH _ b'), bind_assoc. cbn [subscribedChannels with_channels].
  apply bind_proper; [done|]. by intros [[b'' chs''] ws].
Qed.

Lemma solo_deliver subs ch msg t b :
  solo (deliver_all subs ch msg t) b ≡
    ('(b, ws, r) ⇐ solo t b; Ret (b, (Deliver <$> ((λ s, (s, ch, msg)) <$> subs)) ++ ws, r)).
Proof.
  induction subs as [|s subs IH].
  - cbn [deliver_all]. intros F Q σ. rewrite wp_bind. split; apply wp_mono; by intros [[b' ws] r].
  - cbn [deliver_all solo solo_call Deliver]. rewrite IH, bind_assoc.
    apply bind_proper; [done|]. by intros [[b' ws] r].
Qed.

Definition outcome_of (b : gmap string (list nat)) (r : result Handled) :
    gmap string (list nat) * list (nat * Value) * turned :=
  match r with
  | inl e => (b, [], inl e)
  | inr h => (h_broker h, h_writes h, inr (h_conn h, h_return h))
  end.

Theorem solo_turn c v b :
  solo (turn c v) b ≡ (r ⇐ handle_value startTime Password has_store sub b c v; Ret (outcome_of b r)).
Proof.
  unfold turn, handle_value. cbv zeta. destruct (toArgs v) as [|a rest]; [done|].
  case_decide; [done|]. case_decide; [by destruct (handleAuth _ _ _)|].
  case_decide.
  { rewrite solo_subscribe. by destruct (subscribe_each _ _ _ _) as [[b' chs] ws]. }
  case_decide.
  { case_decide.
    - cbn [solo solo_call]. rewrite bind_assoc. apply bind_proper; [done|]. by intros [b' n].
    - rewrite solo_unsubscribe, bind_assoc. apply bind_proper; [done|]. by intros [[b' chs] ws]. }
  case_decide.
  { destruct rest as [|ch [|msg rest]]; [done..|]. cbn [solo solo_call]. rewrite solo_deliver.
    unfold reply, goes_on. cbn [solo solo_call]. done. }
  cbn [solo solo_call]. unfold err_bind at 1. rewrite bind_assoc. apply bind_proper; [done|].
  intros [e|[cc r]]; [done|]. unfold reply. cbn [solo solo_call]. case_decide; [|done].
  cbn [solo solo_call]. rewrite !bind_assoc. apply bind_proper; [done|]. by intros [b' n].
Qed.
End goroutine.
End turns.

(** ** The process *)

(** A connection's goroutine: at its read, with what the client has yet to
    send before it closes its side, or in a turn, with its open transaction. *)
Inductive Goroutine :=
  | Reading (c : Conn) (input : list ascii)
  | Working (t : thread (result (Conn * bool))) (tx : option Tx) (input : list ascii).

(** The committed tables, the broker, the goroutines of the connections and
    of the sweep while it runs; what clients have connected with, what has been
    sent to them, and whether the process has died. *)
Record System := mkSystem {
  sys_com : Tables;
  sys_broker : gmap string (list nat);
  sys_conns : gmap nat Goroutine;
  sys_sweep : option (Client (result unit));
  sys_inputs : list (list ascii);
  sys_sent : list (nat * Value);
  sys_dead : bool;
}.

Definition set_goroutine (sub : nat) (g : Goroutine) (s : System) : System :=
  mkSystem (sys_com s) (sys_broker s) (<[sub := g]> (sys_conns s)) (sys_sweep s) (sys_inputs s) (sys_sent s) (sys_dead s).
Definition accepted (sub : nat) (g : Goroutine) (input : list ascii) (s : System) : System :=
  mkSystem (sys_com s) (sys_broker s) (<[sub := g]> (sys_conns s)) (sys_sweep s) (input :: sys_inputs s) (sys_sent s) (sys_dead s).
Definition called (T : Tables) (b : gmap string (list nat)) (sub : nat) (g : Goroutine) (ws : list (nat * Value))
    (s : System) : System :=
  mkSystem T b (<[sub := g]> (sys_conns s)) (sys_sweep s) (sys_inputs s) (sys_sent s ++ ws) (sys_dead s).
Definition no_goroutine (sub : nat) (s : System) : System :=
  mkSystem (sys_com s) (sys_broker s) (delete sub (sys_conns s)) (sys_sweep s) (sys_inputs s) (sys_sent s) (sys_dead s).
Definition set_sweep (T : Tables) (c : option (Client (result unit))) (s : System) : System :=
  mkSystem T (sys_broker s) (sys_conns s) c (sys_inputs s) (sys_sent s) (sys_dead s).
Definition dies (s : System) : System :=
  mkSystem (sys_com s) (sys_broker s) (sys_conns s) (sys_sweep s) (sys_inputs s) (sys_sent s) true.

Section system.
Context `{Unicode, Runtime} (startTime : Z) (Password : string) (has_store : bool).
(** As in Pool.v. *)
Context (F refreshing : Prop) (clock : Z → Prop).

Abbreviation broker := (gmap string (list nat)).
Abbreviation turn := (turn startTime Password has_store).
Abbreviation conn_ok := (conn_ok startTime).

(** A call of a goroutine of [sub], with the tables and the broker before and
    after, and what it sends. *)
Inductive thread_step (sub : nat) {R} (T : Tables) (b : broker) :
    thread R → option Tx → Tables → broker → thread R → option Tx → list (nat * Value) → Prop :=
  | call_store {A} (p p' : prog A) k tx T' tx' :
      client_step F refreshing clock T (mkClient p tx) T' (mkClient p' tx') →
      thread_step sub T b (Do (Store p) k) tx T' b (Do (Store p') k) tx' []
  | call_returns {A} (a : A) k tx :
      thread_step sub T b (Do (Store (Ret a)) k) tx T b (k a) tx []
  | call_subscribe ch k tx b' n :
      Subscribe b ch sub = (b', n) →
      thread_step sub T b (Do (Subscribing ch) k) tx T b' (k n) tx []
  | call_unsubscribe order ch k tx b' n :
      visits order b → Unsubscribe order b ch sub = (b', n) →
      thread_step sub T b (Do (Unsubscribing ch) k) tx T b' (k n) tx []
  | call_subscribers ch k tx :
      thread_step sub T b (Do (Subscribers ch) k) tx T b (k (subs_of b ch)) tx []
  | call_send to v k tx :
      thread_step sub T b (Do (Send to v) k) tx T b (k tt) tx [(to, v)].

Inductive sys_step (s : System) : System → Prop :=
  (** [serve] accepts a connection. *)
  | sys_accept sub input :
      sys_conns s !! sub = None →
      sys_step s (accepted sub (Reading (new_conn Password) input) input s)
  (** [rd.ReadValue()], with a value or an error, or the end of the process. *)
  | sys_receive sub c input v rest :
      sys_conns s !! sub = Some (Reading c input) → ReadValue input = inr (v, rest) →
      sys_step s (set_goroutine sub (Working (turn sub c v) None rest) s)
  | sys_hangup sub c input e :
      sys_conns s !! sub = Some (Reading c input) → ReadValue input = inl e → e ≠ RPanic → e ≠ RFatal →
      sys_step s (set_goroutine sub (Working (leave c) None []) s)
  | sys_overrun sub c input e :
      sys_conns s !! sub = Some (Reading c input) → ReadValue input = inl e → e = RPanic ∨ e = RFatal →
      sys_step s (dies s)
  (** A call of a turn, and its end. *)
  | sys_call sub t tx input T' b' t' tx' ws :
      sys_conns s !! sub = Some (Working t tx input) →
      thread_step sub (sys_com s) (sys_broker s) t tx T' b' t' tx' ws →
      sys_step s (called T' b' sub (Working t' tx' input) ws s)
  | sys_goes_on sub c tx input :
      sys_conns s !! sub = Some (Working (goes_on c) tx input) →
      sys_step s (set_goroutine sub (Reading c input) s)
  | sys_return sub c tx input :
      sys_conns s !! sub = Some (Working (returned c) tx input) →
      sys_step s (no_goroutine sub s)
  (** Nobody recovers from a panic. *)
  | sys_panic sub e tx input :
      sys_conns s !! sub = Some (Working (Done (inl e)) tx input) →
      sys_step s (dies s)
  (** The ticker of [main], and its sweep; ticks meanwhile are dropped. *)
  | sys_tick :
      sys_sweep s = None →
      sys_step s (set_sweep (sys_com s) (Some (mkClient SweepExpired None)) s)
  | sys_sweeping c T' c' :
      sys_sweep s = Some c → client_step F refreshing clock (sys_com s) c T' c' →
      sys_step s (set_sweep T' (Some c') s)
  | sys_swept r tx :
      sys_sweep s = Some (mkClient (Ret r) tx) →
      sys_step s (set_sweep (sys_com s) None s).

(** While the process lives. *)
Inductive live_step (s s' : System) : Prop :=
  | lives : sys_dead s = false → sys_step s s' → live_step s s'.

(** After [serve] has been called. *)
Definition boot (T : Tables) (b : broker) : System := mkSystem T b ∅ None [] [] false.

(** ** What every goroutine keeps *)

Definition holding (tx : option Tx) : bool := match tx with Some _ => true | None => false end.
Definition tx_intact (tx : option Tx) : Prop := ∀ x, tx = Some x → intact (tx_work x).

Lemma merges_intact tx T T' : merges tx T T' → intact T → intact (tx_work tx) → intact T'.
Proof. intros Hm HT HW k. destruct (Hm k) as [[_ ->]|[_ ->]]; auto. Qed.

(** A program that is lawful and conforms keeps the tables intact, whoever
    else is at work. *)
Definition behaves {A} (p : prog A) (tx : option Tx) (Q : A → Prop) : Prop :=
  tx_intact tx ∧ conforms (λ _, True) p (λ _ o, o = false) (holding tx) ∧ obeys lawful p Q.

Lemma behaves_step {A} (c c' : Client A) T T' Q :
  intact T → behaves (cl_prog c) (cl_tx c) Q → client_step F refreshing clock T c T' c' →
  intact T' ∧ behaves (cl_prog c') (cl_tx c') Q.
Proof.
  intros HT (Htx & Hc & Hp) Hstep. unfold behaves.
  destruct Hstep as [k tx t Ht|s k tx r T' He|s k tx r W' He|s k e|R q k tx r Hq|R q k tx r Hq|R q k e|k|k e HF
    |k tx T' Hm|k tx e Hcf|k tx e T' HF Hor|k e|k tx|ks k tx r Hperm|p' tx W' Hr Hm];
    cbn [cl_prog cl_tx holding conforms obeys] in *; try (destruct Hc as [Hcall Hc], Hp as [Hper Hp]);
    try (by destruct Hcall).
  - split; [done|]. split; [done|]. split; [by apply Hc|by apply Hp].
  - split; [eapply exec_outcome_intact; [exact HT|exact Hper|exact He]|]. split; [done|].
    split; [by apply Hc|by apply Hp].
  - split; [done|]. split; [|split; [by apply Hc|by apply Hp]]. intros x [= <-].
    eapply exec_outcome_intact; [by apply Htx|exact Hper|exact He].
  - split; [done|]. split; [done|]. split; [by apply Hc|]. apply Hp. cbn. destruct r as [e|rows]; [done|].
    by eapply sql_answer_plausible.
  - split; [done|]. split; [done|]. split; [by apply Hc|]. apply Hp. cbn. destruct r as [e|rows]; [done|].
    eapply sql_answer_plausible; [by apply Htx|exact Hq].
  - split; [done|]. split; [by intros x [= <-]|]. split; [by apply Hc|by apply Hp].
  - split; [done|]. split; [done|]. split; [by apply Hc|by apply Hp].
  - split; [eapply merges_intact; [exact Hm|done|by apply Htx]|]. split; [done|]. split; [by apply Hc|by apply Hp].
  - split; [done|]. split; [done|]. split; [by apply Hc|by apply Hp].
  - split; [destruct Hor as [->|Hm]; [done|eapply merges_intact; [exact Hm|done|by apply Htx]]|].
    split; [done|]. split; [by apply Hc|by apply Hp].
  - split; [done|]. split; [done|]. split; [by apply Hc|by apply Hp].
  - split; [done|]. split; [done|]. split; [by apply Hc|by apply Hp].
  - split; [done|]. split; [done|]. split; [by apply Hc|by apply Hp].
  - split; [done|]. split; [|done]. intros x [= <-]. eapply merges_intact; [exact Hm|done|by apply Htx].
Qed.
(** What is left of a turn, its operation on the store in progress first,
    ends in [Q] and with no transaction open. *)
Definition pledge {X} (c : call X) (tx : option Tx) (next : X → Prop) : Prop :=
  match c in call X return (X → Prop) → Prop with
  | Store p => λ next, behaves p tx next
  | _ => λ next, tx = None ∧ ∀ x, next x
  end next.

Fixpoint pledged {R} (t : thread R) (tx : option Tx) (Q : R → Prop) : Prop :=
  match t with
  | Done r => tx = None ∧ Q r
  | Do c k => pledge c tx (λ x, pledged (k x) None Q)
  end.

Lemma behaves_mono {A} (p : prog A) tx (Q Q' : A → Prop) : (∀ a, Q a → Q' a) → behaves p tx Q → behaves p tx Q'.
Proof. intros HQ (? & ? & Hp). split; [done|]. split; [done|]. by eapply obeys_mono. Qed.

Lemma pledged_mono {R} (t : thread R) tx (Q Q' : R → Prop) : (∀ r, Q r → Q' r) → pledged t tx Q → pledged t tx Q'.
Proof.
  intros HQ. revert tx. induction t as [r|X c k IH]; intros tx; cbn [pledged].
  - intros [? ?]; auto.
  - destruct c; cbn [pledge]; [apply behaves_mono; auto|intros [? ?]; auto..].
Qed.

(** The open transaction of a turn has intact tables of its own. *)
Lemma pledged_tx {R} (t : thread R) tx Q : pledged t tx Q → tx_intact tx.
Proof.
  destruct t as [r|X c k]; cbn [pledged]; [by intros [-> _]|].
  destruct c; cbn [pledge]; [by intros [? _]|by intros [-> _]..].
Qed.

Lemma behaves_ret {A} (a : A) tx Q : behaves (Ret a) tx Q → tx = None ∧ Q a.
Proof. intros (_ & Ho & HQ). simpl in *. by destruct tx. Qed.

Lemma thread_step_pledged sub {R} T b (t : thread R) tx T' b' t' tx' ws Q :
  intact T → wf_broker b → pledged t tx Q → thread_step sub T b t tx T' b' t' tx' ws →
  intact T' ∧ wf_broker b' ∧ pledged t' tx' Q.
Proof.
  intros HT Hb Ht Hstep.
  destruct Hstep as [A p p' k tx T' tx' Hs|A a k tx|ch k tx b' n Hs|order ch k tx b' n Hv Hs|ch k tx|to v k tx];
    cbn [pledged pledge] in Ht.
  - destruct (behaves_step (mkClient p tx) (mkClient p' tx') T T' _ HT Ht Hs) as [HT' Hp]. auto.
  - apply behaves_ret in Ht as [-> Ht]. auto.
  - destruct Ht as [-> Ht]. split; [done|]. split; [|apply Ht].
    pose proof (wf_Subscribe b ch sub) as Hwf. rewrite Hs in Hwf. by apply Hwf.
  - destruct Ht as [-> Ht]. split; [done|]. split; [|apply Ht].
    pose proof (wf_Unsubscribe order b ch sub) as Hwf. rewrite Hs in Hwf. by apply Hwf.
  - destruct Ht as [-> Ht]. split; [done|]. split; [done|]. apply Ht.
  - destruct Ht as [-> Ht]. split; [done|]. split; [done|]. apply Ht.
Qed.

(** *** Turns *)

(** A KEYS in the queue that would panic is to blame on [bad]. *)
Definition conn_blames (bad : Prop) (c : Conn) : Prop :=
  conn_ok (conn_cc c) ∧ ∀ q, q ∈ QueuedCmds (conn_cc c) → keys_panics q → bad.

(** So is the panic of a turn. *)
Definition turn_ok (bad : Prop) (r : result (Conn * bool)) : Prop :=
  match r with inl e => e = Panic ∧ bad | inr (c, _) => conn_blames bad c end.

Section turn_ok.
Context (bad : Prop) (sub : nat).
Abbreviation pledged t := (pledged t None (turn_ok bad)).

Lemma pledged_goes_on c : conn_blames bad c → pledged (goes_on c).
Proof. by split. Qed.

Lemma pledged_reply r t : pledged t → pledged (reply sub r t).
Proof. by split. Qed.

Lemma pledged_subscribe chs c : conn_blames bad c → pledged (subscribe_calls sub chs c).
Proof.
  revert c. induction chs as [|a chs IH]; intros c Hc; [by apply pledged_goes_on|].
  split; [done|]. intros n. apply pledged_reply. by apply IH.
Qed.

Lemma pledged_unsubscribe chs c : conn_blames bad c → pledged (unsubscribe_calls sub chs c).
Proof.
  revert c. induction chs as [|a chs IH]; intros c Hc; [by apply pledged_goes_on|].
  split; [done|]. intros n. apply pledged_reply. by apply IH.
Qed.

Lemma pledged_deliver subs ch msg t : pledged t → pledged (deliver_all subs ch msg t).
Proof. intros Ht. induction subs as [|s subs IH]; [done|]. by split. Qed.

Lemma pledged_leave c : conn_blames bad c → pledged (leave c).
Proof. by split. Qed.

Lemma obeys_returns π {A} (p : prog A) P Q : returns P p → obeys π p Q → obeys π p (λ a, P a ∧ Q a).
Proof. induction p as [a|X e k IH]; [by split|]. intros Hp [? Hk]. split; [done|]. auto. Qed.

Lemma pledged_turn c v :
  conn_blames bad c → (keys_panics (toArgs v) → bad) → pledged (turn sub c v).
Proof.
  intros Hc Hbad. pose proof Hc as [Hok Hq]. unfold Serving.turn. cbv zeta.
  destruct (toArgs v) as [|a rest] eqn:Hargs; [by apply pledged_goes_on|].
  case_decide; [by apply pledged_reply, pledged_goes_on|]. case_decide as Hauth.
  { destruct (handleAuth_ok startTime Password (conn_cc c) (a :: rest) Hok) as (Hok' & Hq' & _).
    destruct (handleAuth _ _ _) as [cc r]. apply pledged_reply, pledged_goes_on. split; [done|].
    simpl in *. by rewrite Hq'. }
  case_decide; [by apply pledged_subscribe|]. case_decide.
  { case_decide; [|by apply pledged_unsubscribe]. split; [done|]. intros n. by apply pledged_reply, pledged_goes_on. }
  case_decide.
  { destruct rest as [|ch [|msg rest]]; [by apply pledged_reply, pledged_goes_on..|].
    split; [done|]. intros subs. by apply pledged_deliver, pledged_reply, pledged_goes_on. }
  split; [done|]. split.
  { eapply conforms_grow; [|eapply conforms_mono; [|apply QueueOrDispatch_confined]]; [done|]. by intros r o [? _]. }
  eapply obeys_mono; [|apply obeys_returns; [by apply (QueueOrDispatch_keeps startTime has_store (conn_cc c) (a :: rest))|by apply acts_QueueOrDispatch]].
  intros [e|[cc r]] [Hy Hpanic].
  - simpl in Hy. subst e. split; [done|]. split; [done|].
    destruct (Hpanic eq_refl) as [Hk|(_ & _ & q & Hin & Hk)]; [auto|by eapply Hq].
  - destruct Hy as (Hok' & _ & Hsub). apply pledged_reply.
    assert (conn_blames bad (with_cc cc c)) as Hcc.
    { split; [done|]. intros q Hin Hk. apply Hsub, elem_of_cons in Hin as [->|Hin]; [auto|by eapply Hq]. }
    case_decide; [by split|by apply pledged_goes_on].
Qed.
End turn_ok.

(** *** The process *)

Definition goroutine_ok (bad : Prop) (g : Goroutine) : Prop :=
  match g with
  | Reading c input => conn_blames bad c ∧ (hostile input → bad)
  | Working t tx input => pledged t tx (turn_ok bad) ∧ (hostile input → bad)
  end.

Lemma goroutine_ok_mono (bad bad' : Prop) g : (bad → bad') → goroutine_ok bad g → goroutine_ok bad' g.
Proof.
  intros Hb. destruct g as [c input|t tx input]; simpl.
  - intros [[Hok Hq] Hi]. split; [|auto]. split; [done|]. eauto.
  - intros [Ht Hi]. split; [|auto]. eapply pledged_mono; [|exact Ht].
    intros [e|[c r]]; simpl; [by intros [? ?]; auto|]. intros [Hok Hq]. split; [done|]. eauto.
Qed.

Definition sys_ok (s : System) : Prop :=
  intact (sys_com s) ∧ wf_broker (sys_broker s) ∧
  map_Forall (λ _ g, goroutine_ok (Exists hostile (sys_inputs s)) g) (sys_conns s) ∧
  (∀ c, sys_sweep s = Some c → behaves (cl_prog c) (cl_tx c) (λ _, True)) ∧
  (sys_dead s = true → Exists hostile (sys_inputs s)).

Lemma hostile_nil : ¬ hostile [].
Proof.
  assert (ReadValue [] = inl EOF) as Heof by (unfold ReadValue; cbn [length readValue]; by rewrite has_stack_0).
  destruct 1 as [Hr|Hr|v rest Hr _|v rest Hr _]; congruence.
Qed.

Lemma set_goroutine_ok sub g s :
  sys_ok s → goroutine_ok (Exists hostile (sys_inputs s)) g → sys_ok (set_goroutine sub g s).
Proof. intros (? & ? & ? & ? & ?) Hg. do 2 (split; [done|]). split; [by apply map_Forall_insert_2|done]. Qed.

Lemma sys_step_ok s s' : sys_ok s → sys_step s s' → sys_ok s'.
Proof.
  intros Hs Hstep. pose proof Hs as (HT & Hb & Hc & Hw & Hd).
  destruct Hstep as [sub input Hnone|sub c input v rest Hsub Hread|sub c input e Hsub Hread Hp Hf
    |sub c input e Hsub Hread Hpf|sub t tx input T' b' t' tx' ws Hsub Hstep|sub c tx input Hsub|sub c tx input Hsub
    |sub e tx input Hsub|Hnone|c T' c' Hsw Hstep|r tx Hsw].
  - split; [done|]. split; [done|]. cbn [accepted sys_inputs sys_conns sys_sweep sys_dead]. split; [|split; [done|]].
    + apply map_Forall_insert_2.
      * split; [split; [apply NewClientConn_ok|by intros q Hq%elem_of_nil]|]. intros Hi. by constructor.
      * eapply map_Forall_impl; [exact Hc|]. intros k g. apply goroutine_ok_mono. intros ?. by apply Exists_cons_tl.
    + intros Hdead. apply Exists_cons_tl. auto.
  - destruct (Hc _ _ Hsub) as [Hblame Hi]. apply set_goroutine_ok; [done|]. split.
    + apply pledged_turn; [done|]. intros Hk. apply Hi. by eapply hostile_keys.
    + intros Hr. apply Hi. by eapply hostile_later.
  - destruct (Hc _ _ Hsub) as [Hblame Hi]. apply set_goroutine_ok; [done|]. split; [by apply pledged_leave|].
    by intros Hn%hostile_nil.
  - destruct (Hc _ _ Hsub) as [_ Hi]. split; [done|]. split; [done|]. split; [done|]. split; [done|]. intros _. apply Hi.
    destruct Hpf as [->| ->]; [by apply hostile_length|by apply hostile_size].
  - destruct (Hc _ _ Hsub) as [Ht Hi].
    destruct (thread_step_pledged sub _ _ _ _ _ _ _ _ _ _ HT Hb Ht Hstep) as (HT' & Hb' & Ht').
    split; [done|]. split; [done|]. split; [by apply map_Forall_insert_2|done].
  - destruct (Hc _ _ Hsub) as [[_ Ht] Hi]. by apply set_goroutine_ok.
  - split; [done|]. split; [done|]. split; [by apply map_Forall_delete|done].
  - destruct (Hc _ _ Hsub) as [[_ [_ Hbad]] _]. by split; [|split; [|split; [|split]]].
  - split; [done|]. split; [done|]. split; [done|]. split; [|done]. intros c [= <-]. cbn.
    split; [done|]. split.
    + split; [done|]. intros t. split; [by split|]. by intros [e|n].
    + eapply obeys_mono; [|apply (acts_SweepExpired)]. done.
  - destruct (behaves_step c c' _ _ _ HT (Hw _ Hsw) Hstep) as [HT' Hc'].
    split; [done|]. split; [done|]. split; [done|]. split; [|done]. by intros ? [= <-].
  - split; [done|]. split; [done|]. split; [done|]. by split.
Qed.

Lemma boot_ok T b : intact T → wf_broker b → sys_ok (boot T b).
Proof. by repeat split. Qed.

Lemma live_steps_ok s s' : sys_ok s → rtc live_step s s' → sys_ok s'.
Proof. intros Hs Hsteps. induction Hsteps as [|s s1 s' [_ Hstep] _ IH]; [done|]. by eapply IH, sys_step_ok. Qed.

(** C5: Whatever clients send, while the goroutines of their connections and of
    the sweep take turns call by call in any order, the clock runs and any
    calls of the engine fail: the tables are intact, and so are those of every
    open transaction; a connection at its read is well formed (its database
    index is one of the 16, its queue holds runnable commands); no turn and no
    sweep ends with a transaction open; the broker keeps no empty channel; and
    the process dies only when some client sends a length that cannot be
    allocated, arrays nested deeper than the stack, or a KEYS with an
    unterminated class. *)
Theorem serving_safe T b s :
  intact T → wf_broker b → rtc live_step (boot T b) s →
  intact (sys_com s) ∧ wf_broker (sys_broker s) ∧
  (∀ sub c input, sys_conns s !! sub = Some (Reading c input) → conn_ok (conn_cc c)) ∧
  (∀ sub t tx input, sys_conns s !! sub = Some (Working t (Some tx) input) → intact (tx_work tx)) ∧
  (∀ sub r tx input, sys_conns s !! sub = Some (Working (Done r) tx input) → tx = None) ∧
  (∀ r tx, sys_sweep s = Some (mkClient (Ret r) tx) → tx = None) ∧
  (sys_dead s = true → Exists hostile (sys_inputs s)).
Proof.
  intros HT Hb Hsteps. destruct (live_steps_ok _ _ (boot_ok T b HT Hb) Hsteps) as (HT' & Hb' & Hc & Hw & Hd).
  split; [done|]. split; [done|]. split; [|split; [|split; [|split; [|done]]]].
  - intros sub c input Hsub. by destruct (Hc _ _ Hsub) as [[? _] _].
  - intros sub t tx input Hsub. destruct (Hc _ _ Hsub) as [Ht _]. by eapply pledged_tx.
  - intros sub r tx input Hsub. by destruct (Hc _ _ Hsub) as [[? _] _].
  - intros r tx Hsw. by destruct (behaves_ret _ _ _ (Hw _ Hsw)).
Qed.
End system.

(** ** An executable scheduler *)

(** On an engine that does not fail: the next call of a goroutine, the clock
    showing [ns]. *)
Definition thread_next (ns : Z) (sub : nat) {R} (T : Tables) (b : gmap string (list nat)) (t : thread R)
    (tx : option Tx) : option (Tables * gmap string (list nat) * thread R * option Tx * list (nat * Value)) :=
  match t with
  | Done _ => None
  | Do c k =>
      match c in call X return (X → thread R) → option _ with
      | Store p => λ k,
          match p with
          | Ret a => Some (T, b, k a, tx, [])
          | Vis _ _ =>
              '(T, c) ← next_call ns T (mkClient p tx);
              Some (T, b, Do (Store (cl_prog c)) k, cl_tx c, [])
          end
      | Subscribing ch => λ k, let '(b, n) := Subscribe b ch sub in Some (T, b, k n, tx, [])
      | Unsubscribing ch => λ k,
          let '(b, n) := Unsubscribe (map_to_list b).*1 b ch sub in Some (T, b, k n, tx, [])
      | Subscribers ch => λ k, Some (T, b, k (subs_of b ch), tx, [])
      | Send to v => λ k, Some (T, b, k tt, tx, [(to, v)])
      end k
  end.

(** A client connects, the next step of a connection's goroutine or of the
    sweep. *)
Inductive event_ := Connect (sub : nat) (input : list ascii) | Turn (sub : nat) (ns : Z) | Sweeping (ns : Z).

Section scheduler.
Context `{Unicode, Runtime} (startTime : Z) (Password : string) (has_store : bool).
Abbreviation turn := (turn startTime Password has_store).
Abbreviation live_step := (live_step startTime Password has_store).

Definition sys_next (e : event_) (s : System) : option System :=
  if sys_dead s then None
  else match e with
  | Connect sub input =>
      match sys_conns s !! sub with
      | None => Some (accepted sub (Reading (new_conn Password) input) input s)
      | Some _ => None
      end
  | Turn sub ns =>
      match sys_conns s !! sub with
      | Some (Reading c input) =>
          match ReadValue input with
          | inr (v, rest) => Some (set_goroutine sub (Working (turn sub c v) None rest) s)
          | inl RPanic | inl RFatal => Some (dies s)
          | inl _ => Some (set_goroutine sub (Working (leave c) None []) s)
          end
      | Some (Working (Done (inr (c, false))) _ input) => Some (set_goroutine sub (Reading c input) s)
      | Some (Working (Done (inr (c, true))) _ _) => Some (no_goroutine sub s)
      | Some (Working (Done (inl _)) _ _) => Some (dies s)
      | Some (Working t tx input) =>
          '(T, b, t, tx, ws) ← thread_next ns sub (sys_com s) (sys_broker s) t tx;
          Some (called T b sub (Working t tx input) ws s)
      | None => None
      end
  | Sweeping ns =>
      match sys_sweep s with
      | None => Some (set_sweep (sys_com s) (Some (mkClient SweepExpired None)) s)
      | Some (mkClient (Ret _) _) => Some (set_sweep (sys_com s) None s)
      | Some c => '(T, c) ← next_call ns (sys_com s) c; Some (set_sweep T (Some c) s)
      end
  end.

Fixpoint sys_play (es : list event_) (s : System) : option System :=
  match es with
  | [] => Some s
  | e :: es => s ← sys_next e s; sys_play es s
  end.

(** The reading of the clock that a step may need. *)
Definition shows (clock : Z → Prop) (e : event_) : Prop :=
  match e with Connect _ _ => True | Turn _ ns | Sweeping ns => clock ns end.

Context (refreshing : Prop) (clock : Z → Prop).

Lemma thread_next_step ns sub {R} T b (t : thread R) tx T' b' t' tx' ws :
  clock ns → thread_next ns sub T b t tx = Some (T', b', t', tx', ws) →
  thread_step False refreshing clock sub T b t tx T' b' t' tx' ws.
Proof.
  intros Hns Hn. destruct t as [r|X c k]; [done|].
  destruct c as [A p|ch|ch|ch|to v]; cbn [thread_next] in Hn.
  - destruct p as [a|X e k']; [simplify_eq; constructor|].
    destruct (next_call ns T (mkClient (Vis e k') tx)) as [[T1 [p' tx1]]|] eqn:Hc; simplify_eq/=.
    constructor. eapply client_step_clock; [|by apply next_call_step]. by intros t ->.
  - destruct (Subscribe b ch sub) as [b1 n] eqn:Hs. simplify_eq. by constructor.
  - destruct (Unsubscribe _ b ch sub) as [b1 n] eqn:Hs. simplify_eq. eapply call_unsubscribe; [by unfold visits|done].
  - simplify_eq. constructor.
  - simplify_eq. constructor.
Qed.

Lemma sys_next_step e s s' : shows clock e → sys_next e s = Some s' → live_step False refreshing clock s s'.
Proof.
  intros He Hn. unfold sys_next in Hn. destruct (sys_dead s) eqn:Hd; [done|]. split; [done|].
  destruct e as [sub input|sub ns|ns]; simpl in He.
  - destruct (sys_conns s !! sub) eqn:Hsub; simplify_eq. by constructor.
  - destruct (sys_conns s !! sub) as [[c input|t tx input]|] eqn:Hsub; [| |done].
    + destruct (ReadValue input) as [e|[v rest]] eqn:Hread; [|simplify_eq; by econstructor].
      destruct e; simplify_eq; first [by eapply sys_hangup|by eapply sys_overrun; eauto].
    + destruct t as [[e|[c []]]|X c k]; [simplify_eq; by econstructor..|].
      destruct (thread_next _ _ _ _ _ _) as [[[[[T b] t] tx1] ws]|] eqn:Ht; simplify_eq/=.
      econstructor; [done|]. by eapply thread_next_step.
  - destruct (sys_sweep s) as [[p tx]|] eqn:Hsw; [|simplify_eq; by constructor].
    destruct p as [r|X e k]; [simplify_eq; by econstructor|].
    destruct (next_call _ _ _) as [[T c]|] eqn:Hc; simplify_eq/=. econstructor; [done|].
    eapply client_step_clock; [|by apply next_call_step]. by intros t ->.
Qed.

Lemma sys_play_steps es s s' :
  Forall (shows clock) es → sys_play es s = Some s' → rtc (live_step False refreshing clock) s s'.
Proof.
  intros Hes. revert s. induction Hes as [|e es He _ IH]; intros s Hp; simpl in Hp; [by simplify_eq|].
  destruct (sys_next e s) as [s1|] eqn:Hn; simplify_eq/=. eapply rtc_l; [by eapply sys_next_step|]. by apply IH.
Qed.
End scheduler.

(** ** Witness *)

#[local] Existing Instance ascii_only.
#[local] Existing Instance ample.

(** One client subscribes and sets a key, another publishes meanwhile; the key
    expires, and the sweep begins, in the middle of it all. *)
Lemma serving_safe_witness :
  let sec := 1000000000 in
  let clock t := sec <= t in
  let turns sub n t := replicate n (Turn sub (t * sec)) in
  let es :=
    [Connect 1 (bytes "SUBSCRIBE c" ++ crlf ++ bytes "SET t 5" ++ crlf); Connect 2 (bytes "PUBLISH c m" ++ crlf)]
    ++ turns 1%nat 4%nat 1 ++ turns 2%nat 2%nat 1 ++ turns 1%nat 2%nat 1 ++ [Sweeping (6 * sec)]
    ++ turns 1%nat 1%nat 6 ++ turns 2%nat 1%nat 6 ++ turns 1%nat 5%nat 6 ++ [Sweeping (6 * sec)]
    ++ turns 2%nat 2%nat 6 ++ turns 1%nat 9%nat 6 ++ [Sweeping (6 * sec); Sweeping (6 * sec)] in
  ∃ s, rtc (live_step 0 "" true False False clock) (boot sample_tables ∅) s ∧
    sys_sent s = [(1%nat, Array [BulkString "subscribe"; BulkString "c"; Integer 1]);
      (1%nat, Array [BulkString "message"; BulkString "c"; BulkString "m"]); (2%nat, Integer 1);
      (1%nat, SimpleString "OK")] ∧
    intact (sys_com s) ∧ wf_broker (sys_broker s) ∧ (sys_dead s = true → Exists hostile (sys_inputs s)).
Proof.
  intros sec clock turns es.
  assert (sys_sent <$> sys_play 0 "" true es (boot sample_tables ∅) = Some [
    (1%nat, Array [BulkString "subscribe"; BulkString "c"; Integer 1]);
    (1%nat, Array [BulkString "message"; BulkString "c"; BulkString "m"]); (2%nat, Integer 1);
    (1%nat, SimpleString "OK")]) as (s & Hplay & Hsent)%fmap_Some by by vm_compute.
  apply (sys_play_steps 0 "" true False clock) in Hplay.
  2:{ unfold es, turns. repeat (apply list.Forall_app; split);
        repeat (apply list.Forall_cons; split); try (by apply list.Forall_nil); try exact I;
        try apply list.Forall_replicate; simpl; unfold clock, sec; lia. }
  exists s. split; [done|]. split; [done|].
  destruct (serving_safe 0 "" true False False clock sample_tables ∅ s) as (? & ? & _ & _ & _ & _ & ?); [..|done|auto].
  - apply wf_intact, wf_b_sound. by vm_compute.
  - by intros ? ? ?.
Defined.
