(* ===== verification/Writer.v ===== *)
(** The write side of a connection ([connWriter] of
    [src/internal/server/server.go], [writeValue] of
    [src/internal/resp/resp.go]): replies and published messages are written
    by several goroutines through one [bufio.Writer] behind a mutex. *)
From S2P Require Import Prelude GoStd Resp.
Local Open Scope Z_scope.

(** ** The network *)

(** A [net.Conn] as far as it is written to: the bytes it has taken, and
    [Write] with the contract of [io.Writer]: it takes a prefix, and less than
    all only with an error. *)
Class NetConn (W : Type) := {
  taken : W → list ascii;
  conn_Write : list ascii → W → nat * option string * W;
  conn_Write_takes p w n e w' :
    conn_Write p w = (n, e, w') →
    (n ≤ length p)%nat ∧ taken w' = taken w ++ take n p ∧ ((n < length p)%nat → e ≠ None);
}.
#[global] Hint Mode NetConn ! : typeclass_instances.

(** ** bufio.Writer *)

(** [defaultBufSize]. *)
Definition bufsize : nat := Z.to_nat 4096.

(** A [bufio.Writer]: what it has buffered, and its error, which stays. *)
Record bufWriter := mkWriter { buffered : list ascii; bw_err : option string }.

Definition NewWriter : bufWriter := mkWriter [] None.

Section writer.
Context `{NetConn W}.

(** [Flush]; the result is the writer's error. *)
Definition bw_Flush (b : bufWriter) (w : W) : bufWriter * W :=
  match bw_err b, buffered b with
  | Some _, _ | None, [] => (b, w)
  | None, buf =>
      let '(n, e, w) := conn_Write buf w in
      let e := if decide ((n < length buf)%nat ∧ e = None) then Some "short write" else e in
      (mkWriter (if e is Some _ then drop n buf else []) e, w)
  end.

Definition Available (b : bufWriter) : nat := bufsize - length (buffered b).

(** The loop of [Write] ([direct]) and [WriteString] while the text does not
    fit: an empty buffer is bypassed by the one, filled by the other. *)
Fixpoint bw_loop (fuel : nat) (direct : bool) (p : list ascii) (b : bufWriter) (w : W)
    : list ascii * bufWriter * W :=
  match fuel with
  | O => (p, b, w)
  | S fuel' =>
      if decide ((Available b < length p)%nat ∧ bw_err b = None) then
        if decide (direct = true ∧ buffered b = []) then
          let '(n, e, w) := conn_Write p w in
          bw_loop fuel' direct (drop n p) (mkWriter [] e) w
        else
          let n := Available b in
          let '(b, w) := bw_Flush (mkWriter (buffered b ++ take n p) None) w in
          bw_loop fuel' direct (drop n p) b w
      else (p, b, w)
  end.

(** [Write] and [WriteString]; a round that takes nothing off the text empties
    the buffer. *)
Definition bw_Write (direct : bool) (p : list ascii) (b : bufWriter) (w : W) : bufWriter * W :=
  let '(p, b, w) := bw_loop (S (S (length p))) direct p b w in
  (if bw_err b is Some _ then b else mkWriter (buffered b ++ p) None, w).
End writer.

(** ** connWriter *)

(** The calls [connWriter.Write] makes on the mutex and the writer. *)
Inductive op := Lock | Put (direct : bool) (p : list ascii) | Flush | Unlock.

(** Those of [writeValue]: [Fprintf] calls [Write]. *)
Fixpoint puts (v : Value) : list op :=
  match v with
  | SimpleString s => [Put true (TypeSimpleString :: bytes s ++ crlf)]
  | Error s => [Put true (TypeError :: bytes s ++ crlf)]
  | Integer n => [Put true (TypeInteger :: bytes (format_int n) ++ crlf)]
  | NullBulkString => [Put false (bytes "$-1" ++ crlf)]
  | BulkString s =>
      [Put true (TypeBulkString :: bytes (format_int (Z.of_nat (String.length s))) ++ crlf);
       Put false (bytes s); Put false crlf]
  | NullArray => [Put false (bytes "*-1" ++ crlf)]
  | Array vs =>
      Put true (TypeArray :: bytes (format_int (Z.of_nat (length vs))) ++ crlf) ::
        (fix puts_all vs := match vs with [] => [] | v :: vs' => puts v ++ puts_all vs' end) vs
  end.

(** [Value.WriteTo] on a [bufio.Writer], which it uses as it is. *)
Definition WriteTo (v : Value) : list op := puts v ++ [Flush].

(** [connWriter.Write]: [WriteTo] and one more [Flush] under the lock. *)
Definition write_ops (v : Value) : list op := [Lock] ++ WriteTo v ++ [Flush; Unlock].

(** A goroutine: the write it is in, with the calls left of it, and the values
    it will write after; it drops the errors of [Write]. *)
Record Writing := mkWriting { within : option (Value * list op); ahead : list Value }.

(** A connection: who holds [mu], [bw], the network, the goroutines. *)
Record ConnWriter (W : Type) := mkConnWriter {
  mu : option nat;
  bw : bufWriter;
  net : W;
  goroutines : list Writing;
}.
Arguments mkConnWriter {W}. Arguments mu {W}. Arguments bw {W}. Arguments net {W}. Arguments goroutines {W}.

Section conn_writer.
Context `{NetConn W}.

(** After a call of [bw]: an error makes [Write] return, and so unlock. *)
Definition go_on (b : bufWriter) (rest : list op) : list op := if bw_err b is Some _ then [Unlock] else rest.

(** The next call of goroutine [i], when it has one and need not wait, with
    the value whose turn begins. *)
Definition write_step (i : nat) (c : ConnWriter W) : option (ConnWriter W * list (nat * Value)) :=
  let goroutine g := <[i := g]> (goroutines c) in
  match goroutines c !! i with
  | Some (mkWriting None (v :: vs)) =>
      Some (mkConnWriter (mu c) (bw c) (net c) (goroutine (mkWriting (Some (v, write_ops v)) vs)), [])
  | Some (mkWriting (Some (v, o :: rest)) vs) =>
      let to ops := goroutine (mkWriting (Some (v, ops)) vs) in
      match o with
      | Lock =>
          if mu c is Some _ then None
          else Some (mkConnWriter (Some i) (bw c) (net c) (to rest), [(i, v)])
      | Put direct p =>
          let '(b, w) := bw_Write direct p (bw c) (net c) in
          Some (mkConnWriter (mu c) b w (to (go_on b rest)), [])
      | Flush =>
          let '(b, w) := bw_Flush (bw c) (net c) in
          Some (mkConnWriter (mu c) b w (to (go_on b rest)), [])
      | Unlock => Some (mkConnWriter None (bw c) (net c) (goroutine (mkWriting None vs)), [])
      end
  | _ => None
  end.

(** The goroutines take turns; the result has the values in the order in which
    their writes got the lock. *)
Fixpoint write_run (turns : list nat) (c : ConnWriter W) (order : list (nat * Value))
    : option (ConnWriter W * list (nat * Value)) :=
  match turns with
  | [] => Some (c, order)
  | i :: turns' => '(c', vs) ← write_step i c; write_run turns' c' (order ++ vs)
  end.

(** [newConnWriter], and the values each goroutine will write. *)
Definition newConnWriter (w : W) (todo : list (list Value)) : ConnWriter W :=
  mkConnWriter None NewWriter w (mkWriting None <$> todo).
End conn_writer.

(** ** The stream *)

Section stream.
Context `{NetConn W}.

(** All of [S] but [pending] has been written: what the network has taken is a
    beginning of it and, unless there was an error, the buffer has the rest. *)
Definition carries (S pending : list ascii) (b : bufWriter) (w : W) : Prop :=
  (length (buffered b) ≤ bufsize)%nat ∧ taken w `prefix_of` S ∧
  (bw_err b = None → taken w ++ buffered b ++ pending = S).

Lemma bufsize_pos : (0 < bufsize)%nat.
Proof. apply (bool_decide_unpack _). by vm_compute. Qed.

Lemma carries_grow S v b (w : W) : carries S [] b w → carries (S ++ v) v b w.
Proof.
  intros (Hlen & Hp & Hs). split; [done|]. split; [by apply prefix_app_r|]. intros He.
  rewrite <- (Hs He). by rewrite app_nil_r, app_assoc.
Qed.

(** [Write] of the network, [p] first of what is to come. *)
Lemma carries_conn S p q (w : W) n e w' :
  taken w ++ p ++ q = S → conn_Write p w = (n, e, w') →
  taken w' `prefix_of` S ∧ (e = None → n = length p ∧ taken w' ++ q = S).
Proof.
  intros HS Hw. apply conn_Write_takes in Hw as (Hn & Ht & Hshort). split.
  - rewrite Ht, <- HS. apply prefix_app. apply prefix_app_r. exists (drop n p). symmetry. apply take_drop.
  - intros He'. assert (n = length p) as -> by (destruct (decide (n < length p)%nat); [by destruct Hshort|lia]).
    split; [done|]. by rewrite Ht, take_ge, <- app_assoc.
Qed.

Lemma carries_Flush S p b (w : W) b' w' :
  carries S p b w → bw_Flush b w = (b', w') →
  carries S p b' w' ∧ (bw_err b' = None → buffered b' = []).
Proof.
  intros (Hlen & Hp & Hs). unfold bw_Flush. destruct (bw_err b) as [e|] eqn:He.
  { intros [= <- <-]. unfold carries. by rewrite He. }
  destruct (buffered b) as [|x buf] eqn:Hb.
  { intros [= <- <-]. split; [|done]. unfold carries. rewrite Hb. split; [done|]. by split; [|intros _; apply Hs]. }
  rewrite <- Hb in *. destruct (conn_Write (buffered b) w) as [[n e] w1] eqn:Hw. intros [= <- <-].
  pose proof (conn_Write_takes _ _ _ _ _ Hw) as (_ & _ & Hshort).
  rewrite decide_False by (intros [? ?]; by apply Hshort).
  destruct (carries_conn S (buffered b) p w n e w1) as [Hp' Hs']; [by apply Hs|done|].
  split; [|by destruct e]. split; [|split; [done|]]; cbn [buffered bw_err].
  - destruct e; simpl; [|lia]. rewrite length_drop. lia.
  - intros ->. by apply Hs'.
Qed.

Lemma carries_loop fuel direct S p q b (w : W) p' b' w' :
  carries S (p ++ q) b w → bw_loop fuel direct p b w = (p', b', w') → carries S (p' ++ q) b' w'.
Proof.
  revert p b w. induction fuel as [|fuel IH]; intros p b w Hc; cbn [bw_loop]; [by intros [= <- <- <-]|].
  case_decide as Hfull; [|by intros [= <- <- <-]]. destruct Hc as (Hlen & Hp & Hs), Hfull as [_ He]. case_decide as Hd.
  - destruct (conn_Write p w) as [[n e] w1] eqn:Hw. apply IH. destruct Hd as [_ Hb]. specialize (Hs He).
    rewrite Hb in Hs. destruct (carries_conn S p q w n e w1 Hs Hw) as [Hp1 Hs1].
    split; [simpl; lia|]. split; [done|]. intros He1. destruct (Hs1 He1) as [-> HS]. by rewrite drop_all.
  - destruct (bw_Flush _ w) as [b1 w1] eqn:Hf. apply IH.
    eapply (carries_Flush S (drop (Available b) p ++ q)); [|exact Hf]. split; [|split; [done|]]; cbn [buffered].
    + rewrite length_app, length_take. unfold Available. lia.
    + intros _. rewrite <- (Hs He), <- !app_assoc, (app_assoc (take _ p)). by rewrite take_drop.
Qed.

(** The rounds are enough: the text left fits, or there was an error. *)
Lemma bw_loop_ends fuel direct p b (w : W) :
  (length (buffered b) ≤ bufsize)%nat →
  (length p + (1 - Available b) < fuel)%nat →
  let '(p', b', _) := bw_loop fuel direct p b w in bw_err b' = None → (length p' ≤ Available b')%nat.
Proof.
  revert p b w. induction fuel as [|fuel IH]; intros p b w Hlen Hfuel; [lia|]. cbn [bw_loop].
  pose proof bufsize_pos. case_decide as Hfull; [|cbv beta iota; intros He; apply Nat.nlt_ge; intros ?; by apply Hfull].
  destruct Hfull as [Hfull He].
  assert (∀ b1 (w1 : W) n, (length (buffered b1) ≤ bufsize)%nat → (bw_err b1 = None → buffered b1 = [] ∧
      (length (drop n p) < fuel)%nat) →
    let '(p', b', _) := bw_loop fuel direct (drop n p) b1 w1 in bw_err b' = None → (length p' ≤ Available b')%nat) as Hnext.
  { intros b1 w1 n Hlen1 Hb1. destruct (bw_err b1) as [e1|] eqn:He1.
    - destruct fuel as [|fuel]; cbn [bw_loop]; [by rewrite He1|].
      rewrite decide_False by (intros [_ ?]; congruence). by rewrite He1.
    - destruct (Hb1 eq_refl) as [Hnil Hdrop]. apply IH; [done|].
      unfold Available. rewrite Hnil. cbn [length]. lia. }
  case_decide as Hd.
  - destruct (conn_Write p w) as [[n e] w1] eqn:Hw. pose proof (conn_Write_takes _ _ _ _ _ Hw) as (Hn & _ & Hshort).
    apply Hnext; [simpl; lia|]. simpl. intros ->. split; [done|]. rewrite length_drop.
    destruct (decide (n < length p)%nat); [by destruct Hshort|]. lia.
  - destruct (bw_Flush _ w) as [b1 w1] eqn:Hf.
    destruct (carries_Flush (taken w ++ buffered b ++ take (Available b) p) [] (mkWriter (buffered b ++ take (Available b) p) None) w b1 w1)
      as [(Hlen1 & _) Hnil]; [|exact Hf|].
    { split; [cbn [buffered]; rewrite length_app, length_take; unfold Available; lia|].
      split; [by apply prefix_app_r|]. intros _. by rewrite app_nil_r. }
    apply Hnext; [done|]. intros He1. split; [by apply Hnil|]. rewrite length_drop. lia.
Qed.

Lemma carries_Write S direct p q b (w : W) b' w' :
  carries S (p ++ q) b w → bw_Write direct p b w = (b', w') → carries S q b' w'.
Proof.
  intros Hc. unfold bw_Write. pose proof (bw_loop_ends (2 + length p) direct p b w) as Hends.
  destruct (bw_loop _ _ _ _ _) as [[p1 b1] w1] eqn:Hl. intros [= <- <-].
  destruct (carries_loop _ _ _ _ _ _ _ _ _ _ Hc Hl) as (Hlen & Hp & Hs).
  destruct (bw_err b1) as [e|] eqn:He; [by unfold carries; rewrite He|].
  split; [|split; [done|]]; cbn [buffered].
  - rewrite length_app. assert (length p1 ≤ Available b1)%nat as Hfits; [|unfold Available in Hfits; lia].
    apply Hends; [apply Hc|lia|done].
  - intros _. rewrite <- app_assoc. by apply Hs.
Qed.
End stream.

(** ** Under the lock *)

(** What the calls put on the stream. *)
Definition put_text (o : op) : list ascii := match o with Put _ p => p | _ => [] end.
Definition text_of (ops : list op) : list ascii := concat (put_text <$> ops).

Definition is_put (o : op) : Prop := match o with Put _ _ => True | _ => False end.

Lemma text_of_app ops ops' : text_of (ops ++ ops') = text_of ops ++ text_of ops'.
Proof. unfold text_of. by rewrite fmap_app, concat_app. Qed.

Lemma puts_text v : text_of (puts v) = writeValue v ∧ Forall is_put (puts v).
Proof.
  induction v as [s|s|n|s| |vs IH| ] using Value_rect'; cbn [puts];
    try (split; [|by repeat constructor]; unfold text_of; cbn [fmap list_fmap concat put_text writeValue app];
      by rewrite app_nil_r, <- ?app_assoc).
  - rewrite writeValue_array. set (puts_all := fix puts_all vs := match vs with [] => [] | v :: vs' => puts v ++ puts_all vs' end).
    assert (text_of (puts_all vs) = write_all vs ∧ Forall is_put (puts_all vs)) as [Ht Hp].
    { induction IH as [|v vs [Hv Hpv] _ [Ht Hp]]; [done|]. cbn [puts_all]. rewrite text_of_app, Hv, Ht.
      split; [done|]. by apply list.Forall_app. }
    split; [|by constructor]. change (text_of (?o :: ?ops)) with (put_text o ++ text_of ops). rewrite Ht. cbn [put_text app].
    by rewrite <- app_assoc.
Qed.

(** The calls left to the goroutine that holds the lock. *)
Inductive inside : list op → Prop :=
  | inside_puts ps : Forall is_put ps → inside (ps ++ [Flush; Flush; Unlock])
  | inside_flush : inside [Flush; Unlock]
  | inside_unlock : inside [Unlock].

Lemma inside_inv o rest : inside (o :: rest) →
  (∃ direct p, o = Put direct p ∧ inside rest ∧ rest ≠ [Unlock]) ∨ o = Flush ∧ inside rest ∨ o = Unlock ∧ rest = [].
Proof.
  inversion 1 as [ps Hps Heq|Heq|Heq]; simplify_eq; [|right; left; split; [done|constructor]|by right; right].
  destruct Hps as [|o' ps Ho Hps]; simplify_eq/=.
  - right; left. split; [done|constructor].
  - left. destruct o; try done. eexists _, _. split; [done|]. split; [by constructor|].
    intros Heq. apply (f_equal length) in Heq. rewrite length_app in Heq. simpl in Heq. lia.
Qed.

Section orderly.
Context `{NetConn W} (todo : list (list Value)).

(** The stream of the values written in this order. *)
Definition stream (order : list (nat * Value)) : list ascii := concat (writeValue <$> order.*2).

Definition values_of (i : nat) (order : list (nat * Value)) : list Value := (filter (λ iv, iv.1 = i) order).*2.

(** The value of a write that has not got the lock yet. *)
Definition waiting (g : Writing) : list Value :=
  match within g with Some (v, Lock :: _) => [v] | _ => [] end.

Definition carried (ops : list op) (order : list (nat * Value)) (c : ConnWriter W) : Prop :=
  carries (stream order) (text_of ops) (bw c) (net c) ∧
  (ops = [Unlock] → bw_err (bw c) = None → buffered (bw c) = []).

(** The lock is free and all is written and flushed; or its holder has what is
    missing. *)
Definition guarded_writer (order : list (nat * Value)) (c : ConnWriter W) : Prop :=
  match mu c with
  | None => carried [Unlock] order c
  | Some i => ∃ v ops vs, goroutines c !! i = Some (mkWriting (Some (v, ops)) vs) ∧ inside ops ∧ carried ops order c
  end.

Definition outside (c : ConnWriter W) : Prop := ∀ i g,
  goroutines c !! i = Some g → mu c ≠ Some i → within g = None ∨ ∃ v, within g = Some (v, write_ops v).

(** Each goroutine's values are written in its order. *)
Definition in_order (order : list (nat * Value)) (c : ConnWriter W) : Prop := ∀ i,
  todo !! i = (λ g, values_of i order ++ waiting g ++ ahead g) <$> goroutines c !! i.

Definition orderly (order : list (nat * Value)) (c : ConnWriter W) : Prop :=
  guarded_writer order c ∧ outside c ∧ in_order order c.

Lemma stream_snoc order i v : stream (order ++ [(i, v)]) = stream order ++ writeValue v.
Proof. unfold stream. rewrite !fmap_app, concat_app. simpl. by rewrite app_nil_r. Qed.

Lemma values_of_snoc order i j v :
  values_of j (order ++ [(i, v)]) = values_of j order ++ (if decide (i = j) then [v] else []).
Proof. unfold values_of. rewrite list.filter_app, fmap_app, filter_cons, filter_nil. simpl. by destruct (decide (i = j)). Qed.

Lemma in_order_insert order order' c i g g' m b w :
  in_order order c → goroutines c !! i = Some g →
  values_of i order' ++ waiting g' ++ ahead g' = values_of i order ++ waiting g ++ ahead g →
  (∀ j, j ≠ i → values_of j order' = values_of j order) →
  in_order order' (mkConnWriter m b w (<[i := g']> (goroutines c))).
Proof.
  intros Hord Hi Heq Hothers j. rewrite Hord. cbn [goroutines]. destruct (decide (j = i)) as [->|Hne].
  - rewrite Hi, list_lookup_insert_eq by by eapply lookup_lt_Some. cbn. by rewrite Heq.
  - rewrite list_lookup_insert_ne by congruence. by rewrite Hothers.
Qed.

(** After a call on the writer by the lock's holder. *)
Lemma carried_after rest order S b (w : W) :
  inside rest → S = stream order → carries S (text_of rest) b w →
  (rest = [Unlock] → bw_err b = None → buffered b = []) →
  inside (go_on b rest) ∧ ∀ m gs, carried (go_on b rest) order (mkConnWriter m b w gs).
Proof.
  intros Hin -> Hc Hb. unfold go_on, carried. destruct (bw_err b) as [e|] eqn:He; cbn [bw net].
  - split; [constructor|]. intros _ _. split; [|by rewrite He]. destruct Hc as (Hlen & Hp & _).
    split; [done|]. split; [done|]. by rewrite He.
  - split; [done|]. intros _ _. split; [done|]. intros Hr _. by apply Hb.
Qed.

(** A goroutine that does not hold the lock moves. *)
Lemma orderly_move order c i g g' :
  orderly order c → goroutines c !! i = Some g → mu c ≠ Some i →
  within g' = None ∨ (∃ v, within g' = Some (v, write_ops v)) → waiting g' ++ ahead g' = waiting g ++ ahead g →
  orderly order (mkConnWriter (mu c) (bw c) (net c) (<[i := g']> (goroutines c))).
Proof.
  intros (Hg & Hout & Hord) Hi Hmu Hg' Heq. split; [|split].
  - unfold guarded_writer in *. cbn [mu goroutines]. destruct (mu c) as [j|] eqn:Hj'; [|done].
    destruct Hg as (v & ops & vs & Hj & ?). exists v, ops, vs. rewrite list_lookup_insert_ne; [done|]. intros ->. done.
  - intros j h. cbn [goroutines mu]. intros [(<- & <- & _)|[_ Hj]]%list_lookup_insert_Some Hne; [done|by eapply Hout].
  - eapply in_order_insert; [done|exact Hi|by rewrite Heq|done].
Qed.

(** The holder of the lock moves. *)
Lemma orderly_hold order c i v ops ops' vs b w :
  orderly order c → mu c = Some i → goroutines c !! i = Some (mkWriting (Some (v, ops)) vs) →
  inside ops → inside ops' → carried ops' order (mkConnWriter (mu c) b w (goroutines c)) →
  orderly order (mkConnWriter (mu c) b w (<[i := mkWriting (Some (v, ops')) vs]> (goroutines c))).
Proof.
  intros (_ & Hout & Hord) Hmu Hi Hops Hops' Hc.
  assert (∀ ops, inside ops → ∀ o rest, ops = o :: rest → o ≠ Lock) as Hlock.
  { intros ops1 Hin o rest -> ->. apply inside_inv in Hin as [(? & ? & ? & _)|[[? _]|[? _]]]; done. }
  assert (∀ ops, inside ops → waiting (mkWriting (Some (v, ops)) vs) = []) as Hw.
  { intros [|o rest] Hin; [done|]. unfold waiting. cbn [within]. destruct o; [|done..]. by destruct (Hlock _ Hin _ _ eq_refl). }
  assert (i < length (goroutines c))%nat by by eapply lookup_lt_Some. split; [|split].
  - unfold guarded_writer. cbn [mu goroutines]. rewrite Hmu. exists v, ops', vs.
    rewrite list_lookup_insert_eq by done. by rewrite <- Hmu at 1.
  - intros j h. cbn [goroutines mu]. intros [(<- & <- & _)|[_ Hj]]%list_lookup_insert_Some Hne; [done|by eapply Hout].
  - eapply in_order_insert; [done|exact Hi|by rewrite !Hw|done].
Qed.

Lemma write_step_orderly order c i c' new :
  orderly order c → write_step i c = Some (c', new) → orderly (order ++ new) c'.
Proof.
  intros Ho Hstep. pose proof Ho as (Hg & Hout & Hord). unfold write_step in Hstep.
  destruct (goroutines c !! i) as [[[[v [|o rest]]|] vs]|] eqn:Hi; try done; cycle 1.
  { destruct vs as [|v vs]; simplify_eq. rewrite app_nil_r. eapply orderly_move; [done|exact Hi| |by right; exists v|done].
    intros Hmu. unfold guarded_writer in Hg. rewrite Hmu in Hg. destruct Hg as (? & ? & ? & ? & _). congruence. }
  destruct (decide (mu c = Some i)) as [Hmu|Hmu].
  - assert (inside (o :: rest) ∧ carried (o :: rest) order c) as [Hin [Hc Hb]].
    { unfold guarded_writer in Hg. rewrite Hmu in Hg. destruct Hg as (? & ? & ? & ? & ? & ?). by simplify_eq. }
    pose proof Hin as [(direct & p & -> & Hrest & Hne)|[[-> Hrest]|[-> ->]]]%inside_inv.
    + destruct (bw_Write direct p (bw c) (net c)) as [b w] eqn:Hw. simplify_eq. rewrite app_nil_r.
      pose proof (carries_Write _ _ _ (text_of rest) _ _ _ _ Hc Hw) as Hc'.
      destruct (carried_after rest order _ b w Hrest eq_refl Hc') as [Hin' Hcar]; [done|].
      by eapply orderly_hold.
    + destruct (bw_Flush (bw c) (net c)) as [b w] eqn:Hw. simplify_eq. rewrite app_nil_r.
      pose proof (carries_Flush _ (text_of rest) _ _ _ _ Hc Hw) as [Hc' Hb'].
      destruct (carried_after rest order _ b w Hrest eq_refl Hc') as [Hin' Hcar]; [by intros _|].
      by eapply orderly_hold.
    + simplify_eq. rewrite app_nil_r. split; [done|]. split.
      * intros j h. cbn [goroutines mu]. intros [(<- & <- & _)|[Hij Hj]]%list_lookup_insert_Some _; [by left|].
        eapply Hout; [done|congruence].
      * by eapply in_order_insert.
  - destruct (Hout _ _ Hi Hmu) as [[=]|[v' [= -> -> Hrest]]]. unfold WriteTo in Hrest. rewrite <- app_assoc in Hrest.
    simpl in Hrest. subst rest. destruct (mu c) as [j|] eqn:Hfree; simplify_eq.
    unfold guarded_writer in Hg. rewrite Hfree in Hg. destruct Hg as [Hc _].
    assert (inside (puts v' ++ [Flush; Flush; Unlock])) as Hin by apply inside_puts, puts_text.
    assert (i < length (goroutines c))%nat by by eapply lookup_lt_Some.
    split; [|split].
    + exists v', (puts v' ++ [Flush; Flush; Unlock]), vs. cbn [goroutines mu]. rewrite list_lookup_insert_eq by done.
      split; [done|]. split; [done|]. split.
      * rewrite stream_snoc, text_of_app, (proj1 (puts_text v')). cbn [bw net]. rewrite app_nil_r. by apply carries_grow.
      * intros Heq. apply (f_equal length) in Heq. rewrite length_app in Heq. simpl in Heq. lia.
    + intros j h. cbn [goroutines mu]. intros [(<- & <- & _)|[Hij Hj]]%list_lookup_insert_Some Hne; [done|].
      eapply Hout; [done|by rewrite Hfree].
    + eapply in_order_insert; [done|exact Hi|..].
      * rewrite values_of_snoc, decide_True, <- app_assoc by done. unfold waiting. cbn [within ahead].
        f_equal. f_equal. destruct (puts v') as [|[] ?] eqn:Hp; try done. simpl.
        pose proof (proj2 (puts_text v')) as Hall. rewrite Hp in Hall. by inversion Hall.
      * intros j Hj. by rewrite values_of_snoc, decide_False, app_nil_r by congruence.
Qed.

Lemma write_run_orderly turns c order c' order' :
  orderly order c → write_run turns c order = Some (c', order') → orderly order' c'.
Proof.
  revert c order. induction turns as [|i turns IH]; intros c order Ho Hrun; cbn [write_run] in Hrun; [by simplify_eq|].
  apply bind_Some in Hrun as ([c1 new] & Hs & Hrun). eapply IH; [by eapply write_step_orderly|done].
Qed.

Lemma newConnWriter_orderly w : taken w = [] → orderly [] (newConnWriter w todo).
Proof.
  intros Hw. split; [|split].
  - split; [|done]. split; [cbn [length buffered]; simpl; lia|]. cbn. by rewrite Hw.
  - intros i g. cbn [newConnWriter goroutines]. rewrite list_lookup_fmap. intros (vs & Hi & ->)%fmap_Some. by left.
  - intros i. cbn [newConnWriter goroutines]. rewrite list_lookup_fmap. by destruct (todo !! i).
Qed.
End orderly.

(** ** What a client reads *)

Section clients.
Context `{Runtime}.

(** Reading the input yields the values and ends there. *)
Inductive reads : list ascii → list Value → Prop :=
  | reads_nil : reads [] []
  | reads_cons input v rest vs : ReadValue input = inr (v, rest) → reads rest vs → reads input (v :: vs).

Lemma reads_written vs : Forall wire_ok vs → reads (concat (writeValue <$> vs)) vs.
Proof.
  induction 1 as [|v vs Hv _ IH]; [constructor|]. cbn [fmap list_fmap concat]. econstructor; [|exact IH].
  unfold ReadValue. apply value_reads_back; [done|]. rewrite length_app. lia.
Qed.

Context `{NetConn W} (todo : list (list Value)).

(** C7: However the goroutines that write to a connection interleave, call by call,
    and whatever the network takes or refuses: the bytes it has taken are a
    beginning of the values' encodings one after the other, in the order in
    which the writes got the lock, which for each goroutine is its own; values
    never mix. While nothing fails, all of it has been sent whenever the lock
    is free, and a client that can hold them decodes exactly these values, when
    no simple string or error among them has a newline in it (what such a one
    does is [newline_cuts]). *)
Theorem writes_serial (w : W) turns c order :
  taken w = [] → write_run turns (newConnWriter w todo) [] = Some (c, order) →
  taken (net c) `prefix_of` stream order ∧
  (∀ i vs, todo !! i = Some vs → values_of i order `prefix_of` vs) ∧
  (mu c = None → bw_err (bw c) = None →
    taken (net c) = stream order ∧ (Forall wire_ok order.*2 → reads (taken (net c)) order.*2)).
Proof.
  intros Hw Hrun. pose proof (write_run_orderly todo _ _ _ _ _ (newConnWriter_orderly todo w Hw) Hrun) as (Hg & _ & Hord).
  split; [|split].
  - unfold guarded_writer in Hg. destruct (mu c) as [i|]; [destruct Hg as (? & ? & ? & _ & _ & Hc)|rename Hg into Hc];
      by destruct Hc as ((_ & Hp & _) & _).
  - intros i vs Hi. rewrite (Hord i) in Hi. apply fmap_Some in Hi as (g & _ & ->). by apply prefix_app_r.
  - intros Hmu He. unfold guarded_writer in Hg. rewrite Hmu in Hg. destruct Hg as ((_ & _ & Hs) & Hb).
    specialize (Hs He). rewrite (Hb eq_refl He) in Hs. cbn in Hs. rewrite app_nil_r in Hs.
    split; [done|]. intros Hok. rewrite Hs. by apply reads_written.
Qed.
End clients.

(** ** Witnesses *)

#[local] Existing Instance ample.

(** A peer that takes so many bytes and then is gone. *)
Record Socket := mkSocket { got : list ascii; room : nat }.

#[local] Program Instance socket_conn : NetConn Socket := {|
  taken := got;
  conn_Write p s :=
    let n := (length p `min` room s)%nat in
    (n, if decide (n < length p)%nat then Some "broken pipe" else None, mkSocket (got s ++ take n p) (room s - n))
|}.
Next Obligation.
  intros p s n e s' [= <- <- <-]. split; [apply Nat.le_min_l|]. split; [done|]. by case_decide.
Qed.

Lemma writes_serial_witness :
  let todo := [[Integer 1]; [SimpleString "OK"; BulkString "x"]] in
  let start := newConnWriter (mkSocket [] 100) todo in
  let turns := [1; 1; 0; 1; 1; 1; 1]%nat ++ replicate 5 0%nat ++ replicate 8 1%nat in
  ∃ c, write_run turns start [] = Some (c, [(1%nat, SimpleString "OK"); (0%nat, Integer 1); (1%nat, BulkString "x")]) ∧
    taken (net c) = bytes "+OK" ++ crlf ++ bytes ":1" ++ crlf ++ bytes "$1" ++ crlf ++ bytes "x" ++ crlf ∧
    reads (taken (net c)) [SimpleString "OK"; Integer 1; BulkString "x"].
Proof.
  intros todo start turns.
  destruct (write_run turns start []) as [[c order]|] eqn:Hrun; [|by vm_compute in Hrun].
  pose proof (writes_serial todo (mkSocket [] 100) turns c order eq_refl Hrun) as (_ & _ & Hall).
  vm_compute in Hrun. simplify_eq. eexists. split; [done|]. split; [by vm_compute|].
  destruct Hall as [_ Hreads]; [done|done|]. apply Hreads.
  repeat (apply list.Forall_cons; split); [..|by apply list.Forall_nil]; vm_compute; repeat split; try done; set_solver.
Defined.
