(* ===== verification/Postgres.v ===== *)
(** The PostgreSQL driver's own code ([src/internal/db/postgres.go]):
    placeholder rewriting, statement splitting and the migration; and the
    schema text of [src/internal/db/db.go]. *)
From S2P Require Import Prelude GoStd Float GoText Sql Effects.
Local Open Scope Z_scope.

(** ** Placeholders *)

(** The loop of [itoa]: digits in front of [digits]. *)
Fixpoint itoa_loop (fuel : nat) (n : Z) (digits : list ascii) : list ascii :=
  match fuel with
  | O => digits
  | S fuel' =>
      if decide (0 < n) then itoa_loop fuel' (Z.quot n 10) (digit_char (Z.rem n 10) :: digits)
      else digits
  end.

(** [itoa], for a positive argument; a division by ten takes a bit or more. *)
Definition itoa (n : Z) : list ascii :=
  if decide (n < 10) then [digit_char n] else itoa_loop (S (Z.to_nat (Z.log2 n))) n [].

Definition QUOTE : ascii := "'".
Definition MARK : ascii := "?".
Definition SEMI : ascii := ";".

(** The loop of [rewritePlaceholders] with its [n] and [inString]. *)
Fixpoint rewrite_loop (query : list ascii) (n : Z) (inString : bool) : list ascii :=
  match query with
  | [] => []
  | ch :: rest =>
      if decide (ch = QUOTE ∧ inString = false) then ch :: rewrite_loop rest n true
      else if decide (ch = QUOTE ∧ inString = true) then
        match rest with
        | next :: rest' =>
            if decide (next = QUOTE) then ch :: ch :: rewrite_loop rest' n true
            else ch :: rewrite_loop rest n false
        | [] => ch :: rewrite_loop rest n false
        end
      else if decide (ch = MARK ∧ inString = false) then
        "$"%char :: itoa n ++ rewrite_loop rest (n + 1) inString
      else ch :: rewrite_loop rest n inString
  end.

Definition rewritePlaceholders (query : string) : string := text (rewrite_loop (bytes query) 1 false).

(** ** Statements *)

(** [splitStatements]. *)
Definition splitStatements (sql : string) : list string :=
  filter (λ p, p ≠ EmptyString) ((λ p, TrimSpace (text p)) <$> split_bytes SEMI (bytes sql)).

(** [postgresDB.Migrate] over what the driver makes of a statement. *)
Section migrate.
Context {W : Type} (ExecContext : string → W → option dberr * W).

Fixpoint migrate_loop (stmts : list string) (w : W) : option dberr * W :=
  match stmts with
  | [] => (None, w)
  | stmt :: stmts' =>
      match ExecContext stmt w with
      | (Some e, w) => (Some e, w)
      | (None, w) => migrate_loop stmts' w
      end
  end.
End migrate.

(** [postgresSchema]. *)
Definition postgresSchema : string := "
CREATE TABLE IF NOT EXISTS keys (
    key        TEXT   NOT NULL,
    db         INT    NOT NULL DEFAULT 0,
    type       TEXT   NOT NULL,
    expires_at BIGINT,
    PRIMARY KEY (key, db)
);

CREATE TABLE IF NOT EXISTS strings (
    key   TEXT NOT NULL,
    db    INT  NOT NULL DEFAULT 0,
    value TEXT NOT NULL,
    PRIMARY KEY (key, db),
    FOREIGN KEY (key, db) REFERENCES keys(key, db) ON DELETE CASCADE
);

CREATE TABLE IF NOT EXISTS lists (
    key   TEXT NOT NULL,
    db    INT  NOT NULL DEFAULT 0,
    idx   BIGINT NOT NULL,
    value TEXT NOT NULL,
    PRIMARY KEY (key, db, idx),
    FOREIGN KEY (key, db) REFERENCES keys(key, db) ON DELETE CASCADE
);

CREATE TABLE IF NOT EXISTS hashes (
    key   TEXT NOT NULL,
    db    INT  NOT NULL DEFAULT 0,
    field TEXT NOT NULL,
    value TEXT NOT NULL,
    PRIMARY KEY (key, db, field),
    FOREIGN KEY (key, db) REFERENCES keys(key, db) ON DELETE CASCADE
);

CREATE TABLE IF NOT EXISTS sets (
    key    TEXT NOT NULL,
    db     INT  NOT NULL DEFAULT 0,
    member TEXT NOT NULL,
    PRIMARY KEY (key, db, member),
    FOREIGN KEY (key, db) REFERENCES keys(key, db) ON DELETE CASCADE
);

CREATE TABLE IF NOT EXISTS zsets (
    key    TEXT             NOT NULL,
    db     INT              NOT NULL DEFAULT 0,
    member TEXT             NOT NULL,
    score  DOUBLE PRECISION NOT NULL,
    PRIMARY KEY (key, db, member),
    FOREIGN KEY (key, db) REFERENCES keys(key, db) ON DELETE CASCADE
);

CREATE INDEX IF NOT EXISTS zsets_score ON zsets(key, db, score);
".

Definition Migrate {W} (ExecContext : string → W → option dberr * W) (w : W) : option dberr * W :=
  migrate_loop ExecContext (splitStatements postgresSchema) w.

(** ** Placeholder rewriting *)

Lemma itoa_loop_digits fuel n acc : 0 < n → itoa_loop fuel n (bytes acc) = bytes (format_digits fuel n acc).
Proof.
  revert n acc. induction fuel as [|fuel IH]; intros n acc Hn; [done|]. cbn [itoa_loop format_digits].
  rewrite decide_True by done. rewrite Z.rem_mod_nonneg, Z.quot_div_nonneg by lia.
  change (digit_char (n mod 10) :: bytes acc) with (bytes (String (digit_char (n mod 10)) acc)).
  case_decide.
  - rewrite Z.div_small by lia. by destruct fuel.
  - apply IH. apply Z.div_str_pos. lia.
Qed.

(** [itoa] prints what [strconv.Itoa] would. *)
Lemma itoa_format n : 0 ≤ n → itoa n = bytes (format_int n).
Proof.
  intros Hn. unfold itoa, format_int, format_uint. rewrite (decide_False (P := n < 0)) by lia.
  case_decide.
  - cbn [format_digits]. by rewrite decide_True, Z.mod_small by lia.
  - apply (itoa_loop_digits _ _ EmptyString). lia.
Qed.

(** What stands between the quotes of a literal: a quote is written twice. *)
Inductive literal_body : list ascii → Prop :=
  | body_nil : literal_body []
  | body_char c s : c ≠ QUOTE → literal_body s → literal_body (c :: s)
  | body_quote s : literal_body s → literal_body (QUOTE :: QUOTE :: s).

(** SQL text without a placeholder, its literals closed. *)
Inductive fragment : list ascii → Prop :=
  | fragment_nil : fragment []
  | fragment_char c s : c ≠ QUOTE → c ≠ MARK → fragment s → fragment (c :: s)
  | fragment_literal body s :
      literal_body body → fragment s → head s ≠ Some QUOTE → fragment (QUOTE :: body ++ QUOTE :: s).

Lemma rewrite_literal body rest n :
  literal_body body → head rest ≠ Some QUOTE →
  rewrite_loop (body ++ QUOTE :: rest) n true = body ++ QUOTE :: rewrite_loop rest n false.
Proof.
  intros Hbody Hrest. induction Hbody as [|c s Hc Hs IH|s Hs IH]; cbn [app rewrite_loop].
  - rewrite decide_False by (by intros []). rewrite decide_True by done.
    destruct rest as [|next rest]; [done|]. rewrite decide_False; [done|]. intros ->. by simpl in Hrest.
  - rewrite !decide_False by (by intros [? ?]). by rewrite IH.
  - rewrite decide_False by (by intros []). rewrite !decide_True by done. by rewrite IH.
Qed.

Lemma rewrite_fragment p rest n :
  fragment p → head rest ≠ Some QUOTE →
  rewrite_loop (p ++ rest) n false = p ++ rewrite_loop rest n false.
Proof.
  intros Hp Hrest. induction Hp as [|c s Hq Hm Hs IH|body s Hbody Hs IH Hhead]; [done|..].
  - cbn [app rewrite_loop]. rewrite !decide_False by (by intros [? ?]). by rewrite IH.
  - cbn [app]. rewrite <- app_assoc. cbn [app rewrite_loop]. rewrite decide_True by done.
    rewrite rewrite_literal, IH; [by rewrite <- app_assoc|done|]. by destruct s.
Qed.

(** The fragments of a query around its placeholders. *)
Definition with_marks (first : list ascii) (ps : list (list ascii)) : list ascii :=
  first ++ concat ((λ p, MARK :: p) <$> ps).
Definition with_numbers (first : list ascii) (ps : list (list ascii)) : list ascii :=
  first ++ concat (imap (λ i p, "$"%char :: bytes (format_int (Z.of_nat (S i))) ++ p) ps).

Lemma rewrite_marks ps n k :
  Forall fragment ps → n = Z.of_nat (S k) →
  rewrite_loop (concat ((λ p, MARK :: p) <$> ps)) n false =
    concat (imap (λ i p, "$"%char :: bytes (format_int (Z.of_nat (S (k + i)))) ++ p) ps).
Proof.
  intros Hps. revert n k. induction Hps as [|p ps Hp Hps IH]; intros n k ->; [done|].
  rewrite fmap_cons, imap_cons. cbn [concat app rewrite_loop].
  rewrite !decide_False by (by intros []). rewrite decide_True by done.
  rewrite rewrite_fragment by (done || by destruct ps). rewrite itoa_format by lia.
  rewrite (IH _ (S k)) by lia. rewrite Nat.add_0_r, <- app_assoc. do 3 f_equal. f_equal.
  apply imap_ext. intros i p' _. simpl. by rewrite Nat.add_succ_r.
Qed.

(** C29: The i-th [?] of a query becomes [$i]; text and literals, quotes and
    question marks within them included, are as they were. *)
Theorem rewritePlaceholders_correct first ps :
  Forall fragment (first :: ps) →
  rewritePlaceholders (text (with_marks first ps)) = text (with_numbers first ps).
Proof.
  intros [Hfirst Hps]%list.Forall_cons. unfold rewritePlaceholders, with_marks, with_numbers.
  rewrite bytes_text, rewrite_fragment by (done || by destruct ps). by rewrite (rewrite_marks _ _ 0).
Qed.

(** ** Splitting and migrating *)

(** A statement as it would be written by itself. *)
Definition statement (s : string) : Prop := s ≠ EmptyString ∧ SEMI ∉ bytes s ∧ trimmed (bytes s).

#[export] Instance statement_dec s : Decision (statement s).
Proof. unfold statement. apply _. Defined.

Theorem splitStatements_correct stmts :
  Forall statement stmts →
  splitStatements (text (concat ((λ s, bytes s ++ [SEMI]) <$> stmts))) = stmts.
Proof.
  unfold splitStatements. rewrite bytes_text. induction 1 as [|s stmts (Hne & Hsemi & Htrim) Hstmts IH]; [done|].
  rewrite fmap_cons. cbn [concat]. rewrite <- app_assoc. cbn [app].
  rewrite split_bytes_cons by done. rewrite fmap_cons, filter_cons, text_bytes, TrimSpace_trimmed by done.
  rewrite decide_True by done. f_equal. exact IH.
Qed.

Section migration.
Context {W : Type} (ExecContext : string → W → option dberr * W).

(** Every statement runs without an error, in order. *)
Inductive runs_all : list string → W → W → Prop :=
  | runs_nil w : runs_all [] w w
  | runs_cons s ss w w' w'' :
      ExecContext s w = (None, w') → runs_all ss w' w'' → runs_all (s :: ss) w w''.

Lemma migrate_loop_correct stmts w :
  match migrate_loop ExecContext stmts w with
  | (None, w') => runs_all stmts w w'
  | (Some e, w') => ∃ before s after w1,
      stmts = before ++ s :: after ∧ runs_all before w w1 ∧ ExecContext s w1 = (Some e, w')
  end.
Proof.
  revert w. induction stmts as [|s stmts IH]; intros w; simpl; [constructor|].
  destruct (ExecContext s w) as [[e|] w1] eqn:Hs.
  - exists [], s, stmts, w. by repeat constructor.
  - specialize (IH w1). destruct (migrate_loop _ _ _) as [[e|] w'].
    + destruct IH as (before & s' & after & w2 & -> & Hb & He). exists (s :: before), s', after, w2.
      split; [done|]. split; [by econstructor|done].
    + by econstructor.
Qed.

(** The migration runs the statements of the schema one by one, as the driver
    takes one at a time, until the first error. *)
Theorem Migrate_correct w :
  match Migrate ExecContext w with
  | (None, w') => runs_all (splitStatements postgresSchema) w w'
  | (Some e, w') => ∃ before s after w1,
      splitStatements postgresSchema = before ++ s :: after ∧ runs_all before w w1 ∧
      ExecContext s w1 = (Some e, w')
  end.
Proof. apply migrate_loop_correct. Qed.
End migration.

(** The schema: seven statements, one per table and an index, each creating
    what is not there. *)
Theorem schema_statements :
  length (splitStatements postgresSchema) = 7%nat ∧
  Forall statement (splitStatements postgresSchema) ∧
  Forall (λ s, is_Some (cut_prefix (bytes "CREATE TABLE IF NOT EXISTS ") (bytes s)) ∨
    is_Some (cut_prefix (bytes "CREATE INDEX IF NOT EXISTS ") (bytes s))) (splitStatements postgresSchema).
Proof. apply (bool_decide_unpack _). by vm_compute. Qed.

(** ** Witnesses *)

Lemma rewritePlaceholders_correct_witness :
  let first := bytes "DELETE FROM keys WHERE type='what?' AND key=" in
  let ps := [bytes " AND db="; []] in
  text (with_numbers first ps) = "DELETE FROM keys WHERE type='what?' AND key=$1 AND db=$2" ∧
  rewritePlaceholders (text (with_marks first ps)) = text (with_numbers first ps).
Proof. split; [by vm_compute|]. apply rewritePlaceholders_correct.
  assert (∀ p s : list ascii, Forall (λ c, c ≠ QUOTE ∧ c ≠ MARK) p → fragment s → fragment (p ++ s)) as Hplain.
  { intros p s Hp Hs. induction Hp as [|c p [? ?] Hp IH]; [done|]. by constructor. }
  apply list.Forall_cons; split.
  - change (fragment (bytes "DELETE FROM keys WHERE type=" ++ QUOTE :: bytes "what?" ++ QUOTE :: bytes " AND key=")).
    apply Hplain; [apply (bool_decide_unpack _); by vm_compute|].
    apply fragment_literal; [repeat (constructor; [done|]); constructor| |done].
    rewrite <- (app_nil_r (bytes " AND key=")). apply Hplain; [apply (bool_decide_unpack _); by vm_compute|constructor].
  - apply list.Forall_cons; split; [|apply list.Forall_cons; split; [constructor|by apply list.Forall_nil]].
    rewrite <- (app_nil_r (bytes " AND db=")). apply Hplain; [apply (bool_decide_unpack _); by vm_compute|constructor]. Defined.

Lemma splitStatements_correct_witness :
  splitStatements (text (concat ((λ s, bytes s ++ [SEMI]) <$> ["CREATE TABLE a"; "DROP TABLE b"]))) =
    ["CREATE TABLE a"; "DROP TABLE b"].
Proof. apply splitStatements_correct. apply (bool_decide_unpack _). by vm_compute. Defined.
