(* ===== verification/Config.v ===== *)
(** The configuration ([src/internal/config/config.go]) and what [main] makes
    of it ([src/cmd/sql-resp/main.go], the DSN of [src/internal/db/sqlite.go]).
    Files, the environment and the flag package are parameters. *)
From S2P Require Import Prelude GoStd Float GoText.
Local Open Scope Z_scope.

(** ** Config *)

Record Config := mkConfig {
  Port : Z;
  Password : string;
  TLSCert : string;
  TLSKey : string;
  Databases : Z;
  Hz : Z;
  InMemory : bool;
  Backend : string;
  DSN : string;
}.

Definition Default : Config := mkConfig 6379 "" "" "" 16 100 false "sqlite" "sql-resp.db".

Definition with_Port n c := mkConfig n (Password c) (TLSCert c) (TLSKey c) (Databases c) (Hz c) (InMemory c) (Backend c) (DSN c).
Definition with_Password s c := mkConfig (Port c) s (TLSCert c) (TLSKey c) (Databases c) (Hz c) (InMemory c) (Backend c) (DSN c).
Definition with_TLSCert s c := mkConfig (Port c) (Password c) s (TLSKey c) (Databases c) (Hz c) (InMemory c) (Backend c) (DSN c).
Definition with_TLSKey s c := mkConfig (Port c) (Password c) (TLSCert c) s (Databases c) (Hz c) (InMemory c) (Backend c) (DSN c).
Definition with_Databases n c := mkConfig (Port c) (Password c) (TLSCert c) (TLSKey c) n (Hz c) (InMemory c) (Backend c) (DSN c).
Definition with_Hz n c := mkConfig (Port c) (Password c) (TLSCert c) (TLSKey c) (Databases c) n (InMemory c) (Backend c) (DSN c).
Definition with_InMemory b c := mkConfig (Port c) (Password c) (TLSCert c) (TLSKey c) (Databases c) (Hz c) b (Backend c) (DSN c).
Definition with_Backend s c := mkConfig (Port c) (Password c) (TLSCert c) (TLSKey c) (Databases c) (Hz c) (InMemory c) s (DSN c).
Definition with_DSN s c := mkConfig (Port c) (Password c) (TLSCert c) (TLSKey c) (Databases c) (Hz c) (InMemory c) (Backend c) s.

(** A configuration, or the text of the error. *)
Abbreviation loaded := (string + Config)%type.

Section config.
Context `{Unicode}.

(** [""] as it stands in a file: two double quotes. *)
Definition two_quotes : string := quote_mark +:+ quote_mark.

(** [c.set(key, val)]. *)
Definition set (key val : string) (c : Config) : loaded :=
  if decide (key = "port") then
    match parse_int val with
    | None => inl ("invalid port " +:+ Quote val)
    | Some n => inr (with_Port n c)
    end
  else if decide (key = "requirepass") then inr (with_Password val c)
  else if decide (key = "tls-cert-file") then inr (with_TLSCert val c)
  else if decide (key = "tls-key-file") then inr (with_TLSKey val c)
  else if decide (key = "databases") then
    match parse_int val with
    | None => inl ("invalid databases " +:+ Quote val)
    | Some n => inr (with_Databases n c)
    end
  else if decide (key = "hz") then
    match parse_int val with
    | None => inl ("invalid hz " +:+ Quote val)
    | Some n => inr (with_Hz n c)
    end
  else if decide (key = "save") then inr (with_InMemory (bool_decide (val = "" ∨ val = two_quotes)) c)
  else if decide (key = "no-persist") then inr (with_InMemory true c)
  else if decide (key = "backend") then
    if decide (val ≠ "sqlite" ∧ val ≠ "postgres")
    then inl ("unknown backend " +:+ Quote val +:+ " (want sqlite or postgres)")
    else inr (with_Backend val c)
  else if decide (key = "dsn") then inr (with_DSN val c)
  else inr c.

Definition SPACE : ascii := " ".

(** A line of the file, trimmed: nothing, or the directive and its value. *)
Definition parse_line (line : string) : option (string * string) :=
  if decide (line = "" ∨ is_Some (cut_prefix (bytes "#") (bytes line))) then None
  else
    let '(key, val) := cut SPACE (bytes line) in
    Some (ToLower (text key), match val with Some v => TrimSpace (text v) | None => EmptyString end).

(** The loop of [loadFile] over the scanned lines. *)
Fixpoint load_lines (lines : list string) (c : Config) : loaded :=
  match lines with
  | [] => inr c
  | raw :: lines' =>
      let line := TrimSpace raw in
      match parse_line line with
      | None => load_lines lines' c
      | Some (key, val) =>
          match set key val c with
          | inl e => inl ("config " +:+ Quote line +:+ ": " +:+ e)
          | inr c => load_lines lines' c
          end
      end
  end.

(** [c.loadFile(path)], [content] being what [os.Open] and reading give. *)
Definition loadFile (content : string + string) (c : Config) : loaded :=
  match content with
  | inl e => inl e
  | inr s =>
      let '(lines, too_long) := ScanLines s in
      match load_lines lines c with
      | inl e => inl e
      | inr c => if too_long : bool then inl "bufio.Scanner: token too long" else inr c
      end
  end.

(** The flag loop, in the order Go visits the map. *)
Fixpoint set_flags (flags : list (string * string)) (c : Config) : loaded :=
  match flags with
  | [] => inr c
  | (k, v) :: flags' =>
      match set k v c with
      | inl e => inl ("flag --" +:+ k +:+ ": " +:+ e)
      | inr c => set_flags flags' c
      end
  end.

(** [os.Getenv] overrides. *)
Definition env_overrides (Getenv : string → string) (c : Config) : Config :=
  let c := if decide (Getenv "SQL_RESP_PASSWORD" = "") then c
           else with_Password (Getenv "SQL_RESP_PASSWORD") c in
  if decide (Getenv "SQL_RESP_DSN" = "") then c else with_DSN (Getenv "SQL_RESP_DSN") c.

(** [Load]; [open] is the file system, [flags] the map in the order it is
    visited. *)
Definition Load (open : string → string + string) (Getenv : string → string)
    (filePath : string) (flags : list (string * string)) : loaded :=
  match (if decide (filePath = "") then inr Default else loadFile (open filePath) Default) with
  | inl e => inl e
  | inr c => set_flags flags (env_overrides Getenv c)
  end.

(** ** main *)

(** The map of flags given on the command line. *)
Definition main_flags (port : string) (noPersist : bool) : gmap string string :=
  let flags := if decide (port = "") then ∅ else <["port" := port]> (∅ : gmap string string) in
  if noPersist then <["no-persist" := ""]> flags else flags.

Definition main_dsn (c : Config) : string := if InMemory c then ":memory:" else DSN c.

(** The data source name [OpenSQLite] opens. *)
Definition sqlite_dsn (dsn : string) : string :=
  if decide (dsn = ":memory:") then dsn +:+ "?_pragma=foreign_keys(ON)"
  else dsn +:+ "?_pragma=journal_mode(WAL)&_pragma=foreign_keys(ON)".

(** [time.NewTicker] panics on an interval that is not positive. *)
Definition sweepInterval (c : Config) : Z := wrap64 (Hz c * 1000000).
Definition ticker_panics (c : Config) : bool := bool_decide (sweepInterval c ≤ 0).

(** ** Directives *)

(** The directives of a file's lines. *)
Definition directives (lines : list string) : list (string * string) :=
  omap (λ raw, parse_line (TrimSpace raw)) lines.

(** Setting them in turn. *)
Fixpoint set_all (ds : list (string * string)) (c : Config) : option Config :=
  match ds with
  | [] => Some c
  | (k, v) :: ds' => match set k v c with inl _ => None | inr c => set_all ds' c end
  end.

(** The configuration of a result. *)
Definition config_of (r : loaded) : option Config := match r with inl _ => None | inr c => Some c end.

Lemma load_lines_set_all lines c : config_of (load_lines lines c) = set_all (directives lines) c.
Proof.
  revert c. induction lines as [|raw lines IH]; intros c; [done|]. cbn [load_lines]. cbv zeta.
  unfold directives. cbn [omap list_omap]. destruct (parse_line (TrimSpace raw)) as [[k v]|]; [|apply IH].
  cbn [set_all]. destruct (set k v c); [done|apply IH].
Qed.

Lemma set_flags_set_all flags c : config_of (set_flags flags c) = set_all flags c.
Proof.
  revert c. induction flags as [|[k v] flags IH]; intros c; [done|]. cbn [set_flags set_all].
  destruct (set k v c); [done|apply IH].
Qed.

Lemma set_all_app ds ds' c : set_all (ds ++ ds') c = set_all ds c ≫= set_all ds'.
Proof.
  revert c. induction ds as [|[k v] ds IH]; intros c; [done|]. cbn [app set_all].
  destruct (set k v c); [done|apply IH].
Qed.

(** The environment's directives. *)
Definition env_directives (Getenv : string → string) : list (string * string) :=
  filter (λ d, d.2 ≠ "") [("requirepass", Getenv "SQL_RESP_PASSWORD"); ("dsn", Getenv "SQL_RESP_DSN")].

Lemma env_set_all Getenv c : set_all (env_directives Getenv) c = Some (env_overrides Getenv c).
Proof.
  unfold env_directives, env_overrides. rewrite !filter_cons, filter_nil. cbn [snd].
  repeat case_decide; try done; tauto.
Qed.

(** What a file holds, when it can be read and no line is too long. *)
Definition file_directives (content : string + string) : option (list (string * string)) :=
  match content with
  | inl _ => None
  | inr s => if (ScanLines s).2 then None else Some (directives (ScanLines s).1)
  end.

(** All directives of a run, the later ones last. *)
Definition all_directives open Getenv filePath flags : option (list (string * string)) :=
  file ← (if decide (filePath = "") then Some [] else file_directives (open filePath));
  Some (file ++ env_directives Getenv ++ flags).

Lemma loadFile_set_all content c :
  config_of (loadFile content c) = (ds ← file_directives content; set_all ds c).
Proof.
  destruct content as [e|s]; [done|]. simpl. destruct (ScanLines s) as [lines too_long]. simpl.
  pose proof (load_lines_set_all lines c) as Hl. destruct (load_lines lines c); simpl in *.
  - destruct too_long; [done|]. simpl. by rewrite <- Hl.
  - destruct too_long; [done|]. simpl. by rewrite <- Hl.
Qed.

(** [Load] sets the directives of the file, of the environment and of the
    flags, in this order, from the defaults. *)
Lemma Load_set_all open Getenv filePath flags :
  config_of (Load open Getenv filePath flags) =
    (ds ← all_directives open Getenv filePath flags; set_all ds Default).
Proof.
  unfold Load, all_directives.
  assert (∀ ds c, config_of (match set_all ds c with Some c => set_flags flags (env_overrides Getenv c) | None => inl "" end)
    = set_all (ds ++ env_directives Getenv ++ flags) c) as Hafter.
  { intros ds c. rewrite !set_all_app. destruct (set_all ds c) as [c'|]; [|done]. simpl.
    rewrite set_all_app, env_set_all, set_flags_set_all. done. }
  case_decide.
  - apply (Hafter [] Default).
  - pose proof (loadFile_set_all (open filePath) Default) as Hfile.
    destruct (file_directives (open filePath)) as [ds|]; simpl in *.
    + rewrite <- Hafter, <- Hfile. by destruct (loadFile _ _).
    + by destruct (loadFile _ _).
Qed.

(** ** The last directive wins *)

(** The field that the keys [K] set: the value of the last such directive. *)
Definition last_of {T} (K : string * string → Prop) `{!∀ d, Decision (K d)} (val : string * string → T)
    (default : T) (ds : list (string * string)) : T :=
  from_option val default (list.last (filter K ds)).

Lemma set_all_field {T} (field : Config → T) K `{!∀ d, Decision (K d)} val ds c c' :
  (∀ d c c', set d.1 d.2 c = inr c' → field c' = if decide (K d) then val d else field c) →
  set_all ds c = Some c' → field c' = last_of K val (field c) ds.
Proof.
  intros Hset. unfold last_of. revert c'. induction ds as [|[k v] ds IH] using rev_ind; intros c'.
  { by intros [= ->]. }
  rewrite set_all_app. intros (c1 & H1 & H2)%bind_Some. cbn [set_all] in H2.
  destruct (set k v c1) as [|c2] eqn:Hs; [done|]. simplify_eq. rewrite (Hset (k, v) _ _ Hs).
  rewrite list.filter_app, filter_cons, filter_nil. case_decide; [by rewrite last_snoc|].
  rewrite app_nil_r. by apply IH.
Qed.

Definition number (d : string * string) : Z := default 0 (parse_int d.2).

(** [save] and [no-persist] set the same field. *)
Definition persistence (k : string) : Prop := k = "save" ∨ k = "no-persist".

#[export] Instance persistence_dec k : Decision (persistence k).
Proof. unfold persistence. apply _. Defined.

Definition in_memory (d : string * string) : bool :=
  bool_decide (d.1 = "no-persist" ∨ d.2 = "" ∨ d.2 = two_quotes).

(** The configuration the directives describe. *)
Definition described (ds : list (string * string)) : Config :=
  mkConfig
    (last_of (λ d, d.1 = "port") number 6379 ds)
    (last_of (λ d, d.1 = "requirepass") snd "" ds)
    (last_of (λ d, d.1 = "tls-cert-file") snd "" ds)
    (last_of (λ d, d.1 = "tls-key-file") snd "" ds)
    (last_of (λ d, d.1 = "databases") number 16 ds)
    (last_of (λ d, d.1 = "hz") number 100 ds)
    (last_of (λ d, persistence d.1) in_memory false ds)
    (last_of (λ d, d.1 = "backend") snd "sqlite" ds)
    (last_of (λ d, d.1 = "dsn") snd "sql-resp.db" ds).

(** A directive [set] takes. *)
Definition valid (d : string * string) : Prop :=
  (d.1 = "port" ∨ d.1 = "databases" ∨ d.1 = "hz" → is_Some (parse_int d.2)) ∧
  (d.1 = "backend" → d.2 = "sqlite" ∨ d.2 = "postgres").

Definition numeric (k : string) : Prop := k = "port" ∨ k = "databases" ∨ k = "hz".

Lemma valid_numeric k v : numeric k → valid (k, v) ↔ is_Some (parse_int v).
Proof. unfold numeric. intros [->|[->| ->]]; (split; [intros [Hv _]; apply Hv; simpl; tauto|by split]). Qed.

Lemma valid_backend v : valid ("backend", v) ↔ v = "sqlite" ∨ v = "postgres".
Proof. split; [intros [_ Hv]; by apply Hv|]. intros Hv. split; [|done]. intros [?|[?|?]]; done. Qed.

Lemma valid_other k v : ¬ numeric k → k ≠ "backend" → valid (k, v).
Proof. intros Hn Hb. by split. Qed.

Lemma numeric_valid (o : option Z) (f : Z → Config) e :
  is_Some (config_of (match o with None => inl e | Some n => inr (f n) end)) ↔ is_Some o.
Proof. destruct o; simpl; split; try (by intros [? ?]); intros _; by eexists. Qed.

(** [set] fails exactly on a value its directive cannot take. *)
Lemma set_valid k v c : is_Some (config_of (set k v c)) ↔ valid (k, v).
Proof.
  unfold set.
  case_decide; [subst; rewrite numeric_valid, valid_numeric; [done|by left]|].
  repeat (case_decide; [subst; split; [intros _; by apply valid_other; [intros [?|[?|?]]|]|by eexists]|]).
  case_decide; [subst; rewrite numeric_valid, valid_numeric; [done|right; by left]|].
  case_decide; [subst; rewrite numeric_valid, valid_numeric; [done|by right; right]|].
  repeat (case_decide; [subst; split; [intros _; by apply valid_other; [intros [?|[?|?]]|]|by eexists]|]).
  case_decide; [subst; rewrite valid_backend|].
  - case_decide as Hb; split; [by intros [? ?]|tauto| |by eexists].
    intros _. destruct (decide (v = "sqlite")); [by left|]. destruct (decide (v = "postgres")); tauto.
  - case_decide; (split; [intros _|by eexists]); apply valid_other; try done; by intros [?|[?|?]].
Qed.

Lemma set_all_valid ds c : is_Some (set_all ds c) ↔ Forall valid ds.
Proof.
  revert c. induction ds as [|[k v] ds IH]; intros c; [split; [by constructor|by eexists]|].
  rewrite list.Forall_cons, <- (set_valid k v c). cbn [set_all]. destruct (set k v c) as [e|c']; simpl.
  - split; [by intros [? ?]|by intros [[? ?] _]].
  - rewrite IH. split; [|tauto]. intros. split; [by eexists|done].
Qed.

Lemma set_InMemory k v c c' :
  set k v c = inr c' → InMemory c' = if decide (persistence k) then in_memory (k, v) else InMemory c.
Proof.
  unfold in_memory; cbn [fst snd]. destruct (decide (k = "save")) as [->|Hs].
  { intros [= <-]. rewrite decide_True by by left. simpl. apply bool_decide_ext. naive_solver. }
  destruct (decide (k = "no-persist")) as [->|Hn].
  { intros [= <-]. by rewrite decide_True by by right. }
  rewrite (decide_False (P := persistence k)) by by intros [?|?].
  unfold set. repeat (case_decide; [try subst; try (destruct (parse_int v); simpl; [|done]);
    try (intros [= <-]; reflexivity)|]); done || by intros [= <-].
Qed.

(** Each field by the keys that set it. *)
Lemma set_all_described ds c : set_all ds Default = Some c → c = described ds.
Proof.
  intros Hc. unfold described.
  transitivity (mkConfig (Port c) (Password c) (TLSCert c) (TLSKey c) (Databases c) (Hz c) (InMemory c)
    (Backend c) (DSN c)); [by destruct c|].
  f_equal;
    [ refine (set_all_field Port _ _ ds Default c _ Hc)
    | refine (set_all_field Password _ _ ds Default c _ Hc)
    | refine (set_all_field TLSCert _ _ ds Default c _ Hc)
    | refine (set_all_field TLSKey _ _ ds Default c _ Hc)
    | refine (set_all_field Databases _ _ ds Default c _ Hc)
    | refine (set_all_field Hz _ _ ds Default c _ Hc)
    | refine (set_all_field InMemory _ _ ds Default c (λ d, set_InMemory d.1 d.2) Hc)
    | refine (set_all_field Backend _ _ ds Default c _ Hc)
    | refine (set_all_field DSN _ _ ds Default c _ Hc) ];
    clear; intros [k v] c c'; cbn [fst snd]; unfold number; cbn [snd]; intros Hs; revert Hs; unfold set.
  all: repeat (case_decide; [try subst; try discriminate; try (destruct (parse_int v); simpl; [|done]); try (intros [= <-]; reflexivity)|]).
  all: intros [= <-]; reflexivity.
Qed.

(** ** Loading *)

(** C28: The configuration loaded is the one the directives describe: for every
    setting the last directive that names it, the flags after the environment
    after the file, and the default when there is none. [Load] fails exactly
    on a file it cannot read or a value a directive cannot take. *)
Theorem Load_correct open Getenv filePath flags :
  config_of (Load open Getenv filePath flags) =
    (ds ← all_directives open Getenv filePath flags;
     if decide (Forall valid ds) then Some (described ds) else None).
Proof.
  rewrite Load_set_all. destruct (all_directives _ _ _ _) as [ds|]; [|done]. simpl.
  pose proof (set_all_valid ds Default) as Hv. pose proof (set_all_described ds) as Hd.
  destruct (set_all ds Default) as [c|]; case_decide as Hf.
  - f_equal. by apply Hd.
  - destruct Hf. apply Hv. by eexists.
  - apply Hv in Hf as [? ?]. done.
  - done.
Qed.

Lemma set_flags_swap port c :
  set_flags [("port", port); ("no-persist", "")] c = set_flags [("no-persist", ""); ("port", port)] c.
Proof. cbn [set_flags]. unfold set. simpl. by destruct (parse_int port). Qed.

Lemma set_flags_two port flags c :
  flags ≡ₚ [("no-persist", ""); ("port", port)] →
  set_flags flags c = set_flags [("no-persist", ""); ("port", port)] c.
Proof. intros [->| ->]%symmetry%Permutation_length_2_inv; [done|apply set_flags_swap]. Qed.

(** Go visits the map of flags in any order; for the flags [main] knows it
    makes no difference. *)
Theorem main_flags_order open Getenv filePath port noPersist flags :
  flags ≡ₚ map_to_list (main_flags port noPersist) →
  Load open Getenv filePath flags = Load open Getenv filePath (map_to_list (main_flags port noPersist)).
Proof.
  intros Hp. unfold Load. destruct (if decide (filePath = "") then _ else _) as [e|c]; [done|].
  generalize (env_overrides Getenv c) as c'. clear c. intros c'.
  unfold main_flags in *. destruct noPersist, (decide (port = "")) as [->|Hport].
  - rewrite insert_empty, map_to_list_singleton in *. by apply Permutation_singleton_r in Hp as ->.
  - assert (map_to_list (<["no-persist" := ""]> (<["port" := port]> (∅ : gmap string string)))
      ≡ₚ [("no-persist", ""); ("port", port)]) as Hm.
    { rewrite map_to_list_insert by done. by rewrite insert_empty, map_to_list_singleton. }
    rewrite (set_flags_two port flags), (set_flags_two port (map_to_list _)); [done|done|by rewrite Hp].
  - rewrite map_to_list_empty in *. by apply Permutation_nil_r in Hp as ->.
  - rewrite insert_empty, map_to_list_singleton in *. by apply Permutation_singleton_r in Hp as ->.
Qed.

(** ** Writing a configuration file *)

Definition line_of (d : string * string) : list ascii := bytes d.1 ++ SPACE :: bytes d.2.
Definition render (ds : list (string * string)) : string :=
  text (concat ((λ d, line_of d ++ [LF]) <$> ds)).

(** A directive that a line can hold as it is. *)
Definition clean (d : string * string) : Prop :=
  (LF ∉ line_of d ∧ trimmed (line_of d) ∧ Z.of_nat (length (line_of d)) < MaxScanTokenSize) ∧
  (d.1 ≠ "" ∧ SPACE ∉ bytes d.1 ∧ cut_prefix (bytes "#") (bytes d.1) = None ∧ ToLower d.1 = d.1) ∧
  trimmed (bytes d.2).

#[export] Instance clean_dec d : Decision (clean d).
Proof. unfold clean. apply _. Defined.

Lemma trimmed_no_cr line : trimmed line → drop_cr line = line.
Proof.
  intros [_ Hr]. unfold drop_cr. destruct (reverse line) as [|c rev]; [done|]. case_decide as Hc; [|done].
  subst c. apply cut_space_None in Hr. rewrite list.Forall_forall in Hr.
  assert ([CR] ∈ reverse <$> spaces) as Hin by (apply (bool_decide_unpack _); by vm_compute).
  by specialize (Hr _ Hin).
Qed.

Lemma scan_rendered ds :
  Forall clean ds → ScanLines (render ds) = ((λ d, text (line_of d)) <$> ds, false).
Proof.
  unfold ScanLines, render. rewrite bytes_text.
  induction 1 as [|d ds ((Hlf & Htrim & Hlen) & _) Hds IH]; [done|].
  rewrite fmap_cons. cbn [concat]. rewrite <- app_assoc. cbn [app]. rewrite split_bytes_cons by done.
  cbn [scan_parts]. destruct (line_of d) as [|c l] eqn:Hline.
  { unfold line_of in Hline. by destruct (bytes d.1). }
  rewrite decide_False by lia. rewrite IH, trimmed_no_cr by done. by rewrite fmap_cons, Hline.
Qed.

Lemma parse_rendered d : clean d → parse_line (TrimSpace (text (line_of d))) = Some d.
Proof.
  intros ((_ & Htrim & _) & (Hne & Hsp & Hhash & Hlow) & Hval).
  rewrite TrimSpace_trimmed by by rewrite bytes_text. unfold parse_line. rewrite bytes_text.
  rewrite decide_False.
  - unfold line_of. rewrite cut_first by done. rewrite !text_bytes, TrimSpace_trimmed, Hlow by done.
    by destruct d.
  - unfold line_of. destruct (bytes d.1) as [|c l] eqn:Hb.
    { destruct Hne. by rewrite <- (text_bytes d.1), Hb. }
    intros [Hnil|Hpre]; [discriminate Hnil|]. revert Hhash Hpre. simpl.
    case_decide; [done|]. intros _. by intros [? ?].
Qed.

(** A configuration file written from directives loads to what they describe. *)
Theorem render_loads ds open Getenv filePath flags :
  Forall clean ds → filePath ≠ "" → open filePath = inr (render ds) →
  all_directives open Getenv filePath flags = Some (ds ++ env_directives Getenv ++ flags).
Proof.
  intros Hclean Hpath Hopen. unfold all_directives. rewrite decide_False, Hopen by done. simpl.
  rewrite scan_rendered by done. simpl. f_equal. f_equal. unfold directives. clear Hopen.
  induction Hclean as [|d ds Hd Hds IH]; [done|]. rewrite fmap_cons. cbn [omap list_omap].
  rewrite parse_rendered by done. by f_equal.
Qed.

(** ** The sweep's ticker *)

(** [hz 0] is a configuration like any other to [Load], and a panic to [main]. *)
Theorem hz_zero_panics Getenv :
  match Load (λ _, inr "hz 0") Getenv "sql-resp.conf" [] with
  | inl _ => False
  | inr c => Hz c = 0 ∧ ticker_panics c = true
  end.
Proof.
  unfold Load. rewrite decide_False by done.
  assert (loadFile (inr "hz 0") Default = inr (with_Hz 0 Default)) as -> by by vm_compute.
  cbn [set_flags]. unfold env_overrides. repeat case_decide; by split.
Qed.
End config.

(** ** Witnesses *)

#[local] Existing Instance ascii_only.

Lemma render_loads_witness :
  let ds := [("port", "7000"); ("requirepass", "s3cret pw")] in
  let open : string → string + string := λ _, inr (render ds) in
  Load open (λ _, "") "f" [] = inr (with_Password "s3cret pw" (with_Port 7000 Default)) ∧
  all_directives open (λ _, "") "f" [] = Some (ds ++ env_directives (λ _, "") ++ []).
Proof. intros ds open. split; [by vm_compute|]. apply (render_loads ds); [|done|done].
  apply (bool_decide_unpack _). by vm_compute. Defined.

Lemma main_flags_order_witness :
  let open : string → string + string := λ _, inl "no such file" in
  Load open (λ _, "") "" [("port", "7000"); ("no-persist", "")] =
  Load open (λ _, "") "" (map_to_list (main_flags "7000" true)).
Proof. intros open. apply main_flags_order. unfold main_flags. rewrite decide_False by done.
  rewrite map_to_list_insert by done. rewrite insert_empty, map_to_list_singleton. apply Permutation_swap. Defined.
