(* ===== verification/Host.v ===== *)
(** The process and what it calls of the operating system and of
    [database/sql]: a goroutine is a program of calls, the host a relation that
    says what each call may answer. *)
From S2P Require Import Prelude GoStd.
Local Open Scope Z_scope.

(** The types of [database/sql] the drivers hand through. *)
Class SqlTypes := { Arg : Type; Result : Type; Rows : Type; Row : Type }.

(** The functions [main] starts with [go]; a connection is known by its number. *)
Inductive goroutine := Sweeper | SignalHandler | Handler (conn : nat).

#[export] Instance goroutine_eq_dec : EqDecision goroutine.
Proof. solve_decision. Defined.

Section calls.
Context `{SqlTypes}.

(** A call and its answer; an error is its text, a [sql.DB] or [sql.Tx] its
    address. *)
Inductive call : Type → Type :=
  | Printf (line : string) : call unit
  (** [os.Exit]. *)
  | Exit (code : Z) : call Empty_set
  (** [go f()]. *)
  | Go (g : goroutine) : call unit
  (** [time.NewTicker]. *)
  | NewTicker (interval : Z) : call unit
  (** [signal.Notify(sigCh, SIGINT, SIGTERM)] and the receive from [sigCh]. *)
  | Notify : call unit
  | Receive : call unit
  (** [sql.Open] and the methods of [sql.DB] and [sql.Tx]. *)
  | SqlOpen (driver dsn : string) : call (string + nat)
  | SqlPing (db : nat) : call (option string)
  | SqlClose (db : nat) : call (option string)
  | SqlExec (db : nat) (query : string) (args : list Arg) : call (string + Result)
  | SqlQuery (db : nat) (query : string) (args : list Arg) : call (string + Rows)
  | SqlQueryRow (db : nat) (query : string) (args : list Arg) : call Row
  | SqlBeginTx (db : nat) : call (string + nat)
  | TxExec (tx : nat) (query : string) (args : list Arg) : call (string + Result)
  | TxQuery (tx : nat) (query : string) (args : list Arg) : call (string + Rows)
  | TxQueryRow (tx : nat) (query : string) (args : list Arg) : call Row
  | TxCommit (tx : nat) : call (option string)
  | TxRollback (tx : nat) : call (option string)
  (** [net.Listen] on TCP, [tls.NewListener], and the methods of the listener. *)
  | Listen (addr : string) : call (option string)
  | NewTLSListener (config : nat) : call unit
  | Accept : call (string + nat)
  | ListenerAddr : call string
  | CloseListener : call (option string)
  (** The field [listener] of the server: assigned, and compared with [nil]. *)
  | SetListener : call unit
  | HasListener : call bool.

Inductive act (A : Type) : Type :=
  | Done (a : A)
  | Call {X} (e : call X) (k : X → act A).
Arguments Done {A}. Arguments Call {A X}.

Fixpoint act_bind {A B} (p : act A) (f : A → act B) : act B :=
  match p with Done a => f a | Call e k => Call e (λ x, act_bind (k x) f) end.

Definition perform {X} (e : call X) : act X := Call e Done.

(** [log.Fatalf]: prints, and exits. *)
Definition Fatalf {A} (line : string) : act A :=
  Call (Printf line) (λ _, Call (Exit 1) (λ x, match x with end)).

(** ** The host *)

Inductive socket := Unbound | Bound (addr : string) | Closed.

(** The open databases with the statements run on each, the listener and the
    field that holds it, whether the signals are redirected and one is
    pending, the goroutines started, and the exit status once the process is
    gone. [sigCh] has room for one signal. *)
Record Host := mkHost {
  dbs : gmap nat (list string);
  sock : socket;
  listener : bool;
  notified : bool;
  pending : bool;
  started : list goroutine;
  exited : option Z;
}.

Definition boot : Host := mkHost ∅ Unbound false false false [] None.

Definition with_dbs d h := mkHost d (sock h) (listener h) (notified h) (pending h) (started h) (exited h).
Definition with_sock s h := mkHost (dbs h) s (listener h) (notified h) (pending h) (started h) (exited h).
Definition with_listener h := mkHost (dbs h) (sock h) true (notified h) (pending h) (started h) (exited h).
Definition with_notified h := mkHost (dbs h) (sock h) (listener h) true (pending h) (started h) (exited h).
Definition with_pending b h := mkHost (dbs h) (sock h) (listener h) (notified h) b (started h) (exited h).
Definition with_started g h := mkHost (dbs h) (sock h) (listener h) (notified h) (pending h) (started h ++ [g]) (exited h).
Definition with_exit n h := mkHost (dbs h) (sock h) (listener h) (notified h) (pending h) (started h) (Some n).

(** [listens]: the network does not fail, so [Listen] succeeds and [Accept]
    fails on a closed listener only. A call with no answer blocks. *)
Section answers.
Context (listens : Prop).

Definition answers (h : Host) {X} (e : call X) : X → Host → Prop :=
  match e in call X return X → Host → Prop with
  | Printf _ | NewTLSListener _ => λ _ h', h' = h
  | Exit _ => λ _ _, False
  | Go g => λ _ h', h' = with_started g h
  | NewTicker i => λ _ h', 0 < i ∧ h' = h
  | Notify => λ _ h', h' = with_notified h
  | Receive => λ _ h', pending h = true ∧ h' = with_pending false h
  | SqlOpen _ _ => λ r h',
      match r with
      | inl _ => h' = h
      | inr n => dbs h !! n = None ∧ h' = with_dbs (<[n := []]> (dbs h)) h
      end
  | SqlPing db => λ _ h', h' = h
  | SqlClose db => λ _ h', h' = with_dbs (delete db (dbs h)) h
  | SqlExec db q _ => λ r h',
      match r with
      | inl _ => h' = h
      | inr _ => h' = with_dbs (alter (λ ss, ss ++ [q]) db (dbs h)) h
      end
  | SqlQuery _ _ _ | SqlQueryRow _ _ _ | SqlBeginTx _ => λ _ h', h' = h
  | TxExec _ _ _ | TxQuery _ _ _ | TxQueryRow _ _ _ | TxCommit _ | TxRollback _ => λ _ h', h' = h
  | Listen addr => λ r h',
      match r with
      | None => sock h = Unbound ∧ h' = with_sock (Bound addr) h
      | Some _ => ¬ listens ∧ h' = h
      end
  | Accept => λ r h',
      h' = h ∧
      match r with
      | inl _ => ¬ listens ∨ sock h = Closed
      | inr _ => ∃ addr, sock h = Bound addr
      end
  | ListenerAddr => λ _ h', h' = h
  | CloseListener => λ _ h', h' = with_sock Closed h
  | SetListener => λ _ h', h' = with_listener h
  | HasListener => λ b h', b = listener h ∧ h' = h
  end.
End answers.

(** The exit status of a call that ends the process: [os.Exit], and the panic
    of a ticker whose interval is not positive. *)
Definition halts {X} (e : call X) : option Z :=
  match e with
  | Exit n => Some n
  | NewTicker i => if decide (0 < i) then None else Some 2
  | _ => None
  end.

(** The next call of a goroutine. *)
Definition act_step (listens : Prop) {A} (ph ph' : act A * Host) : Prop :=
  match ph.1 with
  | Done _ => False
  | Call e k =>
      (∃ x, ph'.1 = k x ∧ answers listens ph.2 e x ph'.2) ∨
      (∃ n, halts e = Some n ∧ ph' = (ph.1, with_exit n ph.2))
  end.

Lemma answers_exited listens h {X} (e : call X) x h' : answers listens h e x h' → exited h' = exited h.
Proof. destruct e; cbn; intros Hans; repeat case_match; destruct_and?; by subst. Qed.

(** ** Reasoning about a goroutine *)

Section rely.
(** What the others may do to the host between two calls, and what must hold
    when a call ends the process. *)
Context (listens : Prop) (R : Host → Host → Prop) `{!PreOrder R} (E : Z → Host → Prop).

Fixpoint must {A} (p : act A) (Q : A → Host → Prop) (h : Host) : Prop :=
  ∀ h1, R h h1 →
  match p with
  | Done a => Q a h1
  | Call e k => (∀ n, halts e = Some n → E n h1) ∧ ∀ x h2, answers listens h1 e x h2 → must (k x) Q h2
  end.

Lemma must_rely {A} (p : act A) Q h h' : R h h' → must p Q h → must p Q h'.
Proof. intros Hr Hp. destruct p; intros h1 Hr1; apply Hp; by etrans. Qed.

Lemma must_done {A} (a : A) Q h : must (Done a) Q h → Q a h.
Proof. intros Hp. by apply Hp. Qed.

Lemma must_step {A} (p p' : act A) Q h h' :
  must p Q h → act_step listens (p, h) (p', h') →
  must p' Q h' ∧ exited h' = exited h ∨ ∃ n, h' = with_exit n h ∧ E n h.
Proof.
  intros Hp Hstep. destruct p as [a|X e k]; [done|].
  destruct (Hp h) as [HE Hk]; [done|]. destruct Hstep as [(x & Hp' & Hans)|(n & Hn & ?)]; simplify_eq/=.
  - left. split; [by apply Hk|by eapply answers_exited].
  - right. exists n. split; [done|]. by apply HE.
Qed.

Lemma must_mono {A} (p : act A) (Q Q' : A → Host → Prop) h :
  (∀ a h, Q a h → Q' a h) → must p Q h → must p Q' h.
Proof.
  intros HQ. revert h. induction p as [a|X e k IH]; intros h Hp h1 Hr; [by apply HQ, Hp|].
  destruct (Hp h1 Hr) as [HE Hk]. split; [done|]. intros x h2 Hans. by apply IH, Hk.
Qed.

Lemma must_bind {A B} (p : act A) (f : A → act B) Q h :
  must p (λ a h, must (f a) Q h) h → must (act_bind p f) Q h.
Proof.
  revert h. induction p as [a|X e k IH]; intros h Hp; [by apply must_done in Hp|].
  intros h1 Hr. destruct (Hp h1 Hr) as [HE Hk]. split; [done|]. intros x h2 Hans. by apply IH, Hk.
Qed.

Lemma must_call {X B} (e : call X) (f : X → act B) Q h :
  (∀ h1, R h h1 → (∀ n, halts e = Some n → E n h1) ∧ ∀ x h2, answers listens h1 e x h2 → must (f x) Q h2) →
  must (act_bind (perform e) f) Q h.
Proof. intros Hk h1 Hr. by apply Hk. Qed.

Lemma must_ret {A} (a : A) Q h : (∀ h1, R h h1 → Q a h1) → must (Done a) Q h.
Proof. done. Qed.

Lemma must_fatal {A} line (Q : A → Host → Prop) h : (∀ h1, R h h1 → E 1 h1) → must (Fatalf line) Q h.
Proof.
  intros HE h1 Hr. split; [done|]. intros [] h2 ->. intros h3 Hr3. split; [|done].
  intros n [= <-]. apply HE. by etrans.
Qed.
End rely.

(** Every call of the program is in [P]. *)
Fixpoint only (P : ∀ X, call X → Prop) {A} (p : act A) : Prop :=
  match p with Done _ => True | Call e k => P _ e ∧ ∀ x, only P (k x) end.

Lemma only_step listens (P : ∀ X, call X → Prop) {A} (p p' : act A) h h' :
  only P p → act_step listens (p, h) (p', h') → only P p'.
Proof. destruct p as [a|X e k]; intros Hp Hstep; [done|]. destruct Hstep as [(x & Hp' & _)|(n & _ & ?)]; simplify_eq/=; [apply Hp|done]. Qed.
End calls.

Arguments Done {_ A}. Arguments Call {_ A X}.

Declare Scope act_scope.
Delimit Scope act_scope with act.
Notation "x <- p ; q" := (act_bind p (λ x, q)) (at level 100, p at next level, right associativity) : act_scope.
