(* ===== verification/Drivers.v ===== *)
(** The database drivers ([src/internal/db/sqlite.go], the methods of
    [src/internal/db/postgres.go]) as implementations of the interface of
    [src/internal/db/db.go]. *)
From S2P Require Import Prelude GoStd Float GoText Sql Effects Postgres Config Host.
Local Open Scope Z_scope.
Local Open Scope act_scope.

(** [sqliteSchema]. *)
Definition sqliteSchema : string := "
CREATE TABLE IF NOT EXISTS keys (
    key        TEXT    NOT NULL,
    db         INTEGER NOT NULL DEFAULT 0,
    type       TEXT    NOT NULL,
    expires_at INTEGER,
    PRIMARY KEY (key, db)
);

CREATE TABLE IF NOT EXISTS strings (
    key   TEXT NOT NULL,
    db    INTEGER NOT NULL DEFAULT 0,
    value BLOB NOT NULL,
    PRIMARY KEY (key, db),
    FOREIGN KEY (key, db) REFERENCES keys(key, db) ON DELETE CASCADE
);

CREATE TABLE IF NOT EXISTS lists (
    key   TEXT    NOT NULL,
    db    INTEGER NOT NULL DEFAULT 0,
    idx   INTEGER NOT NULL,
    value BLOB    NOT NULL,
    PRIMARY KEY (key, db, idx),
    FOREIGN KEY (key, db) REFERENCES keys(key, db) ON DELETE CASCADE
);

CREATE TABLE IF NOT EXISTS hashes (
    key   TEXT NOT NULL,
    db    INTEGER NOT NULL DEFAULT 0,
    field TEXT NOT NULL,
    value BLOB NOT NULL,
    PRIMARY KEY (key, db, field),
    FOREIGN KEY (key, db) REFERENCES keys(key, db) ON DELETE CASCADE
);

CREATE TABLE IF NOT EXISTS sets (
    key    TEXT    NOT NULL,
    db     INTEGER NOT NULL DEFAULT 0,
    member TEXT    NOT NULL,
    PRIMARY KEY (key, db, member),
    FOREIGN KEY (key, db) REFERENCES keys(key, db) ON DELETE CASCADE
);

CREATE TABLE IF NOT EXISTS zsets (
    key    TEXT    NOT NULL,
    db     INTEGER NOT NULL DEFAULT 0,
    member TEXT    NOT NULL,
    score  REAL    NOT NULL,
    PRIMARY KEY (key, db, member),
    FOREIGN KEY (key, db) REFERENCES keys(key, db) ON DELETE CASCADE
);

CREATE INDEX IF NOT EXISTS zsets_score ON zsets(key, db, score);
".

Section drivers.
Context `{SqlTypes}.

(** ** The interfaces *)

(** [Tx]; [any] arguments are passed on, contexts left out. *)
Record Tx := mkTx {
  tx_ExecContext : string → list Arg → act (string + Result);
  tx_QueryContext : string → list Arg → act (string + Rows);
  tx_QueryRowContext : string → list Arg → act Row;
  tx_Commit : act (option string);
  tx_Rollback : act (option string);
}.

(** [DB]. *)
Record DB := mkDB {
  ExecContext : string → list Arg → act (string + Result);
  QueryContext : string → list Arg → act (string + Rows);
  QueryRowContext : string → list Arg → act Row;
  BeginTx : act (string + Tx);
  Close : act (option string);
  Migrate : act (option string);
}.

(** [if err != nil { return err }; return nil] of a call with a result. *)
Definition error_of {A} (r : string + A) : option string := match r with inl e => Some e | inr _ => None end.

(** ** SQLite *)

(** A [sql.Tx] is a [Tx]. *)
Definition sqlTx (tx : nat) : Tx :=
  mkTx (λ query args, perform (TxExec tx query args)) (λ query args, perform (TxQuery tx query args))
    (λ query args, perform (TxQueryRow tx query args)) (perform (TxCommit tx)) (perform (TxRollback tx)).

Definition sqliteDB (db : nat) : DB :=
  mkDB (λ query args, perform (SqlExec db query args)) (λ query args, perform (SqlQuery db query args))
    (λ query args, perform (SqlQueryRow db query args))
    (r <- perform (SqlBeginTx db); Done (match r with inl e => inl e | inr tx => inr (sqlTx tx) end))
    (perform (SqlClose db))
    (r <- perform (SqlExec db sqliteSchema []); Done (error_of r)).

(** Both drivers open a database the same way: [sql.Open], then [Ping], and
    [Close] when it fails. *)
Definition open_pinged (driver dsn : string) (wrap : nat → DB) : act (string + DB) :=
  r <- perform (SqlOpen driver dsn);
  match r with
  | inl e => Done (inl e)
  | inr db =>
      p <- perform (SqlPing db);
      match p with
      | Some e => _ <- perform (SqlClose db); Done (inl e)
      | None => Done (inr (wrap db))
      end
  end.

Definition OpenSQLite (dsn : string) : act (string + DB) := open_pinged "sqlite" (sqlite_dsn dsn) sqliteDB.

(** ** PostgreSQL *)

Definition pgTx (tx : nat) : Tx :=
  mkTx (λ query args, perform (TxExec tx (rewritePlaceholders query) args))
    (λ query args, perform (TxQuery tx (rewritePlaceholders query) args))
    (λ query args, perform (TxQueryRow tx (rewritePlaceholders query) args))
    (perform (TxCommit tx)) (perform (TxRollback tx)).

(** The loop of [postgresDB.Migrate]. *)
Fixpoint migrate_each (db : nat) (stmts : list string) : act (option string) :=
  match stmts with
  | [] => Done None
  | stmt :: stmts' =>
      r <- perform (SqlExec db stmt []);
      match r with inl e => Done (Some e) | inr _ => migrate_each db stmts' end
  end.

Definition postgresDB (db : nat) : DB :=
  mkDB (λ query args, perform (SqlExec db (rewritePlaceholders query) args))
    (λ query args, perform (SqlQuery db (rewritePlaceholders query) args))
    (λ query args, perform (SqlQueryRow db (rewritePlaceholders query) args))
    (r <- perform (SqlBeginTx db); Done (match r with inl e => inl e | inr tx => inr (pgTx tx) end))
    (perform (SqlClose db))
    (migrate_each db (splitStatements postgresSchema)).

Definition OpenPostgres (dsn : string) : act (string + DB) := open_pinged "pgx" dsn postgresDB.
End drivers.
