(* ===== verification/Process.v ===== *)
(** The process ([src/cmd/sql-resp/main.go], the listener of
    [src/internal/server/server.go]): start-up, the accept loop and shutdown,
    with the goroutines of the sweep and of the signals, as a labelled
    transition system over the host. The goroutines of the connections are the
    steps of Server.v. *)
From S2P Require Import Prelude GoStd Float GoText Sql Effects Postgres Config Host Drivers.
Local Open Scope Z_scope.
Local Open Scope act_scope.

(** [server.Config] as [main] fills it; its store is the one on the backend. *)
Record ServerConfig := mkServerConfig {
  Addr : string;
  srv_Password : string;
  TLSConfig : option nat;
}.

Section code.
Context `{SqlTypes}.

(** ** server.go *)

(** [ListenAndServe] up to [serve]. *)
Definition listen (cfg : ServerConfig) : act (option string) :=
  e <- perform (Listen (Addr cfg));
  match e with
  | Some e => Done (Some e)
  | None =>
      _ <- match TLSConfig cfg with Some c => perform (NewTLSListener c) | None => Done tt end;
      _ <- perform SetListener;
      addr <- perform ListenerAddr;
      _ <- perform (Printf ("sql-resp listening on " +:+ addr));
      Done None
  end.

(** A turn of the loop of [serve]; an error leaves it. *)
Definition accept_once : act (option string) :=
  r <- perform Accept;
  match r with
  | inl e => Done (Some e)
  | inr conn => _ <- perform (Go (Handler conn)); Done None
  end.

(** [Server.Close]. *)
Definition srv_Close : act (option string) :=
  b <- perform HasListener;
  if b : bool then perform CloseListener else Done None.

(** ** main.go *)

(** The goroutine of the signals, from its receive on. *)
Definition on_signal : act unit :=
  _ <- perform Receive;
  _ <- perform (Printf "shutting down");
  _ <- srv_Close;
  Done tt.

Definition signal_handler : act unit :=
  _ <- perform Notify;
  on_signal.

(** The goroutine of the sweep, up to its first tick. *)
Definition sweeper (interval : Z) : act unit := perform (NewTicker interval).

Section main.
Context `{Unicode}.
(** The file system, the environment, the command line: the file, the flags in
    the order their map is visited, and whether the version is asked for. *)
Context (open : string → string + string) (Getenv : string → string).
Context (configFile : string) (flags : list (string * string)) (showVer : bool) (version : string).

Abbreviation loaded := (Load open Getenv configFile flags).

Definition server_config (cfg : Config) : ServerConfig :=
  mkServerConfig (":" +:+ format_int (Port cfg)) (Password cfg) None.

(** The [switch] over the backend. *)
Definition open_backend (cfg : Config) : act (string + DB) :=
  let dsn := main_dsn cfg in
  if decide (Backend cfg = "sqlite" ∨ Backend cfg = "") then OpenSQLite dsn
  else if decide (Backend cfg = "postgres") then OpenPostgres dsn
  else Fatalf ("unsupported backend " +:+ Quote (Backend cfg)).

(** From the backend to the accept loop. *)
Definition start_server (cfg : Config) (backend : DB) : act (DB * option string) :=
  e <- Migrate backend;
  match e with
  | Some e => Fatalf ("db migrate: " +:+ e)
  | None =>
      _ <- perform (Go Sweeper);
      _ <- perform (Go SignalHandler);
      r <- listen (server_config cfg);
      Done (backend, r)
  end.

(** [main] up to the accept loop; the [int] of the configuration is 64 bits. *)
Definition main_start : act (DB * option string) :=
  _ <- (if showVer then _ <- perform (Printf ("sql-resp " +:+ version));
                        Call (Exit 0) (λ x : Empty_set, match x with end)
        else Done tt);
  match loaded with
  | inl e => Fatalf ("config: " +:+ e)
  | inr cfg =>
      r <- open_backend cfg;
      match r with
      | inl e => Fatalf ("db open: " +:+ e)
      | inr backend => start_server cfg backend
      end
  end.

(** After [ListenAndServe]: the error is printed, and the backend closed as
    [main] returns. *)
Definition main_end (backend : DB) (e : string) : act unit :=
  _ <- perform (Printf ("server: " +:+ e));
  _ <- Close backend;
  Done tt.

Definition main_interval : Z := match loaded with inl _ => 0 | inr cfg => sweepInterval cfg end.

(** ** The process *)

(** Where [main] is. *)
Inductive main_thread :=
  | Starting (p : act (DB * option string))
  | Serving (backend : DB) (p : act (option string))
  | Ending (p : act unit).

Record Process := mkProcess {
  host : Host;
  main_at : main_thread;
  signal_at : act unit;
  sweep_at : act unit;
}.

Definition launch : Process := mkProcess boot (Starting main_start) signal_handler (sweeper main_interval).

(** The next call of [main], or its way from one part to the next. *)
Inductive main_step (listens : Prop) : main_thread * Host → main_thread * Host → Prop :=
  | main_starting p h p' h' : act_step listens (p, h) (p', h') → main_step listens (Starting p, h) (Starting p', h')
  | main_listening b h : main_step listens (Starting (Done (b, None)), h) (Serving b accept_once, h)
  | main_deaf b e h : main_step listens (Starting (Done (b, Some e)), h) (Ending (main_end b e), h)
  | main_serving b p h p' h' : act_step listens (p, h) (p', h') → main_step listens (Serving b p, h) (Serving b p', h')
  | main_again b h : main_step listens (Serving b (Done None), h) (Serving b accept_once, h)
  | main_leaves b e h : main_step listens (Serving b (Done (Some e)), h) (Ending (main_end b e), h)
  | main_ending p h p' h' : act_step listens (p, h) (p', h') → main_step listens (Ending p, h) (Ending p', h')
  | main_returns h : main_step listens (Ending (Done tt), h) (Ending (Done tt), with_exit 0 h).

(** The status of a process that SIGINT ends. *)
Definition interrupted : Z := 130.

Inductive process_step (listens : Prop) : Process → Process → Prop :=
  | step_main h m sg sw m' h' :
      exited h = None → main_step listens (m, h) (m', h') →
      process_step listens (mkProcess h m sg sw) (mkProcess h' m' sg sw)
  | step_signal_handler h m sg sw sg' h' :
      exited h = None → SignalHandler ∈ started h → act_step listens (sg, h) (sg', h') →
      process_step listens (mkProcess h m sg sw) (mkProcess h' m sg' sw)
  | step_sweeper h m sg sw sw' h' :
      exited h = None → Sweeper ∈ started h → act_step listens (sw, h) (sw', h') →
      process_step listens (mkProcess h m sg sw) (mkProcess h' m sg sw')
  (** SIGINT or SIGTERM: delivered once redirected, dropped when one is
      pending, and the end of the process before. *)
  | step_signal h m sg sw :
      exited h = None →
      process_step listens (mkProcess h m sg sw)
        (mkProcess (if notified h then with_pending true h else with_exit interrupted h) m sg sw).

#[local] Opaque splitStatements postgresSchema sqliteSchema format_int.

(** ** What the goroutines leave alone *)

(** Others only redirect and take signals, and close the listener. *)
Definition undisturbed (h h' : Host) : Prop :=
  dbs h' = dbs h ∧ listener h' = listener h ∧ started h' = started h ∧ (sock h' = sock h ∨ sock h' = Closed).

#[local] Instance undisturbed_preorder : PreOrder undisturbed.
Proof.
  split; [intros h; repeat split; by left|]. intros h1 h2 h3 (? & ? & ? & ?) (? & ? & ? & Hs).
  repeat split; try congruence. destruct Hs as [->|]; [done|by right].
Qed.

(** A call that leaves the rest undisturbed, whatever is answered, and does not
    end the process with status 0. *)
Definition discreet X (e : call X) : Prop :=
  halts e ≠ Some 0 ∧ ∀ listens h x h', answers listens h e x h' → undisturbed h h'.

Lemma signal_handler_discreet : only discreet signal_handler.
Proof.
  split; [split; [done|intros ? h r h' ->; repeat split; by left]|intros ?].
  split; [split; [done|intros ? h r h' [_ ->]; repeat split; by left]|intros ?].
  split; [split; [done|intros ? h r h' ->; repeat split; by left]|intros ?].
  split; [split; [done|intros ? h r h' [_ ->]; repeat split; by left]|intros []]; [|done].
  split; [|done]. split; [done|]. intros ? h r h' ->. repeat split. by right.
Qed.

Lemma sweeper_discreet i : only discreet (sweeper i).
Proof.
  split; [|done]. split; [|intros ? h x h' [_ ->]; repeat split; by left]. simpl. by destruct (decide (0 < i)).
Qed.

(** ** Start-up *)

Context (listens : Prop).
Abbreviation steps := (rtc (process_step listens)).

(** The driver of a configuration, and the statements of its migration. *)
Definition is_sqlite (cfg : Config) : Prop := Backend cfg = "sqlite" ∨ Backend cfg = "".
#[local] Instance is_sqlite_dec cfg : Decision (is_sqlite cfg).
Proof. unfold is_sqlite. apply _. Defined.

Definition backend_of (cfg : Config) (db : nat) : DB :=
  if decide (is_sqlite cfg) then sqliteDB db else postgresDB db.
Definition schema_of (cfg : Config) : list string :=
  if decide (is_sqlite cfg) then [sqliteSchema] else splitStatements postgresSchema.

(** All that [main] prepares before it accepts connections. *)
Definition serving (b : DB) (h : Host) : Prop := ∃ cfg db,
  showVer = false ∧ loaded = inr cfg ∧ b = backend_of cfg db ∧ dbs h = {[db := schema_of cfg]} ∧
  listener h = true ∧ (sock h = Bound (":" +:+ format_int (Port cfg)) ∨ sock h = Closed) ∧
  [Sweeper; SignalHandler] `prefix_of` started h.

(** Exit status 0: no database is left open. *)
Definition tidy (n : Z) (h : Host) : Prop := n = 0 → dbs h = ∅.
Abbreviation must := (must listens undisturbed tidy).

Lemma undisturbed_dbs h h' : undisturbed h h' → dbs h' = dbs h.
Proof. by intros []. Qed.

Lemma must_fatal_tidy {A} line (Q : A → Host → Prop) h : must (Fatalf line : act A) Q h.
Proof. apply must_fatal; [apply _|]. intros h1 _. done. Qed.

Lemma must_migrate_each db ran stmts h :
  dbs h = {[db := ran]} →
  must (migrate_each db stmts) (λ e h', e = None → dbs h' = {[db := ran ++ stmts]} ∧ started h' = started h) h.
Proof.
  revert ran h. induction stmts as [|stmt stmts IH]; intros ran h Hdb; cbn [migrate_each].
  { intros h1 (-> & _ & -> & _) _. by rewrite app_nil_r. }
  apply must_call. intros h1 (Hdb1 & _ & Hst1 & _). split; [done|]. intros [e|r] h2; cbn [answers]; intros ->; [by intros ? _|].
  eapply must_mono; [|apply (IH (ran ++ [stmt]))].
  - intros e h3 Hpost He. destruct (Hpost He) as [Hdb3 Hst3]. cbn in Hst3. rewrite <- app_assoc in Hdb3. by rewrite Hst3.
  - cbn. by rewrite Hdb1, Hdb, alter_singleton_eq.
Qed.

Lemma must_Migrate cfg db h :
  dbs h = {[db := []]} →
  must (Migrate (backend_of cfg db)) (λ e h', e = None → dbs h' = {[db := schema_of cfg]} ∧ started h' = started h) h.
Proof.
  intros Hdb. unfold backend_of, schema_of. destruct (decide (is_sqlite cfg)); cbn [Migrate sqliteDB postgresDB].
  - apply must_call. intros h1 (Hdb1 & _ & Hst1 & _). split; [done|]. intros [e|r] h2; cbn [answers]; intros ->; [by intros ? _|].
    intros h3 (-> & _ & -> & _) _. cbn. by rewrite Hdb1, Hdb, alter_singleton_eq.
  - exact (must_migrate_each db [] _ h Hdb).
Qed.

(** The host once [b] has been opened. *)
Definition fresh_backend (wrap : nat → DB) (r : string + DB) (h : Host) : Prop :=
  match r with
  | inl _ => True
  | inr b => ∃ db, b = wrap db ∧ dbs h = {[db := []]} ∧ started h = []
  end.

Lemma must_open_pinged driver dsn wrap h :
  dbs h = ∅ → started h = [] → must (open_pinged driver dsn wrap) (fresh_backend wrap) h.
Proof.
  intros Hdb Hst. apply must_call. intros h1 (Hdb1 & _ & Hst1 & _). split; [done|].
  intros [e|db] h2; cbn [answers]; [by intros -> ?|]. intros [_ ->]. apply must_call.
  intros h3 (Hdb3 & _ & Hst3 & _). split; [done|]. intros [e|] h4; cbn [answers]; intros ->.
  - by intros h5 _; split.
  - intros h5 (Hdb5 & _ & Hst5 & _). exists db. cbn in *. by rewrite Hdb5, Hdb3, Hdb1, Hdb, Hst5, Hst3, Hst1.
Qed.

Lemma must_open_backend cfg h :
  dbs h = ∅ → started h = [] → must (open_backend cfg) (fresh_backend (backend_of cfg)) h.
Proof.
  intros Hdb Hst. unfold open_backend. cbv zeta. case_decide as Hs; [|case_decide].
  - eapply must_mono; [|by apply must_open_pinged]. intros [e|b] h'; [done|]. intros (db & -> & Hpost). exists db.
    unfold backend_of. by rewrite decide_True.
  - eapply must_mono; [|by apply must_open_pinged]. intros [e|b] h'; [done|]. intros (db & -> & Hpost). exists db.
    unfold backend_of. by rewrite decide_False.
  - apply must_fatal_tidy.
Qed.

(** Where start-up ends: ready to accept, or with the backend to be closed. *)
Definition start_post (r : DB * option string) (h : Host) : Prop :=
  match r.2 with
  | None => serving r.1 h
  | Some _ => ∃ cfg db, r.1 = backend_of cfg db ∧ dom (dbs h) = {[db]}
  end.

Lemma must_start_server cfg db h :
  showVer = false → loaded = inr cfg → dbs h = {[db := []]} → started h = [] →
  must (start_server cfg (backend_of cfg db)) start_post h.
Proof.
  intros Hv Hcfg Hdb Hst. unfold start_server. apply must_bind; [apply _|]. eapply must_mono; [|by apply must_Migrate].
  intros [e|] h1 Hpost; [apply must_fatal_tidy|]. destruct (Hpost eq_refl) as [Hdb1 Hst1]. rewrite Hst in Hst1.
  apply must_call. intros h2 (Hdb2 & _ & Hst2 & _). split; [done|]. intros _ h3 ->.
  apply must_call. intros h4 (Hdb4 & _ & Hst4 & _). split; [done|]. intros _ h5 ->. cbn [dbs started with_started] in *.
  apply must_bind; [apply _|]. apply must_call. intros h6 (Hdb6 & _ & Hst6 & _). split; [done|]. cbn [dbs started with_started] in *.
  assert (dbs h6 = {[db := schema_of cfg]} ∧ started h6 = [Sweeper; SignalHandler]) as [Hdb' Hst'].
  { rewrite Hdb6, Hdb4, Hdb2, Hst6, Hst4, Hst2, Hst1. by split. }
  intros [e|] h7; cbn [answers].
  { intros [_ ->]. intros h8 (Hdb8 & _) h9 (Hdb9 & _). exists cfg, db. rewrite Hdb9, Hdb8, Hdb'. by rewrite dom_singleton_L. }
  intros [_ ->]. apply must_call. intros h8 (Hdb8 & _ & Hst8 & Hs8). split; [done|]. intros _ h9 ->.
  apply must_call. intros h10 (Hdb10 & Hl10 & Hst10 & Hs10). split; [done|]. intros addr h11 ->.
  apply must_call. intros h14 (Hdb14 & Hl14 & Hst14 & Hs14). split; [done|]. intros _ h15 ->.
  intros h12 (Hdb12 & Hl12 & Hst12 & Hs12) h13 (Hdb13 & Hl13 & Hst13 & Hs13). cbn in *.
  exists cfg, db. split; [done|]. split; [done|]. split; [done|]. split; [by rewrite Hdb13, Hdb12, Hdb14, Hdb10, Hdb8|].
  split; [by rewrite Hl13, Hl12, Hl14, Hl10|]. split; [|by rewrite Hst13, Hst12, Hst14, Hst10, Hst8, Hst'].
  destruct Hs13 as [->|]; [|by right]. destruct Hs12 as [->|]; [|by right]. destruct Hs14 as [->|]; [|by right]. destruct Hs10 as [->|]; [|by right].
  destruct Hs8 as [->|]; [by left|by right].
Qed.

Lemma must_main_start : must main_start start_post boot.
Proof.
  apply must_bind; [apply _|]. destruct showVer eqn:Hv.
  { apply must_call. intros h1 (Hdb1 & _). split; [done|]. intros _ h2 ->.
    intros h3 (Hdb3 & _). split; [|done]. intros n _ _. by rewrite Hdb3, Hdb1. }
  intros h1 (Hdb1 & _ & Hst1 & _). destruct loaded as [e|cfg] eqn:Hcfg; [apply must_fatal_tidy|].
  apply must_bind; [apply _|]. eapply must_mono; [|by apply must_open_backend].
  intros [e|b] h2 Hpost; [apply must_fatal_tidy|]. destruct Hpost as (db & -> & Hdb2 & Hst2).
  by apply must_start_server.
Qed.

(** ** The accept loop and the end *)

(** The calls of the accept loop, and those after it. *)
Definition patient X (e : call X) : Prop := match e with Accept | Go _ => True | _ => False end.
Definition parting X (e : call X) : Prop := match e with Printf _ | SqlClose _ => True | _ => False end.

Lemma accept_once_patient : only patient accept_once.
Proof. split; [done|]. by intros [e|conn]. Qed.

Lemma serving_patient {X} (e : call X) b h x h' :
  patient X e → serving b h → answers listens h e x h' → serving b h'.
Proof.
  intros He (cfg & db & ? & ? & ? & ? & ? & ? & Hst). destruct e; cbn; try done.
  - intros ->. exists cfg, db. repeat (split; [done|]). by apply prefix_app_r.
  - intros [-> _]. by exists cfg, db.
Qed.

Lemma serving_undisturbed b h h' : undisturbed h h' → serving b h → serving b h'.
Proof.
  intros (Hdb & Hl & Hst & Hs) (cfg & db & ? & ? & ? & ? & ? & Hsock & ?). exists cfg, db.
  rewrite Hdb, Hl, Hst. repeat (split; [done|]). split; [|done]. destruct Hs as [->|]; [done|by right].
Qed.

Lemma main_end_parting cfg db e : only parting (main_end (backend_of cfg db) e).
Proof. unfold backend_of. case_decide; by repeat split. Qed.

Lemma must_main_end cfg db e h :
  dom (dbs h) = {[db]} → must (main_end (backend_of cfg db) e) (λ _ h, dbs h = ∅) h.
Proof.
  intros Hdom. unfold main_end. apply must_call. intros h1 (Hdb1 & _). split; [done|]. intros _ h2 ->.
  assert (Close (backend_of cfg db) = perform (SqlClose db)) as -> by (unfold backend_of; by case_decide).
  apply must_call. intros h3 (Hdb3 & _). split; [done|]. intros r h4 ->.
  intros h5 (Hdb5 & _). rewrite Hdb5. cbn. rewrite Hdb3, Hdb1. apply dom_empty_inv_L.
  rewrite dom_delete_L, Hdom. set_solver.
Qed.

Definition main_inv (m : main_thread) (h : Host) : Prop :=
  match m with
  | Starting p => must p start_post h
  | Serving b p => serving b h ∧ only patient p
  | Ending p => must p (λ _ h, dbs h = ∅) h ∧ only parting p
  end.

Lemma main_inv_rely m h h' : undisturbed h h' → main_inv m h → main_inv m h'.
Proof.
  intros Hr. destruct m as [p|b p|p]; cbn [main_inv].
  - apply must_rely; [apply _|done].
  - intros [? ?]. split; [by eapply serving_undisturbed|done].
  - intros [? ?]. split; [|done]. eapply must_rely; [apply _|done..].
Qed.

Lemma main_inv_step m h m' h' :
  main_inv m h → main_step listens (m, h) (m', h') →
  main_inv m' h' ∧ exited h' = exited h ∨ ∃ n, h' = with_exit n h ∧ tidy n h.
Proof.
  intros Hm Hstep. inversion Hstep as [p ? p' ? Ha|b ?|b e ?|b p ? p' ? Ha|b ?|b e ?|p ? p' ? Ha|?]; simplify_eq; cbn [main_inv] in *.
  - by eapply must_step; [apply _|exact Hm|exact Ha].
  - left. apply must_done in Hm; [|apply _]. by split; [split; [exact Hm|apply accept_once_patient]|].
  - left. apply must_done in Hm; [|apply _]. destruct Hm as (cfg & db & Hb & Hdb). cbn [fst] in Hb. subst b.
    by split; [split; [by apply must_main_end|apply main_end_parting]|].
  - destruct Hm as [Hs Hp], p as [|X e k]; [done|]. destruct Hp as [He Hk].
    destruct Ha as [(x & Hp' & Hans)|(n & Hn & _)]; simplify_eq/=; [|by destruct e].
    left. split; [|by eapply answers_exited]. split; [by eapply serving_patient|by apply Hk].
  - left. destruct Hm as [Hs _]. by split; [split; [done|apply accept_once_patient]|].
  - left. destruct Hm as [(cfg & db & _ & _ & -> & Hdb & _) _]. split; [split; [|apply main_end_parting]|done].
    apply must_main_end. by rewrite Hdb, dom_singleton_L.
  - destruct Hm as [Hm Hp]. destruct (must_step _ _ _ _ _ _ _ _ Hm Ha) as [[? ?]|?]; [left|by right].
    split; [|done]. split; [done|by eapply only_step].
  - right. exists 0. split; [done|]. intros _. destruct Hm as [Hm _]. by apply must_done in Hm; [|apply _].
Qed.

Definition process_inv (P : Process) : Prop :=
  only discreet (signal_at P) ∧ only discreet (sweep_at P) ∧
  (exited (host P) = None → main_inv (main_at P) (host P)) ∧
  (exited (host P) = Some 0 → dbs (host P) = ∅).

Lemma discreet_step m h {A} (p p' : act A) h' :
  only discreet p → act_step listens (p, h) (p', h') → exited h = None → main_inv m h →
  only discreet p' ∧ (exited h' = None → main_inv m h') ∧ (exited h' = Some 0 → dbs h' = ∅).
Proof.
  intros Hp Ha Hx Hm. split; [by eapply only_step|].
  destruct p as [|X e k]; [done|]. destruct Hp as [[He Hd] _], Ha as [(x & Hp' & Hans)|(n & Hn & ?)]; simplify_eq/=.
  - split; [intros _; by eapply main_inv_rely; [eapply Hd|]|]. intros Hx'. exfalso.
    apply answers_exited in Hans. congruence.
  - split; [done|]. congruence.
Qed.

Lemma process_inv_step P P' : process_inv P → process_step listens P P' → process_inv P'.
Proof.
  intros (Hsg & Hsw & Hm & _) Hstep.
  inversion Hstep as [h m sg sw m' h' Hx Ha|h m sg sw sg' h' Hx _ Ha|h m sg sw sw' h' Hx _ Ha|h m sg sw Hx]; simplify_eq;
    cbn [host main_at signal_at sweep_at] in *; specialize (Hm Hx).
  - destruct (main_inv_step _ _ _ _ Hm Ha) as [[Hm' Hx']|(n & -> & Hn)]; (split; [done|]; split; [done|]).
    + split; [done|]. cbn [host]. by rewrite Hx', Hx.
    + split; [done|]. cbn. intros [= ->]. by apply Hn.
  - destruct (discreet_step m _ _ _ _ Hsg Ha Hx Hm) as [? ?]. by split.
  - destruct (discreet_step m _ _ _ _ Hsw Ha Hx Hm) as [? ?]. by split.
  - split; [done|]. split; [done|]. destruct (notified h); cbn; [|by split].
    split; [intros _|congruence]. eapply main_inv_rely; [|done]. repeat split. by left.
Qed.

Lemma process_inv_steps P : steps launch P → process_inv P.
Proof.
  assert (∀ P P', steps P P' → process_inv P → process_inv P') as Hgen.
  { induction 1; intros ?; eauto using process_inv_step. }
  intros Hsteps. apply (Hgen _ _ Hsteps). split; [apply signal_handler_discreet|]. split; [apply sweeper_discreet|].
  split; [intros _; apply must_main_start|done].
Qed.

(** C8: When [main] accepts connections, the configuration has been loaded, its
    backend is the one database open and every statement of the schema has run
    on it, in order and without error; the listener is stored and bound to the
    configured port unless it has been closed; the goroutines of the sweep and
    of the signals have been started. A process that exits with status 0
    leaves no database open. *)
Theorem process_safe P :
  steps launch P →
  (∀ b p, exited (host P) = None → main_at P = Serving b p → serving b (host P)) ∧
  (exited (host P) = Some 0 → dbs (host P) = ∅).
Proof.
  intros (_ & _ & Hm & Hexit)%process_inv_steps. split; [|done]. intros b p Hx Hat.
  specialize (Hm Hx). rewrite Hat in Hm. apply Hm.
Qed.

(** ** Shutdown *)

(** What no call undoes. *)
Definition lasting (h h' : Host) : Prop :=
  (listener h = true → listener h' = true) ∧ (sock h = Closed → sock h' = Closed) ∧
  (notified h = true → notified h' = true).

#[local] Instance lasting_preorder : PreOrder lasting.
Proof. split; [by repeat split|]. intros h1 h2 h3 (? & ? & ?) (? & ? & ?). repeat split; auto. Qed.

Lemma answers_lasting listens' h {X} (e : call X) x h' : answers listens' h e x h' → lasting h h'.
Proof.
  destruct e; cbn; intros Hans; repeat case_match; destruct_and?; subst; try done; repeat split; try done.
  by intros Hs; rewrite Hs in *.
Qed.

Lemma act_step_lasting listens' {A} (p p' : act A) h h' : act_step listens' (p, h) (p', h') → lasting h h'.
Proof. destruct p as [|X e k]; [done|]. intros [(x & _ & Hans)|(n & _ & ?)]; simplify_eq/=; [by eapply answers_lasting|by repeat split]. Qed.

Lemma main_step_lasting listens' m m' h h' : main_step listens' (m, h) (m', h') → lasting h h'.
Proof. inversion 1; simplify_eq; try by eapply act_step_lasting. all: by repeat split. Qed.

Abbreviation signal_must := (Host.must listens lasting (λ _ _, True)).

Lemma must_on_signal h : listener h = true → signal_must on_signal (λ _ h, sock h = Closed) h.
Proof.
  intros Hl. unfold on_signal. apply must_call. intros h1 (Hl1 & _). split; [done|]. intros _ h2 [_ ->].
  apply must_call. intros h3 (Hl3 & _). split; [done|]. intros _ h4 ->.
  apply must_bind; [apply _|]. apply must_call. intros h5 (Hl5 & _). split; [done|]. intros b h6 [-> ->].
  assert (listener h5 = true) as -> by (apply Hl5, Hl3, Hl1, Hl).
  intros h7 _. split; [done|]. intros r h8 ->. intros h9 (_ & Hs & _).
  intros h10 (_ & Hs' & _). by apply Hs', Hs.
Qed.

Lemma must_signal_handler h : listener h = true → signal_must signal_handler (λ _ h, sock h = Closed) h.
Proof.
  intros Hl. unfold signal_handler. apply must_call. intros h1 (Hl1 & _). split; [done|]. intros _ h2 ->.
  apply must_on_signal. by apply Hl1.
Qed.

(** [main] is at the accept loop or after it. *)
Definition past_start (m : main_thread) : Prop := match m with Starting _ => False | _ => True end.

Lemma main_step_past listens' m m' h h' : past_start m → main_step listens' (m, h) (m', h') → past_start m'.
Proof. intros Hm. by inversion 1; simplify_eq. Qed.

Definition closing (P : Process) : Prop :=
  past_start (main_at P) ∧ (exited (host P) = None → signal_must (signal_at P) (λ _ h, sock h = Closed) (host P)).

Lemma closing_step P P' : closing P → process_step listens P P' → closing P'.
Proof.
  intros [Hpast Hsg] Hstep.
  inversion Hstep as [h m sg sw m' h' Hx Ha|h m sg sw sg' h' Hx _ Ha|h m sg sw sw' h' Hx _ Ha|h m sg sw Hx]; simplify_eq;
    cbn [host main_at signal_at] in *; specialize (Hsg Hx); split; cbn [host main_at signal_at]; try done.
  - by eapply main_step_past.
  - intros _. eapply must_rely; [apply _|by eapply main_step_lasting|done].
  - intros Hx'. destruct (must_step _ _ _ _ _ _ _ _ Hsg Ha) as [[? _]|(n & -> & _)]; done.
  - intros _. eapply must_rely; [apply _|by eapply act_step_lasting|done].
  - intros _. eapply must_rely; [apply _| |done]. by destruct (notified h) eqn:Hn; repeat split.
Qed.

(** A turn of [main] while the process lives. *)
Definition main_turn (mh mh' : main_thread * Host) : Prop := exited mh.2 = None ∧ main_step listens mh mh'.

Lemma sn_exited m h n : exited h = Some n → sn main_turn (m, h).
Proof. intros Hx. constructor. intros [m' h'] [Hx' _]. cbn in Hx'. congruence. Qed.

Lemma sn_ending p h : sn main_turn (Ending p, h).
Proof.
  revert h. induction p as [a|X e k IH]; intros h; constructor; intros [m' h'] [_ Hstep]; inversion Hstep as [| | | | | |p ? p' ? Ha|]; simplify_eq.
  - done.
  - by eapply sn_exited.
  - destruct Ha as [(x & Hp' & _)|(n & _ & ?)]; simplify_eq/=; [apply IH|by eapply sn_exited].
Qed.

Lemma sn_serving b p h : sock h = Closed → sn main_turn (Serving b p, h).
Proof.
  assert (∀ p h, sock h = Closed → (∀ h, sock h = Closed → sn main_turn (Serving b accept_once, h)) →
    sn main_turn (Serving b p, h)) as Hgen.
  { clear p h. intros p h Hs Hloop. revert h Hs. induction p as [a|X e k IH]; intros h Hs; constructor; intros [m' h'] [_ Hstep];
      inversion Hstep as [| | |? p ? p' ? Ha| | | |]; simplify_eq; try by apply Hloop.
    - done.
    - apply sn_ending.
    - destruct Ha as [(x & Hp' & Hans)|(n & _ & ?)]; simplify_eq/=; [|by eapply sn_exited].
      apply IH. by eapply answers_lasting. }
  intros Hs. apply Hgen; [done|]. clear p h Hs. intros h Hs. constructor. intros [m' h'] [_ Hstep].
  inversion Hstep as [| | |? p ? p' ? Ha| | | |]; simplify_eq.
  destruct Ha as [(x & Hp' & [Hh Hr])|(n & [=] & _)]; simplify_eq/=.
  destruct x as [e|conn]; [|destruct Hr; congruence]. constructor. intros [m' h'] [_ Hstep'].
  inversion Hstep' as [| | |? p ? p' ? Ha'| | | |]; simplify_eq; [done|apply sn_ending].
Qed.

(** [main] on its way out, and gone. *)
Definition leaving (mh : main_thread * Host) : Prop :=
  exited mh.2 = None ∧ past_start mh.1 ∧ main_inv mh.1 mh.2 ∧ sock mh.2 = Closed.
Definition gone (mh : main_thread * Host) : Prop := exited mh.2 = Some 0 ∧ dbs mh.2 = ∅.

Lemma leaving_turn mh mh' : leaving mh → main_turn mh mh' → leaving mh' ∨ gone mh'.
Proof.
  destruct mh as [m h], mh' as [m' h']. intros (Hx & Hpast & Hm & Hs) [_ Hstep]. cbn in *.
  destruct (main_inv_step _ _ _ _ Hm Hstep) as [[Hm' Hx']|(n & -> & Hn)].
  - left. split; [cbn; congruence|]. split; [by eapply main_step_past|]. split; [done|]. by eapply main_step_lasting.
  - right. assert (n = 0) as ->; [|split; [done|by apply Hn]].
    assert (∀ {A} (P : ∀ X, call X → Prop) (p p' : act A), (∀ X (e : call X), P X e → halts e = None) →
      only P p → act_step listens (p, h) (p', with_exit n h) → n = 0) as Hnever.
    { intros A P p p' HP Hp Ha. destruct p as [|X e k]; [done|]. destruct Hp as [He _].
      destruct Ha as [(x & _ & Hans)|(n' & Hn' & _)]; [apply answers_exited in Hans; cbn in Hans; congruence|].
      rewrite HP in Hn'; done. }
    assert (h ≠ with_exit n h) as Hne by (intros Heq%(f_equal exited); cbn in Heq; congruence).
    inversion Hstep as [| | |b p ? p' ? Ha| | |p ? p' ? Ha|]; simplify_eq; try done; cbn in *.
    + destruct Hm as [_ Hp]. eapply (Hnever _ patient); [|exact Hp|exact Ha]. by intros X [].
    + destruct Hm as [_ Hp]. eapply (Hnever _ parting); [|exact Hp|exact Ha]. by intros X [].
Qed.

Lemma leaving_red mh : leaving mh → red main_turn mh.
Proof.
  destruct mh as [[p|b p|p] h]; intros (Hx & Hpast & Hm & Hs); cbn in *; [done|..]; destruct Hm as [_ Hp].
  - destruct p as [[e|]|X e k]; [eexists; split; [done|by constructor]..|].
    destruct Hp as [He _]. destruct e; try done.
    + eexists; split; [done|]. constructor. left. by exists tt.
    + eexists; split; [done|]. constructor. left. exists (inl ""). split; [done|]. split; [done|by right].
  - destruct p as [[]|X e k]; [eexists; split; [done|by constructor]|].
    destruct Hp as [He _]. destruct e; try done.
    + eexists; split; [done|]. constructor. left. by exists tt.
    + eexists; split; [done|]. constructor. left. by exists None.
Qed.

(** C9: Once [main] accepts connections and the goroutine of the signals waits, a
    signal shuts the process down: when that goroutine is through, the
    listener is closed for good, and [main], left to itself, stops after
    finitely many steps, with the database closed and exit status 0. *)
Theorem shutdown P P' b p :
  steps launch P → exited (host P) = None → main_at P = Serving b p →
  signal_at P = signal_handler ∨ signal_at P = on_signal →
  steps P P' → exited (host P') = None → signal_at P' = Done tt →
  sock (host P') = Closed ∧ sn main_turn (main_at P', host P') ∧
  ∀ mh, rtc main_turn (main_at P', host P') mh → nf main_turn mh → gone mh.
Proof.
  intros Hstart Hx Hat Hsg Hsteps Hx' Hdone.
  assert (process_inv P') as (_ & _ & Hm & _) by (apply process_inv_steps; by etrans). specialize (Hm Hx').
  assert (listener (host P) = true) as Hl.
  { apply process_inv_steps in Hstart as (_ & _ & Hm0 & _). specialize (Hm0 Hx). rewrite Hat in Hm0.
    by destruct Hm0 as [(? & ? & ? & ? & ? & ? & ? & _) _]. }
  assert (closing P') as [Hpast Hclosed].
  { assert (closing P) as Hc.
    { split; [by rewrite Hat|]. intros _. destruct Hsg as [-> | ->]; [by apply must_signal_handler|by apply must_on_signal]. }
    clear -Hsteps Hc. induction Hsteps; eauto using closing_step. }
  specialize (Hclosed Hx'). rewrite Hdone in Hclosed. apply must_done in Hclosed; [|apply _].
  split; [done|]. split.
  - destruct (main_at P'); [done|by apply sn_serving|by apply sn_ending].
  - assert (leaving (main_at P', host P')) as Hl' by by repeat split.
    intros mh Hrun Hnf. assert (leaving mh ∨ gone mh) as [Hlv|]; [|by destruct Hnf; apply leaving_red|done].
    clear -Hrun Hl'. assert (leaving (main_at P', host P') ∨ gone (main_at P', host P')) as Hor by by left.
    revert Hor. clear Hl'. induction Hrun as [|mh mh1 mh2 Hturn _ IH]; intros Hor; [done|]. apply IH.
    destruct Hor as [Hlv|[Hg _]]; [by eapply leaving_turn|]. destruct Hturn as [Ht _]. congruence.
Qed.

(** ** A signal that comes too early *)

(** What signals may do between two calls. *)
Definition same_socket (h h' : Host) : Prop := sock h' = sock h.

#[local] Instance same_socket_preorder : PreOrder same_socket.
Proof. split; [done|]. unfold same_socket. intros ???; congruence. Qed.

(** With a network that does not fail: the process is never left. *)
Abbreviation never_leaves := (Host.must True same_socket (λ _ _, False)).

Definition deaf (P : Process) : Prop :=
  exited (host P) = None ∧ notified (host P) = true ∧ signal_at P = Done tt ∧
  (sweep_at P = Done tt ∨ sweep_at P = sweeper main_interval) ∧
  match main_at P with
  | Starting p => never_leaves p (λ r h, r.2 = None ∧ sock h ≠ Closed) (host P)
  | Serving b p => never_leaves p (λ r h, r = None ∧ sock h ≠ Closed) (host P)
  | Ending _ => False
  end.

Lemma never_leaves_accept h : sock h ≠ Closed → never_leaves accept_once (λ r h, r = None ∧ sock h ≠ Closed) h.
Proof.
  intros Hs. apply must_call. intros h1 Hs1. split; [done|]. intros [e|conn] h2 [-> Hans].
  - destruct Hans as [Hf|Hc]; [by destruct Hf|]. unfold same_socket in Hs1. congruence.
  - intros h3 Hs3. split; [done|]. intros [] h4 ->. intros h5 Hs5. split; [done|].
    unfold same_socket in *. cbn in *. congruence.
Qed.

Lemma never_leaves_listen cfg (b : DB) h :
  sock h ≠ Closed → TLSConfig cfg = None →
  never_leaves (r <- listen cfg; Done (b, r)) (λ (r : DB * option string) h, r.2 = None ∧ sock h ≠ Closed) h.
Proof.
  intros Hs Htls. unfold listen. rewrite Htls. intros h1 Hs1. split; [done|]. intros [e|] h2; [by intros [Hf _]|].
  intros [_ ->]. intros h3 Hs3. split; [done|]. intros [] h4 ->. intros h5 Hs5. split; [done|]. intros addr h6 ->.
  intros h7 Hs7. split; [done|]. intros [] h8 ->. intros h9 Hs9. split; [done|].
  unfold same_socket in *. cbn in *. by rewrite Hs9, Hs7, Hs5, Hs3.
Qed.

Lemma never_leaves_step {A} (p p' : act A) Q h h' :
  never_leaves p Q h → act_step True (p, h) (p', h') → never_leaves p' Q h' ∧ exited h' = exited h.
Proof. intros Hp Ha. destruct (must_step _ _ _ _ _ _ _ _ Hp Ha) as [?|(n & _ & [])]. done. Qed.

Lemma deaf_step P P' : 0 < main_interval → deaf P → process_step True P P' → deaf P'.
Proof.
  intros Hi (Hx & Hn & Hsg & Hsw & Hm) Hstep.
  inversion Hstep as [h m sg sw m' h' _ Ha|h m sg sw sg' h' _ _ Ha|h m sg sw sw' h' _ _ Ha|h m sg sw _]; simplify_eq;
    cbn [host main_at signal_at sweep_at] in *.
  - assert (notified h' = true) as Hn' by by eapply main_step_lasting.
    inversion Ha as [p ? p' ? Hp|b ?|b e ?|b p ? p' ? Hp|b ?|b e ?|p ? p' ? Hp|?]; simplify_eq; cbn [main_at] in *; try done.
    + destruct (never_leaves_step _ _ _ _ _ Hm Hp) as [? Hx']. split; [by cbn; rewrite Hx'|done].
    + apply must_done in Hm as [_ Hs]; [|apply _]. do 4 (split; [done|]). by apply never_leaves_accept.
    + apply must_done in Hm as [? _]; [done|apply _].
    + destruct (never_leaves_step _ _ _ _ _ Hm Hp) as [? Hx']. split; [by cbn; rewrite Hx'|done].
    + apply must_done in Hm as [_ Hs]; [|apply _]. do 4 (split; [done|]). by apply never_leaves_accept.
    + apply must_done in Hm as [? _]; [done|apply _].
  - by rewrite Hsg in Ha.
  - destruct Hsw as [->| ->]; [done|]. destruct Ha as [([] & Hp & [_ Hh])|(n & Hn' & _)]; simplify_eq/=.
    + do 3 (split; [done|]). split; [by left|done].
    + by rewrite decide_True in Hn'.
  - rewrite Hn. do 4 (split; [done|]). destruct m; try done; (eapply must_rely; [apply _| |exact Hm]); done.
Qed.

(** A stretch of a goroutine while the others wait. *)
Definition quick {A} (ph ph' : act A * Host) : Prop := exited ph.2 = None ∧ act_step True ph ph'.

Lemma quick_call {X A} (e : call X) (f : X → act A) h x h' :
  exited h = None → answers True h e x h' → rtc quick (act_bind (perform e) f, h) (f x, h').
Proof. intros Hx Hans. apply rtc_once. split; [done|]. left. by exists x. Qed.

Lemma quick_main (p p' : act (DB * option string)) h h' sg sw :
  rtc quick (p, h) (p', h') →
  rtc (process_step True) (mkProcess h (Starting p) sg sw) (mkProcess h' (Starting p') sg sw).
Proof.
  intros Hrun. remember (p, h) as ph eqn:Heq. remember (p', h') as ph' eqn:Heq'. revert p h Heq.
  induction Hrun as [|ph [p1 h1] ph2 [Hx Hs] _ IH]; intros p h Heq; simplify_eq; [done|].
  eapply rtc_l; [|by apply IH]. constructor; [done|by constructor].
Qed.

Lemma quick_migrate_each {A} (r : Result) db ran stmts (f : option string → act A) h :
  exited h = None → dbs h = {[db := ran]} →
  rtc quick (act_bind (migrate_each db stmts) f, h) (f None, with_dbs {[db := ran ++ stmts]} h).
Proof.
  revert ran h. induction stmts as [|stmt stmts IH]; intros ran h Hx Hdb; cbn [migrate_each].
  { rewrite app_nil_r, <- Hdb. by destruct h. }
  eapply rtc_l with (y := (_, with_dbs {[db := ran ++ [stmt]]} h)).
  - split; [done|]. left. exists (inr r). split; [done|]. cbn. by rewrite Hdb, alter_singleton_eq.
  - replace (ran ++ stmt :: stmts) with ((ran ++ [stmt]) ++ stmts) by by rewrite <- app_assoc.
    by apply (IH _ (with_dbs {[db := ran ++ [stmt]]} h)).
Qed.

Lemma quick_Migrate {A} (r : Result) cfg db (f : option string → act A) h :
  exited h = None → dbs h = {[db := []]} →
  rtc quick (act_bind (Migrate (backend_of cfg db)) f, h) (f None, with_dbs {[db := schema_of cfg]} h).
Proof.
  intros Hx Hdb. unfold backend_of, schema_of. destruct (decide (is_sqlite cfg)); cbn [Migrate sqliteDB postgresDB].
  - apply rtc_once. split; [done|]. left. exists (inr r). split; [done|]. cbn. by rewrite Hdb, alter_singleton_eq.
  - exact (quick_migrate_each r db [] _ f h Hx Hdb).
Qed.

Lemma quick_open_pinged {A} driver dsn wrap db (f : string + DB → act A) h :
  exited h = None → dbs h = ∅ →
  rtc quick (act_bind (open_pinged driver dsn wrap) f, h) (f (inr (wrap db)), with_dbs {[db := []]} h).
Proof.
  intros Hx Hdb. eapply rtc_l with (y := (_, with_dbs {[db := []]} h)).
  - split; [done|]. left. exists (inr db). split; [done|]. cbn. rewrite Hdb. by split.
  - apply rtc_once. split; [done|]. left. by exists None.
Qed.

(** The backend the configuration names. *)
Definition known_backend (cfg : Config) : Prop := is_sqlite cfg ∨ Backend cfg = "postgres".

Lemma quick_open_backend {A} cfg db (f : string + DB → act A) h :
  known_backend cfg → exited h = None → dbs h = ∅ →
  rtc quick (act_bind (open_backend cfg) f, h) (f (inr (backend_of cfg db)), with_dbs {[db := []]} h).
Proof.
  intros Hb Hx Hdb. unfold open_backend, backend_of. cbv zeta. destruct (decide (is_sqlite cfg)) as [Hs|Hs].
  - rewrite decide_True by done. by apply (quick_open_pinged _ _ sqliteDB).
  - rewrite decide_False, decide_True by (done || by destruct Hb). by apply (quick_open_pinged _ _ postgresDB).
Qed.

(** [main] before it listens. *)
Definition before_listen (cfg : Config) (db : nat) : act (DB * option string) :=
  r <- listen (server_config cfg); Done (backend_of cfg db, r).

Definition host_before_listen (cfg : Config) (db : nat) : Host :=
  mkHost {[db := schema_of cfg]} Unbound false false false [Sweeper; SignalHandler] None.

Lemma quick_start (r : Result) cfg db :
  showVer = false → loaded = inr cfg → known_backend cfg →
  rtc quick (main_start, boot) (before_listen cfg db, host_before_listen cfg db).
Proof.
  intros Hv Hcfg Hb. unfold main_start. rewrite Hv, Hcfg. cbn [act_bind].
  etrans; [by apply (quick_open_backend cfg db)|]. cbv beta iota. unfold start_server.
  etrans; [by apply (quick_Migrate r)|]. cbv beta iota.
  do 2 (etrans; [by apply quick_call with (x := tt)|]). done.
Qed.

(** [main] at its accept loop, the other goroutines about to begin. *)
Definition host_serving (cfg : Config) (db : nat) : Host :=
  mkHost {[db := schema_of cfg]} (Bound (Addr (server_config cfg))) true false false [Sweeper; SignalHandler] None.

Definition process_serving (cfg : Config) (db : nat) : Process :=
  mkProcess (host_serving cfg db) (Serving (backend_of cfg db) accept_once) signal_handler (sweeper main_interval).

Lemma reach_serving (r : Result) cfg db :
  showVer = false → loaded = inr cfg → known_backend cfg →
  rtc (process_step True) launch (process_serving cfg db).
Proof.
  intros Hv Hcfg Hb. etrans; [eapply quick_main, (quick_start r cfg db); done|].
  etrans; [|apply rtc_once, (step_main True (host_serving cfg db) (Starting (Done (backend_of cfg db, None)))); [done|apply main_listening]].
  apply quick_main. unfold before_listen, listen. cbn [act_bind].
  etrans; [by apply (quick_call (Listen _)) with (x := None)|]. cbv beta iota.
  etrans; [by apply (quick_call SetListener) with (x := tt)|].
  etrans; [by apply (quick_call ListenerAddr) with (x := "")|].
  by apply (quick_call (Printf _)) with (x := tt).
Qed.

(** C21: A signal may be lost. With a configuration that loads, names a known backend
    and has a positive hz, there is a run in which the signal is handled before
    [main] has stored the listener: the goroutine that was to close it finds
    none and is done, and from there, with a network that does not fail, the
    process never ends, whatever signals follow, as these now go to a channel
    that nobody reads. *)
Theorem early_signal_lost (r : Result) cfg :
  showVer = false → loaded = inr cfg → known_backend cfg → 0 < sweepInterval cfg →
  ∃ P, rtc (process_step True) launch P ∧
    notified (host P) = true ∧ listener (host P) = false ∧ signal_at P = Done tt ∧
    ∀ P', rtc (process_step True) P P' → exited (host P') = None ∧ ∀ p, main_at P' ≠ Ending p.
Proof.
  intros Hv Hcfg Hb Hi. set (h := host_before_listen cfg 0).
  exists (mkProcess (with_notified h) (Starting (before_listen cfg 0)) (Done tt) (sweeper main_interval)).
  split; [|split; [done|split; [done|split; [done|]]]].
  - unfold launch. etrans; [eapply quick_main, (quick_start r cfg 0); done|].
    eapply rtc_l. { apply step_signal_handler; [done|set_solver|]. left. by exists tt. }
    eapply rtc_l. { by apply step_signal. }
    eapply rtc_l. { apply step_signal_handler; [done|set_solver|]. left. by exists tt. }
    eapply rtc_l. { apply step_signal_handler; [done|set_solver|]. left. by exists tt. }
    apply rtc_once. apply step_signal_handler; [done|set_solver|]. left. by exists false.
  - assert (0 < main_interval) as Hi' by (unfold main_interval; by rewrite Hcfg).
    assert (∀ P P', rtc (process_step True) P P' → deaf P → deaf P') as Hgen.
    { induction 1; intros ?; eauto using deaf_step. }
    intros P' Hrun. apply Hgen in Hrun as (Hx & _ & _ & _ & Hm).
    + split; [done|]. intros p Hp. by rewrite Hp in Hm.
    + do 3 (split; [done|]). split; [by right|]. by apply never_leaves_listen.
Qed.
End main.
End code.

(** ** Witnesses *)

#[local] Instance no_types : SqlTypes := {| Arg := unit; Result := unit; Rows := unit; Row := unit |}.
#[local] Existing Instance ascii_only.

(** Nothing is configured. *)
Abbreviation no_file := (λ _ : string, inl "no such file" : string + string).
Abbreviation no_env := (λ _ : string, "").

Lemma process_safe_witness :
  let P := process_serving no_file no_env "" [] Default 0 in
  rtc (process_step True) (launch no_file no_env "" [] false "dev") P ∧
  serving no_file no_env "" [] false (sqliteDB 0) (host P).
Proof.
  intros P. assert (rtc (process_step True) (launch no_file no_env "" [] false "dev") P) as Hrun.
  { apply (reach_serving (H := no_types) _ _ _ _ _ _ tt); [done|by vm_compute|by left; left]. }
  split; [done|]. by eapply (process_safe no_file no_env "" [] false "dev" True P Hrun).
Defined.

Lemma shutdown_witness :
  let P := process_serving no_file no_env "" [] Default 0 in
  let P' := mkProcess (with_sock Closed (with_notified (host P))) (main_at P) (Done tt) (sweep_at P) in
  sock (host P') = Closed ∧ sn (main_turn True) (main_at P', host P') ∧
  ∀ mh, rtc (main_turn True) (main_at P', host P') mh → nf (main_turn True) mh → gone mh.
Proof.
  intros P P'. assert (rtc (process_step True) (launch no_file no_env "" [] false "dev") P) as Hrun.
  { apply (reach_serving (H := no_types) _ _ _ _ _ _ tt); [done|by vm_compute|by left; left]. }
  eapply (shutdown no_file no_env "" [] false "dev" True P P' _ _ Hrun); [done|done|by left| |done|done].
  eapply rtc_l. { apply step_signal_handler; [done|set_solver|]. left. by exists tt. }
  eapply rtc_l. { by apply step_signal. }
  eapply rtc_l. { apply step_signal_handler; [done|set_solver|]. left. by exists tt. }
  eapply rtc_l. { apply step_signal_handler; [done|set_solver|]. left. by exists tt. }
  eapply rtc_l. { apply step_signal_handler; [done|set_solver|]. left. by exists true. }
  apply rtc_once. apply step_signal_handler; [done|set_solver|]. left. by exists None.
Defined.

Lemma early_signal_lost_witness :
  ∃ P, rtc (process_step True) (launch no_file no_env "" [] false "dev") P ∧
    notified (host P) = true ∧ listener (host P) = false ∧ signal_at P = Done tt ∧
    ∀ P', rtc (process_step True) P P' → exited (host P') = None ∧ ∀ p, main_at P' ≠ Ending p.
Proof.
  apply (early_signal_lost (H := no_types) no_file no_env "" [] false "dev" tt Default); [done|by vm_compute|by left; left|done].
Defined.
